(* ===== verification/_CoqProject ===== *)
-Q . S2P
Prelude.v
Lib.v
Regex.v
Murmur.v
Features.v
Private.v
Kernel.v
Perms.v
Caps.v
Sha256.v
DfaRules.v
DfaCache.v
Expr.v
Accept.v
Dfa.v
Minimize.v
RegexParse.v
Glob.v
Simplify.v
AareRules.v
