(* ===== verification/Prelude.v ===== *)
(** * AppArmor user space: a model of the policy front end and of libapparmor

    AppArmor confines programs by policy.  Its user space has two layers that
    this development models from their C sources:

    - the policy compiler under [parser/], which reads profile text, turns its
      globs into regular expressions, merges permissions and hands the result
      to the automaton builder and the kernel;
    - libapparmor under [libraries/libapparmor/], which finds the kernel's
      interfaces, describes the kernel's feature set, walks policy and cache
      directories, and changes and queries confinement.

    The compiler calls the library for feature sets, directory walks and cache
    headers; both read and build C strings in fixed buffers, and most of what
    can go wrong is there.

    ** Files

    - [Prelude]: characters as bytes, C strings as the list of the characters
      from a pointer to the terminator ([deref] of the empty list reads the
      terminator), buffers as lists with in-range updates, fixed-width integers
      as [Z] with explicit wrapping, [read(2)] as a list of counts it may
      return, error numbers, and the tactics of the development.
    - [Lib]: [parser/lib.c] (digits, [strntol], [strn_escseq]) and the token
      unescaping of [parser/parser_misc.c] ([processunquoted], [processquoted],
      [processid]).
    - [Regex]: [parser/parser_regex.c] up to [local_name]: [filter_slashes], and
      [convert_aaregex_to_pcre] with its state as a record and one definition
      per part of its loop; the lexer [regex_lex] of
      [parser/libapparmor_re/parse.y] that reads the result.
    - [Murmur]: [libapparmor/src/PMurHash.c], the progressive MurmurHash3.
    - [Features]: [libapparmor/src/features.c]: flattening a feature directory
      into a bounded buffer, the text walk behind [aa_features_supports] and
      [aa_features_value], feature objects, their digest, files and references.
    - [Private]: [libapparmor/src/private.c]: directory walks, the overlay of
      directories with the array it is kept in, skipped file names, the header
      of compressed caches.
    - [Kernel]: [libapparmor/src/kernel.c]: interface discovery, confinement
      contexts, attribute files and system calls, hats and profiles, peers,
      permission queries, overlay lists.
    - [Perms]: the masks of [parser/immunix.h], permission strings, labels and
      rule prefixes of [parser/parser_misc.c] and [parser/rule.h].
    - [Caps]: the capability table of [parser/parser_misc.c], with the
      references of its maps and the reallocation of its vector.
    - [Sha256]: the digest of the DFA cache in [parser/parser_regex.c].  It and
      [Murmur] are instances of the class [Digest] of the prelude, which is all
      that [DfaCache] knows of a digest.
    - [DfaRules]: the rest of [parser/parser_regex.c] up to the cache:
      [process_dfa_entry] and [process_profile_name_xmatch], with rule sets as
      the list of the rules that were added, and the walks over the blocks of a
      profile.
    - [DfaCache]: the cache of compiled automata: the two hashes, the file
      format, lookup and store on a directory as a finite map, and
      [process_profile_rules] around them.

    ** What the theorems show

    - Globs: the conversion refuses exactly the ill-formed globs and never
      leaves its depth table; a quoted string becomes a pattern whose tokens
      are its characters; a pattern is basic iff it has no glob character.
      Slash filtering is idempotent and keeps what it must.
    - Scanning: numbers and escapes of every character are read back, and the
      unescaped token fits its buffer.
    - Feature sets: flattening is exact or fails, the text walk is a lookup in
      the feature tree, constructors and references keep the object invariant,
      stored files read back to the same object, equality is equality of texts.
    - Digests: the incremental digests compute the published functions and do
      not depend on how the message is cut into pieces.
    - Walks: the overlay visits each name once, in order, from the first
      directory that has it; one-directory walks visit all entries and report
      failures exactly.
    - Kernel interface: contexts of any length are read whole and split at the
      last mode, commands stay inside their blocks, queries are decided bit by
      bit as documented.
    - Permissions: what the lexer accepts is parsed within bounds to the union
      of its units with one exec qualifier; the two halves of a mask can be
      read back; labels and prefixes behave as documented.
    - Automaton rules: what the rules of a file entry grant and match; the
      blocks that are hashed are the blocks that are compiled.
    - DFA cache: the hashed bytes determine the compiled rules; stored automata
      are found again and partial files never used; through the cache every
      sequence of compilations gives what it gives without, as long as the
      settings left out of the hash do not change.
    - Theorems that show a defect state it as a property of the code: an
      overread of one character, an endless loop, a truncated or overflowing
      query, a reference left dangling, a digest that is not SHA-256, an
      automaton reused for another permission table version.

    ** Bounds and fuel

    Loops that are not structural take fuel, always one more than the length of
    the string (or the sum of the lengths) they consume, and the theorems show
    the result for that fuel, so none is met only by running out.  The doubling
    loop of [aa_getprocattr] takes the length of the contents as fuel, which is
    more than the number of doublings.  Where a loop of the program does not
    end, the theorem says so for every fuel.

    ** Not modelled

    Memory allocation is taken to succeed.  System calls, the file system and
    the kernel are arguments, and so are the generated parser of regular
    expressions and the construction of automata.  To be modelled next, in this
    order: the serialisation of policy ([parser/parser_interface.c]), policy
    loading and the two policy caches, the symbol table and variables, aliases
    and includes, the log parser, then the automaton library and the rule
    classes in C++.  The grammar actions and the command-line tools are not
    modelled; language bindings, the Python tools, the profiles, the
    translations and the kernel patches are outside the C core. *)

From Stdlib Require Export List ZArith Lia Bool Ascii String.
From stdpp Require Export base tactics list numbers strings.
Export ListNotations.

(** ** Notations *)

Declare Scope aa_scope.
Delimit Scope aa_scope with aa.
Global Open Scope Z_scope.
Global Open Scope list_scope.

(** A string literal read as the characters of a C string, without its NUL. *)
Notation "$ s" := (list_ascii_of_string s%string) (at level 1, format "$ s").

(** ** Automation of the development *)

Create HintDb aa discriminated.

(** Split the conditionals and matches of the goal and of the hypotheses,
    discarding the impossible branches. *)
Ltac split_case :=
  match goal with
  | |- context [if ?b then _ else _] => destruct b eqn:?
  | |- context [match ?x with _ => _ end] => destruct x eqn:?
  end.
Ltac split_case_in H :=
  match type of H with
  | context [if ?b then _ else _] => destruct b eqn:?
  | context [match ?x with _ => _ end] => destruct x eqn:?
  end.
Ltac split_cases := repeat (split_case; simplify_eq/=; try done).
Ltac split_cases_in H := repeat (split_case_in H; simplify_eq/=; try done).

(** Turn the boolean comparisons of the hypotheses into propositions. *)
Ltac breflect :=
  repeat match goal with
  | H : (_ && _)%bool = true |- _ => apply andb_true_iff in H; destruct H
  | H : (_ && _)%bool = false |- _ => apply andb_false_iff in H
  | H : (_ || _)%bool = true |- _ => apply orb_true_iff in H
  | H : (_ || _)%bool = false |- _ => apply orb_false_iff in H; destruct H
  | H : negb _ = true |- _ => apply negb_true_iff in H
  | H : negb _ = false |- _ => apply negb_false_iff in H
  | H : (_ =? _) = true |- _ => apply Z.eqb_eq in H
  | H : (_ =? _) = false |- _ => apply Z.eqb_neq in H
  | H : (_ <? _) = true |- _ => apply Z.ltb_lt in H
  | H : (_ <? _) = false |- _ => apply Z.ltb_ge in H
  | H : (_ <=? _) = true |- _ => apply Z.leb_le in H
  | H : (_ <=? _) = false |- _ => apply Z.leb_gt in H
  | H : (_ >? _) = true |- _ => rewrite Z.gtb_ltb in H
  | H : (_ >? _) = false |- _ => rewrite Z.gtb_ltb in H
  | H : (_ >=? _) = true |- _ => rewrite Z.geb_leb in H
  | H : (_ >=? _) = false |- _ => rewrite Z.geb_leb in H
  | H : Ascii.eqb _ _ = true |- _ => apply Ascii.eqb_eq in H
  | H : Ascii.eqb _ _ = false |- _ => apply Ascii.eqb_neq in H
  | H : (_ =? _)%nat = true |- _ => apply Nat.eqb_eq in H
  | H : (_ =? _)%nat = false |- _ => apply Nat.eqb_neq in H
  | H : (_ <? _)%nat = true |- _ => apply Nat.ltb_lt in H
  | H : (_ <? _)%nat = false |- _ => apply Nat.ltb_ge in H
  | H : (_ <=? _)%nat = true |- _ => apply Nat.leb_le in H
  | H : (_ <=? _)%nat = false |- _ => apply Nat.leb_gt in H
  end.

(** ** Characters *)

(** The C type [char] as a byte; [code] is its value as [unsigned char] and
    [schar] its value as the signed [char] of the supported platforms. *)
Definition code (c : ascii) : Z := Z.of_N (N_of_ascii c).
Definition chr (z : Z) : ascii := ascii_of_N (Z.to_N (z mod 256)).
Definition schar (c : ascii) : Z := if code c <? 128 then code c else code c - 256.

Definition NUL : ascii := "000"%char.
Definition NEWLINE : ascii := "010"%char.

(** The classification functions of <ctype.h>, in the C locale. *)
Definition isascii (c : ascii) : bool := code c <? 128.
Definition isdigit (c : ascii) : bool := (48 <=? code c) && (code c <=? 57).
Definition isupper (c : ascii) : bool := (65 <=? code c) && (code c <=? 90).
Definition islower (c : ascii) : bool := (97 <=? code c) && (code c <=? 122).
Definition isalpha (c : ascii) : bool := isupper c || islower c.
Definition isspace (c : ascii) : bool :=
  (code c =? 32) || ((9 <=? code c) && (code c <=? 13)).
Definition tolower (c : ascii) : ascii := if isupper c then chr (code c + 32) else c.

Lemma code_range c : 0 <= code c < 256.
Proof. unfold code. pose proof (N_ascii_bounded c). lia. Qed.

Lemma chr_code c : chr (code c) = c.
Proof.
  unfold chr. rewrite Z.mod_small by apply code_range.
  unfold code. rewrite N2Z.id. apply ascii_N_embedding.
Qed.

Lemma code_chr_mod z : code (chr z) = z mod 256.
Proof.
  unfold chr, code. rewrite N_ascii_embedding; rewrite ?Z2N.id; try lia;
    pose proof (Z.mod_pos_bound z 256 ltac:(lia)); lia.
Qed.

Lemma code_chr z : 0 <= z < 256 -> code (chr z) = z.
Proof. intros. rewrite code_chr_mod. by apply Z.mod_small. Qed.

Lemma code_inj c d : code c = code d -> c = d.
Proof. intros H. by rewrite <- (chr_code c), H, chr_code. Qed.

(** Decide a property of all the characters by running through them. *)
Definition all_chars : list ascii := map (fun n => ascii_of_nat n) (seq 0 256).

Lemma all_chars_spec (P : ascii -> bool) :
  forallb P all_chars = true -> forall c, P c = true.
Proof.
  rewrite forallb_forall. intros H c. apply H. unfold all_chars.
  apply in_map_iff. exists (nat_of_ascii c). split.
  - apply ascii_nat_embedding.
  - apply in_seq. pose proof (nat_ascii_bounded c). lia.
Qed.

Ltac by_chars c :=
  revert c; refine (all_chars_spec _ _); vm_compute; reflexivity.

Lemma isdigit_spec c : isdigit c = true <-> 48 <= code c <= 57.
Proof. unfold isdigit. rewrite andb_true_iff, !Z.leb_le. lia. Qed.

(** ** Pointers into C strings *)

(** A [const char *] into a NUL-terminated string is the suffix of the
    characters from the pointer up to the terminator; [deref] is [*p], which
    reads the terminator at the end of the string. *)
Abbreviation cstr := (list ascii) (only parsing).

Definition deref (p : cstr) : ascii := hd NUL p.
Definition at_ (p : cstr) (i : nat) : ascii := nth i p NUL.
Definition strlen (p : cstr) : Z := Z.of_nat (length p).

(** No NUL inside: the list is the contents of a C string. *)
Definition cstr_ok (p : cstr) : Prop := Forall (fun c => c <> NUL) p.

(** [strchr (s, c) != NULL]: the terminator is part of the string. *)
Definition strchr_found (s : cstr) (c : ascii) : bool :=
  Ascii.eqb c NUL || existsb (Ascii.eqb c) s.

(** [strncmp (p, q, strlen (q)) == 0] *)
Fixpoint starts_with (q p : cstr) : bool :=
  match q, p with
  | [], _ => true
  | x :: q', y :: p' => Ascii.eqb x y && starts_with q' p'
  | _ :: _, [] => false
  end.

(** [strcmp (p, q) == 0] *)
Definition str_eqb (p q : cstr) : bool := bool_decide (p = q).

(** [strstr (p, q)]: the suffix of [p] at the first occurrence of [q]. *)
Fixpoint strstr (p q : cstr) : option cstr :=
  if starts_with q p then Some p
  else match p with
       | [] => None
       | _ :: p' => strstr p' q
       end.

Lemma starts_with_app q r : starts_with q (q ++ r) = true.
Proof. induction q; simpl; [done|]. by rewrite Ascii.eqb_refl. Qed.

Lemma starts_with_refl q : starts_with q q = true.
Proof. rewrite <- (app_nil_r q) at 2. apply starts_with_app. Qed.

Lemma starts_with_spec q p : starts_with q p = true <-> exists r, p = q ++ r.
Proof.
  split; [|intros [r ->]; apply starts_with_app].
  revert p. induction q as [|x q IH]; intros [|y p]; simpl; intros H; eauto; try done.
  apply andb_true_iff in H as [->%Ascii.eqb_eq H].
  destruct (IH _ H) as [r ->]. by exists r.
Qed.

Lemma strstr_spec p q r :
  strstr p q = Some r ->
  exists pre, p = pre ++ r /\ starts_with q r = true /\
    forall k, (k < length pre)%nat -> starts_with q (drop k p) = false.
Proof.
  induction p as [|x p IH]; simpl.
  - destruct (starts_with q []) eqn:E; [|done]. intros [= <-]. exists [].
    split_and!; [done|done|intros ? H; simpl in H; lia].
  - destruct (starts_with q (x :: p)) eqn:E.
    + intros [= <-]. exists []. split_and!; [done|done|intros ? H; simpl in H; lia].
    + intros H. destruct (IH H) as (pre & -> & Hs & Hk). exists (x :: pre).
      split_and!; [done|done|]. intros [|k] Hlt; simpl; [done|].
      apply Hk. simpl in Hlt. lia.
Qed.

Lemma strstr_None p q : strstr p q = None <-> forall k, starts_with q (drop k p) = false.
Proof.
  induction p as [|x p IH]; simpl.
  - split.
    + intros H k. rewrite drop_nil. by destruct (starts_with q []).
    + intros H. specialize (H 0%nat). simpl in H. by rewrite H.
  - destruct (starts_with q (x :: p)) eqn:E.
    + split; [done|]. intros H. specialize (H 0%nat). simpl in H. congruence.
    + rewrite IH. split; intros H.
      * intros [|k]; simpl; auto.
      * intros k. apply (H (S k)).
Qed.

Lemma str_eqb_eq p q : str_eqb p q = true <-> p = q.
Proof. apply bool_decide_eq_true. Qed.

Lemma existsb_str_eqb n l : existsb (str_eqb n) l = true <-> In n l.
Proof.
  rewrite existsb_exists. split; [intros (x & H & ->%str_eqb_eq); done|].
  intros H. exists n. split; [done|by apply str_eqb_eq].
Qed.

(** The sign of [strcmp (p, q)], which compares the bytes as [unsigned char]. *)
Fixpoint strcmp (p q : cstr) : comparison :=
  match p, q with
  | [], [] => Eq
  | [], _ :: _ => Lt
  | _ :: _, [] => Gt
  | x :: p, y :: q => match code x ?= code y with Eq => strcmp p q | r => r end
  end.

Definition strlt (p q : cstr) : Prop := strcmp p q = Lt.

Lemma strcmp_eq p q : strcmp p q = Eq <-> p = q.
Proof.
  revert q. induction p as [|x p IH]; intros [|y q]; simpl; try done.
  destruct (Z.compare_spec (code x) (code y)) as [E|E|E].
  - apply code_inj in E as ->. rewrite IH. split; [by intros ->|by intros [= ->]].
  - split; [done|]. intros [= -> ->]. lia.
  - split; [done|]. intros [= -> ->]. lia.
Qed.

Lemma strcmp_antisym p q : strcmp q p = CompOpp (strcmp p q).
Proof.
  revert q. induction p as [|x p IH]; intros [|y q]; simpl; try done.
  rewrite Z.compare_antisym. destruct (code x ?= code y); simpl; auto.
Qed.

Lemma strlt_gt p q : strcmp p q = Gt <-> strlt q p.
Proof. unfold strlt. rewrite (strcmp_antisym p q). by destruct (strcmp p q). Qed.

Lemma strlt_irrefl p : ~ strlt p p.
Proof. unfold strlt. by rewrite (proj2 (strcmp_eq p p) eq_refl). Qed.

#[export] Instance strlt_trans : Transitive strlt.
Proof.
  intros p. induction p as [|x p IH]; intros [|y q] [|z r]; unfold strlt; simpl; try done.
  destruct (Z.compare_spec (code x) (code y)), (Z.compare_spec (code y) (code z)),
    (Z.compare_spec (code x) (code z)); try lia; try done. apply IH.
Qed.

Lemma cstr_ok_app p q : cstr_ok (p ++ q) <-> cstr_ok p /\ cstr_ok q.
Proof. apply Forall_app. Qed.

(** The text of a buffer as the string functions see it: up to the first NUL. *)
Fixpoint until_nul (buf : cstr) : cstr :=
  match buf with
  | [] => []
  | c :: buf => if Ascii.eqb c NUL then [] else c :: until_nul buf
  end.

Lemma until_nul_id s : cstr_ok s -> until_nul s = s.
Proof.
  induction 1 as [|c s Hc _ IH]; [done|]. simpl.
  destruct (Ascii.eqb c NUL) eqn:E; breflect; [done|by rewrite IH].
Qed.

Lemma until_nul_app s rest : cstr_ok s -> until_nul (s ++ NUL :: rest) = s.
Proof.
  induction 1 as [|c s Hc _ IH]; [done|]. cbn [app until_nul].
  destruct (Ascii.eqb c NUL) eqn:E; breflect; [done|by rewrite IH].
Qed.

Lemma until_nul_ok s : cstr_ok (until_nul s).
Proof.
  induction s as [|c s IH]; [constructor|]. simpl.
  destruct (Ascii.eqb c NUL) eqn:E; [constructor|]. constructor; [|done]. by breflect.
Qed.

Lemma until_nul_length s : (length (until_nul s) <= length s)%nat.
Proof. induction s as [|c s IH]; simpl; [lia|]. destruct (Ascii.eqb c NUL); simpl; lia. Qed.

(** ** Numbers as [printf] writes them *)

Definition hex_digit (d : Z) : ascii := if d <? 10 then chr (48 + d) else chr (87 + d).

(** ["%08" PRIx32] *)
Definition hex8 (x : Z) : cstr :=
  map (fun i => hex_digit (x / 16 ^ (7 - i) mod 16)) [0; 1; 2; 3; 4; 5; 6; 7].

(** ["%d"]: eleven digits are enough for an [int]. *)
Fixpoint dec_digits (fuel : nat) (n : Z) (acc : cstr) : cstr :=
  match fuel with
  | O => acc
  | S fuel =>
      let acc := chr (48 + n mod 10) :: acc in
      if n <? 10 then acc else dec_digits fuel (n / 10) acc
  end.
Definition dec (z : Z) : cstr :=
  if z <? 0 then "-"%char :: dec_digits 11 (- z) [] else dec_digits 11 z [].

(** ** Reading files *)

(** [read (2)] on the unread contents of a file: [Some k] is a read that
    returns [k] bytes (clamped to what it may return), [None] one that fails. *)
Definition read_len (k : nat) (size : nat) (rem : cstr) : nat :=
  Nat.min (Nat.max 1 k) (Nat.min size (length rem)).

(** ** Error numbers *)

(** The values of [errno] the modelled functions set or test. *)
Inductive errno :=
  | EPERM | ENOENT | EIO | E2BIG | ENOMEM | EACCES | EBUSY | EEXIST | EISDIR | EINVAL | ENOSPC
  | ERANGE | ENOSYS | EPROTO | EOPNOTSUPP | EPROTONOSUPPORT | ENOBUFS | ECANCELED.

#[export] Instance errno_eq_dec : EqDecision errno.
Proof. solve_decision. Defined.

(** ** Fixed-width integers *)

Definition wrap (w x : Z) : Z := x mod 2 ^ w.
Definition u8 (x : Z) : Z := wrap 8 x.
Definition u16 (x : Z) : Z := wrap 16 x.
Definition u32 (x : Z) : Z := wrap 32 x.
Definition u64 (x : Z) : Z := wrap 64 x.

Lemma wrap_range w x : 0 <= w -> 0 <= wrap w x < 2 ^ w.
Proof. intros. apply Z.mod_pos_bound. lia. Qed.

Lemma wrap_small w x : 0 <= x < 2 ^ w -> wrap w x = x.
Proof. apply Z.mod_small. Qed.

(** Two numbers on disjoint bits: or is addition. *)
Lemma lor_shiftl_add a b k : 0 <= k -> 0 <= a < 2 ^ k -> Z.lor a (Z.shiftl b k) = a + b * 2 ^ k.
Proof.
  intros Hk Ha. rewrite <- Z.shiftl_mul_pow2 by lia.
  assert (Z.land a (Z.shiftl b k) = 0) as H0.
  { apply Z.bits_inj'. intros n Hn. rewrite Z.land_spec, Z.bits_0.
    destruct (Z.lt_ge_cases n k).
    - rewrite Z.shiftl_spec_low by lia. apply andb_false_r.
    - rewrite <- (Z.mod_small a (2 ^ k)) by lia.
      rewrite Z.mod_pow2_bits_high by lia. done. }
  pose proof (Z.add_lor_land a (Z.shiftl b k)). lia.
Qed.

Lemma wrap_idem w x : wrap w (wrap w x) = wrap w x.
Proof.
  unfold wrap. destruct (decide (2 ^ w = 0)) as [->|]; [by rewrite !Z.mod_0_r|].
  by apply Z.mod_mod.
Qed.

Lemma lxor_range w a b :
  0 <= w -> 0 <= a < 2 ^ w -> 0 <= b < 2 ^ w -> 0 <= Z.lxor a b < 2 ^ w.
Proof.
  intros Hw Ha Hb. assert (0 <= Z.lxor a b) by (apply Z.lxor_nonneg; lia). split; [done|].
  assert (Z.lxor a b = Z.lxor a b mod 2 ^ w) as ->; [|apply Z.mod_pos_bound; lia].
  apply Z.bits_inj'. intros n Hn. destruct (Z.lt_ge_cases n w).
  - by rewrite Z.mod_pow2_bits_low by lia.
  - rewrite Z.mod_pow2_bits_high, Z.lxor_spec by lia.
    rewrite <- (Z.mod_small a (2 ^ w)), <- (Z.mod_small b (2 ^ w)) by lia.
    by rewrite !Z.mod_pow2_bits_high by lia.
Qed.

Lemma lor_range w a b :
  0 <= w -> 0 <= a < 2 ^ w -> 0 <= b < 2 ^ w -> 0 <= Z.lor a b < 2 ^ w.
Proof.
  intros Hw Ha Hb. assert (0 <= Z.lor a b) by (apply Z.lor_nonneg; lia). split; [done|].
  assert (Z.lor a b = Z.lor a b mod 2 ^ w) as ->; [|apply Z.mod_pos_bound; lia].
  apply Z.bits_inj'. intros n Hn. destruct (Z.lt_ge_cases n w).
  - by rewrite Z.mod_pow2_bits_low by lia.
  - rewrite Z.mod_pow2_bits_high, Z.lor_spec by lia.
    rewrite <- (Z.mod_small a (2 ^ w)), <- (Z.mod_small b (2 ^ w)) by lia.
    by rewrite !Z.mod_pow2_bits_high by lia.
Qed.

(** [~] on 32 bits *)
Definition not32 (x : Z) : Z := Z.lxor x (2 ^ 32 - 1).

Lemma mask_bit_low mask i : 0 <= mask < 2 ^ 32 -> Z.testbit mask i = true -> i < 32.
Proof.
  intros Hm Hi. destruct (Z.lt_ge_cases i 32); [done|]. rewrite <- (Z.mod_small mask (2 ^ 32)) in Hi by lia.
  by rewrite Z.mod_pow2_bits_high in Hi by lia.
Qed.

Lemma ones32_bit i : 0 <= i < 32 -> Z.testbit (2 ^ 32 - 1) i = true.
Proof. intros Hi. change (2 ^ 32 - 1) with (Z.pred (2 ^ 32)). rewrite <- Z.ones_equiv. apply Z.ones_spec_low. lia. Qed.

Lemma not32_bit x i : 0 <= i < 32 -> Z.testbit (not32 x) i = negb (Z.testbit x i).
Proof. intros Hi. unfold not32. rewrite Z.lxor_spec, ones32_bit by lia. apply xorb_true_r. Qed.

Lemma Forall_tail {A} (P : A -> Prop) l : Forall P l -> Forall P (tail l).
Proof. by destruct 1. Qed.

(** ** Loops with a bound *)

(** A loop whose body either goes on with a new state or ends with a result,
    run at most [n] times.  The bound is a binary number, so that bounds that
    are exponential in the size of the input can still be computed with. *)
Section bounded_loop.
Context {A B : Type} (body : A -> A + B).

Fixpoint ploop (n : positive) (a : A) : A + B :=
  let twice n a := match ploop n a with inl a => ploop n a | inr b => inr b end in
  match n with
  | xH => body a
  | xO n => twice n a
  | xI n => match body a with inl a => twice n a | inr b => inr b end
  end.
Fixpoint nloop (n : nat) (a : A) : A + B :=
  match n with
  | O => inl a
  | S n => match body a with inl a => nloop n a | inr b => inr b end
  end.

Lemma nloop_add n m a : nloop (n + m) a = match nloop n a with inl a => nloop m a | inr b => inr b end.
Proof. revert a; induction n as [|n IH]; intros a; cbn; [done|]. destruct (body a); [apply IH|done]. Qed.
Lemma ploop_nloop n a : ploop n a = nloop (Pos.to_nat n) a.
Proof.
  assert (Htwice : forall n a, (forall a, ploop n a = nloop (Pos.to_nat n) a) ->
    match ploop n a with inl a => ploop n a | inr b => inr b end = nloop (Pos.to_nat n + Pos.to_nat n) a).
  { intros k x IH. rewrite nloop_add, IH. destruct (nloop (Pos.to_nat k) x); [apply IH|done]. }
  revert a; induction n as [n IH|n IH|]; intros a.
  - rewrite Pos2Nat.inj_xI. replace (S (2 * Pos.to_nat n)) with (S (Pos.to_nat n + Pos.to_nat n)) by lia.
    cbn. destruct (body a); [by apply Htwice|done].
  - rewrite Pos2Nat.inj_xO. replace (2 * Pos.to_nat n)%nat with (Pos.to_nat n + Pos.to_nat n)%nat by lia.
    by apply Htwice.
  - change (Pos.to_nat 1) with 1%nat. cbn. by destruct (body a).
Qed.

(** A loop that keeps an invariant and decreases a measure ends before the
    bound. *)
Lemma ploop_spec (I : A -> Prop) (Q : B -> Prop) (measure : A -> nat) n a :
  (forall a, I a -> match body a with
                    | inl a' => I a' /\ (measure a' < measure a)%nat
                    | inr b => Q b end) ->
  I a -> (measure a < Pos.to_nat n)%nat -> exists b, ploop n a = inr b /\ Q b.
Proof.
  intros Hbody. rewrite ploop_nloop. generalize (Pos.to_nat n); intros k. revert a.
  induction k as [|k IH]; intros a Ha Hm; [lia|]. cbn. specialize (Hbody a Ha).
  destruct (body a) as [a'|b]; [|eauto]. destruct Hbody as [Ha' Hlt]. apply IH; [done|lia].
Qed.
End bounded_loop.

(** ** What an incremental digest promises *)

Definition is_byte (b : Z) : Prop := 0 <= b < 256.

(** Facts about all elements of a list, element by element. *)
#[export] Hint Resolve Forall_nil_2 Forall_cons_2 Forall_app_2 Forall_take Forall_drop : aa.
#[export] Hint Extern 1 (is_byte _) => (unfold is_byte; lia) : aa.

(** A digest is started, fed in pieces and finished.  [dg_fresh] says which
    contexts may be started with (the program does not initialise its buffers);
    the law is that only the concatenation of the pieces counts. *)
Class Digest (ctx D : Type) := {
  dg_fresh : ctx -> Prop;
  dg_init : ctx -> ctx;
  dg_update : ctx -> list Z -> ctx;
  dg_final : ctx -> D;
  dg_hash : list Z -> D;
  dg_pieces : forall c pieces,
    dg_fresh c -> Forall (Forall is_byte) pieces ->
    dg_final (fold_left dg_update pieces (dg_init c)) = dg_hash (concat pieces)
}.
