(* ===== verification/Lib.v ===== *)
(** Number and escape-sequence scanning of the policy parser
    ([parser/lib.c]), and the token unescaping built on it
    ([processunquoted], [processquoted], [processid] of
    [parser/parser_misc.c]). *)

From S2P Require Import Prelude.

(** ** Digits and numbers *)

Definition isodigit (c : ascii) : bool :=
  (code "0"%char <=? code c) && (code c <=? code "7"%char).

Definition chrtoi (c : ascii) (base : Z) : Z :=
  if (base <? 2) || (base >? 36) then -1
  else
    let val :=
      if isdigit c then code c - code "0"%char
      else if isalpha c && isascii c then code (tolower c) - code "a"%char + 10
      else -1 in
    if val >=? base then -1 else val.

(** The [for] loop of [strntol]: the value so far and the unread characters.
    The terminator is not a digit, so the loop ends with the string. *)
Fixpoint strntol_loop (str : cstr) (base maxval n val : Z) : Z * cstr :=
  match str with
  | [] => (val, [])
  | ch :: rest =>
      if n =? 0 then (val, str)
      else
        let c := chrtoi ch base in
        if c =? -1 then (val, str)
        else
          let tmp := val * base + c in
          if tmp >? maxval then (val, str)
          else strntol_loop rest base maxval (n - 1) tmp
  end.

Definition strntol (str : cstr) (base maxval n : Z) : Z * cstr :=
  if (base >? 1) && (base <? 37) then strntol_loop str base maxval n 0 else (0, str).

(** ** Escape sequences *)

Definition SIZE_MAX : Z := 2 ^ 64 - 1.

(** [strn_escseq] returns its value and the new [*pos]; [None] is the pointer
    one past the terminating NUL, which the function yields when it is entered
    on the terminator itself. *)
Definition escseq_number (pos : cstr) (base : Z) (n : Z) (err : cstr) : Z * option cstr :=
  let '(tmp, stop) := strntol pos base 255 n in
  if (tmp =? 0) && (length stop =? length pos)%nat then (-1, Some err)
  else (tmp, Some stop).

Definition strn_escseq (pos chrs : cstr) (n : Z) : Z * option cstr :=
  if n <? 1 then (-1, Some pos)
  else if isodigit (deref pos) then escseq_number pos 8 (Z.min 3 n) pos
  else
    let c := deref pos in
    let next := match pos with [] => None | _ :: p => Some p end in
    let n := n - 1 in
    let rest := tail pos in
    if Ascii.eqb c "\"%char then (code "\"%char, next)
    else if Ascii.eqb c (chr 34) then (34, next)
    else if Ascii.eqb c "d"%char then escseq_number rest 10 (Z.min 3 n) rest
    else if Ascii.eqb c "x"%char then escseq_number rest 16 (Z.min 2 n) rest
    else if Ascii.eqb c "a"%char then (7, next)
    else if Ascii.eqb c "e"%char then (27, next)
    else if Ascii.eqb c "f"%char then (12, next)
    else if Ascii.eqb c "n"%char then (10, next)
    else if Ascii.eqb c "r"%char then (13, next)
    else if Ascii.eqb c "t"%char then (9, next)
    else if strchr_found chrs c then (schar c, next)
    else (-1, Some pos).

Definition str_escseq (pos chrs : cstr) : Z * option cstr := strn_escseq pos chrs SIZE_MAX.

(** ** Token unescaping *)

(** The characters that the back end treats specially: an escape that yields
    one of them keeps its backslash. *)
Definition aare_special : cstr := $"*?[]{}^,\".

(** One pass of the [while] loop of [processunquoted] on the memory [string]
    with [len] characters left: the characters stored, the memory after the
    ones read and the new [len].  [pos] starts one past the backslash and the
    scan is bounded by [len], as in the code. *)
Definition unquote_step (string : cstr) (len : Z) : cstr * cstr * Z :=
  let copy := ([deref string], tail string, len - 1) in
  if Ascii.eqb (deref string) "\"%char && (len >? 1) then
    match strn_escseq (tail string) [] len with
    | (c, Some pos) =>
        if c =? -1 then copy
        else
          let used := (length string - length pos)%nat in
          let out :=
            if c =? 0 then take used string
            else if strchr_found aare_special (chr c) then ["\"%char; chr c]
            else [chr c] in
          (out, pos, len - Z.of_nat used)
    | (c, None) =>
        (* entered on the terminator: [pos] is one past it *)
        (take 2 (string ++ [NUL]), [], len - 2)
    end
  else copy.

(** The loop; every pass reads at least one character, so [len] passes are
    enough. *)
Fixpoint unquote_loop (fuel : nat) (string : cstr) (len : Z) : cstr :=
  match fuel with
  | O => []
  | S fuel =>
      if len >? 0 then
        let '(out, string', len') := unquote_step string len in
        out ++ unquote_loop fuel string' len'
      else []
  end.

Definition processunquoted (string : cstr) (len : Z) : cstr :=
  unquote_loop (Z.to_nat len) string len.

(** [None] is the NULL of an unterminated quoted string. *)
Definition processquoted (string : cstr) (len : Z) : option cstr :=
  if Ascii.eqb (deref string) (chr 34) then
    if negb (Ascii.eqb (at_ string (Z.to_nat (len - 1))) (chr 34)) then None
    else
      let len := len - 2 in
      let len := if len <? 0 then 0 else len in
      Some (processunquoted (tail string) len)
  else Some (processunquoted string len).

Definition processid (string : cstr) (len : Z) : option cstr :=
  if Ascii.eqb (deref string) (chr 34) then processquoted string len
  else Some (processunquoted string len).

(** ** Numbers: specification of [strntol] *)

Definition digit_ok (base : Z) (c : ascii) : Prop := chrtoi c base <> -1.

(** Positional value of a digit sequence, most significant digit first. *)
Definition digits_val (base : Z) (ds : cstr) (v : Z) : Z :=
  fold_left (fun v c => v * base + chrtoi c base) ds v.

Lemma chrtoi_range c base : -1 <= chrtoi c base < 36.
Proof.
  assert (H : forall c, (-1 <=? (if isdigit c then code c - code "0"%char
      else if isalpha c && isascii c then code (tolower c) - code "a"%char + 10
      else -1)) && ((if isdigit c then code c - code "0"%char
      else if isalpha c && isascii c then code (tolower c) - code "a"%char + 10
      else -1) <? 36) = true).
  { apply all_chars_spec. vm_compute. reflexivity. }
  specialize (H c). apply andb_true_iff in H as [H1%Z.leb_le H2%Z.ltb_lt].
  unfold chrtoi. destruct ((base <? 2) || (base >? 36)); [lia|].
  cbv zeta. destruct (_ >=? base); lia.
Qed.

Lemma chrtoi_lt_base c base : 2 <= base -> chrtoi c base < base.
Proof.
  intros Hb. unfold chrtoi. destruct ((base <? 2) || (base >? 36)); [lia|].
  cbv zeta. destruct (_ >=? base) eqn:E; breflect; lia.
Qed.

Lemma chrtoi_NUL base : chrtoi NUL base = -1.
Proof.
  unfold chrtoi. change (isdigit NUL) with false. change (isalpha NUL) with false.
  simpl. by destruct ((base <? 2) || (base >? 36)), (-1 >=? base).
Qed.

Lemma strntol_loop_spec str base maxval n val :
  2 <= base -> 0 <= n -> 0 <= val <= maxval ->
  let '(v, stop) := strntol_loop str base maxval n val in
  exists ds, str = ds ++ stop /\ v = digits_val base ds val /\
    Forall (digit_ok base) ds /\ Z.of_nat (length ds) <= n /\ 0 <= v <= maxval /\
    (Z.of_nat (length ds) = n \/ stop = [] \/ chrtoi (deref stop) base = -1 \/
     v * base + chrtoi (deref stop) base > maxval).
Proof.
  intros Hb. revert n val. induction str as [|ch rest IH]; intros n val Hn Hv.
  - exists []. simpl. split_and!; auto; lia.
  - assert (Hstop : forall P : Prop, P -> chrtoi ch base = -1 \/ n = 0 \/
        val * base + chrtoi ch base > maxval ->
      exists ds, ch :: rest = ds ++ ch :: rest /\ val = digits_val base ds val /\
        Forall (digit_ok base) ds /\ Z.of_nat (length ds) <= n /\ 0 <= val <= maxval /\
        (Z.of_nat (length ds) = n \/ ch :: rest = [] \/
         chrtoi (deref (ch :: rest)) base = -1 \/
         val * base + chrtoi (deref (ch :: rest)) base > maxval)).
    { intros _ _ H. exists []. simpl. split_and!; auto; lia. }
    simpl. destruct (n =? 0) eqn:E1; breflect; [apply (Hstop True); auto|].
    destruct (chrtoi ch base =? -1) eqn:E2; breflect; [apply (Hstop True); auto|].
    destruct (val * base + chrtoi ch base >? maxval) eqn:E3; breflect;
      [apply (Hstop True); [done|right; right; lia]|].
    pose proof (chrtoi_range ch base).
    specialize (IH (n - 1) (val * base + chrtoi ch base)).
    destruct (strntol_loop rest base maxval (n - 1) _) as [v stop].
    destruct IH as (ds & -> & Hval & Hok & Hlen & Hr & Hmax); [lia|nia|].
    exists (ch :: ds). simpl. split_and!; try done; try lia.
    + by constructor.
    + destruct Hmax as [?|?]; [left; lia|by right].
Qed.

(** When the digits are exactly as many as allowed and fit, all are read. *)
Lemma strntol_loop_digits base maxval ds rest n val :
  Z.of_nat (length ds) = n ->
  Forall (digit_ok base) ds ->
  (forall k, digits_val base (take k ds) val <= maxval) ->
  strntol_loop (ds ++ rest) base maxval n val = (digits_val base ds val, rest).
Proof.
  revert n val. induction ds as [|d ds IH]; intros n val Hn Hok Hle; simpl in *.
  - subst n. by destruct rest.
  - inversion Hok as [|? ? Hd Hds]; subst.
    destruct (Z.of_nat (S (length ds)) =? 0) eqn:E; breflect; [lia|].
    destruct (chrtoi d base =? -1) eqn:E2; breflect; [done|].
    pose proof (Hle 1%nat) as H1. simpl in H1.
    destruct (val * base + chrtoi d base >? maxval) eqn:E3; breflect; [lia|].
    rewrite IH; [done|lia|done|]. intros k. apply (Hle (S k)).
Qed.

(** ** Escape sequences *)

Lemma digits_ok_mono b b' ds :
  b <= b' <= 36 -> Forall (digit_ok b) ds -> Forall (digit_ok b') ds.
Proof.
  intros Hb. apply List.Forall_impl. intros c. unfold digit_ok, chrtoi.
  destruct ((b <? 2) || (b >? 36)) eqn:E1; [done|].
  destruct ((b' <? 2) || (b' >? 36)) eqn:E2.
  { exfalso. breflect. destruct E2; breflect; lia. }
  cbv zeta. destruct (_ >=? b) eqn:E3; [done|].
  destruct (_ >=? b') eqn:E4; [breflect; lia|done].
Qed.

Lemma escseq_number_spec pos base n err v stop :
  2 <= base -> 0 <= n -> escseq_number pos base n err = (v, Some stop) ->
  (v = -1 /\ stop = err) \/
  exists ds, pos = ds ++ stop /\ Z.of_nat (length ds) <= n /\ ds <> [] /\
    Forall (digit_ok base) ds /\ 0 <= v <= 255.
Proof.
  unfold escseq_number, strntol. intros Hb Hn.
  destruct ((base >? 1) && (base <? 37)) eqn:Eb; cycle 1.
  { rewrite Nat.eqb_refl. simpl. intros [= <- <-]. by left. }
  pose proof (strntol_loop_spec pos base 255 n 0 Hb Hn ltac:(lia)) as H.
  destruct (strntol_loop pos base 255 n 0) as [t e].
  destruct H as (ds & -> & Ht & Hok & Hlen & Hr & _).
  destruct ((t =? 0) && (length e =? length (ds ++ e))%nat) eqn:E; intros [= <- <-];
    [by left|right].
  exists ds. split_and!; try done; try lia. intros ->. simpl in *. subst t.
  rewrite Nat.eqb_refl in E. done.
Qed.

(** Shape of a successful or failed scan: the characters consumed, at most [n]
    of them, and the value. *)
Lemma strn_escseq_shape pos chrs n v stop :
  Forall (fun c => isascii c = true) chrs -> pos <> [] -> cstr_ok pos ->
  strn_escseq pos chrs n = (v, Some stop) ->
  (exists pre, pos = pre ++ stop /\ (v <> -1 -> pre <> []) /\
     Forall (digit_ok 16) (tail pre) /\
     Z.of_nat (length pre) <= Z.max n 0) /\ -1 <= v <= 255.
Proof.
  intros Hchrs Hne Hok. unfold strn_escseq.
  destruct (n <? 1) eqn:En; breflect.
  { intros [= <- <-]. split; [|lia]. exists []. simpl. split_and!; auto; lia. }
  destruct pos as [|c rest]; [done|]. simpl.
  destruct (isodigit c) eqn:Eo.
  { intros [[-> ->]|(ds & Hp & Hl & Hds & Hok8 & Hr)]%escseq_number_spec; [| |lia|lia].
    - split; [|lia]. exists []. simpl. split_and!; auto; lia.
    - split; [|lia]. exists ds. split_and!; auto; [|lia].
      apply Forall_tail. eapply digits_ok_mono; [|done]; lia. }
  assert (Hone : forall x, -1 <= x <= 255 -> (x, Some rest) = (v, Some stop) ->
    (exists pre, c :: rest = pre ++ stop /\ (v <> -1 -> pre <> []) /\
       Forall (digit_ok 16) (tail pre) /\
       Z.of_nat (length pre) <= Z.max n 0) /\ -1 <= v <= 255).
  { intros x Hx [= <- <-]. split; [|lia]. exists [c]. simpl. split_and!; auto; lia. }
  assert (Hnum : forall base m, 2 <= base <= 16 -> 0 <= m <= n - 1 ->
    escseq_number rest base m rest = (v, Some stop) ->
    (exists pre, c :: rest = pre ++ stop /\ (v <> -1 -> pre <> []) /\
       Forall (digit_ok 16) (tail pre) /\
       Z.of_nat (length pre) <= Z.max n 0) /\ -1 <= v <= 255).
  { intros base m Hb Hm [[-> ->]|(ds & -> & Hl & Hds & Hokb & Hr)]%escseq_number_spec;
      [| |lia|lia].
    - split; [|lia]. exists [c]. simpl. split_and!; auto; lia.
    - split; [|lia]. exists (c :: ds). simpl. split_and!; try done; [|lia].
      eapply digits_ok_mono; [|done]; lia. }
  repeat match goal with
  | |- (if Ascii.eqb ?a ?b then _ else _) = _ -> _ => destruct (Ascii.eqb a b); 
      [first [by apply Hone; vm_compute | by apply Hnum; lia]|]
  end.
  destruct (strchr_found chrs c) eqn:Ef.
  - apply Hone. inversion Hok as [|? ? Hc _]; subst.
    unfold strchr_found in Ef. rewrite (proj2 (Ascii.eqb_neq c NUL) Hc) in Ef. simpl in Ef.
    apply existsb_exists in Ef as (x & Hin & ->%Ascii.eqb_eq).
    rewrite List.Forall_forall in Hchrs. specialize (Hchrs _ Hin). unfold isascii in Hchrs.
    unfold schar. rewrite Hchrs. pose proof (code_range x). breflect; lia.
  - intros [= <- <-]. split; [|lia]. exists []. simpl. split_and!; auto; lia.
Qed.

(** [strntol] reads the longest prefix of base-[base] digits that has at most
    [n] digits and whose value does not exceed [maxval], and returns the
    positional value of that prefix with the unread rest: the loop stops only
    at the digit limit, at the end of the string, at a character that is not a
    digit of the base, or where one more digit would exceed [maxval]. *)
Theorem strntol_correct str base maxval n :
  2 <= base <= 36 -> 0 <= maxval -> 0 <= n ->
  let '(v, stop) := strntol str base maxval n in
  exists ds, str = ds ++ stop /\ v = digits_val base ds 0 /\
    Forall (digit_ok base) ds /\ Z.of_nat (length ds) <= n /\ 0 <= v <= maxval /\
    (Z.of_nat (length ds) = n \/ stop = [] \/ chrtoi (deref stop) base = -1 \/
     v * base + chrtoi (deref stop) base > maxval).
Proof.
  intros Hb Hm Hn. unfold strntol.
  destruct ((base >? 1) && (base <? 37)) eqn:E; [apply strntol_loop_spec; lia|].
  exfalso. breflect. destruct E; breflect; lia.
Qed.

Lemma strntol_correct_witness :
  2 <= 8 <= 36 /\ strntol $"2234" 8 255 3 = (147, ["4"%char]) /\
  exists ds, $"2234" = ds ++ ["4"%char] /\ 147 = digits_val 8 ds 0.
Proof.
  split; [lia|]. split; [reflexivity|].
  destruct (strntol_correct $"2234" 8 255 3 ltac:(lia) ltac:(lia) ltac:(lia))
    as (ds & H1 & H2 & _).
  exists ds. split; [exact H1|exact H2].
Defined.

(** *** Writing a character as an escape *)

Definition digit_chr (d : Z) : ascii := if d <? 10 then chr (48 + d) else chr (87 + d).

Definition oct_esc (c : ascii) : cstr :=
  [digit_chr (code c / 64); digit_chr (code c / 8 mod 8); digit_chr (code c mod 8)].
Definition dec_esc (c : ascii) : cstr :=
  ["d"%char; digit_chr (code c / 100); digit_chr (code c / 10 mod 10); digit_chr (code c mod 10)].
Definition hex_esc (c : ascii) : cstr :=
  ["x"%char; digit_chr (code c / 16); digit_chr (code c mod 16)].

(** The executable condition under which [strntol_loop_digits] applies. *)
Definition fits (base : Z) (ds : cstr) : bool :=
  forallb (fun d => negb (chrtoi d base =? -1)) ds &&
  forallb (fun k => digits_val base (take k ds) 0 <=? 255) (seq 0 (S (length ds))).

Lemma escseq_number_digits base ds rest n err :
  2 <= base <= 36 -> Z.of_nat (length ds) = n -> ds <> [] -> fits base ds = true ->
  escseq_number (ds ++ rest) base n err = (digits_val base ds 0, Some rest).
Proof.
  intros Hb Hn Hds [Hd Hf]%andb_true_iff. unfold escseq_number, strntol.
  destruct ((base >? 1) && (base <? 37)) eqn:E; cycle 1.
  { exfalso. breflect. destruct E; breflect; lia. }
  rewrite forallb_forall in Hd. rewrite forallb_forall in Hf.
  rewrite strntol_loop_digits; [|done| |].
  - rewrite length_app. destruct ds as [|d ds]; [done|].
    replace (length rest =? length (d :: ds) + length rest)%nat with false
      by (symmetry; apply Nat.eqb_neq; simpl; lia).
    by rewrite andb_false_r.
  - apply List.Forall_forall. intros x Hx. specialize (Hd _ Hx). unfold digit_ok.
    by breflect.
  - intros k. destruct (decide (k <= length ds)%nat) as [Hk|Hk].
    + apply Z.leb_le, Hf, in_seq. lia.
    + rewrite take_ge by lia. rewrite <- (take_ge ds (length ds)) by lia.
      apply Z.leb_le, Hf, in_seq. lia.
Qed.

Lemma oct_esc_ok c : fits 8 (oct_esc c) && (digits_val 8 (oct_esc c) 0 =? code c) &&
  isodigit (digit_chr (code c / 64)) = true.
Proof. by_chars c. Qed.
Lemma dec_esc_ok c : fits 10 (tail (dec_esc c)) &&
  (digits_val 10 (tail (dec_esc c)) 0 =? code c) = true.
Proof. by_chars c. Qed.
Lemma hex_esc_ok c : fits 16 (tail (hex_esc c)) &&
  (digits_val 16 (tail (hex_esc c)) 0 =? code c) = true.
Proof. by_chars c. Qed.

Lemma strn_escseq_oct c rest chrs n :
  3 <= n -> strn_escseq (oct_esc c ++ rest) chrs n = (code c, Some rest).
Proof.
  intros Hn. pose proof (oct_esc_ok c) as H. breflect. unfold strn_escseq.
  destruct (n <? 1) eqn:E; breflect; [lia|]. rewrite Z.min_l by lia.
  change (deref (oct_esc c ++ rest)) with (digit_chr (code c / 64)).
  match goal with H : isodigit _ = true |- _ => rewrite H end.
  rewrite (escseq_number_digits 8 (oct_esc c)); [congruence|lia|done|done|done].
Qed.

(** Every character, written after the backslash as three octal digits, as [d]
    with three decimal digits or as [x] with two hexadecimal digits, is read
    back by [strn_escseq] exactly, leaving the text that follows, whatever it
    is, unread. *)
Theorem strn_escseq_roundtrip c rest chrs n :
  4 <= n ->
  strn_escseq (oct_esc c ++ rest) chrs n = (code c, Some rest) /\
  strn_escseq (dec_esc c ++ rest) chrs n = (code c, Some rest) /\
  strn_escseq (hex_esc c ++ rest) chrs n = (code c, Some rest).
Proof.
  intros Hn. split; [apply strn_escseq_oct; lia|].
  pose proof (dec_esc_ok c). pose proof (hex_esc_ok c). breflect.
  unfold strn_escseq. destruct (n <? 1) eqn:E; breflect; [lia|]. simpl.
  rewrite !Z.min_l by lia.
  change ([digit_chr (code c / 100); digit_chr (code c / 10 mod 10); digit_chr (code c mod 10)])
    with (tail (dec_esc c)) in *.
  split.
  - rewrite (escseq_number_digits 10 (tail (dec_esc c)) rest 3); [congruence|lia|done..].
  - rewrite (escseq_number_digits 16 (tail (hex_esc c)) rest 2); [congruence|lia|done..].
Qed.

Lemma strn_escseq_roundtrip_witness :
  strn_escseq (oct_esc "A"%char ++ $"1") [] 4 = (65, Some $"1").
Proof. apply (strn_escseq_roundtrip "A"%char $"1" [] 4). lia. Defined.

(** ** Token unescaping *)

(** What one pass reads: a non-empty prefix, extended past the bound only by
    digits, and at least as long as what it stores. *)
Lemma unquote_step_spec string len out string' len' :
  cstr_ok string -> 0 < len <= strlen string ->
  unquote_step string len = (out, string', len') ->
  exists pre, string = pre ++ string' /\ len' = len - Z.of_nat (length pre) /\
    pre <> [] /\ (length out <= length pre)%nat /\
    (len < Z.of_nat (length pre) -> chrtoi (at_ string (Z.to_nat len)) 16 <> -1).
Proof.
  intros Hok Hlen. unfold unquote_step.
  destruct string as [|c0 str]; [unfold strlen in Hlen; simpl in Hlen; lia|].
  cbn [deref hd tail].
  assert (Hcopy : ([c0], str, len - 1) = (out, string', len') ->
    exists pre, c0 :: str = pre ++ string' /\ len' = len - Z.of_nat (length pre) /\
      pre <> [] /\ (length out <= length pre)%nat /\
      (len < Z.of_nat (length pre) -> chrtoi (at_ (c0 :: str) (Z.to_nat len)) 16 <> -1)).
  { intros [= <- <- <-]. exists [c0]. simpl. split_and!; try done; lia. }
  destruct (Ascii.eqb c0 "\"%char && (len >? 1)) eqn:E; [|exact Hcopy].
  apply andb_true_iff in E as [_ E]. breflect. unfold strlen in Hlen. simpl in Hlen.
  destruct str as [|c1 str]; [simpl in Hlen; lia|].
  destruct (strn_escseq (c1 :: str) [] len) as [c [pos|]] eqn:Es; cycle 1.
  { (* a non-empty string never yields the past-the-end pointer *)
    exfalso. revert Es. unfold strn_escseq, escseq_number. simpl. inversion_clear Hok as [|? ? _ Hok'].
    inversion_clear Hok' as [|? ? Hc1 _].
    repeat match goal with |- context [let '(_, _) := ?x in _] => destruct x end.
    split_cases. }
  inversion_clear Hok as [|? ? _ Hok'].
  destruct (strn_escseq_shape (c1 :: str) [] len c pos) as [(pre & Hp & Hne & Hdig & Hle) Hr]; try done.
  destruct (c =? -1) eqn:Ec; [exact Hcopy|]. breflect. specialize (Hne Ec).
  assert (Hused : (length (c0 :: c1 :: str) - length pos = S (length pre))%nat).
  { rewrite Hp. cbn [length]. rewrite length_app. lia. }
  rewrite Hused. intros [= <- <- <-]. exists (c0 :: pre). rewrite Hp. split_and!; [done|done|done| |].
  - destruct (c =? 0); [simpl; rewrite length_take; lia|].
    destruct pre; [done|]. destruct (strchr_found _ _); simpl; lia.
  - simpl. intros Hlt. destruct pre as [|p0 pre]; [done|]. simpl in *.
    assert (Hidx : Z.to_nat len = S (S (Z.to_nat len - 2))) by lia.
    unfold at_. rewrite Hidx. simpl. rewrite app_nth1 by lia.
    rewrite List.Forall_forall in Hdig. apply Hdig, nth_In. lia.
Qed.

(** The digit bound at the end of the token. *)
Definition token_closed (string : cstr) (len : Z) : Prop :=
  chrtoi (at_ string (Z.to_nat len)) 16 = -1.

Lemma token_closed_drop pre string' len :
  Z.of_nat (length pre) <= len -> token_closed (pre ++ string') len ->
  token_closed string' (len - Z.of_nat (length pre)).
Proof.
  unfold token_closed, at_. intros Hle. rewrite app_nth2 by lia.
  by replace (Z.to_nat len - length pre)%nat with (Z.to_nat (len - Z.of_nat (length pre))) by lia.
Qed.

Lemma unquote_loop_bound fuel string len :
  cstr_ok string -> 0 <= len <= strlen string -> token_closed string len ->
  Z.of_nat (length (unquote_loop fuel string len)) <= len.
Proof.
  revert string len. induction fuel as [|fuel IH]; intros string len Hok Hlen Hend; simpl; [lia|].
  destruct (len >? 0) eqn:E; breflect; [|simpl; lia].
  destruct (unquote_step string len) as [[out string'] len'] eqn:Es.
  destruct (unquote_step_spec string len _ _ _ Hok ltac:(lia) Es) as (pre & -> & -> & Hne & Hout & Hd).
  destruct (decide (Z.of_nat (length pre) <= len)) as [Hle|Hgt]; [|exfalso; apply Hd; [lia|done]].
  apply cstr_ok_app in Hok as [_ Hok]. unfold strlen in *. rewrite length_app in Hlen. rewrite length_app.
  specialize (IH string' (len - Z.of_nat (length pre)) Hok ltac:(lia)
    (token_closed_drop _ _ _ Hle Hend)). lia.
Qed.

(** Any number of passes beyond [len] gives the same result. *)
Lemma unquote_loop_fuel f1 f2 string len :
  cstr_ok string -> len <= strlen string -> len <= Z.of_nat f1 -> len <= Z.of_nat f2 ->
  unquote_loop f1 string len = unquote_loop f2 string len.
Proof.
  revert f2 string len. induction f1 as [|f1 IH]; intros f2 string len Hok Hl H1 H2; simpl.
  - destruct f2; simpl; [done|]. destruct (len >? 0) eqn:E; breflect; [lia|done].
  - destruct f2; simpl; destruct (len >? 0) eqn:E; breflect; try lia; try done.
    destruct (unquote_step string len) as [[out string'] len'] eqn:Es.
    destruct (unquote_step_spec string len _ _ _ Hok ltac:(lia) Es) as (pre & -> & -> & Hne & _).
    apply cstr_ok_app in Hok as [_ Hok]. unfold strlen in *. rewrite length_app in Hl.
    destruct pre; [done|]. simpl in *. f_equal. apply IH; try done; lia.
Qed.

(** C30: The unescaped token fits the [len + 1] bytes [processunquoted] allocates,
    terminator included, when the character that follows the token in memory
    is not a hexadecimal digit (the terminator and the closing quote, which
    are what the lexer leaves there, are not), and the loop ends within [len]
    passes: more fuel never changes the result. *)
Theorem processunquoted_bounds string len :
  cstr_ok string -> 0 <= len <= strlen string -> token_closed string len ->
  Z.of_nat (length (processunquoted string len)) <= len /\
  forall fuel, len <= Z.of_nat fuel -> unquote_loop fuel string len = processunquoted string len.
Proof.
  intros Hok Hlen Hend. split; [by apply unquote_loop_bound|].
  intros fuel Hf. apply unquote_loop_fuel; try done; lia.
Qed.

Lemma processunquoted_bounds_witness :
  processunquoted $"\101b" 5 = $"Ab" /\ Z.of_nat (length (processunquoted $"\101b" 5)) <= 5.
Proof.
  split; [reflexivity|]. apply (processunquoted_bounds $"\101b" 5).
  - repeat constructor; discriminate.
  - vm_compute. split; discriminate.
  - reflexivity.
Defined.

(** The scan of an escape is bounded by [len] although it starts one character
    into the token, so it reads one character too many: a token that is the
    two characters of an octal NUL, followed in memory by one more digit,
    stores three characters in a buffer of three bytes and its terminator
    outside of it. *)
Theorem processunquoted_overread :
  exists string len, cstr_ok string /\ 0 <= len < strlen string /\
    Z.of_nat (length (processunquoted string len)) > len.
Proof.
  exists $"\00", 2. split; [repeat constructor; discriminate|]. vm_compute. by split.
Qed.

(** *** Round trip *)

Definition escape_all (s : cstr) : cstr := concat (map (fun c => "\"%char :: oct_esc c) s).

(** A character as it reaches the pattern conversion. *)
Definition protect (c : ascii) : cstr :=
  if Ascii.eqb c NUL then $"\000"
  else if strchr_found aare_special c then ["\"%char; c] else [c].

Lemma unquote_step_oct c rest len :
  4 <= len ->
  unquote_step ("\"%char :: oct_esc c ++ rest) len = (protect c, rest, len - 4).
Proof.
  intros Hlen. unfold unquote_step. cbn [deref hd tail]. rewrite Ascii.eqb_refl.
  destruct (len >? 1) eqn:E; breflect; [|lia]. cbn [andb].
  rewrite strn_escseq_oct by lia.
  pose proof (code_range c). destruct (code c =? -1) eqn:E1; breflect; [lia|].
  cbn [length]. rewrite length_app. cbn [length oct_esc].
  replace (S (3 + length rest) - length rest)%nat with 4%nat by lia.
  rewrite chr_code. unfold protect. destruct (code c =? 0) eqn:E2; breflect.
  - assert (c = NUL) as -> by (by apply code_inj). reflexivity.
  - destruct (Ascii.eqb_spec c NUL) as [->|]; [done|reflexivity].
Qed.

(** A string written with every character as a three-digit octal escape is
    decoded by [processunquoted] to the same characters, those special to the
    pattern language kept quoted and NUL kept as its escape, whatever follows
    the token in memory. *)
Theorem processunquoted_roundtrip s rest :
  processunquoted (escape_all s ++ rest) (strlen (escape_all s)) = concat (map protect s).
Proof.
  unfold processunquoted, strlen. rewrite Nat2Z.id.
  assert (H : forall fuel, (length (escape_all s) <= fuel)%nat ->
    unquote_loop fuel (escape_all s ++ rest) (Z.of_nat (length (escape_all s)))
    = concat (map protect s)); [|by apply H].
  induction s as [|c s IH]; intros fuel Hf.
  - by destruct fuel.
  - change (escape_all (c :: s)) with ("\"%char :: oct_esc c ++ escape_all s) in *.
    assert (Hl : length ("\"%char :: oct_esc c ++ escape_all s) = (4 + length (escape_all s))%nat)
      by (simpl; lia).
    rewrite Hl in *. destruct fuel as [|fuel]; [lia|].
    cbn [unquote_loop]. destruct (_ >? 0) eqn:E; breflect; [|lia].
    rewrite <- app_comm_cons, <- app_assoc, unquote_step_oct by lia.
    replace (Z.of_nat (4 + length (escape_all s)) - 4) with (Z.of_nat (length (escape_all s))) by lia.
    rewrite IH by lia. reflexivity.
Qed.

(** [processquoted] strips the quotes and unescapes what is between them, an
    opening quote without a closing one is refused, and a token without quotes
    is unescaped as it is; [processid] gives the same answer in every case. *)
Theorem processquoted_cases s len :
  (processquoted (chr 34 :: s ++ [chr 34]) (strlen s + 2) =
     Some (processunquoted (s ++ [chr 34]) (strlen s))) /\
  (deref s = chr 34 -> at_ s (Z.to_nat (len - 1)) <> chr 34 -> processquoted s len = None) /\
  (deref s <> chr 34 -> processquoted s len = Some (processunquoted s len)) /\
  processid s len = processquoted s len.
Proof.
  split_and!.
  - unfold processquoted, strlen. cbn [deref hd]. rewrite Ascii.eqb_refl.
    replace (Z.to_nat (Z.of_nat (length s) + 2 - 1)) with (S (length s)) by lia.
    unfold at_. cbn [nth]. rewrite app_nth2 by lia. rewrite Nat.sub_diag. simpl nth.
    rewrite Ascii.eqb_refl. simpl.
    destruct (_ <? 0) eqn:E; breflect; [lia|]. do 2 f_equal. lia.
  - intros H1 H2. unfold processquoted. rewrite H1, Ascii.eqb_refl.
    by rewrite (proj2 (Ascii.eqb_neq _ _) H2).
  - intros H. unfold processquoted. by rewrite (proj2 (Ascii.eqb_neq _ _) H).
  - unfold processid, processquoted. destruct (Ascii.eqb (deref s) (chr 34)) eqn:E; [|done].
    reflexivity.
Qed.

Lemma processquoted_cases_witness :
  processquoted [chr 34; "a"%char] 2 = None /\ processid $"ab" 2 = Some $"ab".
Proof.
  split.
  - apply (proj1 (proj2 (processquoted_cases [chr 34; "a"%char] 2))); [reflexivity|discriminate].
  - rewrite (proj2 (proj2 (proj2 (processquoted_cases $"ab" 2)))). reflexivity.
Defined.
