(* ===== verification/Regex.v ===== *)
(** Path normalisation and the translation of AppArmor globs to the regular
    expressions of the back end ([parser/parser_regex.c]), and the lexer that
    reads the translation ([parser/libapparmor_re/parse.y]). *)

From S2P Require Import Prelude Lib.

(** ** Normalising slashes *)

Definition SLASH : ascii := "/"%char.

(** The loop of [filter_slashes] works in place: [buf] is the path, [s] and [d]
    are the offsets of [sptr] and [dptr], [n] the characters left before the
    terminator. *)
Fixpoint filter_slashes_loop (n : nat) (buf : cstr) (s d : nat) (seen_slash : bool) : cstr :=
  match n with
  | O => take d buf
  | S n =>
      let c := at_ buf s in
      if Ascii.eqb c SLASH then
        if seen_slash then filter_slashes_loop n buf (S s) d true
        else filter_slashes_loop n (<[d := c]> buf) (S s) (S d) true
      else if (d <? s)%nat then filter_slashes_loop n (<[d := c]> buf) (S s) (S d) false
      else filter_slashes_loop n buf (S s) (S d) false
  end.

Definition filter_slashes (path : cstr) : cstr :=
  if strlen path <? 2 then path
  else if Ascii.eqb (at_ path 0) SLASH && Ascii.eqb (at_ path 1) SLASH &&
          negb (Ascii.eqb (at_ path 2) SLASH)
  then filter_slashes_loop (length path - 2) path 2 2 false
  else filter_slashes_loop (length path) path 0 0 false.

(** ** Globs to regular expressions *)

Inductive pattern_t := Basic | TailGlob | Regex | Invalid.

#[export] Instance pattern_t_eq_dec : EqDecision pattern_t.
Proof. solve_decision. Defined.

Definition glob_default : Z := 0.
Definition glob_null : Z := 1.
Definition MAX_ALT_DEPTH : Z := 50.

(** The cases of the [switch] of [convert_aaregex_to_pcre]. *)
Inductive aare_char :=
  AEscape | AStar | AQuestion | AOpenClass | ACloseClass | AOpenAlt | ACloseAlt
| AComma | AAnchor | AMeta | AOther.

Definition aare_class (c : ascii) : aare_char :=
  if Ascii.eqb c "\"%char then AEscape
  else if Ascii.eqb c "*"%char then AStar
  else if Ascii.eqb c "?"%char then AQuestion
  else if Ascii.eqb c "["%char then AOpenClass
  else if Ascii.eqb c "]"%char then ACloseClass
  else if Ascii.eqb c "{"%char then AOpenAlt
  else if Ascii.eqb c "}"%char then ACloseAlt
  else if Ascii.eqb c ","%char then AComma
  else if Ascii.eqb c "^"%char || Ascii.eqb c "$"%char then AAnchor
  else if existsb (Ascii.eqb c) $".+|()" then AMeta
  else AOther.

(** The local variables of the conversion.  [pos] is [sptr - aare];
    [oob] records an access outside [grouping_count]. *)
Record conv := Conv {
  pcre : cstr;
  first_re_pos : Z;
  ptype : pattern_t;
  error : bool;
  bEscape : bool;
  ingrouping : Z;
  incharclass : bool;
  grouping_count : list Z;
  pos : Z;
  oob : bool
}.

Definition in_count (st : conv) : bool :=
  (0 <=? ingrouping st) && (ingrouping st <? Z.of_nat (length (grouping_count st))).

Definition append (s : cstr) (st : conv) : conv :=
  Conv (pcre st ++ s) (first_re_pos st) (ptype st) (error st) (bEscape st) (ingrouping st)
    (incharclass st) (grouping_count st) (pos st) (oob st).
Definition set_ptype (t : pattern_t) (st : conv) : conv :=
  Conv (pcre st) (first_re_pos st) t (error st) (bEscape st) (ingrouping st)
    (incharclass st) (grouping_count st) (pos st) (oob st).
Definition set_error (e : bool) (st : conv) : conv :=
  Conv (pcre st) (first_re_pos st) (ptype st) e (bEscape st) (ingrouping st)
    (incharclass st) (grouping_count st) (pos st) (oob st).
Definition set_escape (b : bool) (st : conv) : conv :=
  Conv (pcre st) (first_re_pos st) (ptype st) (error st) b (ingrouping st)
    (incharclass st) (grouping_count st) (pos st) (oob st).
Definition set_grouping (g : Z) (st : conv) : conv :=
  Conv (pcre st) (first_re_pos st) (ptype st) (error st) (bEscape st) g
    (incharclass st) (grouping_count st) (pos st) (oob st).
Definition set_class (b : bool) (st : conv) : conv :=
  Conv (pcre st) (first_re_pos st) (ptype st) (error st) (bEscape st) (ingrouping st)
    b (grouping_count st) (pos st) (oob st).
Definition advance (n : nat) (st : conv) : conv :=
  Conv (pcre st) (first_re_pos st) (ptype st) (error st) (bEscape st) (ingrouping st)
    (incharclass st) (grouping_count st) (pos st + Z.of_nat n) (oob st).

(** [update_re_pos (sptr - aare)] *)
Definition update_re_pos (st : conv) : conv :=
  Conv (pcre st) (if first_re_pos st =? 0 then pos st else first_re_pos st) (ptype st)
    (error st) (bEscape st) (ingrouping st) (incharclass st) (grouping_count st) (pos st) (oob st).

(** [grouping_count[ingrouping]] and the store to it. *)
Definition get_count (st : conv) : Z := nth (Z.to_nat (ingrouping st)) (grouping_count st) 0.
Definition set_count (v : Z) (st : conv) : conv :=
  Conv (pcre st) (first_re_pos st) (ptype st) (error st) (bEscape st) (ingrouping st)
    (incharclass st) (<[Z.to_nat (ingrouping st) := v]> (grouping_count st)) (pos st)
    (oob st || negb (in_count st)).
Definition check_count (st : conv) : conv :=
  Conv (pcre st) (first_re_pos st) (ptype st) (error st) (bEscape st) (ingrouping st)
    (incharclass st) (grouping_count st) (pos st) (oob st || negb (in_count st)).

(** [error = append_glob (...)]: the assignment clears an earlier error too. *)
Definition append_glob (glob : Z) (dflt null : cstr) (st : conv) : conv :=
  if glob =? glob_default then set_error false (append dflt st)
  else if glob =? glob_null then set_error false (append null st)
  else set_error true st.

(** [s] at the first character after the run of stars. *)
Fixpoint skip_stars (s : cstr) : cstr :=
  match s with
  | c :: s' => if Ascii.eqb c "*"%char then skip_stars s' else s
  | [] => []
  end.

Definition last_is_slash (s : cstr) : bool :=
  match last s with Some c => Ascii.eqb c SLASH | None => false end.

(** The body of the case ['*'] on an unescaped star: the new state and the
    extra characters consumed. *)
Definition conv_star (glob : Z) (sptr : cstr) (st : conv) : conv * nat :=
  let st :=
    if last_is_slash (pcre st) then
      let s := skip_stars sptr in
      if Ascii.eqb (deref s) SLASH || Ascii.eqb (deref s) NUL
      then append_glob glob $"[^/\x00]" $"[^/]" st else st
    else st in
  let st := update_re_pos st in
  if Ascii.eqb (at_ sptr 1) "*"%char then
    let t := if Ascii.eqb (at_ sptr 2) NUL && bool_decide (ptype st = Basic)
             then TailGlob else Regex in
    (append_glob glob $"[^\x00]*" $".*" (set_ptype t st), 1%nat)
  else
    (append_glob glob $"[^/\x00]*" $"[^/]*" (set_ptype Regex st), 0%nat).

(** The default case: an escape the regular expressions know is passed on
    whole, any other quoted character loses its backslash. *)
Definition conv_default (sptr : cstr) (st : conv) : conv * nat :=
  if bEscape st then
    match str_escseq sptr [] with
    | (c, Some p) =>
        if c =? -1 then (append [deref sptr] st, 0%nat)
        else
          let used := (length sptr - length p)%nat in
          (append (["\"%char] ++ take used sptr) st, (used - 1)%nat)
    | (_, None) => (append [deref sptr] st, 0%nat)
    end
  else (append [deref sptr] st, 0%nat).

(** One iteration of the loop at a non-NUL character: the new state, with
    [bEscape] and [pos] updated, and the rest of the input. *)
Definition conv_case (glob : Z) (sptr : cstr) (st : conv) : conv * nat :=
  let c := deref sptr in
  let esc := bEscape st in
  match aare_class c with
  | AEscape => (append $"\\" st, 0%nat)      (* reached with an escape pending only *)
  | AStar => if esc then (append $"\*" st, 0%nat) else conv_star glob sptr st
  | AQuestion =>
      if esc then (append [c] st, 0%nat)
      else
        let st := set_ptype Regex (update_re_pos st) in
        if glob =? glob_default then (append $"[^/\x00]" st, 0%nat)
        else if glob =? glob_null then (append $"[^/]" st, 0%nat)
        else (set_error true st, 0%nat)
  | AOpenClass =>
      if esc then (append $"\[" st, 0%nat)
      else (append [c] (set_ptype Regex (set_class true (update_re_pos st))), 0%nat)
  | ACloseClass =>
      if esc then (append $"\]" st, 0%nat)
      else
        let st := if incharclass st then st else set_error true st in
        (append [c] (set_class false st), 0%nat)
  | AOpenAlt =>
      if esc then (append $"\{" st, 0%nat)
      else if incharclass st then (append $"{" st, 0%nat)
      else
        let st := update_re_pos st in
        let st := set_grouping (ingrouping st + 1) st in
        if ingrouping st >=? MAX_ALT_DEPTH then (set_error true st, 0%nat)
        else (append $"(" (set_ptype Regex (set_count 0 st)), 0%nat)
  | ACloseAlt =>
      if esc then (append $"\}" st, 0%nat)
      else if incharclass st then (append $"}" st, 0%nat)
      else
        let st := check_count st in
        let st := if get_count st =? 0 then set_error true st else st in
        let st := set_grouping (ingrouping st - 1) st in
        let st := if ingrouping st <? 0 then set_grouping 0 (set_error true st) else st in
        (append $")" st, 0%nat)
  | AComma =>
      if esc then
        if incharclass st then (append $"\," st, 0%nat) else (append [c] st, 0%nat)
      else if negb (ingrouping st =? 0) && negb (incharclass st)
      then (append $"|" (set_count (get_count st + 1) (check_count st)), 0%nat)
      else (append [c] st, 0%nat)
  | AAnchor =>
      if incharclass st then (append [c] st, 0%nat) else (append ["\"%char; c] st, 0%nat)
  | AMeta => conv_default sptr (append $"\" st)
  | AOther => conv_default sptr st
  end.

Definition conv_step (glob : Z) (sptr : cstr) (st : conv) : conv * cstr :=
  if Ascii.eqb (deref sptr) "\"%char && negb (bEscape st) then
    (advance 1 (set_escape true st), drop 1 sptr)
  else
    let '(st, extra) := conv_case glob sptr st in
    (advance (S extra) (set_escape false st), drop (S extra) sptr).

Fixpoint conv_loop (fuel : nat) (glob : Z) (sptr : cstr) (st : conv) : conv :=
  match fuel with
  | O => st
  | S fuel =>
      if error st || Ascii.eqb (deref sptr) NUL then st
      else let '(st, sptr) := conv_step glob sptr st in conv_loop fuel glob sptr st
  end.

Definition conv_init (anchor : bool) (buf : cstr) : conv :=
  Conv (buf ++ if anchor then $"^" else []) 0 Basic false false 0 false
    (replicate (Z.to_nat MAX_ALT_DEPTH) 0) 0 false.

(** The checks after the loop. *)
Definition conv_finish (anchor : bool) (st : conv) : conv :=
  let st := if (ingrouping st >? 0) || incharclass st then set_error true st else st in
  let st := if negb (error st) && bEscape st then set_error true st else st in
  let st := if negb (error st) && anchor then append $"$" st else st in
  if error st then set_ptype Invalid st else st.

Definition convert_final (aare : cstr) (anchor : bool) (glob : Z) (buf : cstr) : conv :=
  conv_finish anchor (conv_loop (length aare) glob aare (conv_init anchor buf)).

(** The pattern type, the buffer and [*first_re_pos]. *)
Definition convert_aaregex_to_pcre (aare : cstr) (anchor : bool) (glob : Z) (buf : cstr)
  : pattern_t * cstr * Z :=
  let st := convert_final aare anchor glob buf in (ptype st, pcre st, first_re_pos st).

(** The part of a hat name after the last [//]. *)
Fixpoint local_name_loop (fuel : nat) (name : cstr) : cstr :=
  match fuel with
  | O => name
  | S fuel =>
      match strstr name $"//" with
      | Some t => local_name_loop fuel (drop 2 t)
      | None => name
      end
  end.
Definition local_name (name : cstr) : cstr := local_name_loop (length name) name.

(** ** Slashes: the in-place loop computes the squeezed path *)

Fixpoint squeeze (seen : bool) (s : cstr) : cstr :=
  match s with
  | [] => []
  | c :: s =>
      if Ascii.eqb c SLASH then if seen then squeeze true s else c :: squeeze true s
      else c :: squeeze false s
  end.

(** Paths that start with exactly two slashes name a namespace. *)
Definition is_namespace (path : cstr) : bool :=
  starts_with $"//" path && negb (Ascii.eqb (at_ path 2) SLASH).

Lemma take_insert_at {A} (l : list A) d x :
  (d < length l)%nat -> take (S d) (<[d:=x]> l) = take d l ++ [x].
Proof.
  intros H. rewrite (take_S_r _ _ x) by (by apply list_lookup_insert_eq).
  f_equal. apply take_insert_ge. lia.
Qed.

Lemma filter_slashes_loop_spec n buf s d seen :
  (d <= s)%nat -> (s + n = length buf)%nat ->
  filter_slashes_loop n buf s d seen = take d buf ++ squeeze seen (drop s buf).
Proof.
  revert buf s d seen. induction n as [|n IH]; intros buf s d seen Hd Hn; simpl.
  - rewrite (drop_ge buf s) by lia. simpl. by rewrite app_nil_r.
  - destruct (lookup_lt_is_Some_2 buf s ltac:(lia)) as [c Hc].
    rewrite (drop_S buf c s) by done. unfold at_.
    rewrite (nth_lookup_Some buf s NUL c) by done. simpl.
    destruct (Ascii.eqb c SLASH) eqn:E.
    + destruct seen; [apply IH; lia|].
      rewrite IH by (rewrite ?length_insert; lia).
      rewrite take_insert_at by lia. rewrite <- app_assoc. simpl.
      rewrite drop_insert_lt by lia. done.
    + destruct (d <? s)%nat eqn:E2; breflect.
      * rewrite IH by (rewrite ?length_insert; lia).
        rewrite take_insert_at by lia. rewrite <- app_assoc. simpl.
        rewrite drop_insert_lt by lia. done.
      * assert (d = s) as -> by lia. rewrite IH by lia.
        rewrite (take_S_r buf s c) by done. by rewrite <- app_assoc.
Qed.

Lemma squeeze_no_double seen s i :
  at_ (squeeze seen s) i = SLASH -> at_ (squeeze seen s) (S i) <> SLASH.
Proof.
  assert (Hhd : forall s, at_ (squeeze true s) 0 <> SLASH).
  { clear. induction s as [|c s IH]; simpl; [done|].
    destruct (Ascii.eqb c SLASH) eqn:E; [done|]. unfold at_; simpl.
    by apply Ascii.eqb_neq. }
  revert seen i. induction s as [|c s IH]; intros seen i; simpl.
  - unfold at_. by destruct i.
  - destruct (Ascii.eqb c SLASH) eqn:E.
    + destruct seen; [apply IH|]. destruct i as [|i]; [|apply IH].
      intros _. apply (Hhd s).
    + destruct i as [|i]; [|apply IH].
      unfold at_ at 1. simpl. intros ->. by rewrite Ascii.eqb_refl in E.
Qed.

Lemma squeeze_fixed seen s : squeeze seen (squeeze seen s) = squeeze seen s.
Proof.
  revert seen. induction s as [|c s IH]; intros seen; simpl; [done|].
  destruct (Ascii.eqb c SLASH) eqn:E.
  - destruct seen; [apply IH|]. simpl. rewrite E. by rewrite IH.
  - simpl. rewrite E. by rewrite IH.
Qed.

Definition not_slash (c : ascii) : bool := negb (Ascii.eqb c SLASH).

Lemma squeeze_keeps seen s :
  List.filter not_slash (squeeze seen s) = List.filter not_slash s.
Proof.
  revert seen. induction s as [|c s IH]; intros seen; simpl; [done|].
  unfold not_slash at 2. destruct (Ascii.eqb c SLASH) eqn:E; simpl.
  - destruct seen; simpl; [apply IH|]. unfold not_slash at 1. rewrite E. apply IH.
  - unfold not_slash at 1. rewrite E. simpl. by rewrite IH.
Qed.

Lemma squeeze_head seen s : deref (squeeze seen s) <> SLASH -> deref s <> SLASH \/ seen = true.
Proof.
  destruct s as [|c s]; simpl; [auto|]. unfold deref; simpl.
  destruct (Ascii.eqb_spec c SLASH); [destruct seen; auto|auto].
Qed.

Lemma filter_slashes_squeeze path :
  filter_slashes path =
    if is_namespace path then $"//" ++ squeeze false (drop 2 path) else squeeze false path.
Proof.
  unfold filter_slashes, is_namespace, strlen.
  destruct path as [|a [|b path]]; [done| |].
  { simpl. rewrite andb_false_r. simpl. by destruct (Ascii.eqb a SLASH). }
  destruct (Z.of_nat (length (a :: b :: path)) <? 2) eqn:E; breflect; [simpl in E; lia|].
  assert (Hs : starts_with $"//" (a :: b :: path) =
    Ascii.eqb (at_ (a :: b :: path) 0) SLASH && Ascii.eqb (at_ (a :: b :: path) 1) SLASH).
  { unfold at_, SLASH. simpl. rewrite andb_true_r, (Ascii.eqb_sym a), (Ascii.eqb_sym b). done. }
  rewrite Hs. destruct (_ && _ && _) eqn:E2.
  - rewrite filter_slashes_loop_spec by (simpl; lia). breflect. simpl in *.
    unfold at_ in *. simpl in *. by subst.
  - by rewrite filter_slashes_loop_spec by (simpl; lia).
Qed.

Lemma squeeze_false_namespace s : is_namespace (squeeze false s) = false.
Proof.
  unfold is_namespace. destruct (starts_with $"//" (squeeze false s)) eqn:E; [|done].
  exfalso. apply starts_with_spec in E as [r Hr].
  apply (squeeze_no_double false s 0); rewrite Hr; done.
Qed.

(** [filter_slashes], which edits the path in place, leaves no two adjacent
    slashes except the two that open a namespace path, keeps every other
    character in order, changes nothing when run again, and never makes the
    path longer. *)
Theorem filter_slashes_correct path :
  (forall i, at_ (filter_slashes path) i = SLASH -> at_ (filter_slashes path) (S i) = SLASH ->
     i = 0%nat /\ is_namespace path = true) /\
  List.filter not_slash (filter_slashes path) = List.filter not_slash path /\
  filter_slashes (filter_slashes path) = filter_slashes path /\
  (length (filter_slashes path) <= length path)%nat.
Proof.
  assert (Hlen : forall seen s, (length (squeeze seen s) <= length s)%nat).
  { clear. intros seen s. revert seen. induction s as [|c s IH]; intros seen; simpl; [lia|].
    pose proof (IH true). pose proof (IH false). destruct (Ascii.eqb c SLASH), seen; simpl; lia. }
  destruct (is_namespace path) eqn:En; cycle 1.
  - assert (Hf : filter_slashes path = squeeze false path)
      by (by rewrite filter_slashes_squeeze, En).
    rewrite Hf. split_and!.
    + intros i H1 H2. by destruct (squeeze_no_double _ _ _ H1).
    + apply squeeze_keeps.
    + rewrite filter_slashes_squeeze, squeeze_false_namespace. apply squeeze_fixed.
    + apply Hlen.
  - pose proof En as En'. apply andb_true_iff in En' as [[r ->]%starts_with_spec Hr].
    assert (Hd : deref r <> SLASH)
      by (destruct r; [done|]; unfold at_ in Hr; simpl in Hr; by breflect).
    assert (Hsq : squeeze false r = r \/ deref (squeeze false r) = deref r).
    { destruct r as [|c r]; [by left|right]. simpl. unfold deref in Hd. simpl in Hd.
      by rewrite (proj2 (Ascii.eqb_neq _ _) Hd). }
    assert (Hd' : deref (squeeze false r) <> SLASH) by (destruct Hsq as [->| ->]; done).
    assert (Hf : filter_slashes ($"//" ++ r) = $"//" ++ squeeze false r)
      by (by rewrite filter_slashes_squeeze, En).
    rewrite Hf. split_and!.
    + intros [|[|i]] H1 H2; [done| |].
      * unfold at_ in H2. simpl in H2. destruct (squeeze false r); done.
      * by destruct (squeeze_no_double _ _ i H1).
    + simpl. apply squeeze_keeps.
    + rewrite filter_slashes_squeeze.
      assert (is_namespace ($"//" ++ squeeze false r) = true) as ->.
      { unfold is_namespace. rewrite starts_with_app. simpl. apply negb_true_iff, Ascii.eqb_neq.
        unfold at_. simpl. destruct (squeeze false r); done. }
      change (drop 2 ($"//" ++ squeeze false r)) with (squeeze false r).
      by rewrite squeeze_fixed.
    + simpl. specialize (Hlen false r). lia.
Qed.

(** ** Well-formed globs: an abstract machine with a stack *)

(** The conversion keeps the number of alternatives of each open group in an
    array indexed by the nesting depth.  The specification keeps a stack of
    those numbers, and reads one character at a time. *)
Definition aare_next (c : ascii) (esc cls : bool) (stack : list Z)
  : option (bool * bool * list Z) :=
  if esc then Some (false, cls, stack)
  else
    match aare_class c with
    | AEscape => Some (true, cls, stack)
    | AOpenClass => Some (false, true, stack)
    | ACloseClass => if cls then Some (false, false, stack) else None
    | AOpenAlt =>
        if cls then Some (false, cls, stack)
        else if Z.of_nat (length stack) + 1 <? MAX_ALT_DEPTH then Some (false, cls, 0 :: stack)
        else None
    | ACloseAlt =>
        if cls then Some (false, cls, stack)
        else match stack with
             | n :: stack => if n =? 0 then None else Some (false, cls, stack)
             | [] => None
             end
    | AComma =>
        if cls then Some (false, cls, stack)
        else match stack with
             | n :: stack => Some (false, cls, n + 1 :: stack)
             | [] => Some (false, cls, [])
             end
    | _ => Some (false, cls, stack)
    end.

Fixpoint aare_scan (s : cstr) (esc cls : bool) (stack : list Z) : bool :=
  match s with
  | [] => negb esc && negb cls && (length stack =? 0)%nat
  | c :: s =>
      match aare_next c esc cls stack with
      | Some (esc, cls, stack) => aare_scan s esc cls stack
      | None => false
      end
  end.

(** A glob whose groups and classes are closed, whose groups have at least two
    alternatives and nest less than [MAX_ALT_DEPTH] deep, and that does not end
    in an escape. *)
Definition aare_wf (s : cstr) : bool := aare_scan s false false [].

(** Characters that leave the machine where it is. *)
Definition neutral (c : ascii) : bool :=
  match aare_class c with
  | AStar | AQuestion | AAnchor | AMeta | AOther => true
  | _ => false
  end.

Lemma aare_scan_neutral ds s cls stack :
  Forall (fun c => neutral c = true) ds ->
  aare_scan (ds ++ s) false cls stack = aare_scan s false cls stack.
Proof.
  induction 1 as [|c ds Hc _ IH]; [done|]. simpl.
  unfold neutral in Hc. unfold aare_next. by destruct (aare_class c).
Qed.

Definition other (c : ascii) : bool :=
  match aare_class c with AOther => true | _ => false end.

Lemma digit_other c : (chrtoi c 16 =? -1) || other c = true.
Proof. by_chars c. Qed.

Lemma others_neutral ds :
  Forall (fun c => other c = true) ds -> Forall (fun c => neutral c = true) ds.
Proof.
  apply List.Forall_impl. intros c. unfold other, neutral. by destruct (aare_class c).
Qed.

(** The array holds the stack, bottom at index 1. *)
Definition counts (st : conv) (stack : list Z) : Prop :=
  ingrouping st = Z.of_nat (length stack) /\
  length (grouping_count st) = Z.to_nat MAX_ALT_DEPTH /\
  (length stack < Z.to_nat MAX_ALT_DEPTH)%nat /\
  nth 0 (grouping_count st) 0 = 0 /\
  (forall i, (i < length stack)%nat -> nth (S i) (grouping_count st) 0 = nth i (rev stack) 0).

(** The concrete state stands for an abstract one. *)
Definition stands_for (st : conv) (esc cls : bool) (stack : list Z) : Prop :=
  error st = false /\ bEscape st = esc /\ incharclass st = cls /\ oob st = false /\
  counts st stack.

Lemma nth_insert {A} (l : list A) i j v d :
  nth i (<[j:=v]> l) d =
    if decide (i = j /\ (j < length l)%nat) then v else nth i l d.
Proof.
  rewrite !nth_lookup. destruct (decide _) as [[-> H]|H].
  - by rewrite list_lookup_insert_eq.
  - destruct (decide (i = j)) as [->|]; [|by rewrite list_lookup_insert_ne].
    rewrite list_insert_ge by (destruct (decide (j < length l)%nat); [naive_solver|lia]). done.
Qed.

Lemma counts_push st stack :
  counts st stack -> (length stack + 1 < Z.to_nat MAX_ALT_DEPTH)%nat ->
  in_count (set_grouping (ingrouping st + 1) st) = true /\
  counts (set_count 0 (set_grouping (ingrouping st + 1) st)) (0 :: stack).
Proof.
  intros (Hg & Hl & Hs & H0 & Hn) Hd. unfold in_count, counts. simpl. rewrite Hl, Hg.
  split; [unfold MAX_ALT_DEPTH in *; apply andb_true_iff; split; apply Z.leb_le || apply Z.ltb_lt; lia|].
  replace (Z.to_nat (Z.of_nat (length stack) + 1)) with (S (length stack)) by lia.
  rewrite length_insert. split_and!; [lia|done|simpl; lia| |].
  - rewrite nth_insert. by destruct (decide _); [lia|].
  - intros i Hi. rewrite nth_insert. destruct (decide _) as [[[= ->] _]|Hne].
    + rewrite app_nth2; rewrite length_rev; [|lia]. by rewrite Nat.sub_diag.
    + assert (i < length stack)%nat.
      { rewrite Hl in Hne. simpl in Hi. destruct (decide (i = length stack)) as [->|]; [|lia].
        destruct Hne. split; [done|lia]. }
      rewrite app_nth1 by (rewrite length_rev; lia). by apply Hn.
Qed.

Lemma counts_top st stack n :
  counts st (n :: stack) -> in_count st = true /\ get_count st = n.
Proof.
  intros (Hg & Hl & Hs & H0 & Hn). unfold in_count, get_count. rewrite Hl, Hg. simpl length in *.
  split; [unfold MAX_ALT_DEPTH in *; apply andb_true_iff; split; apply Z.leb_le || apply Z.ltb_lt; lia|].
  rewrite Nat2Z.id, Hn by lia. simpl. rewrite app_nth2; rewrite length_rev; [|lia].
  by rewrite Nat.sub_diag.
Qed.

Lemma counts_bump st stack n :
  counts st (n :: stack) -> counts (set_count (n + 1) st) (n + 1 :: stack).
Proof.
  intros (Hg & Hl & Hs & H0 & Hn). unfold counts. simpl. rewrite Hg. simpl length in *.
  rewrite Nat2Z.id, length_insert. split_and!; try done.
  - rewrite nth_insert. by destruct (decide _); [lia|].
  - intros i Hi. rewrite nth_insert. destruct (decide _) as [[[= ->] _]|Hne].
    + rewrite app_nth2; rewrite length_rev; [|lia]. by rewrite Nat.sub_diag.
    + assert (i < length stack)%nat.
      { destruct (decide (i = length stack)) as [->|]; [|lia].
        destruct Hne. split; [done|]. rewrite Hl. lia. }
      rewrite app_nth1 by (rewrite length_rev; lia). rewrite Hn by lia. simpl.
      by rewrite app_nth1 by (rewrite length_rev; lia).
Qed.

Lemma counts_pop st stack n :
  counts st (n :: stack) -> counts (set_grouping (ingrouping st - 1) st) stack.
Proof.
  intros (Hg & Hl & Hs & H0 & Hn). unfold counts. simpl in *. rewrite Hg.
  split_and!; [lia|done|lia|done|]. intros i Hi. rewrite Hn by lia.
  by rewrite app_nth1 by (rewrite length_rev; lia).
Qed.

Lemma counts_empty st : counts st [] -> in_count st = true /\ get_count st = 0.
Proof.
  intros (Hg & Hl & Hs & H0 & Hn). unfold in_count, get_count. rewrite Hl, Hg. simpl.
  split; [done|done].
Qed.

Definition glob_ok (glob : Z) : Prop := glob = glob_default \/ glob = glob_null.

(** Only these fields matter to the simulation. *)
Definition same_core (st st' : conv) : Prop :=
  incharclass st' = incharclass st /\ ingrouping st' = ingrouping st /\
  grouping_count st' = grouping_count st /\ oob st' = oob st /\ error st' = error st.

Lemma counts_core st st' stack : same_core st st' -> counts st stack -> counts st' stack.
Proof. intros (_ & Hg & Hc & _) H. unfold counts in *. by rewrite Hg, Hc. Qed.

Lemma stands_for_core st st' n esc cls stack :
  same_core st st' -> stands_for st esc cls stack ->
  stands_for (advance n (set_escape false st')) false cls stack.
Proof.
  intros H (He & Hb & Hc & Ho & Hcount). pose proof H as (H1 & H2 & H3 & H4 & H5).
  unfold stands_for. simpl. split_and!; try congruence.
  by eapply counts_core; [|exact Hcount].
Qed.

Lemma conv_star_core glob sptr st :
  glob_ok glob -> error st = false ->
  same_core st (fst (conv_star glob sptr st)) /\
  (snd (conv_star glob sptr st) = 0%nat \/
   snd (conv_star glob sptr st) = 1%nat /\ at_ sptr 1 = "*"%char).
Proof.
  intros Hg He. unfold conv_star. split.
  - destruct Hg as [->| ->]; unfold append_glob; simpl;
      repeat split_case; unfold same_core; simpl; auto.
  - destruct (Ascii.eqb (at_ sptr 1) _) eqn:E; simpl; [right; by breflect|by left].
Qed.

Lemma conv_default_core c s st :
  cstr_ok (c :: s) ->
  same_core st (fst (conv_default (c :: s) st)) /\
  exists ds, s = ds ++ drop (snd (conv_default (c :: s) st)) s /\
    Forall (fun c => other c = true) ds.
Proof.
  intros Hok. unfold conv_default.
  assert (Hnone : forall st', same_core st st' -> same_core st (fst (st', 0%nat)) /\
    exists ds, s = ds ++ drop (snd (st', 0%nat)) s /\ Forall (fun c => other c = true) ds)
    by (intros st' H; split; [done|by exists []]).
  assert (Happ : forall x, same_core st (append x st)) by done.
  destruct (bEscape st); [|by apply Hnone].
  destruct (str_escseq (c :: s) []) as [v [p|]] eqn:E; [|by apply Hnone].
  destruct (v =? -1) eqn:Ev; [by apply Hnone|]. breflect.
  destruct (strn_escseq_shape (c :: s) [] SIZE_MAX v p) as [(pre & Hp & Hne & Hdig & _) _]; try done.
  specialize (Hne Ev). destruct pre as [|x ds]; [done|]. simpl in Hp, Hdig. injection Hp as -> ->.
  split; [done|]. exists ds.
  replace (snd _) with (length ds); cycle 1.
  { cbn [snd length]. rewrite length_app. lia. }
  rewrite drop_app_length. split; [done|].
  eapply List.Forall_impl; [|exact Hdig]. intros d Hd. unfold digit_ok in Hd.
  pose proof (digit_other d) as Hn. apply orb_true_iff in Hn as [Hn|]; breflect; done.
Qed.

(** What the simulation of one iteration establishes. *)
Definition step_simulates (c : ascii) (s : cstr) (next : option (bool * bool * list Z))
    (res : conv * cstr) : Prop :=
  match next with
  | None => error (fst res) = true /\ oob (fst res) = false
  | Some (esc, cls, stack) =>
      stands_for (fst res) esc cls stack /\
      exists ds, s = ds ++ snd res /\ Forall (fun c => neutral c = true) ds /\
        (ds = [] \/ esc = false)
  end.

Lemma simulates_core c s st st' cls esc stack :
  same_core st st' -> stands_for st esc cls stack ->
  step_simulates c s (Some (false, cls, stack)) (advance 1 (set_escape false st'), s).
Proof.
  intros H1 H2. split; [by eapply stands_for_core|]. exists []. simpl. auto.
Qed.

Lemma conv_step_simulates glob c s st esc cls stack :
  glob_ok glob -> cstr_ok (c :: s) -> stands_for st esc cls stack ->
  step_simulates c s (aare_next c esc cls stack) (conv_step glob (c :: s) st).
Proof.
  intros Hg Hok Hst. pose proof Hst as (He & Hb & Hc & Ho & Hcnt).
  assert (Hdef : forall st0, same_core st st0 ->
    step_simulates c s (Some (false, cls, stack))
      (let '(st', extra) := conv_default (c :: s) st0 in
       (advance (S extra) (set_escape false st'), drop (S extra) (c :: s)))).
  { intros st0 Hcore0. destruct (conv_default_core c s st0 Hok) as (Hcore & ds & Hds & Hneu).
    destruct (conv_default (c :: s) st0) as [st' extra]. simpl in Hcore, Hds.
    assert (same_core st st') by (unfold same_core in *; intuition congruence).
    split; [by apply (stands_for_core st _ _ esc)|]. exists ds. simpl. auto using others_neutral. }
  assert (Hplain : forall x, step_simulates c s (Some (false, cls, stack))
      (advance 1 (set_escape false (append x st)), s))
    by (intros x; by apply (simulates_core c s st _ cls esc)).
  unfold conv_step, conv_case, aare_next. cbn [deref hd].
  destruct (Ascii.eqb c "\"%char) eqn:Ebs.
  { breflect. subst c. rewrite Hb. destruct esc; simpl; [apply Hplain|].
    split; [|exists []; simpl; auto]. unfold stands_for. simpl. auto. }
  simpl andb. cbv iota.
  destruct (aare_class c) eqn:Ecls; rewrite ?Hb, ?Hc; cbn [drop];
    destruct esc; try (apply Hplain); try (apply Hdef; done).
  - (* AEscape: the character is a backslash *)
    exfalso. unfold aare_class in Ecls. rewrite Ebs in Ecls. by split_cases_in Ecls.
  - (* '*' *)
    destruct (conv_star_core glob (c :: s) st Hg He) as [Hcore Hx].
    destruct (conv_star glob (c :: s) st) as [st' extra]. simpl in Hcore, Hx.
    split; [by apply (stands_for_core st _ _ false)|]. destruct Hx as [->|[-> Hx]].
    + exists []. simpl. auto.
    + destruct s as [|x s]; [done|]. unfold at_ in Hx. simpl in Hx. subst x.
      exists ["*"%char]. simpl. split_and!; auto.
  - (* '?' *)
    destruct Hg as [->| ->]; simpl; by apply (simulates_core c s st _ cls false).
  - (* '[' *)
    split; [|exists []; simpl; auto]. unfold stands_for. simpl. auto.
  - (* ']' *)
    destruct cls; simpl; [|done].
    split; [|exists []; simpl; auto]. unfold stands_for. simpl. auto.
  - (* '{' *)
    destruct cls; [apply Hplain|].
    pose proof (counts_push st stack Hcnt) as Hpush.
    pose proof Hcnt as (Hgr & Hlen & Hs & _).
    simpl ingrouping. rewrite Hgr at 1.
    destruct (_ >=? MAX_ALT_DEPTH) eqn:E1; destruct (_ <? MAX_ALT_DEPTH) eqn:E2; breflect;
      unfold MAX_ALT_DEPTH in *; try lia; [done|].
    destruct Hpush as [Hin Hpush]; [lia|].
    split; [|exists []; simpl; auto]. unfold stands_for. simpl.
    unfold in_count in Hin. simpl in Hin. rewrite Ho. split_and!; try done.
    simpl. unfold in_count. simpl. by rewrite Hin.
  - (* '}' *)
    destruct cls; [apply Hplain|].
    destruct stack as [|n stack].
    + destruct (counts_empty st Hcnt) as [Hin Hget].
      unfold get_count in *. simpl. rewrite Hget. simpl.
      destruct (_ <? 0); simpl; by rewrite Ho, Hin.
    + destruct (counts_top st stack n Hcnt) as [Hin Hget].
      unfold get_count in *. simpl. rewrite Hget.
      pose proof (counts_pop st stack n Hcnt) as Hpop. pose proof Hcnt as (Hgr & _).
      destruct (n =? 0); simpl; rewrite Hgr; simpl length;
        destruct (_ <? 0) eqn:E; breflect; try lia; simpl.
      * by rewrite Ho, Hin.
      * split; [|exists []; simpl; auto]. unfold stands_for. simpl.
        rewrite Ho, Hin. split_and!; try done.
        rewrite Hgr in Hpop. exact Hpop.
  - (* ',' escaped *)
    destruct cls; apply Hplain.
  - (* ',' *)
    pose proof Hcnt as (Hgr & _). rewrite Hgr.
    destruct cls; [rewrite andb_false_r; apply Hplain|]. rewrite andb_true_r.
    destruct stack as [|n stack]; [simpl; apply Hplain|].
    destruct (counts_top st stack n Hcnt) as [Hin Hget].
    destruct (Z.of_nat (length (n :: stack)) =? 0) eqn:E; breflect; [simpl in E; lia|]. simpl negb. cbv iota.
    split; [|exists []; simpl; auto]. unfold stands_for.
    unfold get_count in *. simpl. rewrite Hget. simpl. rewrite Ho, Hin.
    split_and!; try done; [|exact (counts_bump st stack n Hcnt)].
    change (in_count (check_count st)) with (in_count st). by rewrite Hin.
  - (* '^' and '$' *) destruct cls; apply Hplain.
  - destruct cls; apply Hplain.
Qed.

Lemma conv_loop_error fuel glob s st : error st = true -> conv_loop fuel glob s st = st.
Proof. intros H. destruct fuel; simpl; [done|]. by rewrite H. Qed.

Lemma conv_loop_simulates fuel glob s st esc cls stack :
  glob_ok glob -> cstr_ok s -> (length s <= fuel)%nat -> stands_for st esc cls stack ->
  let st' := conv_loop fuel glob s st in
  oob st' = false /\
  ((error st' = true /\ aare_scan s esc cls stack = false) \/
   exists esc' cls' stack', stands_for st' esc' cls' stack' /\
     aare_scan s esc cls stack = negb esc' && negb cls' && (length stack' =? 0)%nat).
Proof.
  intros Hg. revert s st esc cls stack.
  induction fuel as [|fuel IH]; intros s st esc cls stack Hok Hf Hst; simpl.
  - destruct s; simpl in Hf; [|lia]. split; [by destruct Hst as (_ & _ & _ & ? & _)|].
    right. by exists esc, cls, stack.
  - pose proof Hst as (He & _ & _ & Ho & _). rewrite He. simpl.
    destruct s as [|c s]; simpl.
    { split; [done|]. right. by exists esc, cls, stack. }
    pose proof (conv_step_simulates glob c s st esc cls stack Hg Hok Hst) as Hsim.
    inversion_clear Hok as [|? ? Hc Hok']. rewrite (proj2 (Ascii.eqb_neq c NUL) Hc).
    destruct (conv_step glob (c :: s) st) as [st' s']. unfold step_simulates in Hsim. simpl in Hsim.
    destruct (aare_next c esc cls stack) as [[[e cl] k]|].
    + destruct Hsim as (Hst' & ds & -> & Hneu & Hde). simpl in Hf. rewrite length_app in Hf.
      apply cstr_ok_app in Hok' as [_ Hok'].
      assert (aare_scan (ds ++ s') e cl k = aare_scan s' e cl k) as ->.
      { destruct Hde as [->| ->]; [done|by apply aare_scan_neutral]. }
      apply IH; try done. lia.
    + destruct Hsim as [He' Ho']. rewrite conv_loop_error by done. auto.
Qed.

(** *** Pattern types *)

(** The characters an escape-free pattern may not contain to stay a plain
    string. *)
Definition glob_char (c : ascii) : bool :=
  match aare_class c with AStar | AQuestion | AOpenClass | AOpenAlt => true | _ => false end.

(** No unescaped glob character. *)
Fixpoint aare_literal (s : cstr) (esc : bool) : bool :=
  match s with
  | [] => true
  | c :: s =>
      if esc then aare_literal s false
      else if Ascii.eqb c "\"%char then aare_literal s true
      else negb (glob_char c) && aare_literal s false
  end.

Lemma aare_literal_others ds s :
  Forall (fun c => other c = true) ds -> aare_literal (ds ++ s) false = aare_literal s false.
Proof.
  induction 1 as [|c ds Hc _ IH]; [done|]. simpl. rewrite IH. unfold other, glob_char in *.
  destruct (Ascii.eqb_spec c "\"%char) as [->|]; [done|]. by destruct (aare_class c).
Qed.

Lemma conv_star_ptype glob sptr st :
  ptype (fst (conv_star glob sptr st)) = TailGlob \/ ptype (fst (conv_star glob sptr st)) = Regex.
Proof.
  unfold conv_star, append_glob.
  repeat (simpl; match goal with |- context [if ?b then _ else _] => destruct b end); simpl; auto.
Qed.

Lemma conv_default_ptype c s st : ptype (fst (conv_default (c :: s) st)) = ptype st.
Proof. unfold conv_default. by split_cases. Qed.

(** How one iteration changes the pattern type. *)
Lemma conv_step_ptype glob c s st :
  cstr_ok (c :: s) -> (incharclass st = true -> ptype st <> Basic) -> ptype st <> Invalid ->
  let '(st', s') := conv_step glob (c :: s) st in
  ptype st' <> Invalid /\ (incharclass st' = true -> ptype st' <> Basic) /\
  (if negb (bEscape st) && glob_char c then error st' = true \/ ptype st' <> Basic
   else ptype st' = ptype st /\ bEscape st' = negb (bEscape st) && Ascii.eqb c "\"%char /\
     exists ds, s = ds ++ s' /\ Forall (fun c => other c = true) ds).
Proof.
  intros Hok Hcls Hinv. unfold conv_step, conv_case, glob_char. cbn [deref hd].
  destruct (Ascii.eqb c "\"%char && negb (bEscape st)) eqn:E.
  { breflect. subst c. match goal with H : bEscape st = false |- _ => rewrite H end. simpl.
    split_and!; auto. by exists []. }
  assert (Hesc : negb (bEscape st) && Ascii.eqb c "\"%char = false)
    by (rewrite andb_comm; done).
  rewrite Hesc.
  assert (Hdef : forall st0, ptype st0 = ptype st -> incharclass st0 = incharclass st ->
    let '(st', s') := let '(st', extra) := conv_default (c :: s) st0 in
       (advance (S extra) (set_escape false st'), drop (S extra) (c :: s)) in
    ptype st' <> Invalid /\ (incharclass st' = true -> ptype st' <> Basic) /\
    ptype st' = ptype st /\ bEscape st' = false /\
    exists ds, s = ds ++ s' /\ Forall (fun c => other c = true) ds).
  { intros st0 H1 H2. pose proof (conv_default_ptype c s st0) as Ht.
    destruct (conv_default_core c s st0 Hok) as ((Hc & _) & ds & Hds & Ho).
    destruct (conv_default (c :: s) st0) as [st' extra]. simpl in *.
    rewrite Ht, H1, Hc, H2. split_and!; auto. by exists ds. }
  assert (Hplain : forall x, ptype (append x st) <> Invalid /\
     (incharclass (append x st) = true -> ptype (append x st) <> Basic) /\
     ptype (append x st) = ptype st /\ false = false /\
     exists ds, s = ds ++ drop 1 (c :: s) /\ Forall (fun c => other c = true) ds).
  { intros x. simpl. split_and!; auto. by exists []. }
  destruct (aare_class c); destruct (bEscape st) eqn:Eb; simpl negb; simpl andb; cbv iota;
    try (exact (Hplain _)); try (apply Hdef; done).
  - (* '*' *) pose proof (conv_star_ptype glob (c :: s) st) as Ht.
    destruct (conv_star glob (c :: s) st) as [st' extra]. simpl in *.
    destruct Ht as [-> | ->]; split_and!; auto; by right.
  - (* '?' *) repeat split_case; simpl in *; simplify_eq/=; split_and!; auto; by right.
  - (* '[' *) simpl. split_and!; auto; by right.
  - (* ']' *) destruct (incharclass st); simpl; split_and!; auto; by exists [].
  - (* '{' *) destruct (incharclass st) eqn:Ec; [simpl; rewrite Ec; split_and!; auto|].
    destruct (_ >=? _); simpl; rewrite Ec; split_and!; auto; by right.
  - (* '}' *) destruct (incharclass st) eqn:Ec; [exact (Hplain _)|].
    repeat split_case; simpl; rewrite ?Ec; split_and!; auto; by exists [].
  - (* ',' *) destruct (incharclass st); exact (Hplain _).
  - destruct (negb (ingrouping st =? 0) && negb (incharclass st)); simpl; split_and!; auto; by exists [].
  - (* '^' and '$' *) destruct (incharclass st); exact (Hplain _).
  - destruct (incharclass st); exact (Hplain _).
Qed.

Lemma conv_loop_ptype fuel glob s st :
  cstr_ok s -> (length s <= fuel)%nat -> error st = false ->
  (incharclass st = true -> ptype st <> Basic) -> ptype st <> Invalid ->
  let st' := conv_loop fuel glob s st in
  ptype st' <> Invalid /\
  (error st' = false -> ptype st' = Basic <-> ptype st = Basic /\ aare_literal s (bEscape st) = true).
Proof.
  revert s st. induction fuel as [|fuel IH]; intros s st Hok Hf He Hcls Hinv; simpl.
  - destruct s; simpl in *; [|lia]. split; [done|tauto].
  - rewrite He. destruct s as [|c s]; simpl; [split; [done|tauto]|].
    pose proof (conv_step_ptype glob c s st Hok Hcls Hinv) as H.
    inversion_clear Hok as [|? ? Hc Hok']. rewrite (proj2 (Ascii.eqb_neq c NUL) Hc).
    destruct (conv_step glob (c :: s) st) as [st' s'] eqn:Es. destruct H as (H1 & H2 & H3).
    assert (Hs' : (length s' <= fuel)%nat /\ cstr_ok s').
    { revert Es. unfold conv_step.
      destruct (Ascii.eqb (deref (c :: s)) "\"%char && negb (bEscape st));
        [|destruct (conv_case _ _ _) as [? extra]];
        intros Es'; apply (f_equal snd) in Es'; simpl in Es'; subst s'; simpl in *.
      - rewrite drop_0. split; [lia|done].
      - rewrite length_drop. split; [lia|]. by apply Forall_drop. }
    destruct Hs' as [Hl Hok'']. destruct (error st') eqn:He'.
    { rewrite conv_loop_error by done. split; [done|]. congruence. }
    destruct (IH s' st' Hok'' Hl He' H2 H1) as [H4 H5]. split; [exact H4|].
    intros Hfin. rewrite (H5 Hfin). clear IH H4 H5.
    destruct (bEscape st) eqn:Eb; simpl in H3.
    + destruct H3 as (-> & -> & ds & -> & Ho). by rewrite aare_literal_others.
    + destruct (glob_char c) eqn:Eg.
      * destruct H3 as [?|Hb]; [congruence|].
        split; [by intros [? _]|]. intros [_ Hlit]. exfalso. revert Hlit.
        destruct (Ascii.eqb_spec c "\"%char) as [->|]; [done|]. done.
      * destruct H3 as (-> & -> & ds & -> & Ho). simpl.
        destruct (Ascii.eqb c "\"%char) eqn:Ec; [|by rewrite aare_literal_others].
        assert (Hds : ds ++ s' = s').
        { revert Es. unfold conv_step. cbn [deref hd]. rewrite Ec, Eb. simpl.
          intros Es'. by apply (f_equal snd) in Es'. }
        by rewrite Hds.
Qed.

Lemma conv_init_stands anchor buf : stands_for (conv_init anchor buf) false false [].
Proof.
  unfold stands_for, counts. simpl. split_and!; try done; unfold MAX_ALT_DEPTH; lia.
Qed.

Lemma conv_finish_spec anchor st :
  oob (conv_finish anchor st) = oob st /\
  ptype (conv_finish anchor st) =
    (if error st || (ingrouping st >? 0) || incharclass st || bEscape st then Invalid
     else ptype st).
Proof.
  destruct st as [pc fr pt er be ing inc gc ps ob]. unfold conv_finish. simpl.
  destruct (ing >? 0), inc, er, be, anchor; done.
Qed.

Lemma convert_valid_iff aare anchor glob buf :
  glob_ok glob -> cstr_ok aare ->
  oob (convert_final aare anchor glob buf) = false /\
  (fst (fst (convert_aaregex_to_pcre aare anchor glob buf)) <> Invalid <-> aare_wf aare = true).
Proof.
  intros Hg Hok. unfold convert_aaregex_to_pcre, convert_final, aare_wf. simpl fst.
  destruct (conv_loop_simulates (length aare) glob aare _ _ _ _ Hg Hok (le_n _)
    (conv_init_stands anchor buf)) as [Ho Hsim].
  destruct (conv_loop_ptype (length aare) glob aare (conv_init anchor buf) Hok (le_n _))
    as [Hinv _]; try done.
  set (st := conv_loop (length aare) glob aare (conv_init anchor buf)) in *. clearbody st.
  destruct Hsim as [[He ->]|(esc & cls & stack & (He & Hb & Hc & _ & Hcnt) & ->)].
  - destruct (conv_finish_spec anchor st) as [-> ->]. rewrite He. by split_and!.
  - destruct Hcnt as (Hgr & _). destruct (conv_finish_spec anchor st) as [-> ->].
    rewrite He, Hb, Hc, Hgr. by destruct stack, cls, esc.
Qed.

(** C11: The conversion of a glob never indexes outside its table of alternative
    counts, and it refuses a glob exactly when the glob is not well formed:
    an unclosed or unopened group or class, a group with fewer than two
    alternatives, more than [MAX_ALT_DEPTH - 1] nested groups, or a trailing
    escape.  The table indexed by depth refines the stack of the
    specification. *)
Theorem convert_refines_wf aare anchor glob buf :
  glob_ok glob -> cstr_ok aare ->
  oob (convert_final aare anchor glob buf) = false /\
  (fst (fst (convert_aaregex_to_pcre aare anchor glob buf)) <> Invalid <-> aare_wf aare = true).
Proof. apply convert_valid_iff. Qed.

Lemma convert_refines_wf_witness :
  fst (fst (convert_aaregex_to_pcre $"/{a,b}*" false glob_default [])) <> Invalid.
Proof.
  apply (convert_refines_wf $"/{a,b}*" false glob_default []).
  - by left.
  - repeat constructor; discriminate.
  - reflexivity.
Defined.

(** A glob that is accepted is reported as [Basic], a plain string the kernel
    may compare without a pattern, exactly when it has no unescaped glob
    character. *)
Theorem convert_basic_iff aare anchor glob buf :
  glob_ok glob -> cstr_ok aare -> aare_wf aare = true ->
  fst (fst (convert_aaregex_to_pcre aare anchor glob buf)) = Basic <->
  aare_literal aare false = true.
Proof.
  intros Hg Hok Hwf. destruct (convert_valid_iff aare anchor glob buf Hg Hok) as [_ [_ Hv]].
  specialize (Hv Hwf). unfold convert_aaregex_to_pcre, convert_final in *. simpl fst in *.
  destruct (conv_loop_ptype (length aare) glob aare (conv_init anchor buf) Hok (le_n _))
    as [_ Hb]; try done.
  set (st := conv_loop (length aare) glob aare (conv_init anchor buf)) in *. clearbody st.
  destruct (conv_finish_spec anchor st) as [_ Hp]. rewrite Hp in *.
  destruct (error st); simpl in *; [done|]. destruct (_ || _ || _); [done|].
  destruct (Hb eq_refl) as [Hb1 Hb2]. split; [intros; by apply Hb1|intros; by apply Hb2].
Qed.

Lemma convert_basic_iff_witness :
  fst (fst (convert_aaregex_to_pcre $"/a\*b" false glob_default [])) = Basic.
Proof.
  apply (convert_basic_iff $"/a\*b" false glob_default []); [by left| |reflexivity|reflexivity].
  repeat constructor; discriminate.
Defined.

(** ** The lexer of the regular expressions *)

Inductive token := TEnd | TSym (c : ascii) | TChar (c : ascii).
#[export] Instance token_eq_dec : EqDecision token.
Proof. solve_decision. Defined.

Definition regex_symbols : cstr := $"*+.|^-[]()".
Definition regex_escapes : cstr := $"*+.|^$-[](){}".

(** [regex_lex] returns the token and the new position, [None] past the
    terminator.  On an escape that [str_escseq] refuses, the token is a
    backslash and the position is one before the one [str_escseq] left. *)
Definition regex_lex (text : cstr) : token * option cstr :=
  match text with
  | [] => (TEnd, Some [])
  | c :: p =>
      if existsb (Ascii.eqb c) regex_symbols then (TSym c, Some p)
      else if Ascii.eqb c "\"%char then
        match str_escseq p regex_escapes with
        | (tmp, Some q) =>
            if tmp =? -1 then (TChar "\"%char, Some (drop (length text - length q - 1) text))
            else (TChar (chr tmp), Some q)
        | (tmp, None) => (TChar (chr tmp), None)
        end
      else (TChar c, Some p)
  end.

(** The first [n] tokens. *)
Fixpoint regex_tokens (n : nat) (text : cstr) : list token :=
  match n with
  | O => []
  | S n =>
      match regex_lex text with
      | (TEnd, _) => []
      | (t, Some p) => t :: regex_tokens n p
      | (t, None) => [t]
      end
  end.

(** *** Quoted strings *)

(** A string written so that no character is special: every character of the
    [switch] is escaped. *)
Definition quote_char (c : ascii) : cstr := if other c then [c] else ["\"%char; c].
Definition quote (s : cstr) : cstr := concat (map quote_char s).

(** What the conversion emits for it. *)
Definition emit_char (c : ascii) : cstr :=
  match aare_class c with
  | AQuestion | AComma | AOther => [c]
  | _ => ["\"%char; c]
  end.

(** The token that stands for a literal character: the lexer returns the dash
    as a symbol, which the grammar reads as the character. *)
Definition literal_token (c : ascii) : token :=
  if Ascii.eqb c "-"%char then TSym c else TChar c.

Lemma aare_class_escape c : aare_class c = AEscape -> c = "\"%char.
Proof.
  unfold aare_class. destruct (Ascii.eqb_spec c "\"%char); [done|]. intros H. by split_cases_in H.
Qed.

Lemma str_escseq_meta c rest :
  aare_class c = AMeta -> str_escseq (c :: rest) [] = (-1, Some (c :: rest)).
Proof.
  unfold aare_class. intros H. repeat (split_case_in H; [done|]).
  destruct (existsb (Ascii.eqb c) $".+|()") eqn:E; [|done].
  apply existsb_exists in E as (x & Hx & ->%Ascii.eqb_eq).
  simpl in Hx. by destruct Hx as [<-|[<-|[<-|[<-|[<-|[]]]]]].
Qed.

Lemma conv_step_escape glob rest st :
  bEscape st = false ->
  conv_step glob ("\"%char :: rest) st = (advance 1 (set_escape true st), rest).
Proof. intros He. unfold conv_step. simpl. by rewrite He. Qed.

Lemma conv_step_plain glob c rest st :
  other c = true -> bEscape st = false ->
  conv_step glob (c :: rest) st = (advance 1 (set_escape false (append [c] st)), rest).
Proof.
  unfold other, conv_step, conv_case. cbn [deref hd]. intros Ho He. rewrite He.
  destruct (Ascii.eqb_spec c "\"%char) as [->|]; [done|]. simpl.
  destruct (aare_class c); try done. unfold conv_default. by rewrite He.
Qed.

Lemma conv_step_quoted glob c rest st :
  other c = false -> bEscape st = true -> incharclass st = false ->
  conv_step glob (c :: rest) st = (advance 1 (set_escape false (append (emit_char c) st)), rest).
Proof.
  unfold other, conv_step, conv_case, emit_char. cbn [deref hd]. intros Ho He Hc.
  rewrite He, Hc. simpl negb. rewrite andb_false_r.
  destruct (aare_class c) eqn:E; try done.
  - by rewrite (aare_class_escape c E).
  - unfold aare_class in E. split_cases_in E; breflect; by subst.
  - unfold aare_class in E. split_cases_in E; breflect; by subst.
  - unfold aare_class in E. split_cases_in E; breflect; by subst.
  - unfold aare_class in E. split_cases_in E; breflect; by subst.
  - unfold aare_class in E. split_cases_in E; breflect; by subst.
  - unfold conv_default. simpl. rewrite He, (str_escseq_meta c rest E). simpl.
    unfold append. simpl. by rewrite <- app_assoc.
Qed.

(** The loop turns the quoted string into its emission and changes nothing
    else. *)
Lemma conv_loop_quote glob s fuel st :
  cstr_ok s -> bEscape st = false -> incharclass st = false -> error st = false ->
  exists st', conv_loop (length (quote s) + fuel) glob (quote s) st = st' /\
    pcre st' = pcre st ++ concat (map emit_char s) /\ bEscape st' = false /\
    incharclass st' = false /\ error st' = false /\ ptype st' = ptype st /\
    first_re_pos st' = first_re_pos st /\ ingrouping st' = ingrouping st.
Proof.
  intros Hok. revert st. induction Hok as [|c s Hc _ IH]; intros st He Hcl Herr.
  - eexists. split; [reflexivity|]. destruct fuel; simpl; rewrite ?Herr, ?app_nil_r; simpl; split_and!; done.
  - change (quote (c :: s)) with (quote_char c ++ quote s). unfold quote_char.
    pose proof (proj2 (Ascii.eqb_neq c NUL) Hc) as Hn.
    destruct (other c) eqn:Eo; cbn [app length Nat.add conv_loop deref hd].
    + rewrite Herr, Hn. cbn [orb]. rewrite conv_step_plain by done.
      destruct (IH (advance 1 (set_escape false (append [c] st)))) as (st' & -> & H); try done.
      eexists. split; [reflexivity|]. simpl in H. destruct H as (-> & H).
      unfold other in Eo. unfold emit_char at 2. simpl.
      destruct (aare_class c); try done. by rewrite <- app_assoc.
    + rewrite Herr. change (Ascii.eqb "\"%char NUL) with false. cbn [orb].
      rewrite conv_step_escape by done. cbn [app error advance set_escape deref hd].
      rewrite Herr, Hn. cbn [orb].
      rewrite conv_step_quoted by done.
      destruct (IH (advance 1 (set_escape false (append (emit_char c) (advance 1 (set_escape true st))))))
        as (st' & -> & H); try done.
      eexists. split; [reflexivity|]. simpl in H. destruct H as (-> & H).
      simpl. by rewrite <- app_assoc.
Qed.

Lemma regex_lex_emit c rest :
  c <> NUL -> regex_lex (emit_char c ++ rest) = (literal_token c, Some rest).
Proof.
  intros H. by destruct c as [[] [] [] [] [] [] [] []].
Qed.

Lemma regex_tokens_literal s n :
  cstr_ok s -> (length s <= n)%nat ->
  regex_tokens n (concat (map emit_char s)) = map literal_token s.
Proof.
  intros Hok. revert n. induction Hok as [|c s Hc _ IH]; intros n Hn.
  - by destruct n.
  - destruct n; simpl in Hn; [lia|]. simpl. rewrite regex_lex_emit by done.
    rewrite IH by lia. unfold literal_token. by destruct (Ascii.eqb c "-"%char).
Qed.

(** C12: Quoting works: a string whose special characters are all escaped converts
    to a [Basic] pattern that the lexer of the regular expressions reads back
    as exactly the characters of the string, one literal token each, none of
    them an operator. *)
Theorem convert_quote_literal s glob :
  glob_ok glob -> cstr_ok s ->
  exists out, convert_aaregex_to_pcre (quote s) false glob [] = (Basic, out, 0) /\
    forall n, (length s <= n)%nat -> regex_tokens n out = map literal_token s.
Proof.
  intros Hg Hok. exists (concat (map emit_char s)).
  split; [|intros n Hn; by apply regex_tokens_literal].
  unfold convert_aaregex_to_pcre, convert_final.
  destruct (conv_loop_quote glob s 0 (conv_init false []) Hok)
    as (st' & Heq & Hp & Hb & Hc & He & Ht & Hf & Hi); try done.
  rewrite Nat.add_0_r in Heq. rewrite Heq. clear Heq.
  destruct st'. simpl in *. by subst.
Qed.

Lemma convert_quote_literal_witness :
  exists out, convert_aaregex_to_pcre $"/a\*\[b" false glob_default [] = (Basic, out, 0) /\
    regex_tokens 9 out = map literal_token $"/a*[b".
Proof.
  destruct (convert_quote_literal $"/a*[b" glob_default) as (out & H1 & H2).
  - by left.
  - repeat constructor; discriminate.
  - exists out. split; [exact H1|]. apply H2. simpl. lia.
Defined.

Lemma regex_tokens_stuck n s :
  regex_tokens n ("\"%char :: ","%char :: s) = replicate n (TChar "\"%char).
Proof.
  induction n as [|n IH]; [done|]. cbn [regex_tokens replicate].
  assert (regex_lex ("\"%char :: ","%char :: s) = (TChar "\"%char, Some ("\"%char :: ","%char :: s))) as ->.
  { unfold regex_lex.
    change (str_escseq (","%char :: s) regex_escapes) with (-1, Some (","%char :: s)).
    cbv beta iota. cbn [length]. replace (S (S (length s)) - S (length s) - 1)%nat with 0%nat by lia.
    done. }
  by rewrite IH.
Qed.

(** An escaped comma inside a character class is accepted and converted to
    [\\,], an escape the lexer does not know: it answers with a backslash and
    moves its position back onto that same backslash, so the tokens of the
    converted pattern never end. *)
Theorem escaped_comma_in_class_never_ends :
  let '(t, out, _) := convert_aaregex_to_pcre $"/[\,]" false glob_default [] in
  t = Regex /\ forall n, regex_tokens (2 + n) out = TChar "/"%char :: TSym "["%char :: replicate n (TChar "\"%char).
Proof.
  vm_compute convert_aaregex_to_pcre. split; [done|]. intros n.
  change (2 + n)%nat with (S (S n)).
  transitivity (TChar "/"%char :: TSym "["%char :: regex_tokens n ["\"%char; ","%char; "]"%char]); [done|].
  by rewrite regex_tokens_stuck.
Qed.
