(* ===== verification/Murmur.v ===== *)
(** The progressive MurmurHash3 of libapparmor
    ([libraries/libapparmor/src/PMurHash.c]), whose digest names a kernel
    feature set in the policy cache.  The variant modelled is the one for
    unaligned reads ([UNALIGNED_SAFE]) with the bytewise [READ_UINT32]. *)

From S2P Require Import Prelude.

Definition C1 : Z := 0xcc9e2d51.
Definition C2 : Z := 0x1b873593.

Definition ROTL32 (x r : Z) : Z := Z.lor (u32 (Z.shiftl x r)) (Z.shiftr x (32 - r)).

Definition READ_UINT32 (b0 b1 b2 b3 : Z) : Z :=
  Z.lor (Z.lor (Z.lor b0 (Z.shiftl b1 8)) (Z.shiftl b2 16)) (Z.shiftl b3 24).

(** The macro [DOBLOCK] updates both its arguments. *)
Definition DOBLOCK (h1 k1 : Z) : Z * Z :=
  let k1 := u32 (k1 * C1) in
  let k1 := ROTL32 k1 15 in
  let k1 := u32 (k1 * C2) in
  let h1 := Z.lxor h1 k1 in
  let h1 := ROTL32 h1 13 in
  let h1 := u32 (h1 * 5 + 0xe6546b64) in
  (h1, k1).

(** [DOBYTES]: the running hash, the carry and the number of bytes in it. *)
Definition DOBYTE (st : Z * Z * Z) (b : Z) : Z * Z * Z :=
  let '(h1, c, n) := st in
  let c := Z.lor (Z.shiftr c 8) (u32 (Z.shiftl b 24)) in
  let n := n + 1 in
  if n =? 4 then let '(h1, c) := DOBLOCK h1 c in (h1, c, 0) else (h1, c, n).
Definition DOBYTES (bytes : list Z) (st : Z * Z * Z) : Z * Z * Z := fold_left DOBYTE bytes st.

(** The loop over whole words; what is left has fewer than four bytes. *)
Fixpoint process_words (h1 : Z) (ptr : list Z) : Z * list Z :=
  match ptr with
  | b0 :: b1 :: b2 :: b3 :: ptr => process_words (fst (DOBLOCK h1 (READ_UINT32 b0 b1 b2 b3))) ptr
  | _ => (h1, ptr)
  end.

Definition PMurHash32_Process (h1 c : Z) (key : list Z) : Z * Z :=
  let n := Z.land c 3 in
  let i := Z.land (4 - n) 3 in
  let '(st, ptr) :=
    if negb (i =? 0) && (i <=? Z.of_nat (length key))
    then (DOBYTES (take (Z.to_nat i) key) (h1, c, n), drop (Z.to_nat i) key)
    else ((h1, c, n), key) in
  let '(h1, c, n) := st in
  let '(h1, ptr) := process_words h1 ptr in
  let '(h1, c, n) := DOBYTES ptr (h1, c, n) in
  (h1, Z.lor (Z.land c (2 ^ 32 - 1 - 0xff)) n).

Definition PMurHash32_Result (h carry total_length : Z) : Z :=
  let n := Z.land carry 3 in
  let h :=
    if n =? 0 then h
    else
      let k1 := Z.shiftr carry ((4 - n) * 8) in
      let k1 := u32 (k1 * C1) in
      let k1 := ROTL32 k1 15 in
      let k1 := u32 (k1 * C2) in
      Z.lxor h k1 in
  let h := Z.lxor h total_length in
  let h := Z.lxor h (Z.shiftr h 16) in
  let h := u32 (h * 0x85ebca6b) in
  let h := Z.lxor h (Z.shiftr h 13) in
  let h := u32 (h * 0xc2b2ae35) in
  Z.lxor h (Z.shiftr h 16).

Definition PMurHash32 (seed : Z) (key : list Z) : Z :=
  let '(h1, carry) := PMurHash32_Process seed 0 key in
  PMurHash32_Result h1 carry (u32 (Z.of_nat (length key))).

(** ** Reference: MurmurHash3 over the whole message *)

(** Little-endian value of up to four bytes. *)
Fixpoint le (bytes : list Z) : Z :=
  match bytes with [] => 0 | b :: bytes => b + 256 * le bytes end.

(** Rotation, as arithmetic. *)
Definition rotl (x r : Z) : Z := (x * 2 ^ r) mod 2 ^ 32 + x / 2 ^ (32 - r).

Definition mix_k (k : Z) : Z := (rotl ((k * 0xcc9e2d51) mod 2 ^ 32) 15 * 0x1b873593) mod 2 ^ 32.
Definition mix_h (h k : Z) : Z := (rotl (Z.lxor h (mix_k k)) 13 * 5 + 0xe6546b64) mod 2 ^ 32.

(** The hash after the whole words and the bytes that remain. *)
Fixpoint murmur_body (h : Z) (key : list Z) : Z * list Z :=
  match key with
  | b0 :: b1 :: b2 :: b3 :: key => murmur_body (mix_h h (le [b0; b1; b2; b3])) key
  | _ => (h, key)
  end.

Definition mix_tail (h : Z) (tail : list Z) : Z :=
  match tail with
  | [] => h
  | _ => Z.lxor h (mix_k (le tail))
  end.

Definition fmix (h : Z) : Z :=
  let h := Z.lxor h (Z.shiftr h 16) in
  let h := u32 (h * 0x85ebca6b) in
  let h := Z.lxor h (Z.shiftr h 13) in
  let h := u32 (h * 0xc2b2ae35) in
  Z.lxor h (Z.shiftr h 16).

Definition murmur3 (seed : Z) (key : list Z) : Z :=
  let '(h, tail) := murmur_body seed key in
  fmix (Z.lxor (mix_tail h tail) (u32 (Z.of_nat (length key)))).

(** ** The carry represents the bytes not yet hashed *)

(** The bytes sit at the top of the word; what is below them is left over from
    earlier steps. *)
Definition holds (c : Z) (tail : list Z) : Prop :=
  0 <= c < 2 ^ 32 /\ (length tail < 4)%nat /\ Forall is_byte tail /\
  c / 2 ^ (8 * (4 - Z.of_nat (length tail))) = le tail.

Lemma le_range bs : Forall is_byte bs -> 0 <= le bs < 2 ^ (8 * Z.of_nat (length bs)).
Proof.
  induction 1 as [|b bs Hb _ IH]; [simpl; lia|]. cbn [le length].
  rewrite Nat2Z.inj_succ, Z.mul_succ_r, Z.pow_add_r by lia. unfold is_byte in Hb.
  change (2 ^ 8) with 256. lia.
Qed.

Lemma le_app a b : le (a ++ b) = le a + 2 ^ (8 * Z.of_nat (length a)) * le b.
Proof.
  induction a as [|x a IH]; [simpl; lia|]. cbn [app le length]. rewrite IH.
  rewrite Nat2Z.inj_succ, Z.mul_succ_r, Z.pow_add_r by lia. change (2 ^ 8) with 256. ring.
Qed.

Lemma push_carry c b :
  0 <= c < 2 ^ 32 -> is_byte b ->
  Z.lor (Z.shiftr c 8) (u32 (Z.shiftl b 24)) = c / 256 + b * 2 ^ 24.
Proof.
  intros Hc Hb. unfold is_byte in Hb. rewrite Z.shiftr_div_pow2 by lia. change (2 ^ 8) with 256.
  unfold u32. rewrite wrap_small by (rewrite Z.shiftl_mul_pow2 by lia; lia).
  apply lor_shiftl_add; [lia|]. split; [apply Z.div_pos; lia|].
  apply Z.div_lt_upper_bound; lia.
Qed.

Lemma push_holds c tail b :
  holds c tail -> is_byte b ->
  let c' := c / 256 + b * 2 ^ 24 in
  0 <= c' < 2 ^ 32 /\
  c' / 2 ^ (8 * (3 - Z.of_nat (length tail))) = le (tail ++ [b]).
Proof.
  intros (Hc & Hlen & Hby & Hval) Hb c'. unfold is_byte in Hb.
  assert (0 <= c / 256 < 2 ^ 24)
    by (split; [apply Z.div_pos; lia|apply Z.div_lt_upper_bound; lia]).
  split; [subst c'; lia|].
  set (n := Z.of_nat (length tail)) in *. subst c'.
  replace (b * 2 ^ 24) with (b * 2 ^ (8 * n) * 2 ^ (8 * (3 - n)))
    by (rewrite <- Z.mul_assoc, <- Z.pow_add_r by lia; do 2 f_equal; lia).
  rewrite Z.div_add by lia. rewrite Z.div_div by lia.
  replace (256 * 2 ^ (8 * (3 - n))) with (2 ^ (8 * (4 - n)))
    by (change 256 with (2 ^ 8); rewrite <- Z.pow_add_r by lia; f_equal; lia).
  rewrite Hval, le_app. fold n. simpl. lia.
Qed.

Lemma ROTL32_rotl x r : 0 <= x < 2 ^ 32 -> 0 < r < 32 -> ROTL32 x r = rotl x r.
Proof.
  intros Hx Hr. unfold ROTL32, rotl, u32, wrap. rewrite Z.shiftl_mul_pow2 by lia.
  rewrite Z.shiftr_div_pow2 by lia.
  assert (H32 : 2 ^ 32 = 2 ^ (32 - r) * 2 ^ r) by (rewrite <- Z.pow_add_r by lia; f_equal; lia).
  rewrite H32, Z.mul_mod_distr_r by lia.
  rewrite Z.lor_comm, <- (Z.shiftl_mul_pow2 _ r) by lia. rewrite lor_shiftl_add; [| lia |].
  - rewrite Z.shiftl_mul_pow2 by lia. lia.
  - split; [apply Z.div_pos; lia|]. apply Z.div_lt_upper_bound; lia.
Qed.

Lemma mix_k_ROTL32 k : u32 (ROTL32 (u32 (k * C1)) 15 * C2) = mix_k k.
Proof.
  unfold mix_k. rewrite ROTL32_rotl; [done|apply (wrap_range 32); lia|lia].
Qed.

Lemma DOBLOCK_mix_h h k : 0 <= h < 2 ^ 32 -> fst (DOBLOCK h k) = mix_h h k.
Proof.
  intros Hh. unfold DOBLOCK, mix_h. cbv zeta. rewrite mix_k_ROTL32. simpl fst.
  rewrite ROTL32_rotl; [done| |lia]. apply lxor_range; [lia|done|].
  unfold mix_k. apply Z.mod_pos_bound. lia.
Qed.

Lemma READ_UINT32_le b0 b1 b2 b3 :
  Forall is_byte [b0; b1; b2; b3] -> READ_UINT32 b0 b1 b2 b3 = le [b0; b1; b2; b3].
Proof.
  intros H. rewrite !Forall_cons in H. destruct H as (H0 & H1 & H2 & H3 & _). unfold is_byte in *.
  unfold READ_UINT32. rewrite (lor_shiftl_add b0 b1 8) by lia.
  rewrite (lor_shiftl_add _ b2 16) by lia. rewrite (lor_shiftl_add _ b3 24) by lia. simpl. lia.
Qed.

(** ** Simulation of the abstract byte-at-a-time hash *)

(** The hash one byte at a time: whole words are absorbed as they fill up. *)
Definition absorb (st : Z * list Z) (b : Z) : Z * list Z :=
  let '(h, tail) := st in
  if (length tail =? 3)%nat then (fst (DOBLOCK h (le (tail ++ [b]))), []) else (h, tail ++ [b]).

Lemma process_words_absorb h key :
  Forall is_byte key -> process_words h key = fold_left absorb key (h, []).
Proof.
  assert (H : forall n key h, (length key <= n)%nat -> Forall is_byte key ->
    process_words h key = fold_left absorb key (h, [])); [|eauto].
  induction n as [|n IH]; intros key' h' Hn Hby.
  - by destruct key'; simpl in Hn; [|lia].
  - destruct key' as [|b0 [|b1 [|b2 [|b3 rest]]]]; try done.
    simpl in Hn. change (b0 :: b1 :: b2 :: b3 :: rest) with ([b0; b1; b2; b3] ++ rest) in Hby.
    apply Forall_app in Hby as [H4 Hr]. cbn [process_words]. rewrite READ_UINT32_le by done.
    rewrite IH by (try lia; done). done.
Qed.

Lemma murmur_body_words h key :
  0 <= h < 2 ^ 32 -> Forall is_byte key -> process_words h key = murmur_body h key.
Proof.
  assert (H : forall n key h, (length key <= n)%nat -> 0 <= h < 2 ^ 32 -> Forall is_byte key ->
    process_words h key = murmur_body h key); [|eauto].
  induction n as [|n IH]; intros key' h' Hn Hh Hby.
  - by destruct key'; simpl in Hn; [|lia].
  - destruct key' as [|b0 [|b1 [|b2 [|b3 rest]]]]; try done.
    simpl in Hn. change (b0 :: b1 :: b2 :: b3 :: rest) with ([b0; b1; b2; b3] ++ rest) in Hby.
    apply Forall_app in Hby as [H4 Hr]. cbn [process_words murmur_body].
    rewrite READ_UINT32_le, DOBLOCK_mix_h by done. apply IH; [lia| |done].
    apply Z.mod_pos_bound. lia.
Qed.

(** The concrete state stands for the abstract one. *)
Definition repr (st : Z * Z * Z) (abs : Z * list Z) : Prop :=
  let '(h1, c, n) := st in h1 = fst abs /\ n = Z.of_nat (length (snd abs)) /\ holds c (snd abs).

Lemma DOBLOCK_range h k : 0 <= snd (DOBLOCK h k) < 2 ^ 32.
Proof. apply (wrap_range 32). lia. Qed.

Lemma DOBYTE_simulates st abs b :
  repr st abs -> is_byte b -> repr (DOBYTE st b) (absorb abs b).
Proof.
  destruct st as [[h1 c] n], abs as [h tail]. intros (Hh & Hn & Hc) Hb. simpl in Hh, Hn, Hc. subst h1 n.
  pose proof Hc as (Hr & Hlen & Hby & _). pose proof (push_holds c tail b Hc Hb) as [Hr' Hv'].
  unfold DOBYTE, absorb. rewrite push_carry by done.
  destruct (length tail =? 3)%nat eqn:E; breflect.
  - rewrite E in *. change (Z.of_nat 3 + 1 =? 4) with true. cbv iota.
    change (2 ^ (8 * (3 - Z.of_nat 3))) with 1 in Hv'. rewrite Z.div_1_r in Hv'. rewrite Hv'.
    pose proof (DOBLOCK_range h (le (tail ++ [b]))) as Hk.
    destruct (DOBLOCK h (le (tail ++ [b]))) as [h' k]. simpl in Hk.
    unfold repr, holds. simpl. split_and!; try done; try lia.
    apply Z.div_small. exact Hk.
  - destruct (Z.of_nat (length tail) + 1 =? 4) eqn:E2; breflect; [lia|].
    unfold repr, holds. simpl. rewrite length_app. simpl. split_and!; try done; try lia.
    + apply Forall_app. auto.
    + by replace (4 - Z.of_nat (length tail + 1)) with (3 - Z.of_nat (length tail)) by lia.
Qed.

Lemma DOBYTES_simulates bytes st abs :
  repr st abs -> Forall is_byte bytes -> repr (DOBYTES bytes st) (fold_left absorb bytes abs).
Proof.
  intros H Hb. revert st abs H. induction Hb as [|b bytes Hb _ IH]; intros st abs H; [done|].
  simpl. apply IH. by apply DOBYTE_simulates.
Qed.

Lemma absorb_length bytes h tail :
  (length tail + length bytes < 4)%nat -> fold_left absorb bytes (h, tail) = (h, tail ++ bytes).
Proof.
  revert tail. induction bytes as [|b bytes IH]; intros tail Hl; simpl; [by rewrite app_nil_r|].
  simpl in Hl. destruct (length tail =? 3)%nat eqn:E; breflect; [lia|].
  rewrite IH by (rewrite length_app; simpl; lia). by rewrite <- app_assoc.
Qed.

Lemma absorb_fill bytes h tail :
  (length tail < 4)%nat -> (length tail + length bytes = 4)%nat ->
  exists h', fold_left absorb bytes (h, tail) = (h', []).
Proof.
  revert h tail. induction bytes as [|b bytes IH]; intros h tail Hlt Hl; simpl in *; [lia|].
  destruct (length tail =? 3)%nat eqn:E; breflect.
  - destruct bytes; [by eexists|simpl in Hl; lia].
  - apply IH; rewrite length_app; simpl; lia.
Qed.

(** The carry between two calls: the bytes held and, in the low bits, their
    number. *)
Definition carried (st : Z * Z) (abs : Z * list Z) : Prop :=
  fst st = fst abs /\ holds (snd st) (snd abs) /\ snd st mod 4 = Z.of_nat (length (snd abs)).

Lemma land_mask_low c : 0 <= c < 2 ^ 32 -> Z.land c (2 ^ 32 - 1 - 0xff) = 256 * (c / 256).
Proof.
  intros Hc. change (2 ^ 32 - 1 - 0xff) with (Z.shiftl (Z.ones 24) 8).
  apply Z.bits_inj'. intros n Hn. rewrite Z.land_spec, Z.mul_comm.
  change 256 with (2 ^ 8). rewrite <- Z.shiftl_mul_pow2, <- Z.shiftr_div_pow2 by lia.
  rewrite !Z.shiftl_spec by lia. destruct (Z.lt_ge_cases n 8).
  - rewrite (Z.testbit_neg_r (Z.ones 24)), (Z.testbit_neg_r (Z.shiftr c 8)) by lia.
    apply andb_false_r.
  - rewrite Z.shiftr_spec by lia. replace (n - 8 + 8) with n by lia.
    destruct (Z.lt_ge_cases n 32).
    + rewrite Z.ones_spec_low by lia. apply andb_true_r.
    + rewrite Z.ones_spec_high by lia.
      rewrite <- (Z.mod_small c (2 ^ 32)) by lia. rewrite Z.mod_pow2_bits_high by lia. done.
Qed.

Lemma store_carry c tail :
  holds c tail ->
  carried (0, Z.lor (Z.land c (2 ^ 32 - 1 - 0xff)) (Z.of_nat (length tail))) (0, tail).
Proof.
  intros (Hc & Hl & Hby & Hv). rewrite land_mask_low by done.
  unfold carried, holds. simpl fst. simpl snd. assert (Hn : 0 <= Z.of_nat (length tail) <= 3) by lia.
  set (n := Z.of_nat (length tail)) in *. clearbody n.
  assert (Hor : Z.lor (256 * (c / 256)) n = n + c / 256 * 256).
  { rewrite Z.lor_comm, Z.mul_comm. change 256 with (2 ^ 8) at 2.
    rewrite <- Z.shiftl_mul_pow2 by lia. apply lor_shiftl_add; lia. }
  rewrite !Hor. assert (0 <= c / 256 < 2 ^ 24)
    by (split; [apply Z.div_pos; lia|apply Z.div_lt_upper_bound; lia]).
  split_and!; try done; try lia.
  - assert (2 ^ (8 * (4 - n)) = 256 * 2 ^ (8 * (3 - n))) as Hpow
      by (replace (8 * (4 - n)) with (8 + 8 * (3 - n)) by lia; by rewrite Z.pow_add_r by lia).
    rewrite Hpow in *. rewrite <- Z.div_div by lia. rewrite Z.div_add by lia. rewrite (Z.div_small n 256) by lia.
    rewrite Z.add_0_l, Z.div_div by lia. done.
  - replace (n + c / 256 * 256) with (n + (c / 256 * 64) * 4) by lia.
    rewrite Z.mod_add by lia. apply Z.mod_small. lia.
Qed.

Lemma process_words_rest h p : (length (snd (process_words h p)) < 4)%nat.
Proof.
  assert (H : forall n p h, (length p <= n)%nat -> (length (snd (process_words h p)) < 4)%nat); [|eauto].
  induction n as [|n IH]; intros q h' Hn.
  - destruct q; simpl in *; lia.
  - destruct q as [|b0 [|b1 [|b2 [|b3 rest]]]]; simpl in *; try lia. apply IH. lia.
Qed.

Lemma process_words_short h p : (length p < 4)%nat -> process_words h p = (h, p).
Proof. destruct p as [|? [|? [|? [|? ?]]]]; simpl; try done. lia. Qed.

(** The words and the last bytes, when no byte is held. *)
Lemma process_aligned h1 c n h ptr :
  repr (h1, c, n) (h, []) -> Forall is_byte ptr ->
  let '(h2, rest) := process_words h1 ptr in
  repr (DOBYTES rest (h2, c, n)) (fold_left absorb ptr (h, [])).
Proof.
  intros (Hh & Hn & Hc) Hby. simpl in Hh, Hn, Hc. subst h1 n.
  pose proof (process_words_absorb h ptr Hby) as Ha. pose proof (process_words_rest h ptr) as Hr.
  assert (Hsub : Forall is_byte (snd (process_words h ptr))).
  { clear - Hby. assert (H : forall n p h, (length p <= n)%nat -> Forall is_byte p ->
      Forall is_byte (snd (process_words h p))); [|eauto].
    induction n as [|n IH]; intros q h' Hn Hq.
    - by destruct q; simpl in *; [|lia].
    - destruct q as [|b0 [|b1 [|b2 [|b3 rest]]]]; simpl in *; try done.
      apply IH; [lia|]. rewrite !Forall_cons in Hq. tauto. }
  destruct (process_words h ptr) as [h2 rest]. simpl in Hr, Hsub. rewrite <- Ha.
  assert (Hrest : fold_left absorb rest (h2, []) = (h2, rest))
    by (rewrite absorb_length by (simpl; lia); done).
  rewrite <- Hrest. apply DOBYTES_simulates; [|done]. by split_and!.
Qed.

Lemma process_simulates h1 c abs key :
  carried (h1, c) abs -> Forall is_byte key ->
  carried (PMurHash32_Process h1 c key) (fold_left absorb key abs).
Proof.
  destruct abs as [h tail]. intros (Hh & Hc & Hn) Hby. simpl in Hh, Hc, Hn. subst h1.
  unfold PMurHash32_Process. change 3 with (Z.ones 2). rewrite !Z.land_ones by lia.
  change (2 ^ 2) with 4. rewrite Hn. pose proof Hc as (_ & Hlen & _).
  assert (Hstart : repr (h, c, Z.of_nat (length tail)) (h, tail)) by (by split_and!).
  assert (Hstore : forall st abs, repr st abs ->
    let '(h1, c, n) := st in carried (h1, Z.lor (Z.land c (2 ^ 32 - 1 - 0xff)) n) abs).
  { intros [[h1 c1] n1] [h' t'] (-> & -> & Hc1). simpl in Hc1 |- *.
    destruct (store_carry c1 t' Hc1) as (_ & H1 & H2). by split_and!. }
  set (i := (4 - Z.of_nat (length tail)) mod 4).
  assert (Hi : i = if (length tail =? 0)%nat then 0 else 4 - Z.of_nat (length tail)).
  { subst i. destruct tail as [|? [|? [|? [|? ?]]]]; simpl in Hlen; try lia; done. }
  destruct (negb (i =? 0) && (i <=? Z.of_nat (length key))) eqn:E.
  - (* the carry is completed first *)
    apply andb_true_iff in E as [E1 E2]. breflect. rewrite Hi in *.
    destruct (length tail =? 0)%nat eqn:E0; [done|]. breflect.
    set (k := Z.to_nat (4 - Z.of_nat (length tail))).
    rewrite <- (take_drop k key) in Hby at 1. apply Forall_app in Hby as [Hb1 Hb2].
    pose proof (DOBYTES_simulates _ _ _ Hstart Hb1) as H1.
    destruct (absorb_fill (take k key) h tail) as [h' Hfill];
      [lia|rewrite length_take; subst k; lia|]. rewrite Hfill in H1.
    assert (fold_left absorb key (h, tail) = fold_left absorb (drop k key) (h', [])) as ->
      by (rewrite <- (take_drop k key) at 1; by rewrite fold_left_app, Hfill).
    destruct (DOBYTES (take k key) _) as [[h2 c2] n2].
    pose proof (process_aligned h2 c2 n2 h' _ H1 Hb2) as H2.
    destruct (process_words h2 (drop k key)) as [h3 rest].
    apply Hstore in H2. destruct (DOBYTES rest _) as [[? ?] ?]. exact H2.
  - destruct (length tail =? 0)%nat eqn:E0; breflect.
    + (* nothing is held *)
      destruct tail; [|done]. pose proof (process_aligned h c 0 h key Hstart Hby) as H2.
      change (Z.of_nat (length [])) with 0. destruct (process_words h key) as [h3 rest].
      apply Hstore in H2. destruct (DOBYTES rest _) as [[? ?] ?]. exact H2.
    + (* too few bytes to complete the carry *)
      rewrite Hi in E. destruct E as [E|E]; breflect; [lia|].
      rewrite process_words_short by lia.
      pose proof (DOBYTES_simulates key _ _ Hstart Hby) as H2. apply Hstore in H2.
      destruct (DOBYTES key _) as [[? ?] ?]. exact H2.
Qed.

Lemma result_simulates st abs len :
  carried st abs ->
  PMurHash32_Result (fst st) (snd st) len = fmix (Z.lxor (mix_tail (fst abs) (snd abs)) len).
Proof.
  destruct st as [h1 c], abs as [h tail]. intros (Hh & (Hc & Hlen & Hby & Hv) & Hn).
  simpl in *. subst h1. unfold PMurHash32_Result, fmix, mix_tail.
  change 3 with (Z.ones 2). rewrite !Z.land_ones by lia. change (2 ^ 2) with 4. rewrite Hn.
  destruct tail as [|b tail]; [done|]. cbn [length] in *.
  destruct (Z.of_nat (S (length tail)) =? 0) eqn:E; breflect; [lia|].
  rewrite Z.shiftr_div_pow2 by lia. rewrite (Z.mul_comm _ 8), Hv, mix_k_ROTL32. done.
Qed.

Lemma carried_init seed : carried (seed, 0) (seed, []).
Proof. unfold carried, holds; simpl; split_and!; try done; try lia; constructor. Qed.

(** The all-at-once hash, with its carry of unprocessed bytes packed into one
    word, computes MurmurHash3 of the message: whole little-endian words, then
    the tail, then the finaliser over the length. *)
Theorem PMurHash32_is_murmur3 seed key :
  0 <= seed < 2 ^ 32 -> Forall is_byte key -> PMurHash32 seed key = murmur3 seed key.
Proof.
  intros Hs Hby. unfold PMurHash32, murmur3.
  pose proof (process_simulates seed 0 _ key (carried_init seed) Hby) as H.
  apply (result_simulates _ _ (u32 (Z.of_nat (length key)))) in H.
  rewrite <- murmur_body_words, process_words_absorb by done.
  destruct (PMurHash32_Process seed 0 key), (fold_left absorb key (seed, [])). exact H.
Qed.

Lemma PMurHash32_is_murmur3_witness :
  PMurHash32 5381 [97; 98; 99; 100; 101] = murmur3 5381 [97; 98; 99; 100; 101].
Proof. apply PMurHash32_is_murmur3; [lia|]. repeat constructor; lia. Defined.

(** Feeding the message in pieces. *)
Definition process_all (seed : Z) (pieces : list (list Z)) : Z * Z :=
  fold_left (fun st p => PMurHash32_Process (fst st) (snd st) p) pieces (seed, 0).

Lemma process_all_result seed pieces :
  Forall (Forall is_byte) pieces ->
  PMurHash32_Result (process_all seed pieces).1 (process_all seed pieces).2
    (u32 (Z.of_nat (length (concat pieces)))) = PMurHash32 seed (concat pieces).
Proof.
  intros Hby. unfold PMurHash32.
  assert (H : carried (process_all seed pieces) (fold_left absorb (concat pieces) (seed, []))).
  { unfold process_all. generalize (carried_init seed).
    generalize (seed, 0) as st. generalize (seed, @nil Z) as abs.
    induction Hby as [|p pieces Hp _ IH]; intros abs st H; [done|].
    simpl. rewrite fold_left_app. apply IH. destruct st. by apply process_simulates. }
  pose proof (process_simulates seed 0 _ (concat pieces) (carried_init seed)
    ltac:(by apply Forall_concat)) as H'.
  apply (result_simulates _ _ (u32 (Z.of_nat (length (concat pieces))))) in H, H'.
  destruct (PMurHash32_Process seed 0 (concat pieces)). simpl in H, H'. congruence.
Qed.

(** C20: The progressive interface gives the digest of the whole message however the
    message is cut into pieces. *)
Theorem PMurHash32_progressive seed pieces :
  Forall (Forall is_byte) pieces ->
  let '(h1, carry) := process_all seed pieces in
  PMurHash32_Result h1 carry (u32 (Z.of_nat (length (concat pieces)))) =
  PMurHash32 seed (concat pieces).
Proof. intros Hby. pose proof (process_all_result seed pieces Hby). by destruct (process_all seed pieces). Qed.

Lemma PMurHash32_progressive_witness :
  let '(h1, carry) := process_all 1 [[1; 2; 3]; [4; 5]; []; [6]] in
  PMurHash32_Result h1 carry 6 = PMurHash32 1 [1; 2; 3; 4; 5; 6].
Proof.
  apply (PMurHash32_progressive 1 [[1; 2; 3]; [4; 5]; []; [6]]).
  repeat constructor; lia.
Defined.

(** The digest as its clients see it: the caller counts the bytes. *)
Definition murmur_ctx : Type := Z * Z * Z.
Definition murmur_update (st : murmur_ctx) (p : list Z) : murmur_ctx :=
  let '(h, c, n) := st in
  let '(h, c) := PMurHash32_Process h c p in (h, c, n + Z.of_nat (length p)).

Lemma murmur_updates pieces h c n :
  fold_left murmur_update pieces (h, c, n) =
  (fold_left (fun st p => PMurHash32_Process (fst st) (snd st) p) pieces (h, c),
   n + Z.of_nat (length (concat pieces))).
Proof.
  revert h c n. induction pieces as [|p pieces IH]; intros h c n; cbn [fold_left concat length].
  - f_equal. lia.
  - cbn [murmur_update fst snd]. destruct (PMurHash32_Process h c p) as [h' c'].
    rewrite IH, length_app. f_equal. lia.
Qed.

#[export, refine] Instance murmur_digest (seed : Z) : Digest murmur_ctx Z := {
  dg_fresh _ := True;
  dg_init _ := (seed, 0, 0);
  dg_update := murmur_update;
  dg_final st := let '(h, c, n) := st in PMurHash32_Result h c (u32 n);
  dg_hash := PMurHash32 seed;
  dg_pieces := _
}.
Proof.
  intros _ pieces _ Hp. rewrite murmur_updates. rewrite <- process_all_result by done.
  unfold process_all. by destruct (fold_left _ pieces (seed, 0)).
Defined.
