(* ===== verification/Features.v ===== *)
(** Kernel feature sets ([libraries/libapparmor/src/features.c]): the bounded
    buffer the feature directory is flattened into, the text walk that answers
    whether a feature is supported, the comparison and the digest. *)

From S2P Require Import Prelude Murmur.

Definition STRING_SIZE : Z := 8192.
Definition UINT32_MAX : Z := 2 ^ 32 - 1.
Definition MAX_COMPONENTS : nat := 32.

(** ** Character classes *)

Definition islbrace (c : ascii) : bool := Ascii.eqb c "{"%char.
Definition isrbrace (c : ascii) : bool := Ascii.eqb c "}"%char.
Definition isnul (c : ascii) : bool := Ascii.eqb c NUL.
Definition isbrace (c : ascii) : bool := islbrace c || isrbrace c.
Definition isbrace_or_nul (c : ascii) : bool := isbrace c || isnul c.
Definition isbrace_space_or_nul (c : ascii) : bool := isbrace c || isspace c || isnul c.

(** ** Splitting the queried path *)

(** [strchrnul (str, '/')]: the token before the slash and the rest from it. *)
Fixpoint strchrnul_slash (str : cstr) : cstr * cstr :=
  match str with
  | [] => ([], [])
  | c :: rest =>
      if Ascii.eqb c "/"%char then ([], str)
      else let '(tok, fwdslash) := strchrnul_slash rest in (c :: tok, fwdslash)
  end.

(** The loop of [tokenize_path_components]; [room] is [max_components - i]. *)
Fixpoint tokenize_loop (fuel : nat) (str : cstr) (room : nat) : list cstr :=
  match fuel with
  | O => []
  | S fuel =>
      if isnul (deref str) || (room =? 0)%nat then []
      else
        let '(tok, fwdslash) := strchrnul_slash str in
        let kept := match tok with [] => [] | _ => [tok] end in
        let room := (room - length kept)%nat in
        match fwdslash with
        | [] => kept
        | _ :: str => kept ++ tokenize_loop fuel str room
        end
  end.

Definition tokenize_path_components (str : cstr) (max_components : nat) : list cstr :=
  tokenize_loop (S (length str)) str max_components.

(** ** Walking the features string *)

(** The search loop of [walk_one]: [brace_count], the matched length [i]; the
    result is [cur] one past the match, or the failure. *)
Fixpoint walk_find (cur component : cstr) (brace_count : Z) (i : nat) : option cstr :=
  match cur with
  | [] => None
  | c :: cur' =>
      if negb (isascii c) then None
      else
        let counted :=
          if islbrace c then
            if brace_count =? UINT32_MAX then None else Some (brace_count + 1)
          else if isrbrace c then
            if brace_count =? 0 then None else Some (brace_count - 1)
          else Some brace_count in
        match counted with
        | None => None
        | Some brace_count =>
            let i := if (brace_count =? 0) && Ascii.eqb c (at_ component i) then S i else O in
            let i := if (i =? length component)%nat && negb (isbrace_space_or_nul (deref cur'))
                     then O else i in
            if (i <? length component)%nat then walk_find cur' component brace_count i
            else Some cur'
        end
  end.

(** The second loop: up to the first brace or the end. *)
Fixpoint walk_eat (cur : cstr) : option cstr :=
  match cur with
  | [] => Some []
  | c :: cur' =>
      if isbrace_or_nul c then Some cur
      else if negb (isascii c) then None
      else walk_eat cur'
  end.

Definition walk_one (str component : cstr) (is_top_level : bool) : option cstr :=
  match component with
  | [] => None
  | _ =>
      let start :=
        if is_top_level then Some str
        else match str with
             | c :: cur => if islbrace c then Some cur else None
             | [] => None
             end in
      match start with
      | None => None
      | Some cur =>
          match walk_find cur component 0 0 with
          | None => None
          | Some cur => walk_eat cur
          end
      end
  end.

Fixpoint walk_all (str : cstr) (components : list cstr) (is_top_level : bool) : option cstr :=
  match components with
  | [] => Some str
  | c :: components =>
      match walk_one str c is_top_level with
      | Some str => walk_all str components false
      | None => None
      end
  end.

Definition features_lookup (features str : cstr) : option cstr :=
  if Ascii.eqb (deref str) "/"%char then None
  else
    match tokenize_path_components str MAX_COMPONENTS with
    | [] => None
    | components => walk_all features components true
    end.

Definition aa_features_supports (features str : cstr) : bool :=
  match features_lookup features str with Some _ => true | None => false end.

(** The loop of [aa_features_value]: the characters up to the brace or the
    end, with the test for a left brace the code makes inside the loop. *)
Fixpoint value_loop (cur : cstr) : cstr + errno :=
  match cur with
  | [] => inl []
  | c :: cur' =>
      if isbrace_or_nul c then inl []
      else if negb (isascii c) then inr ENOENT
      else if islbrace c then inr EISDIR
      else match value_loop cur' with inl v => inl (c :: v) | inr e => inr e end
  end.

Definition aa_features_value (features str : cstr) : cstr + errno :=
  match features_lookup features str with
  | None => inr ENOENT
  | Some [] => inr ENOENT
  | Some (c :: cur) => if islbrace c then value_loop cur else inr ENOENT
  end.

(** ** Feature objects *)

(** [struct aa_features]; [string] is the text before its terminator. *)
Record aa_features := { ref_count : Z; hash : cstr; string : cstr }.

Definition init_features_hash (str : cstr) : cstr :=
  let '(h, carry) := PMurHash32_Process 5381 0 (map code str) in
  hex8 (PMurHash32_Result h carry (u32 (strlen str))).

Definition aa_features_new_from_string (str : cstr) (size : Z) : aa_features + errno :=
  if size >=? STRING_SIZE then inr ENOBUFS
  else
    let s := until_nul (take (Z.to_nat size) str) in
    inl {| ref_count := 1; hash := init_features_hash s; string := s |}.

Definition aa_features_ref (f : aa_features) : aa_features :=
  {| ref_count := u32 (ref_count f + 1); hash := hash f; string := string f |}.

(** [None]: the object was freed. *)
Definition aa_features_unref (f : aa_features) : option aa_features :=
  let n := u32 (ref_count f - 1) in
  if n =? 0 then None else Some {| ref_count := n; hash := hash f; string := string f |}.

Definition aa_features_is_equal (f1 f2 : option aa_features) : bool :=
  match f1, f2 with
  | Some f1, Some f2 =>
      let len1 := Z.min (strlen (string f1)) STRING_SIZE in
      let len2 := Z.min (strlen (string f2)) STRING_SIZE in
      if (len1 =? STRING_SIZE) || (len2 =? STRING_SIZE) then false
      else (len1 =? len2) &&
           bool_decide (take (Z.to_nat len1) (string f1) = take (Z.to_nat len1) (string f2))
  | _, _ => false
  end.

Definition aa_features_id (f : aa_features) : cstr := hash f.

(** ** Reading feature files and directories *)

(** The loop of [load_features_file]; [size] is the room left without the
    terminator.  The answers of [read] come from [ks], and when it runs out the
    reads return as much as they can. *)
Fixpoint load_loop (fuel : nat) (rem : cstr) (ks : list (option nat)) (size : nat) (acc : cstr)
  : cstr + errno :=
  match fuel with
  | O => inr EIO
  | S fuel =>
      match hd (Some size) ks with
      | None => inr EIO
      | Some k =>
          let len := read_len k size rem in
          let size' := (size - len)%nat in
          let acc := acc ++ take len rem in
          if (len =? 0)%nat then inl acc
          else if (size' =? 0)%nat then inr ENOBUFS
          else load_loop fuel (drop len rem) (tail ks) size' acc
      end
  end.

Definition load_features_file (contents : cstr) (ks : list (option nat)) (size : nat)
  : cstr + errno :=
  load_loop (S (length contents)) contents ks (size - 1) [].

(** [open_and_load_features_file] on a file that can be opened. *)
Definition open_and_load_features_file (contents : cstr) (ks : list (option nat)) (size : nat)
  : cstr + errno :=
  if (size =? 0)%nat then inr ENOBUFS else load_features_file contents ks size.

(** An entry of a feature directory, as [fstatat] and [open] show it. *)
#[warnings="-register-all"]
Inductive dirent :=
  | DFile (name contents : cstr) (ks : list (option nat))
  | DDir (name : cstr) (entries : list dirent)
  | DOther (name contents : cstr) (ks : list (option nat)).

Definition d_name (e : dirent) : cstr :=
  match e with DFile n _ _ | DDir n _ | DOther n _ _ => n end.

(** [features_snprintf] on the text written so far, in a buffer of [size]
    bytes. *)
Definition features_snprintf (size : nat) (out s : cstr) : cstr + errno :=
  if (size <? length out)%nat then inr EINVAL
  else if (size - length out <=? length s)%nat then inr ENOBUFS
  else inl (out ++ s).

(** [_aa_dirat_for_each] with [cb]: every entry is visited, a failure is
    remembered and does not stop the walk. *)
Fixpoint for_each (cb : dirent -> cstr -> cstr * option errno) (es : list dirent)
    (out : cstr) (rc : option errno) : cstr * option errno :=
  match es with
  | [] => (out, rc)
  | e :: es =>
      let '(out, r) := cb e out in
      for_each cb es out (match r with Some _ => r | None => rc end)
  end.

(** [features_dir_cb]: the text written and the failure, if any. *)
Fixpoint features_dir_cb (size : nat) (e : dirent) (out : cstr) : cstr * option errno :=
  let name := d_name e in
  if Ascii.eqb (deref name) "."%char || (length name =? 0)%nat then (out, None)
  else
    match features_snprintf size out (name ++ $" {") with
    | inr err => (out, Some err)
    | inl out =>
        let '(out, r) :=
          match e with
          | DFile _ contents ks =>
              match open_and_load_features_file contents ks (size - length out) with
              | inl text => (out ++ text, None)
              | inr err => (out, Some err)
              end
          | DDir _ es =>
              (fix go es out rc :=
                 match es with
                 | [] => (out, rc)
                 | e :: es =>
                     let '(out, r) := features_dir_cb size e out in
                     go es out (match r with Some _ => r | None => rc end)
                 end) es out None
          | DOther _ _ _ => (out, None)
          end in
        match r with
        | Some err => (out, Some err)
        | None =>
            match features_snprintf size out ($"}" ++ [NEWLINE]) with
            | inl out => (out, None)
            | inr err => (out, Some err)
            end
        end
    end.

Definition load_features_dir (entries : list dirent) (size : nat) : cstr + errno :=
  match for_each (features_dir_cb size) entries [] None with
  | (out, None) => inl out
  | (_, Some err) => inr err
  end.

(** The object around a loaded buffer: its one reference and its digest. *)
Definition new_features (text : cstr) : aa_features :=
  let s := until_nul text in
  {| ref_count := 1; hash := init_features_hash s; string := s |}.

(** [aa_features_new]; [None] is a path that [fstatat] does not find.  What is
    not a directory is opened and read. *)
Definition aa_features_new (path : option dirent) : aa_features + errno :=
  match path with
  | None => inr ENOENT
  | Some node =>
      let retval :=
        match node with
        | DDir _ entries => load_features_dir entries (Z.to_nat STRING_SIZE)
        | DFile _ contents ks | DOther _ contents ks =>
            open_and_load_features_file contents ks (Z.to_nat STRING_SIZE)
        end in
      match retval with
      | inr err => inr err
      | inl text => inl (new_features text)
      end
  end.

Definition aa_features_new_from_file (contents : cstr) (ks : list (option nat))
  : aa_features + errno :=
  match load_features_file contents ks (Z.to_nat STRING_SIZE) with
  | inr err => inr err
  | inl text => inl (new_features text)
  end.

(** [aa_features_check]: the stored [.features] file against an object. *)
Definition aa_features_check (stored : option dirent) (features : option aa_features)
  : option errno :=
  match aa_features_new stored with
  | inr err => Some err
  | inl local => if aa_features_is_equal (Some local) features then None else Some EEXIST
  end.

(** The loop of [aa_features_write_to_fd]: [ks] are the counts [write (2)]
    returns ([None] a failing one); the bytes that reached the file. *)
Fixpoint write_loop (fuel : nat) (str : cstr) (ks : list (option nat)) : cstr * option errno :=
  match fuel with
  | O => ([], Some EIO)
  | S fuel =>
      match hd (Some (length str)) ks with
      | None => ([], Some EIO)
      | Some k =>
          let n := Nat.min (Nat.max 1 k) (length str) in
          if (length str - n =? 0)%nat then (take n str, None)
          else let '(out, r) := write_loop fuel (drop n str) (tail ks) in (take n str ++ out, r)
      end
  end.

Definition aa_features_write_to_fd (f : aa_features) (ks : list (option nat))
  : cstr * option errno :=
  write_loop (S (length (string f))) (string f) ks.

(** ** Short reads *)

Lemma load_loop_spec fuel rem ks size acc :
  (length rem < fuel)%nat -> Forall (fun k => k <> None) ks -> (1 <= size)%nat ->
  load_loop fuel rem ks size acc =
    if (length rem <? size)%nat then inl (acc ++ rem) else inr ENOBUFS.
Proof.
  revert rem ks size acc. induction fuel as [|fuel IH]; intros rem ks size acc Hf Hks Hs; [lia|].
  cbn [load_loop].
  assert (Hk : exists k, hd (Some size) ks = Some k).
  { destruct ks as [|[k|] ks]; simpl; eauto. by inversion Hks. }
  destruct Hk as [k ->]. unfold read_len.
  set (len := Nat.min (Nat.max 1 k) (Nat.min size (length rem))).
  destruct (len =? 0)%nat eqn:E; breflect.
  - destruct rem as [|c rem]; [|subst len; simpl in E; lia]. simpl.
    rewrite take_nil. destruct (0 <? size)%nat eqn:E2; breflect; [done|lia].
  - destruct (size - len =? 0)%nat eqn:E2; breflect.
    + destruct (length rem <? size)%nat eqn:E3; breflect; [lia|done].
    + assert (len <= length rem)%nat by lia.
      rewrite IH; [|rewrite length_drop; lia|by apply Forall_tail|lia].
      rewrite length_drop, <- app_assoc, take_drop.
      destruct (length rem - len <? size - len)%nat eqn:E3, (length rem <? size)%nat eqn:E4;
        breflect; try lia; done.
Qed.

Lemma load_features_file_spec contents ks size :
  (2 <= size)%nat -> Forall (fun k => k <> None) ks ->
  load_features_file contents ks size =
    if (length contents + 2 <=? size)%nat then inl contents else inr ENOBUFS.
Proof.
  intros Hs Hks. unfold load_features_file. rewrite load_loop_spec by (try lia; done).
  destruct (length contents <? size - 1)%nat eqn:E1, (length contents + 2 <=? size)%nat eqn:E2;
    breflect; try lia; done.
Qed.

(** A feature file is read whole whatever short reads the kernel makes, and it
    is refused with [ENOBUFS] exactly when fewer than two bytes of the buffer
    would be left: one for the terminator and one more, because the loop only
    learns that it has seen the whole file from a read that returns zero. *)
Theorem load_features_file_correct contents ks size :
  (2 <= size)%nat -> Forall (fun k => k <> None) ks ->
  load_features_file contents ks size =
    if (length contents + 2 <=? size)%nat then inl contents else inr ENOBUFS.
Proof. exact (load_features_file_spec contents ks size). Qed.

Lemma load_features_file_correct_witness :
  load_features_file $"abc" [Some 1%nat; Some 1%nat] 5 = inl $"abc" /\
  load_features_file $"abc" [Some 1%nat; Some 1%nat] 4 = inr ENOBUFS.
Proof.
  split.
  - apply (load_features_file_correct $"abc" [Some 1%nat; Some 1%nat] 5); [lia|].
    repeat constructor; discriminate.
  - apply (load_features_file_correct $"abc" [Some 1%nat; Some 1%nat] 4); [lia|].
    repeat constructor; discriminate.
Defined.

(** ** Flattening a directory *)

Section dirent_induction.
Context (P : dirent -> Prop).
Hypothesis Hfile : forall n c ks, P (DFile n c ks).
Hypothesis Hdir : forall n es, Forall P es -> P (DDir n es).
Hypothesis Hother : forall n c ks, P (DOther n c ks).

Fixpoint dirent_tree_ind (e : dirent) : P e :=
  match e with
  | DFile n c ks => Hfile n c ks
  | DDir n es =>
      Hdir n es ((fix go es : Forall P es :=
        match es with
        | [] => @List.Forall_nil _ P
        | e :: es => @List.Forall_cons _ P e es (dirent_tree_ind e) (go es)
        end) es)
  | DOther n c ks => Hother n c ks
  end.
End dirent_induction.

(** Entries the walk skips. *)
Definition hidden (e : dirent) : bool :=
  Ascii.eqb (deref (d_name e)) "."%char || (length (d_name e) =? 0)%nat.

(** The text an entry stands for. *)
Fixpoint flatten (e : dirent) : cstr :=
  if Ascii.eqb (deref (d_name e)) "."%char || (length (d_name e) =? 0)%nat then []
  else
    d_name e ++ $" {" ++
    (match e with
     | DFile _ contents _ => contents
     | DDir _ es => concat (map flatten es)
     | DOther _ _ _ => []
     end) ++ $"}" ++ [NEWLINE].

Definition body (e : dirent) : cstr :=
  match e with
  | DFile _ contents _ => contents
  | DDir _ es => concat (map flatten es)
  | DOther _ _ _ => []
  end.

Lemma flatten_unfold e :
  flatten e = if hidden e then [] else d_name e ++ $" {" ++ body e ++ $"}" ++ [NEWLINE].
Proof. by destruct e. Qed.

(** No read of the tree fails. *)
Fixpoint readable (e : dirent) : Prop :=
  match e with
  | DFile _ _ ks => Forall (fun k => k <> None) ks
  | DDir _ es => (fix all es := match es with [] => True | e :: es => readable e /\ all es end) es
  | DOther _ _ _ => True
  end.

Lemma readable_dir n es : readable (DDir n es) <-> Forall readable es.
Proof.
  induction es as [|e es IH]; simpl; [split; [constructor|done]|].
  rewrite Forall_cons. simpl in IH. by rewrite IH.
Qed.

(** The loop inside the callback is the directory walk. *)
Lemma for_each_fix size es out rc :
  (fix go es out rc :=
     match es with
     | [] => (out, rc)
     | e :: es =>
         let '(out, r) := features_dir_cb size e out in
         go es out (match r with Some _ => r | None => rc end)
     end) es out rc = for_each (features_dir_cb size) es out rc.
Proof.
  revert out rc. induction es as [|e es IH]; intros out rc; [done|].
  cbn [for_each]. destruct (features_dir_cb size e out). apply IH.
Qed.

(** A visit that appends the text [t] when it fits and fails otherwise; it
    never removes what was written. *)
Definition appends (size : nat) (t : cstr) (visit : cstr -> cstr * option errno) : Prop :=
  forall out, (length out < size)%nat ->
    (length (fst (visit out)) < size)%nat /\
    ((length (out ++ t) < size)%nat -> visit out = (out ++ t, None)) /\
    ((size <= length (out ++ t))%nat -> exists err, snd (visit out) = Some err).

Lemma for_each_keeps_error cb es out rc :
  rc <> None -> exists err, snd (for_each cb es out rc) = Some err.
Proof.
  revert out rc. induction es as [|e es IH]; intros out rc H; simpl.
  - destruct rc; [eauto|done].
  - destruct (cb e out) as [out' [r|]]; apply IH; done.
Qed.

Lemma for_each_appends size cb es text :
  Forall (fun e => appends size (text e) (cb e)) es ->
  appends size (concat (map text es)) (fun out => for_each cb es out None).
Proof.
  assert (Hlen : forall es out rc, Forall (fun e => appends size (text e) (cb e)) es ->
    (length out < size)%nat -> (length (fst (for_each cb es out rc)) < size)%nat).
  { clear es. intros es out rc H. revert out rc. induction H as [|e es He _ IH]; intros out rc Ho; [done|].
    simpl. destruct (He out Ho) as (H1 & _). destruct (cb e out) as [out' r]. by apply IH. }
  induction 1 as [|e es He Hes IH]; intros out Ho.
  - simpl. rewrite app_nil_r. split_and!; try done. lia.
  - split; [apply Hlen; [by constructor|done]|].
    destruct (He out Ho) as (H1 & H2 & H3). cbn [map concat for_each]. rewrite app_assoc.
    assert (length (out ++ text e) <= length ((out ++ text e) ++ concat (map text es)))%nat
      by (rewrite (length_app (out ++ text e)); lia).
    split.
    + intros Hfit. rewrite H2 by lia. apply IH; lia.
    + intros Hover. destruct (decide (length (out ++ text e) < size)%nat) as [Hf|Hf].
      * rewrite H2 by done. by apply IH.
      * destruct H3 as [err Herr]; [lia|]. destruct (cb e out) as [out' r]. simpl in Herr. subst r.
        by apply for_each_keeps_error.
Qed.

(** What is visited between the opening and the closing of an entry. *)
Definition body_ok (size : nat) (b : cstr) (inner : cstr -> cstr * option errno) : Prop :=
  forall out, (length out < size)%nat ->
    (length (fst (inner out)) < size)%nat /\
    ((length (out ++ b) + 2 < size)%nat -> inner out = (out ++ b, None)) /\
    ((size <= length (out ++ b) + 2)%nat ->
       (exists err, snd (inner out) = Some err) \/ (size <= length (fst (inner out)) + 2)%nat).

Definition visit_entry (size : nat) (name : cstr) (inner : cstr -> cstr * option errno)
    (out : cstr) : cstr * option errno :=
  match features_snprintf size out (name ++ $" {") with
  | inr err => (out, Some err)
  | inl out =>
      let '(out, r) := inner out in
      match r with
      | Some err => (out, Some err)
      | None =>
          match features_snprintf size out ($"}" ++ [NEWLINE]) with
          | inl out => (out, None)
          | inr err => (out, Some err)
          end
      end
  end.

Definition load_body (size : nat) (contents : cstr) (ks : list (option nat)) (out : cstr)
  : cstr * option errno :=
  match (if (size - length out =? 0)%nat then inr ENOBUFS
         else load_features_file contents ks (size - length out)) with
  | inl text => (out ++ text, None)
  | inr err => (out, Some err)
  end.

Lemma features_snprintf_spec size out s :
  (length out < size)%nat ->
  features_snprintf size out s = if (length (out ++ s) <? size)%nat then inl (out ++ s) else inr ENOBUFS.
Proof.
  intros Ho. unfold features_snprintf. rewrite length_app.
  destruct (size <? length out)%nat eqn:E1, (size - length out <=? length s)%nat eqn:E2,
    (length out + length s <? size)%nat eqn:E3; breflect; try lia; done.
Qed.

Lemma visit_entry_appends size name b inner :
  body_ok size b inner ->
  appends size (name ++ $" {" ++ b ++ $"}" ++ [NEWLINE]) (visit_entry size name inner).
Proof.
  intros Hin out Ho. unfold visit_entry. rewrite features_snprintf_spec by done.
  set (out1 := out ++ name ++ $" {").
  assert (Hall : out ++ name ++ $" {" ++ b ++ $"}" ++ [NEWLINE] = (out1 ++ b) ++ $"}" ++ [NEWLINE])
    by (subst out1; by rewrite <- !app_assoc).
  rewrite Hall, (length_app (out1 ++ b)). change (length ($"}" ++ [NEWLINE])) with 2%nat.
  assert (length out1 <= length (out1 ++ b))%nat by (rewrite length_app; lia).
  destruct (length out1 <? size)%nat eqn:E1; breflect; [|split_and!; [done|lia|eauto]].
  destruct (Hin out1 E1) as (H1 & H2 & H3).
  destruct (decide (length (out1 ++ b) + 2 < size)%nat) as [Hf|Hf].
  - rewrite H2 by done. rewrite features_snprintf_spec by lia. rewrite length_app.
    change (length ($"}" ++ [NEWLINE])) with 2%nat.
    destruct (_ <? size)%nat eqn:E2; breflect; [|lia].
    simpl. rewrite length_app. simpl. split_and!; [lia|done|lia].
  - destruct (inner out1) as [out2 r]. simpl in *.
    destruct H3 as [[err ->]|H3]; [lia| |].
    + split_and!; [done|lia|eauto].
    + destruct r as [err|]; [split_and!; [done|lia|eauto]|].
      rewrite features_snprintf_spec by done. rewrite length_app. simpl.
      destruct (_ <? size)%nat eqn:E2; breflect; [lia|]. simpl. split_and!; [done|lia|eauto].
Qed.

Lemma load_body_ok size contents ks :
  Forall (fun k => k <> None) ks -> body_ok size contents (load_body size contents ks).
Proof.
  intros Hks out Ho. unfold load_body. rewrite length_app.
  destruct (size - length out =? 0)%nat eqn:E; breflect; [lia|].
  destruct (decide (2 <= size - length out)%nat) as [Hs|Hs].
  - rewrite load_features_file_spec by done.
    destruct (length contents + 2 <=? size - length out)%nat eqn:E2; breflect; simpl;
      rewrite ?length_app; split_and!; try lia; try done; eauto.
  - assert (Hl : load_features_file contents ks (size - length out) = inl []).
    { unfold load_features_file. replace (size - length out - 1)%nat with 0%nat by lia.
      cbn [load_loop]. unfold read_len.
      destruct ks as [|[k|] ks]; [| |by inversion Hks]; simpl hd; cbv iota beta;
        rewrite Nat.min_0_l, Nat.min_0_r; done. }
    rewrite Hl. simpl. rewrite app_nil_r. split_and!; [done|lia|]. right. lia.
Qed.

Lemma features_dir_cb_appends size e :
  readable e -> appends size (flatten e) (features_dir_cb size e).
Proof.
  induction e as [n c ks|n es IH|n c ks] using dirent_tree_ind; intros Hr; rewrite flatten_unfold;
    unfold hidden; cbn [d_name]; intros out Ho; cbn [features_dir_cb d_name];
    (destruct (Ascii.eqb (deref n) "."%char || (length n =? 0)%nat);
      [rewrite app_nil_r; split_and!; [done|done|lia]|]).
  - exact (visit_entry_appends size n c _ (load_body_ok size c ks Hr) out Ho).
  - rewrite readable_dir in Hr.
    assert (Happ : appends size (concat (map flatten es))
      (fun out => for_each (features_dir_cb size) es out None)).
    { apply for_each_appends. rewrite Forall_forall in *. eauto. }
    assert (Hb : body_ok size (concat (map flatten es))
      (fun out => for_each (features_dir_cb size) es out None)).
    { intros o Ho'. destruct (Happ o Ho') as (H1 & H2 & H3).
      split_and!; [done|intros; apply H2; lia|intros Hs].
      destruct (decide (size <= length (o ++ concat (map flatten es)))%nat) as [Hd|Hd]; [by left; apply H3|].
      right. rewrite H2 by lia. done. }
    pose proof (visit_entry_appends size n _ _ Hb out Ho) as H. unfold visit_entry in H.
    destruct (features_snprintf size out (n ++ $" {")) as [o|]; [|exact H].
    by rewrite for_each_fix.
  - assert (Hb : body_ok size [] (fun out => (out, None))).
    { intros o Ho'. rewrite app_nil_r. simpl. split_and!; auto. }
    exact (visit_entry_appends size n [] _ Hb out Ho).
Qed.

(** C28: Flattening a readable feature directory gives exactly the text of its
    visible entries, nested with braces, when that text and its terminator fit
    the buffer, and fails otherwise: nothing is ever truncated silently. *)
Theorem load_features_dir_correct entries size :
  (0 < size)%nat -> Forall readable entries ->
  ((length (concat (map flatten entries)) < size)%nat ->
     load_features_dir entries size = inl (concat (map flatten entries))) /\
  ((size <= length (concat (map flatten entries)))%nat ->
     exists err, load_features_dir entries size = inr err).
Proof.
  intros Hs Hr. unfold load_features_dir.
  assert (Happ : appends size (concat (map flatten entries))
    (fun out => for_each (features_dir_cb size) entries out None)).
  { apply for_each_appends. apply Forall_forall. intros e He.
    apply features_dir_cb_appends. rewrite Forall_forall in Hr. by apply Hr. }
  destruct (Happ [] Hs) as (_ & H2 & H3). simpl in H2, H3. split.
  - intros Hf. by rewrite H2.
  - intros Hf. destruct (H3 Hf) as [err Herr].
    destruct (for_each _ entries [] None) as [out r]. simpl in Herr. subst r. eauto.
Qed.

Lemma load_features_dir_correct_witness :
  load_features_dir [DDir $"caps" [DFile $"mask" $"chown kill" []; DOther $".x" [] []]] 64 =
    inl ($"caps {mask {chown kill}" ++ [NEWLINE] ++ $"}" ++ [NEWLINE]).
Proof.
  apply (load_features_dir_correct [DDir $"caps" [DFile $"mask" $"chown kill" []; DOther $".x" [] []]] 64).
  - lia.
  - repeat constructor.
  - vm_compute. lia.
Defined.

(** ** The walk refines a lookup in the directory tree *)

(** Characters of names: ASCII, no braces, blanks or NUL. *)
Definition name_char (c : ascii) : bool := isascii c && negb (isbrace_space_or_nul c).
(** Characters of file contents: ASCII, no braces or NUL. *)
Definition text_char (c : ascii) : bool := isascii c && negb (isbrace_or_nul c).

Definition good_name (n : cstr) : Prop := n <> [] /\ Forall (fun c => name_char c = true) n.

(** The matcher of [walk_one] on text without braces: the number of characters
    of the component matched so far, reset to zero by a mismatch, and accepted
    only before a blank, a brace or the end.  [inl] is the text after a match. *)
Fixpoint scan (component text : cstr) (next : ascii) (i : nat) : cstr + nat :=
  match text with
  | [] => inr i
  | c :: text =>
      let i := if Ascii.eqb c (at_ component i) then S i else O in
      let i := if (i =? length component)%nat && negb (isbrace_space_or_nul (hd next text))
               then O else i in
      if (i <? length component)%nat then scan component text next i else inl text
  end.

(** The component is found at the end of the name. *)
Definition matches (component name : cstr) : bool :=
  match scan component name " "%char 0 with inl _ => true | inr _ => false end.

Lemma walk_find_text component text rest i :
  Forall (fun c => text_char c = true) text ->
  walk_find (text ++ rest) component 0 i =
    match scan component text (deref rest) i with
    | inl t => Some (t ++ rest)
    | inr i => walk_find rest component 0 i
    end.
Proof.
  intros H. revert i. induction H as [|c text Hc _ IH]; intros i; [done|].
  cbn [app walk_find scan]. apply andb_true_iff in Hc as [Ha Hb].
  unfold isbrace_or_nul, isbrace in Hb. breflect.
  repeat match goal with H : _ = false |- _ => rewrite H end. rewrite Ha. simpl.
  assert (Hd : deref (text ++ rest) = hd (deref rest) text) by (by destruct text).
  rewrite Hd. destruct (_ <? length component)%nat; [apply IH|done].
Qed.

Lemma name_text n : Forall (fun c => name_char c = true) n -> Forall (fun c => text_char c = true) n.
Proof.
  apply List.Forall_impl. intros c. unfold name_char, text_char, isbrace_space_or_nul, isbrace_or_nul.
  destruct (isascii c), (isbrace c), (isspace c), (isnul c); done.
Qed.

Lemma at_not_blank component i c :
  good_name component -> name_char c = false -> c <> NUL -> Ascii.eqb c (at_ component i) = false.
Proof.
  intros [_ Hg] Hc Hnul. apply Ascii.eqb_neq. intros ->. unfold at_ in *.
  destruct (Nat.lt_ge_cases i (length component)) as [Hi|Hi].
  - rewrite List.Forall_forall in Hg. rewrite (Hg (nth i component NUL)) in Hc; [done|].
    by apply nth_In.
  - by rewrite nth_overflow in Hnul by lia.
Qed.

(** Inside a name a match can only be at its end. *)
Lemma scan_name component name next i t :
  component <> [] -> Forall (fun c => name_char c = true) name ->
  scan component name next i = inl t -> t = [].
Proof.
  intros Hne H. revert i. induction H as [|c name Hc Hn IH]; intros i; [done|]. cbn [scan].
  destruct (_ <? length component)%nat eqn:E; [apply IH|]. intros [= <-]. breflect.
  destruct Hn as [|d name Hd _]; [done|exfalso]. simpl in E.
  apply andb_true_iff in Hd as [_ Hd].
  rewrite Hd, andb_true_r in E. revert E. destruct (_ =? length component)%nat eqn:E2; breflect.
  - intros Hl. destruct component; [done|simpl in Hl; lia].
  - intros Hl. destruct (Ascii.eqb c (at_ component i)) eqn:E3; [|lia].
    assert (length component <= i)%nat by lia. unfold at_ in E3. rewrite nth_overflow in E3 by lia.
    breflect. subst c. apply andb_true_iff in Hc as [_ Hc]. done.
Qed.

(** The depth of a tree bounds the brace counter. *)
Fixpoint depth (e : dirent) : Z :=
  match e with
  | DDir _ es => 1 + (fix go es := match es with [] => 0 | e :: es => Z.max (depth e) (go es) end) es
  | _ => 1
  end.

Definition depths (es : list dirent) : Z := fold_right (fun e d => Z.max (depth e) d) 0 es.

Lemma depth_dir n es : depth (DDir n es) = 1 + depths es.
Proof. reflexivity. Qed.

Lemma depth_pos e : 1 <= depth e.
Proof. 
  destruct e as [|n es|]; [done| |done]. rewrite depth_dir.
  assert (0 <= depths es); [|lia]. induction es; simpl; lia.
Qed.

(** Well-formed trees: names and contents are plain text. *)
Fixpoint wf_tree (e : dirent) : Prop :=
  hidden e = true \/
  (good_name (d_name e) /\
   match e with
   | DFile _ c _ => Forall (fun c => text_char c = true) c
   | DDir _ es => (fix all es := match es with [] => True | e :: es => wf_tree e /\ all es end) es
   | DOther _ _ _ => True
   end).

Lemma wf_dir n es :
  wf_tree (DDir n es) <-> hidden (DDir n es) = true \/ (good_name n /\ Forall wf_tree es).
Proof.
  simpl. assert (H : (fix all es := match es with [] => True | e :: es => wf_tree e /\ all es end) es
    <-> Forall wf_tree es); [|by rewrite H].
  induction es as [|e es IH]; simpl; [split; [constructor|done]|]. rewrite Forall_cons. by rewrite IH.
Qed.

(** Inside braces nothing matches: text is skipped. *)
Lemma walk_skip_text component text rest k :
  0 < k -> component <> [] -> Forall (fun c => text_char c = true) text ->
  walk_find (text ++ rest) component k 0 = walk_find rest component k 0.
Proof.
  intros Hk Hne H. induction H as [|c text Hc _ IH]; [done|].
  cbn [app walk_find]. apply andb_true_iff in Hc as [Ha Hb].
  unfold isbrace_or_nul, isbrace in Hb. breflect.
  repeat match goal with H : _ = false |- _ => rewrite H end. rewrite Ha. simpl.
  destruct (k =? 0) eqn:Ek; breflect; [lia|]. simpl.
  destruct component as [|x component]; [done|]. exact IH.
Qed.

Lemma walk_open component rest k i :
  0 <= k < UINT32_MAX -> component <> [] ->
  walk_find ("{"%char :: rest) component k i = walk_find rest component (k + 1) 0.
Proof.
  intros Hk Hne. cbn [walk_find]. simpl.
  destruct (k =? UINT32_MAX) eqn:E; breflect; [lia|].
  destruct (k + 1 =? 0) eqn:E2; breflect; [lia|]. simpl.
  by destruct component.
Qed.

Lemma walk_close component rest k i :
  0 <= k -> good_name component ->
  walk_find ("}"%char :: rest) component (k + 1) i = walk_find rest component k 0.
Proof.
  intros Hk Hg. cbn [walk_find].
  change (negb (isascii "}"%char)) with false. change (islbrace "}"%char) with false.
  change (isrbrace "}"%char) with true. cbv iota zeta.
  destruct (k + 1 =? 0) eqn:E; breflect; [lia|]. replace (k + 1 - 1) with k by lia.
  rewrite (at_not_blank component i) by done. rewrite andb_false_r.
  destruct Hg as [Hne _]. by destruct component.
Qed.

Lemma walk_blank component c rest i :
  isspace c = true -> isascii c = true -> good_name component ->
  walk_find (c :: rest) component 0 i = walk_find rest component 0 0.
Proof.
  intros Hs Ha Hg. cbn [walk_find]. rewrite Ha. simpl.
  assert (Hb : isbrace c = false /\ name_char c = false /\ c <> NUL).
  { revert Hs. assert (H : forall c, negb (isspace c) || (negb (isbrace c) && negb (name_char c) &&
      negb (Ascii.eqb c NUL)) = true) by (apply all_chars_spec; vm_compute; reflexivity).
    specialize (H c). intros Hs. rewrite Hs in H. simpl in H. by breflect. }
  destruct Hb as (Hb & Hn & Hnul). unfold isbrace in Hb. breflect.
  repeat match goal with H : _ = false |- _ => rewrite H end.
  rewrite (at_not_blank component i) by done. simpl.
  destruct Hg as [Hne _]. by destruct component.
Qed.

Lemma walk_blank_inside component c rest k :
  0 < k -> component <> [] -> text_char c = true ->
  walk_find (c :: rest) component k 0 = walk_find rest component k 0.
Proof. intros. apply (walk_skip_text component [c] rest k); auto. Qed.

(** An entry inside braces is skipped whole. *)
Lemma walk_skip_entry component e rest k :
  good_name component -> wf_tree e -> 0 < k -> k + depth e <= UINT32_MAX ->
  walk_find (flatten e ++ rest) component k 0 = walk_find rest component k 0.
Proof.
  intros Hg. pose proof Hg as [Hne _]. revert rest k.
  induction e as [n c ks|n es IH|n c ks] using dirent_tree_ind; intros rest k Hwf Hk Hd;
    rewrite flatten_unfold; (destruct (hidden _) eqn:Eh; [done|]);
    unfold d_name; rewrite <- !app_assoc.
  all: assert (Hname : good_name n) by
    (first [destruct Hwf as [?|[? _]]; [congruence|done]
           |apply wf_dir in Hwf as [?|[? _]]; [congruence|done]]).
  all: rewrite walk_skip_text by (try done; by apply name_text, Hname).
  all: cbn [app list_ascii_of_string]; rewrite walk_blank_inside by done.
  all: assert (Hopen : 0 <= k < UINT32_MAX) by
    (first [pose proof (depth_pos (DDir n es)); lia | simpl in Hd; lia]).
  all: rewrite walk_open by done.
  - destruct Hwf as [?|[_ Hc]]; [congruence|].
    rewrite walk_skip_text by (try done; lia). rewrite walk_close by (try done; lia).
    by rewrite walk_blank_inside.
  - apply wf_dir in Hwf as [?|[_ Hes]]; [congruence|]. rewrite depth_dir in Hd.
    assert (Hbody : forall rest, walk_find (body (DDir n es) ++ rest) component (k + 1) 0 =
      walk_find rest component (k + 1) 0).
    { clear Eh rest. simpl. induction es as [|e es IHes]; intros rest; [done|].
      inversion_clear IH as [|? ? He Hr]. inversion_clear Hes as [|? ? Hwe Hwr].
      simpl in Hd. cbn [map concat]. rewrite <- app_assoc, He by (try done; lia).
      apply IHes; try done. lia. }
    rewrite Hbody, walk_close by (try done; lia). by rewrite walk_blank_inside.
  - cbn [body app]. rewrite walk_close by (try done; lia). by rewrite walk_blank_inside.
Qed.

(** At the top of a level an entry either matches by its name or is passed. *)
Lemma walk_entry component e rest :
  good_name component -> wf_tree e -> depth e < UINT32_MAX ->
  walk_find (flatten e ++ rest) component 0 0 =
    if negb (hidden e) && matches component (d_name e)
    then Some ($" {" ++ body e ++ $"}" ++ [NEWLINE] ++ rest)
    else walk_find rest component 0 0.
Proof.
  intros Hg Hwf Hd. pose proof Hg as [Hne _]. rewrite flatten_unfold.
  destruct (hidden e) eqn:Eh; [done|]. cbn [negb andb].
  assert (Hname : good_name (d_name e)).
  { destruct e as [n c ks|n es|n c ks]; [destruct Hwf as [?|[? _]]|apply wf_dir in Hwf as [?|[? _]]|
      destruct Hwf as [?|[? _]]]; try congruence; done. }
  rewrite <- !app_assoc, walk_find_text by apply name_text, Hname. unfold matches.
  change (deref ($" {" ++ body e ++ $"}" ++ [NEWLINE] ++ rest)) with " "%char.
  destruct (scan component (d_name e) " "%char 0) as [t|i] eqn:Es.
  { apply scan_name in Es as ->; [|done|apply Hname]. done. }
  cbn [app list_ascii_of_string]. rewrite walk_blank by done.
  assert (Hopen : 0 <= 0 < UINT32_MAX) by (unfold UINT32_MAX; lia).
  rewrite walk_open by done. change (0 + 1) with 1.
  assert (Hskip : forall r, walk_find (body e ++ r) component 1 0 = walk_find r component 1 0).
  { intros r. destruct e as [n c ks|n es|n c ks]; cbn [body].
    - destruct Hwf as [?|[_ Hc]]; [congruence|]. by apply walk_skip_text.
    - apply wf_dir in Hwf as [?|[_ Hes]]; [congruence|]. rewrite depth_dir in Hd. clear - Hg Hes Hd.
      induction Hes as [|e es He _ IH]; [done|]. simpl in Hd. cbn [map concat].
      rewrite <- app_assoc, walk_skip_entry by (try done; lia). apply IH. lia.
    - done. }
  rewrite Hskip. change 1 with (0 + 1) at 1. rewrite walk_close by done. by rewrite walk_blank.
Qed.

(** The first visible entry of a level that the component matches. *)
Fixpoint find_entry (component : cstr) (es : list dirent) : option (dirent * list dirent) :=
  match es with
  | [] => None
  | e :: es =>
      if negb (hidden e) && matches component (d_name e) then Some (e, es)
      else find_entry component es
  end.

Definition level (es : list dirent) : cstr := concat (map flatten es).

Lemma walk_level component es rest :
  good_name component -> Forall wf_tree es -> depths es < UINT32_MAX ->
  walk_find (level es ++ rest) component 0 0 =
    match find_entry component es with
    | Some (e, es') => Some ($" {" ++ body e ++ $"}" ++ [NEWLINE] ++ level es' ++ rest)
    | None => walk_find rest component 0 0
    end.
Proof.
  intros Hg Hwf. induction Hwf as [|e es He _ IH]; intros Hd; [done|].
  unfold level in *. simpl in Hd. cbn [map concat find_entry].
  rewrite <- app_assoc, walk_entry by (try done; lia).
  destruct (negb (hidden e) && matches component (d_name e)); [done|]. apply IH. lia.
Qed.

(** The words of a file, found by the same matcher. *)
Definition leaf_matches (component contents : cstr) : bool :=
  match scan component contents "}"%char 0 with inl _ => true | inr _ => false end.

(** ** Lookup in the tree *)

Fixpoint tree_lookup (es : list dirent) (path : list cstr) : bool :=
  match path with
  | [] => true
  | component :: path =>
      match find_entry component es with
      | None => false
      | Some (e, _) =>
          match path with
          | [] => true
          | word :: path' =>
              match e with
              | DDir _ es => tree_lookup es path
              | DFile _ contents _ =>
                  match path' with [] => leaf_matches word contents | _ => false end
              | DOther _ _ _ => false
              end
          end
      end
  end.

Definition walked (o : option cstr) : bool := match o with Some _ => true | None => false end.

Lemma walk_eat_brace text rest :
  Forall (fun c => text_char c = true) text -> isbrace_or_nul (deref rest) = true ->
  walk_eat (text ++ rest) = Some rest.
Proof.
  intros H Hr. induction H as [|c text Hc _ IH]; simpl.
  - destruct rest as [|c rest]; [done|]. simpl in *. by rewrite Hr.
  - unfold text_char in Hc. apply andb_true_iff in Hc as [Ha Hb]. breflect.
    rewrite Hb. by rewrite Ha.
Qed.

Lemma walk_close_top component rest i : walk_find ("}"%char :: rest) component 0 i = None.
Proof. done. Qed.

(** A file is walked as its words; what follows is its closing brace. *)
Lemma walk_all_leaf word path contents rest :
  good_name word -> Forall (fun c => text_char c = true) contents ->
  walked (walk_all ("{"%char :: contents ++ "}"%char :: rest) (word :: path) false) =
    match path with [] => leaf_matches word contents | _ => false end.
Proof.
  intros Hg Hc. pose proof Hg as [Hne _]. cbn [walk_all]. unfold walk_one.
  destruct word as [|w0 word]; [done|]. set (component := w0 :: word) in *. cbn [islbrace].
  change (islbrace "{"%char) with true. cbv iota.
  rewrite walk_find_text by done. unfold leaf_matches. cbn [deref hd].
  assert (Hsub : forall t i, scan component contents "}"%char i = inl t ->
    Forall (fun c => text_char c = true) t).
  { clear - Hc. intros t. induction Hc as [|c contents Hc Hs IH]; intros i; [done|]. cbn [scan].
    destruct (_ <? length component)%nat; [apply IH|]. by intros [= <-]. }
  destruct (scan component contents "}"%char 0) as [t|i] eqn:Es.
  - rewrite walk_eat_brace by (try done; by eapply Hsub). destruct path as [|w path]; [done|].
    cbn [walk_all]. unfold walk_one. by destruct w.
  - rewrite walk_close_top. by destruct path.
Qed.

Lemma walk_all_level path es rest :
  Forall good_name path -> Forall wf_tree es -> depths es < UINT32_MAX -> path <> [] ->
  walked (walk_all ("{"%char :: level es ++ "}"%char :: rest) path false) = tree_lookup es path /\
  walked (walk_all (level es) path true) = tree_lookup es path.
Proof.
  intros Hp. revert es rest. induction Hp as [|component path Hg Hp IH]; intros es rest Hwf Hd Hne; [done|].
  pose proof Hg as [Hcne _].
  (* what happens after the first component is found *)
  assert (Hstep : forall e es' r, find_entry component es = Some (e, es') ->
    walked (match walk_eat ($" {" ++ body e ++ $"}" ++ [NEWLINE] ++ r) with
            | Some str => walk_all str path false | None => None end) =
    match path with
    | [] => true
    | word :: path' =>
        match e with
        | DDir _ es => tree_lookup es path
        | DFile _ contents _ => match path' with [] => leaf_matches word contents | _ => false end
        | DOther _ _ _ => false
        end
    end).
  { intros e es' r Hf. change (walk_eat ($" {" ++ body e ++ $"}" ++ [NEWLINE] ++ r))
      with (Some ("{"%char :: body e ++ "}"%char :: NEWLINE :: r)). cbv iota beta.
    destruct path as [|word path']; [done|].
    assert (He : wf_tree e /\ hidden e = false /\ depth e < UINT32_MAX).
    { clear - Hf Hwf Hd. induction Hwf as [|x es Hx Hes IHe]; [done|]. simpl in Hf, Hd.
      destruct (negb (hidden x) && matches component (d_name x)) eqn:E.
      - injection Hf as -> _. breflect. split_and!; [done|done|lia].
      - apply IHe; [lia|done]. }
    destruct He as (Hwe & Hh & Hde). inversion_clear Hp as [|? ? Hw Hp'].
    destruct e as [n c ks|n es0|n c ks]; cbn [body].
    - destruct Hwe as [?|[_ Hc]]; [congruence|]. by apply walk_all_leaf.
    - apply wf_dir in Hwe as [?|[_ Hes]]; [congruence|]. rewrite depth_dir in Hde.
      apply IH; try done. lia.
    - rewrite (walk_all_leaf word path' []) by (try done; constructor). by destruct path'. }
  cbn [walk_all tree_lookup]. unfold walk_one. destruct component as [|c0 component']; [done|].
  set (component := c0 :: component') in *. change (islbrace "{"%char) with true. cbv iota.
  split.
  - rewrite walk_level by done. destruct (find_entry component es) as [[e es']|] eqn:Ef.
    + rewrite (Hstep e es' _ eq_refl). by destruct path, e.
    + by rewrite walk_close_top.
  - rewrite <- (app_nil_r (level es)), walk_level by done.
    destruct (find_entry component es) as [[e es']|] eqn:Ef; [|done].
    rewrite (Hstep e es' _ eq_refl). by destruct path, e.
Qed.

(** ** The queried path *)

Definition good_component (c : cstr) : Prop :=
  good_name c /\ Forall (fun x => Ascii.eqb x "/"%char = false) c.

(** The components joined by slashes, as callers write them. *)
Fixpoint join (path : list cstr) : cstr :=
  match path with
  | [] => []
  | [c] => c
  | c :: path => c ++ "/"%char :: join path
  end.

Lemma strchrnul_slash_spec tok rest :
  Forall (fun x => Ascii.eqb x "/"%char = false) tok -> rest = [] \/ deref rest = "/"%char ->
  strchrnul_slash (tok ++ rest) = (tok, rest).
Proof.
  intros H Hr. induction H as [|c tok Hc _ IH]; simpl.
  - destruct rest as [|c rest]; [done|]. destruct Hr as [|Hr]; [done|]. simpl in Hr. by subst c.
  - by rewrite Hc, IH.
Qed.

Lemma tokenize_join path fuel room :
  Forall good_component path -> (length path <= room)%nat -> (length (join path) < fuel)%nat ->
  tokenize_loop fuel (join path) room = path.
Proof.
  intros Hp. revert fuel room. induction Hp as [|c path [[Hne Hn] Hs] Hp IH]; intros fuel room Hr Hf.
  - by destruct fuel.
  - destruct fuel as [|fuel]; [lia|]. simpl in Hr.
    assert (Hhd : exists x c', c = x :: c' /\ isnul x = false).
    { destruct c as [|x c]; [done|]. exists x, c. split; [done|]. inversion_clear Hn as [|? ? Hx _].
      unfold name_char, isbrace_space_or_nul in Hx. by breflect. }
    destruct Hhd as (x & c' & -> & Hx). set (c := x :: c') in *.
    destruct path as [|d path].
    + cbn [join tokenize_loop]. change (deref c) with x. rewrite Hx.
      destruct (room =? 0)%nat eqn:E; breflect; [lia|]. cbn [orb].
      rewrite <- (app_nil_r c) at 1. rewrite strchrnul_slash_spec by auto. done.
    + change (join (c :: d :: path)) with (c ++ "/"%char :: join (d :: path)) in *.
      cbn [tokenize_loop]. change (deref (c ++ "/"%char :: join (d :: path))) with x. rewrite Hx.
      destruct (room =? 0)%nat eqn:E; breflect; [lia|]. cbn [orb].
      rewrite strchrnul_slash_spec by auto. unfold c at 1 2. cbn [length app].
      change (length (match c with [] => [] | _ => [c] end)) with 1%nat.
      rewrite length_app in Hf. cbn [length] in Hf, Hr. rewrite IH; [done|cbn [length]; lia|lia].
Qed.



(** *** What the matcher accepts *)

Lemma scan_self component done_ todo :
  component = done_ ++ todo -> todo <> [] -> Forall (fun c => name_char c = true) component ->
  scan component todo " "%char (length done_) = inl [].
Proof.
  intros -> Hne Hn. revert done_ Hn. induction todo as [|c todo IH]; intros done_ Hn; [done|].
  cbn [scan]. unfold at_. rewrite app_nth2, Nat.sub_diag by lia. cbn [nth].
  rewrite Ascii.eqb_refl. rewrite length_app. cbn [length].
  destruct todo as [|d todo].
  - replace (S (length done_) =? length done_ + 1)%nat with true by (symmetry; apply Nat.eqb_eq; lia).
    cbn [hd length]. change (negb (isbrace_space_or_nul " "%char)) with false. rewrite andb_false_r.
    destruct (_ <? _)%nat eqn:E; breflect; [lia|done].
  - replace (S (length done_) =? length done_ + S (length (d :: todo)))%nat with false
      by (symmetry; apply Nat.eqb_neq; simpl; lia). cbn [andb].
    destruct (_ <? _)%nat eqn:E; breflect; [|simpl in E; lia].
    specialize (IH ltac:(done) (done_ ++ [c])). rewrite <- app_assoc in IH. cbn [app] in IH.
    rewrite length_app, Nat.add_1_r in IH. by apply IH.
Qed.

Lemma scan_suffix component name next i done_ :
  (i < length component)%nat -> (exists p, done_ = p ++ take i component) ->
  Forall (fun c => name_char c = true) name ->
  scan component name next i = inl [] -> exists p, done_ ++ name = p ++ component.
Proof.
  revert i done_. induction name as [|c name IH]; intros i done_ Hi [p ->] Hn; [done|]. cbn [scan].
  inversion_clear Hn as [|? ? Hc Hn'].
  assert (H0 : scan component name next O = inl [] -> exists q, (p ++ take i component) ++ c :: name = q ++ component).
  { intros Hs. change (c :: name) with ([c] ++ name). rewrite app_assoc.
    apply (IH O ((p ++ take i component) ++ [c])); [lia| |done|done].
    exists ((p ++ take i component) ++ [c]). by rewrite take_0, app_nil_r. }
  destruct (Ascii.eqb c (at_ component i)) eqn:E.
  - breflect. assert (Htake : take (S i) component = take i component ++ [c]).
    { apply take_S_r. destruct (nth_lookup_or_length component i NUL) as [Hl|Hl]; [|lia]. by rewrite Hl, E. }
    destruct (_ && _).
    + destruct (0 <? length component)%nat eqn:E3; breflect; [exact H0|lia].
    + destruct (S i <? length component)%nat eqn:E3; breflect.
      * intros Hs. change (c :: name) with ([c] ++ name). rewrite app_assoc.
        apply (IH (S i)); [lia| |done|done]. exists p. by rewrite Htake, app_assoc.
      * intros H. apply (f_equal (fun x => match x with inl y => y | inr _ => [c] end)) in H. subst name.
        exists p. rewrite <- app_assoc, <- Htake, take_ge by lia. done.
  - replace (_ && _) with false by (destruct component; [simpl in Hi; lia|done]).
    destruct (0 <? length component)%nat eqn:E3; breflect; [exact H0|lia].
Qed.

(** The matcher of one component: every name matches itself, and a match is
    always at the end of the name, so the component is a suffix of it. *)
Theorem matches_suffix component name :
  component <> [] -> Forall (fun c => name_char c = true) name ->
  matches name name = negb (bool_decide (name = [])) /\
  (matches component name = true -> exists p, name = p ++ component).
Proof.
  intros Hne Hn. split.
  - destruct name as [|c name]; [done|]. unfold matches.
    pose proof (scan_self (c :: name) [] (c :: name) eq_refl ltac:(done) Hn) as E.
    cbn [length] in E. by rewrite E.
  - unfold matches. destruct (scan component name " "%char 0) as [t|] eqn:E; [|done]. intros _.
    pose proof (scan_name _ _ _ _ _ Hne Hn E) as ->.
    apply (scan_suffix component name " "%char 0 []); [|by exists []|done|done].
    destruct component; [done|simpl; lia].
Qed.

Lemma matches_suffix_witness :
  matches $"caps" $"caps" = true /\ exists p, $"mycaps" = p ++ $"caps".
Proof.
  split.
  - apply (matches_suffix $"a" $"caps"); [discriminate|repeat constructor].
  - apply (matches_suffix $"caps" $"mycaps"); [discriminate|repeat constructor|reflexivity].
Defined.

(** ** Values *)

Lemma value_loop_spec cur :
  value_loop cur = inr ENOENT \/
  exists v rest, cur = v ++ rest /\ value_loop cur = inl v /\
    isbrace_or_nul (deref rest) = true /\ Forall (fun c => isbrace_or_nul c = false /\ isascii c = true) v.
Proof.
  induction cur as [|c cur IH]; cbn [value_loop]; [right; by exists [], []|].
  destruct (isbrace_or_nul c) eqn:E; [right; exists [], (c :: cur); split_and!; [done..|constructor]|].
  destruct (isascii c) eqn:Ea; [|by left]. cbn [negb].
  replace (islbrace c) with false by (symmetry; unfold isbrace_or_nul, isbrace in E; by breflect).
  destruct IH as [->|(v & rest & -> & -> & Hr & Hv)]; [by left|right].
  exists (c :: v), rest. split_and!; [done..|by constructor].
Qed.

(** Looking a value up fails only with [ENOENT]: the error promised for a
    feature that is not a leaf, [EISDIR], is never reported, because the loop
    stops at the left brace before it tests for it.  A value that is returned
    is the text after a left brace up to the next brace or the end. *)
Theorem features_value_errors features str :
  aa_features_value features str <> inr EISDIR /\
  (forall e, aa_features_value features str = inr e -> e = ENOENT) /\
  (forall v, aa_features_value features str = inl v ->
     exists rest, features_lookup features str = Some ("{"%char :: v ++ rest) /\
       isbrace_or_nul (deref rest) = true /\
       Forall (fun c => isbrace_or_nul c = false /\ isascii c = true) v).
Proof.
  unfold aa_features_value. destruct (features_lookup features str) as [[|c cur]|];
    [by split_and!; [|intros e [= <-]|]| |by split_and!; [|intros e [= <-]|]].
  destruct (islbrace c) eqn:E; [|split_and!; [done|by intros e [= <-]|done]].
  unfold islbrace in E. breflect. subst c.
  destruct (value_loop_spec cur) as [->|(v & rest & -> & -> & Hr & Hv)].
  - split_and!; [done|by intros e [= <-]|done].
  - split_and!; [done|done|]. intros v' [= <-]. by exists rest.
Qed.

(** A directory looks like a file whose value is the name of its first entry,
    and a component is found at the end of a longer name. *)
Example features_value_of_directory :
  aa_features_value $"caps {mask {chown}}" $"caps" = inl $"mask ".
Proof. reflexivity. Qed.

(** ** Feature objects *)

(** What every constructor of a feature object establishes and every operation
    keeps: the text fits its buffer with its terminator, the digest is the
    digest of the text, and someone holds a reference. *)
Definition features_ok (f : aa_features) : Prop :=
  cstr_ok (string f) /\ strlen (string f) < STRING_SIZE /\
  hash f = init_features_hash (string f) /\ 1 <= ref_count f <= UINT32_MAX.

Lemma new_features_ok text :
  Z.of_nat (length text) < STRING_SIZE -> features_ok (new_features text).
Proof.
  intros H. unfold new_features. split_and!; simpl; [apply until_nul_ok| |done|lia|unfold UINT32_MAX; lia].
  pose proof (until_nul_length text). unfold strlen. lia.
Qed.

Lemma load_loop_bound fuel rem ks size acc text :
  load_loop fuel rem ks size acc = inl text -> (length text <= length acc + size)%nat.
Proof.
  revert rem ks size acc. induction fuel as [|fuel IH]; intros rem ks size acc; [done|]. cbn [load_loop].
  destruct (hd (Some size) ks) as [k|]; [|done]. pose proof (length_take_le rem (read_len k size rem)) as Hl.
  assert (Hk : (read_len k size rem <= size)%nat) by (unfold read_len; lia).
  assert (Ht : (length (take (read_len k size rem) rem) <= read_len k size rem)%nat)
    by (rewrite length_take; lia).
  destruct (_ =? 0)%nat eqn:E1; breflect.
  - intros [= <-]. rewrite length_app. lia.
  - destruct (_ =? 0)%nat eqn:E2; [done|]. intros H%IH. rewrite length_app in H. lia.
Qed.

Lemma load_features_file_bound contents ks size text :
  load_features_file contents ks size = inl text -> (length text <= size - 1)%nat.
Proof. intros H%load_loop_bound. simpl in H. lia. Qed.

Lemma features_snprintf_bound size out s out' :
  features_snprintf size out s = inl out' -> (length out' < size)%nat.
Proof.
  unfold features_snprintf. destruct (_ <? _)%nat eqn:E1; [done|]. destruct (_ <=? _)%nat eqn:E2; [done|].
  intros [= <-]. breflect. rewrite length_app. lia.
Qed.

(** A buffer that has room for its terminator keeps it. *)
Definition keeps_room (size : nat) (cb : cstr -> cstr * option errno) : Prop :=
  forall out, (length out < size)%nat -> (length (fst (cb out)) < size)%nat.

Lemma for_each_keeps_room size es rc :
  Forall (fun e => keeps_room size (features_dir_cb size e)) es ->
  keeps_room size (fun out => for_each (features_dir_cb size) es out rc).
Proof.
  intros H. revert rc. induction H as [|e es He _ IH]; intros rc out Ho; [done|]. cbn [for_each].
  specialize (He out Ho). destruct (features_dir_cb size e out) as [out' r]. by apply IH.
Qed.

Lemma dir_cb_keeps_room size e : keeps_room size (features_dir_cb size e).
Proof.
  induction e as [n c ks|n es IH|n c ks] using dirent_tree_ind; intros out Ho; cbn [features_dir_cb d_name];
    destruct (_ || _); try done;
    destruct (features_snprintf size out (n ++ $" {")) as [out1|] eqn:E1; try done;
    apply features_snprintf_bound in E1.
  - unfold open_and_load_features_file. destruct (_ =? 0)%nat; [done|].
    destruct (load_features_file c ks (size - length out1)) as [text|] eqn:E2; [|done].
    apply load_features_file_bound in E2.
    destruct (features_snprintf size (out1 ++ text) _) as [out2|] eqn:E3; simpl;
      [by eapply features_snprintf_bound|rewrite length_app; lia].
  - rewrite for_each_fix. pose proof (for_each_keeps_room size es None IH out1 E1) as H. simpl in H.
    destruct (for_each _ es out1 None) as [out2 [r|]]; [done|]. simpl in H.
    destruct (features_snprintf size out2 _) as [out3|] eqn:E3; simpl; [by eapply features_snprintf_bound|done].
  - destruct (features_snprintf size out1 _) as [out2|] eqn:E3; simpl; [by eapply features_snprintf_bound|done].
Qed.

Lemma load_features_dir_bound entries size text :
  (0 < size)%nat -> load_features_dir entries size = inl text -> (length text < size)%nat.
Proof.
  intros Hs. unfold load_features_dir.
  pose proof (for_each_keeps_room size entries None) as H.
  assert (Hall : Forall (fun e => keeps_room size (features_dir_cb size e)) entries).
  { apply Forall_forall. intros e _. apply dir_cb_keeps_room. }
  specialize (H Hall [] Hs). cbv beta in H. destruct (for_each _ entries [] None) as [out [r|]]; [done|].
  intros [= <-]. exact H.
Qed.

Lemma features_ref_ok f :
  features_ok f -> ref_count f < UINT32_MAX ->
  features_ok (aa_features_ref f) /\ aa_features_unref (aa_features_ref f) = Some f.
Proof.
  destruct f as [r h s]. intros (H1 & H2 & H3 & H4) H5. simpl in *. unfold UINT32_MAX in *.
  unfold aa_features_ref, aa_features_unref. cbn [ref_count hash string].
  replace (u32 (r + 1)) with (r + 1) by (unfold u32, wrap; symmetry; apply Z.mod_small; lia).
  replace (r + 1 - 1) with r by lia.
  replace (u32 r) with r by (unfold u32, wrap; symmetry; apply Z.mod_small; lia).
  destruct (r =? 0) eqn:E; breflect; [lia|].
  split; [|done]. split_and!; simpl; try done; unfold UINT32_MAX; lia.
Qed.

Lemma features_unref_ok f :
  features_ok f ->
  (aa_features_unref f = None <-> ref_count f = 1) /\
  (forall f', aa_features_unref f = Some f' -> features_ok f').
Proof.
  destruct f as [r h s]. intros (H1 & H2 & H3 & H4). simpl in *. unfold UINT32_MAX in *.
  unfold aa_features_unref. cbn [ref_count hash string].
  replace (u32 (r - 1)) with (r - 1) by (unfold u32, wrap; symmetry; apply Z.mod_small; lia).
  destruct (r - 1 =? 0) eqn:E; breflect.
  - split; [split; [lia|done]|done].
  - split; [split; [done|lia]|]. intros f' [= <-]. split_and!; simpl; try done; unfold UINT32_MAX; lia.
Qed.

(** C21: Whatever the kernel returns (short reads, failing reads, directories of
    any depth), an object that a constructor returns is well formed: its text
    fits the buffer with its terminator, its digest is the digest of that text
    and it holds exactly one reference.  Taking and dropping references keeps
    it so until the last one is dropped, which frees it. *)
Theorem features_objects_ok :
  (forall path f, aa_features_new path = inl f -> features_ok f /\ ref_count f = 1) /\
  (forall contents ks f, aa_features_new_from_file contents ks = inl f ->
     features_ok f /\ ref_count f = 1) /\
  (forall str size f, 0 <= size -> aa_features_new_from_string str size = inl f ->
     features_ok f /\ ref_count f = 1) /\
  (forall f, features_ok f -> ref_count f < UINT32_MAX ->
     features_ok (aa_features_ref f) /\ aa_features_unref (aa_features_ref f) = Some f) /\
  (forall f, features_ok f ->
     (aa_features_unref f = None <-> ref_count f = 1) /\
     (forall f', aa_features_unref f = Some f' -> features_ok f')).
Proof.
  assert (Hsz : STRING_SIZE = 8192) by reflexivity.
  assert (Hnew : forall text, (length text < Z.to_nat STRING_SIZE)%nat ->
    features_ok (new_features text) /\ ref_count (new_features text) = 1).
  { intros text Ht. split; [|done]. apply new_features_ok. lia. }
  assert (Hopen : forall contents ks text,
    open_and_load_features_file contents ks (Z.to_nat STRING_SIZE) = inl text ->
    (length text < Z.to_nat STRING_SIZE)%nat).
  { intros contents ks text. unfold open_and_load_features_file.
    destruct (_ =? 0)%nat; [done|]. intros H%load_features_file_bound. lia. }
  split_and!.
  - intros [[n c ks|n es|n c ks]|] f; cbn [aa_features_new]; [| | |done].
    + destruct (open_and_load_features_file c ks _) as [text|] eqn:E; [|done]. intros [= <-]. eauto.
    + destruct (load_features_dir es _) as [text|] eqn:E; [|done]. intros [= <-].
      apply load_features_dir_bound in E; [auto|lia].
    + destruct (open_and_load_features_file c ks _) as [text|] eqn:E; [|done]. intros [= <-]. eauto.
  - intros contents ks f. unfold aa_features_new_from_file.
    destruct (load_features_file _ _ _) as [text|] eqn:E; [|done]. intros [= <-].
    apply load_features_file_bound in E. apply Hnew. lia.
  - intros str size f Hs. unfold aa_features_new_from_string. destruct (size >=? STRING_SIZE) eqn:E; [done|].
    intros [= <-]. apply Hnew. rewrite length_take. lia.
  - exact features_ref_ok.
  - exact features_unref_ok.
Qed.

Lemma features_objects_ok_witness :
  features_ok (new_features $"caps {mask}") /\
  aa_features_unref (aa_features_ref (new_features $"caps {mask}")) = Some (new_features $"caps {mask}").
Proof.
  destruct features_objects_ok as (Hnew & _ & _ & Href & _).
  assert (Hok : features_ok (new_features $"caps {mask}")).
  { apply (Hnew (Some (DFile $"f" $"caps {mask}" []))). reflexivity. }
  split; [exact Hok|]. apply Href; [exact Hok|reflexivity].
Defined.

Lemma features_equal_text f1 f2 :
  features_ok f1 -> features_ok f2 ->
  aa_features_is_equal (Some f1) (Some f2) = true <-> string f1 = string f2.
Proof.
  intros (H1 & L1 & _) (H2 & L2 & _).
  unfold aa_features_is_equal. unfold strlen in *. rewrite !Z.min_l by lia.
  replace ((_ =? STRING_SIZE) || (_ =? STRING_SIZE)) with false
    by (symmetry; apply orb_false_iff; split; apply Z.eqb_neq; lia).
  rewrite andb_true_iff, Z.eqb_eq, bool_decide_eq_true, Nat2Z.id. split.
  - intros [E H]. apply Nat2Z.inj in E. by rewrite firstn_all, E, firstn_all in H.
  - intros ->. done.
Qed.

(** Two well-formed objects compare equal exactly when their texts are equal,
    and objects that compare equal have the same identifier. *)
Theorem features_is_equal_iff f1 f2 :
  features_ok f1 -> features_ok f2 ->
  (aa_features_is_equal (Some f1) (Some f2) = true <-> string f1 = string f2) /\
  (aa_features_is_equal (Some f1) (Some f2) = true -> aa_features_id f1 = aa_features_id f2).
Proof.
  intros H1 H2. pose proof (features_equal_text f1 f2 H1 H2) as Hiff.
  split; [exact Hiff|]. intros E%Hiff. destruct H1 as (_ & _ & D1 & _), H2 as (_ & _ & D2 & _).
  unfold aa_features_id. by rewrite D1, D2, E.
Qed.

Lemma features_is_equal_iff_witness :
  aa_features_is_equal (Some (new_features $"a {b}")) (Some (new_features $"a {b}")) = true /\
  aa_features_is_equal (Some (new_features $"a {b}")) (Some (new_features $"a {c}")) <> true.
Proof.
  assert (Hb : features_ok (new_features $"a {b}")) by (apply new_features_ok; reflexivity).
  assert (Hc : features_ok (new_features $"a {c}")) by (apply new_features_ok; reflexivity).
  split.
  - apply (proj1 (features_is_equal_iff _ _ Hb Hb)). reflexivity.
  - intros H. pose proof (proj1 (proj1 (features_is_equal_iff _ _ Hb Hc)) H) as E.
    vm_compute in E. discriminate.
Defined.

Lemma write_loop_spec fuel str ks :
  (length str < fuel)%nat -> Forall (fun k => k <> None) ks -> write_loop fuel str ks = (str, None).
Proof.
  revert str ks. induction fuel as [|fuel IH]; intros str ks Hf Hks; [lia|]. cbn [write_loop].
  assert (Hk : exists k, hd (Some (length str)) ks = Some k).
  { destruct ks as [|[k|] ks]; simpl; eauto. by inversion Hks. }
  destruct Hk as [k ->]. set (n := Nat.min (Nat.max 1 k) (length str)).
  destruct (_ =? 0)%nat eqn:E; breflect.
  - by rewrite take_ge by lia.
  - rewrite IH; [by rewrite take_drop|rewrite length_drop; lia|by apply Forall_tail].
Qed.

(** C29: The cache's [.features] file: an object written out, in however many
    partial writes, and read back, in however many short reads, is the object
    itself, so the check against it succeeds, when its text leaves two bytes of
    the buffer free; a text one byte longer can be held and written but the
    file is refused with [ENOBUFS] for ever. *)
Theorem features_file_roundtrip f wks rks name :
  features_ok f -> Forall (fun k => k <> None) wks -> Forall (fun k => k <> None) rks ->
  let '(contents, werr) := aa_features_write_to_fd f wks in
  werr = None /\
  aa_features_check (Some (DFile name contents rks)) (Some f) =
    if strlen (string f) + 2 <=? STRING_SIZE then None else Some ENOBUFS.
Proof.
  intros Hf Hw Hrd. pose proof Hf as (Hok & Hlen & _). unfold aa_features_write_to_fd.
  rewrite write_loop_spec by (done || lia). split; [done|].
  unfold aa_features_check. cbn [aa_features_new]. unfold open_and_load_features_file.
  change (Z.to_nat STRING_SIZE =? 0)%nat with false. cbv iota.
  rewrite (load_features_file_spec (string f) rks (Z.to_nat STRING_SIZE)) by (done || (unfold STRING_SIZE; lia)).
  unfold strlen in *. destruct (_ <=? _)%nat eqn:E1, (_ <=? _) eqn:E2; breflect; try lia; [|done].
  assert (Heq : aa_features_is_equal (Some (new_features (string f))) (Some f) = true);
    [|by rewrite Heq].
  apply features_equal_text; [by apply new_features_ok|done|by apply until_nul_id].
Qed.

Lemma features_file_roundtrip_witness :
  aa_features_check (Some (DFile $".features" $"a {b}" [Some 2%nat])) (Some (new_features $"a {b}")) = None.
Proof.
  apply (features_file_roundtrip (new_features $"a {b}") [Some 1%nat] [Some 2%nat] $".features");
    [apply new_features_ok; reflexivity|repeat constructor; discriminate..].
Defined.
