(* ===== verification/Private.v ===== *)
(** Shared helpers of libapparmor ([libraries/libapparmor/src/private.c]): the
    file names the tools skip, the header of compressed cache files, and the
    directory walks, the overlay of several directories in particular. *)

From stdpp Require Import sorting.
From S2P Require Import Prelude.

(** ** Compressed cache files *)

Definition AA_ZSTD_MAGICNUMBER : Z := 0xFD2FB528.
Definition COMPR_USER_HDR_VERSION : Z := 1.

(** [sizeof (struct compr_user_header)]: version, level and six bytes of
    padding. *)
Definition sizeof_uh : Z := 8.

(** [le32toh] of four bytes copied from the buffer. *)
Definition le32 (b : list Z) : Z :=
  nth 0 b 0 + nth 1 b 0 * 2 ^ 8 + nth 2 b 0 * 2 ^ 16 + nth 3 b 0 * 2 ^ 24.

Definition _aa_compressed_cache_offset (buf : option (list Z)) (size : Z) : Z :=
  let need := sizeof_uh + 4 in
  match buf with
  | None => 0
  | Some buf =>
      if size <? need then 0
      else if negb (nth 0 buf 0 =? COMPR_USER_HDR_VERSION) then 0
      else if negb (le32 (drop (Z.to_nat sizeof_uh) buf) =? AA_ZSTD_MAGICNUMBER) then 0
      else sizeof_uh
  end.

(** The buffer and the size left, and the number of bytes stripped. *)
Definition _aa_strip_compressed_cache_header (buf : option (list Z)) (size : Z)
  : option (list Z) * Z * Z :=
  let hdr := _aa_compressed_cache_offset buf size in
  if hdr =? 0 then (buf, size, hdr)
  else (option_map (drop (Z.to_nat hdr)) buf, size - hdr, hdr).

(** ** File names that are not profiles *)

Record ignored_suffix_t := { text : cstr; len : Z; silent : bool }.

Definition ignored_suffixes : list ignored_suffix_t :=
  [ {| text := $".dpkg-new"; len := 9; silent := true |};
    {| text := $".dpkg-old"; len := 9; silent := true |};
    {| text := $".dpkg-dist"; len := 10; silent := true |};
    {| text := $".dpkg-bak"; len := 9; silent := true |};
    {| text := $".dpkg-remove"; len := 12; silent := true |};
    {| text := $".pacsave"; len := 8; silent := true |};
    {| text := $".pacnew"; len := 7; silent := true |};
    {| text := $".rpmnew"; len := 7; silent := false |};
    {| text := $".rpmsave"; len := 8; silent := false |};
    {| text := $".orig"; len := 5; silent := false |};
    {| text := $".rej"; len := 4; silent := false |};
    {| text := $"~"; len := 1; silent := false |} ].

(** [found - name + suffix->len == name_len] for the first occurrence. *)
Definition suffix_ignored (name : cstr) (suffix : ignored_suffix_t) : bool :=
  match strstr name (text suffix) with
  | Some found => strlen name - strlen found + len suffix =? strlen name
  | None => false
  end.

Definition _aa_is_blacklisted (name : cstr) : Z :=
  if (strlen name =? 0) || Ascii.eqb (deref name) "."%char || str_eqb name $"README" then 1
  else
    match List.find (suffix_ignored name) ignored_suffixes with
    | Some suffix => if silent suffix then 1 else -1
    | None => 0
    end.

(** ** Walking one directory *)

(** What [fstatat] without following links finds. *)
Inductive stat_t := StatFails | StatLink (target_ok : bool) | StatOther.

Definition is_dot (name : cstr) : bool := str_eqb name $"." || str_eqb name $"..".

#[export] Instance strle_dec : RelDecision (fun p q : cstr => strcmp p q <> Gt).
Proof. intros p q. destruct (strcmp p q); solve [left; done | right; intros H; by apply H]. Defined.

(** [qsort] with [alphasort], in the C locale. *)
Definition sort_names (l : list cstr) : list cstr := merge_sort (fun p q => strcmp p q <> Gt) l.

(** [readdirfd]: a first pass over the directory counts the entries, a second
    copies as many of them; a directory that shrank between the passes is an
    error, entries beyond the count are left out. *)
Definition readdirfd (pass1 pass2 : list cstr) (dircmp : bool) : option (list cstr) :=
  let n := length (List.filter (fun e => negb (is_dot e)) pass1) in
  let dents := take n (List.filter (fun e => negb (is_dot e)) pass2) in
  if (length dents <? n)%nat then None
  else Some (if dircmp then sort_names dents else dents).

Section walks.
Context {S : Type}.
(** The callback on an entry: the client's new state and whether it failed. *)
Context (cb : Z -> cstr -> S -> S * bool).

(** [_aa_dirat_for_each] after the directory was read: a failure is
    remembered, every other entry is still visited. *)
Fixpoint dirat_loop (dirfd : Z) (stat : cstr -> stat_t) (namelist : list cstr) (s : S) (rc : Z)
  : S * Z :=
  match namelist with
  | [] => (s, rc)
  | name :: namelist =>
      let visit :=
        let '(s, failed) := cb dirfd name s in
        dirat_loop dirfd stat namelist s (if failed then -1 else rc) in
      match stat name with
      | StatFails => dirat_loop dirfd stat namelist s (-1)
      | StatLink false => dirat_loop dirfd stat namelist s (-1)
      | StatLink true => visit
      | StatOther => visit
      end
  end.

(** [None] for [dir] is a directory that cannot be opened. *)
Definition _aa_dirat_for_each (dirfd : Z) (dir : option (list cstr * list cstr))
    (stat : cstr -> stat_t) (s : S) : S * Z :=
  match dir with
  | None => (s, -1)
  | Some (pass1, pass2) =>
      match readdirfd pass1 pass2 true with
      | None => (s, -1)
      | Some namelist => dirat_loop dirfd stat namelist s 0
      end
  end.

(** [_aa_dirat_for_each2]: stops at the first failure.  The result is the
    last callback's, and indeterminate ([None]) if there was no entry. *)
Fixpoint dirat_loop2 (cb2 : cstr -> S -> S * Z) (ents : list cstr) (s : S) (rc : option Z)
  : S * option Z :=
  match ents with
  | [] => (s, rc)
  | ent :: ents =>
      let '(s, r) := cb2 ent s in
      if negb (r =? 0) then (s, Some r) else dirat_loop2 cb2 ents s (Some r)
  end.
Definition _aa_dirat_for_each2 (cb2 : cstr -> S -> S * Z) (dir : option (list cstr)) (s : S)
  : S * option Z :=
  match dir with
  | None => (s, Some (-1))
  | Some ents => dirat_loop2 cb2 ents s None
  end.
End walks.

(** ** Overlaying directories *)

(** [struct overlaydir] *)
Record overlaydir := { dirfd : Z; dent : cstr }.

Definition CHUNK : Z := 32.

(** The array and the two counters that [insert] updates through pointers.
    The list is the allocated block, a cell that was never written is [None]. *)
Record overlay_t := { cells : list (option overlaydir); max_size : Z; size : Z }.

(** [reallocarray]: the block keeps its prefix. *)
Definition reallocarray (block : list (option overlaydir)) (n : Z) : list (option overlaydir) :=
  take (Z.to_nat n) block ++ repeat None (Z.to_nat n - length block).

(** A store into the block; outside of it the program faults. *)
Definition store (block : list (option overlaydir)) (i : nat) (v : option overlaydir)
  : option (list (option overlaydir)) :=
  if (i <? length block)%nat then Some (<[i := v]> block) else None.

(** [for (i = *size; i > pos; i--) overlay[i] = overlay[i - 1]], [n] being
    [i - pos]. *)
Fixpoint shift_up (block : list (option overlaydir)) (pos n : nat)
  : option (list (option overlaydir)) :=
  match n with
  | O => Some block
  | S n' =>
      match block !! (pos + n')%nat with
      | None => None
      | Some v =>
          match store block (pos + n)%nat v with
          | None => None
          | Some block => shift_up block pos n'
          end
      end
  end.

(** [insert]; [None] is a fault.  The code compares the pointers [size + 1] and
    [max_size] where it means the values: the outcome depends on where the
    compiler placed the caller's variables, and is the argument [ptr_test]. *)
Definition insert (ptr_test : bool) (o : overlay_t) (pos : nat) (remaining dirfd : Z) (ent : cstr)
  : option overlay_t :=
  let chunk := Z.max remaining CHUNK in
  let overlay := if ptr_test then reallocarray (cells o) (max_size o + chunk) else cells o in
  let size := size o + 1 in
  match shift_up overlay pos (Z.to_nat size - pos) with
  | None => None
  | Some overlay =>
      match store overlay pos (Some {| dirfd := dirfd; dent := ent |}) with
      | None => None
      | Some overlay => Some {| cells := overlay; max_size := max_size o + chunk; size := size |}
      end
  end.

(** The macro [merge]: [y] walks the overlay and [list] is what is left of the
    sorted directory.  Entries the overlay already has are dropped. *)
Fixpoint merge_loop (fuel : nat) (ptr_test : bool) (o : overlay_t) (y : nat) (list : list cstr)
    (dirfd : Z) : option overlay_t :=
  match fuel with
  | O => None
  | S fuel =>
      match list with
      | [] => Some o
      | name :: list' =>
          let n_left := Z.of_nat (length list) in
          if Z.of_nat y <? size o then
            match cells o !! y with
            | Some (Some e) =>
                match strcmp (dent e) name with
                | Lt => merge_loop fuel ptr_test o (S y) list dirfd
                | Eq => merge_loop fuel ptr_test o (S y) list' dirfd
                | Gt =>
                    match insert ptr_test o y n_left dirfd name with
                    | None => None
                    | Some o => merge_loop fuel ptr_test o (S y) list' dirfd
                    end
                end
            | _ => None
            end
          else
            match insert ptr_test o y n_left dirfd name with
            | None => None
            | Some o => merge_loop fuel ptr_test o (S y) list' dirfd
            end
      end
  end.

Definition merge (ptr_test : bool) (o : overlay_t) (list : list cstr) (dirfd : Z)
  : option overlay_t :=
  merge_loop (S (Z.to_nat (size o) + length list)) ptr_test o 0 list dirfd.

(** The directories of [_aa_overlaydirat_for_each], read and merged in turn;
    each is its descriptor and the names its two passes show. *)
Fixpoint overlay_dirs (ptr_test : bool) (dirs : list (Z * (list cstr * list cstr))) (o : overlay_t)
  : option (overlay_t + unit) :=
  match dirs with
  | [] => Some (inl o)
  | (dirfd, (pass1, pass2)) :: dirs =>
      match readdirfd pass1 pass2 true with
      | None => Some (inr tt)
      | Some list =>
          match merge ptr_test o list dirfd with
          | None => None
          | Some o => overlay_dirs ptr_test dirs o
          end
      end
  end.

(** The final loop: once a callback or [fstatat] fails nothing more is
    visited. *)
Fixpoint overlay_visit {S} (cb : Z -> cstr -> S -> S * bool) (stat : Z -> cstr -> bool)
    (overlay : list overlaydir) (s : S) : S * Z :=
  match overlay with
  | [] => (s, 0)
  | e :: overlay =>
      if negb (stat (dirfd e) (dent e)) then (s, -1)
      else
        let '(s, failed) := cb (dirfd e) (dent e) s in
        if failed then (s, -1) else overlay_visit cb stat overlay s
  end.

(** The cells [0 .. size - 1] as they are read; [None] if one was never
    written. *)
Definition overlay_entries (o : overlay_t) : option (list overlaydir) :=
  mapM id (take (Z.to_nat (size o)) (cells o)).

Definition empty_overlay : overlay_t := {| cells := []; max_size := 0; size := 0 |}.

(** [_aa_overlaydirat_for_each]; [None] is a fault. *)
Definition _aa_overlaydirat_for_each {S} (ptr_test : bool) (cb : Z -> cstr -> S -> S * bool)
    (stat : Z -> cstr -> bool) (dirs : list (Z * (list cstr * list cstr))) (s : S)
  : option (S * Z) :=
  match overlay_dirs ptr_test dirs empty_overlay with
  | None => None
  | Some (inr _) => Some (s, -1)
  | Some (inl o) =>
      match overlay_entries o with
      | None => None
      | Some l => Some (overlay_visit cb stat l s)
      end
  end.

Example overlay_ex :
  option_map (fun o => match o with inl o => overlay_entries o | inr _ => None end)
    (overlay_dirs true
      [(3, ([$"b"; $"."; $"a"], [$"b"; $"."; $"a"])); (4, ([$"c"; $"a"; $"aa"], [$"c"; $"a"; $"aa"]))]
      empty_overlay) =
  Some (Some [ {| dirfd := 3; dent := $"a" |}; {| dirfd := 4; dent := $"aa" |};
               {| dirfd := 3; dent := $"b" |}; {| dirfd := 4; dent := $"c" |} ]).
Proof. reflexivity. Qed.

(** *** The array holds the overlay *)

Definition repr (o : overlay_t) (l : list overlaydir) : Prop :=
  size o = Z.of_nat (length l) /\ max_size o = Z.of_nat (length (cells o)) /\
  exists junk, cells o = map Some l ++ junk.

Lemma shift_up_spec (a m c : list (option overlaydir)) z :
  exists w, shift_up (a ++ m ++ z :: c) (length a) (length m) = Some (a ++ w :: m ++ c).
Proof.
  revert z c. induction m as [|v m IH] using rev_ind; intros z c; [by exists z|].
  rewrite length_app, Nat.add_1_r. cbn [shift_up].
  rewrite <- (app_assoc m [v] (z :: c)). cbn [app].
  rewrite lookup_app_r, Nat.add_comm, Nat.add_sub by lia. rewrite list_lookup_middle by done.
  unfold store. rewrite !length_app. cbn [length].
  replace (_ <? _)%nat with true by (symmetry; apply Nat.ltb_lt; lia).
  rewrite insert_app_r_alt by lia. replace (length a + S (length m) - length a)%nat with (S (length m)) by lia.
  rewrite insert_app_r_alt by lia. replace (S (length m) - length m)%nat with 1%nat by lia.
  cbn [list_insert insert]. destruct (IH v (v :: c)) as [w Hw]. exists w.
  change (<[1%nat:=v]> (v :: z :: c)) with (v :: v :: c). rewrite Hw, <- app_assoc. done.
Qed.

Lemma reallocarray_grow block n :
  (length block <= Z.to_nat n)%nat -> reallocarray block n = block ++ repeat None (Z.to_nat n - length block).
Proof. intros H. unfold reallocarray. by rewrite take_ge. Qed.

Lemma insert_spec o pre l remaining fd ent :
  repr o (pre ++ l) ->
  exists o', insert true o (length pre) remaining fd ent = Some o' /\
    repr o' (pre ++ {| dirfd := fd; dent := ent |} :: l).
Proof.
  intros (Hsz & Hmax & junk & Hcells). unfold insert. rewrite Hmax, Hsz.
  set (chunk := Z.max remaining CHUNK). assert (Hc : 32 <= chunk) by (unfold chunk, CHUNK; lia).
  rewrite reallocarray_grow by lia. rewrite Hcells.
  set (pad := repeat None _).
  assert (Hpad : (length pad = Z.to_nat chunk)%nat).
  { unfold pad. rewrite repeat_length, !length_app, length_map. lia. }
  assert (Hjp : exists z c, junk ++ pad = z :: c).
  { destruct (junk ++ pad) as [|z c] eqn:E; [|eauto]. apply (f_equal length) in E.
    rewrite length_app in E. simpl in E. lia. }
  destruct Hjp as (z & c & Hjp). rewrite <- (app_assoc (map Some (pre ++ l))), Hjp, map_app, <- app_assoc.
  destruct (shift_up_spec (map Some pre) (map Some l ++ [z]) (tail c) (hd None c)) as [w2 Hw2].
  rewrite length_app. replace (Z.to_nat (Z.of_nat (length pre + length l) + 1) - length pre)%nat
    with (length (map Some l ++ [z])) by (rewrite length_app, length_map; simpl; lia).
  assert (Hc1 : c = hd None c :: tail c).
  { destruct c; [|done]. apply (f_equal length) in Hjp. rewrite length_app in Hjp. simpl in Hjp. lia. }
  rewrite <- app_assoc in Hw2. cbn [app] in Hw2. rewrite <- Hc1, length_map in Hw2. rewrite Hw2.
  unfold store. rewrite !length_app, length_map. cbn [length].
  replace (_ <? _)%nat with true by (symmetry; apply Nat.ltb_lt; lia).
  eexists. split; [done|]. split_and!; cbn [size max_size cells].
  - rewrite !length_app. simpl. lia.
  - rewrite length_insert, !length_app. cbn [length]. rewrite !length_app, !length_map. simpl.
    apply (f_equal length) in Hjp, Hc1. rewrite length_app in Hjp. simpl in Hjp, Hc1. lia.
  - exists (z :: tail c). rewrite insert_app_r_alt by (rewrite length_map; lia).
    rewrite length_map, Nat.sub_diag. cbn [list_insert insert]. by rewrite map_app, <- !app_assoc.
Qed.

(** *** Reference: merging two sorted lists, the first one winning *)

Fixpoint overlay_merge (fd : Z) (l : list overlaydir) : list cstr -> list overlaydir :=
  fix inner (names : list cstr) : list overlaydir :=
    match l, names with
    | _, [] => l
    | [], n :: ns => {| dirfd := fd; dent := n |} :: inner ns
    | e :: l', n :: ns =>
        match strcmp (dent e) n with
        | Lt => e :: overlay_merge fd l' names
        | Eq => e :: overlay_merge fd l' ns
        | Gt => {| dirfd := fd; dent := n |} :: inner ns
        end
    end.

Lemma repr_lookup o pre e l : repr o (pre ++ e :: l) -> cells o !! length pre = Some (Some e).
Proof.
  intros (_ & _ & junk & ->). rewrite map_app, <- app_assoc.
  rewrite lookup_app_r; rewrite length_map; [by rewrite Nat.sub_diag|lia].
Qed.

Lemma merge_loop_spec fuel o pre l names fd :
  repr o (pre ++ l) -> (length l + length names < fuel)%nat ->
  exists o', merge_loop fuel true o (length pre) names fd = Some o' /\
    repr o' (pre ++ overlay_merge fd l names).
Proof.
  revert o pre l names. induction fuel as [|fuel IH]; intros o pre l names Ho Hf; [lia|].
  destruct names as [|n ns]; cbn [merge_loop]; [exists o; split; [done|by destruct l]|].
  pose proof (proj1 Ho) as Hsz. rewrite length_app in Hsz. rewrite Hsz.
  assert (Hins : exists o', match insert true o (length pre) (Z.of_nat (length (n :: ns))) fd n with
      | None => None | Some o => merge_loop fuel true o (S (length pre)) ns fd end = Some o' /\
      repr o' (pre ++ {| dirfd := fd; dent := n |} :: overlay_merge fd l ns)).
  { destruct (insert_spec o pre l (Z.of_nat (length (n :: ns))) fd n Ho) as (o1 & -> & Ho1).
    specialize (IH o1 (pre ++ [{| dirfd := fd; dent := n |}]) l ns).
    rewrite length_app, Nat.add_1_r, <- !app_assoc in IH. apply IH; [done|simpl in Hf; lia]. }
  assert (Hnext : forall e l' ns', l = e :: l' -> (length ns' <= length (n :: ns))%nat ->
    exists o', merge_loop fuel true o (S (length pre)) ns' fd = Some o' /\
      repr o' (pre ++ e :: overlay_merge fd l' ns')).
  { intros e l' ns' -> Hl. specialize (IH o (pre ++ [e]) l' ns').
    rewrite length_app, Nat.add_1_r, <- !app_assoc in IH. apply IH; [done|simpl in *; lia]. }
  destruct l as [|e l]; cbn [length].
  - replace (_ <? _) with false by (symmetry; apply Z.ltb_ge; lia). exact Hins.
  - replace (_ <? _) with true by (symmetry; apply Z.ltb_lt; lia).
    rewrite (repr_lookup o pre e l Ho). cbn [overlay_merge].
    destruct (strcmp (dent e) n); [apply Hnext; simpl; (done || lia)|by apply Hnext|exact Hins].
Qed.

Lemma merge_spec o l names fd :
  repr o l -> exists o', merge true o names fd = Some o' /\ repr o' (overlay_merge fd l names).
Proof.
  intros Ho. apply (merge_loop_spec _ o [] l names fd Ho). rewrite (proj1 Ho). lia.
Qed.

Lemma overlay_merge_in fd l names x :
  StronglySorted strlt (map dent l) -> StronglySorted strlt names ->
  In x (overlay_merge fd l names) <->
    In x l \/ (dirfd x = fd /\ In (dent x) names /\ ~ In (dent x) (map dent l)).
Proof.
  revert names. induction l as [|e l IHl]; intros names Hl Hn.
  - induction names as [|n ns IH]; cbn [overlay_merge]; [simpl; tauto|].
    inversion_clear Hn as [|? ? Hns Hall]. cbn [In map]. rewrite (IH Hns). destruct x as [xd xn]. simpl.
    split; [intros [[= -> ->]|[[]|(-> & H & _)]]; auto|intros [[]|(-> & [->|H] & _)]; [by left|tauto]].
  - inversion_clear Hl as [|? ? Hl' Hel]. rewrite List.Forall_forall in Hel.
    induction names as [|n ns IH]; cbn [overlay_merge]; [simpl; tauto|].
    inversion Hn as [|? ? Hns Hall]; subst. rewrite List.Forall_forall in Hall.
    destruct (strcmp (dent e) n) eqn:E.
    + apply strcmp_eq in E. subst n. cbn [In map]. rewrite (IHl _ Hl' Hns). split.
      * intros [->|[H|(-> & H & Hnot)]]; auto. right. split_and!; auto. intros [Hx|Hx]; [|done].
        apply (strlt_irrefl (dent e)). rewrite Hx at 2. by apply Hall.
      * intros [[->|H]|(-> & [H|H] & Hnot)]; auto; [|right; right; tauto]. exfalso. apply Hnot. auto.
    + cbn [In map]. rewrite (IHl _ Hl' Hn). cbn [In]. split.
      * intros [->|[H|(-> & H & Hnot)]]; auto. right. split_and!; auto. intros [Hx|Hx]; [|done].
        apply (strlt_irrefl (dent e)). rewrite Hx at 2. destruct H as [<-|H]; [done|].
        transitivity n; [exact E|]. by apply Hall.
      * intros [[->|H]|(-> & H & Hnot)]; auto. right. right. split_and!; auto.
    + apply strlt_gt in E. cbn [In map]. specialize (IH Hns). cbn [In map] in IH. rewrite IH.
      destruct x as [xd xn]. simpl. split.
      * intros [[= -> ->]|[H|(-> & H & Hnot)]]; auto. right. split_and!; auto. intros [Hx|Hx].
        -- subst xn. by apply (strlt_irrefl (dent e)).
        -- apply (strlt_irrefl xn). transitivity (dent e); [done|by apply Hel].
      * intros [H|(-> & [->|H] & Hnot)]; auto.
Qed.

Lemma overlay_merge_hd fd l names m :
  StronglySorted strlt (map dent l) -> StronglySorted strlt names ->
  Forall (strlt m) (map dent l) -> Forall (strlt m) names ->
  Forall (strlt m) (map dent (overlay_merge fd l names)).
Proof.
  intros Hl Hn H1 H2. apply List.Forall_forall. intros d (x & <- & Hx)%in_map_iff.
  apply overlay_merge_in in Hx as [Hx|(_ & Hx & _)]; [| |done..].
  - rewrite List.Forall_forall in H1. apply H1, in_map_iff. by exists x.
  - rewrite List.Forall_forall in H2. by apply H2.
Qed.

Lemma overlay_merge_sorted fd l names :
  StronglySorted strlt (map dent l) -> StronglySorted strlt names ->
  StronglySorted strlt (map dent (overlay_merge fd l names)).
Proof.
  revert names. induction l as [|e l IHl]; intros names Hl Hn.
  - induction Hn as [|n ns Hns IH Hall]; cbn [overlay_merge]; [constructor|].
    cbn [map dent]. constructor; [exact IH|].
    apply (overlay_merge_hd fd [] ns n); auto; constructor.
  - inversion Hl as [|? ? Hl' Hel]; subst.
    induction Hn as [|n ns Hns IH Hall]; cbn [overlay_merge]; [done|].
    assert (Hnn : StronglySorted strlt (n :: ns)) by (constructor; auto).
    destruct (strcmp (dent e) n) eqn:E; cbn [map dent].
    + apply strcmp_eq in E. subst n. constructor; [by apply IHl|]. by apply overlay_merge_hd.
    + constructor; [by apply IHl|]. apply overlay_merge_hd; auto. constructor; [done|].
      eapply List.Forall_impl; [|exact Hall]. intros a Ha. by transitivity n.
    + apply strlt_gt in E. constructor; [exact IH|]. apply (overlay_merge_hd fd (e :: l) ns n); auto.
      constructor; [done|]. eapply List.Forall_impl; [|exact Hel]. intros a Ha. by transitivity (dent e).
Qed.

(** *** Sorting the entries *)

#[export] Instance strle_total : Total (fun p q : cstr => strcmp p q <> Gt).
Proof. intros p q. rewrite (strcmp_antisym p q). destruct (strcmp p q); auto. Qed.

#[export] Instance strle_trans : Transitive (fun p q : cstr => strcmp p q <> Gt).
Proof.
  intros p q r H1 H2 H%strlt_gt. destruct (strcmp p q) eqn:E1; [|clear H1|done].
  - apply strcmp_eq in E1 as ->. by apply H2, strlt_gt.
  - destruct (strcmp q r) eqn:E2; [|clear H2|done].
    + apply strcmp_eq in E2 as ->. apply (strlt_irrefl p). by transitivity r.
    + apply (strlt_irrefl p). transitivity q; [exact E1|]. by transitivity r.
Qed.

Lemma sort_names_spec l :
  NoDup l -> StronglySorted strlt (sort_names l) /\ forall n, In n (sort_names l) <-> In n l.
Proof.
  intros Hnd. pose proof (merge_sort_Permutation (fun p q : cstr => strcmp p q <> Gt) l) as Hp.
  split; [|intros n; split; apply Permutation_in; [done|by symmetry]].
  assert (Hs : StronglySorted (fun p q : cstr => strcmp p q <> Gt) (sort_names l)).
  { apply (StronglySorted_merge_sort (fun p q : cstr => strcmp p q <> Gt)). }
  assert (Hnd' : NoDup (sort_names l)) by (unfold sort_names; by rewrite Hp).
  induction Hs as [|a s Hs IH Ha]; constructor.
  - apply IH. by inversion Hnd'.
  - apply NoDup_cons in Hnd' as [Hnot _]. rewrite List.Forall_forall in Ha. apply List.Forall_forall.
    intros b Hb. specialize (Ha b Hb). unfold strlt. destruct (strcmp a b) eqn:E; [|done|done].
    apply strcmp_eq in E. subst b. exfalso. apply Hnot. by apply list_elem_of_In.
Qed.

(** The names of a directory that does not change between the two passes. *)
Definition entries_of (names : list cstr) : list cstr := List.filter (fun e => negb (is_dot e)) names.

Lemma readdirfd_stable names dircmp :
  readdirfd names names dircmp =
    Some (if dircmp then sort_names (entries_of names) else entries_of names).
Proof.
  unfold readdirfd. fold (entries_of names). rewrite firstn_all, Nat.ltb_irrefl. done.
Qed.

(** The directory an overlaid name comes from: the first that has it. *)
Fixpoint first_dir (dirs : list (Z * list cstr)) (n : cstr) : option Z :=
  match dirs with
  | [] => None
  | (fd, names) :: dirs =>
      if existsb (str_eqb n) (entries_of names) then Some fd else first_dir dirs n
  end.

Definition stable (dir : Z * list cstr) : Z * (list cstr * list cstr) := (fst dir, (snd dir, snd dir)).

Lemma overlay_dirs_spec dirs o l :
  repr o l -> StronglySorted strlt (map dent l) -> Forall (fun dir => NoDup (snd dir)) dirs ->
  exists o' l', overlay_dirs true (map stable dirs) o = Some (inl o') /\ repr o' l' /\
    StronglySorted strlt (map dent l') /\
    forall x, In x l' <-> In x l \/ (~ In (dent x) (map dent l) /\ first_dir dirs (dent x) = Some (dirfd x)).
Proof.
  intros Ho Hs Hd. revert o l Ho Hs.
  induction Hd as [|[fd names] dirs Hnd Hd IH]; intros o l Ho Hs; cbn [map stable overlay_dirs fst snd].
  - exists o, l. split_and!; [done..|]. intros x. simpl. split; [by left|]. intros [H|[_ H]]; done.
  - rewrite readdirfd_stable.
    destruct (sort_names_spec (entries_of names)) as [Hsort Hin];
      [apply NoDup_ListNoDup, List.NoDup_filter, NoDup_ListNoDup, Hnd|].
    destruct (merge_spec o l (sort_names (entries_of names)) fd Ho) as (o1 & -> & Ho1).
    destruct (IH o1 _ Ho1 (overlay_merge_sorted fd l _ Hs Hsort)) as (o2 & l2 & H1 & H2 & H3 & H4).
    exists o2, l2. split_and!; [done..|]. intros x. rewrite H4.
    assert (Hnames : forall n, In n (map dent (overlay_merge fd l (sort_names (entries_of names)))) <->
      In n (map dent l) \/ In n (entries_of names)).
    { intros n. rewrite in_map_iff. setoid_rewrite overlay_merge_in; [|done..]. rewrite <- Hin. split.
      - intros (e & <- & [He|(_ & He & _)]); [left; apply in_map_iff; eauto|by right].
      - destruct (in_dec (fun a b => decide (a = b)) n (map dent l)) as [(e & <- & He)%in_map_iff|Hnot];
          [eauto|]. intros [H|H]; [done|]. exists {| dirfd := fd; dent := n |}. simpl. auto. }
    rewrite overlay_merge_in, Hnames, Hin by done. cbn [first_dir].
    destruct (existsb (str_eqb (dent x)) (entries_of names)) eqn:E.
    + apply existsb_str_eqb in E. split.
      * intros [[H|(<- & H & Hnot)]|[Hnot _]]; [by left|by right|]. exfalso. apply Hnot. by right.
      * intros [H|[Hnot [= H]]]; [by left; left|]. left. right. auto.
    + rewrite <- not_true_iff_false, existsb_str_eqb in E. split; [|tauto].
      intros [[H|(_ & H & _)]|[Hnot H]]; [by left|done|]. right. split; [|done]. intros ?. apply Hnot. by left.
Qed.

Lemma overlay_entries_repr o l : repr o l -> overlay_entries o = Some l.
Proof.
  intros (Hsz & _ & junk & Hc). unfold overlay_entries. rewrite Hsz, Hc, Nat2Z.id.
  rewrite take_app_length' by by rewrite length_map.
  clear. induction l as [|e l IH]; [done|]. simpl. by rewrite IH.
Qed.

Lemma repr_empty : repr empty_overlay [].
Proof. split_and!; [done..|by exists []]. Qed.



(** [insert] tests the addresses of its counters instead of their values.
    Where the compiler lays the variables out so that the test fails, nothing
    is ever allocated and the first entry of the first directory that has one
    is stored outside the array. *)
Theorem overlaydirat_for_each_unallocated {S} (cb : Z -> cstr -> S -> S * bool) stat dirs s :
  Forall (fun dir => NoDup (snd dir)) dirs ->
  (exists dir, In dir dirs /\ entries_of (snd dir) <> []) ->
  _aa_overlaydirat_for_each false cb stat (map stable dirs) s = None.
Proof.
  intros Hd Hex. unfold _aa_overlaydirat_for_each.
  assert (H : overlay_dirs false (map stable dirs) empty_overlay = None); [|by rewrite H].
  induction Hd as [|[fd names] dirs Hnd Hd IH]; [destruct Hex as (? & [] & _)|].
  cbn [map stable overlay_dirs fst snd]. rewrite readdirfd_stable.
  destruct (sort_names (entries_of names)) as [|n ns] eqn:E; [|done].
  cbn [merge merge_loop]. unfold merge. cbn [merge_loop]. apply IH.
  destruct Hex as (dir & [<-|H] & Hne); [|eauto]. exfalso. apply Hne. simpl.
  pose proof (merge_sort_Permutation (fun p q : cstr => strcmp p q <> Gt) (entries_of names)) as Hp.
  unfold sort_names in E. rewrite E in Hp. by apply Permutation_nil in Hp.
Qed.

Lemma overlaydirat_for_each_unallocated_witness :
  _aa_overlaydirat_for_each false (fun fd n s => (s, false)) (fun _ _ => true)
    (map stable [(3, [$"a"])]) tt = None.
Proof.
  apply (overlaydirat_for_each_unallocated _ _ [(3, [$"a"])]).
  - constructor; [|constructor]. apply NoDup_ListNoDup. constructor; [intros []|constructor].
  - exists (3, [$"a"]). split; [left; reflexivity|discriminate].
Defined.

(** An entry whose own or whose target's status can be read. *)
Definition examinable (stat : cstr -> stat_t) (n : cstr) : bool :=
  match stat n with StatOther | StatLink true => true | _ => false end.

(** The callback of the statement below: it records the entry and fails on the
    names of [bad]. *)
Definition record_cb (bad : list cstr) (_ : Z) (n : cstr) (s : list cstr) : list cstr * bool :=
  (s ++ [n], existsb (str_eqb n) bad).

Lemma dirat_loop_spec bad fd stat l s rc :
  (rc = 0 \/ rc = -1) ->
  dirat_loop (record_cb bad) fd stat l s rc =
  (s ++ List.filter (examinable stat) l,
   if forallb (fun n => examinable stat n && negb (existsb (str_eqb n) bad)) l then rc else -1).
Proof.
  revert s rc. induction l as [|n l IH]; intros s rc Hrc; [by simpl; rewrite app_nil_r|].
  cbn [dirat_loop List.filter forallb].
  change (record_cb bad fd n s) with (s ++ [n], existsb (str_eqb n) bad). cbv iota beta.
  change (examinable stat n) with (match stat n with StatOther | StatLink true => true | _ => false end).
  assert (Hv : dirat_loop (record_cb bad) fd stat l (s ++ [n]) (if existsb (str_eqb n) bad then -1 else rc) =
    (s ++ n :: List.filter (examinable stat) l,
     if negb (existsb (str_eqb n) bad) && forallb (fun n => examinable stat n && negb (existsb (str_eqb n) bad)) l
     then rc else -1)).
  { rewrite IH, <- app_assoc by (destruct (existsb _ _); auto).
    by destruct (existsb (str_eqb n) bad), (forallb _ l). }
  assert (Hf : dirat_loop (record_cb bad) fd stat l s (-1) = (s ++ List.filter (examinable stat) l, -1)).
  { rewrite IH by auto. by destruct (forallb _ l). }
  destruct (stat n) as [|[]|]; cbn [andb]; [exact Hf|exact Hv|exact Hf|exact Hv].
Qed.

(** The walk over one directory visits every entry it can examine in byte
    order, whatever fails, and reports failure exactly when something failed:
    the entry or the target of a link could not be examined, or the callback
    failed on it. *)
Theorem dirat_for_each_visits bad fd names stat :
  NoDup names ->
  let '(visited, rc) :=
    _aa_dirat_for_each (record_cb bad) fd (Some (names, names)) stat [] in
  StronglySorted strlt visited /\
  (forall n, In n visited <-> In n (entries_of names) /\ examinable stat n = true) /\
  (rc = 0 <-> forall n, In n (entries_of names) -> examinable stat n = true /\ ~ In n bad) /\
  (rc = 0 \/ rc = -1).
Proof.
  intros Hnd. unfold _aa_dirat_for_each. rewrite readdirfd_stable.
  destruct (sort_names_spec (entries_of names)) as [Hsort Hin];
    [apply NoDup_ListNoDup, List.NoDup_filter, NoDup_ListNoDup, Hnd|].
  set (l := sort_names (entries_of names)) in *.
  rewrite dirat_loop_spec by auto. cbn [app]. split_and!.
  - clear -Hsort. induction Hsort as [|n l Hs IH Hall]; cbn [List.filter]; [constructor|].
    destruct (examinable stat n); [|done]. constructor; [done|]. rewrite List.Forall_forall in *.
    intros m [Hm _]%filter_In. by apply Hall.
  - intros n. rewrite filter_In, Hin. done.
  - assert (Hall : forallb (fun n => examinable stat n && negb (existsb (str_eqb n) bad)) l = true <->
      forall n, In n (entries_of names) -> examinable stat n = true /\ ~ In n bad).
    { rewrite forallb_forall. split; intros H n Hn.
      - specialize (H n (proj2 (Hin n) Hn)). rewrite andb_true_iff, negb_true_iff, <- not_true_iff_false,
          existsb_str_eqb in H. done.
      - rewrite andb_true_iff, negb_true_iff, <- not_true_iff_false, existsb_str_eqb. by apply H, Hin. }
    destruct (forallb _ l); [tauto|]. split; [done|]. intros H%Hall. done.
  - destruct (forallb _ l); auto.
Qed.

Lemma dirat_for_each_visits_witness :
  let '(visited, rc) :=
    _aa_dirat_for_each (record_cb [$"a"]) 3 (Some ([$"b"; $"a"], [$"b"; $"a"])) (fun _ => StatOther) [] in
  rc <> 0.
Proof.
  assert (Hnd : NoDup [$"b"; $"a"])
    by (apply NoDup_ListNoDup; repeat (constructor; [simpl; intuition discriminate|]); constructor).
  pose proof (dirat_for_each_visits [$"a"] 3 [$"b"; $"a"] (fun _ => StatOther) Hnd) as H.
  destruct (_aa_dirat_for_each _ _ _ _ _) as [visited rc]. destruct H as (_ & _ & H & _).
  intros Hrc. apply (proj1 H Hrc $"a"); [right; left; reflexivity|left; reflexivity].
Defined.

(** *** Ignored names *)

Lemma suffix_ignored_spec name suffix :
  len suffix = strlen (text suffix) ->
  suffix_ignored name suffix = true <->
    exists pre, name = pre ++ text suffix /\
      forall k, (k < length pre)%nat -> starts_with (text suffix) (drop k name) = false.
Proof.
  intros Hlen. unfold suffix_ignored, strlen in *. rewrite Hlen. split.
  - destruct (strstr name (text suffix)) as [found|] eqn:E; [|done].
    apply strstr_spec in E as (pre & -> & Hs & Hk). intros H%Z.eqb_eq. rewrite length_app in H.
    apply starts_with_spec in Hs as [r ->]. rewrite length_app in H.
    destruct r as [|c r]; [|simpl in H; lia]. rewrite app_nil_r in *. by exists pre.
  - intros (pre & -> & Hk).
    destruct (strstr (pre ++ text suffix) (text suffix)) as [found|] eqn:E.
    + apply strstr_spec in E as (pre' & Heq & Hs & Hk').
      assert (Hl : length pre' = length pre).
      { destruct (Nat.lt_trichotomy (length pre') (length pre)) as [H|[H|H]]; [exfalso|done|exfalso].
        - specialize (Hk _ H). rewrite Heq, drop_app_length in Hk. congruence.
        - specialize (Hk' _ H). by rewrite drop_app_length, starts_with_refl in Hk'. }
      apply Z.eqb_eq. apply (f_equal length) in Heq. rewrite !length_app in *. lia.
    + rewrite strstr_None in E. specialize (E (length pre)).
      by rewrite drop_app_length, starts_with_refl in E.
Qed.

(** A file is skipped exactly when it has no name, is a dot file or README, or
    some ignored suffix ends its name and occurs nowhere earlier in it: the
    code looks for the first occurrence only.  The result is negative only for
    a suffix that is to be reported. *)
Theorem is_blacklisted_correct name :
  (_aa_is_blacklisted name <> 0 <->
     name = [] \/ deref name = "."%char \/ name = $"README" \/
     exists suffix pre, In suffix ignored_suffixes /\ name = pre ++ text suffix /\
       forall k, (k < length pre)%nat -> starts_with (text suffix) (drop k name) = false) /\
  (_aa_is_blacklisted name = -1 -> exists suffix pre, In suffix ignored_suffixes /\
     silent suffix = false /\ name = pre ++ text suffix).
Proof.
  assert (Hlen : forall suffix, In suffix ignored_suffixes -> len suffix = strlen (text suffix)).
  { intros suffix H. simpl in H. repeat (destruct H as [<-|H]; [done|]). done. }
  assert (Hone : (strlen name =? 0) || Ascii.eqb (deref name) "."%char || str_eqb name $"README" = true <->
    name = [] \/ deref name = "."%char \/ name = $"README").
  { rewrite !orb_true_iff, Z.eqb_eq, Ascii.eqb_eq, str_eqb_eq. unfold strlen.
    assert (Z.of_nat (length name) = 0 <-> name = []) as ->; [|tauto].
    destruct name; simpl; split; (done || lia). }
  unfold _aa_is_blacklisted. destruct (_ || _) eqn:E.
  - split; [|done]. split; [|done]. intros _. destruct Hone as [H _]. destruct (H eq_refl) as [?|[?|?]]; auto.
  - assert (Hno : ~ (name = [] \/ deref name = "."%char \/ name = $"README")) by (by rewrite <- Hone).
    destruct (List.find (suffix_ignored name) ignored_suffixes) as [suffix|] eqn:Ef.
    + apply find_some in Ef as [Hin Hs]. apply suffix_ignored_spec in Hs as (pre & Hp & Hk); [|by apply Hlen].
      split; [split; [|by destruct (silent suffix)]; intros _; right; right; right; by exists suffix, pre|].
      destruct (silent suffix) eqn:Es; [done|]. intros _. by exists suffix, pre.
    + split; [|done]. split; [done|]. intros [H|[H|[H|(suffix & pre & Hin & Hp & Hk)]]]; [tauto..|].
      pose proof (find_none _ _ Ef suffix Hin) as Hn. apply not_true_iff_false in Hn. exfalso. apply Hn.
      apply suffix_ignored_spec; [by apply Hlen|]. by exists pre.
Qed.

Example blacklist_misses_repeated_suffix : _aa_is_blacklisted $"usr.bin.foo.orig.orig" = 0.
Proof. reflexivity. Qed.

(** *** Cache headers *)

(** A compressed cache file: the header and a zstd frame. *)
Definition compressed_file (level : Z) (frame : list Z) : list Z :=
  COMPR_USER_HDR_VERSION :: level :: repeat 0 6 ++ [0x28; 0xB5; 0x2F; 0xFD] ++ frame.

(** Stripping gives back the zstd frame of a compressed cache file, never
    takes more than the buffer has, and leaves every other buffer (shorter than
    a header and a magic number, of another version, without the magic) as it
    is. *)
Theorem strip_compressed_correct :
  (forall level frame,
     let file := compressed_file level frame in
     _aa_strip_compressed_cache_header (Some file) (Z.of_nat (length file)) =
       (Some ([0x28; 0xB5; 0x2F; 0xFD] ++ frame), Z.of_nat (length frame) + 4, 8)) /\
  (forall buf size, 0 <= size ->
     let '(_, size', hdr) := _aa_strip_compressed_cache_header buf size in
     0 <= size' /\ size' + hdr = size) /\
  (forall buf size, Forall (fun b => 0 <= b < 256) buf -> size = Z.of_nat (length buf) ->
     ~ (exists level pad frame, length pad = 6%nat /\
          buf = COMPR_USER_HDR_VERSION :: level :: pad ++ [0x28; 0xB5; 0x2F; 0xFD] ++ frame) ->
     _aa_strip_compressed_cache_header (Some buf) size = (Some buf, size, 0)).
Proof.
  split_and!.
  - intros level frame file. unfold _aa_strip_compressed_cache_header, _aa_compressed_cache_offset.
    destruct (_ <? _) eqn:E; [unfold sizeof_uh in E; breflect; subst file; simpl in E; lia|].
    change (nth 0 file 0 =? COMPR_USER_HDR_VERSION) with true. cbn [negb].
    change (drop (Z.to_nat sizeof_uh) file) with ([0x28; 0xB5; 0x2F; 0xFD] ++ frame).
    change (le32 ([0x28; 0xB5; 0x2F; 0xFD] ++ frame) =? AA_ZSTD_MAGICNUMBER) with true. cbn [negb].
    change (sizeof_uh =? 0) with false. cbn [option_map]. f_equal. f_equal.
    unfold file, sizeof_uh, compressed_file. cbn [length repeat app]. lia.
  - intros buf size Hs. unfold _aa_strip_compressed_cache_header, _aa_compressed_cache_offset, sizeof_uh.
    destruct buf as [buf|]; [|simpl; lia]. destruct (size <? 8 + 4) eqn:E; [simpl; lia|]. breflect.
    destruct (negb _); [simpl; lia|]. destruct (negb _); simpl; lia.
  - intros buf size Hb -> Hno. unfold _aa_strip_compressed_cache_header, _aa_compressed_cache_offset.
    destruct (_ <? _) eqn:E; [done|]. unfold sizeof_uh in E. breflect.
    destruct (nth 0 buf 0 =? COMPR_USER_HDR_VERSION) eqn:Ev; [|done]. cbn [negb].
    destruct (le32 _ =? _) eqn:Em; [|done]. exfalso. apply Hno. breflect.
    do 12 (destruct buf as [|? buf]; [simpl in E; lia|]).
    match type of Em with le32 (drop _ (?b0 :: ?b1 :: ?p1 :: ?p2 :: ?p3 :: ?p4 :: ?p5 :: ?p6 :: _)) = _ =>
      exists b1, [p1; p2; p3; p4; p5; p6], buf end.
    split; [done|]. simpl in Ev, Em. subst. unfold le32, AA_ZSTD_MAGICNUMBER in Em. cbn [nth] in Em.
    repeat (apply Forall_cons in Hb as [? Hb]). cbn [app]. repeat f_equal; lia.
Qed.

Lemma strip_compressed_correct_witness :
  _aa_strip_compressed_cache_header (Some (compressed_file 3 [7])) 13 =
    (Some [0x28; 0xB5; 0x2F; 0xFD; 7], 5, 8) /\
  _aa_strip_compressed_cache_header (Some [5; 1]) 2 = (Some [5; 1], 2, 0).
Proof.
  destruct strip_compressed_correct as (H1 & _ & H3). split; [exact (H1 3 [7])|].
  apply (H3 [5; 1]); [repeat (constructor; [lia|]); constructor|reflexivity|].
  intros (level & pad & frame & _ & H). discriminate.
Defined.
