(* ===== verification/Kernel.v ===== *)
(** The kernel interface of libapparmor ([libraries/libapparmor/src/kernel.c]):
    finding the interface, reading and splitting confinement contexts, changing
    hats and profiles, and querying permissions.  System calls are the
    environment: their results are arguments of the definitions. *)

From S2P Require Import Prelude.

(** ** Finding the interface *)

(** The loop of [aa_find_mountpoint]: an entry of /proc/mounts is its type and
    directory. *)
Fixpoint find_securityfs (mounts : list (cstr * cstr)) (stat : cstr -> bool) : cstr + errno :=
  match mounts with
  | [] => inr ENOENT
  | (mnt_type, mnt_dir) :: mounts =>
      if negb (str_eqb mnt_type $"securityfs") then find_securityfs mounts stat
      else
        let proposed := mnt_dir ++ $"/apparmor" in
        if stat proposed then inl proposed else find_securityfs mounts stat
  end.

(** [proc_mounts] is the table, or the error of opening it. *)
Definition aa_find_mountpoint (proc_mounts : list (cstr * cstr) + errno) (stat : cstr -> bool)
  : cstr + errno :=
  match proc_mounts with
  | inr e => inr e
  | inl mounts => find_securityfs mounts stat
  end.

(** What opening and reading two bytes of a module parameter gives; for a read
    that returns nothing, the value [errno] happens to have. *)
Inductive param_read :=
  | POpenFails (e : errno)
  | PReads (c : ascii)
  | PReadsNothing (stale : option errno).

(** [param_check_base]: a boolean, or the error ([-errno]). *)
Definition param_check_base (p : param_read) : bool + errno :=
  match p with
  | POpenFails e => inr e
  | PReads c => inl (Ascii.eqb c "Y"%char)
  | PReadsNothing (Some e) => inr e
  | PReadsNothing None => inl false
  end.

(** [param_check_enabled] and [param_check_private_enabled]: the result of the
    first check is kept unless it was an error. *)
Definition param_check (first now : param_read) : bool + errno :=
  match param_check_base first with
  | inl b => inl b
  | inr _ => param_check_base now
  end.

Definition is_yes (r : bool + errno) : bool := match r with inl true => true | _ => false end.
Definition is_no (r : bool + errno) : bool := match r with inl false => true | _ => false end.

(** [aa_is_enabled]: enabled, or the value of [errno]. *)
Definition aa_is_enabled (enabled available : bool + errno) (mnt : cstr + errno) : unit + errno :=
  let private := negb (is_yes enabled) in
  if private && negb (is_yes available) then
    match enabled with
    | inl _ => inr ECANCELED
    | inr ENOENT => inr ENOSYS
    | inr e => inr e
    end
  else
    match mnt with
    | inl _ => if private then inr EBUSY else inl tt
    | inr e => inr e
    end.

Inductive attr_base := BaseOld | BaseStacking | BaseUnavailable.

Definition proc_attr_base_old : cstr := $"/proc/%d/attr/%s".

(** The formats [proc_attr_base_*], applied. *)
Definition attr_path (base : attr_base) (pid : Z) (attr : cstr) : cstr :=
  $"/proc/" ++ dec pid ++
  match base with
  | BaseOld => $"/attr/"
  | BaseStacking => $"/attr/apparmor/"
  | BaseUnavailable => $"/attr/apparmor/unavailable/"
  end ++ attr.

(** [proc_attr_base_init_once]: [proc_attr_base] and [proc_stacking_present].
    [dir] is the outcome of [stat] on the new directory; [enabled] and
    [available] are those of the two parameter checks. *)
Definition proc_attr_base_init_once (dir : option errno) (enabled available : bool + errno)
  : option attr_base * Z :=
  match dir with
  | None => (Some BaseStacking, 1)
  | Some err =>
      let '(base, present) :=
        match err with
        | ENOENT => (None, 0)
        | EACCES => (Some BaseStacking, 1)
        | _ => (None, -1)
        end in
      match enabled with
      | inl false =>
          match available with
          | inl true => (Some BaseStacking, present)
          | inl false => (Some BaseUnavailable, present)
          | inr _ => (base, present)
          end
      | inl true => (Some BaseOld, present)
      | inr e => if decide (e = EACCES) then (base, present) else (Some BaseUnavailable, present)
      end
  end.

Definition procattr_base (init : option attr_base * Z) : attr_base :=
  match init with
  | (Some base, _) => base
  | (None, present) => if negb (present =? 0) then BaseStacking else BaseOld
  end.
Definition procattr_path (init : option attr_base * Z) (pid : Z) (attr : cstr) : cstr :=
  attr_path (procattr_base init) pid attr.

(** [procattr_open]: the descriptor and the paths that were tried. *)
Definition procattr_open (init : option attr_base * Z) (enabled : bool + errno)
    (open : cstr -> option Z) (tid : Z) (attr : cstr) : option Z * list cstr :=
  let tmp := procattr_path init tid attr in
  match open tmp with
  | Some fd => (Some fd, [tmp])
  | None =>
      if negb (is_no enabled) && negb (starts_with proc_attr_base_old tmp) then
        let tmp2 := attr_path BaseOld tid attr in (open tmp2, [tmp; tmp2])
      else (None, [tmp])
  end.

(** ** Confinement contexts *)

Definition UNCONFINED : cstr := $"unconfined".

Definition parse_unconfined (con : cstr) (size : nat) : bool :=
  (size =? length UNCONFINED)%nat && starts_with UNCONFINED con.

(** [while (pos > 0 && !(con[pos] == ' ' && con[pos + 1] == '(')) pos--] *)
Fixpoint find_mode (con : cstr) (pos : nat) : nat :=
  match pos with
  | O => O
  | S p =>
      if Ascii.eqb (at_ con pos) " "%char && Ascii.eqb (at_ con (S pos)) "("%char then pos
      else find_mode con p
  end.

(** The part of [splitcon] after the newline was noted. *)
Definition split_mode (con : cstr) (size : nat) : cstr * bool * option nat :=
  if parse_unconfined con size then (con, true, None)
  else if (3 <? size)%nat && Ascii.eqb (at_ con (size - 1)) ")"%char then
    let pos := find_mode con (size - 2) in
    if (0 <? pos)%nat
    then (<[(size - 1)%nat := NUL]> (<[pos := NUL]> con), true, Some (pos + 2)%nat)
    else (con, false, None)
  else (con, false, None).

(** [splitcon]: the buffer as it is left, whether the label (the buffer itself)
    is returned, and the offset of the mode in the buffer. *)
Definition splitcon (con : cstr) (size : nat) (strip_newline : bool) : cstr * bool * option nat :=
  if (size =? 0)%nat then (con, false, None)
  else if strip_newline && Ascii.eqb (at_ con (size - 1)) NEWLINE then
    let '(con, label, mode) := split_mode con (size - 1) in
    (if (label : bool) then <[(size - 1)%nat := NUL]> con else con, label, mode)
  else split_mode con size.

Definition aa_splitcon (con : cstr) : cstr * bool * option nat := splitcon con (length con) true.

(** The strings the caller sees. *)
Definition label_text (r : cstr * bool * option nat) : option cstr :=
  let '(buf, label, _) := r in if (label : bool) then Some (until_nul buf) else None.
Definition mode_text (r : cstr * bool * option nat) : option cstr :=
  let '(buf, _, mode) := r in option_map (fun off => until_nul (drop off buf)) mode.

(** The read loop of [aa_getprocattr_raw]: what was read and the room left. *)
Fixpoint attr_read (fuel : nat) (rem : cstr) (ks : list (option nat)) (len : nat) (acc : cstr)
  : (cstr * nat) + errno :=
  match fuel with
  | O => inr EIO
  | S fuel =>
      match hd (Some len) ks with
      | None => inr EIO
      | Some k =>
          let ret := read_len k len rem in
          if (ret =? 0)%nat then inl (acc, len)
          else attr_read fuel (drop ret rem) (tail ks) (len - ret) (acc ++ take ret rem)
      end
  end.

(** [aa_getprocattr_raw] on an attribute file that was opened: the buffer, the
    mode and the size. *)
Definition aa_getprocattr_raw (contents : cstr) (ks : list (option nat)) (len : nat)
  : (cstr * option nat * nat) + errno :=
  if (len =? 0)%nat then inr EINVAL
  else
    match attr_read (S (length contents)) contents ks len [] with
    | inr e => inr e
    | inl (buf, len) =>
        let size := length buf in
        if (0 <? size)%nat && negb (Ascii.eqb (at_ buf (size - 1)) NUL) then
          let terminated :=
            if negb (Ascii.eqb (at_ buf (size - 1)) NEWLINE) then
              if (len =? 0)%nat then inr ERANGE else inl (buf ++ [NUL], S size)
            else inl (buf, size) in
          match terminated with
          | inr e => inr e
          | inl (buf, size) =>
              match splitcon buf size true with
              | (buf, true, mode) => inl (buf, mode, size)
              | (_, false, _) => inr EINVAL
              end
          end
        else inl (buf, None, size)
    end.

Definition INITIAL_GUESS_SIZE : nat := 128.

(** The loop of [aa_getprocattr]: the buffer doubles while it is too small. *)
Fixpoint getprocattr_loop (fuel : nat) (contents : cstr) (ks : list (option nat)) (size : nat)
  : (cstr * option nat * nat) + errno :=
  match fuel with
  | O => inr ERANGE
  | S fuel =>
      let size := (2 * size)%nat in
      match aa_getprocattr_raw contents ks size with
      | inr e => if decide (e = ERANGE) then getprocattr_loop fuel contents ks size else inr e
      | inl r => inl r
      end
  end.

(** The label, the mode and the size returned. *)
Definition aa_getprocattr (contents : cstr) (ks : list (option nat))
  : (cstr * option cstr * nat) + errno :=
  match getprocattr_loop (S (length contents)) contents ks (INITIAL_GUESS_SIZE / 2) with
  | inr e => inr e
  | inl (buf, mode, size) =>
      inl (until_nul buf, option_map (fun off => until_nul (drop off buf)) mode, size)
  end.

(** ** Attributes of the calling task *)

Inductive lsm_attr := LSM_ATTR_CURRENT | LSM_ATTR_EXEC | LSM_ATTR_PREV | LSM_ATTR_OTHER.

Definition aa_get_lsm_iface_name (op : lsm_attr) : option cstr :=
  match op with
  | LSM_ATTR_CURRENT => Some $"current"
  | LSM_ATTR_EXEC => Some $"exec"
  | LSM_ATTR_PREV => Some $"prev"
  | LSM_ATTR_OTHER => None
  end.

(** [sizeof (struct lsm_ctx)]: four 64-bit fields before the text. *)
Definition sizeof_lsm_ctx : Z := 32.

(** What the system call [lsm_get_self_attr] leaves: its result, the size it
    asks for or used, and the text ([ctx_len] bytes). *)
Record lsm_reply := { result : Z; reply_errno : errno; req_sz : Z; ctx : cstr }.

Definition get_apparmor_attr_raw (r : lsm_reply) : Z :=
  if (result r >=? 1) || ((result r =? -1) && bool_decide (reply_errno r = E2BIG))
  then req_sz r else result r.

(** How [get_self_attr_via_syscall] ends: with a buffer split into label and
    mode, with an error, or with a store through a null [mode]. *)
Inductive self_attr :=
  | SelfOk (buf : cstr) (label : bool) (mode : option nat) (rc : Z)
  | SelfError (e : errno)
  | SelfFault.

Definition self_attr_error (mode_given : bool) (e : errno) : self_attr :=
  if mode_given then SelfError e else SelfFault.

Definition self_attr_check (rc : Z) (r : lsm_reply) (mode_given : bool) : self_attr :=
  if rc >? sizeof_lsm_ctx then
    let size := length (ctx r) in
    let '(buf, label, mode) := splitcon (ctx r ++ [NUL]) size true in
    SelfOk buf label mode (Z.of_nat size + 1)
  else if rc >=? 0 then self_attr_error mode_given EINVAL
  else self_attr_error mode_given (reply_errno r).

(** [lsm n] is the answer to a call with a buffer of [n] bytes; [mode_given]
    says whether the caller passed a pointer for the mode. *)
Definition get_self_attr_via_syscall (lsm : Z -> lsm_reply) (mode_given : bool) : self_attr :=
  let total_size := Z.of_nat INITIAL_GUESS_SIZE - 1 in
  let rc := get_apparmor_attr_raw (lsm total_size) in
  if rc <=? total_size then self_attr_check rc (lsm total_size) mode_given
  else
    let size := get_apparmor_attr_raw (lsm rc) in
    if size >? rc then self_attr_error mode_given ENOSPC
    else self_attr_check size (lsm rc) mode_given.

(** [aa_get_self_attr]; [file] is the attribute file of the task. *)
Definition aa_get_self_attr (syscall : option (Z -> lsm_reply)) (file : lsm_attr -> cstr)
    (ks : list (option nat)) (op : lsm_attr) (mode_given : bool)
  : self_attr + ((cstr * option cstr * nat) + errno) :=
  let via_file :=
    match aa_get_lsm_iface_name op with
    | None => inr (inr EINVAL)
    | Some _ => inr (aa_getprocattr (file op) ks)
    end in
  match syscall with
  | None => via_file
  | Some lsm =>
      match get_self_attr_via_syscall lsm mode_given with
      | SelfError e => if decide (e = ENOSYS \/ e = EOPNOTSUPP) then via_file else inl (SelfError e)
      | r => inl r
      end
  end.

(** [setprocattr]: [written] is what [write] returned. *)
Definition setprocattr (fd written : Z + errno) (buf : cstr) : unit + errno :=
  match fd with
  | inr e => inr e
  | inl _ =>
      match written with
      | inr e => inr e
      | inl n => if n =? strlen buf then inl tt else inr EPROTO
      end
  end.

(** [aa_set_self_attr]: the outcome of the system call, if it is there, and of
    the attribute file. *)
Definition aa_set_self_attr (syscall : option (unit + errno)) (file : unit + errno) (op : lsm_attr)
  : unit + errno :=
  let via_file := match aa_get_lsm_iface_name op with None => inr EINVAL | Some _ => file end in
  match syscall with
  | None => via_file
  | Some (inl tt) => inl tt
  | Some (inr e) => if decide (e = ENOSYS \/ e = EOPNOTSUPP) then via_file else inr e
  end.

(** ** Changing hats and profiles *)

(** The operations below end in [aa_set_self_attr]: they are modelled up to the
    message they hand it, or the error. *)

Definition PATH_MAX : nat := 4096.

(** ["%016lx"] *)
Definition hex16 (x : Z) : cstr :=
  map (fun i => hex_digit (x / 16 ^ (15 - Z.of_nat i) mod 16)) (seq 0 16).

Definition aa_change_hat (subprofile : option cstr) (token : Z) : (lsm_attr * cstr) + errno :=
  if (token =? 0) && match subprofile with None => true | Some _ => false end then inr EINVAL
  else if match subprofile with Some s => (PATH_MAX <? length s)%nat | None => false end
  then inr EPROTO
  else inl (LSM_ATTR_CURRENT,
            $"changehat " ++ hex16 token ++ $"^" ++ match subprofile with Some s => s | None => [] end).

Definition aa_change_profile (profile : option cstr) : (lsm_attr * cstr) + errno :=
  match profile with
  | None => inr EINVAL
  | Some p => inl (LSM_ATTR_CURRENT, $"changeprofile " ++ p)
  end.
Definition aa_change_onexec (profile : option cstr) : (lsm_attr * cstr) + errno :=
  match profile with
  | None => inr EINVAL
  | Some p => inl (LSM_ATTR_EXEC, $"exec " ++ p)
  end.
Definition aa_stack_profile (profile : option cstr) : (lsm_attr * cstr) + errno :=
  match profile with
  | None => inr EINVAL
  | Some p => inl (LSM_ATTR_CURRENT, $"stack " ++ p)
  end.
Definition aa_stack_onexec (profile : option cstr) : (lsm_attr * cstr) + errno :=
  match profile with
  | None => inr EINVAL
  | Some p => inl (LSM_ATTR_EXEC, $"stack " ++ p)
  end.

(** A block of memory that is written in pieces: [memcpy], [strcpy] and stores
    of one byte; a write beyond the block is a fault. *)
Definition mem_write (mem : cstr) (pos : nat) (data : cstr) : option cstr :=
  if (pos + length data <=? length mem)%nat
  then Some (take pos mem ++ data ++ drop (pos + length data) mem) else None.

(** The validation loop of [aa_change_hatv]: [totallen]. *)
Fixpoint hats_len (hats : list cstr) (totallen : nat) : nat + errno :=
  match hats with
  | [] => inl totallen
  | h :: hats => if (PATH_MAX <? length h)%nat then inr EPROTO else hats_len hats (totallen + (length h + 1))
  end.

(** The copy loop: [strcpy] writes the terminator too. *)
Fixpoint copy_hats (mem : cstr) (pos : nat) (hats : list cstr) : option (cstr * nat) :=
  match hats with
  | [] => Some (mem, pos)
  | h :: hats =>
      match mem_write mem pos (h ++ [NUL]) with
      | None => None
      | Some mem => copy_hats mem (pos + length h + 1) hats
      end
  end.

(** [aa_change_hatv]: [garbage] is the contents of the fresh block; [None] is a
    fault. *)
Definition aa_change_hatv (garbage : nat -> cstr) (subprofiles : option (list cstr)) (token : Z)
  : option ((lsm_attr * cstr) + errno) :=
  if (token =? 0) && match subprofiles with None | Some [] => true | Some _ => false end
  then Some (inr EINVAL)
  else
    match (match subprofiles with None => inl O | Some hats => hats_len hats O end) with
    | inr e => Some (inr e)
    | inl totallen =>
        let size := (length ($"changehat") + 18 + totallen + 1)%nat in
        let head := $"changehat" ++ $" " ++ hex16 token ++ $"^" in
        match mem_write (garbage size) 0 (head ++ [NUL]) with
        | None => None
        | Some mem =>
            let pos := length head in
            match subprofiles with
            | None => Some (inl (LSM_ATTR_CURRENT, take (pos + 1) mem))
            | Some hats =>
                match copy_hats mem pos hats with
                | None => None
                | Some (mem, pos) => Some (inl (LSM_ATTR_CURRENT, take pos mem))
                end
            end
        end
    end.

Definition aa_change_hat_vargs (garbage : nat -> cstr) (token : Z) (hats : list cstr)
  : option ((lsm_attr * cstr) + errno) :=
  aa_change_hatv garbage (Some hats) token.

(** ** Contexts of socket peers *)

(** [aa_getpeercon_raw]: the buffer, mode and size or the error, and [*len].
    [getsockopt n] is the answer for a buffer of [n] bytes, with [optlen]. *)
Definition aa_getpeercon_raw (enabled : bool) (getsockopt : nat -> (cstr + errno) * nat) (len : nat)
  : ((cstr * option nat * nat) + errno) * nat :=
  if (len =? 0)%nat then (inr EINVAL, len)
  else if negb enabled then (inr EINVAL, len)
  else
    match getsockopt len with
    | (inr e, optlen) => (inr e, optlen)
    | (inl buf, optlen) =>
        if (optlen =? 0)%nat then (inl (buf, None, O), optlen)
        else
          let unterminated := negb (Ascii.eqb (at_ buf (optlen - 1)) NUL) in
          if unterminated && negb (optlen <? len)%nat then (inr ERANGE, S optlen)
          else
            let '(buf, optlen) :=
              if unterminated then (take optlen buf ++ [NUL], S optlen) else (buf, optlen) in
            match splitcon buf (optlen - 1) false with
            | (buf, true, mode) => (inl (buf, mode, optlen), optlen)
            | (_, false, _) => (inr EINVAL, optlen)
            end
    end.

(** [aa_getpeercon] *)
Fixpoint aa_getpeercon (fuel : nat) (enabled : bool) (getsockopt : nat -> (cstr + errno) * nat)
    (last_size : nat) : (cstr * option cstr * nat) + errno :=
  match fuel with
  | O => inr ERANGE
  | S fuel =>
      match aa_getpeercon_raw enabled getsockopt last_size with
      | (inl (buf, mode, _), size) =>
          inl (until_nul buf, option_map (fun off => until_nul (drop off buf)) mode, size)
      | (inr e, size) =>
          if bool_decide (e = ERANGE) && (last_size <? size)%nat
          then aa_getpeercon fuel enabled getsockopt size else inr e
      end
  end.

(** ** Queries *)

Definition AA_QUERY_CMD_LABEL : cstr := $"label" ++ [NUL].
Definition AA_QUERY_CMD_LABEL_SIZE : nat := length AA_QUERY_CMD_LABEL.
Definition AA_CLASS_FILE : ascii := chr 2.
Definition AA_MAY_LINK : Z := 0x40000.
Definition QUERY_LABEL_REPLY_LEN : nat := 67.

(** The conversions of [sscanf] the reply is read with. *)
Fixpoint skip_space (p : cstr) : cstr :=
  match p with c :: p' => if isspace c then skip_space p' else p | [] => [] end.

Fixpoint scan_lit (lit p : cstr) : option cstr :=
  match lit, p with
  | [], _ => Some p
  | x :: lit, y :: p => if Ascii.eqb x y then scan_lit lit p else None
  | _ :: _, [] => None
  end.

Definition hex_val (c : ascii) : option Z :=
  if isdigit c then Some (code c - 48)
  else if (97 <=? code c) && (code c <=? 102) then Some (code c - 87)
  else if (65 <=? code c) && (code c <=? 70) then Some (code c - 55)
  else None.

Fixpoint scan_digits (width : nat) (p : cstr) (acc : Z) (any : bool) : option (Z * cstr) :=
  match width, p with
  | S width, c :: p' =>
      match hex_val c with
      | Some d => scan_digits width p' (acc * 16 + d) true
      | None => if any then Some (acc, p) else None
      end
  | _, _ => if any then Some (acc, p) else None
  end.

(** ["%8x"]: white space, a sign, the prefix 0x, digits, the last three within
    eight characters. *)
Definition scan_hex (p : cstr) : option (Z * cstr) :=
  let p := skip_space p in
  let '(neg, width, p) :=
    match p with
    | c :: p' =>
        if Ascii.eqb c "-"%char then (true, 7%nat, p')
        else if Ascii.eqb c "+"%char then (false, 7%nat, p')
        else (false, 8%nat, p)
    | [] => (false, 8%nat, p)
    end in
  let '(width, p) :=
    match p with
    | z :: x :: p' =>
        if Ascii.eqb z "0"%char && Ascii.eqb (tolower x) "x"%char then ((width - 2)%nat, p') else (width, p)
    | _ => (width, p)
    end in
  match scan_digits width p 0 false with
  | None => None
  | Some (v, p) => Some (u32 (if (neg : bool) then - v else v), p)
  end.

(** One line of the reply, ["allow 0x%8x\n"]. *)
Definition scan_line (word : cstr) (p : cstr) : option (Z * cstr) :=
  match scan_lit word p with
  | None => None
  | Some p =>
      match scan_lit $"0x" (skip_space p) with
      | None => None
      | Some p =>
          match scan_hex p with
          | None => None
          | Some (v, p) => Some (v, skip_space p)
          end
      end
  end.

Definition scan_reply (buf : cstr) : option (Z * Z * Z * Z) :=
  match scan_line $"allow" buf with
  | None => None
  | Some (allow, buf) =>
      match scan_line $"deny" buf with
      | None => None
      | Some (deny, buf) =>
          match scan_line $"audit" buf with
          | None => None
          | Some (audit, buf) =>
              match scan_line $"quiet" buf with
              | None => None
              | Some (quiet, _) => Some (allow, deny, audit, quiet)
              end
          end
      end
  end.

(** The decision at the end of [query_label]. *)
Definition decide_query (mask allow deny audit quiet : Z) : bool * bool :=
  let allowed := Z.land mask (not32 (Z.land allow (not32 deny))) =? 0 in
  let audit := if allowed then audit else 0xFFFFFFFF in
  let audited := Z.land mask (not32 (Z.land audit (not32 quiet))) =? 0 in
  (allowed, audited).

(** [query_label]: [access] is the outcome of opening the access file (which
    may have no name), [kernel] what the kernel answers to the message written:
    the result of [write] and the bytes [read] returns. *)
Definition query_label (access : option (option errno)) (kernel : cstr -> (Z + errno) * cstr)
    (mask : Z) (query : cstr) (size : nat) : (bool * bool) + errno :=
  if (mask =? 0) || (size <=? AA_QUERY_CMD_LABEL_SIZE)%nat then inr EINVAL
  else
    match access with
    | None => inr ENOMEM
    | Some (Some e) => if decide (e = ENOENT) then inr EPROTONOSUPPORT else inr e
    | Some None =>
        let message := take size (AA_QUERY_CMD_LABEL ++ drop AA_QUERY_CMD_LABEL_SIZE query) in
        match kernel message with
        | (inr e, _) => inr e
        | (inl ret, buf) =>
            if negb (ret =? Z.of_nat size) then inr EPROTO
            else if negb (length buf =? QUERY_LABEL_REPLY_LEN)%nat then inr EPROTO
            else
              match scan_reply buf with
              | None => inr EPROTONOSUPPORT
              | Some (allow, deny, audit, quiet) => inl (decide_query mask allow deny audit quiet)
              end
        end
    end.

(** A sequence of writes into a fresh block. *)
Fixpoint mem_writes (mem : cstr) (ws : list (nat * cstr)) : option cstr :=
  match ws with
  | [] => Some mem
  | (pos, data) :: ws =>
      match mem_write mem pos data with
      | None => None
      | Some mem => mem_writes mem ws
      end
  end.

(** [aa_query_file_path_len] up to the call of [aa_query_label]: the block and
    the size handed on; [None] is a write outside the block. *)
Definition aa_query_file_path_len (garbage : nat -> cstr) (label path : cstr) : option (cstr * nat) :=
  let size := (AA_QUERY_CMD_LABEL_SIZE + length label + 1 + length path)%nat in
  match mem_writes (garbage (size + 1)%nat)
          [ (AA_QUERY_CMD_LABEL_SIZE, label);
            ((AA_QUERY_CMD_LABEL_SIZE + length label)%nat, [NUL]);
            ((AA_QUERY_CMD_LABEL_SIZE + length label + 1)%nat, [AA_CLASS_FILE]);
            ((AA_QUERY_CMD_LABEL_SIZE + length label + 2)%nat, path) ] with
  | None => None
  | Some query => Some (query, size)
  end.

(** [aa_query_link_path_len] likewise. *)
Definition aa_query_link_path_len (garbage : nat -> cstr) (label target link : cstr)
  : option (cstr * nat) :=
  let size := (AA_QUERY_CMD_LABEL_SIZE + length label + 1 + length target + 1 + length link)%nat in
  let pos := (AA_QUERY_CMD_LABEL_SIZE + length label)%nat in
  let pos1 := S pos in
  let pos2 := (pos1 + (1 + length link))%nat in
  match mem_writes (garbage size)
          [ (AA_QUERY_CMD_LABEL_SIZE, label); (pos, [NUL]); (pos1, [AA_CLASS_FILE]);
            ((pos1 + 1)%nat, link); (pos2, [NUL]); ((pos2 + 1)%nat, target) ] with
  | None => None
  | Some query => Some (query, size)
  end.

(** ** Lists of overlay directories *)

(** [alloc_substring]: the vector with the new substring. *)
Definition alloc_substring (v : list cstr) (s : cstr) (max_size : nat) : list cstr + errno :=
  if negb (max_size =? 0)%nat && (max_size <=? length v)%nat then inr E2BIG else inl (v ++ [s]).

(** The loop of [aa_split_overlay_str]: [p] is the rest of the string and [tok]
    the characters between [s] and [p].  [None] is a loop that has not ended. *)
Fixpoint split_loop (fuel : nat) (p tok : cstr) (v : list cstr) (max_size : nat)
  : option (list cstr + errno) :=
  match fuel with
  | O => None
  | S fuel =>
      match p with
      | [] =>
          match tok with
          | [] => Some (inl v)
          | _ => Some (alloc_substring v tok max_size)
          end
      | c :: p' =>
          if Ascii.eqb c "\"%char then
            match p' with
            | [] => split_loop fuel p tok v max_size
            | _ => split_loop fuel p' (tok ++ [c]) v max_size
            end
          else if Ascii.eqb c ","%char || Ascii.eqb c ":"%char then
            match tok with
            | [] => split_loop fuel p' [] v max_size
            | _ =>
                match alloc_substring v tok max_size with
                | inr e => Some (inr e)
                | inl v => split_loop fuel p' [] v max_size
                end
            end
          else split_loop fuel p' (tok ++ [c]) v max_size
      end
  end.

Definition aa_split_overlay_str (fuel : nat) (str : cstr) (max_size : nat)
  : option (list cstr + errno) :=
  split_loop fuel str [] [] max_size.

Example split_ex : aa_split_overlay_str 20 $"a:b,,c" 0 = Some (inl [$"a"; $"b"; $"c"]).
Proof. reflexivity. Qed.
Example splitcon_ex :
  let r := aa_splitcon ($"a (b) (enforce)" ++ [NEWLINE]) in
  label_text r = Some $"a (b)" /\ mode_text r = Some $"enforce".
Proof. split; reflexivity. Qed.

(** ** Splitting contexts *)

Lemma insert_middle {A} (a b : list A) x y : <[length a := x]> (a ++ y :: b) = a ++ x :: b.
Proof. rewrite insert_app_r_alt by lia. by rewrite Nat.sub_diag. Qed.

Lemma at_app_r (a b : cstr) i : (length a <= i)%nat -> at_ (a ++ b) i = at_ b (i - length a).
Proof. intros H. unfold at_. by rewrite app_nth2. Qed.

Lemma at_app_l (a b : cstr) i : (i < length a)%nat -> at_ (a ++ b) i = at_ a i.
Proof. intros H. unfold at_. by rewrite app_nth1. Qed.

Lemma drop_at (con : cstr) i : (i < length con)%nat -> drop i con = at_ con i :: drop (S i) con.
Proof.
  revert i. induction con as [|c con IH]; intros [|i] H; simpl in *; try lia; try done. apply IH. lia.
Qed.

(** Where a mode may start. *)
Definition opens (con : cstr) (i : nat) : bool :=
  Ascii.eqb (at_ con i) " "%char && Ascii.eqb (at_ con (S i)) "("%char.

Lemma starts_open m k : starts_with $" (" (drop k m) = opens m k.
Proof.
  revert k. induction m as [|c m IH]; intros [|k]; try done.
  - change (Ascii.eqb " " c && starts_with $"(" m = opens (c :: m) 0). unfold opens, at_. cbn [nth].
    rewrite (Ascii.eqb_sym " " c). destruct m as [|d m]; [done|].
    change (Ascii.eqb c " " && (Ascii.eqb "(" d && true) = Ascii.eqb c " " && Ascii.eqb d "(").
    by rewrite (Ascii.eqb_sym "(" d), andb_true_r.
  - apply IH.
Qed.

Lemma no_open m : strstr m $" (" = None <-> forall k, opens m k = false.
Proof. rewrite strstr_None. by setoid_rewrite starts_open. Qed.

Lemma find_mode_spec con pos :
  let q := find_mode con pos in
  (q <= pos)%nat /\ (q <> O -> opens con q = true) /\
  forall k, (q < k <= pos)%nat -> opens con k = false.
Proof.
  induction pos as [|p IH]; cbn [find_mode]; [split_and!; [lia|done|lia]|].
  fold (opens con (S p)). destruct (opens con (S p)) eqn:E; [split_and!; [lia|done|lia]|].
  destruct IH as (H1 & H2 & H3). split_and!; [lia|done|].
  intros k Hk. destruct (decide (k = S p)) as [->|]; [done|apply H3; lia].
Qed.

Lemma find_mode_unique con pos q :
  (0 < q <= pos)%nat -> opens con q = true -> (forall k, (q < k <= pos)%nat -> opens con k = false) ->
  find_mode con pos = q.
Proof.
  intros Hq Ho Hk. destruct (find_mode_spec con pos) as (H1 & H2 & H3).
  destruct (Nat.lt_trichotomy (find_mode con pos) q) as [H|[H|H]]; [|done|].
  - rewrite H3 in Ho by lia. done.
  - assert (E : find_mode con pos <> O) by lia. specialize (H2 E). rewrite Hk in H2 by lia. done.
Qed.

Lemma opens_app_r a b i : (length a <= i)%nat -> opens (a ++ b) i = opens b (i - length a).
Proof. intros H. unfold opens. rewrite !at_app_r by lia. by rewrite Nat.sub_succ_l. Qed.

(** A context with a mode, before its newline. *)
Definition context (label mode : cstr) : cstr := label ++ $" (" ++ mode ++ $")".

Lemma context_length label mode : length (context label mode) = (length label + length mode + 3)%nat.
Proof. unfold context. rewrite !length_app. simpl. lia. Qed.

Lemma context_last label mode nl :
  at_ (context label mode ++ nl) (length label + length mode + 2) = ")"%char.
Proof.
  unfold context. rewrite <- !app_assoc, !at_app_r by (simpl; lia).
  replace (_ - _ - _ - _)%nat with O by (simpl; lia). done.
Qed.

Lemma context_find label mode nl :
  label <> [] -> strstr mode $" (" = None ->
  find_mode (context label mode ++ nl) (length label + length mode + 1) = length label.
Proof.
  intros Hl Hm. rewrite no_open in Hm. apply find_mode_unique.
  - destruct label; [done|simpl; lia].
  - unfold context. rewrite <- app_assoc, opens_app_r, Nat.sub_diag by lia. done.
  - intros k Hk. unfold context. rewrite <- !app_assoc, opens_app_r by lia.
    destruct (k - length label)%nat as [|[|j]] eqn:E; [lia|done|].
    change ($" (" ++ mode ++ $")" ++ nl) with (" "%char :: "("%char :: mode ++ $")" ++ nl).
    change (opens (mode ++ $")" ++ nl) j = false).
    destruct (decide (S j < length mode)%nat) as [Hj|Hj].
    + specialize (Hm j). unfold opens in *. by rewrite !at_app_l by lia.
    + assert (Hj' : S j = length mode) by lia. unfold opens.
      rewrite (at_app_r _ _ (S j)) by lia. rewrite Hj', Nat.sub_diag. apply andb_false_r.
Qed.

(** The buffer a context with a mode is split into. *)
Definition split_buffer (label mode nl : cstr) : cstr :=
  label ++ NUL :: "("%char :: mode ++ NUL :: nl.

Lemma parse_unconfined_context label mode nl size :
  size = length (context label mode) -> parse_unconfined (context label mode ++ nl) size = false.
Proof.
  intros ->. unfold parse_unconfined. destruct (_ =? _)%nat eqn:E; [|done]. breflect. cbn [andb].
  apply not_true_iff_false. intros [r Hr]%starts_with_spec.
  apply (f_equal (fun c => at_ c (length label + length mode + 2))) in Hr.
  rewrite context_last, context_length in *. unfold UNCONFINED in Hr, E. simpl in E.
  replace (length label + length mode + 2)%nat with 9%nat in Hr by lia. done.
Qed.

Lemma split_context label mode nl :
  label <> [] -> strstr mode $" (" = None ->
  <[(length label + length mode + 2)%nat := NUL]> (<[length label := NUL]> (context label mode ++ nl)) =
  split_buffer label mode nl.
Proof.
  intros Hl Hm. unfold context, split_buffer. rewrite <- !app_assoc.
  change ($" (" ++ mode ++ $")" ++ nl) with (" "%char :: "("%char :: mode ++ ")"%char :: nl).
  rewrite insert_middle.
  replace (length label + length mode + 2)%nat with (length (label ++ NUL :: "("%char :: mode))
    by (rewrite length_app; simpl; lia).
  replace (label ++ NUL :: "("%char :: mode ++ ")"%char :: nl)
    with ((label ++ NUL :: "("%char :: mode) ++ ")"%char :: nl) by (by rewrite <- app_assoc).
  rewrite insert_middle, <- app_assoc. done.
Qed.

Lemma split_mode_context label mode nl :
  label <> [] -> strstr mode $" (" = None ->
  split_mode (context label mode ++ nl) (length label + length mode + 3) =
    (split_buffer label mode nl, true, Some (length label + 2)%nat).
Proof.
  intros Hl Hm. unfold split_mode. rewrite parse_unconfined_context by by rewrite context_length.
  replace (length label + length mode + 3 - 1)%nat with (length label + length mode + 2)%nat by lia.
  replace (length label + length mode + 3 - 2)%nat with (length label + length mode + 1)%nat by lia.
  rewrite context_last, context_find, split_context by done. destruct label as [|c label]; [done|].
  replace (3 <? _)%nat with true by (symmetry; apply Nat.ltb_lt; simpl; lia). done.
Qed.

Lemma splitcon_newline con size :
  (size =? length con)%nat = true ->
  splitcon (con ++ [NEWLINE]) (S size) true =
    (let '(con', label, mode) := split_mode (con ++ [NEWLINE]) size in
     (if (label : bool) then <[size := NUL]> con' else con', label, mode)).
Proof.
  intros E. breflect. subst size. unfold splitcon. cbn [Nat.eqb andb].
  replace (S (length con) - 1)%nat with (length con) by lia.
  by rewrite at_app_r, Nat.sub_diag by lia.
Qed.

Lemma splitcon_context label mode nl :
  label <> [] -> strstr mode $" (" = None -> nl = [] \/ nl = [NEWLINE] ->
  aa_splitcon (context label mode ++ nl) =
    (split_buffer label mode (match nl with [] => [] | _ => [NUL] end), true, Some (length label + 2)%nat).
Proof.
  intros Hl Hm Hnl. unfold aa_splitcon. rewrite length_app, context_length. destruct Hnl as [->| ->].
  - cbn [length]. rewrite Nat.add_0_r. unfold splitcon.
    destruct (_ =? 0)%nat eqn:E0; breflect; [lia|]. cbn [andb].
    replace (length label + length mode + 3 - 1)%nat with (length label + length mode + 2)%nat by lia.
    rewrite context_last. by apply split_mode_context.
  - cbn [length]. rewrite Nat.add_1_r, splitcon_newline by by rewrite context_length, Nat.eqb_refl.
    rewrite split_mode_context by done. f_equal. f_equal. unfold split_buffer.
    replace (length label + length mode + 3)%nat with (length (label ++ NUL :: "("%char :: mode ++ [NUL]))
      by (rewrite !length_app; simpl; rewrite length_app; simpl; lia).
    replace (label ++ NUL :: "("%char :: mode ++ NUL :: [NEWLINE])
      with ((label ++ NUL :: "("%char :: mode ++ [NUL]) ++ NEWLINE :: [])
      by (rewrite <- app_assoc; simpl; by rewrite <- app_assoc).
    rewrite insert_middle, <- app_assoc. simpl. by rewrite <- app_assoc.
Qed.

Lemma split_buffer_texts label mode nl :
  cstr_ok label -> cstr_ok mode ->
  until_nul (split_buffer label mode nl) = label /\
  until_nul (drop (length label + 2) (split_buffer label mode nl)) = mode.
Proof.
  intros Hl Hm. unfold split_buffer. split; [by apply until_nul_app|].
  rewrite drop_app_ge by lia. replace (length label + 2 - length label)%nat with 2%nat by lia.
  by apply until_nul_app.
Qed.

Lemma splitcon_unconfined nl :
  nl = [] \/ nl = [NEWLINE] ->
  aa_splitcon (UNCONFINED ++ nl) = (UNCONFINED ++ match nl with [] => [] | _ => [NUL] end, true, None).
Proof. by intros [->| ->]. Qed.

(** What [split_mode] accepts. *)
Lemma split_mode_inv con size con' mode :
  (size <= length con)%nat -> split_mode con size = (con', true, mode) ->
  (size = length UNCONFINED /\ take size con = UNCONFINED /\ mode = None /\ con' = con) \/
  exists label m, take size con = context label m /\ label <> [] /\ strstr m $" (" = None /\
    mode = Some (length label + 2)%nat.
Proof.
  intros Hs. unfold split_mode. destruct (parse_unconfined con size) eqn:E.
  - intros [= <- <-]. left. unfold parse_unconfined in E. apply andb_true_iff in E as [E1 [r ->]%starts_with_spec].
    breflect. subst size. by rewrite take_app_length.
  - destruct (_ && _) eqn:E2; [|done]. apply andb_true_iff in E2 as [E2 E3]. breflect.
    set (q := find_mode con (size - 2)). destruct (0 <? q)%nat eqn:E4; [|done]. breflect.
    intros [= _ <-]. right. destruct (find_mode_spec con (size - 2)) as (H1 & H2 & H3).
    fold q in H1, H2, H3. specialize (H2 ltac:(lia)). unfold opens in H2. apply andb_true_iff in H2 as [H2 H2'].
    breflect. assert (Hq : (q + 3 <= size)%nat).
    { destruct (decide (q = size - 2)%nat) as [Hq|]; [|lia]. rewrite Hq in H2'.
      replace (S (size - 2)) with (size - 1)%nat in H2' by lia. rewrite E3 in H2'. done. }
    exists (take q con), (take (size - 3 - q) (drop (q + 2) con)).
    assert (Hlen : length (take q con) = q) by (rewrite length_take; lia). rewrite Hlen.
    split_and!; [|by intros H; rewrite H in Hlen; simpl in Hlen; lia| |done].
    + rewrite <- (take_drop q (take size con)) at 1. rewrite take_take, Nat.min_l by lia. unfold context. f_equal.
      replace (drop q (take size con)) with (take (size - q) (drop q con)) by (by rewrite skipn_firstn_comm).
      rewrite (drop_at con q) by lia. rewrite (drop_at con (S q)) by lia. rewrite H2, H2'.
      destruct (size - q)%nat as [|[|k]] eqn:Ek; [lia..|]. cbn [firstn take]. simpl. f_equal. f_equal.
      replace (q + 2)%nat with (S (S q)) by lia. replace k with (size - 3 - q + 1)%nat by lia.
      rewrite <- (take_drop (size - 3 - q) (drop (S (S q)) con)) at 1.
      rewrite take_app_ge by (rewrite length_take; lia). f_equal.
      rewrite length_take, length_drop, Nat.min_l by lia.
      replace (size - 3 - q + 1 - (size - 3 - q))%nat with 1%nat by lia.
      rewrite drop_drop. replace (S (S q) + (size - 3 - q))%nat with (size - 1)%nat by lia.
      rewrite (drop_at con (size - 1)%nat) by lia. by rewrite E3.
    + apply no_open. intros k. destruct (decide (S k < size - 3 - q)%nat) as [Hk|Hk].
      * specialize (H3 (q + 2 + k)%nat ltac:(lia)). unfold opens, at_ in *.
        rewrite !nth_firstn, !nth_skipn. replace (k <? _)%nat with true by (symmetry; apply Nat.ltb_lt; lia).
        replace (S k <? _)%nat with true by (symmetry; apply Nat.ltb_lt; lia).
        replace (q + 2 + S k)%nat with (S (q + 2 + k)) by lia. done.
      * unfold opens, at_. rewrite (nth_overflow _ NUL (n := S k)) by (rewrite length_take; lia).
        apply andb_false_r.
Qed.

(** C31: Splitting a confinement context: "label (mode)", with or without its
    newline, gives back label and mode, the label being everything before the
    last " ("; "unconfined" is a label of its own; and a context that is split
    is of one of these forms. *)
Theorem splitcon_correct label mode nl con :
  label <> [] -> cstr_ok label -> cstr_ok mode -> strstr mode $" (" = None ->
  nl = [] \/ nl = [NEWLINE] ->
  (let r := aa_splitcon (label ++ $" (" ++ mode ++ $")" ++ nl) in
   label_text r = Some label /\ mode_text r = Some mode) /\
  (let r := aa_splitcon (UNCONFINED ++ nl) in
   label_text r = Some UNCONFINED /\ mode_text r = None) /\
  (label_text (aa_splitcon con) <> None ->
   exists nl', (nl' = [] \/ nl' = [NEWLINE]) /\
     (con = UNCONFINED ++ nl' \/
      exists l m, con = l ++ $" (" ++ m ++ $")" ++ nl' /\ l <> [] /\ strstr m $" (" = None)).
Proof.
  intros Hne Hl Hm Hopen Hnl. split_and!.
  - replace (label ++ $" (" ++ mode ++ $")" ++ nl) with (context label mode ++ nl)
      by (unfold context; by rewrite <- !app_assoc).
    rewrite splitcon_context by done. cbn [label_text mode_text option_map].
    destruct (split_buffer_texts label mode (match nl with [] => [] | _ => [NUL] end) Hl Hm) as [-> ->]. done.
  - rewrite splitcon_unconfined by done. destruct Hnl as [->| ->]; done.
  - unfold aa_splitcon, splitcon. destruct (_ =? 0)%nat eqn:E0; [done|]. breflect. cbn [andb].
    destruct (Ascii.eqb (at_ con (length con - 1)) NEWLINE) eqn:En; breflect.
    + assert (Hcon : con = take (length con - 1) con ++ [NEWLINE]).
      { rewrite <- (take_drop (length con - 1) con) at 1. f_equal.
        rewrite (drop_at con) by lia. rewrite En. rewrite drop_ge by lia. done. }
      destruct (split_mode con (length con - 1)) as [[con' label'] mode'] eqn:E.
      destruct label'; [|done]. intros _. exists [NEWLINE]. split; [by right|].
      apply split_mode_inv in E as [(_ & E & _)|(l & m & E & H1 & H2 & _)]; [| |lia].
      * left. by rewrite Hcon, E.
      * right. exists l, m. split_and!; [|done..]. rewrite Hcon, E. unfold context. by rewrite <- !app_assoc.
    + destruct (split_mode con (length con)) as [[con' label'] mode'] eqn:E.
      destruct label'; [|done]. intros _. exists []. split; [by left|].
      apply split_mode_inv in E as [(_ & E & _)|(l & m & E & H1 & H2 & _)]; [| |lia];
        rewrite firstn_all in E.
      * left. by rewrite app_nil_r.
      * right. exists l, m. split_and!; [|done..]. rewrite E. unfold context. by rewrite app_nil_r.
Qed.

Lemma splitcon_correct_witness :
  label_text (aa_splitcon ($"/usr/bin/foo (enforce)" ++ [NEWLINE])) = Some $"/usr/bin/foo" /\
  label_text (aa_splitcon $"foo") = None.
Proof.
  split.
  - apply (splitcon_correct $"/usr/bin/foo" $"enforce" [NEWLINE] []);
      [discriminate|repeat constructor; discriminate..|reflexivity|right; reflexivity].
  - reflexivity.
Defined.

(** ** Reading contexts *)

Lemma attr_read_spec fuel rem ks len acc :
  (length rem < fuel)%nat -> Forall (fun k => k <> None) ks ->
  attr_read fuel rem ks len acc = inl (acc ++ take len rem, (len - length rem)%nat).
Proof.
  revert rem ks len acc. induction fuel as [|fuel IH]; intros rem ks len acc Hf Hks; [lia|].
  cbn [attr_read].
  assert (Hk : exists k, hd (Some len) ks = Some k).
  { destruct ks as [|[k|] ks]; simpl; eauto. by inversion Hks. }
  destruct Hk as [k ->]. unfold read_len. set (n := Nat.min (Nat.max 1 k) (Nat.min len (length rem))).
  destruct (n =? 0)%nat eqn:E; breflect.
  - destruct rem as [|c rem]; [rewrite take_nil, app_nil_r; f_equal; f_equal; simpl; lia|].
    assert (len = O) as -> by (simpl in *; lia). simpl. by rewrite app_nil_r.
  - rewrite IH by (rewrite ?length_drop; lia || by apply Forall_tail).
    rewrite length_drop, <- app_assoc. f_equal. f_equal; [|lia]. f_equal.
    rewrite <- (take_drop n rem) at 3. rewrite take_app_ge by (rewrite length_take; lia).
    rewrite length_take. rewrite Nat.min_l by lia. done.
Qed.

Lemma getprocattr_raw_spec contents ks len :
  Forall (fun k => k <> None) ks -> (0 < len)%nat ->
  aa_getprocattr_raw contents ks len =
    let buf := take len contents in
    if (length buf =? 0)%nat || Ascii.eqb (at_ buf (length buf - 1)) NUL then inl (buf, None, length buf)
    else if Ascii.eqb (at_ buf (length buf - 1)) NEWLINE then
      match aa_splitcon buf with
      | (buf', true, mode) => inl (buf', mode, length buf)
      | (_, false, _) => inr EINVAL
      end
    else if (len <=? length contents)%nat then inr ERANGE else inr EINVAL.
Proof.
  intros Hks Hlen. unfold aa_getprocattr_raw. destruct (len =? 0)%nat eqn:E0; breflect; [lia|].
  rewrite attr_read_spec by (lia || done). cbn [app]. cbv zeta. set (buf := take len contents).
  destruct (length buf =? 0)%nat eqn:E1; breflect.
  - replace (0 <? length buf)%nat with false by (symmetry; apply Nat.ltb_ge; lia). done.
  - replace (0 <? length buf)%nat with true by (symmetry; apply Nat.ltb_lt; lia). cbn [andb orb].
    destruct (Ascii.eqb (at_ buf (length buf - 1)) NUL) eqn:E2; [done|]. cbn [negb].
    destruct (Ascii.eqb (at_ buf (length buf - 1)) NEWLINE) eqn:E3; cbn [negb]; [done|].
    destruct (len - length contents =? 0)%nat eqn:E4, (len <=? length contents)%nat eqn:E5; breflect; try lia; [done|].
    unfold splitcon. cbn [Nat.eqb]. replace (S (length buf) - 1)%nat with (length buf) by lia.
    assert (Hat : at_ (buf ++ [NUL]) (length buf) = NUL) by (by rewrite at_app_r, Nat.sub_diag by lia).
    rewrite Hat. change (Ascii.eqb NUL NEWLINE) with false. cbn [andb]. unfold split_mode.
    replace (S (length buf) - 1)%nat with (length buf) by lia. rewrite Hat.
    change (Ascii.eqb NUL ")") with false. rewrite andb_false_r.
    destruct (parse_unconfined (buf ++ [NUL]) (S (length buf))) eqn:Ep; [|done]. exfalso.
    unfold parse_unconfined in Ep. apply andb_true_iff in Ep as [Ep [r Hr]%starts_with_spec]. breflect.
    apply (f_equal (fun s => at_ s (length buf))) in Hr. rewrite Hat in Hr.
    unfold UNCONFINED in *. simpl in Ep. replace (length buf) with 9%nat in Hr by lia. done.
Qed.

Definition line_char (c : ascii) : Prop := c <> NUL /\ c <> NEWLINE.

Lemma at_Forall (P : ascii -> Prop) (s : cstr) i : Forall P s -> (i < length s)%nat -> P (at_ s i).
Proof. intros H Hi. rewrite List.Forall_forall in H. by apply H, nth_In. Qed.

(** A buffer too small for the line is asked to grow. *)
Lemma raw_grows line tl ks len :
  Forall (fun k => k <> None) ks -> Forall line_char line -> (0 < len <= length line)%nat ->
  aa_getprocattr_raw (line ++ tl) ks len = inr ERANGE.
Proof.
  intros Hks Hl Hlen. rewrite getprocattr_raw_spec by (done || lia). cbv zeta.
  rewrite take_app_le by lia. rewrite length_take, Nat.min_l by lia.
  destruct (len =? 0)%nat eqn:E; breflect; [lia|]. cbn [orb].
  assert (Hc : line_char (at_ (take len line) (len - 1))).
  { apply at_Forall; [by apply Forall_take|rewrite length_take; lia]. }
  destruct Hc as [Hc1 Hc2]. apply Ascii.eqb_neq in Hc1, Hc2. rewrite Hc1, Hc2.
  replace (_ <=? _)%nat with true by (symmetry; apply Nat.leb_le; rewrite length_app; lia). done.
Qed.

Lemma getprocattr_loop_spec line tl ks fuel size r :
  Forall (fun k => k <> None) ks -> Forall line_char line -> (0 < size)%nat ->
  (length (line ++ tl) < size + fuel)%nat -> r <> inr ERANGE ->
  (forall len, (length line < len)%nat -> aa_getprocattr_raw (line ++ tl) ks len = r) ->
  getprocattr_loop fuel (line ++ tl) ks size = r \/ fuel = O.
Proof.
  intros Hks Hl. revert size. induction fuel as [|fuel IH]; intros size Hs Hf Hr Hlast; [by right|].
  left. cbn [getprocattr_loop]. destruct (decide (2 * size <= length line)%nat) as [H|H].
  - rewrite raw_grows by (done || lia). destruct (decide (ERANGE = ERANGE)) as [_|]; [|done].
    destruct (IH (2 * size)%nat) as [H'| ->]; [lia|lia|done|done|exact H'|].
    rewrite length_app in Hf. lia.
  - rewrite Hlast by lia. destruct r as [r|e]; [done|]. destruct (decide (e = ERANGE)) as [->|]; done.
Qed.



(** ** Messages *)

Lemma hats_len_spec hats n :
  Forall (fun h => length h <= PATH_MAX)%nat hats ->
  hats_len hats n = inl (n + length (concat (map (fun h => h ++ [NUL]) hats)))%nat.
Proof.
  intros H. revert n. induction H as [|h hats Hh _ IH]; intros n; cbn [hats_len map concat length];
    [by rewrite Nat.add_0_r|].
  replace (_ <? _)%nat with false by (symmetry; apply Nat.ltb_ge; lia).
  rewrite IH, !length_app. f_equal. simpl. lia.
Qed.

Lemma hats_len_error hats n e : hats_len hats n = inr e -> e = EPROTO.
Proof.
  revert n. induction hats as [|h hats IH]; intros n; cbn [hats_len]; [done|].
  destruct (_ <? _)%nat; [by intros [= <-]|apply IH].
Qed.

Lemma hats_len_long hats n :
  Exists (fun h => PATH_MAX < length h)%nat hats -> hats_len hats n = inr EPROTO.
Proof.
  intros H. revert n. induction hats as [|h hats IH]; intros n; [by inversion H|]. cbn [hats_len].
  destruct (_ <? _)%nat eqn:E; [done|]. breflect. inversion H; subst; [lia|by apply IH].
Qed.

Lemma mem_write_app (a b c data : cstr) :
  length data = length b -> mem_write (a ++ b ++ c) (length a) data = Some (a ++ data ++ c).
Proof.
  intros H. unfold mem_write. rewrite !length_app.
  replace (_ <=? _)%nat with true by (symmetry; apply Nat.leb_le; lia).
  rewrite take_app_length, H, drop_app_ge by lia.
  replace (length a + length b - length a)%nat with (length b) by lia. by rewrite drop_app_length.
Qed.

Lemma split_mem (c : cstr) n : (n <= length c)%nat -> exists a b, c = a ++ b /\ length a = n.
Proof. intros H. exists (take n c), (drop n c). rewrite take_drop, length_take. split; [done|lia]. Qed.

Lemma copy_hats_spec hats done_ rest :
  (length (concat (map (fun h => h ++ [NUL]) hats)) <= length rest)%nat ->
  exists rest', copy_hats (done_ ++ rest) (length done_) hats =
    Some (done_ ++ concat (map (fun h => h ++ [NUL]) hats) ++ rest',
          (length done_ + length (concat (map (fun h => h ++ [NUL]) hats)))%nat).
Proof.
  revert done_ rest. induction hats as [|h hats IH]; intros done_ rest H; cbn [copy_hats map concat] in *.
  - exists rest. by rewrite Nat.add_0_r.
  - rewrite length_app in H. destruct (split_mem rest (length (h ++ [NUL]))) as (a & b & -> & Ha); [lia|].
    rewrite mem_write_app by done. rewrite length_app in H.
    destruct (IH (done_ ++ h ++ [NUL]) b) as [rest' Hr]; [rewrite !length_app in *; simpl in *; lia|]. exists rest'.
    replace (length done_ + length h + 1)%nat with (length (done_ ++ h ++ [NUL]))
      by (rewrite !length_app; simpl; lia).
    rewrite <- (app_assoc done_ (h ++ [NUL]) b) in Hr. rewrite Hr. f_equal. f_equal.
    + by rewrite <- !app_assoc.
    + rewrite !length_app. lia.
Qed.

Lemma hex16_length x : length (hex16 x) = 16%nat.
Proof. reflexivity. Qed.



(** ** Queries *)

Lemma hex_val_digit d : 0 <= d < 16 -> hex_val (hex_digit d) = Some d.
Proof.
  intros H. assert (Hd : In d (map Z.of_nat (seq 0 16))).
  { apply in_map_iff. exists (Z.to_nat d). split; [lia|]. apply in_seq. lia. }
  clear H. revert d Hd. apply List.Forall_forall. simpl. repeat constructor; reflexivity.
Qed.

Lemma hex_digit_plain d :
  0 <= d < 16 -> isspace (hex_digit d) = false /\ Ascii.eqb (hex_digit d) "-"%char = false /\
    Ascii.eqb (hex_digit d) "+"%char = false /\ Ascii.eqb (tolower (hex_digit d)) "x"%char = false.
Proof.
  intros H. assert (Hd : In d (map Z.of_nat (seq 0 16))).
  { apply in_map_iff. exists (Z.to_nat d). split; [lia|]. apply in_seq. lia. }
  clear H. revert d Hd. apply List.Forall_forall. simpl. repeat constructor.
Qed.

Lemma scan_digits_step width d rest acc any :
  0 <= d < 16 -> scan_digits (S width) (hex_digit d :: rest) acc any = scan_digits width rest (acc * 16 + d) true.
Proof. intros H. cbn [scan_digits]. by rewrite hex_val_digit. Qed.

Lemma hex_fold x k : 0 <= k -> (x / 16 ^ (k + 1)) * 16 + x / 16 ^ k mod 16 = x / 16 ^ k.
Proof.
  intros Hk. rewrite Z.pow_add_r, <- Z.div_div by lia. change (16 ^ 1) with 16.
  pose proof (Z.div_mod (x / 16 ^ k) 16 ltac:(lia)). lia.
Qed.

Lemma scan_digits_hex8 x rest :
  0 <= x < 2 ^ 32 -> scan_digits 8 (hex8 x ++ rest) 0 false = Some (x, rest).
Proof.
  intros Hx. unfold hex8. cbn [map app].
  assert (Hd : forall k, 0 <= x / 16 ^ k mod 16 < 16) by (intros; apply Z.mod_pos_bound; lia).
  rewrite !scan_digits_step by apply Hd. cbn [scan_digits].
  assert (H8 : x / 16 ^ (7 + 1) = 0) by (apply Z.div_small; lia).
  pose proof (hex_fold x 7 ltac:(lia)) as F7. pose proof (hex_fold x 6 ltac:(lia)) as F6.
  pose proof (hex_fold x 5 ltac:(lia)) as F5. pose proof (hex_fold x 4 ltac:(lia)) as F4.
  pose proof (hex_fold x 3 ltac:(lia)) as F3. pose proof (hex_fold x 2 ltac:(lia)) as F2.
  pose proof (hex_fold x 1 ltac:(lia)) as F1. pose proof (hex_fold x 0 ltac:(lia)) as F0.
  rewrite H8 in F7. change (6 + 1) with 7 in F6. change (5 + 1) with 6 in F5. change (4 + 1) with 5 in F4.
  change (3 + 1) with 4 in F3. change (2 + 1) with 3 in F2. change (1 + 1) with 2 in F1.
  change (0 + 1) with 1 in F0. change (7 - 0) with 7. change (7 - 1) with 6. change (7 - 2) with 5.
  change (7 - 3) with 4. change (7 - 4) with 3. change (7 - 5) with 2. change (7 - 6) with 1.
  change (7 - 7) with 0. rewrite F7, F6, F5, F4, F3, F2, F1, F0. by rewrite Z.div_1_r.
Qed.

(** The reply the kernel writes. *)
Definition reply_line (word : cstr) (x : Z) : cstr := word ++ $" 0x" ++ hex8 x ++ [NEWLINE].
Definition reply (allow deny audit quiet : Z) : cstr :=
  reply_line $"allow" allow ++ reply_line $"deny" deny ++ reply_line $"audit" audit ++
  reply_line $"quiet" quiet.

Lemma scan_lit_app lit p : scan_lit lit (lit ++ p) = Some p.
Proof. induction lit as [|c lit IH]; [done|]. cbn [app scan_lit]. by rewrite Ascii.eqb_refl. Qed.

Lemma skip_space_id p : isspace (deref p) = false -> skip_space p = p.
Proof. destruct p as [|c p]; [done|]. simpl. by intros ->. Qed.

Lemma scan_hex_hex8 x rest : 0 <= x < 2 ^ 32 -> scan_hex (hex8 x ++ rest) = Some (x, rest).
Proof.
  intros Hx. pose proof (scan_digits_hex8 x rest Hx) as Hs. unfold scan_hex.
  assert (Hd : forall k, 0 <= x / 16 ^ k mod 16 < 16) by (intros; apply Z.mod_pos_bound; lia).
  destruct (hex_digit_plain _ (Hd (7 - 0))) as (H1 & H2 & H3 & _).
  destruct (hex_digit_plain _ (Hd (7 - 1))) as (_ & _ & _ & H4).
  unfold hex8 in *. cbn [map app] in *. rewrite skip_space_id by exact H1. rewrite H2, H3, H4, andb_false_r.
  rewrite Hs. unfold u32. rewrite wrap_small by lia. done.
Qed.

Lemma scan_reply_line word x rest :
  0 <= x < 2 ^ 32 -> isspace (deref rest) = false ->
  scan_line word (reply_line word x ++ rest) = Some (x, rest).
Proof.
  intros Hx Hr. unfold scan_line, reply_line. rewrite <- app_assoc, scan_lit_app. rewrite <- !app_assoc.
  change (skip_space ($" 0x" ++ hex8 x ++ [NEWLINE] ++ rest)) with ($"0x" ++ hex8 x ++ [NEWLINE] ++ rest).
  rewrite scan_lit_app, scan_hex_hex8 by done. cbn [app skip_space].
  change (isspace NEWLINE) with true. cbv iota. by rewrite skip_space_id.
Qed.

Lemma scan_reply_roundtrip allow deny audit quiet :
  0 <= allow < 2 ^ 32 -> 0 <= deny < 2 ^ 32 -> 0 <= audit < 2 ^ 32 -> 0 <= quiet < 2 ^ 32 ->
  scan_reply (reply allow deny audit quiet) = Some (allow, deny, audit, quiet).
Proof.
  intros H1 H2 H3 H4. unfold scan_reply, reply.
  rewrite !scan_reply_line by done. rewrite <- (app_nil_r (reply_line $"quiet" quiet)).
  by rewrite scan_reply_line.
Qed.

Lemma land_not32_0 mask x :
  0 <= mask < 2 ^ 32 ->
  Z.land mask (not32 x) = 0 <-> forall i, 0 <= i -> Z.testbit mask i = true -> Z.testbit x i = true.
Proof.
  intros Hm. split.
  - intros H i Hi Hb. pose proof (mask_bit_low mask i Hm Hb). apply (f_equal (fun z => Z.testbit z i)) in H.
    rewrite Z.land_spec, not32_bit, Z.bits_0, Hb in H by lia. by apply negb_false_iff.
  - intros H. apply Z.bits_inj'. intros i Hi. rewrite Z.land_spec, Z.bits_0.
    destruct (Z.testbit mask i) eqn:Hb; [|done]. pose proof (mask_bit_low mask i Hm Hb).
    by rewrite not32_bit, (H i Hi Hb) by lia.
Qed.

(** C19: A permission query: when the kernel takes the whole message and answers
    with its four masks, the query is allowed exactly when every bit asked for
    is allowed and none of them denied, and audited exactly when no bit asked
    for is quieted and, if the access is allowed, every bit is audited. *)
Theorem query_label_correct kernel mask query size allow deny audit quiet :
  0 < mask < 2 ^ 32 -> (AA_QUERY_CMD_LABEL_SIZE < size)%nat ->
  0 <= allow < 2 ^ 32 -> 0 <= deny < 2 ^ 32 -> 0 <= audit < 2 ^ 32 -> 0 <= quiet < 2 ^ 32 ->
  kernel (take size (AA_QUERY_CMD_LABEL ++ drop AA_QUERY_CMD_LABEL_SIZE query)) =
    (inl (Z.of_nat size), reply allow deny audit quiet) ->
  exists allowed audited,
    query_label (Some None) kernel mask query size = inl (allowed, audited) /\
    (allowed = true <-> forall i, 0 <= i -> Z.testbit mask i = true ->
       Z.testbit allow i = true /\ Z.testbit deny i = false) /\
    (audited = true <-> forall i, 0 <= i -> Z.testbit mask i = true ->
       Z.testbit quiet i = false /\ (allowed = true -> Z.testbit audit i = true)).
Proof.
  intros Hm Hs H1 H2 H3 H4 Hk. unfold query_label.
  destruct (mask =? 0) eqn:E1; breflect; [lia|]. destruct (size <=? _)%nat eqn:E2; breflect; [lia|].
  cbn [orb]. rewrite Hk, Z.eqb_refl. cbn [negb].
  change (length (reply allow deny audit quiet) =? QUERY_LABEL_REPLY_LEN)%nat with true. cbn [negb].
  rewrite scan_reply_roundtrip by done. unfold decide_query.
  assert (Hbit : forall a b i, 0 <= i -> Z.testbit mask i = true ->
    Z.testbit (Z.land a (not32 b)) i = true <-> Z.testbit a i = true /\ Z.testbit b i = false).
  { intros a b i Hi Hb. pose proof (mask_bit_low mask i ltac:(lia) Hb).
    by rewrite Z.land_spec, andb_true_iff, not32_bit, negb_true_iff by lia. }
  set (allowed := Z.land mask (not32 (Z.land allow (not32 deny))) =? 0).
  eexists allowed, _. split; [reflexivity|]. split.
  - unfold allowed. rewrite Z.eqb_eq, land_not32_0 by lia.
    split; intros H i Hi Hb; apply (Hbit allow deny i Hi Hb), (H i Hi Hb).
  - rewrite Z.eqb_eq, land_not32_0 by lia. split; intros H i Hi Hb.
    + specialize (H i Hi Hb). apply Hbit in H as [Ha Hq]; [|done..]. split; [done|]. by destruct allowed.
    + apply Hbit; [done..|]. destruct (H i Hi Hb) as [Hq Ha]. split; [|done].
      destruct allowed; [by apply Ha|].
      apply (ones32_bit i). pose proof (mask_bit_low mask i ltac:(lia) Hb). lia.
Qed.

Lemma query_label_correct_witness :
  exists allowed audited,
    query_label (Some None) (fun m => (inl (Z.of_nat (length m)), reply 6 0 0 0)) 4 (repeat NUL 10) 10 =
      inl (allowed, audited).
Proof.
  destruct (query_label_correct (fun m => (inl (Z.of_nat (length m)), reply 6 0 0 0)) 4 (repeat NUL 10) 10
    6 0 0 0) as (allowed & audited & H & _);
    [lia|vm_compute; lia|lia|lia|lia|lia|reflexivity|exists allowed, audited; exact H].
Defined.

(** The message a query about a path must carry: command, label, terminator,
    class and path. *)
Definition file_query (label path : cstr) : cstr :=
  AA_QUERY_CMD_LABEL ++ label ++ [NUL] ++ [AA_CLASS_FILE] ++ path.

Lemma mem_writes_app (a : cstr) (pieces : list cstr) (b : cstr) ws :
  length (concat pieces) = length b ->
  mem_writes (a ++ b) (snd (fold_left (fun '(pos, ws) p => ((pos + length p)%nat, ws ++ [(pos, p)]))
    pieces (length a, [])) ++ ws) = mem_writes (a ++ concat pieces) ws.
Proof.
  assert (Hfold : forall ps pos acc, snd (fold_left (fun '(pos, ws) p => ((pos + length p)%nat, ws ++ [(pos, p)])) ps (pos, acc)) =
    acc ++ snd (fold_left (fun '(pos, ws) p => ((pos + length p)%nat, ws ++ [(pos, p)])) ps (pos, @nil (nat * cstr)))).
  { induction ps as [|p ps IH]; intros pos acc; [by rewrite app_nil_r|]. cbn [fold_left].
    rewrite (IH _ (acc ++ _)), (IH _ ([] ++ _)). by rewrite <- app_assoc. }
  revert a b. induction pieces as [|p pieces IH]; intros a b H.
  - destruct b; [|done]. done.
  - cbn [fold_left concat] in *. rewrite Hfold. cbn [app mem_writes]. rewrite length_app in H.
    destruct (split_mem b (length p)) as (b1 & b2 & -> & Hb1); [lia|].
    rewrite mem_write_app by lia. rewrite length_app in H. specialize (IH (a ++ p) b2 ltac:(lia)).
    rewrite length_app, <- !app_assoc in IH. exact IH.
Qed.

(** The query about a file path is built inside its block, but the size
    handed on leaves the class byte out: the kernel is sent everything but the
    last character of the path. *)
Theorem query_file_path_truncated garbage label path :
  (forall n, length (garbage n) = n) ->
  exists query size,
    aa_query_file_path_len garbage label path = Some (query, size) /\
    S size = length (file_query label path) /\
    take size (AA_QUERY_CMD_LABEL ++ drop AA_QUERY_CMD_LABEL_SIZE query) =
      take size (file_query label path).
Proof.
  intros Hg. unfold aa_query_file_path_len. set (size := (AA_QUERY_CMD_LABEL_SIZE + length label + 1 + length path)%nat).
  destruct (split_mem (garbage (size + 1)%nat) AA_QUERY_CMD_LABEL_SIZE) as (a & b & Hab & Ha);
    [rewrite Hg; unfold size; lia|].
  assert (Hb : length (concat [label; [NUL]; [AA_CLASS_FILE]; path]) = length b).
  { apply (f_equal length) in Hab. rewrite Hg, length_app, Ha in Hab. unfold size in Hab.
    simpl. rewrite !length_app. simpl. rewrite app_nil_r. lia. }
  pose proof (mem_writes_app a [label; [NUL]; [AA_CLASS_FILE]; path] b [] Hb) as Hw.
  cbn [fold_left snd app] in Hw. rewrite Ha in Hw. cbn [length] in Hw.
  replace (AA_QUERY_CMD_LABEL_SIZE + length label + 2)%nat
    with (AA_QUERY_CMD_LABEL_SIZE + length label + 1 + 1)%nat by lia.
  rewrite Hab, Hw. cbn [mem_writes]. eexists _, size. split; [reflexivity|]. split.
  - unfold file_query, size, AA_QUERY_CMD_LABEL_SIZE. rewrite !length_app. simpl. lia.
  - f_equal. rewrite <- Ha, drop_app_length. unfold file_query. f_equal. simpl. by rewrite app_nil_r.
Qed.

Lemma query_file_path_truncated_witness :
  exists query size,
    aa_query_file_path_len (fun n => repeat "x"%char n) $"foo" $"/etc/passwd" = Some (query, size) /\
    S size = length (file_query $"foo" $"/etc/passwd").
Proof.
  destruct (query_file_path_truncated (fun n => repeat "x"%char n) $"foo" $"/etc/passwd")
    as (query & size & H1 & H2 & _); [intros n; apply repeat_length|].
  exists query, size. split; [exact H1|exact H2].
Defined.

(** The query about a hard link never fits the block allocated for it: the
    class byte is not counted there either, and the last write of every such
    query ends one byte beyond the block. *)
Theorem query_link_path_overflows garbage label target link :
  (forall n, length (garbage n) = n) ->
  aa_query_link_path_len garbage label target link = None.
Proof.
  intros Hg. unfold aa_query_link_path_len.
  set (size := (AA_QUERY_CMD_LABEL_SIZE + length label + 1 + length target + 1 + length link)%nat).
  assert (Hlast : forall ws mem pos data, length mem = size ->
    (size < pos + length data)%nat -> mem_writes mem (ws ++ [(pos, data)]) = None).
  { induction ws as [|[p d] ws IH]; intros mem pos data Hm Hover; cbn [app mem_writes]; unfold mem_write.
    - replace (_ <=? _)%nat with false by (symmetry; apply Nat.leb_gt; lia). done.
    - destruct (_ <=? _)%nat eqn:E; [|done]. breflect. apply IH; [|done].
      rewrite !length_app, length_take, length_drop. lia. }
  match goal with |- context [mem_writes _ [?w1; ?w2; ?w3; ?w4; ?w5; (?p, target)]] =>
    change [w1; w2; w3; w4; w5; (p, target)] with ([w1; w2; w3; w4; w5] ++ [(p, target)]) end.
  rewrite Hlast; [done|apply Hg|unfold size; lia].
Qed.

Lemma query_link_path_overflows_witness :
  aa_query_link_path_len (fun n => repeat "x"%char n) $"foo" $"/a" $"/b" = None.
Proof. apply query_link_path_overflows. intros n. apply repeat_length. Defined.

(** ** Splitting overlay lists *)

Definition is_sep (c : ascii) : bool := Ascii.eqb c ","%char || Ascii.eqb c ":"%char.

(** Directories joined with colons. *)
Fixpoint join_colon (dirs : list cstr) : cstr :=
  match dirs with
  | [] => []
  | [d] => d
  | d :: dirs => d ++ ":"%char :: join_colon dirs
  end.

Lemma split_loop_token fuel tok p done_ v max :
  Forall (fun c => is_sep c = false) tok -> (tok <> [] -> last tok <> Some "\"%char \/ p <> []) ->
  split_loop (length tok + fuel) (tok ++ p) done_ v max = split_loop fuel p (done_ ++ tok) v max.
Proof.
  intros H. revert done_. induction H as [|c tok Hc Ht IH]; intros done_ Hl; [by rewrite app_nil_r|].
  cbn [length Nat.add app split_loop].
  specialize (IH (done_ ++ [c])). rewrite <- app_assoc in IH. cbn [app] in IH.
  assert (Hl' : tok <> [] -> last tok <> Some "\"%char \/ p <> []).
  { intros Hne. destruct tok; [done|]. by apply Hl. }
  destruct (Ascii.eqb c "\"%char) eqn:E.
  - destruct (tok ++ p) eqn:Et; [|by apply IH].
    apply app_eq_nil in Et as [-> ->]. breflect. subst c. destruct (Hl ltac:(done)) as [Hx|Hx]; by exfalso; apply Hx.
  - unfold is_sep in Hc. rewrite Hc. by apply IH.
Qed.

Lemma split_loop_sep fuel c p tok v :
  is_sep c = true -> tok <> [] -> split_loop (S fuel) (c :: p) tok v 0 = split_loop fuel p [] (v ++ [tok]) 0.
Proof.
  intros Hc Ht. cbn [split_loop]. destruct (Ascii.eqb c "\"%char) eqn:E; [breflect; by subst c|].
  unfold is_sep in Hc. rewrite Hc. by destruct tok.
Qed.

Lemma split_join dirs v fuel :
  Forall (fun d => d <> [] /\ Forall (fun c => is_sep c = false) d) dirs ->
  last (join_colon dirs) <> Some "\"%char ->
  split_loop (length (join_colon dirs) + S fuel) (join_colon dirs) [] v 0 = Some (inl (v ++ dirs)).
Proof.
  intros H. revert v. induction H as [|d dirs [Hne Hs] Hd IH]; intros v Hlast; [simpl; by rewrite app_nil_r|].
  destruct dirs as [|d2 dirs].
  - cbn [join_colon] in *. rewrite <- (app_nil_r d) at 2. rewrite split_loop_token by auto.
    cbn [app split_loop]. destruct d; [done|]. done.
  - change (join_colon (d :: d2 :: dirs)) with (d ++ ":"%char :: join_colon (d2 :: dirs)) in *.
    rewrite length_app, <- Nat.add_assoc, split_loop_token; [|done|by right].
    cbn [length app Nat.add]. rewrite split_loop_sep by done. rewrite IH; [by rewrite <- app_assoc|].
    intros Hx. apply Hlast. by rewrite last_app_cons, last_cons, Hx.
Qed.

Lemma split_loop_stuck fuel p tok v : last p = Some "\"%char -> split_loop fuel p tok v 0 = None.
Proof.
  revert p tok v. induction fuel as [|fuel IH]; intros p tok v Hl; [done|].
  destruct p as [|c p]; [done|]. cbn [split_loop]. rewrite last_cons in Hl.
  destruct (Ascii.eqb c "\"%char) eqn:E.
  - destruct p as [|c2 p]; [by apply IH; breflect; subst c|]. apply IH. destruct (last (c2 :: p)) eqn:El; [done|].
    by apply last_None in El.
  - assert (Hp : last p = Some "\"%char).
    { destruct (last p) eqn:El; [done|]. injection Hl as ->. done. }
    destruct (_ || _); [|by apply IH]. destruct tok; [by apply IH|]. cbn [alloc_substring]. by apply IH.
Qed.

(** The list of overlay directories: directories without separators, joined
    with colons, are split back into exactly those directories; an escaped
    separator still separates; and on a string that ends in a backslash the
    loop never ends, because it does not move past the last one. *)
Theorem split_overlay_correct dirs :
  Forall (fun d => d <> [] /\ Forall (fun c => is_sep c = false) d) dirs ->
  (last (join_colon dirs) <> Some "\"%char ->
   aa_split_overlay_str (S (length (join_colon dirs))) (join_colon dirs) 0 = Some (inl dirs)) /\
  (forall str fuel, last str = Some "\"%char -> aa_split_overlay_str fuel str 0 = None) /\
  aa_split_overlay_str 8 $"a\:b" 0 = Some (inl [$"a\"; $"b"]).
Proof.
  intros Hd. split_and!.
  - intros Hl. unfold aa_split_overlay_str. rewrite <- Nat.add_1_r. by apply (split_join dirs []).
  - intros str fuel Hl. by apply split_loop_stuck.
  - done.
Qed.

Lemma split_overlay_correct_witness :
  aa_split_overlay_str 9 $"/a:/bc,d" 0 = Some (inl [$"/a"; $"/bc"; $"d"]) /\
  aa_split_overlay_str 8 $"/a:/bc" 0 = Some (inl [$"/a"; $"/bc"]) /\
  aa_split_overlay_str 1000 $"/a\" 0 = None.
Proof.
  assert (Hd : Forall (fun d => d <> [] /\ Forall (fun c => is_sep c = false) d) [$"/a"; $"/bc"])
    by (repeat constructor; discriminate).
  destruct (split_overlay_correct [$"/a"; $"/bc"] Hd) as (H1 & H2 & _).
  split; [reflexivity|]. split; [apply H1; discriminate|]. apply H2. reflexivity.
Defined.

(** ** Opening the attribute files *)

Lemma dec_digits_hd fuel n acc :
  exists c rest, dec_digits (S fuel) n acc = c :: rest /\ exists d, 0 <= d < 10 /\ c = chr (48 + d).
Proof.
  revert n acc. induction fuel as [|fuel IH]; intros n acc; cbn [dec_digits].
  - destruct (n <? 10); eexists _, _; (split; [reflexivity|]);
      exists (n mod 10); (split; [apply Z.mod_pos_bound; lia|done]).
  - destruct (n <? 10); [|apply IH].
    eexists _, _. split; [reflexivity|]. exists (n mod 10). split; [apply Z.mod_pos_bound; lia|done].
Qed.

Lemma dec_hd z : exists c rest, dec z = c :: rest /\ c <> "%"%char.
Proof.
  unfold dec. destruct (z <? 0); [by eexists _, _|].
  destruct (dec_digits_hd 10 z []) as (c & rest & -> & d & Hd & ->). eexists _, _. split; [done|].
  intros H. apply (f_equal code) in H. rewrite code_chr in H by lia. change (code "%") with 37 in H. lia.
Qed.

(** Opening a task attribute: the path is tried on the interface that was
    chosen, and on failure the old interface is tried again unless AppArmor is
    known to be disabled.  The guard against trying the old interface twice
    compares the path with the unexpanded format, so it never holds: when the
    chosen interface is the old one, the same path is opened twice. *)
Lemma procattr_open_retries init enabled open tid attr :
  procattr_open init enabled open tid attr =
    (let first := procattr_path init tid attr in
     let old := attr_path BaseOld tid attr in
     match open first with
     | Some fd => (Some fd, [first])
     | None => if is_no enabled then (None, [first]) else (open old, [first; old])
     end) /\
  (procattr_base init = BaseOld -> procattr_path init tid attr = attr_path BaseOld tid attr).
Proof.
  split; [|intros H; unfold procattr_path; by rewrite H]. unfold procattr_open. cbv zeta.
  destruct (open _); [done|].
  assert (Hno : starts_with proc_attr_base_old (procattr_path init tid attr) = false).
  { unfold procattr_path, attr_path. destruct (dec_hd tid) as (c & rest & -> & Hc).
    change (starts_with ("%"%char :: $"d/attr/%s") ((c :: rest) ++
      match procattr_base init with
      | BaseOld => $"/attr/" | BaseStacking => $"/attr/apparmor/"
      | BaseUnavailable => $"/attr/apparmor/unavailable/" end ++ attr) = false).
    cbn [starts_with app]. by rewrite (proj2 (Ascii.eqb_neq _ _) (not_eq_sym Hc)). }
  rewrite Hno, andb_true_r. by destruct (is_no enabled).
Qed.

(** The system call path: a caller that does not ask for the mode gets the same
    label, but on every error the code stores a null mode through the pointer it
    was not given. *)
Lemma self_attr_null_mode lsm :
  match get_self_attr_via_syscall lsm true with
  | SelfError _ => get_self_attr_via_syscall lsm false = SelfFault
  | r => get_self_attr_via_syscall lsm false = r
  end.
Proof.
  assert (Hc : forall rc r, match self_attr_check rc r true with
    | SelfError _ => self_attr_check rc r false = SelfFault
    | s => self_attr_check rc r false = s end).
  { intros rc r. unfold self_attr_check, self_attr_error.
    destruct (rc >? _); [destruct (splitcon _ _ _) as [[? ?] ?]; done|]. by destruct (rc >=? 0). }
  unfold get_self_attr_via_syscall. destruct (_ <=? _); [apply Hc|]. destruct (_ >? _); [done|apply Hc].
Qed.
