(* ===== verification/Perms.v ===== *)
(** Permissions, labels and rule prefixes of the policy front end
    ([parser/parser_misc.c], the masks of [parser/immunix.h] and the prefix
    types of [parser/rule.h]).  The lexer hands permission strings to
    [parse_perms]; the grammar attaches prefixes to entries with
    [entry_add_prefix]. *)

From S2P Require Import Prelude.

(** ** Permission masks *)

Definition AA_USER_SHIFT : Z := 0.
Definition AA_OTHER_SHIFT : Z := 14.

Definition AA_MAY_EXEC : Z := Z.shiftl 1 0.
Definition AA_MAY_WRITE : Z := Z.shiftl 1 1.
Definition AA_MAY_READ : Z := Z.shiftl 1 2.
Definition AA_MAY_APPEND : Z := Z.shiftl 1 3.
Definition AA_OLD_MAY_LINK : Z := Z.shiftl 1 4.
Definition AA_OLD_MAY_LOCK : Z := Z.shiftl 1 5.
Definition AA_OLD_EXEC_MMAP : Z := Z.shiftl 1 6.
Definition AA_EXEC_PUX : Z := Z.shiftl 1 7.
Definition AA_EXEC_UNSAFE : Z := Z.shiftl 1 8.
Definition AA_EXEC_INHERIT : Z := Z.shiftl 1 9.
Definition AA_EXEC_MOD_0 : Z := Z.shiftl 1 10.
Definition AA_EXEC_MOD_1 : Z := Z.shiftl 1 11.
Definition AA_EXEC_MOD_2 : Z := Z.shiftl 1 12.
Definition AA_EXEC_MOD_3 : Z := Z.shiftl 1 13.

Definition ors (l : list Z) : Z := fold_right Z.lor 0 l.

Definition AA_BASE_PERMS : Z :=
  ors [AA_MAY_EXEC; AA_MAY_WRITE; AA_MAY_READ; AA_MAY_APPEND; AA_OLD_MAY_LINK; AA_OLD_MAY_LOCK;
       AA_EXEC_PUX; AA_OLD_EXEC_MMAP; AA_EXEC_UNSAFE; AA_EXEC_INHERIT; AA_EXEC_MOD_0;
       AA_EXEC_MOD_1; AA_EXEC_MOD_2; AA_EXEC_MOD_3].
Definition AA_USER_PERMS : Z := Z.shiftl AA_BASE_PERMS AA_USER_SHIFT.
Definition AA_OTHER_PERMS : Z := Z.shiftl AA_BASE_PERMS AA_OTHER_SHIFT.
Definition AA_FILE_PERMS : Z := Z.lor AA_USER_PERMS AA_OTHER_PERMS.
Definition AA_CHANGE_HAT : Z := Z.shiftl 1 30.
Definition AA_CHANGE_PROFILE : Z := Z.shiftl 1 31.
Definition AA_SHARED_PERMS : Z := Z.lor AA_CHANGE_HAT AA_CHANGE_PROFILE.
Definition AA_EXEC_MODIFIERS : Z := ors [AA_EXEC_MOD_0; AA_EXEC_MOD_1; AA_EXEC_MOD_2; AA_EXEC_MOD_3].
Definition AA_EXEC_TYPE : Z := ors [AA_EXEC_UNSAFE; AA_EXEC_INHERIT; AA_EXEC_PUX; AA_EXEC_MODIFIERS].
Definition AA_EXEC_UNCONFINED : Z := AA_EXEC_MOD_0.
Definition AA_EXEC_PROFILE : Z := AA_EXEC_MOD_1.
Definition AA_EXEC_LOCAL : Z := Z.lor AA_EXEC_MOD_0 AA_EXEC_MOD_1.
Definition AA_VALID_PERMS : Z := Z.lor AA_FILE_PERMS AA_OTHER_PERMS.
Definition AA_USER_EXEC : Z := Z.shiftl AA_MAY_EXEC AA_USER_SHIFT.
Definition AA_OTHER_EXEC : Z := Z.shiftl AA_MAY_EXEC AA_OTHER_SHIFT.
Definition AA_EXEC_BITS : Z := Z.lor AA_USER_EXEC AA_OTHER_EXEC.
Definition AA_USER_EXEC_TYPE : Z := Z.shiftl AA_EXEC_TYPE AA_USER_SHIFT.
Definition AA_OTHER_EXEC_TYPE : Z := Z.shiftl AA_EXEC_TYPE AA_OTHER_SHIFT.
Definition ALL_AA_EXEC_TYPE : Z := Z.lor AA_USER_EXEC_TYPE AA_OTHER_EXEC_TYPE.

(** A mask used as a condition. *)
Definition has (perms mask : Z) : bool := negb (Z.land perms mask =? 0).

Definition SHIFT_PERMS (perms shift : Z) : Z :=
  u32 (Z.lor (Z.shiftl (Z.land perms AA_BASE_PERMS) shift) (Z.land perms (not32 AA_FILE_PERMS))).
Definition SHIFT_TO_BASE (perms shift : Z) : Z :=
  Z.lor (Z.shiftr (Z.land perms AA_FILE_PERMS) shift) (Z.land perms (not32 AA_FILE_PERMS)).

Definition is_merged_x_consistent (a b : Z) : bool :=
  if has a AA_USER_EXEC && has b AA_USER_EXEC &&
     negb (Z.land a AA_USER_EXEC_TYPE =? Z.land b AA_USER_EXEC_TYPE) then false
  else if has a AA_OTHER_EXEC && has b AA_OTHER_EXEC &&
     negb (Z.land a AA_OTHER_EXEC_TYPE =? Z.land b AA_OTHER_EXEC_TYPE) then false
  else true.

(** ** Permission strings *)

(** The messages [yyerror] ends the parser with. *)
Inductive perms_error := ConflictAppendWrite | ConflictQualifier | UnexpectedChar.

Definition IS_DIFF_QUAL (perms q : Z) : bool :=
  has perms AA_MAY_EXEC && negb (Z.land perms AA_EXEC_TYPE =? Z.land q AA_EXEC_TYPE).

(** An exec qualifier: merged unless it conflicts; [skip] are the characters
    passed over besides the one that ends every round. *)
Definition add_qualifier (perms tperms : Z) (skip : nat) : option ((Z * nat) + perms_error) :=
  if IS_DIFF_QUAL perms tperms then Some (inr ConflictQualifier)
  else Some (inl (Z.lor perms tperms, skip)).

(** The cases of the switch of [parse_sub_perms] on [thisc]; [None] is its
    default. *)
Definition perm_switch (read_implies_exec : bool) (thisc next : ascii) (perms : Z)
  : option ((Z * nat) + perms_error) :=
  let profile_or_local tperms :=
    let tperms :=
      Z.lor tperms
        (if Ascii.eqb (tolower thisc) "p"%char then Z.lor AA_EXEC_PROFILE AA_MAY_EXEC
         else Z.lor AA_EXEC_LOCAL AA_MAY_EXEC) in
    if Ascii.eqb (tolower next) "i"%char then add_qualifier perms (Z.lor tperms AA_EXEC_INHERIT) 2
    else if Ascii.eqb (tolower next) "u"%char then add_qualifier perms (Z.lor tperms AA_EXEC_PUX) 2
    else add_qualifier perms tperms 1 in
  if Ascii.eqb thisc "r"%char then
    Some (inl (Z.lor perms (if read_implies_exec then Z.lor AA_MAY_READ AA_OLD_EXEC_MMAP
                            else AA_MAY_READ), O))
  else if Ascii.eqb thisc "w"%char then
    if has perms AA_MAY_APPEND && negb (has perms AA_MAY_WRITE) then Some (inr ConflictAppendWrite)
    else Some (inl (Z.lor perms (Z.lor AA_MAY_WRITE AA_MAY_APPEND), O))
  else if Ascii.eqb thisc "a"%char then
    if has perms AA_MAY_WRITE then Some (inr ConflictAppendWrite)
    else Some (inl (Z.lor perms AA_MAY_APPEND, O))
  else if Ascii.eqb thisc "l"%char then Some (inl (Z.lor perms AA_OLD_MAY_LINK, O))
  else if Ascii.eqb thisc "k"%char then Some (inl (Z.lor perms AA_OLD_MAY_LOCK, O))
  else if Ascii.eqb thisc "i"%char then
    if has perms AA_EXEC_MODIFIERS then Some (inr ConflictQualifier)
    else Some (inl (Z.lor perms (Z.lor AA_EXEC_INHERIT AA_MAY_EXEC), 1%nat))
  else if Ascii.eqb thisc "u"%char then
    add_qualifier perms (Z.lor AA_EXEC_UNSAFE (Z.lor AA_EXEC_UNCONFINED AA_MAY_EXEC)) 1
  else if Ascii.eqb thisc "U"%char then
    add_qualifier perms (Z.lor AA_EXEC_UNCONFINED AA_MAY_EXEC) 1
  else if Ascii.eqb thisc "p"%char || Ascii.eqb thisc "c"%char then profile_or_local AA_EXEC_UNSAFE
  else if Ascii.eqb thisc "P"%char || Ascii.eqb thisc "C"%char then profile_or_local 0
  else if Ascii.eqb thisc "m"%char then Some (inl (Z.lor perms AA_OLD_EXEC_MMAP, O))
  else if Ascii.eqb thisc "x"%char then Some (inl (Z.lor perms AA_MAY_EXEC, O))
  else None.

(** The default case: the letters that may be written in upper case are
    evaluated again in lower case. *)
Definition perm_case (read_implies_exec : bool) (thisc next : ascii) (perms : Z)
  : (Z * nat) + perms_error :=
  match perm_switch read_implies_exec thisc next perms with
  | Some r => r
  | None =>
      let lower := tolower thisc in
      if existsb (Ascii.eqb lower) $"rwalimx" then
        match perm_switch read_implies_exec lower next perms with
        | Some r => r
        | None => inr UnexpectedChar
        end
      else inr UnexpectedChar
  end.

(** How [parse_sub_perms] ends: with a mask, an error, or a pointer beyond the
    terminator of the string. *)
Inductive perms_result := PermsOk (perms : Z) | PermsError (e : perms_error) | PermsOverrun.

Fixpoint perms_loop (fuel : nat) (read_implies_exec : bool) (p : cstr) (perms : Z) : perms_result :=
  match fuel with
  | O => PermsOverrun
  | S fuel =>
      match p with
      | [] => PermsOk perms
      | thisc :: _ =>
          match perm_case read_implies_exec thisc (at_ p 1) perms with
          | inr e => PermsError e
          | inl (perms, skip) =>
              if (length p <? S skip)%nat then PermsOverrun
              else perms_loop fuel read_implies_exec (drop (S skip) p) perms
          end
      end
  end.

Definition parse_sub_perms (read_implies_exec : bool) (str_perms : cstr) : perms_result :=
  perms_loop (S (length str_perms)) read_implies_exec str_perms 0.

(** [parse_perms]; the check for invalid bits ends the parser as well. *)
Definition parse_perms (read_implies_exec : bool) (str_perms : cstr) : perms_result + unit :=
  match parse_sub_perms read_implies_exec str_perms with
  | PermsOk tmp =>
      let perms := Z.lor (SHIFT_PERMS tmp AA_USER_SHIFT) (SHIFT_PERMS tmp AA_OTHER_SHIFT) in
      if has perms (not32 AA_VALID_PERMS) then inr tt else inl (PermsOk perms)
  | r => inl r
  end.

(** [parse_X_sub_perms] for the D-Bus like classes; the result is the mask, a
    quiet failure ([None]) or an error. *)
Definition AA_DBUS_SEND : Z := Z.shiftl 1 1.
Definition AA_DBUS_RECEIVE : Z := Z.shiftl 1 2.

Fixpoint parse_X_sub_perms (p : cstr) (perms : Z) (fail : bool) : option Z + perms_error :=
  match p with
  | [] => inl (Some perms)
  | c :: p =>
      let lower := tolower c in
      if Ascii.eqb c "r"%char || Ascii.eqb lower "r"%char
      then parse_X_sub_perms p (Z.lor perms AA_DBUS_RECEIVE) fail
      else if Ascii.eqb c "w"%char || Ascii.eqb lower "w"%char
      then parse_X_sub_perms p (Z.lor perms AA_DBUS_SEND) fail
      else if fail then inr UnexpectedChar else inl None
  end.

Definition parse_X_perms (valid : Z) (str_perms : cstr) (fail : bool) : option Z + perms_error :=
  match parse_X_sub_perms str_perms 0 fail with
  | inr e => inr e
  | inl None => inl None
  | inl (Some perms) =>
      if has perms (not32 valid) then if fail then inr UnexpectedChar else inl None
      else inl (Some perms)
  end.

(** ** Which strings the lexer passes on *)

(** The alternatives of MODE_CHARS in [parser_lex.l]. *)
Definition cross (xs ys : list cstr) : list cstr :=
  List.flat_map (fun x => map (fun y => x ++ y) ys) xs.
Definition mode_units : list cstr :=
  map (fun c => [c]) $"RrWwaLlMmkXx" ++
  cross (map (fun c => [c]) $"PpCc") [$"X"; $"x"] ++
  cross ([] :: map (fun c => [c]) $"PpCc") (cross (map (fun c => [c]) $"IiUu") [$"X"; $"x"]).

(** What a character does, apart from the mask it meets: the condition it is
    subject to, the bits it adds, the characters it skips. *)
Inductive check := NoCheck | CheckWrite | CheckAppend | CheckInherit | CheckQualifier.

Definition shape_switch (r : bool) (c next : ascii) : option (check * Z * nat) :=
  let profile_or_local t :=
    let t := Z.lor t (if Ascii.eqb (tolower c) "p"%char then Z.lor AA_EXEC_PROFILE AA_MAY_EXEC
                      else Z.lor AA_EXEC_LOCAL AA_MAY_EXEC) in
    if Ascii.eqb (tolower next) "i"%char then Some (CheckQualifier, Z.lor t AA_EXEC_INHERIT, 2%nat)
    else if Ascii.eqb (tolower next) "u"%char then Some (CheckQualifier, Z.lor t AA_EXEC_PUX, 2%nat)
    else Some (CheckQualifier, t, 1%nat) in
  if Ascii.eqb c "r"%char then
    Some (NoCheck, if r then Z.lor AA_MAY_READ AA_OLD_EXEC_MMAP else AA_MAY_READ, O)
  else if Ascii.eqb c "w"%char then Some (CheckWrite, Z.lor AA_MAY_WRITE AA_MAY_APPEND, O)
  else if Ascii.eqb c "a"%char then Some (CheckAppend, AA_MAY_APPEND, O)
  else if Ascii.eqb c "l"%char then Some (NoCheck, AA_OLD_MAY_LINK, O)
  else if Ascii.eqb c "k"%char then Some (NoCheck, AA_OLD_MAY_LOCK, O)
  else if Ascii.eqb c "i"%char then Some (CheckInherit, Z.lor AA_EXEC_INHERIT AA_MAY_EXEC, 1%nat)
  else if Ascii.eqb c "u"%char then
    Some (CheckQualifier, Z.lor AA_EXEC_UNSAFE (Z.lor AA_EXEC_UNCONFINED AA_MAY_EXEC), 1%nat)
  else if Ascii.eqb c "U"%char then Some (CheckQualifier, Z.lor AA_EXEC_UNCONFINED AA_MAY_EXEC, 1%nat)
  else if Ascii.eqb c "p"%char || Ascii.eqb c "c"%char then profile_or_local AA_EXEC_UNSAFE
  else if Ascii.eqb c "P"%char || Ascii.eqb c "C"%char then profile_or_local 0
  else if Ascii.eqb c "m"%char then Some (NoCheck, AA_OLD_EXEC_MMAP, O)
  else if Ascii.eqb c "x"%char then Some (NoCheck, AA_MAY_EXEC, O)
  else None.

Definition shape (r : bool) (c next : ascii) : option (check * Z * nat) :=
  match shape_switch r c next with
  | Some s => Some s
  | None => if existsb (Ascii.eqb (tolower c)) $"rwalimx" then shape_switch r (tolower c) next else None
  end.

(** The condition, on the mask so far. *)
Definition conflict (k : check) (perms mask : Z) : option perms_error :=
  match k with
  | NoCheck => None
  | CheckWrite =>
      if has perms AA_MAY_APPEND && negb (has perms AA_MAY_WRITE) then Some ConflictAppendWrite else None
  | CheckAppend => if has perms AA_MAY_WRITE then Some ConflictAppendWrite else None
  | CheckInherit => if has perms AA_EXEC_MODIFIERS then Some ConflictQualifier else None
  | CheckQualifier => if IS_DIFF_QUAL perms mask then Some ConflictQualifier else None
  end.

Definition apply_shape (s : option (check * Z * nat)) (perms : Z) : (Z * nat) + perms_error :=
  match s with
  | None => inr UnexpectedChar
  | Some (k, mask, skip) =>
      match conflict k perms mask with
      | Some e => inr e
      | None => inl (Z.lor perms mask, skip)
      end
  end.

Lemma perm_switch_shape r c next perms :
  perm_switch r c next perms = option_map (fun s => apply_shape (Some s) perms) (shape_switch r c next).
Proof.
  unfold perm_switch, shape_switch, add_qualifier.
  repeat match goal with
    | |- context [if Ascii.eqb c ?x then _ else _] => destruct (Ascii.eqb c x); cbn [option_map apply_shape conflict]
    | |- context [if Ascii.eqb c ?x || Ascii.eqb c ?y then _ else _] =>
        destruct (Ascii.eqb c x || Ascii.eqb c y); cbn [option_map apply_shape conflict]
    end; try done;
  repeat match goal with
    | |- context [if Ascii.eqb (tolower next) ?x then _ else _] =>
        destruct (Ascii.eqb (tolower next) x); cbn [option_map apply_shape conflict]
    | |- context [if has ?a ?b then _ else _] => destruct (has a b)
    | |- context [if has ?a ?b && _ then _ else _] => destruct (has a b); cbn [andb]
    | |- context [if negb (has ?a ?b) then _ else _] => destruct (has a b); cbn [negb]
    | |- context [if IS_DIFF_QUAL ?a ?b then _ else _] => destruct (IS_DIFF_QUAL a b)
    end; done.
Qed.

Lemma perm_case_shape r c next perms : perm_case r c next perms = apply_shape (shape r c next) perms.
Proof.
  unfold perm_case, shape. rewrite !perm_switch_shape.
  destruct (shape_switch r c next); [done|]. cbn [option_map].
  destruct (existsb _ _); [|done]. by destruct (shape_switch r (tolower c) next).
Qed.

(** A unit of a permission string: its condition and its bits. *)
Definition unit_shape (r : bool) (u : cstr) : check * Z * nat :=
  match shape r (deref u) (at_ u 1) with Some s => s | None => (NoCheck, 0, O) end.
Definition unit_check (r : bool) (u : cstr) : check := fst (fst (unit_shape r u)).
Definition unit_mask (r : bool) (u : cstr) : Z := snd (fst (unit_shape r u)).
Definition exec_type (m : Z) : Z := Z.land m AA_EXEC_TYPE.

(** What holds of every unit, checked on all of them. *)
Definition unit_ok (r : bool) (u : cstr) : bool :=
  match shape r (deref u) (at_ u 1) with
  | None => false
  | Some (k, m, skip) =>
      (S skip =? length u)%nat && (Z.land m AA_BASE_PERMS =? m) &&
      (if Ascii.eqb (tolower (deref u)) "p" || Ascii.eqb (tolower (deref u)) "c"
       then (1 <? length u)%nat else true) &&
      match k with
      | NoCheck => (exec_type m =? 0) && negb (has m AA_MAY_WRITE) && negb (has m AA_MAY_APPEND)
      | CheckWrite => m =? Z.lor AA_MAY_WRITE AA_MAY_APPEND
      | CheckAppend => m =? AA_MAY_APPEND
      | CheckInherit => m =? Z.lor AA_EXEC_INHERIT AA_MAY_EXEC
      | CheckQualifier => has m AA_MAY_EXEC && has m AA_EXEC_MODIFIERS && (exec_type m =? Z.land m (not32 AA_MAY_EXEC))
      end
  end.

Lemma units_ok r u : In u mode_units -> unit_ok r u = true.
Proof.
  revert u. apply forallb_forall.
  destruct r; vm_compute; reflexivity.
Qed.

Lemma shape_next r c n1 n2 :
  Ascii.eqb (tolower c) "p"%char || Ascii.eqb (tolower c) "c"%char = false -> shape r c n1 = shape r c n2.
Proof.
  intros H. assert (Hs : forall d, Ascii.eqb (tolower d) "p"%char || Ascii.eqb (tolower d) "c"%char = false ->
    shape_switch r d n1 = shape_switch r d n2).
  { intros d Hd. unfold shape_switch.
    assert (E1 : Ascii.eqb d "p" || Ascii.eqb d "c" = false).
    { apply orb_false_iff in Hd as [H1 H2]. apply orb_false_iff. split; apply Ascii.eqb_neq; intros ->; done. }
    assert (E2 : Ascii.eqb d "P" || Ascii.eqb d "C" = false).
    { apply orb_false_iff in Hd as [H1 H2]. apply orb_false_iff. split; apply Ascii.eqb_neq; intros ->; done. }
    by rewrite E1, E2. }
  unfold shape. rewrite (Hs c H). destruct (shape_switch r c n2); [done|].
  destruct (existsb _ _); [|done]. apply Hs.
  assert (Hl : implb (negb (Ascii.eqb (tolower c) "p"%char || Ascii.eqb (tolower c) "c"%char))
    (negb (Ascii.eqb (tolower (tolower c)) "p"%char || Ascii.eqb (tolower (tolower c)) "c"%char)) = true)
    by (clear; by_chars c).
  rewrite H in Hl. cbn [negb implb] in Hl. by apply negb_true_iff in Hl.
Qed.

(** One round of the loop reads one unit. *)
Lemma unit_case r u rest perms :
  In u mode_units ->
  perm_case r (deref u) (at_ (u ++ rest) 1) perms =
    match conflict (unit_check r u) perms (unit_mask r u) with
    | Some e => inr e
    | None => inl (Z.lor perms (unit_mask r u), (length u - 1)%nat)
    end.
Proof.
  intros Hu. pose proof (units_ok r u Hu) as H. unfold unit_ok in H.
  unfold unit_check, unit_mask, unit_shape. rewrite perm_case_shape.
  replace (shape r (deref u) (at_ (u ++ rest) 1)) with (shape r (deref u) (at_ u 1)).
  - destruct (shape r (deref u) (at_ u 1)) as [[[k m] skip]|]; [|done]. cbn [apply_shape fst snd].
    rewrite !andb_true_iff in H. destruct H as [[[H _] _] _]. breflect.
    replace (length u - 1)%nat with skip by lia. done.
  - destruct (Ascii.eqb (tolower (deref u)) "p" || Ascii.eqb (tolower (deref u)) "c") eqn:E.
    + destruct (shape r (deref u) (at_ u 1)) as [[[k m] skip]|] eqn:Es; [|done].
      rewrite !andb_true_iff in H. destruct H as [[_ H] _]. breflect.
      unfold at_. rewrite app_nth1 by lia. by rewrite <- Es.
    + by apply shape_next.
Qed.

Lemma mode_unit_nonempty u : In u mode_units -> exists c u', u = c :: u'.
Proof.
  intros Hu. destruct u as [|c u]; [|eauto].
  pose proof (units_ok true [] Hu) as H. done.
Qed.

(** The loop on a string of units: the units are merged one by one. *)
Fixpoint merge_units (r : bool) (us : list cstr) (perms : Z) : Z + perms_error :=
  match us with
  | [] => inl perms
  | u :: us =>
      match conflict (unit_check r u) perms (unit_mask r u) with
      | Some e => inr e
      | None => merge_units r us (Z.lor perms (unit_mask r u))
      end
  end.

Lemma perms_loop_units r us fuel perms :
  Forall (fun u => In u mode_units) us -> (length (concat us) < fuel)%nat ->
  perms_loop fuel r (concat us) perms =
    match merge_units r us perms with inl m => PermsOk m | inr e => PermsError e end.
Proof.
  intros Hus. revert fuel perms. induction Hus as [|u us Hu _ IH]; intros fuel perms Hf.
  - destruct fuel; [lia|done].
  - destruct fuel as [|fuel]; [lia|]. cbn [concat merge_units] in *.
    pose proof (unit_case r u (concat us) perms Hu) as Hc.
    destruct (mode_unit_nonempty u Hu) as (c & u' & ->). cbn [app perms_loop].
    change (deref (c :: u')) with c in Hc. cbn [app] in Hc. rewrite Hc.
    destruct (conflict _ _ _); [done|].
    cbn [length]. replace (S (length u') - 1)%nat with (length u') by lia.
    replace (_ <? _)%nat with false by (symmetry; apply Nat.ltb_ge; rewrite length_app; lia).
    cbn [drop skipn]. rewrite drop_app_length. apply IH. simpl in Hf. rewrite length_app in Hf. lia.
Qed.

Lemma has_lor a b m : has (Z.lor a b) m = has a m || has b m.
Proof.
  unfold has. rewrite Z.land_lor_distr_l.
  destruct (Z.land a m =? 0) eqn:E1, (Z.land b m =? 0) eqn:E2, (Z.lor (Z.land a m) (Z.land b m) =? 0) eqn:E3;
    breflect; try done; exfalso.
  - rewrite E1, E2 in E3. done.
  - apply Z.lor_eq_0_iff in E3 as [_ ?]. done.
  - apply Z.lor_eq_0_iff in E3 as [? _]. done.
  - apply Z.lor_eq_0_iff in E3 as [? _]. done.
Qed.

Lemma has_0 m : has 0 m = false.
Proof. unfold has. by rewrite Z.land_0_l. Qed.

Lemma exec_type_lor a b : exec_type (Z.lor a b) = Z.lor (exec_type a) (exec_type b).
Proof. apply Z.land_lor_distr_l. Qed.

Lemma ors_snoc l x : ors (l ++ [x]) = Z.lor (ors l) x.
Proof. induction l as [|y l IH]; simpl; [by rewrite Z.lor_0_r|]. by rewrite IH, Z.lor_assoc. Qed.

Lemma has_ors l m : has (ors l) m = true -> exists x, In x l /\ has x m = true.
Proof.
  induction l as [|y l IH]; simpl; [by rewrite has_0|]. rewrite has_lor, orb_true_iff.
  intros [H|H]; [eauto|]. destruct (IH H) as (x & ? & ?). eauto.
Qed.

Lemma exec_type_ors l : exec_type (ors l) <> 0 -> exists x, In x l /\ exec_type x <> 0.
Proof.
  intros H. destruct (has_ors l AA_EXEC_TYPE) as (x & Hx & Hh).
  - unfold has. apply negb_true_iff, Z.eqb_neq. exact H.
  - exists x. split; [done|]. unfold has in Hh. apply negb_true_iff, Z.eqb_neq in Hh. exact Hh.
Qed.

(** The facts of a unit by its condition. *)
Lemma unit_facts r u :
  In u mode_units ->
  Z.land (unit_mask r u) AA_BASE_PERMS = unit_mask r u /\
  match unit_check r u with
  | NoCheck => exec_type (unit_mask r u) = 0 /\ has (unit_mask r u) AA_MAY_WRITE = false /\
               has (unit_mask r u) AA_MAY_APPEND = false
  | CheckWrite => unit_mask r u = Z.lor AA_MAY_WRITE AA_MAY_APPEND
  | CheckAppend => unit_mask r u = AA_MAY_APPEND
  | CheckInherit => unit_mask r u = Z.lor AA_EXEC_INHERIT AA_MAY_EXEC
  | CheckQualifier => has (unit_mask r u) AA_MAY_EXEC = true /\ has (unit_mask r u) AA_EXEC_MODIFIERS = true /\
      exec_type (unit_mask r u) = Z.land (unit_mask r u) (not32 AA_MAY_EXEC)
  end.
Proof.
  intros Hu. pose proof (units_ok r u Hu) as H. unfold unit_ok in H.
  unfold unit_check, unit_mask, unit_shape. destruct (shape r (deref u) (at_ u 1)) as [[[k m] skip]|]; [|done].
  cbn [fst snd]. rewrite !andb_true_iff in H. destruct H as [[[_ H1] _] H2]. breflect. split; [done|].
  destruct k; rewrite ?andb_true_iff, ?negb_true_iff in H2.
  - destruct H2 as [[? ?] ?]. by breflect.
  - by breflect.
  - by breflect.
  - by breflect.
  - destruct H2 as [[? ?] ?]. by breflect.
Qed.

Lemma has_modifiers_type m : has m AA_EXEC_MODIFIERS = true -> exec_type m <> 0.
Proof.
  unfold has, exec_type. rewrite negb_true_iff, Z.eqb_neq. intros H E. apply H.
  replace AA_EXEC_MODIFIERS with (Z.land AA_EXEC_TYPE AA_EXEC_MODIFIERS) by reflexivity.
  by rewrite Z.land_assoc, E.
Qed.

Lemma has_of_type m : has (exec_type m) AA_EXEC_MODIFIERS = has m AA_EXEC_MODIFIERS.
Proof.
  unfold has, exec_type. rewrite <- Z.land_assoc.
  by replace (Z.land AA_EXEC_TYPE AA_EXEC_MODIFIERS) with AA_EXEC_MODIFIERS by reflexivity.
Qed.

Lemma unit_type_exec r u : In u mode_units -> exec_type (unit_mask r u) <> 0 -> has (unit_mask r u) AA_MAY_EXEC = true.
Proof.
  intros Hu Ht. destruct (unit_facts r u Hu) as [_ H]. destruct (unit_check r u).
  - destruct H as [? _]. done.
  - rewrite H in Ht. done.
  - rewrite H in Ht. done.
  - rewrite H. done.
  - by destruct H.
Qed.

Section merging.
Context (r : bool).
Abbreviation mask := (unit_mask r).

(** The mask of the units read so far, and what the conditions keep. *)
Definition merged (pre : list cstr) (perms : Z) : Prop :=
  Forall (fun u => In u mode_units) pre /\ perms = ors (map mask pre) /\
  (forall u, In u pre -> exec_type (mask u) <> 0 -> exec_type perms = exec_type (mask u)) /\
  ~ ((exists u, In u pre /\ mask u = AA_MAY_APPEND) /\
     (exists u, In u pre /\ has (mask u) AA_MAY_WRITE = true)).

(** What an error says about the units. *)
Definition error_reason (us : list cstr) (e : perms_error) : Prop :=
  match e with
  | ConflictAppendWrite =>
      (exists u, In u us /\ mask u = AA_MAY_APPEND) /\
      (exists u, In u us /\ has (mask u) AA_MAY_WRITE = true)
  | ConflictQualifier =>
      exists u v, In u us /\ In v us /\ has (mask u) AA_MAY_EXEC = true /\
        has (mask v) AA_MAY_EXEC = true /\ exec_type (mask u) <> exec_type (mask v)
  | UnexpectedChar => False
  end.

Lemma merged_has pre perms m :
  merged pre perms -> has perms m = true -> exists u, In u pre /\ has (mask u) m = true.
Proof.
  intros (_ & -> & _) H. apply has_ors in H as (x & Hx & Hh).
  apply in_map_iff in Hx as (u & <- & Hu). eauto.
Qed.

Lemma has_merged pre perms m u :
  merged pre perms -> In u pre -> has (mask u) m = true -> has perms m = true.
Proof.
  intros (_ & -> & _) Hu Hh. induction pre as [|v pre IH]; [done|].
  change (ors (map mask (v :: pre))) with (Z.lor (mask v) (ors (map mask pre))).
  rewrite has_lor. destruct Hu as [->|Hu]; [by rewrite Hh|]. by rewrite (IH Hu), orb_true_r.
Qed.

Lemma merged_unit pre perms u : merged pre perms -> In u pre -> In u mode_units.
Proof. intros (H & _) Hu. rewrite List.Forall_forall in H. auto. Qed.

(** A typed mask comes from a typed unit, which then is executable. *)
Lemma merged_typed pre perms :
  merged pre perms -> exec_type perms <> 0 ->
  exists u, In u pre /\ exec_type (mask u) = exec_type perms /\ has (mask u) AA_MAY_EXEC = true.
Proof.
  intros Hm Ht. pose proof Hm as (_ & Hp & Hq & _). rewrite Hp in Ht.
  apply exec_type_ors in Ht as (x & Hx & Hxt). apply in_map_iff in Hx as (u & <- & Hu).
  exists u. split_and!; [done|by rewrite (Hq u Hu Hxt)|].
  apply unit_type_exec; [by eapply merged_unit|done].
Qed.

Lemma merged_step pre perms u :
  merged pre perms -> In u mode_units ->
  (exec_type (mask u) <> 0 -> exec_type perms = 0 \/ exec_type perms = exec_type (mask u)) ->
  (mask u = AA_MAY_APPEND -> has perms AA_MAY_WRITE = false) ->
  (has (mask u) AA_MAY_WRITE = true -> forall v, In v pre -> mask v <> AA_MAY_APPEND) ->
  merged (pre ++ [u]) (Z.lor perms (mask u)).
Proof.
  intros Hm Hu Ht Ha Hw. pose proof Hm as (H1 & H2 & H3 & H4). split_and!.
  - apply Forall_app. split; [exact H1|]. constructor; [exact Hu|constructor].
  - rewrite map_app. cbn [map]. by rewrite ors_snoc, H2.
  - intros v Hv Hvt. rewrite exec_type_lor. apply in_app_or in Hv as [Hv|[<-|[]]].
    + specialize (H3 v Hv Hvt). rewrite <- H3 in Hvt |- *.
      destruct (decide (exec_type (mask u) = 0)) as [->|Hne]; [by rewrite Z.lor_0_r|].
      destruct (Ht Hne) as [E|E]; [done|]. rewrite <- E. apply Z.lor_diag.
    + destruct (Ht Hvt) as [->| ->]; [by rewrite Z.lor_0_l|apply Z.lor_diag].
  - intros [(a & Hain & Haa) (w & Hwin & Hww)].
    apply in_app_or in Hain as [Hain|[<-|[]]]; apply in_app_or in Hwin as [Hwin|Hwin].
    + apply H4. split; eauto.
    + destruct Hwin as [<-|[]]. by apply (Hw Hww a).
    + specialize (Ha Haa). rewrite (has_merged pre perms AA_MAY_WRITE w Hm Hwin Hww) in Ha. done.
    + destruct Hwin as [<-|[]]. rewrite Haa in Hww. done.
Qed.

Lemma conflict_reason pre perms u e :
  merged pre perms -> In u mode_units -> conflict (unit_check r u) perms (mask u) = Some e ->
  error_reason (pre ++ [u]) e.
Proof.
  intros Hm Hu. destruct (unit_facts r u Hu) as [_ Hf].
  assert (Hlast : In u (pre ++ [u])) by (apply in_or_app; right; by left).
  assert (Hin : forall v, In v pre -> In v (pre ++ [u])) by (intros v Hv; apply in_or_app; by left).
  destruct (unit_check r u); cbn [conflict]; [done|..].
  - destruct (has perms AA_MAY_APPEND) eqn:E1; [|done]. destruct (has perms AA_MAY_WRITE) eqn:E2; [done|].
    intros [= <-]. split; [|exists u; rewrite Hf; done].
    destruct (merged_has _ _ _ Hm E1) as (a & Ha & Hah). exists a. split; [auto|].
    destruct (unit_facts r a (merged_unit _ _ _ Hm Ha)) as [_ Hfa].
    assert (Hw : has (mask a) AA_MAY_WRITE = false).
    { apply not_true_iff_false. intros Hw. rewrite (has_merged _ _ _ _ Hm Ha Hw) in E2. done. }
    destruct (unit_check r a); rewrite ?Hfa in *; try done.
    + destruct Hfa as (_ & _ & Hfa). congruence.
    + destruct Hfa as (_ & _ & Hfa). exfalso. clear -Hah Hfa. unfold has in Hah.
      rewrite negb_true_iff, Z.eqb_neq in Hah. apply Hah.
      apply (f_equal (fun z => Z.land z AA_MAY_APPEND)) in Hfa. unfold exec_type in Hfa.
      rewrite <- !Z.land_assoc in Hfa. change (Z.land AA_EXEC_TYPE AA_MAY_APPEND) with 0 in Hfa.
      change (Z.land (not32 AA_MAY_EXEC) AA_MAY_APPEND) with AA_MAY_APPEND in Hfa.
      by rewrite Z.land_0_r in Hfa.
  - destruct (has perms AA_MAY_WRITE) eqn:E1; [|done]. intros [= <-].
    split; [exists u; done|]. destruct (merged_has _ _ _ Hm E1) as (w & Hw & Hwh). exists w. auto.
  - destruct (has perms AA_EXEC_MODIFIERS) eqn:E1; [|done]. intros [= <-].
    destruct (merged_has _ _ _ Hm E1) as (v & Hv & Hvh). exists v, u. rewrite Hf.
    split_and!; [auto|done| |done|].
    + apply unit_type_exec; [by eapply merged_unit|]. by apply has_modifiers_type.
    + intros E. rewrite <- has_of_type, E in Hvh. done.
  - destruct (IS_DIFF_QUAL perms (mask u)) eqn:E1; [|done]. intros [= <-].
    unfold IS_DIFF_QUAL in E1. rewrite andb_true_iff, negb_true_iff, Z.eqb_neq in E1.
    destruct E1 as [E1 E2]. fold (exec_type perms) (exec_type (mask u)) in E2. destruct Hf as (Hf1 & Hf2 & _).
    destruct (decide (exec_type perms = 0)) as [E0|E0].
    + destruct (merged_has _ _ _ Hm E1) as (v & Hv & Hvh). exists v, u. split_and!; auto.
      intros E. destruct (decide (exec_type (mask v) = 0)) as [Ev|Ev].
      * rewrite Ev in E. by apply (has_modifiers_type _ Hf2).
      * pose proof Hm as (_ & _ & Hq & _). apply Ev. rewrite <- (Hq v Hv Ev). done.
    + destruct (merged_typed _ _ Hm E0) as (v & Hv & Hvt & Hvx). exists v, u. split_and!; auto.
      by rewrite Hvt.
Qed.
End merging.

Section merging_units.
Context (r : bool).

(** Without a conflict the next unit is merged. *)
Lemma no_conflict_step pre perms u :
  merged r pre perms -> In u mode_units -> conflict (unit_check r u) perms (unit_mask r u) = None ->
  merged r (pre ++ [u]) (Z.lor perms (unit_mask r u)).
Proof.
  intros Hm Hu Hc. destruct (unit_facts r u Hu) as [_ Hf]. apply merged_step; [done|done|..].
  - intros Ht. destruct (decide (exec_type perms = 0)) as [|E0]; [by left|right].
    destruct (merged_typed r _ _ Hm E0) as (v & Hv & Hvt & _). rewrite <- Hvt in E0 |- *.
    destruct (unit_check r u); cbn [conflict] in Hc; try (rewrite Hf in Ht; done).
    + destruct Hf as [Hf _]. done.
    + (* inherit: the mask has no modifier, so its type is inherit too *)
      destruct (has perms AA_EXEC_MODIFIERS) eqn:E; [done|].
      destruct (unit_facts r v (merged_unit r _ _ _ Hm Hv)) as [_ Hfv].
      destruct (unit_check r v); try (rewrite Hfv in *; done).
      * destruct Hfv as [Hfv _]. done.
      * by rewrite Hf, Hfv.
      * destruct Hfv as (_ & Hfv & _). rewrite (has_merged r _ _ _ _ Hm Hv Hfv) in E. done.
    + destruct (IS_DIFF_QUAL perms (unit_mask r u)) eqn:E; [done|].
      destruct (merged_typed r _ _ Hm ltac:(by rewrite Hvt in E0)) as (x & Hx & _ & Hxe).
      unfold IS_DIFF_QUAL in E. rewrite (has_merged r _ _ _ _ Hm Hx Hxe) in E. cbn [andb] in E.
      apply negb_false_iff, Z.eqb_eq in E. by rewrite Hvt.
  - intros Ha. destruct (unit_check r u); cbn [conflict] in Hc; rewrite ?Ha in Hf; try done.
    + by destruct Hf as (_ & _ & ?).
    + by destruct (has perms AA_MAY_WRITE).
    + by destruct Hf as (? & _).
  - intros Hw v Hv Hva. destruct (unit_check r u); cbn [conflict] in Hc; try (rewrite Hf in Hw; done).
    + destruct Hf as (_ & Hf & _). congruence.
    + assert (Happ : has perms AA_MAY_APPEND = true) by (eapply has_merged; [done|done|by rewrite Hva]).
      rewrite Happ in Hc. destruct (has perms AA_MAY_WRITE) eqn:E; [|done].
      destruct (merged_has r _ _ _ Hm E) as (w & Hwin & Hww).
      destruct Hm as (_ & _ & _ & Hm). apply Hm. split; eauto.
    + destruct Hf as (_ & _ & Hf). clear -Hw Hf. unfold has in Hw.
      rewrite negb_true_iff, Z.eqb_neq in Hw. apply Hw.
      apply (f_equal (fun z => Z.land z AA_MAY_WRITE)) in Hf. unfold exec_type in Hf.
      rewrite <- !Z.land_assoc in Hf. change (Z.land AA_EXEC_TYPE AA_MAY_WRITE) with 0 in Hf.
      change (Z.land (not32 AA_MAY_EXEC) AA_MAY_WRITE) with AA_MAY_WRITE in Hf. by rewrite Z.land_0_r in Hf.
Qed.

Lemma merge_units_spec us pre perms :
  merged r pre perms -> Forall (fun u => In u mode_units) us ->
  match merge_units r us perms with
  | inl m => merged r (pre ++ us) m
  | inr e => error_reason r (pre ++ us) e
  end.
Proof.
  intros Hm Hus. revert pre perms Hm. induction Hus as [|u us Hu _ IH]; intros pre perms Hm; cbn [merge_units].
  - by rewrite app_nil_r.
  - destruct (conflict _ _ _) eqn:E.
    + pose proof (conflict_reason r pre perms u p Hm Hu E) as H.
      assert (Hincl : forall v, In v (pre ++ [u]) -> In v (pre ++ u :: us)).
      { intros v Hv. apply in_app_or in Hv as [Hv|[->|[]]]; apply in_or_app; [by left|right; by left]. }
      destruct p; cbn [error_reason] in *; [| |done].
      * destruct H as [(a & Ha & ?) (w & Hw & ?)]. split; eauto.
      * destruct H as (a & b & Ha & Hb & ?). exists a, b. auto.
    + specialize (IH (pre ++ [u]) _ (no_conflict_step pre perms u Hm Hu E)).
      by rewrite <- app_assoc in IH.
Qed.
End merging_units.



Lemma ors_base r us :
  Forall (fun u => In u mode_units) us -> 0 <= ors (map (unit_mask r) us) < 2 ^ 14.
Proof.
  induction 1 as [|u us Hu _ IH]; [done|]. cbn [map ors fold_right].
  fold (ors (map (unit_mask r) us)). apply (lor_range 14); [lia| |done].
  destruct (unit_facts r u Hu) as [H _]. rewrite <- H.
  change AA_BASE_PERMS with (Z.ones 14). rewrite Z.land_ones by lia. apply Z.mod_pos_bound. lia.
Qed.

(** The permissions of a rule are those of the string, once for the owner and
    once for the others: both halves can be read back, and the check for
    invalid bits never fires. *)
Theorem parse_perms_halves r us :
  Forall (fun u => In u mode_units) us ->
  match parse_perms r (concat us), parse_sub_perms r (concat us) with
  | inl (PermsOk perms), PermsOk tmp =>
      Z.land perms AA_USER_PERMS = tmp /\
      Z.shiftr (Z.land perms AA_OTHER_PERMS) AA_OTHER_SHIFT = tmp /\
      Z.land perms AA_VALID_PERMS = perms
  | inl (PermsError e), PermsError e' => e = e'
  | _, _ => False
  end.
Proof.
  intros Hus. unfold parse_perms, parse_sub_perms. rewrite perms_loop_units by (done || lia).
  assert (H0 : merged r [] 0).
  { split_and!; [constructor|done|intros u []|intros [(u & [] & _) _]]. }
  pose proof (merge_units_spec r us [] 0 H0 Hus) as H. cbn [app] in H.
  destruct (merge_units r us 0) as [m|e]; [|done]. destruct H as (_ & Hm & _).
  pose proof (ors_base r us Hus) as Hr. rewrite <- Hm in Hr. clear -Hr.
  assert (Hs : forall s, 0 <= s <= 14 -> SHIFT_PERMS m s = Z.shiftl m s).
  { intros s Hs. unfold SHIFT_PERMS. change AA_BASE_PERMS with (Z.ones 14).
    rewrite Z.land_ones, Z.mod_small by lia.
    assert (Z.land m (not32 AA_FILE_PERMS) = 0) as ->.
    { rewrite <- (Z.mod_small m (2 ^ 14)) by lia. rewrite <- Z.land_ones by lia.
      rewrite <- Z.land_assoc. change (Z.land (Z.ones 14) (not32 AA_FILE_PERMS)) with 0. apply Z.land_0_r. }
    rewrite Z.lor_0_r. unfold u32. apply wrap_small. rewrite Z.shiftl_mul_pow2 by lia.
    assert (0 < 2 ^ s) by (apply Z.pow_pos_nonneg; lia).
    assert (2 ^ s <= 2 ^ 14) by (apply Z.pow_le_mono_r; lia). nia. }
  rewrite !Hs by (unfold AA_USER_SHIFT, AA_OTHER_SHIFT; lia).
  unfold AA_USER_SHIFT, AA_OTHER_SHIFT. rewrite Z.shiftl_0_r, lor_shiftl_add by lia.
  set (perms := m + m * 2 ^ 14). assert (Hp : 0 <= perms < 2 ^ 28) by (unfold perms; lia).
  assert (Hv : Z.land perms AA_VALID_PERMS = perms).
  { change AA_VALID_PERMS with (Z.ones 28). rewrite Z.land_ones by lia. by apply Z.mod_small. }
  assert (Hh : has perms (not32 AA_VALID_PERMS) = false).
  { unfold has. rewrite <- Hv, <- Z.land_assoc.
    change (Z.land AA_VALID_PERMS (not32 AA_VALID_PERMS)) with 0. by rewrite Z.land_0_r. }
  rewrite Hh. split_and!; [| |done].
  - change AA_USER_PERMS with (Z.ones 14). rewrite Z.land_ones by lia. unfold perms.
    rewrite Z.mod_add by lia. by apply Z.mod_small.
  - change AA_OTHER_PERMS with (Z.shiftl (Z.ones 14) 14). rewrite Z.shiftr_land, Z.shiftr_shiftl_l by lia.
    change (Z.shiftl (Z.ones 14) (14 - 14)) with (Z.ones 14). rewrite Z.land_ones, Z.shiftr_div_pow2 by lia.
    unfold perms. rewrite Z.div_add, Z.div_small by lia. apply Z.mod_small. lia.
Qed.

Lemma parse_perms_halves_witness :
  match parse_perms false $"rm", parse_sub_perms false $"rm" with
  | inl (PermsOk perms), PermsOk tmp => Z.land perms AA_USER_PERMS = tmp
  | _, _ => False
  end.
Proof.
  assert (Hus : Forall (fun u => In u mode_units) [$"r"; $"m"]).
  { repeat (apply List.Forall_cons; [apply existsb_str_eqb; vm_compute; reflexivity|]). constructor. }
  pose proof (parse_perms_halves false [$"r"; $"m"] Hus) as H.
  change (concat [$"r"; $"m"]) with $"rm" in H.
  destruct (parse_perms false $"rm") as [[perms| |]|]; [|done..].
  destruct (parse_sub_perms false $"rm"); [|done..]. exact (proj1 H).
Defined.

(** ** Labels *)

(** [_parse_label]: whether the label stacks, and the namespace and name, or the
    code of the error. *)
Definition _parse_label (label : cstr) : bool * ((option cstr * cstr) + Z) :=
  let '(stack, label) :=
    if Ascii.eqb (deref label) "&"%char then (true, tl label) else (false, label) in
  if negb (Ascii.eqb (deref label) ":"%char) then
    (stack, if (length label =? 0)%nat then inr 3 else inl (None, label))
  else
    let ns_start := tl label in
    match strstr ns_start $":" with
    | None => (stack, inr 1)
    | Some ns_end =>
        let name_start := tl ns_end in
        let name_start := if starts_with $"//" name_start then drop 2 name_start else name_start in
        let ns := take (length ns_start - length ns_end) ns_start in
        (stack,
         if (length ns =? 0)%nat then inr 2
         else if (length name_start =? 0)%nat then inr 3
         else inl (Some ns, name_start))
    end.

Definition label_contains_ns (label : cstr) : bool :=
  match snd (_parse_label label) with inl (Some _, _) => true | _ => false end.

(** [parse_label]; the error is reported and the parser ends or goes on. *)
Definition parse_label (label : cstr) : option (bool * option cstr * cstr) :=
  match _parse_label label with
  | (stack, inl (ns, name)) => Some (stack, ns, name)
  | (_, inr _) => None
  end.

Definition amp (stack : bool) : cstr := if stack then $"&" else [].

Lemma parse_label_amp stack label :
  Ascii.eqb (deref label) "&"%char = false ->
  _parse_label (amp stack ++ label) = (stack, snd (_parse_label label)).
Proof.
  intros H. unfold _parse_label. destruct stack; cbn [amp].
  - change (deref ($"&" ++ label)) with "&"%char. change (tl ($"&" ++ label)) with label.
    change (Ascii.eqb "&" "&") with true. cbv iota. rewrite H.
    destruct (negb _); [done|]. by destruct (strstr _ _).
  - cbn [app]. rewrite H. destruct (negb _); [done|]. by destruct (strstr _ _).
Qed.

Lemma strstr_colon ns rest :
  ~ In ":"%char ns -> strstr (ns ++ ":"%char :: rest) $":" = Some (":"%char :: rest).
Proof.
  induction ns as [|c ns IH]; intros H; [done|].
  change (strstr ((c :: ns) ++ ":"%char :: rest) $":")
    with (if Ascii.eqb ":" c && true then Some ((c :: ns) ++ ":"%char :: rest)
          else strstr (ns ++ ":"%char :: rest) $":").
  destruct (Ascii.eqb ":" c) eqn:E; [breflect; subst c; exfalso; apply H; by left|].
  apply IH. intros ?. apply H. by right.
Qed.

Lemma strstr_colon_None s : strstr s $":" = None <-> ~ In ":"%char s.
Proof.
  split.
  - intros H Hin. apply in_split in Hin as (a & b & ->). rewrite strstr_None in H. specialize (H (length a)).
    by rewrite drop_app_length in H.
  - intros H. apply strstr_None. intros k. apply not_true_iff_false. intros [t Ht]%starts_with_spec.
    apply H. rewrite <- (take_drop k s), Ht. apply in_or_app. right. by left.
Qed.

(** C22: Labels: a profile name, alone or in a namespace in either notation, and
    stacked or not, is parsed back into its parts; an unterminated namespace,
    an empty one and an empty name are each refused with their own code. *)
Theorem parse_label_roundtrip stack ns name :
  ns <> [] -> ~ In ":"%char ns -> name <> [] ->
  deref name <> "&"%char -> deref name <> ":"%char -> starts_with $"//" name = false ->
  parse_label (amp stack ++ name) = Some (stack, None, name) /\
  parse_label (amp stack ++ $":" ++ ns ++ $":" ++ name) = Some (stack, Some ns, name) /\
  parse_label (amp stack ++ $":" ++ ns ++ $"://" ++ name) = Some (stack, Some ns, name) /\
  label_contains_ns (amp stack ++ $":" ++ ns ++ $":" ++ name) = true /\
  label_contains_ns (amp stack ++ name) = false /\
  _parse_label (amp stack ++ $":" ++ ns) = (stack, inr 1) /\
  _parse_label (amp stack ++ $"::" ++ name) = (stack, inr 2) /\
  _parse_label (amp stack ++ $":" ++ ns ++ $":") = (stack, inr 3) /\
  _parse_label (amp stack) = (stack, inr 3).
Proof.
  intros Hns Hcol Hname Ha Hc Hs.
  assert (Hplain : _parse_label (amp stack ++ name) = (stack, inl (None, name))).
  { rewrite parse_label_amp by by apply Ascii.eqb_neq. f_equal. unfold _parse_label.
    rewrite (proj2 (Ascii.eqb_neq _ _) Ha), (proj2 (Ascii.eqb_neq _ _) Hc). by destruct name. }
  assert (Hgen : forall tail, snd (_parse_label ($":" ++ ns ++ ":"%char :: tail)) =
    let name := if starts_with $"//" tail then drop 2 tail else tail in
    if (length name =? 0)%nat then inr 3 else inl (Some ns, name)).
  { intros tail. unfold _parse_label.
    change (deref ($":" ++ ns ++ ":"%char :: tail)) with ":"%char.
    change (Ascii.eqb ":" "&") with false. cbv beta iota zeta.
    change (deref ($":" ++ ns ++ ":"%char :: tail)) with ":"%char.
    change (tl ($":" ++ ns ++ ":"%char :: tail)) with (ns ++ ":"%char :: tail).
    change (negb (Ascii.eqb ":" ":")) with false. cbv beta iota zeta.
    rewrite strstr_colon by done. cbn [snd tl].
    rewrite length_app. replace (_ - _)%nat with (length ns) by (simpl; lia). rewrite take_app_length.
    by destruct ns. }
  assert (Hns1 : _parse_label (amp stack ++ $":" ++ ns ++ $":" ++ name) = (stack, inl (Some ns, name))).
  { rewrite parse_label_amp by done. f_equal. change ($":" ++ name) with (":"%char :: name).
    rewrite Hgen, Hs. by destruct name. }
  assert (Hns2 : _parse_label (amp stack ++ $":" ++ ns ++ $"://" ++ name) = (stack, inl (Some ns, name))).
  { rewrite parse_label_amp by done. f_equal. change ($"://" ++ name) with (":"%char :: $"//" ++ name).
    rewrite Hgen, starts_with_app. cbv zeta. change (drop 2 ($"//" ++ name)) with name. by destruct name. }
  unfold parse_label, label_contains_ns. rewrite Hplain, Hns1, Hns2. split_and!; try done.
  - rewrite parse_label_amp by done. f_equal. unfold _parse_label.
    change (deref ($":" ++ ns)) with ":"%char. change (Ascii.eqb ":" "&") with false. cbv beta iota zeta.
    change (deref ($":" ++ ns)) with ":"%char. change (tl ($":" ++ ns)) with ns.
    change (negb (Ascii.eqb ":" ":")) with false. cbv beta iota zeta.
    by rewrite (proj2 (strstr_colon_None ns) Hcol).
  - rewrite parse_label_amp by done. f_equal. unfold _parse_label.
    change (deref ($"::" ++ name)) with ":"%char. change (Ascii.eqb ":" "&") with false. cbv beta iota zeta.
    change (deref ($"::" ++ name)) with ":"%char. change (tl ($"::" ++ name)) with ([] ++ ":"%char :: name).
    change (negb (Ascii.eqb ":" ":")) with false. cbv beta iota zeta.
    rewrite strstr_colon by (intros []). cbn [app length snd]. by rewrite Nat.sub_diag.
  - rewrite parse_label_amp by done. f_equal. change (ns ++ $":") with (ns ++ ":"%char :: []). by rewrite Hgen.
  - by destruct stack.
Qed.

Lemma parse_label_roundtrip_witness :
  parse_label $"&:ns://prof" = Some (true, Some $"ns", $"prof") /\ _parse_label $":ns" = (false, inr 1).
Proof.
  split.
  - apply (parse_label_roundtrip true $"ns" $"prof");
      [discriminate|simpl; intuition discriminate|discriminate|discriminate|discriminate|reflexivity].
  - apply (parse_label_roundtrip false $"ns" $"prof");
      [discriminate|simpl; intuition discriminate|discriminate|discriminate|discriminate|reflexivity].
Defined.

(** ** Rule prefixes *)

Inductive audit_t := AuditUnspecified | AuditImplied | AuditForce | AuditQuiet.
Inductive rule_mode_t := ModeUnspecified | ModeAllow | ModeDeny | ModePrompt.
Inductive owner_t := OwnerUnspecified | OwnerSpecified | OwnerNot.

#[export] Instance audit_t_eq_dec : EqDecision audit_t.
Proof. solve_decision. Defined.
#[export] Instance rule_mode_t_eq_dec : EqDecision rule_mode_t.
Proof. solve_decision. Defined.
#[export] Instance owner_t_eq_dec : EqDecision owner_t.
Proof. solve_decision. Defined.

(** [internal_audit_t::operator==]: an implied audit counts as a forced one. *)
Definition audit_eqb (a rhs : audit_t) : bool :=
  if decide (rhs = AuditForce) then bool_decide (a = AuditForce) || bool_decide (a = AuditImplied)
  else bool_decide (a = rhs).

Record prefixes := { p_priority : Z; p_audit : audit_t; p_rule_mode : rule_mode_t; p_owner : owner_t }.

(** The part of [struct cod_entry] that prefixes and permissions concern. *)
Record cod_entry := {
  priority : Z; name : cstr; link_name : option cstr; nt_name : option cstr;
  perms : Z; audit : audit_t; rule_mode : rule_mode_t; subset : bool
}.

Definition new_entry (id : cstr) (perms : Z) (link_id : option cstr) : cod_entry :=
  {| priority := 0; name := id; link_name := link_id; nt_name := None; perms := perms;
     audit := AuditUnspecified; rule_mode := ModeUnspecified; subset := false |}.

Definition copy_cod_entry (orig : cod_entry) : cod_entry :=
  {| priority := priority orig; name := name orig; link_name := link_name orig;
     nt_name := nt_name orig; perms := perms orig; audit := audit orig;
     rule_mode := rule_mode orig; subset := subset orig |}.

(** The messages of the checks. *)
Inductive prefix_error := ModeConflict | AuditConflict | DenyWithQualifier | ExecWithoutQualifier.

Definition check_x_qualifier (entry : cod_entry) : option prefix_error :=
  if has (perms entry) AA_EXEC_BITS then
    if bool_decide (rule_mode entry = ModeDeny) && has (perms entry) ALL_AA_EXEC_TYPE
    then Some DenyWithQualifier
    else if bool_decide (rule_mode entry <> ModeDeny) && negb (has (perms entry) ALL_AA_EXEC_TYPE)
    then Some ExecWithoutQualifier
    else None
  else None.

Definition set_modes (e : cod_entry) (m : rule_mode_t) (a : audit_t) (prio : Z) : cod_entry :=
  {| priority := prio; name := name e; link_name := link_name e; nt_name := nt_name e;
     perms := perms e; audit := a; rule_mode := m; subset := subset e |}.
Definition mask_perms (e : cod_entry) (mask : Z) : cod_entry :=
  {| priority := priority e; name := name e; link_name := link_name e; nt_name := nt_name e;
     perms := Z.land (perms e) mask; audit := audit e; rule_mode := rule_mode e; subset := subset e |}.

(** [generic_add_prefix] *)
Definition generic_add_prefix (entry : cod_entry) (p : prefixes) : cod_entry + prefix_error :=
  if bool_decide (p_rule_mode p <> ModeUnspecified) &&
     bool_decide (rule_mode entry <> ModeUnspecified) &&
     bool_decide (rule_mode entry <> p_rule_mode p)
  then inr ModeConflict
  else
    let mode := if decide (p_rule_mode p <> ModeUnspecified) then p_rule_mode p else rule_mode entry in
    let prio := if negb (p_priority p =? 0) then p_priority p else priority entry in
    if negb (audit_eqb (p_audit p) AuditUnspecified) &&
       negb (audit_eqb (audit entry) AuditUnspecified) &&
       negb (audit_eqb (audit entry) AuditImplied) &&
       negb (audit_eqb (audit entry) (p_audit p))
    then inr AuditConflict
    else
      let deny := bool_decide (p_rule_mode p = ModeDeny) || bool_decide (mode = ModeDeny) in
      let forced := bool_decide (p_audit p = AuditForce) || bool_decide (audit entry = AuditForce) in
      let '(mode, au) :=
        if deny && forced then (ModeDeny, AuditUnspecified)
        else if bool_decide (p_rule_mode p = ModeDeny) then (ModeDeny, AuditImplied)
        else if negb (audit_eqb (p_audit p) AuditUnspecified) then (mode, p_audit p)
        else (mode, audit entry) in
      inl (set_modes entry mode au prio).

Definition entry_add_prefix (entry : cod_entry) (p : prefixes) : cod_entry + prefix_error :=
  match generic_add_prefix entry p with
  | inr e => inr e
  | inl entry =>
      let entry :=
        match p_owner p with
        | OwnerSpecified => mask_perms entry (Z.lor AA_USER_PERMS AA_SHARED_PERMS)
        | OwnerNot => mask_perms entry (Z.lor AA_OTHER_PERMS AA_SHARED_PERMS)
        | OwnerUnspecified => entry
        end in
      match check_x_qualifier entry with
      | Some e => inr e
      | None => inl entry
      end
  end.

(** A prefix made of a mode and an audit only. *)
Definition mode_prefix (m : rule_mode_t) (a : audit_t) : prefixes :=
  {| p_priority := 0; p_audit := a; p_rule_mode := m; p_owner := OwnerUnspecified |}.

Definition then_add (r : cod_entry + prefix_error) (p : prefixes) : cod_entry + prefix_error :=
  match r with inl e => generic_add_prefix e p | inr e => inr e end.

(** Prefixes on a rule that has none yet: the mode is the prefix's, a denial
    is quiet unless audited, in which case it is logged, and otherwise the
    audit is the prefix's; nested audit and mode prefixes have the same effect
    in either order and as one prefix; owner prefixes keep that half of the
    permissions; an exec is accepted exactly when a denial has no qualifier and
    anything else has one. *)
Theorem entry_add_prefix_correct e m a o :
  rule_mode e = ModeUnspecified -> audit e = AuditUnspecified ->
  a = AuditUnspecified \/ a = AuditForce ->
  let au := match m, a with
            | ModeDeny, AuditForce => AuditUnspecified
            | ModeDeny, _ => AuditImplied
            | _, _ => a end in
  let e' := set_modes e m au (priority e) in
  generic_add_prefix e (mode_prefix m a) = inl e' /\
  then_add (generic_add_prefix e (mode_prefix m AuditUnspecified)) (mode_prefix ModeUnspecified a) = inl e' /\
  then_add (generic_add_prefix e (mode_prefix ModeUnspecified a)) (mode_prefix m AuditUnspecified) = inl e' /\
  let kept := match o with
              | OwnerSpecified => mask_perms e' (Z.lor AA_USER_PERMS AA_SHARED_PERMS)
              | OwnerNot => mask_perms e' (Z.lor AA_OTHER_PERMS AA_SHARED_PERMS)
              | OwnerUnspecified => e' end in
  (entry_add_prefix e {| p_priority := 0; p_audit := a; p_rule_mode := m; p_owner := o |} = inl kept <->
   (has (perms kept) AA_EXEC_BITS = true -> (m = ModeDeny <-> has (perms kept) ALL_AA_EXEC_TYPE = false))).
Proof.
  destruct e as [prio n ln nn pm au0 rm sub]. cbn [rule_mode audit priority]. intros -> -> Ha.
  cbv zeta. split_and!; [destruct Ha as [->| ->], m; reflexivity..|].
  unfold entry_add_prefix.
  assert (Hg : generic_add_prefix {| priority := prio; name := n; link_name := ln; nt_name := nn; perms := pm;
      audit := AuditUnspecified; rule_mode := ModeUnspecified; subset := sub |}
      {| p_priority := 0; p_audit := a; p_rule_mode := m; p_owner := o |} =
    inl (set_modes {| priority := prio; name := n; link_name := ln; nt_name := nn; perms := pm;
      audit := AuditUnspecified; rule_mode := ModeUnspecified; subset := sub |} m
      (match m, a with ModeDeny, AuditForce => AuditUnspecified | ModeDeny, _ => AuditImplied | _, _ => a end) prio))
    by (destruct Ha as [->| ->], m; reflexivity).
  rewrite Hg. cbn [p_owner].
  set (kept := match o with OwnerSpecified => _ | _ => _ end).
  assert (Hm : rule_mode kept = m) by (unfold kept; by destruct o).
  unfold check_x_qualifier. rewrite Hm. clearbody kept. clear Hm Hg.
  destruct (has (perms kept) AA_EXEC_BITS); [|by split].
  destruct (has (perms kept) ALL_AA_EXEC_TYPE); destruct (decide (m = ModeDeny)) as [E|E];
    rewrite ?(bool_decide_eq_true_2 _ E), ?(bool_decide_eq_false_2 _ E).
  - subst m. split; [done|]. intros H. specialize (H eq_refl). destruct H as [H _]. by specialize (H eq_refl).
  - rewrite andb_false_r. cbn [andb]. split; [intros _ _; split; [done|intros ?; done]|done].
  - subst m. cbn [andb negb]. rewrite (bool_decide_eq_false_2 (ModeDeny <> ModeDeny)) by auto. by split.
  - cbn [andb negb]. split; [done|].
    intros H. specialize (H eq_refl). exfalso. apply E, H. done.
Qed.

Lemma entry_add_prefix_correct_witness :
  generic_add_prefix (new_entry $"/bin/x" 1 None) (mode_prefix ModeDeny AuditForce) =
    inl (set_modes (new_entry $"/bin/x" 1 None) ModeDeny AuditUnspecified 0).
Proof.
  exact (proj1 (entry_add_prefix_correct (new_entry $"/bin/x" 1 None) ModeDeny AuditForce OwnerUnspecified
    eq_refl eq_refl (or_intror eq_refl))).
Defined.

(** An audited denial inside a block of denials becomes a quiet one. *)
Example audit_lost_in_deny_block :
  then_add (generic_add_prefix (new_entry $"/x" 4 None) (mode_prefix ModeDeny AuditForce))
    (mode_prefix ModeDeny AuditUnspecified) =
  inl (set_modes (new_entry $"/x" 4 None) ModeDeny AuditImplied 0).
Proof. reflexivity. Qed.
