(* ===== verification/Caps.v ===== *)
(** The capability table of the parser ([capability_lookup] and its users in
    [parser/parser_misc.c]).  The table is a vector, and the two maps over it
    hold references to its elements: a reference is modelled as the block it
    points into and an index, so that references into a block that was
    reallocated can be told apart from live ones. *)

From S2P Require Import Prelude Features.

(** [struct capability_table]; the flags are a bit mask. *)
Record capability_table := { name : cstr; cap : Z; backmap : Z; flags : Z }.

Definition KERNEL_FEATURE : Z := 2.
Definition NO_BACKMAP_CAP : Z := 255.

(** A reference: the block and the index in it. *)
Definition ref := (nat * nat)%type.

(** [class capability_lookup]: the vector with its capacity and current block,
    and the maps (a key inserted twice keeps its first value). *)
Record capability_lookup := {
  cap_table : list capability_table; capacity : nat; block : nat;
  name_cap_map : list (cstr * ref); int_cap_map : list (Z * ref)
}.

Definition map_find {K} `{EqDecision K} (k : K) (m : list (K * ref)) : option ref :=
  option_map snd (List.find (fun e => bool_decide (fst e = k)) m).
Definition map_emplace {K} `{EqDecision K} (k : K) (r : ref) (m : list (K * ref)) : list (K * ref) :=
  match map_find k m with Some _ => m | None => m ++ [(k, r)] end.

(** Following a reference: [None] if the block it points into is gone. *)
Definition follow (t : capability_lookup) (r : ref) : option capability_table :=
  if (fst r =? block t)%nat then cap_table t !! snd r else None.

(** What a lookup gives: no entry, an entry, or a dangling reference. *)
Inductive found := NotFound | Found (e : capability_table) | Dangling.

Definition look (t : capability_lookup) (r : option ref) : found :=
  match r with
  | None => NotFound
  | Some r => match follow t r with Some e => Found e | None => Dangling end
  end.

Section table.
(** How a full vector grows; only that it does is used. *)
Context (grow : nat -> nat).

(** [add_capability_table_entry_raw]: [push_back] moves the elements to a new
    block when the vector is full. *)
Definition add_capability_table_entry_raw (t : capability_lookup) (entry : capability_table)
  : capability_lookup :=
  let full := (capacity t <=? length (cap_table t))%nat in
  let block' := if full then S (block t) else block t in
  let capacity' := if full then grow (capacity t) else capacity t in
  let entry_ref := (block', length (cap_table t)) in
  {| cap_table := cap_table t ++ [entry]; capacity := capacity'; block := block';
     name_cap_map := map_emplace (name entry) entry_ref (name_cap_map t);
     int_cap_map := map_emplace (cap entry) entry_ref (int_cap_map t) |}.

(** The constructor, from the generated table. *)
Definition new_capability_lookup (base : list capability_table) : capability_lookup :=
  fold_left add_capability_table_entry_raw base
    {| cap_table := []; capacity := length base; block := 0; name_cap_map := []; int_cap_map := [] |}.

Definition find_cap_entry_by_name (t : capability_lookup) (n : cstr) : found :=
  look t (map_find n (name_cap_map t)).
Definition find_cap_entry_by_num (t : capability_lookup) (c : Z) : found :=
  look t (map_find c (int_cap_map t)).

(** The reading accessors; [None] is the use of a dangling reference. *)
Definition name_to_capability (t : capability_lookup) (n : cstr) : option Z :=
  match find_cap_entry_by_name t n with
  | NotFound => Some (-1)
  | Found e => Some (cap e)
  | Dangling => None
  end.
Definition capability_to_name (t : capability_lookup) (c : Z) : option cstr :=
  match find_cap_entry_by_num t c with
  | NotFound => Some $"invalid-capability"
  | Found e => Some (name e)
  | Dangling => None
  end.
Definition capability_backmap (t : capability_lookup) (c : Z) : option Z :=
  match find_cap_entry_by_num t c with
  | NotFound => Some NO_BACKMAP_CAP
  | Found e => Some (backmap e)
  | Dangling => None
  end.
Definition capability_in_kernel (t : capability_lookup) (c : Z) : option bool :=
  match find_cap_entry_by_num t c with
  | NotFound => Some false
  | Found e => Some (negb (Z.land (flags e) KERNEL_FEATURE =? 0))
  | Dangling => None
  end.

Inductive add_cap_result := ALREADY_EXISTS | FLAG_ADDED | CAP_ADDED.

Definition set_flags (e : capability_table) (f : Z) : capability_table :=
  {| name := name e; cap := cap e; backmap := backmap e; flags := f |}.

(** [ent->flags |= flag] through the reference. *)
Definition store_flags (t : capability_lookup) (r : ref) (f : Z) : capability_lookup :=
  {| cap_table := alter (fun e => set_flags e f) (snd r) (cap_table t); capacity := capacity t;
     block := block t; name_cap_map := name_cap_map t; int_cap_map := int_cap_map t |}.

(** [capable_add_cap]; [None] is the use of a dangling reference. *)
Definition capable_add_cap (t : capability_lookup) (str : cstr) (c flag : Z)
  : option (capability_lookup * add_cap_result) :=
  match map_find str (name_cap_map t) with
  | Some r =>
      match follow t r with
      | None => None
      | Some ent =>
          if negb (cap ent =? c) then Some (t, ALREADY_EXISTS)
          else if negb (Z.land (flags ent) flag =? 0) then Some (t, ALREADY_EXISTS)
          else Some (store_flags t r (Z.lor (flags ent) flag), FLAG_ADDED)
      end
  | None =>
      Some (add_capability_table_entry_raw t {| name := str; cap := c; backmap := 0; flags := flag |},
            CAP_ADDED)
  end.

Definition clear_cap_flag (t : capability_lookup) (f : Z) : capability_lookup :=
  {| cap_table := map (fun e => set_flags e (Z.land (flags e) (not32 f))) (cap_table t);
     capacity := capacity t; block := block t; name_cap_map := name_cap_map t;
     int_cap_map := int_cap_map t |}.

(** [strn_token]: the next token and what follows it. *)
Fixpoint skip_spaces (str : cstr) : cstr :=
  match str with c :: rest => if isspace c then skip_spaces rest else str | [] => [] end.
Fixpoint token (str : cstr) : cstr * cstr :=
  match str with
  | c :: rest => if isspace c then ([], str) else let '(tok, after) := token rest in (c :: tok, after)
  | [] => ([], [])
  end.
Definition strn_token (str : cstr) : option (cstr * cstr) :=
  let '(tok, after) := token (skip_spaces str) in
  match tok with [] => None | _ => Some (tok, after) end.

(** The loop of [add_cap_feature_mask]: [n] numbers the tokens and [valuelen]
    counts their characters off.  [None] is the use of a dangling reference. *)
Fixpoint add_caps (fuel : nat) (t : capability_lookup) (str : cstr) (n valuelen f : Z)
  : option (capability_lookup * bool) :=
  match fuel with
  | O => Some (t, true)
  | S fuel =>
      match strn_token str with
      | None => Some (t, true)
      | Some (tok, after) =>
          match capable_add_cap t tok n f with
          | None => None
          | Some (t, _) =>
              if valuelen <? strlen tok then Some (t, false)
              else add_caps fuel t after (n + 1) (valuelen - strlen tok) f
          end
      end
  end.

Definition add_cap_feature_mask (t : capability_lookup) (features : cstr) (f : Z)
  : option (capability_lookup * bool) :=
  match aa_features_value features $"caps/mask" with
  | inr _ => Some (t, true)
  | inl value => add_caps (S (length value)) t value 0 (strlen value) f
  end.
End table.

(** ** The table and its references *)

(** The map from the keys of [l], whose elements start at index [s] of block
    [b]. *)
Definition key_map {K} (key : capability_table -> K) (b s : nat) (l : list capability_table)
  : list (K * ref) := zip (map key l) (map (fun i => (b, i)) (seq s (length l))).

Section keys.
Context {K : Type} `{EqDecision K} (key : capability_table -> K).

Lemma key_map_cons b s e l : key_map key b s (e :: l) = (key e, (b, s)) :: key_map key b (S s) l.
Proof. done. Qed.

Lemma key_map_snoc b s l e :
  key_map key b s (l ++ [e]) = key_map key b s l ++ [(key e, (b, (s + length l)%nat))].
Proof.
  revert s. induction l as [|x l IH]; intros s; [simpl; by rewrite Nat.add_0_r|].
  cbn [app]. rewrite !key_map_cons, IH. cbn [app length]. by rewrite <- Nat.add_succ_comm.
Qed.

Lemma map_find_in b s l i e :
  NoDup (map key l) -> l !! i = Some e -> map_find (key e) (key_map key b s l) = Some (b, (s + i)%nat).
Proof.
  revert s i. induction l as [|x l IH]; intros s i Hnd Hi; [done|]. rewrite key_map_cons.
  cbn [map] in Hnd. apply NoDup_cons in Hnd as [Hx Hnd]. unfold map_find. cbn [List.find fst].
  destruct i as [|i]; simpl in Hi.
  - injection Hi as ->. rewrite bool_decide_eq_true_2 by done. simpl. by rewrite Nat.add_0_r.
  - rewrite bool_decide_eq_false_2.
    + specialize (IH (S s) i Hnd Hi). unfold map_find in IH. rewrite IH. by rewrite Nat.add_succ_comm.
    + intros E. apply Hx. rewrite E. apply list_elem_of_In, in_map.
      apply list_elem_of_In. by eapply list_elem_of_lookup_2.
Qed.

Lemma map_find_out b s l k : ~ In k (map key l) -> map_find k (key_map key b s l) = None.
Proof.
  revert s. induction l as [|x l IH]; intros s Hk; [done|]. rewrite key_map_cons. unfold map_find.
  cbn [List.find fst]. rewrite bool_decide_eq_false_2 by (intros E; apply Hk; by left).
  apply IH. intros ?. apply Hk. by right.
Qed.

Lemma map_find_app (k : K) (m m' : list (K * ref)) r :
  map_find k m = Some r -> map_find k (m ++ m') = Some r.
Proof.
  unfold map_find. induction m as [|[k' r'] m IH]; [done|]. cbn [app List.find].
  by destruct (bool_decide _).
Qed.

Lemma emplace_new b s l e :
  ~ In (key e) (map key l) ->
  map_emplace (key e) (b, (s + length l)%nat) (key_map key b s l) = key_map key b s (l ++ [e]).
Proof. intros H. unfold map_emplace. by rewrite map_find_out, key_map_snoc. Qed.
End keys.

(** The table as the constructor leaves it. *)
Definition base_lookup (l : list capability_table) (n : nat) : capability_lookup :=
  {| cap_table := l; capacity := n; block := 0; name_cap_map := key_map name 0 0 l;
     int_cap_map := key_map cap 0 0 l |}.

Lemma new_lookup_eq grow base :
  NoDup (map name base) -> NoDup (map cap base) ->
  new_capability_lookup grow base = base_lookup base (length base).
Proof.
  intros Hn Hc. unfold new_capability_lookup.
  assert (H : forall l done_, (length (done_ ++ l) <= length base)%nat ->
    NoDup (map name (done_ ++ l)) -> NoDup (map cap (done_ ++ l)) ->
    fold_left (add_capability_table_entry_raw grow) l (base_lookup done_ (length base)) =
    base_lookup (done_ ++ l) (length base)).
  { induction l as [|e l IH]; intros done_ Hlen H1 H2; [by rewrite app_nil_r|]. cbn [fold_left].
    assert (Hadd : add_capability_table_entry_raw grow (base_lookup done_ (length base)) e =
      base_lookup (done_ ++ [e]) (length base)).
    { unfold add_capability_table_entry_raw, base_lookup.
      cbn [cap_table capacity block name_cap_map int_cap_map]. rewrite length_app in Hlen. cbn [length] in Hlen.
      replace (_ <=? _)%nat with false by (symmetry; apply Nat.leb_gt; lia). f_equal.
      - apply (emplace_new name 0 0). rewrite map_app in H1. apply NoDup_ListNoDup in H1.
        cbn [map] in H1. apply NoDup_remove_2 in H1. intros ?. apply H1. apply in_or_app. by left.
      - apply (emplace_new cap 0 0). rewrite map_app in H2. apply NoDup_ListNoDup in H2.
        cbn [map] in H2. apply NoDup_remove_2 in H2. intros ?. apply H2. apply in_or_app. by left. }
    rewrite Hadd, IH by (rewrite <- app_assoc; done). by rewrite <- app_assoc. }
  apply (H base []); done.
Qed.

(** C33: The capability table: after construction every capability is found by its
    name and by its number, and no other name is; adding a flag to a known
    capability changes that capability only.  But the vector was reserved for
    exactly the built-in capabilities, so the first capability the kernel knows
    and the table does not moves it, and every lookup of a built-in capability
    then goes through a dangling reference. *)
Theorem capability_table_correct grow base :
  NoDup (map name base) -> NoDup (map cap base) ->
  let t := new_capability_lookup grow base in
  (forall e, In e base ->
     find_cap_entry_by_name t (name e) = Found e /\ find_cap_entry_by_num t (cap e) = Found e) /\
  (forall n, ~ In n (map name base) -> name_to_capability t n = Some (-1)) /\
  (forall e f, In e base -> Z.land (flags e) f = 0 ->
     exists t', capable_add_cap grow t (name e) (cap e) f = Some (t', FLAG_ADDED) /\
       find_cap_entry_by_name t' (name e) = Found (set_flags e (Z.lor (flags e) f)) /\
       forall e', In e' base -> name e' <> name e -> find_cap_entry_by_name t' (name e') = Found e') /\
  (forall n c f, ~ In n (map name base) ->
     exists t', capable_add_cap grow t n c f = Some (t', CAP_ADDED) /\
       forall e, In e base -> find_cap_entry_by_name t' (name e) = Dangling).
Proof.
  intros Hn Hc t. unfold t. rewrite new_lookup_eq by done. clear t.
  assert (Hat : forall e, In e base -> exists i, base !! i = Some e /\
    map_find (name e) (key_map name 0 0 base) = Some (0%nat, i)).
  { intros e He. apply list_elem_of_In, list_elem_of_lookup_1 in He as [i Hi]. exists i.
    split; [done|]. by apply (map_find_in name 0 0). }
  split_and!.
  - intros e He. destruct (Hat e He) as (i & Hi & Hf). split.
    + unfold find_cap_entry_by_name, look, follow. cbn [name_cap_map base_lookup block cap_table].
      rewrite Hf. cbn [fst snd Nat.eqb]. by rewrite Hi.
    + unfold find_cap_entry_by_num, look, follow. cbn [int_cap_map base_lookup block cap_table].
      rewrite (map_find_in cap 0 0 base i e Hc Hi). cbn [fst snd Nat.eqb Nat.add]. by rewrite Hi.
  - intros n Hno. unfold name_to_capability, find_cap_entry_by_name, look.
    cbn [name_cap_map base_lookup]. by rewrite (map_find_out name 0 0).
  - intros e f He Hfl. destruct (Hat e He) as (i & Hi & Hf). unfold capable_add_cap, follow.
    cbn [name_cap_map base_lookup block cap_table]. rewrite Hf. cbn [fst snd Nat.eqb]. rewrite Hi.
    rewrite Z.eqb_refl, Hfl. cbn [negb Z.eqb]. eexists. split; [reflexivity|].
    unfold find_cap_entry_by_name, look, follow, store_flags.
    cbn [name_cap_map base_lookup block cap_table snd]. rewrite Hf. cbn [fst snd Nat.eqb].
    rewrite list_lookup_alter_eq, Hi. split; [done|]. intros e' He' Hne.
    destruct (Hat e' He') as (j & Hj & Hfj). rewrite Hfj. cbn [fst snd Nat.eqb].
    rewrite list_lookup_alter_ne; [by rewrite Hj|]. intros ->. rewrite Hi in Hj. congruence.
  - intros n c f Hno. unfold capable_add_cap. cbn [name_cap_map base_lookup].
    rewrite (map_find_out name 0 0) by done. eexists. split; [reflexivity|]. intros e He.
    destruct (Hat e He) as (i & Hi & Hf).
    unfold add_capability_table_entry_raw, find_cap_entry_by_name, look, follow.
    cbn [name_cap_map base_lookup block cap_table capacity name]. rewrite Nat.leb_refl.
    unfold map_emplace. rewrite (map_find_out name 0 0) by done.
    rewrite (map_find_app _ _ _ _ Hf). done.
Qed.

Lemma capability_table_correct_witness :
  let base := [ {| name := $"chown"; cap := 0; backmap := 255; flags := 1 |};
                {| name := $"kill"; cap := 5; backmap := 255; flags := 1 |} ] in
  let t := new_capability_lookup (fun n => (2 * n)%nat) base in
  name_to_capability t $"sys_new" = Some (-1) /\
  exists t', capable_add_cap (fun n => (2 * n)%nat) t $"sys_new" 41 2 = Some (t', CAP_ADDED) /\
    name_to_capability t' $"kill" = None.
Proof.
  intros base t.
  assert (Hn : NoDup (map name base))
    by (apply NoDup_ListNoDup; repeat (constructor; [simpl; intuition discriminate|]); constructor).
  assert (Hc : NoDup (map cap base))
    by (apply NoDup_ListNoDup; repeat (constructor; [simpl; intuition discriminate|]); constructor).
  destruct (capability_table_correct (fun n => (2 * n)%nat) base Hn Hc) as (_ & H2 & _ & H4).
  split; [apply H2; simpl; intuition discriminate|].
  destruct (H4 $"sys_new" 41 2) as (t' & H & Hd); [simpl; intuition discriminate|].
  exists t'. split; [exact H|]. unfold name_to_capability.
  pose proof (Hd {| name := $"kill"; cap := 5; backmap := 255; flags := 1 |}) as Hk. cbn [name] in Hk.
  rewrite Hk; [reflexivity|right; left; reflexivity].
Defined.
