(* ===== verification/Sha256.v ===== *)
(** The digest that validates entries of the DFA cache
    ([sha256_*] of [parser/parser_regex.c]), the interface an incremental digest
    promises to its clients, and its two instances. *)

From S2P Require Import Prelude.
From S2P Require Import Murmur.

(** ** The code *)

Record sha256_ctx := { sha_state : list Z; sha_count : Z; sha_buf : list Z }.

(** The table of constants, one number per line of the source: the four words of
    the line one after the other. *)
Definition words_of_line (line : Z) : list Z :=
  [line / 2 ^ 96; line / 2 ^ 64 mod 2 ^ 32; line / 2 ^ 32 mod 2 ^ 32; line mod 2 ^ 32].
Definition sha256_k : list Z := Eval cbv in concat (map words_of_line [
  0x428a2f9871374491b5c0fbcfe9b5dba5;
  0x3956c25b59f111f1923f82a4ab1c5ed5;
  0xd807aa9812835b01243185be550c7dc3;
  0x72be5d7480deb1fe9bdc06a7c19bf174;
  0xe49b69c1efbe47860fc19dc6240ca1cc;
  0x2de92c6f4a7484aa5cb0a9dc76f988da;
  0x983e5152a831c66db00327c8bf597fc7;
  0xc6e00bf3d5a7914706ca635114292967;
  0x27b70a852e1b21384d2c6dfc53380d13;
  0x650a7354766a0abb81c2c92e92722c85;
  0xa2bfe8a1a81a664bc24b8b70c76c51a3;
  0xd192e819d6990624f40e3585106aa070;
  0x19a4c1161e376c082748774c34b0bcb5;
  0x391c0cb34ed8aa4a5b9cca4f682e6ff3;
  0x748f82ee78a5636f84c878148cc70208;
  0x90befffaa4506cebbef9a3f7c67178f2
]).

Definition sha256_rotr (x n : Z) : Z := Z.lor (Z.shiftr x n) (u32 (Z.shiftl x (32 - n))).

(** The first sixteen words of the schedule, big-endian. *)
Definition schedule_word (block : list Z) (i : nat) : Z :=
  Z.lor (Z.lor (Z.lor (u32 (Z.shiftl (nth (4 * i) block 0) 24))
                      (Z.shiftl (nth (4 * i + 1) block 0) 16))
               (Z.shiftl (nth (4 * i + 2) block 0) 8))
        (nth (4 * i + 3) block 0).

(** One turn of the loop that extends [w]. *)
Definition schedule_step (w : list Z) (i : nat) : list Z :=
  let s0 := Z.lxor (Z.lxor (sha256_rotr (nth (i - 15) w 0) 7) (sha256_rotr (nth (i - 15) w 0) 18))
                   (Z.shiftr (nth (i - 15) w 0) 3) in
  let s1 := Z.lxor (Z.lxor (sha256_rotr (nth (i - 2) w 0) 17) (sha256_rotr (nth (i - 2) w 0) 19))
                   (Z.shiftr (nth (i - 2) w 0) 2) in
  w ++ [u32 (nth (i - 16) w 0 + s0 + nth (i - 7) w 0 + s1)].

Definition sha256_schedule (block : list Z) : list Z :=
  fold_left schedule_step (seq 16 48) (map (schedule_word block) (seq 0 16)).

(** The working variables [a] to [h]. *)
Record vars := { va : Z; vb : Z; vc : Z; vd : Z; ve : Z; vf : Z; vg : Z; vh : Z }.

Definition sha256_round (w : list Z) (v : vars) (i : nat) : vars :=
  let '{| va := a; vb := b; vc := c; vd := d; ve := e; vf := f; vg := g; vh := h |} := v in
  let t1 := u32 (h + Z.lxor (Z.lxor (sha256_rotr e 6) (sha256_rotr e 11)) (sha256_rotr e 25) +
                 Z.lxor (Z.land e f) (Z.land (not32 e) g) + nth i sha256_k 0 + nth i w 0) in
  let t2 := u32 (Z.lxor (Z.lxor (sha256_rotr a 2) (sha256_rotr a 13)) (sha256_rotr a 22) +
                 Z.lxor (Z.lxor (Z.land a b) (Z.land a c)) (Z.land b c)) in
  {| va := u32 (t1 + t2); vb := a; vc := b; vd := c; ve := u32 (d + t1); vf := e; vg := f; vh := g |}.

Definition load_vars (state : list Z) : vars :=
  {| va := nth 0 state 0; vb := nth 1 state 0; vc := nth 2 state 0; vd := nth 3 state 0;
     ve := nth 4 state 0; vf := nth 5 state 0; vg := nth 6 state 0; vh := nth 7 state 0 |}.
Definition list_vars (v : vars) : list Z := [va v; vb v; vc v; vd v; ve v; vf v; vg v; vh v].

Definition sha256_transform (state block : list Z) : list Z :=
  let w := sha256_schedule block in
  let v := fold_left (sha256_round w) (seq 0 64) (load_vars state) in
  zip_with (fun s x => u32 (s + x)) state (list_vars v).

Definition sha256_iv : list Z :=
  [0x6a09e667; 0xbb67ae85; 0x3c6ef372; 0xa54ff53a; 0x510e527f; 0x9b05688c; 0x1f83d9ab; 0x5be0cd19].

(** The buffer keeps what was in memory. *)
Definition sha256_init (ctx : sha256_ctx) : sha256_ctx :=
  {| sha_state := sha256_iv; sha_count := 0; sha_buf := sha_buf ctx |}.

(** [memcpy (buf + off, p, length p)] *)
Definition memcpy_at (buf : list Z) (off : nat) (p : list Z) : list Z :=
  take off buf ++ p ++ drop (off + length p) buf.

(** The loop over whole blocks of the data. *)
Fixpoint update_blocks (fuel : nat) (state p : list Z) : list Z * list Z :=
  match fuel with
  | O => (state, p)
  | S fuel =>
      if (64 <=? length p)%nat
      then update_blocks fuel (sha256_transform state (take 64 p)) (drop 64 p)
      else (state, p)
  end.

Definition sha256_update (ctx : sha256_ctx) (p : list Z) : sha256_ctx :=
  let buffered := Z.to_nat (sha_count ctx mod 64) in
  let count := u64 (sha_count ctx + Z.of_nat (length p)) in
  let '(state, buf, p, buffered) :=
    if negb (buffered =? 0)%nat && (64 <=? buffered + length p)%nat then
      let fill := (64 - buffered)%nat in
      let buf := memcpy_at (sha_buf ctx) buffered (take fill p) in
      (sha256_transform (sha_state ctx) buf, buf, drop fill p, 0%nat)
    else (sha_state ctx, sha_buf ctx, p, buffered) in
  let '(state, p) := update_blocks (length p) state p in
  let buf := if (0 <? length p)%nat then memcpy_at buf buffered p else buf in
  {| sha_state := state; sha_count := count; sha_buf := buf |}.

(** The eight bytes of the bit count, and the bytes of a word, big-endian. *)
Definition be_bytes (n : nat) (x : Z) : list Z :=
  map (fun i => u8 (Z.shiftr x (8 * Z.of_nat (n - 1 - i)))) (seq 0 n).

Definition sha256_final (ctx : sha256_ctx) : list Z :=
  let bits := u64 (sha_count ctx * 8) in
  let buffered := Z.to_nat (sha_count ctx mod 64) in
  let buf := memcpy_at (sha_buf ctx) buffered [0x80] in
  let buffered := S buffered in
  let '(state, buf, buffered) :=
    if (56 <? buffered)%nat then
      let buf := memcpy_at buf buffered (repeat 0 (64 - buffered)) in
      (sha256_transform (sha_state ctx) buf, buf, 0%nat)
    else (sha_state ctx, buf, buffered) in
  let buf := memcpy_at buf buffered (repeat 0 (56 - buffered)) in
  let buf := memcpy_at buf 56 (be_bytes 8 bits) in
  let state := sha256_transform state buf in
  concat (map (be_bytes 4) (take 8 state)).

(** ** Reference: FIPS 180-4 with the right shift of sigma1 as a parameter *)

(** [ROTR] on words, as arithmetic. *)
Definition rotr (x n : Z) : Z := x / 2 ^ n + (x mod 2 ^ n) * 2 ^ (32 - n).

Section Reference.
Context (shr : Z).

Definition sigma0 (x : Z) : Z := Z.lxor (Z.lxor (rotr x 7) (rotr x 18)) (x / 2 ^ 3).
Definition sigma1 (x : Z) : Z := Z.lxor (Z.lxor (rotr x 17) (rotr x 19)) (x / 2 ^ shr).
Definition Sigma0 (x : Z) : Z := Z.lxor (Z.lxor (rotr x 2) (rotr x 13)) (rotr x 22).
Definition Sigma1 (x : Z) : Z := Z.lxor (Z.lxor (rotr x 6) (rotr x 11)) (rotr x 25).
Definition Ch (x y z : Z) : Z := Z.lxor (Z.land x y) (Z.land (not32 x) z).
Definition Maj (x y z : Z) : Z := Z.lxor (Z.lxor (Z.land x y) (Z.land x z)) (Z.land y z).

(** The value of bytes read big-endian. *)
Definition be (bytes : list Z) : Z := fold_left (fun acc b => 256 * acc + b) bytes 0.

(** The last sixteen words, latest first, are what the schedule needs. *)
Definition next_word (latest : list Z) : Z :=
  (sigma1 (nth 1 latest 0) + nth 6 latest 0 + sigma0 (nth 14 latest 0) + nth 15 latest 0) mod 2 ^ 32.

Fixpoint extend (n : nat) (latest : list Z) : list Z :=
  match n with O => latest | S n => extend n (next_word latest :: latest) end.

Definition words (block : list Z) : list Z :=
  map (fun i => be (take 4 (drop (4 * i) block))) (seq 0 16).
Definition schedule (block : list Z) : list Z := rev (extend 48 (rev (words block))).

Definition round (v : vars) (kw : Z * Z) : vars :=
  let T1 := (vh v + Sigma1 (ve v) + Ch (ve v) (vf v) (vg v) + kw.1 + kw.2) mod 2 ^ 32 in
  let T2 := (Sigma0 (va v) + Maj (va v) (vb v) (vc v)) mod 2 ^ 32 in
  {| va := (T1 + T2) mod 2 ^ 32; vb := va v; vc := vb v; vd := vc v;
     ve := (vd v + T1) mod 2 ^ 32; vf := ve v; vg := vf v; vh := vg v |}.

Definition compress (H block : list Z) : list Z :=
  zip_with (fun x y => (x + y) mod 2 ^ 32) H
    (list_vars (fold_left round (combine sha256_k (schedule block)) (load_vars H))).

Fixpoint hash_blocks (n : nat) (m H : list Z) : list Z :=
  match n with O => H | S n => hash_blocks n (drop 64 m) (compress H (take 64 m)) end.

(** A one bit, zeros and the length in bits, to a whole number of blocks. *)
Definition padding (len : nat) : list Z :=
  [0x80] ++ repeat 0 (Z.to_nat ((55 - Z.of_nat len) mod 64)) ++ be_bytes 8 (8 * Z.of_nat len).

Definition sha2 (m : list Z) : list Z :=
  let m' := m ++ padding (length m) in
  concat (map (be_bytes 4) (hash_blocks (length m' / 64) m' sha256_iv)).
End Reference.

(** SHA-256 itself. *)
Definition fips_sha256 : list Z -> list Z := sha2 10.

Definition bytes_of (s : cstr) : list Z := map code s.
Definition start : sha256_ctx := {| sha_state := []; sha_count := 0; sha_buf := repeat 0 64 |}.

Example fips_empty :
  be (fips_sha256 []) = 0xe3b0c44298fc1c149afbf4c8996fb92427ae41e4649b934ca495991b7852b855.
Proof. vm_compute. reflexivity. Qed.

(** ** The block function is the reference's with a shift of two *)

Definition is_word (x : Z) : Prop := 0 <= x < 2 ^ 32.

Lemma u32_word x : is_word (u32 x).
Proof. apply wrap_range. lia. Qed.
#[export] Hint Resolve u32_word : aa.

Lemma sha256_rotr_spec x n : is_word x -> 0 < n < 32 -> sha256_rotr x n = rotr x n.
Proof.
  intros Hx Hn. unfold sha256_rotr, rotr, u32, wrap, is_word in *.
  assert (E : 2 ^ 32 = 2 ^ n * 2 ^ (32 - n)) by (rewrite <- Z.pow_add_r by lia; f_equal; lia).
  rewrite Z.shiftr_div_pow2, Z.shiftl_mul_pow2 by lia.
  assert (0 < 2 ^ n /\ 0 < 2 ^ (32 - n)) as [H1 H2] by lia.
  rewrite E at 1. rewrite Z.mul_mod_distr_r by lia. rewrite <- Z.shiftl_mul_pow2 at 1 by lia.
  apply lor_shiftl_add; [lia|]. split; [apply Z.div_pos; lia|].
  apply Z.div_lt_upper_bound; lia.
Qed.

Lemma schedule_word_spec block i :
  length block = 64%nat -> Forall is_byte block -> (i < 16)%nat ->
  schedule_word block i = be (take 4 (drop (4 * i) block)) /\ is_word (schedule_word block i).
Proof.
  intros Hlen Hb Hi. unfold schedule_word.
  assert (Hd : (4 <= length (drop (4 * i) block))%nat) by (rewrite length_drop; lia).
  assert (Hbd : Forall is_byte (drop (4 * i) block)) by by apply Forall_drop.
  assert (Hn : forall k, nth (4 * i + k) block 0 = nth k (drop (4 * i) block) 0).
  { intros k. rewrite <- (take_drop (4 * i) block) at 1. rewrite app_nth2; rewrite length_take_le by lia; [|lia].
    f_equal. lia. }
  pose proof (Hn 0%nat) as Hn0. rewrite Nat.add_0_r in Hn0. rewrite Hn0, !Hn. clear Hn Hn0.
  destruct (drop (4 * i) block) as [|b0 [|b1 [|b2 [|b3 rest]]]]; simpl in Hd; try lia.
  repeat (apply Forall_cons in Hbd; destruct Hbd as [? Hbd]). unfold is_byte, is_word in *.
  cbn [nth take be fold_left].
  unfold u32. rewrite wrap_small by (rewrite Z.shiftl_mul_pow2; lia).
  rewrite <- !Z.lor_assoc. rewrite (Z.lor_comm (Z.shiftl b0 24)).
  assert (E3 : Z.lor (Z.shiftl b2 8) b3 = b3 + b2 * 2 ^ 8)
    by (rewrite Z.lor_comm; apply lor_shiftl_add; lia).
  rewrite E3. rewrite (Z.lor_comm (Z.shiftl b1 16)), (lor_shiftl_add _ b1 16), lor_shiftl_add by lia.
  unfold be. cbn [fold_left]. change (take 0 rest) with (@nil Z). cbn [fold_left]. split; lia.
Qed.

Lemma schedule_step_spec w :
  (16 <= length w)%nat -> Forall is_word w ->
  schedule_step w (length w) = rev (next_word 2 (rev w) :: rev w) /\
  Forall is_word (schedule_step w (length w)).
Proof.
  intros Hlen Hw. unfold schedule_step, next_word.
  assert (Hn : forall k, (k < 16)%nat -> nth k (rev w) 0 = nth (length w - S k) w 0)
    by (intros k Hk; apply rev_nth; lia).
  rewrite !Hn by lia. unfold sigma0, sigma1.
  assert (Hr : forall k, is_word (nth k w 0)).
  { intros k. destruct (nth_in_or_default k w 0) as [H| ->]; [|unfold is_word; lia].
    rewrite Forall_forall in Hw. apply Hw. by apply list_elem_of_In. }
  rewrite !sha256_rotr_spec by (try apply Hr; lia). rewrite !Z.shiftr_div_pow2 by lia. cbn [rev].
  rewrite rev_involutive. split.
  - f_equal. f_equal. unfold u32, wrap. f_equal. lia.
  - auto with aa.
Qed.

Lemma schedule_loop n w :
  (16 <= length w)%nat -> Forall is_word w ->
  fold_left schedule_step (seq (length w) n) w = rev (extend 2 n (rev w)) /\
  Forall is_word (fold_left schedule_step (seq (length w) n) w) /\
  length (fold_left schedule_step (seq (length w) n) w) = (length w + n)%nat.
Proof.
  revert w. induction n as [|n IH]; intros w Hlen Hw; cbn [seq fold_left extend].
  - rewrite rev_involutive. split_and!; [done|done|lia].
  - destruct (schedule_step_spec w Hlen Hw) as [E Hs].
    assert (Hl : length (schedule_step w (length w)) = S (length w))
      by (unfold schedule_step; rewrite length_app; simpl; lia).
    rewrite <- Hl. destruct (IH (schedule_step w (length w))) as (E' & Hf & Hl'); [lia|done|].
    split_and!; [|done|lia]. rewrite E'. do 2 f_equal. rewrite E. apply rev_involutive.
Qed.

Lemma sha256_schedule_spec block :
  length block = 64%nat -> Forall is_byte block ->
  sha256_schedule block = schedule 2 block /\ Forall is_word (sha256_schedule block) /\
  length (sha256_schedule block) = 64%nat.
Proof.
  intros Hlen Hb. unfold sha256_schedule, schedule.
  assert (E : map (schedule_word block) (seq 0 16) = words block).
  { unfold words. apply map_ext_in. intros i Hi%in_seq. apply schedule_word_spec; [done|done|lia]. }
  assert (Hw : Forall is_word (map (schedule_word block) (seq 0 16))).
  { apply Forall_forall. intros x (i & <- & Hi%in_seq)%list_elem_of_In%in_map_iff.
    apply schedule_word_spec; [done|done|lia]. }
  destruct (schedule_loop 48 (map (schedule_word block) (seq 0 16))) as (E' & Hf & Hl);
    [rewrite length_map, length_seq; lia|done|].
  rewrite length_map, length_seq in E', Hf, Hl. rewrite E in E', Hf, Hl. rewrite E.
  split; [exact E'|split; [exact Hf|exact Hl]].
Qed.

Definition vars_ok (v : vars) : Prop := Forall is_word (list_vars v).

Lemma sha256_round_spec w v i :
  vars_ok v ->
  sha256_round w v i = round v (nth i sha256_k 0, nth i w 0) /\ vars_ok (sha256_round w v i).
Proof.
  intros Hv. destruct v as [a b c d e f g h].
  unfold vars_ok, list_vars in Hv. cbn [va vb vc vd ve vf vg vh] in Hv.
  repeat (apply Forall_cons in Hv; destruct Hv as [? Hv]).
  unfold sha256_round, round, Sigma0, Sigma1, Ch, Maj. cbn [va vb vc vd ve vf vg vh fst snd].
  rewrite !sha256_rotr_spec by (done || lia). split; [done|].
  unfold vars_ok, list_vars. cbn [va vb vc vd ve vf vg vh]. auto 10 with aa.
Qed.

Lemma sha256_rounds_spec w il v :
  vars_ok v ->
  fold_left (sha256_round w) il v = fold_left round (map (fun i => (nth i sha256_k 0, nth i w 0)) il) v /\
  vars_ok (fold_left (sha256_round w) il v).
Proof.
  revert v. induction il as [|i il IH]; intros v Hv; [done|]. cbn [map fold_left].
  destruct (sha256_round_spec w v i Hv) as [<- Hv']. by apply IH.
Qed.

Lemma combine_nth_seq (a b : list Z) :
  length a = length b -> combine a b = map (fun i => (nth i a 0, nth i b 0)) (seq 0 (length a)).
Proof.
  revert b. induction a as [|x a IH]; intros [|y b] H; try done. cbn [combine length seq map]. f_equal.
  rewrite <- seq_shift, map_map. simpl in H. rewrite IH by lia. done.
Qed.

Lemma load_vars_ok H : Forall is_word H -> vars_ok (load_vars H).
Proof.
  intros HH. assert (Hr : forall k, is_word (nth k H 0)).
  { intros k. destruct (nth_in_or_default k H 0) as [Hi| ->]; [|unfold is_word; lia].
    rewrite Forall_forall in HH. apply HH. by apply list_elem_of_In. }
  unfold vars_ok, list_vars, load_vars. cbn [va vb vc vd ve vf vg vh].
  auto 10 with aa.
Qed.

Definition state_ok (H : list Z) : Prop := Forall is_word H /\ length H = 8%nat.

Lemma sha256_transform_spec H block :
  state_ok H -> length block = 64%nat -> Forall is_byte block ->
  sha256_transform H block = compress 2 H block /\ state_ok (sha256_transform H block).
Proof.
  intros [HH HH8] Hlen Hb. unfold sha256_transform, compress.
  destruct (sha256_schedule_spec block Hlen Hb) as (E & _ & Hl).
  destruct (sha256_rounds_spec (sha256_schedule block) (seq 0 64) _ (load_vars_ok H HH)) as [E' _].
  rewrite <- E, (combine_nth_seq sha256_k) by (by rewrite Hl).
  change (length sha256_k) with 64%nat. rewrite <- E'. split; [done|].
  split; [|by rewrite length_zip_with, HH8].
  apply Forall_forall. intros x Hx. apply elem_of_lookup_zip_with in Hx as (i & s & y & -> & _).
  apply u32_word.
Qed.

Lemma sha256_iv_ok : state_ok sha256_iv.
Proof.
  split; [|done]. unfold sha256_iv, is_word.
  repeat (apply Forall_cons_2; [lia|]). apply Forall_nil_2.
Qed.

(** ** Feeding a message in pieces *)

Lemma hash_blocks_app shr n k a b H :
  length a = (64 * n)%nat ->
  hash_blocks shr (n + k) (a ++ b) H = hash_blocks shr k b (hash_blocks shr n a H).
Proof.
  revert a H. induction n as [|n IH]; intros a H Ha.
  - by destruct a; [|simpl in Ha; lia].
  - cbn [Nat.add hash_blocks]. rewrite take_app_le, drop_app_le by lia. apply IH.
    rewrite length_drop. lia.
Qed.

Lemma compress_ok H block :
  state_ok H -> length block = 64%nat -> Forall is_byte block -> state_ok (compress 2 H block).
Proof. intros HH Hl Hb. destruct (sha256_transform_spec H block HH Hl Hb) as [<- ?]. done. Qed.

Lemma hash_blocks_ok n m H :
  state_ok H -> Forall is_byte m -> (64 * n <= length m)%nat -> state_ok (hash_blocks 2 n m H).
Proof.
  revert m H. induction n as [|n IH]; intros m H HH Hm Hl; [done|]. cbn [hash_blocks]. apply IH.
  - apply compress_ok; [done|apply length_take_le; lia|by apply Forall_take].
  - by apply Forall_drop.
  - rewrite length_drop. lia.
Qed.

Lemma take_memcpy buf off p :
  (off + length p <= length buf)%nat -> take (off + length p) (memcpy_at buf off p) = take off buf ++ p.
Proof.
  intros H. unfold memcpy_at. rewrite app_assoc. apply take_app_length'.
  rewrite length_app, length_take_le by lia. done.
Qed.

Lemma memcpy_length buf off p :
  (off + length p <= length buf)%nat -> length (memcpy_at buf off p) = length buf.
Proof. intros H. unfold memcpy_at. rewrite !length_app, length_take_le, length_drop by lia. lia. Qed.

Lemma memcpy_full buf off p :
  (off + length p)%nat = length buf -> memcpy_at buf off p = take off buf ++ p.
Proof. intros H. unfold memcpy_at. rewrite drop_ge, app_nil_r by lia. done. Qed.

Lemma update_blocks_spec fuel H p :
  (length p <= fuel)%nat -> state_ok H -> Forall is_byte p ->
  update_blocks fuel H p = (hash_blocks 2 (length p / 64) p H, drop (64 * (length p / 64)) p).
Proof.
  revert H p. induction fuel as [|fuel IH]; intros H p Hf HH Hp.
  - destruct p; [done|simpl in Hf; lia].
  - cbn [update_blocks]. destruct (64 <=? length p)%nat eqn:E; breflect.
    + assert (Hd : (length p / 64 = S (length (drop 64 p) / 64))%nat).
      { rewrite length_drop. replace (length p) with (1 * 64 + (length p - 64))%nat at 1 by lia.
        by rewrite Nat.div_add_l by lia. }
      assert (Ht : length (take 64 p) = 64%nat) by (apply length_take_le; lia).
      assert (Hb : Forall is_byte (take 64 p)) by by apply Forall_take.
      destruct (sha256_transform_spec H (take 64 p) HH Ht Hb) as [E' Hok].
      rewrite IH; [|rewrite length_drop; lia|done|by apply Forall_drop].
      rewrite Hd. cbn [hash_blocks]. rewrite E', drop_drop. f_equal. f_equal. lia.
    + by rewrite Nat.div_small by lia.
Qed.

(** What a context stands for: the blocks of the message are in the state, the
    rest of it at the start of the buffer. *)
Record rep (ctx : sha256_ctx) (m : list Z) : Prop := {
  rep_count : sha_count ctx = u64 (Z.of_nat (length m));
  rep_bytes : Forall is_byte m;
  rep_buf : length (sha_buf ctx) = 64%nat;
  rep_state : sha_state ctx = hash_blocks 2 (length m / 64) m sha256_iv;
  rep_tail : take (length m mod 64) (sha_buf ctx) = drop (64 * (length m / 64)) m
}.

Lemma buffered_spec n : Z.to_nat (u64 (Z.of_nat n) mod 64) = (n mod 64)%nat.
Proof.
  unfold u64, wrap. rewrite Z.mod_mod_divide by (by exists (2 ^ 58)).
  change 64 with (Z.of_nat 64). by rewrite <- Nat2Z.inj_mod, Nat2Z.id.
Qed.

Lemma rep_state_ok ctx m : rep ctx m -> state_ok (sha_state ctx).
Proof.
  intros [_ Hb _ -> _]. apply hash_blocks_ok; [apply sha256_iv_ok|done|].
  apply Nat.Div0.mul_div_le.
Qed.

(** The message is the hashed blocks and the tail, and more data only concerns
    the tail. *)
Lemma rep_split m p :
  let tail := drop (64 * (length m / 64)) m in
  length tail = (length m mod 64)%nat /\
  (length (m ++ p) mod 64 = length (tail ++ p) mod 64)%nat /\
  hash_blocks 2 (length (m ++ p) / 64) (m ++ p) sha256_iv =
    hash_blocks 2 (length (tail ++ p) / 64) (tail ++ p) (hash_blocks 2 (length m / 64) m sha256_iv) /\
  drop (64 * (length (m ++ p) / 64)) (m ++ p) = drop (64 * (length (tail ++ p) / 64)) (tail ++ p).
Proof.
  set (q := (length m / 64)%nat). intros tail.
  pose proof (Nat.div_mod_eq (length m) 64) as Hdm. fold q in Hdm.
  pose proof (Nat.mod_upper_bound (length m) 64 ltac:(lia)) as Hr.
  assert (Hq : (64 * q <= length m)%nat) by lia.
  assert (Ht : length tail = (length m mod 64)%nat) by (unfold tail; rewrite length_drop; lia).
  assert (Hm : m ++ p = take (64 * q) m ++ tail ++ p) by (unfold tail; by rewrite app_assoc, take_drop).
  assert (Hl : length (m ++ p) = (length (tail ++ p) + q * 64)%nat) by (rewrite !length_app; lia).
  assert (Hd : (length (m ++ p) / 64 = q + length (tail ++ p) / 64)%nat)
    by (rewrite Hl, Nat.div_add by lia; lia).
  assert (Hpre : length (take (64 * q) m) = (64 * q)%nat) by (apply length_take_le; lia).
  split_and!; [done|by rewrite Hl, Nat.Div0.mod_add| |].
  - rewrite Hd, Hm, hash_blocks_app by done. f_equal.
    rewrite <- (take_drop (64 * q) m) at 2. rewrite <- (Nat.add_0_r q) at 3.
    by rewrite hash_blocks_app.
  - rewrite Hd, Hm, Nat.mul_add_distr_l, drop_app, Hpre, (drop_ge (take _ _)) by lia.
    cbn [app]. f_equal. lia.
Qed.

(** The data with the tail before it, once the buffer has been completed. *)
Lemma fill_split (tail p : list Z) :
  (0 < length tail < 64)%nat -> (64 <= length tail + length p)%nat ->
  let fill := (64 - length tail)%nat in
  length (tail ++ take fill p) = 64%nat /\
  (length (tail ++ p) / 64 = 1 + length (drop fill p) / 64)%nat /\
  forall H, hash_blocks 2 (length (tail ++ p) / 64) (tail ++ p) H =
    hash_blocks 2 (length (drop fill p) / 64) (drop fill p) (compress 2 H (tail ++ take fill p)).
Proof.
  intros Ht Hl fill.
  assert (Hb : length (tail ++ take fill p) = 64%nat) by (rewrite length_app, length_take_le; lia).
  assert (Hd : (length (tail ++ p) / 64 = 1 + length (drop fill p) / 64)%nat).
  { rewrite <- Nat.div_add_l by lia. f_equal. rewrite length_app, length_drop. lia. }
  split_and!; [done|done|]. intros H. rewrite Hd. rewrite <- (take_drop fill p) at 2.
  rewrite app_assoc, hash_blocks_app by done. cbn [hash_blocks].
  rewrite take_ge by lia. done.
Qed.

Lemma leftover_length (p : list Z) : length (drop (64 * (length p / 64)) p) = (length p mod 64)%nat.
Proof. rewrite length_drop. pose proof (Nat.div_mod_eq (length p) 64). lia. Qed.

Lemma leftover_copy buf off p :
  (off + length p <= length buf)%nat ->
  take (off + length p) (if (0 <? length p)%nat then memcpy_at buf off p else buf) = take off buf ++ p /\
  length (if (0 <? length p)%nat then memcpy_at buf off p else buf) = length buf.
Proof.
  intros H. destruct (0 <? length p)%nat eqn:E; breflect.
  - split; [by apply take_memcpy|by apply memcpy_length].
  - destruct p; [|simpl in E; lia]. rewrite app_nil_r. by rewrite Nat.add_0_r.
Qed.

(** It is enough to account for the tail and the new data. *)
Lemma rep_extend ctx m p H buf rest :
  rep ctx m -> Forall is_byte p ->
  let tail := drop (64 * (length m / 64)) m in
  H = hash_blocks 2 (length (tail ++ p) / 64) (tail ++ p) (sha_state ctx) ->
  rest = drop (64 * (length (tail ++ p) / 64)) (tail ++ p) ->
  length buf = 64%nat -> take (length rest) buf = rest ->
  rep {| sha_state := H; sha_count := u64 (sha_count ctx + Z.of_nat (length p)); sha_buf := buf |} (m ++ p).
Proof.
  intros [Hc Hm Hbuf Hst Htl] Hp tail -> -> Hl Htake. destruct (rep_split m p) as (Ht & Hmod & Hh & Hdr).
  fold tail in Ht, Hmod, Hh, Hdr.
  split; cbn [sha_count sha_state sha_buf]; [|by apply Forall_app|done|by rewrite Hh, Hst|].
  - rewrite Hc, length_app, Nat2Z.inj_add. unfold u64, wrap. by rewrite Z.add_mod_idemp_l.
  - by rewrite Hmod, Hdr, <- leftover_length.
Qed.

Lemma rep_tail_length ctx m :
  rep ctx m -> length (drop (64 * (length m / 64)) m) = (length m mod 64)%nat /\ (length m mod 64 < 64)%nat.
Proof. split; [apply leftover_length|by apply Nat.mod_upper_bound]. Qed.

(** The data complete the buffer. *)
Lemma update_full_rep ctx m p :
  let tail := drop (64 * (length m / 64)) m in
  let fill := (64 - length tail)%nat in
  rep ctx m -> Forall is_byte p -> (0 < length tail)%nat -> (64 <= length tail + length p)%nat ->
  let buf := memcpy_at (sha_buf ctx) (length tail) (take fill p) in
  let '(state, rest) := update_blocks (length (drop fill p)) (sha256_transform (sha_state ctx) buf) (drop fill p) in
  rep {| sha_state := state; sha_count := u64 (sha_count ctx + Z.of_nat (length p));
         sha_buf := if (0 <? length rest)%nat then memcpy_at buf 0 rest else buf |} (m ++ p).
Proof.
  intros tail fill Hrep Hp Hpos Hlen buf. destruct (rep_tail_length _ _ Hrep) as [Ht Hr]. fold tail in Ht.
  destruct (fill_split tail p) as (Hl64 & Hdv & Hfs); [lia|lia|]. fold fill in Hl64, Hdv, Hfs.
  assert (Hbuf : buf = tail ++ take fill p).
  { unfold buf. rewrite memcpy_full by (rewrite length_take_le, (rep_buf _ _ Hrep); lia).
    by rewrite Ht, (rep_tail _ _ Hrep). }
  destruct (sha256_transform_spec (sha_state ctx) buf) as [Etr Hok];
    [by eapply rep_state_ok|by rewrite Hbuf| |].
  { pose proof (rep_bytes _ _ Hrep). rewrite Hbuf. unfold tail. auto with aa. }
  rewrite update_blocks_spec; [|lia|done|by apply Forall_drop].
  set (rest := drop _ (drop fill p)). pose proof (leftover_length (drop fill p)) as Hlo. fold rest in Hlo.
  pose proof (Nat.mod_upper_bound (length (drop fill p)) 64 ltac:(lia)).
  destruct (leftover_copy buf 0 rest) as [Hlc1 Hlc2]; [rewrite Hbuf; lia|].
  apply (rep_extend _ _ _ _ _ rest); [done|done| | |by rewrite Hlc2, Hbuf|done].
  - by rewrite Hfs, Etr, Hbuf.
  - fold tail. rewrite Hdv, Nat.mul_add_distr_l, <- drop_drop. unfold rest. f_equal.
    rewrite drop_app_ge by lia. done.
Qed.

(** They do not, or there is nothing in the buffer. *)
Lemma update_short_rep ctx m p :
  let tail := drop (64 * (length m / 64)) m in
  rep ctx m -> Forall is_byte p -> tail = [] \/ (length tail + length p < 64)%nat ->
  let '(state, rest) := update_blocks (length p) (sha_state ctx) p in
  rep {| sha_state := state; sha_count := u64 (sha_count ctx + Z.of_nat (length p));
         sha_buf := if (0 <? length rest)%nat then memcpy_at (sha_buf ctx) (length tail) rest
                    else sha_buf ctx |} (m ++ p).
Proof.
  intros tail Hrep Hp Hcase. destruct (rep_tail_length _ _ Hrep) as [Ht Hr]. fold tail in Ht.
  rewrite update_blocks_spec by (done || by eapply rep_state_ok).
  set (rest := drop _ p). pose proof (leftover_length p) as Hlo. fold rest in Hlo.
  pose proof (Nat.mod_upper_bound (length p) 64 ltac:(lia)).
  assert (Hend : drop (64 * (length (tail ++ p) / 64)) (tail ++ p) = tail ++ rest /\
    hash_blocks 2 (length (tail ++ p) / 64) (tail ++ p) (sha_state ctx) =
      hash_blocks 2 (length p / 64) p (sha_state ctx) /\ (length tail + length rest < 64)%nat).
  { destruct Hcase as [-> |Hlt]; [split_and!; [done|done|simpl; lia]|].
    unfold rest. rewrite length_app, !Nat.div_small, Nat.mul_0_r, !drop_0 by lia. by split_and!. }
  destruct Hend as (He1 & He2 & He3). pose proof (rep_buf _ _ Hrep) as Hb.
  destruct (leftover_copy (sha_buf ctx) (length tail) rest) as [Hlc1 Hlc2]; [lia|].
  apply (rep_extend _ _ _ _ _ (tail ++ rest)); [done|done|by fold tail|by fold tail|by rewrite Hlc2|].
  rewrite length_app, Hlc1, Ht. f_equal. apply (rep_tail _ _ Hrep).
Qed.

Lemma sha256_update_rep ctx m p :
  rep ctx m -> Forall is_byte p -> rep (sha256_update ctx p) (m ++ p).
Proof.
  intros Hrep Hp. pose proof (rep_tail_length _ _ Hrep) as [Ht _].
  set (tail := drop (64 * (length m / 64)) m) in *.
  assert (Hb : Z.to_nat (sha_count ctx mod 64) = length tail)
    by (by rewrite (rep_count _ _ Hrep), buffered_spec).
  unfold sha256_update. rewrite Hb.
  destruct (negb (length tail =? 0)%nat && (64 <=? length tail + length p)%nat) eqn:E.
  - apply andb_true_iff in E as [E1 E2]. breflect.
    pose proof (update_full_rep ctx m p Hrep Hp) as Hu. fold tail in Hu. specialize (Hu ltac:(lia) E2).
    revert Hu. cbv zeta. by destruct (update_blocks _ _ _).
  - pose proof (update_short_rep ctx m p Hrep Hp) as Hu. fold tail in Hu.
    assert (Hc : tail = [] \/ (length tail + length p < 64)%nat); [|specialize (Hu Hc); by destruct (update_blocks _ _ _)].
    apply andb_false_iff in E as [E|E]; breflect; [left; apply nil_length_inv; lia|right; lia].
Qed.

Lemma sha256_init_rep ctx : length (sha_buf ctx) = 64%nat -> rep (sha256_init ctx) [].
Proof. intros H. by split. Qed.

Lemma sha256_updates_rep pieces ctx m :
  rep ctx m -> Forall (Forall is_byte) pieces -> rep (fold_left sha256_update pieces ctx) (m ++ concat pieces).
Proof.
  revert ctx m. induction pieces as [|p pieces IH]; intros ctx m Hrep Hp; cbn [fold_left concat].
  - by rewrite app_nil_r.
  - apply Forall_cons in Hp as [Hp Hps]. rewrite app_assoc. apply IH; [by apply sha256_update_rep|done].
Qed.

Lemma be_bytes_length n x : length (be_bytes n x) = n.
Proof. unfold be_bytes. by rewrite length_map, length_seq. Qed.

Lemma be_bytes_is_byte n x : Forall is_byte (be_bytes n x).
Proof.
  unfold be_bytes. apply Forall_forall. intros b (i & <- & _)%list_elem_of_In%in_map_iff.
  apply (wrap_range 8). lia.
Qed.
#[export] Hint Resolve be_bytes_is_byte : aa.

(** Only the low bytes of the number are written. *)
Lemma be_bytes_wrap x : be_bytes 8 (u64 x) = be_bytes 8 x.
Proof.
  unfold be_bytes. apply map_ext_in. intros i Hi%in_seq. unfold u8, u64, wrap.
  rewrite !Z.shiftr_div_pow2 by lia. set (k := 8 * Z.of_nat (8 - 1 - i)).
  replace (2 ^ 64) with (2 ^ k * 2 ^ (64 - k)) by (rewrite <- Z.pow_add_r by lia; f_equal; lia).
  rewrite Z.rem_mul_r, (Z.mul_comm (2 ^ k) (_ mod _)), Z.div_add by lia.
  rewrite Z.div_small, Z.add_0_l by (apply Z.mod_pos_bound; lia).
  apply Z.mod_mod_divide. exists (2 ^ (56 - k)). change 256 with (2 ^ 8).
  rewrite <- Z.pow_add_r by lia. f_equal. lia.
Qed.

Lemma padding_length len : ((len + length (padding len)) mod 64 = 0)%nat.
Proof.
  unfold padding. rewrite !length_app, repeat_length, be_bytes_length. cbn [length].
  pose proof (Z.mod_pos_bound (55 - Z.of_nat len) 64 ltac:(lia)).
  apply Nat2Z.inj. rewrite Nat2Z.inj_mod, !Nat2Z.inj_add, Z2Nat.id by lia.
  replace (Z.of_nat len + (Z.of_nat 1 + ((55 - Z.of_nat len) mod 64 + Z.of_nat 8)))
    with ((55 - Z.of_nat len) mod 64 + (Z.of_nat len + 9)) by lia.
  change (Z.of_nat 64) with 64. rewrite Z.add_mod_idemp_l by lia.
  replace (55 - Z.of_nat len + (Z.of_nat len + 9)) with 64 by lia. done.
Qed.

(** The number of zeros, by the bytes that are in the buffer. *)
Lemma padding_zeros len :
  Z.to_nat ((55 - Z.of_nat len) mod 64) =
    if (56 <? S (len mod 64))%nat then (64 - S (len mod 64) + 56)%nat else (56 - S (len mod 64))%nat.
Proof.
  pose proof (Nat.mod_upper_bound len 64 ltac:(lia)) as Hr.
  pose proof (Nat.div_mod_eq len 64) as Hd. set (r := (len mod 64)%nat) in *. set (q := (len / 64)%nat) in *.
  destruct (56 <? S r)%nat eqn:E; breflect.
  - replace (55 - Z.of_nat len) with (119 - Z.of_nat r + (- Z.of_nat q - 1) * 64) by lia.
    rewrite Z.mod_add, Z.mod_small by lia. lia.
  - replace (55 - Z.of_nat len) with (55 - Z.of_nat r + (- Z.of_nat q) * 64) by lia.
    rewrite Z.mod_add, Z.mod_small by lia. lia.
Qed.

(** Writing the end of a block piece by piece. *)
Lemma block_end buf off zeros bits :
  length buf = 64%nat -> (off + length zeros = 56)%nat -> length bits = 8%nat ->
  memcpy_at (memcpy_at buf off zeros) 56 bits = take off buf ++ zeros ++ bits.
Proof.
  intros Hb Ho Hl. rewrite memcpy_full by (rewrite memcpy_length; lia).
  rewrite <- Ho at 1. rewrite take_memcpy by lia. by rewrite <- app_assoc.
Qed.

Lemma zeros_bytes n : Forall is_byte (repeat 0 n).
Proof. apply Forall_forall. intros x ->%list_elem_of_In%repeat_spec. unfold is_byte. lia. Qed.
#[export] Hint Resolve zeros_bytes : aa.

Lemma hash_one H b :
  state_ok H -> length b = 64%nat -> Forall is_byte b ->
  hash_blocks 2 1 b H = sha256_transform H b /\ state_ok (sha256_transform H b).
Proof.
  intros HH Hl Hb. cbn [hash_blocks]. rewrite take_ge by lia.
  by destruct (sha256_transform_spec H b) as [-> ?].
Qed.

(** The marker is put after the tail, and the bit count is the message's. *)
Lemma final_marker ctx m :
  rep ctx m ->
  let tl := drop (64 * (length m / 64)) m in
  let buf := memcpy_at (sha_buf ctx) (length tl) [0x80] in
  length buf = 64%nat /\ take (S (length tl)) buf = tl ++ [0x80] /\ Forall is_byte (tl ++ [0x80]) /\
  be_bytes 8 (u64 (sha_count ctx * 8)) = be_bytes 8 (8 * Z.of_nat (length m)).
Proof.
  intros Hrep tl buf. pose proof (rep_tail_length _ _ Hrep) as [Ht Hr]. fold tl in Ht.
  pose proof (rep_buf _ _ Hrep) as Hbuf. split_and!.
  - unfold buf. rewrite memcpy_length; simpl; lia.
  - unfold buf. rewrite <- Nat.add_1_r. change 1%nat with (length [0x80]) at 1.
    rewrite take_memcpy by (simpl; lia). by rewrite Ht, (rep_tail _ _ Hrep).
  - pose proof (rep_bytes _ _ Hrep). unfold tl. auto with aa.
  - rewrite (rep_count _ _ Hrep), <- (be_bytes_wrap (8 * _)). f_equal. unfold u64, wrap.
    rewrite Z.mul_mod_idemp_l by lia. f_equal. lia.
Qed.

(** The last one or two blocks are the tail and its padding. *)
Lemma sha256_final_blocks ctx m :
  rep ctx m ->
  let tail := drop (64 * (length m / 64)) m ++ padding (length m) in
  let last := hash_blocks 2 (length tail / 64) tail (sha_state ctx) in
  sha256_final ctx = concat (map (be_bytes 4) (take 8 last)) /\ state_ok last.
Proof.
  intros Hrep. pose proof (rep_tail_length _ _ Hrep) as [Ht Hr]. pose proof (rep_state_ok _ _ Hrep) as Hok.
  destruct (final_marker ctx m Hrep) as (Hbuf1 & Hb1 & Htb & Hbits).
  set (tl := drop _ m) in *. intros tail last.
  unfold sha256_final, last, tail, padding. clear last tail.
  rewrite Hbits, padding_zeros, <- Ht.
  rewrite (rep_count _ _ Hrep), buffered_spec, <- Ht.
  set (bits := be_bytes 8 _). assert (Hl8 : length bits = 8%nat) by apply be_bytes_length.
  assert (Hbb : Forall is_byte bits) by apply be_bytes_is_byte.
  set (buf1 := memcpy_at (sha_buf ctx) (length tl) [0x80]) in *. clear Hbits.
  destruct (56 <? S (length tl))%nat eqn:E; breflect.
  - rewrite repeat_app, <- app_assoc.
    set (b1 := memcpy_at buf1 (S (length tl)) (repeat 0 (64 - S (length tl)))).
    assert (Hb1' : b1 = tl ++ [0x80] ++ repeat 0 (64 - S (length tl))).
    { unfold b1. rewrite memcpy_full by (rewrite repeat_length; lia). by rewrite Hb1, <- app_assoc. }
    assert (Hlb1 : length b1 = 64%nat) by (unfold b1; rewrite memcpy_length; rewrite ?repeat_length; lia).
    rewrite block_end by (rewrite ?repeat_length; lia). cbn [take app]. rewrite Nat.sub_0_r.
    set (b2 := repeat 0 56 ++ bits).
    assert (Hlb2 : length b2 = 64%nat) by (unfold b2; rewrite length_app, repeat_length; lia).
    replace (tl ++ _ :: _ ++ b2) with (b1 ++ b2) by (rewrite Hb1', <- !app_assoc; done).
    rewrite length_app, Hlb1, Hlb2. change ((64 + 64) / 64)%nat with (1 + 1)%nat.
    rewrite hash_blocks_app by done.
    destruct (hash_one (sha_state ctx) b1) as [-> Hok1]; [done|done| |].
    { rewrite Hb1', app_assoc. auto with aa. }
    destruct (hash_one (sha256_transform (sha_state ctx) b1) b2) as [-> Hok2]; [done|done| |done].
    unfold b2. auto with aa.
  - rewrite block_end by (rewrite ?repeat_length; lia). rewrite Hb1, <- app_assoc.
    set (b := tl ++ [0x80] ++ repeat 0 (56 - S (length tl)) ++ bits).
    assert (Hlb : length b = 64%nat) by (unfold b; rewrite !length_app, repeat_length; simpl; lia).
    rewrite Hlb. change (64 / 64)%nat with 1%nat.
    destruct (hash_one (sha_state ctx) b) as [-> Hok1]; [done|done| |done].
    unfold b. rewrite app_assoc. auto with aa.
Qed.

Lemma sha256_final_rep ctx m : rep ctx m -> sha256_final ctx = sha2 2 m.
Proof.
  intros Hrep. destruct (sha256_final_blocks ctx m Hrep) as [-> [_ H8]]. unfold sha2.
  rewrite take_ge by lia. do 2 f_equal.
  destruct (rep_split m (padding (length m))) as (_ & _ & -> & _). by rewrite (rep_state _ _ Hrep).
Qed.

(** The digest as its clients see it. *)
#[export, refine] Instance sha256_digest : Digest sha256_ctx (list Z) := {
  dg_fresh ctx := length (sha_buf ctx) = 64%nat;
  dg_init := sha256_init;
  dg_update := sha256_update;
  dg_final := sha256_final;
  dg_hash := sha2 2;
  dg_pieces := _
}.
Proof.
  intros ctx pieces Hc Hp. apply sha256_final_rep.
  by apply (sha256_updates_rep pieces (sha256_init ctx) []); [apply sha256_init_rep|].
Defined.

(** C25: Whatever the buffer holds at first and however the message is cut, the
    digest is that of FIPS 180-4 over the padded message, except that the
    message schedule shifts by two instead of ten in sigma1; messages of any
    length, with the bit count modulo 2^64. *)
Theorem sha256_pieces_correct ctx pieces :
  length (sha_buf ctx) = 64%nat -> Forall (Forall is_byte) pieces ->
  sha256_final (fold_left sha256_update pieces (sha256_init ctx)) = sha2 2 (concat pieces) /\
  length (sha2 2 (concat pieces)) = 32%nat /\ Forall is_byte (sha2 2 (concat pieces)).
Proof.
  intros Hc Hp. split; [by apply (@dg_pieces _ _ sha256_digest ctx pieces)|].
  pose proof (sha256_updates_rep pieces (sha256_init ctx) [] (sha256_init_rep ctx Hc) Hp) as Hrep.
  cbn [app] in Hrep. rewrite <- (sha256_final_rep _ _ Hrep). destruct (sha256_final_blocks _ _ Hrep) as [-> [_ H8]].
  cbv zeta in H8. rewrite take_ge by lia. set (H := hash_blocks _ _ _ _) in *. clearbody H. split.
  - do 8 (destruct H as [|? H]; [done|]). by destruct H.
  - apply Forall_concat, Forall_forall. intros l (x & <- & _)%list_elem_of_In%in_map_iff. apply be_bytes_is_byte.
Qed.

Lemma sha256_pieces_correct_witness :
  sha256_final (fold_left sha256_update [[97]; []; [98; 99]] (sha256_init start)) = sha2 2 [97; 98; 99].
Proof.
  apply (sha256_pieces_correct start [[97]; []; [98; 99]]); [reflexivity|].
  auto 10 with aa.
Defined.

(** The digest is not SHA-256: on the message "abc" the reference gives the
    value FIPS 180-4 publishes, and the code another one. *)
Theorem sha256_not_fips :
  be (fips_sha256 (bytes_of $"abc")) =
    0xba7816bf8f01cfea414140de5dae2223b00361a396177a9cb410ff61f20015ad /\
  sha256_final (sha256_update (sha256_init start) (bytes_of $"abc")) <> fips_sha256 (bytes_of $"abc").
Proof. split; [vm_compute; reflexivity|vm_compute; discriminate]. Qed.
