(* ===== verification/DfaRules.v ===== *)
(** From file rules to the rules of an automaton: the second half of
    [parser/parser_regex.c] ([process_dfa_entry], [process_profile_name_xmatch],
    [process_profile_regex]), the rule sets of
    [parser/libapparmor_re/aare_rules.cc] as lists, and the walk over the blocks
    of a profile ([parser/block.cc], [parser/block_rules.cc]). *)

From S2P Require Import Prelude Regex Perms.

(** ** Rule sets *)

(** One call of [add_rule_vec]: regular expressions separated by a NUL or by an
    out-of-band transition, with what a match grants. *)
Record rule := Rule {
  r_priority : Z; r_mode : rule_mode_t; r_perms : Z; r_audit : Z; r_vec : list cstr; r_oob : bool
}.
Abbreviation aare_rules := (list rule) (only parsing).

Definition ALL_AA_EXEC_UNSAFE : Z :=
  Z.lor (Z.shiftl AA_EXEC_UNSAFE AA_USER_SHIFT) (Z.shiftl AA_EXEC_UNSAFE AA_OTHER_SHIFT).
Definition AA_LINK_BITS : Z :=
  Z.lor (Z.shiftl AA_OLD_MAY_LINK AA_USER_SHIFT) (Z.shiftl AA_OLD_MAY_LINK AA_OTHER_SHIFT).
Definition AA_LINK_SUBSET_TEST : Z := Z.shiftl AA_OLD_MAY_LINK 1.
Definition LINK_SUBSET_BITS : Z :=
  Z.lor (Z.shiftl AA_LINK_SUBSET_TEST AA_USER_SHIFT) (Z.shiftl AA_LINK_SUBSET_TEST AA_OTHER_SHIFT).
Definition LINK_TO_LINK_SUBSET (x : Z) : Z := Z.land (Z.shiftl x 1) AA_LINK_SUBSET_TEST.
Definition AA_ONEXEC : Z := Z.shiftl 1 30.

Definition default_match_pattern : cstr := $"[^\000]*".

(** The conversion as most callers use it: [None] is an invalid pattern. *)
Definition convert (aare buf : cstr) : option (pattern_t * cstr) :=
  let '(ptype, buf, _) := convert_aaregex_to_pcre aare false glob_default buf in
  if decide (ptype = Invalid) then None else Some (ptype, buf).

Definition is_change_profile_perms (perms : Z) : bool := has perms AA_CHANGE_PROFILE.

(** The entry with other names. *)
Definition set_names (e : cod_entry) (n : cstr) (ln : option cstr) : cod_entry :=
  {| priority := priority e; name := n; link_name := ln; nt_name := nt_name e; perms := perms e;
     audit := audit e; rule_mode := rule_mode e; subset := subset e |}.

(** Run over a list, stopping at the first failure. *)
Definition foldM {A S} (f : A -> S -> option S) : list A -> S -> option S :=
  fix go l s :=
    match l with
    | [] => Some s
    | x :: l => match f x s with Some s => go l s | None => None end
    end.

Section Rules.
(** Whether [regex_parse], generated from the grammar, accepts a regular
    expression, and whether the features have stacking. *)
Context (regex_ok : cstr -> bool) (features_supports_stacking : bool).

Definition add_rule_vec (rules : aare_rules) (priority : Z) (mode : rule_mode_t) (perms audit : Z)
    (rulev : list cstr) (oob : bool) : option aare_rules :=
  if forallb regex_ok rulev then Some (rules ++ [Rule priority mode perms audit rulev oob]) else None.
Definition add_rule (rules : aare_rules) (rule : cstr) (priority : Z) (mode : rule_mode_t)
    (perms audit : Z) : option aare_rules :=
  add_rule_vec rules priority mode perms audit [rule] false.

(** The rule on the name itself. *)
Definition name_rule (rules : aare_rules) (e : cod_entry) (tbuf : cstr) : option aare_rules :=
  let forced := audit_eqb (audit e) AuditForce in
  if decide (rule_mode e = ModeDeny) then
    let perms' := Z.land (perms e) (not32 (Z.lor AA_LINK_BITS AA_CHANGE_PROFILE)) in
    if has (perms e) (not32 AA_LINK_BITS) && negb (is_change_profile_perms (perms e))
    then add_rule rules tbuf (priority e) (rule_mode e) perms' (if forced then perms' else 0)
    else Some rules
  else if negb (is_change_profile_perms (perms e))
  then add_rule rules tbuf (priority e) (rule_mode e) (perms e) (if forced then perms e else 0)
  else Some rules.

(** The pair rule of a link; the entry's link name is filtered in place. *)
Definition link_rule (rules : aare_rules) (e : cod_entry) (tbuf : cstr) : option (aare_rules * cod_entry) :=
  if has (perms e) AA_LINK_BITS then
    let perms' := Z.land AA_LINK_BITS (perms e) in
    let audit' perms'' := if audit_eqb (audit e) AuditForce then Z.land perms'' AA_LINK_BITS else 0 in
    match link_name e with
    | Some ln =>
        let ln := filter_slashes ln in
        '(_, lbuf) ← convert ln [];
        let perms'' := if subset e then Z.lor perms' (LINK_TO_LINK_SUBSET perms') else perms' in
        rules ← add_rule_vec rules (priority e) (rule_mode e) perms'' (audit' perms'') [tbuf; lbuf] false;
        Some (rules, set_names e (name e) (Some ln))
    | None =>
        let perms'' := Z.lor perms' (LINK_TO_LINK_SUBSET perms') in
        rules ← add_rule_vec rules (priority e) (rule_mode e) perms'' (audit' perms'') [tbuf; $"/[^/].*"] false;
        Some (rules, e)
    end
  else Some (rules, e).

(** What a change of profile matches: the label, or its parts where the kernel
    does not stack. *)
Definition change_profile_vec (tbuf : cstr) : option (list cstr) :=
  if features_supports_stacking then Some [tbuf]
  else
    '(stack, ns, name) ← parse_label tbuf;
    if (stack : bool) then None
    else Some (match ns with Some ns => [ns; name] | None => [name] end).

(** The rules of a change of profile; [onexec] shares its place with
    [link_name]. *)
Definition change_profile_rules (rules : aare_rules) (e : cod_entry) (tbuf : cstr) : option aare_rules :=
  if is_change_profile_perms (perms e) then
    exec ← match link_name e with
           | Some onexec => '(_, xbuf) ← convert onexec []; Some xbuf
           | None => Some $"/[^/\x00][^\x00]*"
           end;
    vec ← change_profile_vec tbuf;
    rules ← add_rule_vec rules (priority e) (rule_mode e) (Z.lor AA_CHANGE_PROFILE AA_ONEXEC) 0 vec false;
    rules ← add_rule_vec rules (priority e) (rule_mode e) AA_ONEXEC 0 [exec] false;
    let onexec_perms := Z.lor AA_ONEXEC (Z.land (perms e) (Z.lor AA_EXEC_BITS ALL_AA_EXEC_UNSAFE)) in
    add_rule_vec rules (priority e) (rule_mode e) onexec_perms 0 (exec :: vec) false
  else Some rules.

(** The rules, the entry as it is left, and its pattern type. *)
Definition process_dfa_entry (rules : aare_rules) (e : cod_entry)
  : option (aare_rules * cod_entry * pattern_t) :=
  let e := if negb (is_change_profile_perms (perms e))
           then set_names e (filter_slashes (name e)) (link_name e) else e in
  '(ptype, tbuf) ← convert (name e) [];
  rules ← name_rule rules e tbuf;
  '(rules, e) ← link_rule rules e tbuf;
  rules ← change_profile_rules rules e tbuf;
  Some (rules, e, ptype).

(** ** Blocks *)

(** A block has file rules, blocks inside it, and for each conditional the block
    that was selected, if one was. *)
Inductive block := Block (entries : list cod_entry) (subblocks : list block) (conds : list (option block)).
Definition b_entries (b : block) : list cod_entry := let 'Block es _ _ := b in es.

(** The file rules of [block_rules::post_process] *)
Definition post_process (entries : list cod_entry) (rules : aare_rules) : option aare_rules :=
  foldM (fun e rules => '(rules, _, _) ← process_dfa_entry rules e; Some rules) entries rules.

(** The file part of [block::gen_policy_re] *)
Fixpoint gen_policy_re (b : block) (rules : aare_rules) : option aare_rules :=
  let 'Block entries subblocks conds := b in
  rules ← post_process entries rules;
  rules ← foldM (fun sb rules => gen_policy_re sb rules) subblocks rules;
  foldM (fun c rules => match c with Some b => gen_policy_re b rules | None => Some rules end) conds rules.

(** [collect_file_rule_blocks] appends to the vector it is given. *)
Fixpoint collect_file_rule_blocks (b : block) (blocks : list block) : list block :=
  let 'Block _ subblocks conds := b in
  let blocks := blocks ++ [b] in
  let blocks := fold_left (fun blocks sb => collect_file_rule_blocks sb blocks) subblocks blocks in
  fold_left (fun blocks c => match c with
                             | Some b => collect_file_rule_blocks b blocks
                             | None => blocks end) conds blocks.

(** ** Attachment *)

Inductive cond_comp := CompNone | CompEq | CompIn | CompSet.
Record cond_entry := { c_comp : cond_comp; c_vals : list cstr }.

Definition get_xattr_value (entry : cond_entry) : option cstr :=
  match c_comp entry with CompEq => head (c_vals entry) | _ => None end.

(** The part of [class Profile] the attachment is built from. *)
Record attach := {
  at_name : cstr; at_attachment : option cstr; at_altnames : list cstr; at_xattrs : list cond_entry
}.

(** What [create_dfablob] is called with: the rules and their tail. *)
Inductive xmatch :=
  | NoXmatch
  | Xmatch (rules : aare_rules) (tail : option aare_rules) (len : Z).

(** The pattern of one attribute. *)
Definition xattr_pattern (entry : cond_entry) : cstr :=
  let value := default $"**" (get_xattr_value entry) in
  snd (fst (convert_aaregex_to_pcre value false glob_null $"\x00")).

(** The loop that adds a rule for each prefix of the attributes. *)
Fixpoint xattr_rules (rulev xattrs : list cstr) (tail : aare_rules) : option aare_rules :=
  match xattrs with
  | [] => Some tail
  | x :: xattrs =>
      let rulev := rulev ++ [x] in
      tail ← add_rule_vec tail 0 ModeAllow AA_MAY_EXEC 0 rulev true;
      xattr_rules rulev xattrs tail
  end.

(** The profile with its attachment, alternative names and attributes as they
    are left, and the match. *)
Definition process_profile_name_xmatch (features_supports_domain_xattr kernel_supports_oob : bool)
    (prof : attach) : option (attach * xmatch) :=
  let name := filter_slashes (default (local_name (at_name prof)) (at_attachment prof)) in
  let prof := {| at_name := at_name prof;
                 at_attachment := match at_attachment prof with Some _ => Some name | None => None end;
                 at_altnames := at_altnames prof; at_xattrs := at_xattrs prof |} in
  let '(ptype, tbuf, len) := convert_aaregex_to_pcre name false glob_default [] in
  let len := if decide (ptype = Basic) then strlen name else len in
  if decide (ptype = Invalid) then None
  else if bool_decide (ptype = Basic) && bool_decide (at_altnames prof = []) &&
          bool_decide (at_attachment prof = None) && (length (at_xattrs prof) =? 0)%nat
  then Some (prof, NoXmatch)
  else
    rules ← add_rule [] tbuf 0 ModeAllow AA_MAY_EXEC 0;
    let alts := map filter_slashes (at_altnames prof) in
    rules ← foldM (fun alt rules =>
              add_rule rules (snd (fst (convert_aaregex_to_pcre alt false glob_default []))) 0 ModeAllow
                AA_MAY_EXEC 0) alts rules;
    let prof' xattrs := {| at_name := at_name prof; at_attachment := at_attachment prof;
                           at_altnames := alts; at_xattrs := xattrs |} in
    match at_xattrs prof with
    | [] => Some (prof' [], Xmatch rules None len)
    | xattrs =>
        if negb (features_supports_domain_xattr && kernel_supports_oob)
        then Some (prof' [], Xmatch rules None len)
        else
          tail ← xattr_rules [] (map xattr_pattern xattrs) [];
          Some (prof' xattrs, Xmatch rules (Some tail) len)
    end.

(** ** Lists of values *)

Definition convert_entry (buffer : cstr) (entry : option cstr) : option cstr :=
  match entry with
  | Some entry => '(_, buffer) ← convert entry buffer; Some buffer
  | None => Some (buffer ++ default_match_pattern)
  end.

Definition build_list_val_expr (buffer : cstr) (list : list cstr) : option cstr :=
  match list with
  | [] => Some (buffer ++ default_match_pattern)
  | value :: rest =>
      '(_, buffer) ← convert value (buffer ++ $"(");
      buffer ← foldM (fun value buffer => '(_, buffer) ← convert value (buffer ++ $"|"); Some buffer) rest buffer;
      Some (buffer ++ $")")
  end.
End Rules.

(** ** The walk over blocks *)

Lemma foldM_app {A S} (f : A -> S -> option S) l1 l2 s :
  foldM f (l1 ++ l2) s = s ← foldM f l1 s; foldM f l2 s.
Proof.
  revert s. induction l1 as [|x l1 IH]; intros s; [done|]. cbn [app foldM].
  destruct (f x s) as [s'|]; [apply IH|done].
Qed.

Lemma foldM_concat {A B S} (f : A -> S -> option S) (g : B -> S -> option S) (h : B -> list A) l s :
  Forall (fun b => forall s, g b s = foldM f (h b) s) l ->
  foldM g l s = foldM f (concat (map h l)) s.
Proof.
  intros H. revert s. induction H as [|b l Hb _ IH]; intros s; [done|]. cbn [foldM map concat].
  rewrite foldM_app, Hb. destruct (foldM f (h b) s); [apply IH|done].
Qed.

Section block_induction.
Context (P : block -> Prop).
Hypothesis Hblock : forall es sbs cs,
  Forall P sbs -> Forall (fun c => match c with Some b => P b | None => True end) cs -> P (Block es sbs cs).

Fixpoint block_tree_ind (b : block) : P b :=
  let 'Block es sbs cs := b in
  Hblock es sbs cs
    ((fix go l : Forall P l :=
        match l with
        | [] => @List.Forall_nil _ P
        | b :: l => @List.Forall_cons _ P b l (block_tree_ind b) (go l)
        end) sbs)
    ((fix go l : Forall (fun c => match c with Some b => P b | None => True end) l :=
        match l with
        | [] => @List.Forall_nil _ _
        | c :: l =>
            @List.Forall_cons _ _ c l
              (match c return match c with Some b => P b | None => True end with
               | Some b => block_tree_ind b
               | None => I end) (go l)
        end) cs).
End block_induction.

(** The blocks under a block, itself first. *)
Definition blocks_of (b : block) : list block := collect_file_rule_blocks b [].
Definition cond_blocks (c : option block) : list block :=
  match c with Some b => blocks_of b | None => [] end.

Lemma fold_left_appends {A B} (f : list B -> A -> list B) (h : A -> list B) l acc :
  Forall (fun a => forall acc, f acc a = acc ++ h a) l ->
  fold_left f l acc = acc ++ concat (map h l).
Proof.
  intros H. revert acc. induction H as [|a l Ha _ IH]; intros acc; cbn [fold_left map concat].
  - by rewrite app_nil_r.
  - by rewrite Ha, IH, app_assoc.
Qed.

Lemma collect_appends b blocks :
  collect_file_rule_blocks b blocks = blocks ++ blocks_of b.
Proof.
  revert blocks. induction b as [es sbs cs Hs Hc] using block_tree_ind. intros blocks.
  assert (Hstep : forall acc, collect_file_rule_blocks (Block es sbs cs) acc =
    (acc ++ [Block es sbs cs]) ++ concat (map blocks_of sbs) ++ concat (map cond_blocks cs)).
  { intros acc. cbn [collect_file_rule_blocks]. rewrite (fold_left_appends _ cond_blocks).
    - rewrite (fold_left_appends _ blocks_of); [by rewrite <- app_assoc|].
      eapply Forall_impl; [exact Hs|]. intros b Hb acc'. apply Hb.
    - eapply Forall_impl; [exact Hc|]. intros [b|] Hb acc'; [apply Hb|by rewrite app_nil_r]. }
  unfold blocks_of at 1. rewrite !Hstep. by rewrite <- !app_assoc.
Qed.

Lemma blocks_of_unfold es sbs cs :
  blocks_of (Block es sbs cs) = Block es sbs cs :: concat (map blocks_of sbs) ++ concat (map cond_blocks cs).
Proof.
  unfold blocks_of at 1. cbn [collect_file_rule_blocks app].
  rewrite (fold_left_appends _ cond_blocks), (fold_left_appends _ blocks_of); [done| |].
  - apply Forall_forall. intros b _ acc. apply collect_appends.
  - apply Forall_forall. intros [b|] _ acc; [apply collect_appends|by rewrite app_nil_r].
Qed.

Definition file_entries (b : block) : list cod_entry := concat (map b_entries (blocks_of b)).

Lemma file_entries_unfold es sbs cs :
  file_entries (Block es sbs cs) =
  es ++ concat (map file_entries sbs) ++
  concat (map (fun c => match c with Some b => file_entries b | None => [] end) cs).
Proof.
  unfold file_entries at 1. rewrite blocks_of_unfold. cbn [map concat b_entries]. f_equal.
  rewrite map_app, concat_app. f_equal.
  - induction sbs as [|b sbs IH]; [done|]. cbn [map concat]. by rewrite map_app, concat_app, IH.
  - induction cs as [|c cs IH]; [done|]. cbn [map concat]. rewrite map_app, concat_app, IH. f_equal.
    by destruct c.
Qed.

Lemma gen_policy_re_entries regex_ok stacking b rules :
  gen_policy_re regex_ok stacking b rules = post_process regex_ok stacking (file_entries b) rules.
Proof.
  revert rules. induction b as [es sbs cs Hs Hc] using block_tree_ind. intros rules.
  cbn [gen_policy_re]. rewrite file_entries_unfold. unfold post_process.
  rewrite foldM_app. destruct (foldM _ es rules) as [rules1|]; [|done]. cbn [mbind option_bind].
  rewrite foldM_app. rewrite (foldM_concat _ _ file_entries sbs) by exact Hs.
  unfold post_process. destruct (foldM _ (concat (map file_entries sbs)) rules1) as [rules2|]; [|done].
  cbn [mbind option_bind]. apply foldM_concat. eapply Forall_impl; [exact Hc|].
  intros [b|] Hb s; [apply Hb|done].
Qed.

(** C26: The blocks the cache collects are the ones policy generation compiles,
    in the same order: generating the file rules of a profile, block by block
    with its early return, is processing the collected entries one after the
    other. *)
Theorem collected_blocks_are_compiled regex_ok stacking b rules :
  gen_policy_re regex_ok stacking b rules =
  post_process regex_ok stacking (concat (map b_entries (collect_file_rule_blocks b []))) rules.
Proof. apply gen_policy_re_entries. Qed.

(** ** What the rules of one entry grant *)

(** The rules of the three parts, when nothing is refused. *)
Definition name_part (e : cod_entry) (tbuf : cstr) : list rule :=
  let perms' := if decide (rule_mode e = ModeDeny)
                then Z.land (perms e) (not32 (Z.lor AA_LINK_BITS AA_CHANGE_PROFILE)) else perms e in
  if negb (is_change_profile_perms (perms e)) &&
     (bool_decide (rule_mode e <> ModeDeny) || has (perms e) (not32 AA_LINK_BITS))
  then [Rule (priority e) (rule_mode e) perms' (if audit_eqb (audit e) AuditForce then perms' else 0) [tbuf] false]
  else [].

(** A link without a target, or with [subset], also asks for the subset test. *)
Definition subset_required (e : cod_entry) : bool :=
  match link_name e with Some _ => subset e | None => true end.

Definition link_perms (e : cod_entry) : Z :=
  let perms' := Z.land AA_LINK_BITS (perms e) in
  if subset_required e then Z.lor perms' (LINK_TO_LINK_SUBSET perms') else perms'.

Definition link_part (e : cod_entry) (tbuf lbuf : cstr) : list rule :=
  if has (perms e) AA_LINK_BITS
  then [Rule (priority e) (rule_mode e) (link_perms e)
          (if audit_eqb (audit e) AuditForce then Z.land (link_perms e) AA_LINK_BITS else 0) [tbuf; lbuf] false]
  else [].

Definition change_profile_part (e : cod_entry) (exec : cstr) (vec : list cstr) : list rule :=
  let r p v := Rule (priority e) (rule_mode e) p 0 v false in
  if is_change_profile_perms (perms e)
  then [r (Z.lor AA_CHANGE_PROFILE AA_ONEXEC) vec; r AA_ONEXEC [exec];
        r (Z.lor AA_ONEXEC (Z.land (perms e) (Z.lor AA_EXEC_BITS ALL_AA_EXEC_UNSAFE))) (exec :: vec)]
  else [].

(** The fields that decide the rules. *)
Definition same_rule (e e' : cod_entry) : Prop :=
  priority e = priority e' /\ perms e = perms e' /\ audit e = audit e' /\ rule_mode e = rule_mode e' /\
  subset e = subset e' /\ (link_name e = None <-> link_name e' = None).

Lemma parts_same e e' : same_rule e e' ->
  (forall tbuf, name_part e tbuf = name_part e' tbuf) /\
  (forall tbuf lbuf, link_part e tbuf lbuf = link_part e' tbuf lbuf) /\
  (forall exec vec, change_profile_part e exec vec = change_profile_part e' exec vec) /\
  link_perms e = link_perms e'.
Proof.
  intros (H1 & H2 & H3 & H4 & H5 & H6).
  assert (Hs : subset_required e = subset_required e').
  { unfold subset_required. destruct (link_name e), (link_name e'); try done; intuition discriminate. }
  assert (Hl : link_perms e = link_perms e') by (unfold link_perms; by rewrite H2, Hs).
  unfold name_part, link_part, change_profile_part. rewrite H1, H2, H3, H4, Hl. done.
Qed.

Section RulesOf.
Context (regex_ok : cstr -> bool) (stacking : bool).

Lemma add_rule_vec_Some rules p m pm au vec oob rules' :
  add_rule_vec regex_ok rules p m pm au vec oob = Some rules' -> rules' = rules ++ [Rule p m pm au vec oob].
Proof. unfold add_rule_vec. destruct (forallb _ _); by intros [= <-]. Qed.

Lemma name_rule_part rules e tbuf rules' :
  name_rule regex_ok rules e tbuf = Some rules' -> rules' = rules ++ name_part e tbuf.
Proof.
  unfold name_rule, name_part, add_rule. destruct (decide (rule_mode e = ModeDeny)) as [E|E].
  - rewrite bool_decide_eq_false_2 by auto. cbn [orb].
    rewrite (andb_comm (negb _)). destruct (_ && _).
    + apply add_rule_vec_Some.
    + intros [= <-]. by rewrite app_nil_r.
  - rewrite bool_decide_eq_true_2 by auto. cbn [orb]. rewrite andb_true_r. destruct (negb _).
    + apply add_rule_vec_Some.
    + intros [= <-]. by rewrite app_nil_r.
Qed.

Lemma link_rule_part rules e tbuf rules' e' :
  link_rule regex_ok rules e tbuf = Some (rules', e') ->
  (exists lbuf, rules' = rules ++ link_part e tbuf lbuf) /\ same_rule e e' /\ name e' = name e.
Proof.
  unfold link_rule, link_part, link_perms, subset_required. destruct (has (perms e) AA_LINK_BITS).
  - destruct (link_name e) as [ln|] eqn:El.
    + destruct (convert _ _) as [[ty lbuf]|]; [|done]. cbn [mbind option_bind].
      destruct (add_rule_vec _ _ _ _ _ _ _ _) as [rs|] eqn:Ea; [|done]. cbn [mbind option_bind].
      intros [= <- <-]. apply add_rule_vec_Some in Ea. split_and!; [by exists lbuf| |done].
      unfold same_rule. simpl. rewrite El. by split_and!.
    + destruct (add_rule_vec _ _ _ _ _ _ _ _) as [rs|] eqn:Ea; [|done]. cbn [mbind option_bind].
      intros [= <- <-]. apply add_rule_vec_Some in Ea. split_and!; [by eexists|done|done].
  - intros [= <- <-]. split_and!; [exists []; by rewrite app_nil_r|done|done].
Qed.

Lemma change_profile_rules_part rules e tbuf rules' :
  change_profile_rules regex_ok stacking rules e tbuf = Some rules' ->
  exists exec vec, rules' = rules ++ change_profile_part e exec vec /\
    (is_change_profile_perms (perms e) = true -> change_profile_vec stacking tbuf = Some vec).
Proof.
  unfold change_profile_rules, change_profile_part. destruct (is_change_profile_perms (perms e)).
  - destruct (match link_name e with Some _ => _ | None => _ end) as [exec|]; [|done]. cbn [mbind option_bind].
    destruct (change_profile_vec stacking tbuf) as [vec|]; [|done]. cbn [mbind option_bind].
    destruct (add_rule_vec regex_ok rules _ _ _ _ _ _) as [r1|] eqn:E1; [|done]. cbn [mbind option_bind].
    destruct (add_rule_vec regex_ok r1 _ _ _ _ _ _) as [r2|] eqn:E2; [|done]. cbn [mbind option_bind].
    intros E3. apply add_rule_vec_Some in E1, E2, E3. subst. exists exec, vec. split; [|done].
    by rewrite <- !app_assoc.
  - intros [= <-]. exists [], []. by rewrite app_nil_r.
Qed.

Lemma process_dfa_entry_parts rules e rules' e' t :
  process_dfa_entry regex_ok stacking rules e = Some (rules', e', t) ->
  exists tbuf lbuf exec vec,
    convert (name e') [] = Some (t, tbuf) /\ same_rule e e' /\
    rules' = rules ++ name_part e tbuf ++ link_part e tbuf lbuf ++ change_profile_part e exec vec /\
    (is_change_profile_perms (perms e) = true -> name e' = name e /\ change_profile_vec stacking tbuf = Some vec).
Proof.
  unfold process_dfa_entry.
  set (e0 := if negb _ then _ else e).
  assert (H0 : same_rule e e0 /\ (is_change_profile_perms (perms e) = true -> name e0 = name e)).
  { unfold e0. destruct (is_change_profile_perms (perms e)); simpl; by split_and!. }
  clearbody e0. destruct H0 as [H0 Hn]. destruct (parts_same _ _ H0) as (P1 & P2 & P3 & _).
  destruct (convert (name e0) []) as [[ty tbuf]|] eqn:Ec; [|done]. cbn [mbind option_bind].
  destruct (name_rule _ _ _ _) as [r1|] eqn:E1; [|done]. cbn [mbind option_bind].
  destruct (link_rule _ _ _ _) as [[r2 e2]|] eqn:E2; [|done]. cbn [mbind option_bind].
  destruct (change_profile_rules _ _ _ _ _) as [r3|] eqn:E3; [|done]. cbn [mbind option_bind].
  intros [= <- <- <-]. apply name_rule_part in E1. apply link_rule_part in E2 as ([lbuf E2] & H2 & Hn2).
  apply change_profile_rules_part in E3 as (exec & vec & E3 & Hv).
  destruct (parts_same _ _ H2) as (_ & _ & Q3 & _).
  exists tbuf, lbuf, exec, vec. rewrite Hn2. split_and!; [done| |by subst; rewrite P1, P2, P3, Q3, <- !app_assoc|].
  - unfold same_rule in *. intuition congruence.
  - intros Hcp. split; [by apply Hn|]. apply Hv.
    destruct H0 as (_ & E0 & _), H2 as (_ & E02 & _). by rewrite <- E02, <- E0.
Qed.
End RulesOf.

(** Whether some rule of a list grants a permission bit. *)
Definition granted (rules : list rule) (i : Z) : bool := existsb (fun r => Z.testbit (r_perms r) i) rules.

Lemma granted_app a b i : granted (a ++ b) i = granted a i || granted b i.
Proof. apply existsb_app. Qed.

Lemma has_false p m i : has p m = false -> Z.testbit p i && Z.testbit m i = false.
Proof. unfold has. intros H. breflect. by rewrite <- Z.land_spec, H, Z.bits_0. Qed.

Lemma link_perms_bit e i :
  0 <= i ->
  Z.testbit (link_perms e) i =
    Z.testbit AA_LINK_BITS i && Z.testbit (perms e) i ||
    subset_required e && Z.testbit (perms e) 4 && (i =? 5).
Proof.
  intros Hi. unfold link_perms.
  assert (Hsub : Z.testbit (LINK_TO_LINK_SUBSET (Z.land AA_LINK_BITS (perms e))) i = Z.testbit (perms e) 4 && (i =? 5)).
  { unfold LINK_TO_LINK_SUBSET. rewrite Z.land_spec. change AA_LINK_SUBSET_TEST with (2 ^ 5).
    rewrite Z.pow2_bits_eqb by lia. rewrite (Z.eqb_sym 5). destruct (i =? 5) eqn:E; breflect.
    - subst i. rewrite Z.shiftl_spec, Z.land_spec by lia. by rewrite !andb_true_r.
    - by rewrite !andb_false_r. }
  destruct (subset_required e).
  - rewrite Z.lor_spec, Hsub, Z.land_spec. done.
  - by rewrite Z.land_spec, orb_false_r.
Qed.

Lemma name_part_bit e tbuf i :
  0 <= i < 32 -> is_change_profile_perms (perms e) = false ->
  granted (name_part e tbuf) i =
    Z.testbit (perms e) i && negb (bool_decide (rule_mode e = ModeDeny) && Z.testbit AA_LINK_BITS i).
Proof.
  intros Hi Hc. pose proof (has_false _ _ i Hc) as Hci. unfold name_part. rewrite Hc. cbn [negb andb].
  destruct (decide (rule_mode e = ModeDeny)) as [E|E].
  - rewrite (bool_decide_eq_true_2 (_ = _)), bool_decide_eq_false_2 by auto. cbn [orb andb].
    destruct (has (perms e) (not32 AA_LINK_BITS)) eqn:Eh; cbn [granted existsb r_perms].
    + rewrite Z.land_spec, not32_bit, Z.lor_spec, orb_false_r by done.
      destruct (Z.testbit (perms e) i); [|done]. cbn [andb] in Hci |- *. by rewrite Hci, orb_false_r.
    + pose proof (has_false _ _ i Eh) as Hl. by rewrite not32_bit in Hl.
  - rewrite (bool_decide_eq_false_2 (_ = _)), bool_decide_eq_true_2 by auto. cbn.
    by rewrite orb_false_r, andb_true_r.
Qed.

Lemma link_part_bit e tbuf lbuf i :
  0 <= i ->
  granted (link_part e tbuf lbuf) i =
    Z.testbit AA_LINK_BITS i && Z.testbit (perms e) i || subset_required e && Z.testbit (perms e) 4 && (i =? 5).
Proof.
  intros Hi. unfold link_part. destruct (has (perms e) AA_LINK_BITS) eqn:Eh.
  - cbn [granted existsb r_perms]. by rewrite orb_false_r, link_perms_bit.
  - pose proof (has_false _ _ i Eh) as Hl. pose proof (has_false _ _ 4 Eh) as H4.
    change (Z.testbit AA_LINK_BITS 4) with true in H4. rewrite andb_true_r in H4.
    by rewrite H4, (andb_comm (Z.testbit AA_LINK_BITS i)), Hl, andb_false_r.
Qed.

(** A rule carries its entry's priority and mode and audits no more than it
    grants. *)
Definition carries (e : cod_entry) (r : rule) : Prop :=
  r_priority r = priority e /\ r_mode r = rule_mode e /\ r_oob r = false /\
  Z.land (r_audit r) (r_perms r) = r_audit r.

Lemma carries_audit (e : cod_entry) p m (b : bool) vec :
  carries e (Rule (priority e) (rule_mode e) p (if b then Z.land p m else 0) vec false).
Proof.
  unfold carries. cbn. split_and!; try done. destruct b; [|by rewrite Z.land_0_l].
  by rewrite <- Z.land_assoc, (Z.land_comm m), Z.land_assoc, Z.land_diag.
Qed.

Lemma parts_carry e tbuf lbuf exec vec :
  Forall (carries e) (name_part e tbuf ++ link_part e tbuf lbuf ++ change_profile_part e exec vec).
Proof.
  rewrite !Forall_app. split_and!.
  - unfold name_part. destruct (_ && _); [|apply Forall_nil_2]. apply Forall_cons_2; [|apply Forall_nil_2].
    unfold carries. cbn. split_and!; try done. destruct (audit_eqb _ _); [apply Z.land_diag|apply Z.land_0_l].
  - unfold link_part. destruct (has _ _); [|apply Forall_nil_2].
    apply Forall_cons_2; [apply carries_audit|apply Forall_nil_2].
  - unfold change_profile_part. destruct (is_change_profile_perms _); [|apply Forall_nil_2].
    repeat (apply Forall_cons_2; [by unfold carries|]). apply Forall_nil_2.
Qed.


Definition ok_regex (s : cstr) : bool := true.
Definition sample_entry : cod_entry :=
  set_modes (new_entry $"/etc//f" (Z.lor AA_LINK_BITS 4) None) ModeDeny AuditUnspecified 0.

Definition sample_rules : list rule :=
  [Rule 0 ModeDeny 4 0 [$"/etc/f"] false;
   Rule 0 ModeDeny (Z.lor AA_LINK_BITS AA_LINK_SUBSET_TEST) 0 [$"/etc/f"; $"/[^/].*"] false].


(** The subset test is only asked of the owner's half of the permissions. *)
Example link_subset_owner_only :
  let e := new_entry $"/l" AA_LINK_BITS None in
  link_perms e = Z.lor AA_LINK_BITS (Z.shiftl AA_LINK_SUBSET_TEST AA_USER_SHIFT) /\
  Z.land (link_perms e) LINK_SUBSET_BITS <> LINK_SUBSET_BITS.
Proof. by vm_compute. Qed.

(** An attribute pattern or an alternative name the conversion refuses is used
    all the same, cut where the conversion stopped. *)
Example invalid_patterns_used :
  convert_aaregex_to_pcre $"v\" false glob_null $"\x00" = (Invalid, $"\x00v", 0) /\
  process_profile_name_xmatch ok_regex true true
    {| at_name := $"p"; at_attachment := Some $"/bin/a"; at_altnames := [$"/b\"];
       at_xattrs := [{| c_comp := CompEq; c_vals := [$"v\"] |}] |} =
  Some ({| at_name := $"p"; at_attachment := Some $"/bin/a"; at_altnames := [$"/b\"];
           at_xattrs := [{| c_comp := CompEq; c_vals := [$"v\"] |}] |},
        Xmatch [Rule 0 ModeAllow AA_MAY_EXEC 0 [$"/bin/a"] false; Rule 0 ModeAllow AA_MAY_EXEC 0 [$"/b"] false]
          (Some [Rule 0 ModeAllow AA_MAY_EXEC 0 [$"\x00v"] true]) 6).
Proof. split; vm_compute; reflexivity. Qed.

(** ** Attachment rules *)

(** The rule for one more attribute than the first [k]. *)
Definition xattr_rule (xattrs : list cstr) (k : nat) : rule :=
  Rule 0 ModeAllow AA_MAY_EXEC 0 (take (S k) xattrs) true.

Lemma xattr_rules_prefixes regex_ok rulev xattrs tail :
  (forall s, regex_ok s = true) ->
  xattr_rules regex_ok rulev xattrs tail =
  Some (tail ++ map (xattr_rule (rulev ++ xattrs)) (seq (length rulev) (length xattrs))).
Proof.
  intros Hok. revert rulev tail. induction xattrs as [|x xattrs IH]; intros rulev tail; cbn [xattr_rules length seq map].
  - by rewrite app_nil_r.
  - unfold add_rule_vec. rewrite (proj2 (forallb_forall _ _)) by auto. cbn [mbind option_bind].
    rewrite IH, <- !app_assoc. replace (length (rulev ++ [x])) with (S (length rulev)) by (rewrite length_app; simpl; lia).
    cbn [app]. do 3 f_equal. unfold xattr_rule. f_equal.
    change (x :: xattrs) with ([x] ++ xattrs). rewrite app_assoc. symmetry. apply take_app_length'.
    rewrite length_app. simpl. lia.
Qed.

Lemma add_rule_ok regex_ok rules r p m pm au :
  (forall s, regex_ok s = true) ->
  add_rule regex_ok rules r p m pm au = Some (rules ++ [Rule p m pm au [r] false]).
Proof. intros H. unfold add_rule, add_rule_vec. cbn [forallb]. by rewrite H. Qed.

Definition alt_rule (alt : cstr) : rule :=
  Rule 0 ModeAllow AA_MAY_EXEC 0 [snd (fst (convert_aaregex_to_pcre alt false glob_default []))] false.

Lemma alt_rules_all regex_ok alts rules :
  (forall s, regex_ok s = true) ->
  foldM (fun alt rules =>
    add_rule regex_ok rules (snd (fst (convert_aaregex_to_pcre alt false glob_default []))) 0 ModeAllow
      AA_MAY_EXEC 0) alts rules = Some (rules ++ map alt_rule alts).
Proof.
  intros Hok. revert rules. induction alts as [|a alts IH]; intros rules; cbn [foldM map].
  - by rewrite app_nil_r.
  - rewrite add_rule_ok by done. by rewrite IH, <- app_assoc.
Qed.


Definition sample_attach : attach :=
  {| at_name := $"p"; at_attachment := Some $"/bin//*"; at_altnames := [];
     at_xattrs := [{| c_comp := CompEq; c_vals := [$"a"] |}; {| c_comp := CompNone; c_vals := [] |}] |}.

