(* ===== verification/DfaCache.v ===== *)
(** The cache of compiled file automata of [parser/parser_regex.c]: its key and
    content digest, its files, and the compilation of a profile around it
    ([process_profile_rules]).  The digest is used through its interface. *)

From stdpp Require Import gmap.
From S2P Require Import Prelude Murmur Sha256 Regex Perms DfaRules.

(** ** What is hashed *)

(** The settings the automaton depends on.  [int] and [uint32_t] values. *)
Record globals := {
  kernel_abi_version : Z; parser_abi_version : Z; parseopts_control : Z;
  kernel_supports_permstable32 : Z; kernel_supports_permstable32_version : Z;
  features_supports_stacking : bool
}.

(** [n] bytes of an integer as they are in memory, least significant first. *)
Definition le_bytes (n : nat) (x : Z) : list Z := map (fun i => u8 (Z.shiftr x (8 * Z.of_nat i))) (seq 0 n).

Definition audit_value (a : audit_t) : Z :=
  match a with AuditUnspecified => 0 | AuditImplied => 1 | AuditForce => 2 | AuditQuiet => 3 end.
Definition mode_value (m : rule_mode_t) : Z :=
  match m with ModeUnspecified => 0 | ModeAllow => 1 | ModeDeny => 2 | ModePrompt => 3 end.
Definition bool_value (b : bool) : Z := if b then 1 else 0.

Definition FNV1A_ADD_TO_HASH (hash val : Z) : Z := u64 (Z.lxor hash (u64 val) * 0x100000001b3).
Definition fnv_string (hash : Z) (s : cstr) : Z := fold_left (fun h c => FNV1A_ADD_TO_HASH h (code c)) s hash.

Definition fnv_entry (hash : Z) (e : cod_entry) : Z :=
  let hash := fnv_string hash (name e) in
  let hash := FNV1A_ADD_TO_HASH hash (perms e) in
  let hash := FNV1A_ADD_TO_HASH hash (audit_value (audit e)) in
  let hash := FNV1A_ADD_TO_HASH hash (mode_value (rule_mode e)) in
  let hash := FNV1A_ADD_TO_HASH hash (priority e) in
  let hash := match link_name e with
              | Some l => FNV1A_ADD_TO_HASH (fnv_string hash l) (bool_value (subset e))
              | None => hash end in
  match nt_name e with Some n => fnv_string hash n | None => hash end.

Definition hash_profile_file_rules (g : globals) (main_block : block) : Z :=
  let blocks := collect_file_rule_blocks main_block [] in
  let hash := fold_left (fun hash b => fold_left fnv_entry (b_entries b) hash) blocks 0xcbf29ce484222325 in
  let hash := FNV1A_ADD_TO_HASH hash (kernel_abi_version g) in
  let hash := FNV1A_ADD_TO_HASH hash (parser_abi_version g) in
  let hash := FNV1A_ADD_TO_HASH hash (parseopts_control g) in
  FNV1A_ADD_TO_HASH hash (kernel_supports_permstable32 g).

(** The data of the calls of [sha256_update], in order. *)
Definition sep : list Z := [0xff].
Definition null_marker : list Z := [0].
Definition c_string (s : cstr) : list Z := bytes_of s ++ [0].

Definition entry_pieces (e : cod_entry) : list (list Z) :=
  [c_string (name e); sep] ++
  [le_bytes 4 (perms e); le_bytes 4 (audit_value (audit e)); le_bytes 4 (mode_value (rule_mode e));
   le_bytes 4 (priority e); sep] ++
  match link_name e with
  | Some l => [c_string l; [bool_value (subset e)]]
  | None => [null_marker]
  end ++ [sep] ++
  match nt_name e with Some n => [c_string n] | None => [null_marker] end ++ [sep].

Definition globals_pieces (g : globals) : list (list Z) :=
  [le_bytes 4 (kernel_abi_version g); le_bytes 4 (parser_abi_version g); le_bytes 4 (parseopts_control g);
   le_bytes 4 (kernel_supports_permstable32 g)].

(** The digest of a profile, over any incremental digest. *)
Definition compute_content_hash `{Digest ctx D} (stack : ctx) (g : globals) (main_block : block) : D :=
  let c := dg_init stack in
  let blocks := collect_file_rule_blocks main_block [] in
  let c := fold_left (fun c b => fold_left (fun c e => fold_left dg_update (entry_pieces e) c) (b_entries b) c)
             blocks c in
  dg_final (fold_left dg_update (globals_pieces g) c).

(** ** Cache files *)

(** A row of the permission table: the thirteen words of [class aa_perms]. *)
Abbreviation aa_perms := (list Z) (only parsing).
Definition aa_perms_words : nat := 13.
Definition aa_perms_size : Z := 52.

Record dfa_blob := Blob { dfa : list Z; perms_table : list aa_perms }.

Definition DFA_CACHE_MAGIC : Z := 0x43414644.
Definition DFA_CACHE_VERSION : Z := 1.
Definition header_size : nat := 56.

Record dfa_perms_header := {
  h_magic : Z; h_version : Z; h_dfa_size : Z; h_perms_count : Z; h_reserved : Z; h_content_sha256 : list Z
}.

Definition header_bytes (h : dfa_perms_header) : list Z :=
  le_bytes 4 (h_magic h) ++ le_bytes 4 (h_version h) ++ le_bytes 8 (h_dfa_size h) ++
  le_bytes 4 (h_perms_count h) ++ le_bytes 4 (h_reserved h) ++ h_content_sha256 h.

(** [fread] of the header: the bytes that are there, in its fields. *)
Definition read_header (data : list Z) : option dfa_perms_header :=
  if (length data <? header_size)%nat then None
  else Some {| h_magic := le (take 4 data); h_version := le (take 4 (drop 4 data));
               h_dfa_size := le (take 8 (drop 8 data)); h_perms_count := le (take 4 (drop 16 data));
               h_reserved := le (take 4 (drop 20 data)); h_content_sha256 := take 32 (drop 24 data) |}.

Definition DFA_CACHE_MAX_DFA_SIZE : Z := 1024 * 1024.
Definition DFA_CACHE_MAX_PERMS : Z := 32 * 1024.

(** The words and the rows of a table, and back. *)
Definition row_bytes (row : aa_perms) : list Z := concat (map (le_bytes 4) row).
Definition read_row (data : list Z) : aa_perms :=
  map (fun i => le (take 4 (drop (4 * i) data))) (seq 0 aa_perms_words).
Definition read_rows (count : nat) (data : list Z) : list aa_perms :=
  map (fun i => read_row (drop (52 * i) data)) (seq 0 count).

(** What a file must hold to be used for a content hash. *)
Definition decode_cache (data : list Z) (content_hash : list Z) : option dfa_blob :=
  h ← read_header data;
  if negb (h_magic h =? DFA_CACHE_MAGIC) || negb (h_version h =? DFA_CACHE_VERSION) then None
  else if negb (bool_decide (h_content_sha256 h = content_hash)) then None
  else if (h_dfa_size h =? 0) || (h_dfa_size h >? DFA_CACHE_MAX_DFA_SIZE) ||
          (h_perms_count h >? DFA_CACHE_MAX_PERMS) then None
  else
    let sz := Z.of_nat (length data) - Z.of_nat header_size in
    if h_dfa_size h >? sz then None
    else
      let sz := sz - h_dfa_size h in
      let rest := drop header_size data in
      let dfa := take (Z.to_nat (h_dfa_size h)) rest in
      if aa_perms_size * h_perms_count h >? sz then None
      else Some (Blob dfa (read_rows (Z.to_nat (h_perms_count h)) (drop (Z.to_nat (h_dfa_size h)) rest))).

(** ** The directory *)

Record file := { f_data : list Z; f_mtime : Z }.
Abbreviation disk := (gmap (list ascii) file) (only parsing).

(** ["%016llx"] and the names; [snprintf] cuts them at [PATH_MAX]. *)
Definition hex16 (x : Z) : cstr :=
  map (fun i => hex_digit (x / 16 ^ (15 - Z.of_nat i) mod 16)) (seq 0 16).
Definition DFA_PATH_MAX : nat := Z.to_nat 4096.
Definition cache_path (dfa_cacheloc : cstr) (key : Z) : cstr :=
  take (DFA_PATH_MAX - 1) (dfa_cacheloc ++ $"/" ++ hex16 key ++ $".dfa").
Definition tmp_path (dfa_cacheloc : cstr) (key pid : Z) : cstr :=
  take (DFA_PATH_MAX - 1) (dfa_cacheloc ++ $"/" ++ hex16 key ++ $".dfa.tmp." ++ dec pid).

Definition DFA_CACHE_TOUCH_DELTA_SECS : Z := 7 * 24 * 60 * 60.

(** A hit on a file not touched for a week touches it. *)
Definition dfa_cache_lookup_disk (dfa_cacheloc : option cstr) (now : Z) (d : disk) (key : Z)
    (content_hash : list Z) : option dfa_blob * disk :=
  match dfa_cacheloc with
  | None => (None, d)
  | Some loc =>
      let path := cache_path loc key in
      match d !! path with
      | None => (None, d)
      | Some f =>
          match decode_cache (f_data f) content_hash with
          | None => (None, d)
          | Some b =>
              (Some b, if now - f_mtime f >? DFA_CACHE_TOUCH_DELTA_SECS
                       then <[path := {| f_data := f_data f; f_mtime := now |}]> d else d)
          end
      end
  end.

(** How far the system calls of a store get: the first that fails, or the
    process dies with [n] bytes of the temporary file written.  The result of
    [fclose], which writes what is still buffered, is not tested: with
    [FlushCut n] it only got [n] bytes to the file, which is renamed. *)
Inductive store_io :=
  | MkdirFails | OpenFails | FdopenFails | WriteFails | Dies (n : nat) | RenameFails
  | FlushCut (n : nat) | StoreDone.
Definition publishes (io : store_io) : bool :=
  match io with FlushCut _ | StoreDone => true | _ => false end.

(** The bytes of a cache file. *)
Definition cache_data (b : dfa_blob) (content_hash : list Z) : list Z :=
  header_bytes {| h_magic := DFA_CACHE_MAGIC; h_version := DFA_CACHE_VERSION;
                  h_dfa_size := Z.of_nat (length (dfa b));
                  h_perms_count := u32 (Z.of_nat (length (perms_table b))); h_reserved := 0;
                  h_content_sha256 := content_hash |} ++
  dfa b ++ concat (map row_bytes (take (Z.to_nat (u32 (Z.of_nat (length (perms_table b))))) (perms_table b))).

Definition rename_file (from to : cstr) (d : disk) : disk :=
  match d !! from with Some f => <[to := f]> (delete from d) | None => d end.

Definition dfa_cache_store_disk (io : store_io) (dfa_cacheloc : option cstr) (now pid : Z) (d : disk)
    (blob : option dfa_blob) (key : Z) (content_hash : list Z) : disk :=
  match dfa_cacheloc, blob with
  | Some loc, Some b =>
      if (length (dfa b) =? 0)%nat then d
      else
        let path := cache_path loc key in
        let tmp := tmp_path loc key pid in
        let data := cache_data b content_hash in
        let written n := <[tmp := {| f_data := take n data; f_mtime := now |}]> d in
        match io with
        | MkdirFails | OpenFails => d
        | FdopenFails => delete tmp (written 0%nat)
        | WriteFails => delete tmp (written 0%nat)
        | Dies n => written n
        | RenameFails => delete tmp (written (length data))
        | FlushCut n => rename_file tmp path (written n)
        | StoreDone => rename_file tmp path (written (length data))
        end
  | _, _ => d
  end.

(** ** Compiling a profile *)

Inductive compile_error := XmatchErr | GenErr | RegexErr | PolicydbErr.

(** What a profile is compiled from: its names and its blocks, and whether the
    other rules of the blocks and the policy database are accepted. *)
Record profile := {
  p_attach : attach; p_main_block : block; p_other_rules_ok : bool; p_policydb_ok : bool
}.

Section Compile.
Context (regex_ok : cstr -> bool) (domain_xattr kernel_oob : bool).
(** [aare_rules::create_dfablob] for the file automaton, by the control options
    and the version of the permission table. *)
Context (create_dfablob : Z -> Z -> list rule -> option dfa_blob).

Definition process_profile_regex (g : globals) (rules : list rule) : option (option dfa_blob) :=
  if (0 <? length rules)%nat then
    b ← create_dfablob (parseopts_control g) (kernel_supports_permstable32_version g) rules; Some (Some b)
  else Some None.

Definition compiled : Type := (attach * xmatch * option dfa_blob) + compile_error.

Definition process_profile_rules `{Digest ctx (list Z)} (stack : ctx) (io : store_io) (g : globals)
    (dfa_cacheloc : option cstr) (now pid : Z) (d : disk) (prof : profile) : disk * compiled :=
  let cache_key := hash_profile_file_rules g (p_main_block prof) in
  let content_hash := compute_content_hash stack g (p_main_block prof) in
  let '(file_dfa_cached, d) :=
    match dfa_cacheloc with
    | Some _ => dfa_cache_lookup_disk dfa_cacheloc now d cache_key content_hash
    | None => (None, d)
    end in
  match process_profile_name_xmatch regex_ok domain_xattr kernel_oob (p_attach prof) with
  | None => (d, inr XmatchErr)
  | Some (att, x) =>
      match gen_policy_re regex_ok (features_supports_stacking g) (p_main_block prof) [] with
      | None => (d, inr GenErr)
      | Some rules =>
          if negb (p_other_rules_ok prof) then (d, inr GenErr)
          else
            let finish d dfa := (d, if p_policydb_ok prof then inl (att, x, dfa) else inr PolicydbErr) in
            match file_dfa_cached with
            | Some b => finish d (Some b)
            | None =>
                match process_profile_regex g rules with
                | None => (d, inr RegexErr)
                | Some dfa =>
                    finish (dfa_cache_store_disk io dfa_cacheloc now pid d dfa cache_key content_hash) dfa
                end
            end
      end
  end.
End Compile.

(** ** Bytes *)

Lemma le_bytes_length n x : length (le_bytes n x) = n.
Proof. unfold le_bytes. by rewrite length_map, length_seq. Qed.

Lemma le_bytes_is_byte n x : Forall is_byte (le_bytes n x).
Proof.
  unfold le_bytes. apply Forall_forall. intros b (i & <- & _)%list_elem_of_In%in_map_iff.
  apply (wrap_range 8). lia.
Qed.
#[export] Hint Resolve le_bytes_is_byte : aa.

Lemma le_bytes_S n x : le_bytes (S n) x = u8 x :: le_bytes n (x / 256).
Proof.
  unfold le_bytes. cbn [seq map]. f_equal.
  rewrite <- seq_shift, map_map. apply map_ext. intros i. f_equal.
  rewrite !Z.shiftr_div_pow2, Z.div_div by lia. f_equal. change 256 with (2 ^ 8).
  rewrite <- Z.pow_add_r by lia. f_equal. lia.
Qed.

(** Reading back a word gives it modulo its size. *)
Lemma le_le_bytes n x : le (le_bytes n x) = x mod 2 ^ (8 * Z.of_nat n).
Proof.
  revert x. induction n as [|n IH]; intros x; [simpl; by rewrite Z.mod_1_r|].
  rewrite le_bytes_S. cbn [le]. rewrite IH. unfold u8, wrap.
  replace (8 * Z.of_nat (S n)) with (8 + 8 * Z.of_nat n) by lia. rewrite Z.pow_add_r by lia.
  change (2 ^ 8) with 256. rewrite Z.rem_mul_r by lia. lia.
Qed.

Lemma le_bytes_inj n x y :
  le_bytes n x = le_bytes n y -> x mod 2 ^ (8 * Z.of_nat n) = y mod 2 ^ (8 * Z.of_nat n).
Proof. intros H. by rewrite <- !le_le_bytes, H. Qed.

Definition in_int (x : Z) : Prop := - 2 ^ 31 <= x < 2 ^ 31.
Definition in_u32 (x : Z) : Prop := 0 <= x < 2 ^ 32.

Lemma int_mod_inj x y : in_int x -> in_int y -> x mod 2 ^ 32 = y mod 2 ^ 32 -> x = y.
Proof.
  unfold in_int. intros Hx Hy E. pose proof (Z.div_mod x (2 ^ 32)). pose proof (Z.div_mod y (2 ^ 32)).
  assert (- 1 <= x / 2 ^ 32 <= 0) by (split; [apply Z.div_le_lower_bound|apply Z.lt_succ_r, Z.div_lt_upper_bound]; lia).
  assert (- 1 <= y / 2 ^ 32 <= 0) by (split; [apply Z.div_le_lower_bound|apply Z.lt_succ_r, Z.div_lt_upper_bound]; lia).
  lia.
Qed.

Lemma u32_mod_inj x y : in_u32 x -> in_u32 y -> x mod 2 ^ 32 = y mod 2 ^ 32 -> x = y.
Proof. intros Hx Hy. by rewrite !Z.mod_small by done. Qed.

(** ** The hashed bytes determine what is compiled *)

Definition entry_bytes (e : cod_entry) : list Z := concat (entry_pieces e).
Definition content_bytes (g : globals) (b : block) : list Z :=
  concat (map entry_bytes (file_entries b)) ++ concat (globals_pieces g).

Lemma fold_left_concat {A B} (f : A -> B -> A) (ls : list (list B)) a :
  fold_left (fun a l => fold_left f l a) ls a = fold_left f (concat ls) a.
Proof.
  revert a. induction ls as [|l ls IH]; intros a; [done|]. cbn [fold_left concat]. by rewrite fold_left_app, IH.
Qed.

Lemma fold_left_map {A B C} (f : A -> B -> A) (h : C -> B) l a :
  fold_left (fun a c => f a (h c)) l a = fold_left f (map h l) a.
Proof. revert a. induction l as [|c l IH]; intros a; [done|]. apply IH. Qed.

Definition content_pieces (g : globals) (b : block) : list (list Z) :=
  concat (map entry_pieces (file_entries b)) ++ globals_pieces g.

Lemma content_pieces_concat g b : concat (content_pieces g b) = content_bytes g b.
Proof.
  unfold content_pieces, content_bytes. rewrite concat_app. f_equal.
  induction (file_entries b) as [|e es IH]; [done|]. cbn [map concat]. by rewrite concat_app, IH.
Qed.

Lemma byte_code c : is_byte (code c).
Proof. apply code_range. Qed.

Lemma c_string_bytes s : Forall is_byte (c_string s).
Proof.
  unfold c_string, bytes_of. apply Forall_app. split.
  - apply Forall_forall. intros b (c & <- & _)%list_elem_of_In%in_map_iff. apply byte_code.
  - auto with aa.
Qed.
#[export] Hint Resolve c_string_bytes : aa.

Lemma entry_pieces_bytes e : Forall (Forall is_byte) (entry_pieces e).
Proof.
  assert (is_byte (bool_value (subset e))) by (unfold is_byte; destruct (subset e); simpl; lia).
  unfold entry_pieces, sep, null_marker. destruct (link_name e), (nt_name e); cbn [app]; auto 20 with aa.
Qed.

Lemma content_pieces_bytes g b : Forall (Forall is_byte) (content_pieces g b).
Proof.
  unfold content_pieces. apply Forall_app. split.
  - apply Forall_concat, Forall_forall. intros l (e & <- & _)%list_elem_of_In%in_map_iff. apply entry_pieces_bytes.
  - unfold globals_pieces. auto 10 with aa.
Qed.

(** Through the interface of the digest: the content hash is the digest of the
    hashed bytes, whatever was on the stack. *)
Lemma compute_content_hash_spec `{Digest ctx D} (stack : ctx) g b :
  dg_fresh stack -> compute_content_hash stack g b = dg_hash (content_bytes g b).
Proof.
  intros Hf. unfold compute_content_hash. rewrite <- content_pieces_concat.
  rewrite <- (dg_pieces stack) by (done || apply content_pieces_bytes).
  f_equal. unfold content_pieces. rewrite fold_left_app. f_equal.
  unfold file_entries, blocks_of.
  rewrite (fold_left_map (fun c es => fold_left (fun c e => fold_left dg_update (entry_pieces e) c) es c) b_entries).
  rewrite fold_left_concat, (fold_left_map (fun c ps => fold_left dg_update ps c) entry_pieces).
  by rewrite fold_left_concat.
Qed.

(** What of an entry is told apart: [subset] only with a link name, and an empty
    transition name is as none. *)
Definition told (e : cod_entry) : cod_entry :=
  {| priority := priority e; name := name e; link_name := link_name e;
     nt_name := match nt_name e with Some [] => None | n => n end; perms := perms e; audit := audit e;
     rule_mode := rule_mode e; subset := match link_name e with Some _ => subset e | None => false end |}.

Definition entry_ok (e : cod_entry) : Prop :=
  cstr_ok (name e) /\ (forall l, link_name e = Some l -> cstr_ok l) /\
  (forall n, nt_name e = Some n -> cstr_ok n) /\ in_u32 (perms e) /\ in_int (priority e).

Definition globals_ok (g : globals) : Prop :=
  in_u32 (kernel_abi_version g) /\ in_u32 (parser_abi_version g) /\ in_int (parseopts_control g) /\
  in_int (kernel_supports_permstable32 g).

Definition same_hashed (g g' : globals) : Prop :=
  kernel_abi_version g = kernel_abi_version g' /\ parser_abi_version g = parser_abi_version g' /\
  parseopts_control g = parseopts_control g' /\ kernel_supports_permstable32 g = kernel_supports_permstable32 g'.

Lemma code_not_nul c : c <> NUL -> code c <> 0.
Proof. intros H E. apply H. apply code_inj. by rewrite E. Qed.

(** A string ends at its first zero byte. *)
Lemma c_string_split s s' r r' :
  cstr_ok s -> cstr_ok s' -> c_string s ++ r = c_string s' ++ r' -> s = s' /\ r = r'.
Proof.
  unfold c_string, bytes_of. intros Hs. revert s'.
  induction Hs as [|c s Hc _ IH]; intros [|c' s'] Hs'; cbn [map app].
  - by intros [= ->].
  - apply Forall_cons in Hs' as [Hc' _]. intros [= E _]. by apply code_not_nul in Hc'.
  - intros [= E _]. by apply code_not_nul in Hc.
  - apply Forall_cons in Hs' as [_ Hs']. intros [= Ec E]. apply code_inj in Ec as ->.
    by destruct (IH s' Hs' E) as [-> ->].
Qed.

Lemma le_bytes_split n x y r r' :
  le_bytes n x ++ r = le_bytes n y ++ r' ->
  x mod 2 ^ (8 * Z.of_nat n) = y mod 2 ^ (8 * Z.of_nat n) /\ r = r'.
Proof.
  intros H. apply app_inj_1 in H as [H ->]; [|by rewrite !le_bytes_length]. by apply le_bytes_inj in H.
Qed.

Lemma audit_value_inj a b : audit_value a mod 2 ^ 32 = audit_value b mod 2 ^ 32 -> a = b.
Proof. by destruct a, b. Qed.
Lemma mode_value_inj a b : mode_value a mod 2 ^ 32 = mode_value b mod 2 ^ 32 -> a = b.
Proof. by destruct a, b. Qed.

Definition link_bytes (e : cod_entry) : list Z :=
  match link_name e with Some l => c_string l ++ [bool_value (subset e)] | None => null_marker end.
Definition nt_bytes (e : cod_entry) : list Z :=
  match nt_name e with Some n => c_string n | None => null_marker end.

Lemma entry_bytes_eq e r :
  entry_bytes e ++ r =
  c_string (name e) ++ sep ++ le_bytes 4 (perms e) ++ le_bytes 4 (audit_value (audit e)) ++
  le_bytes 4 (mode_value (rule_mode e)) ++ le_bytes 4 (priority e) ++ sep ++
  link_bytes e ++ sep ++ nt_bytes e ++ sep ++ r.
Proof.
  unfold entry_bytes, entry_pieces, link_bytes, nt_bytes.
  destruct (link_name e), (nt_name e); cbn [app concat]; rewrite ?app_nil_r;
    repeat first [rewrite <- app_assoc | progress cbn [app]]; reflexivity.
Qed.

Lemma link_bytes_split e e' r r' :
  entry_ok e -> entry_ok e' -> link_bytes e ++ sep ++ r = link_bytes e' ++ sep ++ r' ->
  link_name e = link_name e' /\ subset (told e) = subset (told e') /\ r = r'.
Proof.
  intros (_ & Hl & _) (_ & Hl' & _). unfold link_bytes, told. cbn [subset].
  destruct (link_name e) as [l|], (link_name e') as [l'|]; rewrite <- ?app_assoc; intros H.
  - apply c_string_split in H as [-> H]; [|by apply Hl|by apply Hl']. cbn [app] in H.
    injection H as H H'. split_and!; [done| |done]. by destruct (subset e), (subset e').
  - change null_marker with (c_string []) in H.
    apply c_string_split in H as [-> H]; [|by apply Hl|constructor]. cbn [app sep] in H.
    injection H as H _. by destruct (subset e).
  - change null_marker with (c_string []) in H.
    apply c_string_split in H as [<- H]; [|constructor|by apply Hl']. cbn [app sep] in H.
    injection H as H _. by destruct (subset e').
  - injection H as H. done.
Qed.

Lemma nt_bytes_split e e' r r' :
  entry_ok e -> entry_ok e' -> nt_bytes e ++ r = nt_bytes e' ++ r' ->
  nt_name (told e) = nt_name (told e') /\ r = r'.
Proof.
  intros (_ & _ & Hn & _) (_ & _ & Hn' & _) H.
  assert (Hs : forall x, nt_bytes x = c_string (default [] (nt_name x)))
    by (intros x; unfold nt_bytes; by destruct (nt_name x)).
  rewrite !Hs in H. unfold told. cbn [nt_name].
  apply c_string_split in H as [H ->].
  - split; [|done]. destruct (nt_name e) as [[|]|], (nt_name e') as [[|]|]; simpl in H; congruence.
  - destruct (nt_name e); [by apply Hn|constructor].
  - destruct (nt_name e'); [by apply Hn'|constructor].
Qed.

Lemma entry_bytes_split e e' r r' :
  entry_ok e -> entry_ok e' -> entry_bytes e ++ r = entry_bytes e' ++ r' -> told e = told e' /\ r = r'.
Proof.
  intros Hok Hok'. rewrite !entry_bytes_eq. intros H.
  pose proof Hok as (Hn & _ & _ & Hp & Hpr). pose proof Hok' as (Hn' & _ & _ & Hp' & Hpr').
  apply c_string_split in H as [En H]; [|done|done]. apply app_inv_head in H.
  apply le_bytes_split in H as [Ep H]. apply le_bytes_split in H as [Ea H].
  apply le_bytes_split in H as [Em H]. apply le_bytes_split in H as [Epr H]. apply app_inv_head in H.
  apply (link_bytes_split e e') in H as (El & Es & H); [|done|done].
  apply (nt_bytes_split e e') in H as [Ent H]; [|done|done]. apply app_inv_head in H.
  apply audit_value_inj in Ea. apply mode_value_inj in Em.
  apply u32_mod_inj in Ep; [|done|done]. apply int_mod_inj in Epr; [|done|done].
  split; [|done]. unfold told in *. cbn [nt_name subset] in Ent, Es. by rewrite Ent, Es, En, El, Ep, Ea, Em, Epr.
Qed.

Lemma entry_bytes_length e : (0 < length (entry_bytes e))%nat.
Proof.
  rewrite <- (app_nil_r (entry_bytes e)), entry_bytes_eq, length_app. unfold c_string.
  rewrite length_app. simpl. lia.
Qed.

Lemma entries_split es es' t t' :
  Forall entry_ok es -> Forall entry_ok es' -> length t = length t' ->
  concat (map entry_bytes es) ++ t = concat (map entry_bytes es') ++ t' ->
  map told es = map told es' /\ t = t'.
Proof.
  intros Hes. revert es'. induction Hes as [|e es He _ IH]; intros [|e' es'] Hes' Ht; cbn [map concat].
  - done.
  - intros H. apply (f_equal length) in H. cbn [app] in H. rewrite !length_app in H.
    pose proof (entry_bytes_length e'). lia.
  - intros H. apply (f_equal length) in H. cbn [app] in H. rewrite !length_app in H.
    pose proof (entry_bytes_length e). lia.
  - rewrite <- !app_assoc. apply Forall_cons in Hes' as [He' Hes'].
    intros H. apply entry_bytes_split in H as [E H]; [|done|done].
    destruct (IH es' Hes' Ht H) as [E' ->]. by rewrite E, E'.
Qed.

Lemma told_bytes e e' : told e = told e' -> entry_bytes e = entry_bytes e'.
Proof.
  intros H. rewrite <- (app_nil_r (entry_bytes e)), <- (app_nil_r (entry_bytes e')), !entry_bytes_eq.
  unfold told in H. injection H as H1 H2 H3 H4 H5 H6 H7 H8.
  assert (link_bytes e = link_bytes e') as ->
    by (unfold link_bytes; rewrite H3 in *; by destruct (link_name e'); [rewrite H8|]).
  assert (nt_bytes e = nt_bytes e') as ->
    by (unfold nt_bytes; by destruct (nt_name e) as [[|]|], (nt_name e') as [[|]|]; simplify_eq).
  by rewrite H1, H2, H5, H6, H7.
Qed.

Lemma globals_bytes_inj g g' :
  globals_ok g -> globals_ok g' -> concat (globals_pieces g) = concat (globals_pieces g') -> same_hashed g g'.
Proof.
  intros (H1 & H2 & H3 & H4) (H1' & H2' & H3' & H4'). unfold globals_pieces. cbn [concat]. intros H.
  apply le_bytes_split in H as [E1 H]. apply le_bytes_split in H as [E2 H].
  apply le_bytes_split in H as [E3 H]. apply le_bytes_split in H as [E4 _].
  apply u32_mod_inj in E1, E2; try done. by apply int_mod_inj in E3, E4.
Qed.

Lemma cons_eq_inv {A} (x y : A) l l' : x :: l = y :: l' -> x = y /\ l = l'.
Proof. by intros [= -> ->]. Qed.

(** The hashed bytes of two profiles are equal exactly when the entries agree on
    what is told apart and the settings on what is hashed. *)
Lemma content_bytes_iff g g' b b' :
  globals_ok g -> globals_ok g' -> Forall entry_ok (file_entries b) -> Forall entry_ok (file_entries b') ->
  content_bytes g b = content_bytes g' b' <->
  map told (file_entries b) = map told (file_entries b') /\ same_hashed g g'.
Proof.
  intros Hg Hg' Hb Hb'. unfold content_bytes. split.
  - intros H. apply entries_split in H as [E H]; [|done|done|by rewrite !length_concat].
    split; [done|]. by apply globals_bytes_inj.
  - intros [E (E1 & E2 & E3 & E4)]. f_equal.
    + f_equal. clear -E. revert E. generalize (file_entries b'). induction (file_entries b) as [|e es IH];
        intros [|e' es'] E; try done. cbn [map] in *. apply cons_eq_inv in E as [E E'].
      by rewrite (told_bytes _ _ E), (IH _ E').
    + unfold globals_pieces. by rewrite E1, E2, E3, E4.
Qed.

(** ** What is not told apart does not matter to the rules *)

Section Told.
Context (regex_ok : cstr -> bool) (stacking : bool).

Lemma link_rule_told rules e tbuf :
  link_rule regex_ok rules (told e) tbuf = '(r, e') ← link_rule regex_ok rules e tbuf; Some (r, told e').
Proof.
  unfold link_rule. change (perms (told e)) with (perms e). destruct (has (perms e) AA_LINK_BITS); [|done].
  change (link_name (told e)) with (link_name e). change (audit (told e)) with (audit e).
  change (priority (told e)) with (priority e). change (rule_mode (told e)) with (rule_mode e).
  destruct (link_name e) as [l|] eqn:El.
  - destruct (convert (filter_slashes l) []) as [[t lbuf]|]; [|done]. cbn [mbind option_bind].
    assert (Hs : subset (told e) = subset e) by (unfold told; cbn [subset]; by rewrite El). rewrite Hs.
    destruct (add_rule_vec _ _ _ _ _ _ _ _); [|done]. cbn [mbind option_bind].
    unfold told, set_names. cbn. by rewrite El.
  - destruct (add_rule_vec _ _ _ _ _ _ _ _); done.
Qed.

(** The rules of an entry, without what is left of it. *)
Definition entry_rules (e : cod_entry) (rules : list rule) : option (list rule) :=
  '(rules, _, _) ← process_dfa_entry regex_ok stacking rules e; Some rules.

Lemma entry_rules_told e rules : entry_rules (told e) rules = entry_rules e rules.
Proof.
  unfold entry_rules, process_dfa_entry. change (perms (told e)) with (perms e).
  set (e0 := if negb (is_change_profile_perms (perms e)) then set_names e _ _ else e).
  set (e1 := if negb (is_change_profile_perms (perms e)) then set_names (told e) _ _ else told e).
  assert (E1 : e1 = told e0) by (unfold e1, e0; by destruct (is_change_profile_perms (perms e))).
  rewrite E1. clearbody e0. clear e1 E1.
  change (name (told e0)) with (name e0). destruct (convert (name e0) []) as [[t tbuf]|]; [|done].
  cbn [mbind option_bind]. change (name_rule regex_ok rules (told e0) tbuf) with (name_rule regex_ok rules e0 tbuf).
  destruct (name_rule _ _ _ _) as [r1|]; [|done]. cbn [mbind option_bind]. rewrite link_rule_told.
  destruct (link_rule _ _ _ _) as [[r2 e2]|]; [|done]. cbn [mbind option_bind].
  change (change_profile_rules regex_ok stacking r2 (told e2) tbuf)
    with (change_profile_rules regex_ok stacking r2 e2 tbuf).
  by destruct (change_profile_rules _ _ _ _ _).
Qed.

Lemma gen_policy_re_told b b' rules :
  map told (file_entries b) = map told (file_entries b') ->
  gen_policy_re regex_ok stacking b rules = gen_policy_re regex_ok stacking b' rules.
Proof.
  rewrite !gen_policy_re_entries. unfold post_process. fold entry_rules.
  generalize (file_entries b'). revert rules.
  induction (file_entries b) as [|e es IH]; intros rules [|e' es'] E; try done.
  cbn [map] in E. apply cons_eq_inv in E as [E E']. cbn [foldM].
  rewrite <- (entry_rules_told e), <- (entry_rules_told e'), E.
  destruct (entry_rules (told e') rules); [by apply IH|done].
Qed.
End Told.

(** ** Cache files *)

Lemma take_le_bytes n x r : take n (le_bytes n x ++ r) = le_bytes n x.
Proof. apply take_app_length'. by rewrite le_bytes_length. Qed.

Lemma drop_le_bytes n k x r : drop (n + k) (le_bytes n x ++ r) = drop k r.
Proof. rewrite drop_app_ge by (rewrite le_bytes_length; lia). by rewrite le_bytes_length, Nat.add_comm, Nat.add_sub. Qed.

Definition header_ok (h : dfa_perms_header) : Prop :=
  in_u32 (h_magic h) /\ in_u32 (h_version h) /\ 0 <= h_dfa_size h < 2 ^ 64 /\ in_u32 (h_perms_count h) /\
  in_u32 (h_reserved h) /\ length (h_content_sha256 h) = 32%nat.

Lemma header_bytes_length h : header_ok h -> length (header_bytes h) = header_size.
Proof. intros (_ & _ & _ & _ & _ & H). unfold header_bytes. by rewrite !length_app, !le_bytes_length, H. Qed.

Lemma read_header_bytes h rest : header_ok h -> read_header (header_bytes h ++ rest) = Some h.
Proof.
  intros Hok. unfold read_header. rewrite length_app, (header_bytes_length h Hok).
  destruct (_ <? _)%nat eqn:E; breflect; [lia|]. clear E. destruct Hok as (H1 & H2 & H3 & H4 & H5 & H6).
  destruct h as [m v ds pc rs sha]. unfold header_bytes. cbn [h_magic h_version h_dfa_size h_perms_count h_reserved h_content_sha256] in *.
  rewrite <- !app_assoc.
  change (drop 4) with (@drop Z (4 + 0)). change (drop 8) with (@drop Z (4 + (4 + 0))).
  change (drop 16) with (@drop Z (4 + (4 + (8 + 0)))). change (drop 20) with (@drop Z (4 + (4 + (8 + (4 + 0))))).
  change (drop 24) with (@drop Z (4 + (4 + (8 + (4 + (4 + 0)))))).
  rewrite !drop_le_bytes, !drop_0, !take_le_bytes, !le_le_bytes. rewrite take_app_length' by done.
  by rewrite !Z.mod_small.
Qed.

Definition row_ok (row : aa_perms) : Prop := length row = aa_perms_words /\ Forall in_u32 row.
Definition blob_ok (b : dfa_blob) : Prop :=
  Forall row_ok (perms_table b) /\ Z.of_nat (length (perms_table b)) < 2 ^ 32 /\ Z.of_nat (length (dfa b)) < 2 ^ 64.

Lemma row_bytes_length row : row_ok row -> length (row_bytes row) = 52%nat.
Proof.
  intros [H _]. unfold row_bytes. assert (Hl : forall l, length (concat (map (le_bytes 4) l)) = (4 * length l)%nat).
  { induction l as [|x l IH]; [done|]. cbn [map concat]. rewrite length_app, le_bytes_length, IH. simpl. lia. }
  by rewrite Hl, H.
Qed.

Lemma read_row_bytes row rest : row_ok row -> read_row (row_bytes row ++ rest) = row.
Proof.
  intros [Hl Hw]. unfold read_row. rewrite <- Hl. clear Hl. unfold row_bytes.
  induction Hw as [|x row Hx _ IH]; [done|]. cbn [length seq map concat]. rewrite <- app_assoc. f_equal.
  - change (4 * 0)%nat with 0%nat. rewrite drop_0, take_le_bytes, le_le_bytes. by apply Z.mod_small.
  - rewrite <- seq_shift, map_map. rewrite <- IH at 2. apply map_ext. intros i.
    replace (4 * S i)%nat with (4 + 4 * i)%nat by lia. by rewrite drop_le_bytes.
Qed.

Lemma rows_length rows : Forall row_ok rows -> length (concat (map row_bytes rows)) = (52 * length rows)%nat.
Proof.
  induction 1 as [|r rows Hr _ IH]; [done|]. cbn [map concat length].
  rewrite length_app, IH, row_bytes_length by done. lia.
Qed.

Lemma read_rows_bytes rows : Forall row_ok rows -> read_rows (length rows) (concat (map row_bytes rows)) = rows.
Proof.
  induction 1 as [|r rows Hr _ IH]; [done|]. unfold read_rows in *. cbn [map concat length seq].
  change (52 * 0)%nat with 0%nat. rewrite drop_0, read_row_bytes by done. f_equal.
  rewrite <- seq_shift, map_map. rewrite <- IH at 2. apply map_ext. intros i.
  rewrite drop_app_ge by (rewrite row_bytes_length by done; lia). rewrite row_bytes_length by done.
  do 2 f_equal. lia.
Qed.

(** The limits a lookup puts on a blob. *)
Definition within_limits (b : dfa_blob) : bool :=
  (0 <? Z.of_nat (length (dfa b))) && (Z.of_nat (length (dfa b)) <=? DFA_CACHE_MAX_DFA_SIZE) &&
  (Z.of_nat (length (perms_table b)) <=? DFA_CACHE_MAX_PERMS).

Definition blob_bytes (b : dfa_blob) : list Z := dfa b ++ concat (map row_bytes (perms_table b)).
Definition blob_header (b : dfa_blob) (h : list Z) : dfa_perms_header :=
  {| h_magic := DFA_CACHE_MAGIC; h_version := DFA_CACHE_VERSION; h_dfa_size := Z.of_nat (length (dfa b));
     h_perms_count := Z.of_nat (length (perms_table b)); h_reserved := 0; h_content_sha256 := h |}.

Lemma cache_data_eq b h : blob_ok b -> cache_data b h = header_bytes (blob_header b h) ++ blob_bytes b.
Proof.
  intros (_ & Ht & _). unfold cache_data, u32. rewrite wrap_small by lia. rewrite Nat2Z.id, firstn_all. done.
Qed.

Lemma blob_header_ok b h : blob_ok b -> length h = 32%nat -> header_ok (blob_header b h).
Proof. intros (_ & Ht & Hd) Hh. unfold header_ok, in_u32, blob_header, DFA_CACHE_MAGIC, DFA_CACHE_VERSION. simpl. lia. Qed.

(** A file with the header of a blob and any body. *)
Lemma decode_body b h h' body :
  blob_ok b -> length h = 32%nat ->
  decode_cache (header_bytes (blob_header b h) ++ body) h' =
    if negb (bool_decide (h = h')) then None
    else if negb (within_limits b) then None
    else if Z.of_nat (length (dfa b)) >? Z.of_nat (length body) then None
    else if aa_perms_size * Z.of_nat (length (perms_table b)) >?
            Z.of_nat (length body) - Z.of_nat (length (dfa b)) then None
    else Some (Blob (take (length (dfa b)) body)
                    (read_rows (length (perms_table b)) (drop (length (dfa b)) body))).
Proof.
  intros Hb Hh. pose proof (blob_header_ok b h Hb Hh) as Hok. unfold decode_cache.
  rewrite read_header_bytes by done. cbn [mbind option_bind].
  rewrite length_app, header_bytes_length by done.
  cbn [blob_header h_magic h_version h_dfa_size h_perms_count h_content_sha256].
  change (negb (DFA_CACHE_MAGIC =? DFA_CACHE_MAGIC) || negb (DFA_CACHE_VERSION =? DFA_CACHE_VERSION)) with false.
  cbv beta iota. destruct (negb (bool_decide (h = h'))); [done|].
  assert (Hlim : (Z.of_nat (length (dfa b)) =? 0) || (Z.of_nat (length (dfa b)) >? DFA_CACHE_MAX_DFA_SIZE) ||
    (Z.of_nat (length (perms_table b)) >? DFA_CACHE_MAX_PERMS) = negb (within_limits b)).
  { unfold within_limits. rewrite !negb_andb, !Z.gtb_ltb, !Z.leb_antisym, !negb_involutive. f_equal. f_equal.
    destruct (_ =? 0) eqn:E1, (_ <? _) eqn:E2; breflect; try lia; done. }
  rewrite Hlim. destruct (negb (within_limits b)); [done|].
  rewrite Nat2Z.inj_add, Z.add_simpl_l, !Nat2Z.id.
  rewrite drop_app_length' by (by rewrite header_bytes_length). done.
Qed.

Lemma blob_bytes_length b :
  blob_ok b -> length (blob_bytes b) = (length (dfa b) + 52 * length (perms_table b))%nat.
Proof. intros (Hr & _). unfold blob_bytes. by rewrite length_app, rows_length. Qed.

(** A whole file is read back if it is within the limits; a file cut anywhere is
    never used. *)
Lemma decode_cut b h h' n :
  blob_ok b -> length h = 32%nat ->
  decode_cache (take n (cache_data b h)) h' =
    if bool_decide (length (cache_data b h) <= n)%nat && bool_decide (h = h') && within_limits b
    then Some b else None.
Proof.
  intros Hb Hh. pose proof (blob_header_ok b h Hb Hh) as Hok. rewrite cache_data_eq by done.
  pose proof (header_bytes_length _ Hok) as Hl. pose proof (blob_bytes_length b Hb) as Hbl.
  destruct (Nat.lt_ge_cases n header_size) as [Hn|Hn].
  - rewrite bool_decide_eq_false_2 by (rewrite length_app; lia). cbn [andb].
    unfold decode_cache, read_header. rewrite length_take, length_app, Hl.
    destruct (_ <? _)%nat eqn:E; breflect; [done|lia].
  - rewrite take_app_ge by lia. rewrite Hl, decode_body by done.
    rewrite length_take, length_app, Hl, Hbl.
    destruct (bool_decide (h = h')); cbn [negb]; [|by rewrite andb_false_r].
    destruct (within_limits b); cbn [negb]; [|by rewrite andb_false_r]. rewrite !andb_true_r.
    unfold aa_perms_size. rewrite !Z.gtb_ltb.
    destruct (bool_decide_reflect (header_size + (length (dfa b) + 52 * length (perms_table b)) <= n)%nat) as [Hc|Hc].
    + rewrite (take_ge (blob_bytes b)) by lia. rewrite !(proj2 (Z.ltb_ge _ _)) by lia. unfold blob_bytes.
      rewrite take_app_length, drop_app_length, read_rows_bytes by apply Hb. by destruct b.
    + split_case; [done|]. split_case; [done|]. breflect. lia.
Qed.

(** ** Storing and looking up *)

Lemma cache_path_fits loc key : (length loc <= 4000)%nat ->
  length (cache_path loc key) = (length loc + 21)%nat.
Proof.
  intros H. unfold cache_path. rewrite length_take, !length_app.
  change (length (hex16 key)) with 16%nat. change (length $"/") with 1%nat. change (length $".dfa") with 4%nat.
  unfold DFA_PATH_MAX. lia.
Qed.

Lemma tmp_path_differs loc key pid : (length loc <= 4000)%nat -> tmp_path loc key pid <> cache_path loc key.
Proof.
  intros H E. apply (f_equal length) in E. rewrite cache_path_fits in E by done.
  unfold tmp_path in E. rewrite length_take, !length_app in E.
  change (length (hex16 key)) with 16%nat in E. change (length $"/") with 1%nat in E.
  change (length $".dfa.tmp.") with 9%nat in E. unfold DFA_PATH_MAX in E. lia.
Qed.

(** A file left by a store is an earlier one or a prefix of the new data. *)
Lemma store_files io loc now pid d b key h path f :
  dfa_cache_store_disk io loc now pid d b key h !! path = Some f ->
  d !! path = Some f \/ exists blob n, b = Some blob /\ f_data f = take n (cache_data blob h).
Proof.
  unfold dfa_cache_store_disk. destruct loc as [loc|]; [|by left]. destruct b as [b|]; [|by left].
  destruct (length (dfa b) =? 0)%nat; [by left|].
  assert (Hdel : forall n, delete (tmp_path loc key pid)
     (<[tmp_path loc key pid := {| f_data := take n (cache_data b h); f_mtime := now |}]> d) !! path = Some f ->
     d !! path = Some f).
  { intros n. rewrite lookup_delete_Some, lookup_insert_Some. intros [Hne [[? _]|[_ ?]]]; [done|done]. }
  assert (Hren : forall n, rename_file (tmp_path loc key pid) (cache_path loc key)
     (<[tmp_path loc key pid := {| f_data := take n (cache_data b h); f_mtime := now |}]> d) !! path = Some f ->
     d !! path = Some f \/ f_data f = take n (cache_data b h)).
  { intros n H. unfold rename_file in H. rewrite lookup_insert_eq in H.
    apply lookup_insert_Some in H as [[_ <-]|[_ H]]; [by right|left; by apply (Hdel n)]. }
  destruct io; intros H; [by left|by left|left; by apply (Hdel 0%nat)|left; by apply (Hdel 0%nat)| |
    left; by apply (Hdel (length (cache_data b h)))| |]; try apply Hren in H.
  - apply lookup_insert_Some in H as [[_ <-]|[_ H]]; [|by left]. right. by exists b, n.
  - destruct H as [H|H]; [by left|right; by exists b, n].
  - destruct H as [H|H]; [by left|right; by exists b, (length (cache_data b h))].
Qed.

(** How much of its data a store that publishes an entry has written. *)
Definition published (io : store_io) (data : list Z) : list Z :=
  match io with FlushCut n => take n data | _ => data end.

Lemma store_published io loc now pid d b key h :
  dfa b <> [] -> publishes io = true ->
  dfa_cache_store_disk io (Some loc) now pid d (Some b) key h !! cache_path loc key =
    Some {| f_data := published io (cache_data b h); f_mtime := now |}.
Proof.
  intros Hd Hio. unfold dfa_cache_store_disk. destruct (length (dfa b) =? 0)%nat eqn:E; breflect.
  { by apply nil_length_inv in E. }
  destruct io; try done; unfold rename_file; rewrite lookup_insert_eq, lookup_insert_eq; [done|].
  by rewrite firstn_all.
Qed.

Lemma lookup_decode loc now d key h :
  fst (dfa_cache_lookup_disk (Some loc) now d key h) =
    f ← d !! cache_path loc key; decode_cache (f_data f) h.
Proof.
  unfold dfa_cache_lookup_disk. destruct (d !! cache_path loc key) as [f|]; [|done]. cbn [mbind option_bind].
  by destruct (decode_cache (f_data f) h).
Qed.

(** C23: A stored automaton is found again under its key and content hash exactly
    when it is within the limits of a lookup and was written whole, and not
    under another hash; a store that fails before it renames its file leaves the
    entry as it was; and whatever a store leaves behind, the partial file of a
    process that died or of a full disk included, is never read as anything but
    the stored automaton. *)
Theorem dfa_cache_store_lookup io loc now now' pid d b key h h' :
  blob_ok b -> length h = 32%nat -> (length loc <= 4000)%nat -> dfa b <> [] ->
  let d' := dfa_cache_store_disk io (Some loc) now pid d (Some b) key h in
  (publishes io = true ->
     fst (dfa_cache_lookup_disk (Some loc) now' d' key h') =
       if bool_decide (published io (cache_data b h) = cache_data b h) && bool_decide (h = h') && within_limits b
       then Some b else None) /\
  (publishes io = false -> d' !! cache_path loc key = d !! cache_path loc key) /\
  (forall path f b', d' !! path = Some f -> decode_cache (f_data f) h' = Some b' ->
     d !! path = Some f \/ (h' = h /\ b' = b)).
Proof.
  intros Hb Hh Hloc Hd. cbv zeta. split_and!.
  - intros Hio. rewrite lookup_decode, store_published by done. cbn [mbind option_bind f_data].
    assert (Hp : exists n, published io (cache_data b h) = take n (cache_data b h)).
    { destruct io; try (exists (length (cache_data b h)); by rewrite firstn_all). by exists n. }
    destruct Hp as [n ->]. rewrite decode_cut by done.
    rewrite (bool_decide_ext (length (cache_data b h) <= n)%nat (take n (cache_data b h) = cache_data b h)); [done|].
    split; [apply take_ge|]. intros E. apply (f_equal length) in E. rewrite length_take in E. lia.
  - intros Hio. pose proof (tmp_path_differs loc key pid Hloc) as Hne.
    unfold dfa_cache_store_disk. destruct (length (dfa b) =? 0)%nat; [done|].
    destruct io; try done; rewrite ?lookup_delete_ne, ?lookup_insert_ne by done; done.
  - intros path f b' Hf Hdec. apply store_files in Hf as [Hf|(b0 & n & [= <-] & Hf)]; [by left|right].
    rewrite Hf, decode_cut in Hdec by done.
    destruct (_ && _) eqn:E; [|done]. apply andb_true_iff in E as [[_ E%bool_decide_eq_true]%andb_true_iff _].
    injection Hdec as <-. done.
Qed.

(** The smallest blob of each kind of field, and the hashes of a test. *)
Definition sample_blob : dfa_blob := Blob [1; 2; 3] [[1; 0; 0; 0; 0; 0; 0; 0; 0; 0; 0; 0; 0]].
Definition zero_hash : list Z := repeat 0 32.

Lemma sample_blob_ok : blob_ok sample_blob.
Proof.
  unfold blob_ok, row_ok, in_u32. split; [|simpl; lia].
  apply Forall_cons_2; [split; [done|]|apply Forall_nil_2].
  repeat (apply Forall_cons_2; [lia|]). apply Forall_nil_2.
Qed.

Lemma dfa_cache_store_lookup_witness :
  let d' := dfa_cache_store_disk StoreDone (Some $"/c") 0 7 ∅ (Some sample_blob) 5 zero_hash in
  fst (dfa_cache_lookup_disk (Some $"/c") 1 d' 5 zero_hash) = Some sample_blob.
Proof.
  destruct (dfa_cache_store_lookup StoreDone $"/c" 0 1 7 ∅ sample_blob 5 zero_hash zero_hash) as [H _];
    [apply sample_blob_ok|reflexivity|simpl; lia|discriminate|].
  exact (H eq_refl).
Defined.

(** ** The cache is transparent *)

Section Transparent.
Context `{DG : Digest ctx (list Z)}.
Context (regex_ok : cstr -> bool) (domain_xattr kernel_oob : bool).
Context (create_dfablob : Z -> Z -> list rule -> option dfa_blob).

(** What is compiled with one cache directory. *)
Context (uses : globals -> block -> Prop).

(** The uses of a cache directory: values fit their types, the digest has 32
    bytes and does not collide on them, and the settings that are not hashed
    are always the same; automata have the size of their format. *)
Record uses_ok : Prop := {
  uo_globals : forall g b, uses g b -> globals_ok g;
  uo_entries : forall g b, uses g b -> Forall entry_ok (file_entries b);
  uo_settings : forall g b g' b', uses g b -> uses g' b' ->
    kernel_supports_permstable32_version g = kernel_supports_permstable32_version g' /\
    features_supports_stacking g = features_supports_stacking g';
  uo_length : forall g b, uses g b -> length (dg_hash (content_bytes g b)) = 32%nat;
  uo_digest : forall g b g' b', uses g b -> uses g' b' ->
    dg_hash (content_bytes g b) = dg_hash (content_bytes g' b') -> content_bytes g b = content_bytes g' b';
  uo_blob : forall c v rules b, create_dfablob c v rules = Some b -> blob_ok b
}.

(** The automaton of a profile, without a cache. *)
Definition file_dfa (g : globals) (b : block) : option (option dfa_blob) :=
  rules ← gen_policy_re regex_ok (features_supports_stacking g) b [];
  process_profile_regex create_dfablob g rules.

(** Every file of the directory that a lookup of a use would accept is the
    automaton of that use. *)
Definition honest (d : disk) : Prop :=
  forall path f g b blob, d !! path = Some f -> uses g b ->
    decode_cache (f_data f) (dg_hash (content_bytes g b)) = Some blob -> file_dfa g b = Some (Some blob).

Lemma honest_empty : honest ∅.
Proof. intros path f g b blob H. by rewrite lookup_empty in H. Qed.

Lemma file_dfa_hashed g b g' b' :
  uses_ok -> uses g b -> uses g' b' ->
  dg_hash (content_bytes g b) = dg_hash (content_bytes g' b') -> file_dfa g b = file_dfa g' b'.
Proof.
  intros U Hu Hu' E. apply (uo_digest U) in E; [|done|done].
  apply content_bytes_iff in E as [Et (_ & _ & Ec & _)];
    [|by eapply uo_globals|by eapply uo_globals|by eapply uo_entries|by eapply uo_entries].
  destruct (uo_settings U _ _ _ _ Hu Hu') as [Ev Es].
  unfold file_dfa, process_profile_regex. rewrite Es, Ec, Ev. by rewrite (gen_policy_re_told _ _ b b') by done.
Qed.

Lemma honest_store io loc now pid d dfa g b key :
  uses_ok -> honest d -> uses g b -> file_dfa g b = Some dfa ->
  honest (dfa_cache_store_disk io loc now pid d dfa key (dg_hash (content_bytes g b))).
Proof.
  intros U Hd Hu Hf path f g' b' blob' Hl Hu' Hdec.
  apply store_files in Hl as [Hl|(blob & n & -> & Hn)]; [by eapply Hd|].
  assert (Hok : blob_ok blob).
  { unfold file_dfa, process_profile_regex in Hf. destruct (gen_policy_re _ _ _ _) as [rules|]; [|done].
    cbn [mbind option_bind] in Hf. destruct (0 <? length rules)%nat; [|done].
    destruct (create_dfablob _ _ _) as [x|] eqn:Ex; [|done]. cbn in Hf. injection Hf as ->.
    by eapply uo_blob. }
  rewrite Hn, decode_cut in Hdec by (done || by apply (uo_length U)).
  destruct (_ && _) eqn:E; [|done]. apply andb_true_iff in E as [[_ E%bool_decide_eq_true]%andb_true_iff _].
  injection Hdec as <-. rewrite <- Hf. by apply file_dfa_hashed.
Qed.

Lemma honest_lookup loc now d key h : honest d -> honest (snd (dfa_cache_lookup_disk loc now d key h)).
Proof.
  intros Hd. unfold dfa_cache_lookup_disk. destruct loc as [loc|]; [|done].
  destruct (d !! cache_path loc key) as [f|] eqn:Ef; [|done]. destruct (decode_cache _ _); [|done]. cbn [snd].
  destruct (_ >? _); [|done]. intros path f' g b blob Hl Hu Hdec.
  apply lookup_insert_Some in Hl as [[<- <-]|[_ Hl]]; by eapply Hd.
Qed.

Lemma lookup_honest loc now d g b key blob :
  honest d -> uses g b ->
  fst (dfa_cache_lookup_disk loc now d key (dg_hash (content_bytes g b))) = Some blob ->
  file_dfa g b = Some (Some blob).
Proof.
  intros Hd Hu. destruct loc as [loc|]; [|done]. rewrite lookup_decode.
  destruct (d !! cache_path loc key) as [f|] eqn:Ef; [|done]. cbn [mbind option_bind]. by eapply Hd.
Qed.

(** One profile of a run: what happens around it, and the profile. *)
Record job := {
  j_stack : ctx; j_io : store_io; j_globals : globals; j_now : Z; j_pid : Z; j_profile : profile
}.

Definition run_job (loc : option cstr) (d : disk) (j : job) : disk * compiled :=
  process_profile_rules regex_ok domain_xattr kernel_oob create_dfablob (j_stack j) (j_io j) (j_globals j)
    loc (j_now j) (j_pid j) d (j_profile j).

Fixpoint run_jobs (loc : option cstr) (d : disk) (jobs : list job) : list compiled :=
  match jobs with
  | [] => []
  | j :: jobs => let '(d, r) := run_job loc d j in r :: run_jobs loc d jobs
  end.

Lemma run_job_honest loc d j :
  uses_ok -> honest d -> uses (j_globals j) (p_main_block (j_profile j)) -> dg_fresh (j_stack j) ->
  honest (fst (run_job loc d j)) /\ snd (run_job loc d j) = snd (run_job None ∅ j).
Proof.
  intros U Hd Hu Hfresh. unfold run_job, process_profile_rules.
  set (g := j_globals j) in *. set (b := p_main_block (j_profile j)) in *.
  rewrite (compute_content_hash_spec _ g b Hfresh). set (h := dg_hash (content_bytes g b)).
  set (key := hash_profile_file_rules g b).
  assert (Hlk : exists cached d1, (match loc with Some _ => dfa_cache_lookup_disk loc (j_now j) d key h
      | None => (None, d) end) = (cached, d1) /\ honest d1 /\
      (forall blob, cached = Some blob -> file_dfa g b = Some (Some blob))).
  { destruct loc as [loc|]; [|exists None, d; by split_and!].
    pose proof (honest_lookup (Some loc) (j_now j) d key h Hd) as H1.
    pose proof (fun blob => lookup_honest (Some loc) (j_now j) d g b key blob Hd Hu) as H2. fold h in H2.
    destruct (dfa_cache_lookup_disk (Some loc) (j_now j) d key h) as [cached d1]. exists cached, d1. by split_and!. }
  destruct Hlk as (cached & d1 & -> & Hd1 & Hc).
  destruct (process_profile_name_xmatch _ _ _ _) as [[att x]|]; [|done].
  unfold file_dfa in Hc.
  destruct (gen_policy_re regex_ok (features_supports_stacking g) b []) as [rules|] eqn:Eg; [|done].
  cbn [mbind option_bind] in Hc. destruct (negb _); [done|].
  destruct cached as [blob|].
  - rewrite (Hc blob eq_refl). done.
  - destruct (process_profile_regex create_dfablob g rules) as [dfa|] eqn:Ep; [|done]. cbn [fst snd].
    split; [|done]. apply honest_store; try done. unfold file_dfa. by rewrite Eg.
Qed.

Lemma run_jobs_uncached loc d jobs :
  uses_ok -> honest d ->
  Forall (fun j => uses (j_globals j) (p_main_block (j_profile j)) /\ dg_fresh (j_stack j)) jobs ->
  run_jobs loc d jobs = map (fun j => snd (run_job None ∅ j)) jobs.
Proof.
  intros U Hd Hj. revert d Hd. induction Hj as [|j jobs [Hu Hf] _ IH]; intros d Hd; [done|].
  cbn [run_jobs map]. destruct (run_job_honest loc d j U Hd Hu Hf) as [Hd' Hr].
  destruct (run_job loc d j) as [d' r]. cbn [fst snd] in Hd', Hr. by rewrite Hr, IH.
Qed.
End Transparent.

(** C13: The cache is transparent.  Any sequence of compilations that share a
    directory, starting empty, with stores that may fail or die at any step,
    gives the profiles that compiling without a cache gives, provided the
    digest does not collide on what is compiled, and the version of the
    permission table and the stacking feature, which are not hashed, do not
    change. *)
Theorem dfa_cache_transparent `{DG : Digest ctx (list Z)} regex_ok xattr oob create uses loc jobs :
  uses_ok create uses ->
  Forall (fun j => uses (j_globals j) (p_main_block (j_profile j)) /\ dg_fresh (j_stack j)) jobs ->
  run_jobs regex_ok xattr oob create loc ∅ jobs =
  map (fun j => snd (run_job regex_ok xattr oob create None ∅ j)) jobs.
Proof. intros U. apply run_jobs_uncached with (uses := uses); [done|]. apply honest_empty. Qed.

Section Demo.
Definition demo_globals (version : Z) : globals :=
  {| kernel_abi_version := 9; parser_abi_version := 2; parseopts_control := 1;
     kernel_supports_permstable32 := 1; kernel_supports_permstable32_version := version;
     features_supports_stacking := true |}.
Definition demo_block (perms : Z) : block := Block [new_entry $"/etc/f" perms None] [] [].
(** An automaton that shows what it was made from. *)
Definition demo_create (control version : Z) (rules : list rule) : option dfa_blob :=
  Some (Blob [u8 version; u8 (Z.of_nat (length rules))] [repeat (u32 (fold_right Z.lor 0 (map r_perms rules))) 13]).
Definition demo_job (version perms : Z) : job :=
  {| j_stack := start; j_io := StoreDone; j_globals := demo_globals version; j_now := 0; j_pid := 1;
     j_profile := {| p_attach := {| at_name := $"p"; at_attachment := None; at_altnames := []; at_xattrs := [] |};
                     p_main_block := demo_block perms; p_other_rules_ok := true; p_policydb_ok := true |} |}.
Definition demo_uses (g : globals) (b : block) : Prop := g = demo_globals 3 /\ (b = demo_block 4 \/ b = demo_block 6).
Definition demo_result (version perms : Z) : compiled :=
  inl ({| at_name := $"p"; at_attachment := None; at_altnames := []; at_xattrs := [] |}, NoXmatch,
       Some (Blob [version; 1] [repeat perms 13])).
End Demo.

Lemma demo_entries_ok p : 0 <= p < 2 ^ 32 -> Forall entry_ok (file_entries (demo_block p)).
Proof.
  intros Hp. change (file_entries (demo_block p)) with [new_entry $"/etc/f" p None].
  apply Forall_cons_2; [|apply Forall_nil_2]. unfold entry_ok, in_u32, in_int. cbn.
  split_and!; [|done|done|lia|lia..]. repeat constructor; discriminate.
Qed.

Lemma demo_uses_ok : uses_ok (DG := sha256_digest) demo_create demo_uses.
Proof.
  assert (Hne : dg_hash (Digest := sha256_digest) (content_bytes (demo_globals 3) (demo_block 4)) <>
    dg_hash (content_bytes (demo_globals 3) (demo_block 6))) by (vm_compute; discriminate).
  split.
  - intros g b [-> _]. unfold globals_ok, in_u32, in_int. cbn. lia.
  - intros g b [_ [-> | ->]]; apply demo_entries_ok; lia.
  - intros g b g' b' [-> _] [-> _]. done.
  - intros g b [-> [-> | ->]]; vm_compute; reflexivity.
  - intros g b g' b' [-> [-> | ->]] [-> [-> | ->]] E;
      [reflexivity|destruct (Hne E)|destruct (Hne (eq_sym E))|reflexivity].
  - intros c v rules b [= <-]. unfold blob_ok, row_ok. cbn [perms_table dfa length]. split_and!; [|lia|lia].
    apply Forall_cons_2; [|apply Forall_nil_2]. split; [done|].
    repeat (apply Forall_cons_2; [apply u32_word|]). apply Forall_nil_2.
Qed.

Lemma dfa_cache_transparent_witness :
  run_jobs (DG := sha256_digest) ok_regex true true demo_create (Some $"/c") ∅
    [demo_job 3 4; demo_job 3 6; demo_job 3 4] = [demo_result 3 4; demo_result 3 6; demo_result 3 4].
Proof.
  rewrite (dfa_cache_transparent (DG := sha256_digest) ok_regex true true demo_create demo_uses
    (Some $"/c") [demo_job 3 4; demo_job 3 6; demo_job 3 4] demo_uses_ok).
  - vm_compute. reflexivity.
  - repeat (apply Forall_cons_2; [split; [split; [reflexivity|cbn; tauto]|reflexivity]|]). apply Forall_nil_2.
Defined.

(** The settings with another version of the permission table. *)
Definition set_version (g : globals) (version : Z) : globals :=
  {| kernel_abi_version := kernel_abi_version g; parser_abi_version := parser_abi_version g;
     parseopts_control := parseopts_control g; kernel_supports_permstable32 := kernel_supports_permstable32 g;
     kernel_supports_permstable32_version := version;
     features_supports_stacking := features_supports_stacking g |}.

(** The version of the permission table is in neither hash: after a profile is
    compiled for one version with a working cache, the next compilation for
    another version gets the automaton made for the first, provided it is
    within the limits. *)
Theorem dfa_cache_ignores_version `{DG : Digest ctx (list Z)} regex_ok xattr oob create loc version j att x b :
  j_io j = StoreDone -> dg_fresh (j_stack j) -> dfa b <> [] -> blob_ok b -> within_limits b = true ->
  length (dg_hash (content_bytes (j_globals j) (p_main_block (j_profile j)))) = 32%nat ->
  snd (run_job regex_ok xattr oob create (Some loc) ∅ j) = inl (att, x, Some b) ->
  let j' := {| j_stack := j_stack j; j_io := j_io j; j_globals := set_version (j_globals j) version;
               j_now := j_now j; j_pid := j_pid j; j_profile := j_profile j |} in
  run_jobs regex_ok xattr oob create (Some loc) ∅ [j; j'] = [inl (att, x, Some b); inl (att, x, Some b)].
Proof.
  intros Hio Hfr Hb Hok Hlim Hlen Hrun j'. cbn [run_jobs].
  destruct (run_job regex_ok xattr oob create (Some loc) ∅ j) as [d1 r1] eqn:E1. cbn [snd] in Hrun. subst r1.
  destruct (run_job regex_ok xattr oob create (Some loc) d1 j') as [d2 r2] eqn:E2. f_equal. f_equal.
  revert E1 E2. unfold run_job, process_profile_rules, j'. cbn [j_stack j_io j_globals j_now j_pid j_profile].
  set (g := j_globals j) in *. set (blk := p_main_block (j_profile j)) in *.
  change (hash_profile_file_rules (set_version g version) blk) with (hash_profile_file_rules g blk).
  change (compute_content_hash (j_stack j) (set_version g version) blk) with (compute_content_hash (j_stack j) g blk).
  change (features_supports_stacking (set_version g version)) with (features_supports_stacking g).
  rewrite (compute_content_hash_spec _ g blk Hfr). set (h := dg_hash (content_bytes g blk)) in *.
  set (key := hash_profile_file_rules g blk).
  change (dfa_cache_lookup_disk (Some loc) (j_now j) ∅ key h) with (@None dfa_blob, (∅ : gmap (list ascii) file)).
  cbv iota beta.
  destruct (process_profile_name_xmatch _ _ _ _) as [[att' x']|]; [|done].
  destruct (gen_policy_re _ _ _ _) as [rules|]; [|done]. destruct (negb _); [done|].
  destruct (process_profile_regex create g rules) as [dfa'|] eqn:Ep; [|done].
  destruct (p_policydb_ok (j_profile j)); [|done]. rewrite Hio. intros [= <- <- <- ->].
  pose proof (lookup_decode loc (j_now j) (dfa_cache_store_disk StoreDone (Some loc) (j_now j) (j_pid j) ∅ (Some b) key h)
    key h) as Hl.
  rewrite store_published in Hl by done. cbn [published mbind option_bind f_data] in Hl.
  rewrite <- (firstn_all (cache_data b h)), decode_cut, !bool_decide_eq_true_2, Hlim in Hl by done. cbn [andb] in Hl.
  destruct (dfa_cache_lookup_disk _ _ _ _ _) as [c d']. cbn [fst] in Hl. subst c. by intros [= _ <-].
Qed.

Lemma dfa_cache_ignores_version_witness :
  run_jobs (DG := sha256_digest) ok_regex true true demo_create (Some $"/c") ∅ [demo_job 3 4; demo_job 2 4] =
    [demo_result 3 4; demo_result 3 4] /\
  snd (run_job (DG := sha256_digest) ok_regex true true demo_create None ∅ (demo_job 2 4)) = demo_result 2 4.
Proof.
  split; [|vm_compute; reflexivity].
  apply (dfa_cache_ignores_version (DG := sha256_digest) ok_regex true true demo_create $"/c" 2 (demo_job 3 4));
    [reflexivity|reflexivity|discriminate| |reflexivity|vm_compute; reflexivity|vm_compute; reflexivity].
  unfold blob_ok, row_ok. cbn [perms_table dfa length]. split_and!; [|lia|lia].
  apply Forall_cons_2; [|apply Forall_nil_2]. split; [done|].
  unfold in_u32. repeat (apply Forall_cons_2; [lia|]). apply Forall_nil_2.
Defined.


