(* ===== verification/Expr.v ===== *)
(** Expression trees of the automaton library
    ([parser/libapparmor_re/expr-tree.h]): the nodes, the positions that
    [compute_pos] finds in them, the transitions that [follow] collects, the
    shortest match.  A pointer to an important node is the node with an
    identity; sets of nodes are finite sets of those. *)

From stdpp Require Import gmap sorting.
From S2P Require Import Prelude.

(** ** Nodes *)

(** A [transchar]: input bytes are [0 .. 255], out-of-band characters are
    negative. *)
Definition OOB : Z := -1.

(** [Chars]: a set of characters in ascending order. *)
Definition Chars := list Z.
Fixpoint Chars_insert (c : Z) (cs : Chars) : Chars :=
  match cs with
  | [] => [c]
  | d :: cs' => if c <? d then c :: cs else if c =? d then cs else d :: Chars_insert c cs'
  end.
Definition Chars_find (c : Z) (cs : Chars) : bool := existsb (Z.eqb c) cs.

(** The classes below [MatchFlag]. *)
Inductive flag_type := MatchFlag | ExactMatchFlag | DenyMatchFlag | PromptMatchFlag.

(** The classes below [ImportantNode]. *)
Inductive leaf_type :=
| CharNode (c : Z)
| CharSetNode (cs : Chars)
| NotCharSetNode (cs : Chars)
| AnyCharNode
| AcceptNode (f : flag_type) (priority perms audit : Z).

Record ImportantNode := Imp { node_id : positive; node_type : leaf_type }.

Inductive Node :=
| EpsNode
| Leaf (n : ImportantNode)
| StarNode (left : Node)
| OptionalNode (left : Node)
| PlusNode (left : Node)
| SharedTreeNode (id : positive) (refcount : nat) (left : Node)
| CatNode (child : list Node)
| AltNode (child : list Node).

#[export] Instance flag_type_eq_dec : EqDecision flag_type.
Proof. solve_decision. Defined.
#[export] Instance leaf_type_eq_dec : EqDecision leaf_type.
Proof. solve_decision. Defined.
#[export] Instance ImportantNode_eq_dec : EqDecision ImportantNode.
Proof. solve_decision. Defined.

#[export] Instance flag_type_countable : Countable flag_type.
Proof.
  refine (inj_countable' (fun f => match f with MatchFlag => 0 | ExactMatchFlag => 1
                          | DenyMatchFlag => 2 | PromptMatchFlag => 3 end)
    (fun n => match n with 0 => MatchFlag | 1 => ExactMatchFlag | 2 => DenyMatchFlag
              | _ => PromptMatchFlag end) _); by intros [].
Defined.
#[export] Instance leaf_type_countable : Countable leaf_type.
Proof.
  refine (inj_countable' (fun k => match k with
    | CharNode c => inl (inl c) | CharSetNode cs => inl (inr (inl cs))
    | NotCharSetNode cs => inl (inr (inr cs)) | AnyCharNode => inr (inl tt)
    | AcceptNode f p a q => inr (inr (f, p, a, q)) end)
    (fun x => match x with
    | inl (inl c) => CharNode c | inl (inr (inl cs)) => CharSetNode cs
    | inl (inr (inr cs)) => NotCharSetNode cs | inr (inl _) => AnyCharNode
    | inr (inr (f, p, a, q)) => AcceptNode f p a q end) _); by intros [].
Defined.
#[export] Instance ImportantNode_countable : Countable ImportantNode.
Proof.
  refine (inj_countable' (fun n => (node_id n, node_type n)) (fun x => Imp x.1 x.2) _); by intros [].
Defined.

Definition NodeSet := gset ImportantNode.

Definition is_accept (n : ImportantNode) : bool :=
  match node_type n with AcceptNode _ _ _ _ => true | _ => false end.

(** Induction over trees with their lists of children. *)
Section node_induction.
Context (P : Node -> Prop).
Context (Heps : P EpsNode) (Hleaf : forall n, P (Leaf n)).
Context (Hstar : forall t, P t -> P (StarNode t)) (Hopt : forall t, P t -> P (OptionalNode t)).
Context (Hplus : forall t, P t -> P (PlusNode t)).
Context (Hshared : forall id rc t, P t -> P (SharedTreeNode id rc t)).
Context (Hcat : forall ts, Forall P ts -> P (CatNode ts)).
Context (Halt : forall ts, Forall P ts -> P (AltNode ts)).

Fixpoint Node_rect' (t : Node) : P t :=
  let all := fix all (ts : list Node) : Forall P ts :=
    match ts with [] => Forall_nil_2 P | t :: ts => Forall_cons_2 P t ts (Node_rect' t) (all ts) end in
  match t with
  | EpsNode => Heps
  | Leaf n => Hleaf n
  | StarNode t => Hstar t (Node_rect' t)
  | OptionalNode t => Hopt t (Node_rect' t)
  | PlusNode t => Hplus t (Node_rect' t)
  | SharedTreeNode id rc t => Hshared id rc t (Node_rect' t)
  | CatNode ts => Hcat ts (all ts)
  | AltNode ts => Halt ts (all ts)
  end.
End node_induction.
Ltac node_ind t :=
  induction t as [ | n | t IH | t IH | t IH | sid rc t IH | ts IH | ts IH ] using Node_rect'.

(** ** What a tree matches *)

(** Words with an accept node as the last letter say which rule a string
    matches. *)
Inductive letter := Ch (c : Z) | Acc (a : ImportantNode).

(** The characters a node matches: an inverted set and the any character do not
    match out-of-band characters. *)
Definition char_match (k : leaf_type) (c : Z) : bool :=
  match k with
  | CharNode d => c =? d
  | CharSetNode cs => Chars_find c cs
  | NotCharSetNode cs => (0 <=? c) && negb (Chars_find c cs)
  | AnyCharNode => 0 <=? c
  | AcceptNode _ _ _ _ => false
  end.
Definition matches (n : ImportantNode) (x : letter) : Prop :=
  match x with
  | Ch c => char_match (node_type n) c = true
  | Acc a => is_accept n = true /\ n = a
  end.

Section languages.
Context {A : Type}.
Implicit Types (P Q : list A -> Prop) (w : list A).

Inductive star P : list A -> Prop :=
| star_nil : star P []
| star_app u v : P u -> star P v -> star P (u ++ v).
Definition cat P Q w : Prop := exists u v, w = u ++ v /\ P u /\ Q v.
Definition plus P : list A -> Prop := cat P (star P).

Definition cat_list (Ps : list (list A -> Prop)) : list A -> Prop :=
  foldr cat (fun w => w = []) Ps.
Definition alt_list (Ps : list (list A -> Prop)) : list A -> Prop :=
  foldr (fun P Q w => P w \/ Q w) (fun _ => False) Ps.

(** The language of a tree, from what its leaves match. *)
Fixpoint lang_of (base : ImportantNode -> A -> Prop) (t : Node) : list A -> Prop :=
  match t with
  | EpsNode => fun w => w = []
  | Leaf n => fun w => exists x, w = [x] /\ base n x
  | StarNode t => star (lang_of base t)
  | OptionalNode t => fun w => w = [] \/ lang_of base t w
  | PlusNode t => plus (lang_of base t)
  | SharedTreeNode _ _ t => lang_of base t
  | CatNode ts => cat_list (map (lang_of base) ts)
  | AltNode ts => alt_list (map (lang_of base) ts)
  end.
End languages.

Definition lang : Node -> list letter -> Prop := lang_of matches.
(** Words of positions. *)
Definition plang : Node -> list ImportantNode -> Prop := lang_of eq.

(** ** Positions *)

(** What [compute_pos] keeps in the nodes: their follow sets, and the cache of
    each shared tree. *)
Record SharedState := Shared {
  computed : bool; s_nullable : bool; pos_uses : nat; first_cache : NodeSet; last_cache : NodeSet
}.
Record pos_state := PosState {
  followpos : gmap ImportantNode NodeSet; shared : gmap positive SharedState
}.

Definition fpos (m : gmap ImportantNode NodeSet) (p : ImportantNode) : NodeSet := default ∅ (m !! p).

(** [clear_pos] on every node of a tree, as the automaton is built. *)
Definition clear_pos : pos_state := PosState ∅ ∅.
Definition shared_init : SharedState := Shared false false 0 ∅ ∅.

(** The loop that adds [first] to the follow set of every node of [last]. *)
Definition add_follow (last first : NodeSet) (st : pos_state) : pos_state :=
  PosState (foldr (fun i m => <[i := fpos m i ∪ first]> m) (followpos st) (elements last)) (shared st).

Definition pos_result : Type := bool * NodeSet * NodeSet * pos_state.

(** The loop of [CatNode::compute_pos] over the children after the first, and
    the one of [AltNode::compute_pos]. *)
Section loops.
Context (compute_pos : Node -> NodeSet -> NodeSet -> pos_state -> pos_result).

Fixpoint cat_loop (ts : list Node) (nullable : bool) (firstpos left_lastpos lastpos : NodeSet)
    (st : pos_state) : pos_result :=
  match ts with
  | [] => (nullable, firstpos, lastpos ∪ left_lastpos, st)
  | t :: ts' =>
      let '(rnullable, right_firstpos, right_lastpos, st) := compute_pos t ∅ ∅ st in
      let st := add_follow left_lastpos right_firstpos st in
      let firstpos := if nullable then firstpos ∪ right_firstpos else firstpos in
      let right_lastpos := if rnullable then right_lastpos ∪ left_lastpos else right_lastpos in
      cat_loop ts' (nullable && rnullable) firstpos right_lastpos lastpos st
  end.

Fixpoint alt_loop (ts : list Node) (nullable : bool) (firstpos lastpos : NodeSet) (st : pos_state)
    : pos_result :=
  match ts with
  | [] => (nullable, firstpos, lastpos, st)
  | t :: ts' =>
      let '(n, firstpos, lastpos, st) := compute_pos t firstpos lastpos st in
      alt_loop ts' (nullable || n) firstpos lastpos st
  end.
End loops.

Fixpoint compute_pos (t : Node) (firstpos lastpos : NodeSet) (st : pos_state) : pos_result :=
  match t with
  | EpsNode => (true, firstpos, lastpos, st)
  | Leaf n => (false, firstpos ∪ {[n]}, lastpos ∪ {[n]}, st)
  | StarNode t =>
      let '(_, first, last, st) := compute_pos t ∅ ∅ st in
      (true, firstpos ∪ first, lastpos ∪ last, add_follow last first st)
  | OptionalNode t =>
      let '(_, firstpos, lastpos, st) := compute_pos t firstpos lastpos st in
      (true, firstpos, lastpos, st)
  | PlusNode t =>
      let '(nullable, first, last, st) := compute_pos t ∅ ∅ st in
      (nullable, firstpos ∪ first, lastpos ∪ last, add_follow last first st)
  | SharedTreeNode id refcount t =>
      let s := default shared_init (shared st !! id) in
      let '(s, st) :=
        if computed s then (s, st)
        else let '(n, f, l, st) := compute_pos t (first_cache s) (last_cache s) st in
             (Shared true n (pos_uses s) f l, st) in
      let uses := S (pos_uses s) in
      let s' := if Nat.eqb uses refcount then Shared (computed s) (s_nullable s) uses ∅ ∅
                else Shared (computed s) (s_nullable s) uses (first_cache s) (last_cache s) in
      (s_nullable s, firstpos ∪ first_cache s, lastpos ∪ last_cache s,
       PosState (followpos st) (<[id := s']> (shared st)))
  | CatNode [] => (true, firstpos, lastpos, st)
  | CatNode (t :: ts) =>
      let '(nullable, firstpos, left_lastpos, st) := compute_pos t firstpos ∅ st in
      cat_loop compute_pos ts nullable firstpos left_lastpos lastpos st
  | AltNode ts => alt_loop compute_pos ts false firstpos lastpos st
  end.

(** ** Local languages *)

(** What the positions of a tree are, independently of the order in which
    [compute_pos] walks it: the nodes, whether it matches the empty word, the
    nodes that can be first and last, and those that can follow a node. *)
Record pos_info := Info {
  al : NodeSet; nul : bool; fi : NodeSet; la : NodeSet; fo : ImportantNode -> NodeSet
}.
Definition pi_eps : pos_info := Info ∅ true ∅ ∅ (fun _ => ∅).
Definition pi_leaf (n : ImportantNode) : pos_info := Info {[n]} false {[n]} {[n]} (fun _ => ∅).
Definition pi_plus (i : pos_info) : pos_info :=
  Info (al i) (nul i) (fi i) (la i)
    (fun p => fo i p ∪ (if decide (p ∈ la i) then fi i else ∅)).
Definition pi_opt (i : pos_info) : pos_info := Info (al i) true (fi i) (la i) (fo i).
Definition pi_cat (i j : pos_info) : pos_info :=
  Info (al i ∪ al j) (nul i && nul j)
    (if nul i then fi i ∪ fi j else fi i) (if nul j then la j ∪ la i else la j)
    (fun p => fo i p ∪ fo j p ∪ (if decide (p ∈ la i) then fi j else ∅)).
Definition pi_alt (i j : pos_info) : pos_info :=
  Info (al i ∪ al j) (nul i || nul j) (fi i ∪ fi j) (la i ∪ la j) (fun p => fo i p ∪ fo j p).
Definition pi_none : pos_info := Info ∅ false ∅ ∅ (fun _ => ∅).

Fixpoint info (t : Node) : pos_info :=
  match t with
  | EpsNode => pi_eps
  | Leaf n => pi_leaf n
  | StarNode t => pi_opt (pi_plus (info t))
  | OptionalNode t => pi_opt (info t)
  | PlusNode t => pi_plus (info t)
  | SharedTreeNode _ _ t => info t
  | CatNode [] => pi_eps
  | CatNode (t :: ts) => fold_left pi_cat (map info ts) (info t)
  | AltNode ts => fold_left pi_alt (map info ts) pi_none
  end.

(** Positions of a concatenation are distinct; alternatives may share nodes
    that are followed by the same nodes and last in both. *)
Definition disjoint_pos (i j : pos_info) : bool := bool_decide (al i ## al j).
Definition agree_pos (i j : pos_info) : bool :=
  bool_decide (set_Forall (fun p => fo i p = fo j p /\ (p ∈ la i <-> p ∈ la j)) (al i ∩ al j)).

Fixpoint wf_cat (i : pos_info) (js : list pos_info) : bool :=
  match js with [] => true | j :: js => disjoint_pos i j && wf_cat (pi_cat i j) js end.
Fixpoint wf_alt (i : pos_info) (js : list pos_info) : bool :=
  match js with [] => true | j :: js => agree_pos i j && wf_alt (pi_alt i j) js end.
Fixpoint wf (t : Node) : bool :=
  match t with
  | EpsNode | Leaf _ => true
  | StarNode t | OptionalNode t | PlusNode t | SharedTreeNode _ _ t => wf t
  | CatNode [] => false
  | CatNode (t :: ts) => wf t && forallb wf ts && wf_cat (info t) (map info ts)
  | AltNode [] => false
  | AltNode ts => forallb wf ts && wf_alt pi_none (map info ts)
  end.

(** The words whose first, last and consecutive letters are allowed. *)
Fixpoint chain (i : pos_info) (p : ImportantNode) (w : list ImportantNode) : Prop :=
  match w with
  | [] => p ∈ la i
  | q :: w => q ∈ fo i p /\ chain i q w
  end.
Definition loc (i : pos_info) (w : list ImportantNode) : Prop :=
  match w with [] => nul i = true | p :: w => p ∈ fi i /\ chain i p w end.

(** Sets of positions stay inside the nodes of the tree. *)
Record info_ok (i : pos_info) : Prop := {
  ok_fi : fi i ⊆ al i; ok_la : la i ⊆ al i; ok_fo : forall p, fo i p ⊆ al i;
  ok_dom : forall p, p ∉ al i -> fo i p = ∅
}.

Lemma pi_eps_ok : info_ok pi_eps.
Proof. by split; cbn; set_solver. Qed.
Lemma pi_none_ok : info_ok pi_none.
Proof. by split; cbn; set_solver. Qed.
Lemma pi_leaf_ok n : info_ok (pi_leaf n).
Proof. by split; cbn; set_solver. Qed.
Lemma pi_plus_ok i : info_ok i -> info_ok (pi_plus i).
Proof.
  intros [Hf Hl Ho Hd]; split; cbn; [done..|intros p; specialize (Ho p)|intros p Hp; rewrite Hd by done];
    clear Hd; destruct (decide _); set_solver.
Qed.
Lemma pi_opt_ok i : info_ok i -> info_ok (pi_opt i).
Proof. by intros [Hf Hl Ho Hd]; split. Qed.
Lemma pi_cat_ok i j : info_ok i -> info_ok j -> info_ok (pi_cat i j).
Proof.
  intros [Hf Hl Ho Hd] [Hf' Hl' Ho' Hd']; split; cbn.
  - clear -Hf Hf'; destruct (nul i); set_solver.
  - clear -Hl Hl'; destruct (nul j); set_solver.
  - intros p; specialize (Ho p); specialize (Ho' p); clear -Hf' Ho Ho'; destruct (decide _); set_solver.
  - intros p Hp; rewrite Hd, Hd' by set_solver; rewrite decide_False by set_solver; set_solver.
Qed.
Lemma pi_alt_ok i j : info_ok i -> info_ok j -> info_ok (pi_alt i j).
Proof.
  intros [Hf Hl Ho Hd] [Hf' Hl' Ho' Hd']; split; cbn; [set_solver..| |].
  - intros p; specialize (Ho p); specialize (Ho' p); clear -Ho Ho'; set_solver.
  - intros p Hp; rewrite Hd, Hd' by set_solver; set_solver.
Qed.
#[export] Hint Resolve pi_eps_ok pi_none_ok pi_leaf_ok pi_plus_ok pi_opt_ok pi_cat_ok pi_alt_ok : aa.

Lemma fold_info_ok op js i :
  (forall i j, info_ok i -> info_ok j -> info_ok (op i j)) ->
  info_ok i -> Forall info_ok js -> info_ok (fold_left op js i).
Proof. intros Hop Hi Hjs; revert i Hi; induction Hjs; cbn; auto. Qed.

Lemma info_ok_all t : info_ok (info t).
Proof.
  node_ind t; cbn [info]; auto with aa.
  - destruct ts as [|t ts]; [auto with aa|]; inversion_clear IH.
    apply fold_info_ok; auto with aa. by apply Forall_map.
  - apply fold_info_ok; auto with aa. by apply Forall_map.
Qed.
#[export] Hint Resolve info_ok_all : aa.

(** *** Each operation on positions has the local words of the operation on
    languages. *)

Lemma chain_al i p w : info_ok i -> p ∈ al i -> chain i p w -> Forall (.∈ al i) w.
Proof.
  intros Hok; revert p; induction w as [|q w IH]; intros p Hp Hc; [done|].
  destruct Hc as [Hq Hc]; assert (q ∈ al i) by (apply (ok_fo i Hok p); done); eauto.
Qed.

Lemma loc_al i w : info_ok i -> loc i w -> Forall (.∈ al i) w.
Proof.
  intros Hok; destruct w as [|p w]; [done|]; intros [Hp Hc]; pose proof (ok_fi i Hok p Hp).
  constructor; eauto using chain_al.
Qed.

Lemma loc_leaf n w : loc (pi_leaf n) w <-> w = [n].
Proof.
  destruct w as [|p [|q w]]; cbn; [by split|set_solver|].
  split; [|done]. intros (_ & Hq & _); set_solver.
Qed.

Lemma loc_eps w : loc pi_eps w <-> w = [].
Proof. destruct w; cbn; set_solver. Qed.

Lemma loc_opt i w : loc (pi_opt i) w <-> w = [] \/ loc i w.
Proof.
  assert (Hc : forall p w, chain (pi_opt i) p w <-> chain i p w).
  { intros p v; revert p; induction v; cbn; intros; [done|]. by rewrite IHv. }
  destruct w as [|p w]; cbn; [naive_solver|]. rewrite Hc; naive_solver.
Qed.

(** A chain of an alternative stays in the alternative it starts in. *)
Lemma chain_alt_l i j p w :
  info_ok i -> agree_pos i j = true -> info_ok j -> p ∈ al i ->
  chain (pi_alt i j) p w <-> chain i p w.
Proof.
  intros Hi Hag Hj; apply bool_decide_eq_true in Hag.
  revert p; induction w as [|q w IH]; intros p Hp; cbn.
  - destruct (decide (p ∈ al j)) as [Hpj|Hpj].
    + destruct (Hag p) as [_ Hl]; set_solver.
    + pose proof (ok_la j Hj); set_solver.
  - assert (Hfo : fo i p ∪ fo j p = fo i p).
    { destruct (decide (p ∈ al j)) as [Hpj|Hpj].
      - destruct (Hag p) as [-> _]; [set_solver|set_solver].
      - rewrite (ok_dom j Hj p Hpj); set_solver. }
    rewrite Hfo. split; intros [Hq Hc]; (split; [done|]);
      apply (IH q); try done; by apply (ok_fo i Hi p).
Qed.

Lemma agree_pos_sym i j : agree_pos i j = true -> agree_pos j i = true.
Proof.
  unfold agree_pos; rewrite !bool_decide_eq_true; intros H p Hp.
  destruct (H p) as [H1 H2]; [set_solver|]. by rewrite H1, H2.
Qed.

Lemma chain_alt_comm i j p w : chain (pi_alt i j) p w <-> chain (pi_alt j i) p w.
Proof. revert p; induction w as [|q w IH]; intros p; cbn; [set_solver|]. rewrite IH; set_solver. Qed.

Lemma loc_alt i j w :
  info_ok i -> info_ok j -> agree_pos i j = true -> loc (pi_alt i j) w <-> loc i w \/ loc j w.
Proof.
  intros Hi Hj Hag; destruct w as [|p w]; cbn; [by rewrite orb_true_iff|].
  assert (Hl : p ∈ fi i -> chain (pi_alt i j) p w <-> chain i p w).
  { intros; apply chain_alt_l; try done. by apply (ok_fi i Hi). }
  assert (Hr : p ∈ fi j -> chain (pi_alt i j) p w <-> chain j p w).
  { intros; rewrite chain_alt_comm. apply chain_alt_l; try done; [by apply agree_pos_sym|].
    by apply (ok_fi j Hj). }
  rewrite elem_of_union; tauto.
Qed.

(** A chain of a concatenation that is in the right part stays there. *)
Lemma chain_cat_r i j p w :
  info_ok i -> info_ok j -> al i ## al j -> p ∈ al j -> chain (pi_cat i j) p w <-> chain j p w.
Proof.
  intros Hi Hj Hd; revert p; induction w as [|q w IH]; intros p Hp; cbn.
  - assert (p ∉ la i) by (pose proof (ok_la i Hi); set_solver). destruct (nul j); set_solver.
  - rewrite decide_False by (pose proof (ok_la i Hi); set_solver).
    rewrite (ok_dom i Hi p) by set_solver.
    split; intros [Hq Hc]; (split; [set_solver|]); apply (IH q); try done;
      apply (ok_fo j Hj p); set_solver.
Qed.

Lemma chain_cat_l i j p w :
  info_ok i -> info_ok j -> al i ## al j -> p ∈ al i ->
  chain (pi_cat i j) p w <->
  exists u v, w = u ++ v /\ chain i p u /\ loc j v.
Proof.
  intros Hi Hj Hd; revert p; induction w as [|q w IH]; intros p Hp.
  - cbn. split.
    + intros Hl. exists [], []; split_and!; [done|cbn|cbn];
        pose proof (ok_la j Hj); destruct (nul j); set_solver.
    + intros (u & v & E & Hc & Hl); symmetry in E; apply app_nil in E as [-> ->]; cbn in *.
      rewrite Hl; set_solver.
  - cbn. rewrite (ok_dom j Hj p) by set_solver. split.
    + intros [Hq Hc]. destruct (decide (q ∈ fo i p)) as [Hqi|Hqi].
      * apply (IH q) in Hc as (u & v & -> & Hu & Hv); [|by apply (ok_fo i Hi p)].
        by exists (q :: u), v.
      * destruct (decide (p ∈ la i)); [|set_solver].
        assert (Hqj : q ∈ fi j) by set_solver.
        apply chain_cat_r in Hc; [|done..|by apply (ok_fi j Hj)].
        by exists [], (q :: w).
    + intros (u & v & E & Hc & Hl). destruct u as [|q' u]; cbn in E.
      * subst v. destruct Hl as [Hq Hl]. cbn in Hc; rewrite decide_True by done.
        split; [set_solver|]. apply chain_cat_r; try done. by apply (ok_fi j Hj).
      * injection E as -> ->. destruct Hc as [Hq Hc]. split; [set_solver|].
        apply (IH q'); [by apply (ok_fo i Hi p)|]. by exists u, v.
Qed.

Lemma loc_cat i j w :
  info_ok i -> info_ok j -> disjoint_pos i j = true ->
  loc (pi_cat i j) w <-> cat (loc i) (loc j) w.
Proof.
  intros Hi Hj Hd; apply bool_decide_eq_true in Hd; unfold cat.
  destruct w as [|p w]; cbn.
  - rewrite andb_true_iff; split; [intros [? ?]; by exists [], []|].
    intros (u & v & E & Hu & Hv); symmetry in E; apply app_nil in E as [-> ->]; done.
  - split.
    + intros [Hp Hc]. destruct (decide (p ∈ fi i)) as [Hpi|Hpi].
      * apply chain_cat_l in Hc as (u & v & -> & Hu & Hv); [|done..|by apply (ok_fi i Hi)].
        by exists (p :: u), v.
      * assert (Hn : nul i = true) by (destruct (nul i); set_solver).
        rewrite Hn in Hp. assert (p ∈ fi j) by set_solver.
        apply chain_cat_r in Hc; [|done..|by apply (ok_fi j Hj)].
        by exists [], (p :: w).
    + intros (u & v & E & Hu & Hv). destruct u as [|q u]; cbn in E.
      * subst v; destruct Hv as [Hp Hc]; cbn in Hu; rewrite Hu.
        split; [set_solver|]. apply chain_cat_r; try done. by apply (ok_fi j Hj).
      * injection E as <- ->. destruct Hu as [Hp Hc].
        split; [destruct (nul i); set_solver|]. apply chain_cat_l; try done.
        -- by apply (ok_fi i Hi).
        -- by exists u, v.
Qed.

(** Repetition: a word is cut where a last position is followed by a first. *)
Lemma chain_plus i p w :
  chain (pi_plus i) p w <-> exists u v, w = u ++ v /\ chain i p u /\ star (loc i) v.
Proof.
  revert p; induction w as [|q w IH]; intros p; cbn.
  - split; [intros H; exists [], []; split_and!; [done..|constructor]|].
    intros (u & v & E & Hc & _); symmetry in E; apply app_nil in E as [-> ->]; done.
  - split.
    + intros [Hq Hc]. apply IH in Hc as (u & v & -> & Hu & Hv).
      destruct (decide (q ∈ fo i p)) as [Hqi|Hqi].
      * by exists (q :: u), v.
      * destruct (decide (p ∈ la i)); [|set_solver]. exists [], (q :: u ++ v).
        split_and!; [done|done|]. apply (star_app (loc i) (q :: u) v); [|done].
        split; [set_solver|done].
    + intros (u & v & E & Hc & Hs). destruct u as [|q' u]; cbn in E.
      * cbn in Hc. rewrite decide_True by done. subst v.
        remember (q :: w) as x eqn:Ex; revert q w Ex IH; induction Hs as [|u v Hu Hs IHs];
          intros; [done|]. destruct u as [|q' u]; [by eapply IHs|].
        cbn in Ex; injection Ex as -> <-. destruct Hu as [Hq Hc'].
        split; [set_solver|]. apply IH. by exists u, v.
      * injection E as -> ->. destruct Hc as [Hq Hc]. split; [set_solver|]. apply IH. by exists u, v.
Qed.

Lemma star_cat {A} (P : list A -> Prop) u v : star P u -> star P v -> star P (u ++ v).
Proof. intros Hu Hv; induction Hu; [done|]. rewrite <- app_assoc. by constructor. Qed.

Lemma loc_star i w : loc (pi_opt (pi_plus i)) w <-> star (loc i) w.
Proof.
  rewrite loc_opt. split.
  - intros [->|Hl]; [constructor|]. destruct w as [|p w]; [constructor|].
    destruct Hl as [Hp Hc]; apply chain_plus in Hc as (u & v & -> & Hu & Hv).
    by apply (star_app (loc i) (p :: u) v).
  - induction 1 as [|u v Hu Hs IH]; [by left|]. destruct u as [|p u]; [done|].
    destruct Hu as [Hp Hc]. right; split; [done|]. apply chain_plus. by exists u, v.
Qed.

Lemma loc_plus i w : loc (pi_plus i) w <-> plus (loc i) w.
Proof.
  unfold plus, cat. destruct w as [|p w].
  - cbn; split; [intros; exists [], []; split_and!; [done..|constructor]|].
    intros (u & v & E & Hc & _); symmetry in E; apply app_nil in E as [-> ->]; done.
  - split.
    + intros [Hp Hc]; apply chain_plus in Hc as (u & v & -> & Hu & Hv). by exists (p :: u), v.
    + intros (u & v & E & Hu & Hv).
      assert (Hst : star (loc i) (p :: w)) by (rewrite E; by constructor).
      apply loc_star, loc_opt in Hst as [|]; done.
Qed.

(** *** Languages up to equivalence *)

Definition leq {A} (P Q : list A -> Prop) : Prop := forall w, P w <-> Q w.
#[export] Instance leq_equiv {A} : Equivalence (@leq A).
Proof.
  split; [intros P w; done|intros P Q H w; by rewrite (H w)|].
  intros P Q R H1 H2 w; by rewrite (H1 w), (H2 w).
Qed.
#[export] Instance leq_pointwise {A} : subrelation (@leq A) (pointwise_relation _ iff).
Proof. intros P Q H w; apply H. Qed.
#[export] Instance cat_proper {A} : Proper (leq ==> leq ==> leq) (@cat A).
Proof.
  intros P P' HP Q Q' HQ w; split; intros (u & v & -> & Hu & Hv); exists u, v;
    rewrite (HP u), (HQ v) in *; done.
Qed.
Lemma star_mono {A} (P Q : list A -> Prop) w : (forall w, P w -> Q w) -> star P w -> star Q w.
Proof. intros H; induction 1; constructor; auto. Qed.
#[export] Instance star_proper {A} : Proper (leq ==> leq) (@star A).
Proof. intros P P' HP w; split; apply star_mono; intros; by apply HP. Qed.
#[export] Instance plus_proper {A} : Proper (leq ==> leq) (@plus A).
Proof. intros P P' HP; unfold plus. by rewrite HP. Qed.

Lemma cat_assoc {A} (P Q R : list A -> Prop) : leq (cat P (cat Q R)) (cat (cat P Q) R).
Proof.
  intros w; split.
  - intros (u & ? & -> & Hu & v & x & -> & Hv & Hx). exists (u ++ v), x.
    rewrite app_assoc; split_and!; [done| |done]. by exists u, v.
  - intros (? & x & -> & (u & v & -> & Hu & Hv) & Hx). exists u, (v ++ x).
    rewrite app_assoc; split_and!; [done..|]. by exists v, x.
Qed.
Lemma cat_nil_r {A} (P : list A -> Prop) : leq (cat P (fun w => w = [])) P.
Proof.
  intros w; split; [intros (u & v & -> & Hu & ->); by rewrite app_nil_r|].
  intros; exists w, []; by rewrite app_nil_r.
Qed.
Lemma cat_nil_l {A} (P : list A -> Prop) : leq (cat (fun w => w = []) P) P.
Proof. intros w; split; [by intros (u & v & -> & -> & Hv)|]. intros; by exists [], w. Qed.

(** The words of a fold of [pi_cat] are those of the concatenation. *)
Lemma loc_cat_fold js Ps i P :
  info_ok i -> Forall info_ok js -> leq (loc i) P -> Forall2 (fun j Q => leq (loc j) Q) js Ps ->
  wf_cat i js = true -> leq (loc (fold_left pi_cat js i)) (cat P (cat_list Ps)).
Proof.
  intros Hi Hjs HP HF; revert i P Hi HP; induction HF as [|j Q js Ps Hj HF IH]; intros i P Hi HP Hwf.
  - cbn. by rewrite cat_nil_r.
  - cbn in Hwf |- *; apply andb_prop in Hwf as [Hd Hwf]; apply Forall_cons in Hjs as [Hjo Hjs].
    rewrite cat_assoc. apply (IH Hjs); auto with aa.
    intros w. rewrite loc_cat by done. by apply cat_proper.
Qed.

Lemma loc_alt_fold js Ps i P :
  info_ok i -> Forall info_ok js -> leq (loc i) P -> Forall2 (fun j Q => leq (loc j) Q) js Ps ->
  wf_alt i js = true -> leq (loc (fold_left pi_alt js i)) (fun w => P w \/ alt_list Ps w).
Proof.
  intros Hi Hjs HP HF; revert i P Hi HP; induction HF as [|j Q js Ps Hj HF IH]; intros i P Hi HP Hwf.
  - intros w; cbn. rewrite (HP w); naive_solver.
  - cbn in Hwf |- *; apply andb_prop in Hwf as [Ha Hwf]; apply Forall_cons in Hjs as [Hjo Hjs].
    intros w. etransitivity; [apply (IH Hjs (pi_alt i j) (fun w => P w \/ Q w)); auto with aa|].
    + intros v. rewrite loc_alt by done. by rewrite (HP v), (Hj v).
    + unfold alt_list; tauto.
Qed.

Lemma forallb_Forall_impl {A} (f : A -> bool) (P : A -> Prop) l :
  Forall (fun x => f x = true -> P x) l -> forallb f l = true -> Forall P l.
Proof.
  induction 1; cbn; [done|]. intros [? ?]%andb_prop; auto.
Qed.
Lemma Forall2_map_map {A B C} (R : B -> C -> Prop) (f : A -> B) (g : A -> C) l :
  Forall (fun x => R (f x) (g x)) l -> Forall2 R (map f l) (map g l).
Proof. induction 1; cbn; auto. Qed.
Lemma infos_ok ts : Forall info_ok (map info ts).
Proof. apply Forall_map, Forall_true; auto with aa. Qed.
#[export] Hint Resolve infos_ok : aa.

(** The words of positions of a well-formed tree are the local words. *)
Lemma plang_loc t : wf t = true -> leq (loc (info t)) (plang t).
Proof.
  node_ind t; intros Hwf w; cbn [wf info] in *; unfold plang in *; cbn [lang_of].
  - apply loc_eps.
  - rewrite loc_leaf. naive_solver.
  - rewrite loc_star. by apply star_proper, IH.
  - rewrite loc_opt. by rewrite (IH Hwf w).
  - rewrite loc_plus. by apply plus_proper, IH.
  - by apply IH.
  - destruct ts as [|t ts]; [done|]. apply andb_prop in Hwf as [[Hwt Hwts]%andb_prop Hc].
    inversion_clear IH as [|? ? H1 H2]. cbn [map cat_list foldr].
    apply loc_cat_fold; auto with aa.
    apply Forall2_map_map. by apply (forallb_Forall_impl wf).
  - destruct ts as [|t ts]; [done|]. set (us := t :: ts) in *. apply andb_prop in Hwf as [Hwts Ha].
    etransitivity; [apply (loc_alt_fold (map info us) (map (lang_of eq) us) pi_none (fun _ => False));
      auto with aa; [intros [|]; cbn; set_solver|]|tauto].
    apply Forall2_map_map. by apply (forallb_Forall_impl wf).
Qed.

(** Words over letters are words of positions with matching letters. *)
Section lang_positions.
Context {A : Type} (base : ImportantNode -> A -> Prop).

Definition image (P : list ImportantNode -> Prop) (w : list A) : Prop :=
  exists ps, P ps /\ Forall2 base ps w.

#[local] Instance image_proper : Proper (leq ==> leq) image.
Proof. intros P Q H w; unfold image; split; intros (ps & Hp & ?); exists ps; by rewrite (H ps) in *. Qed.

Lemma image_nil : leq (image (fun ps => ps = [])) (fun w => w = []).
Proof.
  intros w; split; [intros (ps & -> & H); by inversion H|]. intros ->; by exists [].
Qed.
Lemma image_cat P Q : leq (image (cat P Q)) (cat (image P) (image Q)).
Proof.
  intros w; split.
  - intros (ps & (u & v & -> & Hu & Hv) & HF). apply Forall2_app_inv_l in HF as (a & b & Ha & Hb & ->).
    exists a, b; split_and!; [done|by exists u|by exists v].
  - intros (a & b & -> & (u & Hu & Ha) & (v & Hv & Hb)). exists (u ++ v); split; [by exists u, v|].
    by apply Forall2_app.
Qed.
Lemma image_star P : leq (image (star P)) (star (image P)).
Proof.
  intros w; split.
  - intros (ps & Hs & HF). revert w HF; induction Hs as [|u v Hu Hs IH]; intros w HF.
    + inversion HF; constructor.
    + apply Forall2_app_inv_l in HF as (a & b & Ha & Hb & ->). constructor; [by exists u|auto].
  - induction 1 as [|a b (u & Hu & Ha) Hs (v & Hv & Hb)].
    + exists []; split; constructor.
    + exists (u ++ v); split; [by constructor|]. by apply Forall2_app.
Qed.
Lemma image_plus P : leq (image (plus P)) (plus (image P)).
Proof. unfold plus. by rewrite image_cat, image_star. Qed.
Lemma image_or P Q : leq (image (fun w => P w \/ Q w)) (fun w => image P w \/ image Q w).
Proof. intros w; unfold image; naive_solver. Qed.

Lemma lang_image t : leq (lang_of base t) (image (plang t)).
Proof.
  unfold plang; node_ind t; cbn [lang_of].
  - by rewrite image_nil.
  - intros w; split.
    + intros (x & -> & H). exists [n]; split; [by exists n|by repeat constructor].
    + intros (ps & (p & -> & <-) & HF). inversion HF as [|? x ? ? Hb Hn]; subst; inversion Hn; subst.
      by exists x.
  - by rewrite IH, image_star.
  - intros w. etransitivity; [|symmetry; apply image_or]. by rewrite (image_nil w), (IH w).
  - by rewrite IH, image_plus.
  - done.
  - induction IH as [|t ts Ht _ IHts]; cbn; [by rewrite image_nil|].
    by rewrite image_cat, Ht, IHts.
  - induction IH as [|t ts Ht _ IHts]; cbn; intros w.
    + unfold image; naive_solver.
    + etransitivity; [|symmetry; apply image_or]. by rewrite (Ht w), (IHts w).
Qed.
End lang_positions.

(** A string of letters is matched by a well-formed tree iff its letters are
    matched by positions of which the first is in the tree's first positions,
    each is followed by one of its follow positions, and the last is a last
    position: the positions describe exactly the language of the expression. *)
Lemma glushkov t w :
  wf t = true -> lang t w <-> exists ps, loc (info t) ps /\ Forall2 matches ps w.
Proof.
  intros Hwf. unfold lang. rewrite (lang_image matches t w). unfold image.
  by setoid_rewrite (plang_loc t Hwf _).
Qed.

(** ** [compute_pos] finds the positions *)

(** The references to shared trees, not looking inside of them. *)
Fixpoint refcnt (id : positive) (t : Node) : nat :=
  match t with
  | EpsNode | Leaf _ => 0
  | StarNode t | OptionalNode t | PlusNode t => refcnt id t
  | SharedTreeNode id' _ _ => if decide (id = id') then 1 else 0
  | CatNode ts | AltNode ts => foldr (fun t n => refcnt id t + n)%nat 0%nat ts
  end.
Fixpoint no_shared (t : Node) : bool :=
  match t with
  | EpsNode | Leaf _ => true
  | StarNode t | OptionalNode t | PlusNode t => no_shared t
  | SharedTreeNode _ _ _ => false
  | CatNode ts | AltNode ts => forallb no_shared ts
  end.

(** The shared trees by their identity, with their reference counts. *)
Definition shared_heap := gmap positive (nat * Node).
Fixpoint shared_wf (E : shared_heap) (t : Node) : Prop :=
  match t with
  | EpsNode | Leaf _ => True
  | StarNode t | OptionalNode t | PlusNode t => shared_wf E t
  | SharedTreeNode id rc u => E !! id = Some (rc, u) /\ no_shared u = true
  | CatNode ts | AltNode ts => foldr (fun t P => shared_wf E t /\ P) True ts
  end.
(** Every reference was counted when it was taken. *)
Definition counted (E : shared_heap) (t : Node) : Prop :=
  map_Forall (fun id '(rc, _) => (refcnt id t <= rc)%nat) E.

Lemma fpos_insert m i x p : fpos (<[i := x]> m) p = if decide (i = p) then x else fpos m p.
Proof.
  unfold fpos. destruct (decide (i = p)) as [->|]; [by rewrite lookup_insert_eq|].
  by rewrite lookup_insert_ne.
Qed.

Lemma fpos_foldr m l f p :
  fpos (foldr (fun i m => <[i := fpos m i ∪ f]> m) m l) p =
  fpos m p ∪ (if decide (p ∈ l) then f else ∅).
Proof.
  induction l as [|i l IH]; cbn.
  - rewrite decide_False by (by inversion 1). by rewrite union_empty_r_L.
  - rewrite fpos_insert. destruct (decide (i = p)) as [->|Hne].
    + rewrite IH, (decide_True (P := p ∈ p :: l)) by constructor. destruct (decide _); set_solver.
    + rewrite IH. f_equal. destruct (decide (p ∈ l)), (decide (p ∈ i :: l)); set_solver.
Qed.

Lemma fpos_add_follow l f st p :
  fpos (followpos (add_follow l f st)) p =
  fpos (followpos st) p ∪ (if decide (p ∈ l) then f else ∅).
Proof.
  unfold add_follow; cbn. rewrite fpos_foldr. f_equal.
  destruct (decide (p ∈ l)), (decide (p ∈ elements l)); set_solver.
Qed.

Section compute.
Context (E : shared_heap).

Definition uses (st : pos_state) (id : positive) : nat :=
  pos_uses (default shared_init (shared st !! id)).

(** What is cached of a shared tree. *)
Definition cache_ok (st : pos_state) (rc : nat) (u : Node) (s : SharedState) : Prop :=
  if computed s then
    s_nullable s = nul (info u) /\
    ((pos_uses s < rc)%nat -> first_cache s = fi (info u) /\ last_cache s = la (info u)) /\
    (forall p, fo (info u) p ⊆ fpos (followpos st) p)
  else pos_uses s = 0%nat /\ first_cache s = ∅ /\ last_cache s = ∅.
Definition caches_ok (st : pos_state) : Prop :=
  forall id rc u, E !! id = Some (rc, u) -> cache_ok st rc u (default shared_init (shared st !! id)).
(** No shared tree is referenced more often than its count says. *)
Definition budget (st : pos_state) (n : positive -> nat) : Prop :=
  forall id rc u, E !! id = Some (rc, u) -> (uses st id + n id <= rc)%nat.

(** From [st] to [st'] the positions [i] were computed, with [n] references. *)
Record walked (i : pos_info) (n : positive -> nat) (st st' : pos_state) : Prop := {
  wk_fpos : forall p, fpos (followpos st') p = fpos (followpos st) p ∪ fo i p;
  wk_caches : caches_ok st';
  wk_uses : forall id, uses st' id = (uses st id + n id)%nat
}.

Definition computes (t : Node) : Prop := forall F L st,
  shared_wf E t -> caches_ok st -> budget st (fun id => refcnt id t) ->
  exists st', compute_pos t F L st = (nul (info t), F ∪ fi (info t), L ∪ la (info t), st') /\
  walked (info t) (fun id => refcnt id t) st st'.

Lemma walked_mono i n st st' p : walked i n st st' -> fpos (followpos st) p ⊆ fpos (followpos st') p.
Proof. intros [H _ _]; rewrite H; set_solver. Qed.

Lemma caches_add_follow l f st : caches_ok st -> caches_ok (add_follow l f st).
Proof.
  intros H id rc u Hid; specialize (H id rc u Hid). unfold cache_ok in *; cbn [shared add_follow].
  destruct (computed _); [|done]. destruct H as (H1 & H2 & H3); split_and!; [done..|].
  intros p; rewrite fpos_add_follow; specialize (H3 p); set_solver.
Qed.

Lemma walked_add_follow i n st st' l f i' :
  walked i n st st' ->
  (forall p, fo i' p = fo i p ∪ (if decide (p ∈ l) then f else ∅)) ->
  walked i' n st (add_follow l f st').
Proof.
  intros [H1 H2 H3] Hfo; split.
  - intros p; rewrite fpos_add_follow, H1, Hfo. set_solver.
  - by apply caches_add_follow.
  - intros id; cbn. apply H3.
Qed.

Lemma walked_trans i j n k st st' st'' i' :
  walked i n st st' -> walked j k st' st'' -> (forall p, fo i' p = fo i p ∪ fo j p) ->
  walked i' (fun id => n id + k id)%nat st st''.
Proof.
  intros [H1 H2 H3] [G1 G2 G3] Hfo; split; [|done|].
  - intros p; rewrite G1, H1, Hfo; set_solver.
  - intros id; rewrite G3, H3; lia.
Qed.

Lemma budget_after i n k st st' :
  walked i n st st' -> budget st (fun id => n id + k id)%nat -> budget st' k.
Proof. intros [_ _ H3] Hb id rc u Hid; rewrite H3; specialize (Hb id rc u Hid); cbn in Hb; lia. Qed.
Lemma budget_le st n k : (forall id, k id <= n id)%nat -> budget st n -> budget st k.
Proof. intros Hle Hb id rc u Hid; specialize (Hb id rc u Hid); specialize (Hle id); lia. Qed.

Lemma no_shared_refcnt id u : no_shared u = true -> refcnt id u = 0%nat.
Proof.
  node_ind u; cbn; auto; [done|..]; intros Hns;
    (induction IH as [|t ts Ht _ IHts]; cbn in *; [done|]; apply andb_prop in Hns as [? ?];
     rewrite Ht, IHts by done; done).
Qed.
Lemma no_shared_wf u : no_shared u = true -> shared_wf E u.
Proof.
  node_ind u; cbn; auto; [done|..]; intros Hns;
    (induction IH as [|t ts Ht _ IHts]; cbn in *; [done|]; apply andb_prop in Hns as [? ?]; auto).
Qed.

(** The cache filled at the first reference serves all the others. *)
Lemma compute_shared id rc u : computes u -> computes (SharedTreeNode id rc u).
Proof.
  intros IH F L st [HE Hns] Hc Hb. cbn [compute_pos info].
  pose proof (Hc id rc u HE) as Hs. pose proof (Hb id rc u HE) as Hbid.
  unfold uses in Hbid; cbn [refcnt] in Hbid; rewrite decide_True in Hbid by done.
  set (s := default shared_init (shared st !! id)) in *.
  assert (Hpre : exists s' st1,
    (if computed s then (s, st)
     else let '(n, f, l, st) := compute_pos u (first_cache s) (last_cache s) st in
          (Shared true n (pos_uses s) f l, st)) = (s', st1) /\
    computed s' = true /\ pos_uses s' = pos_uses s /\ s_nullable s' = nul (info u) /\
    first_cache s' = fi (info u) /\ last_cache s' = la (info u) /\
    walked (info u) (fun _ => 0%nat) st st1).
  { unfold cache_ok in Hs. destruct (computed s) eqn:Ec.
    - destruct Hs as (H1 & H2 & H3). destruct H2 as [H2 H2']; [lia|].
      exists s, st; split_and!; try done. split; [|done|intros; lia].
      intros p; specialize (H3 p); set_solver.
    - destruct Hs as (H1 & -> & ->).
      pose proof (fun id => no_shared_refcnt id u Hns) as Hn0.
      destruct (IH ∅ ∅ st) as (st' & Ep & Hw); [by apply no_shared_wf|done| |].
      { eapply budget_le; [|exact Hb]. intros; rewrite Hn0; lia. }
      rewrite Ep. eexists _, st'; split_and!; [done|cbn; try done; set_solver..|].
      destruct Hw as [W1 W2 W3]; split; [done..|]. intros; by rewrite W3, Hn0. }
  destruct Hpre as (s' & st1 & -> & Hcs & Hus & Hnul & Hfc & Hlc & [W1 W2 W3]).
  rewrite Hnul, Hfc, Hlc, Hus. eexists; split; [done|]. split.
  - done.
  - intros id' rc' u' HE'. destruct (decide (id' = id)) as [->|Hne].
    + cbn [shared]. rewrite lookup_insert_eq. cbn [default from_option]. simplify_eq.
      assert (Hfo : forall p, fo (info u) p ⊆ fpos (followpos st1) p) by (intros p; rewrite W1; set_solver).
      unfold cache_ok; destruct (Nat.eqb_spec (S (pos_uses s)) rc); cbn; rewrite Hcs;
        split_and!; try done; intros; lia.
    + cbn [shared]. rewrite lookup_insert_ne by done. by apply W2.
  - intros id'. unfold uses; cbn [shared refcnt]. destruct (decide (id' = id)) as [->|Hne].
    + rewrite lookup_insert_eq; cbn [default from_option]; fold s.
      destruct (Nat.eqb (S (pos_uses s)) rc); cbn; lia.
    + rewrite lookup_insert_ne by done. specialize (W3 id'); unfold uses in W3; lia.
Qed.

Lemma compute_cat_loop ts i n F L st0 st :
  Forall computes ts -> foldr (fun t P => shared_wf E t /\ P) True ts ->
  walked i n st0 st -> budget st (fun id => foldr (fun t n => refcnt id t + n)%nat 0%nat ts) ->
  let j := fold_left pi_cat (map info ts) i in
  exists st', cat_loop compute_pos ts (nul i) (F ∪ fi i) (la i) L st =
    (nul j, F ∪ fi j, L ∪ la j, st') /\
  walked j (fun id => n id + foldr (fun t n => refcnt id t + n)%nat 0%nat ts)%nat st0 st'.
Proof.
  intros HF; revert i n st; induction HF as [|t ts Ht _ IH]; intros i n st Hs Hw Hb; cbn.
  - exists st; split; [done|]. destruct Hw as [W1 W2 W3]; split; [done..|]. intros; rewrite W3; lia.
  - destruct Hs as [Hst Hsts].
    destruct (Ht ∅ ∅ st) as (st1 & -> & Hw1); [done|by destruct Hw|
      by eapply budget_le; [|exact Hb]; cbn; lia|].
    set (st2 := add_follow (la i) (∅ ∪ fi (info t)) st1).
    assert (Hw2 : walked (pi_cat i (info t)) (fun id => n id + refcnt id t)%nat st0 st2).
    { eapply walked_add_follow.
      - eapply (walked_trans i (info t) _ _ _ _ _ (pi_alt i (info t))); [done..|]. intros; done.
      - intros p; cbn. by rewrite union_empty_l_L. }
    destruct (IH (pi_cat i (info t)) (fun id => n id + refcnt id t)%nat st2) as (st3 & E3 & Hw3); [done..| |].
    { eapply (budget_after _ _ _ _ st1 Hw1) in Hb. intros id rc u Hid; by apply (Hb id rc u). }
    exists st3. split.
    + cbn in E3 |- *. rewrite <- E3. f_equal; rewrite ?union_empty_l_L; [|by destruct (nul (info t))].
      by destruct (nul i); rewrite ?union_assoc_L.
    + destruct Hw3 as [W1 W2 W3]; split; [done..|]. intros; rewrite W3; lia.
Qed.

Lemma compute_alt_loop ts i n F L st0 st :
  Forall computes ts -> foldr (fun t P => shared_wf E t /\ P) True ts ->
  walked i n st0 st -> budget st (fun id => foldr (fun t n => refcnt id t + n)%nat 0%nat ts) ->
  let j := fold_left pi_alt (map info ts) i in
  exists st', alt_loop compute_pos ts (nul i) (F ∪ fi i) (L ∪ la i) st =
    (nul j, F ∪ fi j, L ∪ la j, st') /\
  walked j (fun id => n id + foldr (fun t n => refcnt id t + n)%nat 0%nat ts)%nat st0 st'.
Proof.
  intros HF; revert i n st; induction HF as [|t ts Ht _ IH]; intros i n st Hs Hw Hb; cbn.
  - exists st; split; [done|]. destruct Hw as [W1 W2 W3]; split; [done..|]. intros; rewrite W3; lia.
  - destruct Hs as [Hst Hsts].
    destruct (Ht (F ∪ fi i) (L ∪ la i) st) as (st1 & -> & Hw1); [done|by destruct Hw|
      by eapply budget_le; [|exact Hb]; cbn; lia|].
    assert (Hw2 : walked (pi_alt i (info t)) (fun id => n id + refcnt id t)%nat st0 st1).
    { eapply walked_trans; [done..|]. intros; done. }
    destruct (IH (pi_alt i (info t)) (fun id => n id + refcnt id t)%nat st1) as (st3 & E3 & Hw3); [done..| |].
    { eapply (budget_after _ _ _ _ st1 Hw1) in Hb. intros id rc u Hid; by apply (Hb id rc u). }
    exists st3. split.
    + cbn in E3 |- *. rewrite <- E3. f_equal; by rewrite union_assoc_L.
    + destruct Hw3 as [W1 W2 W3]; split; [done..|]. intros; rewrite W3; lia.
Qed.

Lemma walked_refl st : caches_ok st -> walked pi_none (fun _ => 0%nat) st st.
Proof. split; [intros; cbn; set_solver|done|intros; lia]. Qed.

Lemma compute_pos_ok t : computes t.
Proof.
  node_ind t; [..|by apply compute_shared| |]; intros F L st Hs Hc Hb.
  - exists st; cbn; split; [f_equal; f_equal; [f_equal|]; set_solver|].
    destruct (walked_refl st Hc); by split.
  - exists st; cbn; split; [done|]. destruct (walked_refl st Hc); by split.
  - destruct (IH ∅ ∅ st Hs Hc Hb) as (st' & Ep & Hw). cbn. rewrite Ep, !union_empty_l_L.
    eexists; split; [done|]. by eapply walked_add_follow.
  - destruct (IH F L st Hs Hc Hb) as (st' & Ep & Hw). cbn. rewrite Ep.
    eexists; split; [done|]. by destruct Hw; split.
  - destruct (IH ∅ ∅ st Hs Hc Hb) as (st' & Ep & Hw). cbn. rewrite Ep, !union_empty_l_L.
    eexists; split; [done|]. by eapply walked_add_follow.
  - destruct ts as [|t ts].
    + exists st; cbn; split; [f_equal; f_equal; [f_equal|]; set_solver|].
      destruct (walked_refl st Hc); by split.
    + inversion_clear IH as [|? ? Ht Hts]; destruct Hs as [Hst Hsts]; cbn [compute_pos].
      destruct (Ht F ∅ st) as (st1 & -> & Hw1); [done..|by eapply budget_le; [|exact Hb]; cbn; lia|].
      rewrite union_empty_l_L. eapply (compute_cat_loop ts (info t)); [done..|].
      eapply (budget_after _ _ _ _ st1 Hw1) in Hb. intros id rc u Hid; by apply (Hb id rc u).
  - cbn [compute_pos info].
    pose proof (compute_alt_loop ts pi_none (fun _ => 0%nat) F L st st IH Hs (walked_refl st Hc) Hb) as H.
    cbn in H. by rewrite !union_empty_r_L in H.
Qed.
End compute.

(** C9: [compute_pos] on a cleared tree returns whether it matches the empty
    word, adds its first and last positions to the sets it is given and leaves
    in every node exactly its follow positions; walking a shared tree once for
    all its references does not change that, as long as every reference was
    counted. *)
Theorem compute_pos_correct E t F L :
  shared_wf E t -> counted E t ->
  exists st', compute_pos t F L clear_pos =
    (nul (info t), F ∪ fi (info t), L ∪ la (info t), st') /\
  forall p, fpos (followpos st') p = fo (info t) p.
Proof.
  intros Hs Hn. destruct (compute_pos_ok E t F L clear_pos Hs) as (st' & Ep & [W1 _ _]).
  - intros id rc u HE; by cbn.
  - intros id rc u HE; cbn. apply (Hn id (rc, u) HE).
  - exists st'; split; [done|]. intros p; rewrite W1. unfold fpos; cbn. set_solver.
Qed.

(** Two rules with the same tail, x, which both hold a reference to. *)
Lemma compute_pos_correct_witness :
  let u := Leaf (Imp 9 (CharNode 120)) in
  let t := AltNode [CatNode [Leaf (Imp 1 (CharNode 97)); SharedTreeNode 7 2 u];
                    CatNode [Leaf (Imp 2 (CharNode 98)); SharedTreeNode 7 2 u]] in
  exists st', compute_pos t ∅ ∅ clear_pos =
    (nul (info t), ∅ ∪ fi (info t), ∅ ∪ la (info t), st') /\
  forall p, fpos (followpos st') p = fo (info t) p.
Proof.
  intros u t. apply (compute_pos_correct {[7%positive := (2%nat, u)]} t ∅ ∅).
  - repeat split; reflexivity.
  - apply map_Forall_singleton. vm_compute. lia.
Defined.

(** ** Transitions *)

(** The targets of the characters that have an explicit case, and of the others. *)
Record Cases := MkCases { cases : gmap Z NodeSet; otherwise : option NodeSet }.
Definition no_cases : Cases := MkCases ∅ None.

(** One character of a [CharNode] or [CharSetNode] followed by [f]. *)
Definition char_case (f : NodeSet) (c : Z) (cs : Cases) : Cases :=
  let x := match cases cs !! c with
           | Some x => x
           | None => match otherwise cs with
                     | Some o => if 0 <=? c then o else ∅
                     | None => ∅
                     end
           end in
  MkCases (<[c := x ∪ f]> (cases cs)) (otherwise cs).

(** Cases for the characters of an inverted set, with what was matched so far. *)
Definition copy_otherwise (o : NodeSet) (j : Z) (m : gmap Z NodeSet) : gmap Z NodeSet :=
  match m !! j with Some _ => m | None => <[j := o]> m end.

Definition follow (fp : gmap ImportantNode NodeSet) (n : ImportantNode) (cs : Cases) : Cases :=
  let f := fpos fp n in
  match node_type n with
  | CharNode c => char_case f c cs
  | CharSetNode chars => fold_left (fun cs c => char_case f c cs) chars cs
  | NotCharSetNode chars =>
      let o := default ∅ (otherwise cs) in
      let m := fold_left (fun m j => copy_otherwise o j m) chars (cases cs) in
      MkCases (map_imap (fun c x => Some (if (0 <=? c) && negb (Chars_find c chars) then x ∪ f else x)) m)
              (Some (o ∪ f))
  | AnyCharNode =>
      let o := default ∅ (otherwise cs) in
      MkCases (map_imap (fun c x => Some (if 0 <=? c then x ∪ f else x)) (cases cs)) (Some (o ∪ f))
  | AcceptNode _ _ _ _ => cs
  end.

(** The nodes that [c] leads to from the nodes [ns]. *)
Definition targets (fp : gmap ImportantNode NodeSet) (ns : list ImportantNode) (c : Z) : NodeSet :=
  ⋃ (map (fpos fp) (base.filter (fun n => char_match (node_type n) c = true) ns)).

(** Where [c] goes according to the cases: the explicit case, or the default
    one, which is not for out-of-band characters. *)
Definition case_target (cs : Cases) (c : Z) : NodeSet :=
  match cases cs !! c with
  | Some x => x
  | None => if 0 <=? c then default ∅ (otherwise cs) else ∅
  end.

(** Inverted sets list input characters only. *)
Definition chars_ok (n : ImportantNode) : bool :=
  match node_type n with NotCharSetNode cs => forallb (Z.leb 0) cs | _ => true end.

Lemma Chars_insert_elem c a cs : c ∈ Chars_insert a cs <-> c = a \/ c ∈ cs.
Proof.
  induction cs as [|d cs IH]; cbn; [by rewrite list_elem_of_singleton; set_solver|].
  destruct (Z.ltb_spec a d); [by rewrite elem_of_cons|].
  destruct (Z.eqb_spec a d) as [->|]; [rewrite elem_of_cons; tauto|].
  rewrite !elem_of_cons, IH. tauto.
Qed.
Lemma Chars_find_spec c cs : Chars_find c cs = true <-> c ∈ cs.
Proof.
  unfold Chars_find. rewrite existsb_exists, list_elem_of_In. split; [|intros H; exists c].
  - intros (x & Hx & E); apply Z.eqb_eq in E; by subst.
  - split; [done|apply Z.eqb_refl].
Qed.

Lemma case_target_char f c cs d :
  case_target (char_case f c cs) d = case_target cs d ∪ (if d =? c then f else ∅).
Proof.
  unfold case_target, char_case; cbn. destruct (Z.eqb_spec d c) as [->|Hne].
  - rewrite lookup_insert_eq. destruct (cases cs !! c); [done|].
    destruct (otherwise cs), (0 <=? c); cbn; done.
  - rewrite lookup_insert_ne by done. by rewrite union_empty_r_L.
Qed.

Lemma case_target_chars f chars cs d :
  case_target (fold_left (fun cs c => char_case f c cs) chars cs) d =
  case_target cs d ∪ (if Chars_find d chars then f else ∅).
Proof.
  revert cs; induction chars as [|c chars IH]; intros cs; cbn; [by rewrite union_empty_r_L|].
  rewrite IH, case_target_char. destruct (d =? c); cbn; [|by rewrite union_empty_r_L].
  destruct (Chars_find d chars); set_solver.
Qed.

(** The explicit cases after copying: those there were, and the copies. *)
Lemma copy_otherwise_lookup o chars m c :
  fold_left (fun m j => copy_otherwise o j m) chars m !! c =
  match m !! c with Some x => Some x | None => if Chars_find c chars then Some o else None end.
Proof.
  revert m; induction chars as [|j chars IH]; intros m; cbn; [by destruct (m !! c)|].
  rewrite IH; unfold copy_otherwise. destruct (Z.eqb_spec c j) as [->|Hne].
  - destruct (m !! j) eqn:Ej; [by rewrite Ej|]. by rewrite lookup_insert_eq.
  - destruct (m !! j); [done|]. by rewrite lookup_insert_ne.
Qed.

Lemma case_target_any f m o c :
  case_target (MkCases (map_imap (fun c x => Some (if 0 <=? c then x ∪ f else x)) m) (Some (o ∪ f))) c =
  match m !! c with
  | Some x => if 0 <=? c then x ∪ f else x
  | None => if 0 <=? c then o ∪ f else ∅
  end.
Proof. unfold case_target; cbn. rewrite map_lookup_imap. by destruct (m !! c). Qed.

(** [follow] adds the follow set of a node for exactly the characters it
    matches. *)
Lemma follow_spec fp n cs c :
  chars_ok n = true ->
  case_target (follow fp n cs) c =
  case_target cs c ∪ (if char_match (node_type n) c then fpos fp n else ∅).
Proof.
  intros Hok. unfold follow. destruct n as [i k]; cbn in *. destruct k as [d|chars|chars| |]; cbn.
  - apply case_target_char.
  - apply case_target_chars.
  - unfold case_target; cbn. rewrite map_lookup_imap, copy_otherwise_lookup.
    destruct (cases cs !! c) eqn:Ec; cbn; [destruct (_ && _); set_solver|].
    destruct (Chars_find c chars) eqn:Ef; cbn.
    + apply Chars_find_spec in Ef. cbn in Hok. rewrite forallb_forall in Hok.
      rewrite list_elem_of_In in Ef. specialize (Hok c Ef). rewrite Hok; cbn. set_solver.
    + destruct (0 <=? c); cbn; set_solver.
  - rewrite case_target_any. unfold case_target.
    destruct (cases cs !! c); destruct (0 <=? c); set_solver.
  - by rewrite union_empty_r_L.
Qed.

(** Collecting the transitions of the nodes of a state, in any order, sends
    every character to the nodes that follow those of the nodes that match it:
    explicit cases and the default agree, and the default is never taken for
    out-of-band characters. *)
Lemma follow_targets fp ns c :
  forallb chars_ok ns = true ->
  case_target (fold_left (fun cs n => follow fp n cs) ns no_cases) c = targets fp ns c.
Proof.
  intros Hok.
  assert (G : forall cs, case_target (fold_left (fun cs n => follow fp n cs) ns cs) c =
                         case_target cs c ∪ targets fp ns c).
  { unfold targets. induction ns as [|n ns IH]; intros cs; cbn [fold_left]; [cbn; set_solver|].
    cbn in Hok; apply andb_prop in Hok as [H1 H2]. rewrite IH, follow_spec by done.
    rewrite filter_cons. destruct (char_match (node_type n) c); cbn; set_solver. }
  rewrite G. unfold case_target; cbn. rewrite lookup_empty. destruct (0 <=? c); set_solver.
Qed.

(** Targets stay within a set that has all follow sets. *)
Record cases_in (A : NodeSet) (cs : Cases) : Prop := {
  in_cases : forall c x, cases cs !! c = Some x -> x ⊆ A;
  in_otherwise : forall x, otherwise cs = Some x -> x ⊆ A
}.
Lemma char_case_in A f c cs : f ⊆ A -> cases_in A cs -> cases_in A (char_case f c cs).
Proof.
  intros Hf [H1 H2]. split; [|done]. intros d x; cbn.
  rewrite lookup_insert_Some; intros [[<- <-]|[_ Hd]]; [|by eapply H1].
  apply union_least; [|done]. destruct (cases cs !! c) eqn:Ec; [by eapply H1|].
  destruct (otherwise cs) eqn:Eo; [|apply empty_subseteq].
  destruct (0 <=? c); [by apply H2|apply empty_subseteq].
Qed.
Lemma follow_in A fp n cs : fpos fp n ⊆ A -> cases_in A cs -> cases_in A (follow fp n cs).
Proof.
  intros Hf Hcs. unfold follow. destruct (node_type n) as [c|chars|chars| |]; [by apply char_case_in| | | |done].
  - revert cs Hcs; induction chars as [|c chars IH]; intros cs Hcs; cbn; auto using char_case_in.
  - destruct Hcs as [H1 H2].
    assert (Ho : default ∅ (otherwise cs) ⊆ A) by (destruct (otherwise cs); cbn; [by apply H2|apply empty_subseteq]).
    split; cbn; [|intros x [= <-]; by apply union_least].
    intros c x. rewrite map_lookup_imap, copy_otherwise_lookup.
    destruct (cases cs !! c) as [y|] eqn:Ec; cbn.
    + pose proof (H1 c y Ec). intros [= <-]. destruct (_ && _); [by apply union_least|done].
    + destruct (Chars_find c chars); cbn; [|done]. intros [= <-].
      destruct (_ && _); [by apply union_least|done].
  - destruct Hcs as [H1 H2].
    assert (Ho : default ∅ (otherwise cs) ⊆ A) by (destruct (otherwise cs); cbn; [by apply H2|apply empty_subseteq]).
    split; cbn; [|intros x [= <-]; by apply union_least].
    intros c x. rewrite map_lookup_imap. destruct (cases cs !! c) as [y|] eqn:Ec; cbn; [|done].
    pose proof (H1 c y Ec). intros [= <-]. destruct (0 <=? c); [by apply union_least|done].
Qed.
Lemma follow_all_in A fp ns cs :
  (forall p, fpos fp p ⊆ A) -> cases_in A cs ->
  cases_in A (fold_left (fun cs n => follow fp n cs) ns cs).
Proof. intros Hf; revert cs; induction ns; cbn; auto using follow_in. Qed.

(** The default targets are those after the nodes that match by default. *)
Definition is_default (n : ImportantNode) : bool :=
  match node_type n with NotCharSetNode _ | AnyCharNode => true | _ => false end.
Lemma follow_default fp ns cs x :
  x ∈ default ∅ (otherwise (fold_left (fun cs n => follow fp n cs) ns cs)) <->
  x ∈ default ∅ (otherwise cs) \/ exists n, n ∈ ns /\ is_default n = true /\ x ∈ fpos fp n.
Proof.
  revert cs; induction ns as [|n ns IH]; intros cs; cbn [fold_left].
  { split; [by left|]. intros [H|(n & Hn & _)]; [done|inversion Hn]. }
  rewrite IH.
  assert (Ho : x ∈ default ∅ (otherwise (follow fp n cs)) <->
    x ∈ default ∅ (otherwise cs) \/ (is_default n = true /\ x ∈ fpos fp n)).
  { unfold follow, is_default. destruct (node_type n) as [c|chars|chars| |]; cbn; rewrite ?elem_of_union; try (clear IH; intuition congruence).
    assert (Hch : otherwise (fold_left (fun cs c => char_case (fpos fp n) c cs) chars cs) = otherwise cs).
    { clear; revert cs; induction chars as [|c chars IH]; intros cs; cbn; [done|]. by rewrite IH. }
    rewrite Hch. clear IH; intuition congruence. }
  rewrite Ho. setoid_rewrite elem_of_cons. naive_solver.
Qed.

(** ** The shortest match *)

Fixpoint contains_oob (t : Node) : bool :=
  match t with
  | EpsNode => false
  | Leaf n =>
      match node_type n with
      | CharNode c => c <? 0
      | CharSetNode cs => existsb (fun c => c <? 0) cs
      | NotCharSetNode cs => negb (existsb (fun c => c <? 0) cs)
      | AnyCharNode | AcceptNode _ _ _ _ => false
      end
  | OptionalNode _ => false
  | StarNode t | PlusNode t | SharedTreeNode _ _ t => contains_oob t
  | CatNode ts | AltNode ts => existsb contains_oob ts
  end.

Fixpoint min_match_len (t : Node) : Z :=
  match t with
  | Leaf n =>
      match node_type n with
      | CharNode c => if c <? 0 then 0 else 1
      | CharSetNode cs => if existsb (fun c => c <? 0) cs then 0 else 1
      | NotCharSetNode _ => 1
      | AnyCharNode | AcceptNode _ _ _ _ => 0
      end
  | PlusNode t | SharedTreeNode _ _ t => min_match_len t
  | CatNode ts =>
      let loop := fix loop (ts : list Node) (len : Z) : Z :=
        match ts with
        | [] => len
        | t :: ts => let len := len + min_match_len t in
                     if contains_oob t then len else loop ts len
        end in
      loop ts 0
  | AltNode (t :: ts) =>
      fold_left (fun m t => let n := min_match_len t in if n <? m then n else m) ts (min_match_len t)
  | AltNode [] | EpsNode | StarNode _ | OptionalNode _ => 0
  end.

(** The part of a word before the first out-of-band character: the path. *)
Fixpoint path_len (w : list letter) : Z :=
  match w with
  | Ch c :: w => if c <? 0 then 0 else 1 + path_len w
  | Acc _ :: w => path_len w
  | [] => 0
  end.
Definition has_oob (w : list letter) : bool :=
  existsb (fun x => match x with Ch c => c <? 0 | Acc _ => false end) w.

(** No optional part with out-of-band characters, whose presence
    [OptionalNode::contains_oob] does not report. *)
Fixpoint opt_ok (t : Node) : bool :=
  match t with
  | EpsNode | Leaf _ => true
  | StarNode t | PlusNode t | SharedTreeNode _ _ t => opt_ok t
  | OptionalNode t => opt_ok t && negb (contains_oob t)
  | CatNode ts | AltNode ts => forallb opt_ok ts
  end.

Lemma path_len_nonneg w : 0 <= path_len w.
Proof. induction w as [|[c|a] w IH]; cbn; [lia|destruct (c <? 0); lia|lia]. Qed.

Lemma path_len_app u v :
  path_len (u ++ v) = path_len u + (if has_oob u then 0 else path_len v).
Proof.
  induction u as [|[c|a] u IH]; cbn; [done| |done]. fold (has_oob u).
  destruct (c <? 0); cbn; [lia|]. rewrite IH; lia.
Qed.

Lemma has_oob_app u v : has_oob (u ++ v) = has_oob u || has_oob v.
Proof. apply existsb_app. Qed.

Lemma cat_list_app {A} (Ps Qs : list (list A -> Prop)) : leq (cat_list (Ps ++ Qs)) (cat (cat_list Ps) (cat_list Qs)).
Proof.
  induction Ps as [|P Ps IH]; cbn; [by rewrite cat_nil_l|]. rewrite IH. apply cat_assoc.
Qed.

(** A tree that does not report out-of-band characters does not match any. *)
Lemma contains_oob_sound t w :
  opt_ok t = true -> contains_oob t = false -> lang t w -> has_oob w = false.
Proof.
  assert (Hstar : forall (P : list letter -> Prop) w, (forall w, P w -> has_oob w = false) ->
            star P w -> has_oob w = false).
  { intros P v HP; induction 1; [done|]. rewrite has_oob_app, HP by done. done. }
  unfold lang; revert w; node_ind t; intros w Ho Hc; cbn [lang_of opt_ok contains_oob] in *.
  - by intros ->.
  - intros (x & -> & Hm). destruct x as [c|a]; [|done]. cbn in Hm |- *. rewrite orb_false_r.
    destruct (node_type n) as [d|cs|cs| |]; cbn in Hm; try done.
    + apply Z.eqb_eq in Hm; by subst.
    + apply Chars_find_spec in Hm. apply not_true_is_false; intros Hlt.
      assert (existsb (fun c => c <? 0) cs = true); [|congruence].
      apply existsb_exists; exists c; split; [by apply list_elem_of_In|done].
    + apply andb_prop in Hm as [Hm _]; lia.
    + lia.
  - apply Hstar; auto.
  - apply andb_prop in Ho as [Ho Hn]; apply negb_true_iff in Hn. intros [->|Hw]; auto.
  - intros (u & v & -> & Hu & Hv). rewrite has_oob_app, (IH u), (Hstar (lang_of matches t) v); auto.
  - auto.
  - revert w; induction IH as [|t ts Ht _ IHts]; cbn in *; intros w; [by intros ->|].
    apply andb_prop in Ho as [? ?]; apply orb_false_elim in Hc as [? ?].
    intros (u & v & -> & Hu & Hv). rewrite has_oob_app, (Ht u), (IHts H0 H2 v); auto.
  - induction IH as [|t ts Ht _ IHts]; cbn in *; [done|].
    apply andb_prop in Ho as [? ?]; apply orb_false_elim in Hc as [? ?]. intros [?|?]; auto.
Qed.

Lemma min_match_len_nonneg t : 0 <= min_match_len t.
Proof.
  node_ind t; cbn; try lia.
  - destruct (node_type n); try lia; [destruct (c <? 0)|destruct (existsb _ _)]; lia.
  - assert (G : forall k, 0 <= k -> 0 <= (fix loop (ts : list Node) (len : Z) : Z :=
      match ts with [] => len | t :: ts => let len := len + min_match_len t in
      if contains_oob t then len else loop ts len end) ts k); [|by apply G].
    induction IH as [|t ts Ht _ IHts]; intros k Hk; [done|]. cbv zeta.
    destruct (contains_oob t); [lia|]. apply IHts; lia.
  - destruct ts as [|t ts]; [lia|]. inversion_clear IH as [|? ? Ht Hts].
    revert Ht. generalize (min_match_len t). induction Hts; cbn; intros m Hm; [done|].
    apply IHHts. destruct (_ <? m); lia.
Qed.

(** [min_match_len] is a lower bound of the length of the path of every
    string the tree matches, counted up to the first out-of-band character. *)
Theorem min_match_len_bound t w :
  opt_ok t = true -> lang t w -> min_match_len t <= path_len w.
Proof.
  unfold lang; revert w; node_ind t; intros w Ho; cbn [lang_of opt_ok] in *;
    try (intros _; apply path_len_nonneg).
  - intros (x & -> & Hm); destruct x as [c|a]; cbn in Hm |- *.
    + destruct (node_type n) as [d|cs|cs| |]; cbn in Hm; try done.
      * apply Z.eqb_eq in Hm; subst. destruct (d <? 0); lia.
      * destruct (existsb (fun c => c <? 0) cs) eqn:Eb; [destruct (c <? 0); lia|].
        destruct (c <? 0) eqn:Ec; [|lia]. exfalso.
        assert (existsb (fun c => c <? 0) cs = true); [|congruence].
        apply existsb_exists; exists c; split; [|done]. by apply list_elem_of_In, Chars_find_spec.
      * apply andb_prop in Hm as [Hm _]; destruct (c <? 0) eqn:Ec; lia.
      * destruct (c <? 0); lia.
    + destruct Hm as [Hm _]; unfold is_accept in Hm; by destruct (node_type n).
  - intros (u & v & -> & Hu & Hv). cbn. rewrite path_len_app.
    specialize (IH u Ho Hu). pose proof (path_len_nonneg v). destruct (has_oob u); lia.
  - apply IH; done.
  - cbn [min_match_len].
    assert (G : forall k w, cat_list (map (lang_of matches) ts) w ->
      (fix loop (ts : list Node) (len : Z) : Z :=
        match ts with [] => len | t :: ts => let len := len + min_match_len t in
        if contains_oob t then len else loop ts len end) ts k <= k + path_len w);
      [|intros Hw; by apply (G 0)].
    clear w; induction IH as [|t ts Ht _ IHts]; intros k w; cbn [map cat_list foldr] in *.
    + intros ->; cbn; lia.
    + cbn in Ho; apply andb_prop in Ho as [Ho1 Ho2]. intros (u & v & -> & Hu & Hv).
      rewrite path_len_app. specialize (Ht u Ho1 Hu). pose proof (path_len_nonneg v).
      destruct (contains_oob t) eqn:Ec; [destruct (has_oob u); lia|].
      rewrite (contains_oob_sound t u Ho1 Ec Hu). cbv zeta. specialize (IHts Ho2 (k + min_match_len t) v Hv). lia.
  - cbn [min_match_len]. destruct ts as [|t ts]; [done|]. inversion_clear IH as [|? ? Ht Hts].
    cbn in Ho; apply andb_prop in Ho as [Ho1 Ho2]. cbn [map alt_list foldr]. intros Hw.
    assert (Hw' : min_match_len t <= path_len w \/ alt_list (map (lang_of matches) ts) w)
      by (destruct Hw; auto).
    clear Ht Hw. revert Hw'. generalize (min_match_len t).
    induction Hts as [|t' ts Ht' _ IHts]; intros m; cbn; [by intros [?|[]]|].
    cbn in Ho2; apply andb_prop in Ho2 as [Ho' Ho2]. intros [Hm|[Hm|Hm]]; apply IHts; try done.
    + left. destruct (_ <? m) eqn:E; lia.
    + left. specialize (Ht' w Ho' Hm). destruct (_ <? m) eqn:E; lia.
    + by right.
Qed.

Lemma min_match_len_bound_witness :
  let t := CatNode [Leaf (Imp 1 (CharNode 97)); OptionalNode (Leaf (Imp 2 (CharNode 98)));
                    Leaf (Imp 3 (CharNode (-1))); Leaf (Imp 4 (CharNode 99))] in
  min_match_len t <= path_len [Ch 97; Ch (-1); Ch 99].
Proof.
  apply min_match_len_bound; [reflexivity|].
  exists [Ch 97], [Ch (-1); Ch 99]; split; [reflexivity|split; [exists (Ch 97); split; reflexivity|]].
  exists [], [Ch (-1); Ch 99]; split; [reflexivity|split; [left; reflexivity|]].
  exists [Ch (-1)], [Ch 99]; split; [reflexivity|split; [exists (Ch (-1)); split; reflexivity|]].
  exists [Ch 99], []; split; [reflexivity|split; [exists (Ch 99); split; reflexivity|reflexivity]].
Defined.

(** An inverted set ends the count of a concatenation, as if what follows it
    came after an out-of-band character: its [contains_oob] is inverted. *)
Lemma min_match_len_inverted id cs t ts :
  forallb (Z.leb 0) cs = true -> contains_oob t = false ->
  min_match_len (CatNode (t :: Leaf (Imp id (NotCharSetNode cs)) :: ts)) = min_match_len t + 1.
Proof.
  intros Hcs Ht. cbn. rewrite Ht. replace (existsb (fun c => c <? 0) cs) with false; [done|].
  symmetry; apply not_true_is_false; rewrite existsb_exists; intros (c & Hc & Hlt).
  rewrite forallb_forall in Hcs; specialize (Hcs c Hc); lia.
Qed.

(** ** Leaves *)

(** The important nodes from left to right; a tree whose leaves are distinct and
    whose inner nodes have children is well formed. *)
Fixpoint leaves (t : Node) : list ImportantNode :=
  match t with
  | EpsNode => []
  | Leaf n => [n]
  | StarNode t | OptionalNode t | PlusNode t | SharedTreeNode _ _ t => leaves t
  | CatNode ts | AltNode ts => concat (map leaves ts)
  end.
Fixpoint inhabited_nodes (t : Node) : bool :=
  match t with
  | EpsNode | Leaf _ => true
  | StarNode t | OptionalNode t | PlusNode t | SharedTreeNode _ _ t => inhabited_nodes t
  | CatNode ts | AltNode ts => match ts with [] => false | _ => forallb inhabited_nodes ts end
  end.

Lemma al_fold op (js : list pos_info) i p :
  (forall i j, al (op i j) = al i ∪ al j) ->
  p ∈ al (fold_left op js i) <-> p ∈ al i \/ Exists (fun j => p ∈ al j) js.
Proof.
  intros Hop. revert i; induction js as [|j js IH]; intros i; cbn.
  - rewrite Exists_nil. tauto.
  - rewrite IH, Hop, elem_of_union, Exists_cons. tauto.
Qed.
Lemma Exists_map_al ts p :
  Forall (fun t => p ∈ al (info t) <-> p ∈ leaves t) ts ->
  Exists (fun j => p ∈ al j) (map info ts) <-> p ∈ concat (map leaves ts).
Proof.
  induction 1 as [|t ts Ht _ IH]; cbn.
  - rewrite Exists_nil. set_solver.
  - rewrite Exists_cons, elem_of_app, IH, Ht. tauto.
Qed.
Lemma al_leaves t p : p ∈ al (info t) <-> p ∈ leaves t.
Proof.
  node_ind t; cbn [info leaves].
  - cbn. set_solver.
  - cbn. rewrite list_elem_of_singleton, elem_of_singleton. done.
  - exact IH.
  - exact IH.
  - exact IH.
  - exact IH.
  - destruct ts as [|t ts]; [cbn; set_solver|]. inversion_clear IH as [|? ? Ht Hts].
    rewrite (al_fold pi_cat) by done. cbn. by rewrite elem_of_app, Exists_map_al, Ht.
  - rewrite (al_fold pi_alt) by done. rewrite Exists_map_al by done. cbn. set_solver.
Qed.

Lemma leaves_disjoint t (ts : list Node) :
  NoDup (leaves t ++ concat (map leaves ts)) -> forall i, (forall p, p ∈ al i -> p ∈ leaves t) ->
  wf_cat i (map info ts) = true /\ wf_alt i (map info ts) = true.
Proof.
  intros Hnd i Hi. assert (Hnd' : exists us, NoDup (us ++ concat (map leaves ts)) /\ forall p, p ∈ al i -> p ∈ us)
    by eauto.
  clear Hnd Hi. revert i Hnd'. induction ts as [|u ts IH]; intros i (us & Hnd & Hi); [done|]. cbn in Hnd |- *.
  assert (Hd : forall p, p ∈ al i -> p ∈ al (info u) -> False).
  { intros p Hp Hq%al_leaves. apply Hi in Hp. apply NoDup_app in Hnd as (_ & Hnd & _).
    apply (Hnd p Hp). by apply elem_of_app; left. }
  assert (Hnext : NoDup ((us ++ leaves u) ++ concat (map leaves ts))) by (by rewrite <- app_assoc).
  split; apply andb_true_intro; split.
  - apply bool_decide_eq_true. intros p Hp Hq. by apply (Hd p).
  - apply IH. exists (us ++ leaves u); split; [done|]. intros p. cbn. rewrite elem_of_union, elem_of_app, al_leaves. naive_solver.
  - apply bool_decide_eq_true. intros p. rewrite elem_of_intersection. intros [Hp Hq]. by destruct (Hd p).
  - apply IH. exists (us ++ leaves u); split; [done|]. intros p. cbn. rewrite elem_of_union, elem_of_app, al_leaves. naive_solver.
Qed.

Lemma leaves_wf t : inhabited_nodes t = true -> NoDup (leaves t) -> wf t = true.
Proof.
  assert (Hall : forall ts, Forall (fun t => inhabited_nodes t = true -> NoDup (leaves t) -> wf t = true) ts ->
    forallb inhabited_nodes ts = true -> NoDup (concat (map leaves ts)) -> forallb wf ts = true).
  { clear t; induction 1 as [|t ts Ht _ IH]; cbn; intros Hi Hnd; [done|].
    apply andb_prop in Hi as [Hi1 Hi2]. apply NoDup_app in Hnd as (Hn1 & _ & Hn2).
    by rewrite Ht, IH. }
  node_ind t; cbn [inhabited_nodes leaves wf]; try done.
  - destruct ts as [|u us]; [done|]. intros Hi Hnd. pose proof (Hall _ IH Hi Hnd) as Hw. cbn in Hw |- *.
    rewrite Hw. cbn. apply (leaves_disjoint u us); [done|]. intros p; by rewrite al_leaves.
  - destruct ts as [|u us]; [done|]. intros Hi Hnd. rewrite (Hall _ IH Hi Hnd).
    apply (leaves_disjoint EpsNode (u :: us)); [done|]. intros p; cbn; set_solver.
Qed.
