(* ===== verification/Accept.v ===== *)
(** Permissions of an automaton state: [perms_t] of
    [parser/libapparmor_re/hfa.h] and [hfa.cc], built from the accept nodes of
    the state, and their mapping to the kernel's permission table
    ([parser/libapparmor_re/policy_compat.cc]). *)

From stdpp Require Import gmap.
From S2P Require Import Prelude Perms Expr.

(** ** Masks *)

Definition AA_USER_EXEC_MMAP : Z := Z.shiftl AA_OLD_EXEC_MMAP AA_USER_SHIFT.
Definition AA_OTHER_EXEC_MMAP : Z := Z.shiftl AA_OLD_EXEC_MMAP AA_OTHER_SHIFT.
Definition AA_OTHER_EXEC_INHERIT : Z := Z.shiftl AA_EXEC_INHERIT AA_OTHER_SHIFT.
Definition ALL_USER_EXEC : Z := Z.lor AA_USER_EXEC AA_USER_EXEC_TYPE.
Definition ALL_OTHER_EXEC : Z := Z.lor AA_OTHER_EXEC AA_OTHER_EXEC_TYPE.
Definition AA_CONT_MATCH : Z := 0x08000000.
Definition AA_COMPAT_CONT_MATCH : Z := Z.shiftl AA_CONT_MATCH 1.

Definition MAY_EXEC_SHIFT : nat := 0.
Definition MAY_OTHER_EXEC_SHIFT : nat := 14.
Definition EXEC_MMAP_SHIFT : nat := 6.
Definition EXEC_OTHER_MMAP_SHIFT : nat := 20.

Definition MIN_POLICY_PRIORITY : Z := -1000.
Definition MAX_POLICY_PRIORITY : Z := 1000.
Definition MIN_INTERNAL_PRIORITY : Z := MIN_POLICY_PRIORITY - 1.
Definition MAX_INTERNAL_PRIORITY : Z := MAX_POLICY_PRIORITY + 1.

Definition PACK_AUDIT_CTL (audit quiet : Z) : Z :=
  Z.lor (Z.land audit 0x1fc07f) (Z.shiftl (Z.land quiet 0x1fc07f) 7).

(** ** Permissions *)

Record perms_t := Perms { allow : Z; deny : Z; prompt : Z; audit : Z; quiet : Z }.
#[export] Instance perms_t_eq_dec : EqDecision perms_t.
Proof. solve_decision. Defined.
Definition perms_clear : perms_t := Perms 0 0 0 0 0.

Definition perms_is_accept (p : perms_t) : bool :=
  negb (ors [allow p; deny p; prompt p; audit p; quiet p] =? 0).

Definition clear_bits (bits : Z) (p : perms_t) : perms_t :=
  let m := not32 bits in
  Perms (Z.land (allow p) m) (Z.land (deny p) m) (Z.land (prompt p) m) (Z.land (audit p) m)
        (Z.land (quiet p) m).

(** [None] is the exception for different exec modifiers. *)
Definition perms_add (p rhs : perms_t) (filedfa : bool) : option perms_t :=
  if filedfa && negb (is_merged_x_consistent (Z.land (allow p) ALL_USER_EXEC)
                                             (Z.land (allow rhs) ALL_USER_EXEC)) then None
  else if filedfa && negb (is_merged_x_consistent (Z.land (allow p) ALL_OTHER_EXEC)
                                                  (Z.land (allow rhs) ALL_OTHER_EXEC)) then None
  else Some (Perms (Z.lor (allow p) (allow rhs)) (Z.lor (deny p) (deny rhs))
                   (Z.lor (prompt p) (prompt rhs)) (Z.lor (audit p) (audit rhs))
                   (Z.lor (quiet p) (quiet rhs))).

Definition apply_and_clear_deny (p : perms_t) : perms_t * bool :=
  if negb (deny p =? 0) then
    let m := not32 (deny p) in
    let p := Perms (Z.lor (Z.land (allow p) m) (Z.land (deny p) AA_COMPAT_CONT_MATCH)) 0
                   (Z.land (prompt p) m) (audit p) (quiet p) in
    (p, negb (perms_is_accept p))
  else (p, false).

Definition map_perms_to_accept (p : perms_t) : Z * Z * Z :=
  (allow p, PACK_AUDIT_CTL (audit p) (quiet p), prompt p).

(** [operator<], which orders the cache of permissions; the second comparison of
    [audit] is the one of the source. *)
Definition perms_lt (p rhs : perms_t) : bool :=
  if negb (allow p =? allow rhs) then allow p <? allow rhs
  else if negb (deny p =? deny rhs) then deny p <? deny rhs
  else if negb (prompt p =? prompt rhs) then prompt p <? prompt rhs
  else if negb (audit p =? audit rhs) then audit p <? audit rhs
  else if negb (audit p =? audit rhs) then audit p >? audit rhs
  else quiet p <? quiet rhs.
Definition perms_eqb (p rhs : perms_t) : bool :=
  if negb (allow p =? allow rhs) then false
  else if negb (deny p =? deny rhs) then false
  else if negb (prompt p =? prompt rhs) then false
  else if negb (audit p =? audit rhs) then false
  else quiet p =? quiet rhs.

(** ** Computing the permissions of a state *)

(** A [MatchFlag]. *)
Record flag := Flag { f_type : flag_type; f_priority : Z; f_perms : Z; f_audit : Z }.
Definition flag_of (n : ImportantNode) : option flag :=
  match node_type n with
  | AcceptNode f pr p a => Some (Flag f pr p a)
  | _ => None
  end.

(** The priority of each bit so far, and the permissions. *)
Record acc := Acc_ { prio : list Z; perms : perms_t }.

(** The place of a flag for the bit [i]: rule priority first, then the type of
    the rule. *)
Definition scaled (m : flag) (i : nat) : Z :=
  Z.shiftl (f_priority m) 2 +
  match f_type m with
  | DenyMatchFlag => 3
  | ExactMatchFlag => if has (Z.shiftl 1 (Z.of_nat i)) AA_EXEC_BITS then 2 else 1
  | MatchFlag => 1
  | PromptMatchFlag => 0
  end.

(** The bits that go with the bit [i] ([amask]), and those of them that are the
    type of an exec permission ([xmask]). *)
Definition masks_of (filedfa : bool) (i : nat) : Z * Z :=
  let mask := Z.shiftl 1 (Z.of_nat i) in
  let xmask := if filedfa then
                 if has mask AA_USER_EXEC then AA_USER_EXEC_TYPE
                 else if has mask AA_OTHER_EXEC then AA_OTHER_EXEC_TYPE else 0
               else 0 in
  (Z.lor mask xmask, xmask).

Definition pri_update_perm (filedfa : bool) (i : nat) (m : flag) (s : acc) : option acc :=
  let pri := scaled m i in
  let pi := prio s !!! i in
  if pi >? pri then Some s
  else
    let '(amask, xmask) := masks_of filedfa i in
    let s := if pi <? pri then Acc_ (<[i := pri]> (prio s)) (clear_bits amask (perms s)) else s in
    let p := perms s in
    let mp := Z.land (f_perms m) amask in
    let ma := Z.land (f_audit m) amask in
    let conflict := filedfa && negb (xmask =? 0) && has (allow p) amask &&
                    negb (is_merged_x_consistent (allow p) mp) in
    match f_type m with
    | DenyMatchFlag =>
        let k := not32 amask in
        Some (Acc_ (prio s)
          (Perms (Z.lor (Z.land (allow p) k) (Z.land mp AA_COMPAT_CONT_MATCH)) (Z.lor (deny p) mp)
                 (Z.land (prompt p) k) (Z.land (audit p) k) (Z.lor (quiet p) ma)))
    | ExactMatchFlag =>
        if conflict then None
        else
          let k := not32 xmask in
          Some (Acc_ (prio s)
            (Perms (Z.lor (Z.land (allow p) k) mp) (deny p) (Z.land (prompt p) k)
                   (Z.lor (Z.land (audit p) k) ma) (quiet p)))
    | MatchFlag =>
        if conflict then None
        else Some (Acc_ (prio s)
               (Perms (Z.lor (allow p) mp) (deny p) (prompt p) (Z.lor (audit p) ma) (quiet p)))
    | PromptMatchFlag =>
        if conflict then None
        else Some (Acc_ (prio s)
               (Perms (allow p) (deny p) (Z.lor (prompt p) mp) (Z.lor (audit p) ma) (quiet p)))
    end.

Definition flag_check (filedfa : bool) (m : flag) : Z :=
  let check := Z.lor (f_perms m) (f_audit m) in
  if filedfa then Z.land check (not32 ALL_AA_EXEC_TYPE) else check.

(** The loop over the bits of a flag; [n] is the number of bits left. *)
Fixpoint bits_loop (filedfa : bool) (m : flag) (n i : nat) (check : Z) (s : acc) : option acc :=
  match n with
  | O => Some s
  | S n' =>
      if check =? 0 then Some s
      else
        let bit := Z.shiftl 1 (Z.of_nat i) in
        match (if has check bit then pri_update_perm filedfa i m s else Some s) with
        | None => None
        | Some s => bits_loop filedfa m n' (S i) (Z.land check (not32 bit)) s
        end
  end.

Fixpoint flags_loop (filedfa : bool) (ms : list flag) (s : acc) : option acc :=
  match ms with
  | [] => Some s
  | m :: ms' =>
      match bits_loop filedfa m 32 0 (flag_check filedfa m) s with
      | None => None
      | Some s => flags_loop filedfa ms' s
      end
  end.

(** An inherited exec permission implies mapping for execution, unless a rule of
    higher priority decides about that. *)
Definition add_implied_ix_mmap (prio : list Z) (mask : Z) : Z :=
  let '(mask, prio) :=
    if has mask AA_MAY_EXEC && has mask AA_EXEC_INHERIT &&
       (prio !!! EXEC_MMAP_SHIFT <=? prio !!! MAY_EXEC_SHIFT)
    then (Z.lor mask AA_USER_EXEC_MMAP, <[EXEC_MMAP_SHIFT := prio !!! MAY_EXEC_SHIFT]> prio)
    else (mask, prio) in
  if has mask AA_OTHER_EXEC && has mask AA_OTHER_EXEC_INHERIT &&
     (prio !!! EXEC_OTHER_MMAP_SHIFT <=? prio !!! MAY_OTHER_EXEC_SHIFT)
  then Z.lor mask AA_OTHER_EXEC_MMAP else mask.

Definition acc_init : acc := Acc_ (replicate 32 (MIN_INTERNAL_PRIORITY * 4)) perms_clear.

(** The constructor of [perms_t] from the accept nodes of a state in the order of
    their addresses; [None] is the exception for conflicting exec modifiers. *)
Definition flags_perms (filedfa : bool) (ms : list flag) : option perms_t :=
  match flags_loop filedfa ms acc_init with
  | None => None
  | Some (Acc_ pr p) =>
      Some (if filedfa && has (allow p) AA_EXEC_BITS
            then Perms (add_implied_ix_mmap pr (allow p)) (deny p) (prompt p) (audit p) (quiet p)
            else p)
  end.
Definition perms_of (filedfa : bool) (ns : list ImportantNode) : option perms_t :=
  flags_perms filedfa (omap flag_of ns).

(** ** What the permissions of a state are *)

(** The bits that are decided together: the type of an exec permission goes with
    its exec bit. *)
Definition lead (filedfa : bool) (b : nat) : nat :=
  if filedfa then
    if (7 <=? b)%nat && (b <=? 13)%nat then MAY_EXEC_SHIFT
    else if (21 <=? b)%nat && (b <=? 27)%nat then MAY_OTHER_EXEC_SHIFT else b
  else b.
Definition bit (x : Z) (b : nat) : bool := Z.testbit x (Z.of_nat b).

(** A flag says something about the bit [l]. *)
Definition concerns (l : nat) (m : flag) : bool := bit (Z.lor (f_perms m) (f_audit m)) l.
Definition best (l : nat) (ms : list flag) : Z :=
  foldr (fun m z => if concerns l m then Z.max (scaled m l) z else z) (MIN_INTERNAL_PRIORITY * 4) ms.
(** Some flag of the highest place for the bit has [Q]. *)
Definition decided (l : nat) (Q : flag -> bool) (ms : list flag) : bool :=
  existsb (fun m => concerns l m && (scaled m l =? best l ms) && Q m) ms.

Definition is_deny (m : flag) : bool := match f_type m with DenyMatchFlag => true | _ => false end.
Definition is_prompt (m : flag) : bool := match f_type m with PromptMatchFlag => true | _ => false end.
Definition is_allow (m : flag) : bool := negb (is_deny m) && negb (is_prompt m).

(** The continue-match bit is never taken away. *)
Definition q_allow (b : nat) (m : flag) : bool :=
  bit (f_perms m) b && (is_allow m || (is_deny m && (b =? 28)%nat)).
Definition q_deny (b : nat) (m : flag) : bool := bit (f_perms m) b && is_deny m.
Definition q_prompt (b : nat) (m : flag) : bool := bit (f_perms m) b && is_prompt m.
Definition q_audit (b : nat) (m : flag) : bool := bit (f_audit m) b && negb (is_deny m).
Definition q_quiet (b : nat) (m : flag) : bool := bit (f_audit m) b && is_deny m.

(** What rules give: only what is permitted is audited, in 32 bits. *)
Definition flag_ok (m : flag) : Prop :=
  0 <= f_perms m < 2 ^ 32 /\ 0 <= f_audit m < 2 ^ 32 /\ Z.land (f_audit m) (f_perms m) = f_audit m.

(** All pairs of bits, by computation. *)
Lemma bits_spec (P : nat -> nat -> bool) :
  forallb (fun i => forallb (P i) (seq 0 32)) (seq 0 32) = true ->
  forall i b, (i < 32)%nat -> (b < 32)%nat -> P i b = true.
Proof.
  rewrite forallb_forall; intros H i b Hi Hb. specialize (H i); rewrite forallb_forall in H.
  apply H; apply in_seq; lia.
Qed.

Lemma amask_bit fd i b : (i < 32)%nat -> (b < 32)%nat -> lead fd i = i ->
  bit (masks_of fd i).1 b = (lead fd b =? i)%nat.
Proof.
  intros Hi Hb Hl.
  pose proof (bits_spec (fun i b => negb (lead fd i =? i)%nat ||
    Bool.eqb (bit (masks_of fd i).1 b) (lead fd b =? i)%nat)) as H.
  specialize (H ltac:(by destruct fd; vm_compute) i b Hi Hb).
  cbv beta in H; rewrite Hl, Nat.eqb_refl in H; cbn [negb orb] in H. by apply eqb_prop in H.
Qed.
Lemma xmask_bit fd i b : (i < 32)%nat -> (b < 32)%nat -> lead fd i = i ->
  bit (masks_of fd i).2 b = ((lead fd b =? i) && negb (b =? i))%nat.
Proof.
  intros Hi Hb Hl.
  pose proof (bits_spec (fun i b => negb (lead fd i =? i)%nat ||
    Bool.eqb (bit (masks_of fd i).2 b) ((lead fd b =? i) && negb (b =? i))%nat)) as H.
  specialize (H ltac:(by destruct fd; vm_compute) i b Hi Hb).
  cbv beta in H; rewrite Hl, Nat.eqb_refl in H; cbn [negb orb] in H. by apply eqb_prop in H.
Qed.
Lemma cont_bit b : (b < 32)%nat -> bit AA_COMPAT_CONT_MATCH b = (b =? 28)%nat.
Proof.
  intros Hb. apply eqb_prop.
  apply (bits_spec (fun _ b => Bool.eqb (bit AA_COMPAT_CONT_MATCH b) (b =? 28)%nat)) with (i := 0%nat);
    [by vm_compute|lia|done].
Qed.

Lemma bit_lor x y b : bit (Z.lor x y) b = bit x b || bit y b.
Proof. apply Z.lor_spec. Qed.
Lemma bit_land x y b : bit (Z.land x y) b = bit x b && bit y b.
Proof. apply Z.land_spec. Qed.
Lemma bit_not32 x b : (b < 32)%nat -> bit (not32 x) b = negb (bit x b).
Proof. intros; apply not32_bit; lia. Qed.
Lemma bit_zero b : bit 0 b = false.
Proof. apply Z.bits_0. Qed.
Lemma bit_shiftl1 i b : bit (Z.shiftl 1 (Z.of_nat i)) b = (b =? i)%nat.
Proof.
  unfold bit. rewrite Z.shiftl_1_l, Z.pow2_bits_eqb by lia.
  destruct (Nat.eqb_spec b i) as [->|]; [by rewrite Z.eqb_refl|]. apply Z.eqb_neq; lia.
Qed.
Lemma bits_inj x y : 0 <= x < 2 ^ 32 -> 0 <= y < 2 ^ 32 ->
  (forall b, (b < 32)%nat -> bit x b = bit y b) -> x = y.
Proof.
  intros Hx Hy H. apply Z.bits_inj'; intros n Hn.
  destruct (decide (n < 32)) as [Hlt|Hge].
  - specialize (H (Z.to_nat n)); unfold bit in H; rewrite Z2Nat.id in H by lia. apply H; lia.
  - assert (Hhi : forall z, 0 <= z < 2 ^ 32 -> Z.testbit z n = false); [|by rewrite !Hhi].
    intros z Hz. apply not_true_is_false; intros Ht. apply (mask_bit_low z n Hz) in Ht; lia.
Qed.

Lemma has_shiftl1 x i : has x (Z.shiftl 1 (Z.of_nat i)) = bit x i.
Proof.
  unfold has. destruct (bit x i) eqn:Eb.
  - apply negb_true_iff, Z.eqb_neq; intros E.
    assert (H : bit (Z.land x (Z.shiftl 1 (Z.of_nat i))) i = true)
      by (rewrite bit_land, Eb, bit_shiftl1, Nat.eqb_refl; done).
    rewrite E, bit_zero in H; done.
  - apply negb_false_iff, Z.eqb_eq. apply Z.bits_inj_0; intros n.
    destruct (decide (0 <= n)) as [Hn|Hn]; [|by rewrite Z.testbit_neg_r by lia].
    assert (H : bit (Z.land x (Z.shiftl 1 (Z.of_nat i))) (Z.to_nat n) = false).
    { rewrite bit_land, bit_shiftl1. destruct (Nat.eqb_spec (Z.to_nat n) i) as [->|];
        [by rewrite Eb|apply andb_false_r]. }
    unfold bit in H; by rewrite Z2Nat.id in H by lia.
Qed.
Lemma has_mono x m b : bit x b = true -> bit m b = true -> has x m = true.
Proof.
  intros Hx Hm. unfold has; apply negb_true_iff, Z.eqb_neq; intros E.
  assert (H : bit (Z.land x m) b = true) by (by rewrite bit_land, Hx, Hm). by rewrite E, bit_zero in H.
Qed.

(** The five permissions of one bit. *)
Record pbits := PB { ba : bool; bd : bool; bp : bool; bau : bool; bq : bool }.
Definition pb_at (p : perms_t) (b : nat) : pbits :=
  PB (bit (allow p) b) (bit (deny p) b) (bit (prompt p) b) (bit (audit p) b) (bit (quiet p) b).
Definition pb_none : pbits := PB false false false false false.

(** What a flag that is not outranked does to a bit [b] of the group of [i]. *)
Definition bit_step (m : flag) (i b : nat) (x : pbits) : pbits :=
  let pb := bit (f_perms m) b in
  let ab := bit (f_audit m) b in
  match f_type m with
  | DenyMatchFlag => PB (pb && (b =? 28)%nat) (bd x || pb) false false (bq x || ab)
  | ExactMatchFlag =>
      let k := (b =? i)%nat in
      PB ((ba x && k) || pb) (bd x) (bp x && k) ((bau x && k) || ab) (bq x)
  | MatchFlag => PB (ba x || pb) (bd x) (bp x) (bau x || ab) (bq x)
  | PromptMatchFlag => PB (ba x) (bd x) (bp x || pb) (bau x || ab) (bq x)
  end.

Definition x_conflict (filedfa : bool) (i : nat) (m : flag) (p : perms_t) : bool :=
  let '(amask, xmask) := masks_of filedfa i in
  filedfa && negb (xmask =? 0) && has (allow p) amask &&
  negb (is_merged_x_consistent (allow p) (Z.land (f_perms m) amask)).

Definition raised (filedfa : bool) (i : nat) (m : flag) (s : acc) : acc :=
  if prio s !!! i <? scaled m i
  then Acc_ (<[i := scaled m i]> (prio s)) (clear_bits (masks_of filedfa i).1 (perms s)) else s.

Lemma pb_clear fd i b p :
  (i < 32)%nat -> (b < 32)%nat -> lead fd i = i ->
  pb_at (clear_bits (masks_of fd i).1 p) b = if (lead fd b =? i)%nat then pb_none else pb_at p b.
Proof.
  intros Hi Hb Hl. unfold pb_at, clear_bits; cbn -[masks_of].
  rewrite !bit_land, !bit_not32, amask_bit by done.
  by destruct (lead fd b =? i)%nat; cbn; rewrite ?andb_false_r, ?andb_true_r.
Qed.

(** One step, bit by bit. *)
Lemma pri_update_bits fd i m s s' :
  (i < 32)%nat -> lead fd i = i ->
  pri_update_perm fd i m s = Some s' ->
  if prio s !!! i >? scaled m i then s' = s
  else
    prio s' = prio (raised fd i m s) /\
    (f_type m <> DenyMatchFlag -> x_conflict fd i m (perms (raised fd i m s)) = false) /\
    forall b, (b < 32)%nat ->
      pb_at (perms s') b =
      if (lead fd b =? i)%nat then bit_step m i b (pb_at (perms (raised fd i m s)) b)
      else pb_at (perms s) b.
Proof.
  intros Hi Hl. unfold pri_update_perm. destruct (_ >? _) eqn:Egt; [naive_solver|].
  assert (Hr : forall b, (b < 32)%nat -> (lead fd b =? i)%nat = false ->
            pb_at (perms (raised fd i m s)) b = pb_at (perms s) b).
  { intros b Hb Eb. unfold raised. destruct (_ <? _); [|done]. cbn [perms]. by rewrite pb_clear, Eb. }
  pose proof (fun b Hb => amask_bit fd i b Hi Hb Hl) as Ham.
  pose proof (fun b Hb => xmask_bit fd i b Hi Hb Hl) as Hxm.
  revert Hr. unfold x_conflict, raised. destruct (masks_of fd i) as [amask xmask] eqn:Em; cbn [fst snd] in *.
  set (s1 := if _ <? _ then _ else _); clearbody s1; intros Hr.
  destruct (f_type m) eqn:Et; [..|destruct (fd && _ && _ && _); [done|]]; 
    try (destruct (fd && _ && _ && _) eqn:Ec; [done|]);
    intros [= <-]; (split; [done|split; [done|]]); intros b Hb; unfold bit_step; rewrite Et;
    (destruct (lead fd b =? i)%nat eqn:Eb; [|rewrite <- (Hr b Hb Eb)]);
    unfold pb_at; cbn [perms allow deny prompt audit quiet ba bd bp bau bq];
    rewrite ?bit_lor, ?bit_land, ?bit_not32, ?cont_bit, ?Ham, ?Hxm, ?Eb by done; cbn;
    rewrite ?negb_involutive, ?andb_false_r, ?andb_true_r, ?orb_false_r; done.
Qed.

(** *** The flags of the highest place *)

Lemma best_le l ms m : m ∈ ms -> concerns l m = true -> scaled m l <= best l ms.
Proof.
  induction 1 as [m ms|m m' ms Hin IH]; intros Hc; cbn; [rewrite Hc; lia|].
  specialize (IH Hc). unfold best in IH. destruct (concerns l m'); lia.
Qed.

Lemma decided_true l Q ms :
  decided l Q ms = true <->
  exists m, m ∈ ms /\ concerns l m = true /\ scaled m l = best l ms /\ Q m = true.
Proof.
  unfold decided. rewrite existsb_exists. split.
  - intros (m & Hm & H). apply andb_prop in H as [[H1 H2]%andb_prop H3].
    exists m; rewrite list_elem_of_In; split_and!; try done; lia.
  - intros (m & Hm & H1 & H2 & H3). exists m; rewrite <- list_elem_of_In; split; [done|].
    rewrite H1, H3, H2, Z.eqb_refl; done.
Qed.
Lemma decided_false l Q ms :
  (forall m, m ∈ ms -> concerns l m = true -> scaled m l = best l ms -> Q m = false) ->
  decided l Q ms = false.
Proof.
  intros H. apply not_true_is_false; rewrite decided_true; intros (m & H1 & H2 & H3 & H4).
  by rewrite (H m) in H4.
Qed.

Lemma best_cons l m ms : concerns l m = true -> best l (m :: ms) = Z.max (scaled m l) (best l ms).
Proof. intros Hc; cbn. by rewrite Hc. Qed.
Lemma decided_skip l Q m ms : concerns l m = false -> decided l Q (m :: ms) = decided l Q ms.
Proof.
  intros Hc. unfold decided at 1. cbn [existsb]. rewrite Hc; cbn [andb orb].
  unfold decided. f_equal. cbn [best foldr]. by rewrite Hc.
Qed.
Lemma decided_low l Q m ms :
  concerns l m = true -> scaled m l < best l ms -> decided l Q (m :: ms) = decided l Q ms.
Proof.
  intros Hc Hlt. unfold decided. rewrite best_cons, Z.max_r by (done || lia). cbn [existsb].
  by destruct (Z.eqb_spec (scaled m l) (best l ms)); [lia|]; rewrite andb_false_r.
Qed.
Lemma decided_high l Q m ms :
  concerns l m = true -> best l ms < scaled m l -> decided l Q (m :: ms) = Q m.
Proof.
  intros Hc Hlt. assert (Hb : best l (m :: ms) = scaled m l).
  { rewrite best_cons by done. lia. }
  destruct (Q m) eqn:EQ.
  - apply decided_true. exists m; rewrite Hb; split_and!; try done. by constructor.
  - apply decided_false. intros m' [->|Hin]%elem_of_cons Hc' Hs; [done|].
    pose proof (best_le l ms m' Hin Hc'); lia.
Qed.
Lemma decided_same l Q m ms :
  concerns l m = true -> scaled m l = best l ms -> decided l Q (m :: ms) = Q m || decided l Q ms.
Proof.
  intros Hc He. unfold decided. rewrite best_cons, Z.max_l by (done || lia). cbn [existsb].
  by rewrite Hc, He, Z.eqb_refl.
Qed.

(** Two flags of the same place are of the same sort. *)
Lemma scaled_sort m m' l : scaled m l = scaled m' l ->
  is_deny m = is_deny m' /\ is_prompt m = is_prompt m' /\
  (has (Z.shiftl 1 (Z.of_nat l)) AA_EXEC_BITS = true ->
   f_type m = ExactMatchFlag <-> f_type m' = ExactMatchFlag).
Proof.
  unfold scaled, is_deny, is_prompt. rewrite !Z.shiftl_mul_pow2 by lia. intros E.
  destruct (has _ _) eqn:Eh; destruct (f_type m) eqn:E1, (f_type m') eqn:E2; split_and!;
    try done; try lia; intros; split; done || lia.
Qed.

(** What is known of the bits decided with [l] after the flags [ms]. *)
Record group_ok (fd : bool) (l : nat) (ms : list flag) (s : acc) : Prop := {
  g_prio : prio s !!! l = best l ms;
  g_bits : forall b, (b < 32)%nat -> lead fd b = l ->
    let x := pb_at (perms s) b in
    ba x = decided l (q_allow b) ms /\ bd x = decided l (q_deny b) ms /\
    bp x = decided l (q_prompt b) ms /\ bq x = decided l (q_quiet b) ms /\
    (b = l -> bau x = decided l (q_audit b) ms)
}.

Lemma concerns_perms l m : flag_ok m -> concerns l m = bit (f_perms m) l.
Proof.
  intros (_ & _ & H). unfold concerns. rewrite bit_lor. rewrite <- H, bit_land.
  by destruct (bit (f_perms m) l), (bit (f_audit m) l).
Qed.

(** An exact rule that does not conflict has the exec type of the exact rules of
    the same place. *)
Lemma no_conflict_type fd l m p b :
  (l < 32)%nat -> (b < 32)%nat -> lead fd b = l -> b <> l -> x_conflict fd l m p = false ->
  bit (allow p) l = true -> bit (f_perms m) l = true -> bit (allow p) b = bit (f_perms m) b.
Proof.
  intros Hl Hb Hlead Hne Hc Ha Hm.
  assert (Hcase : fd = true /\ ((l = 0%nat /\ bit AA_USER_EXEC_TYPE b = true) \/
                                (l = 14%nat /\ bit AA_OTHER_EXEC_TYPE b = true))).
  { assert (G : (negb (lead fd b =? l) || (b =? l) ||
        (fd && (((l =? 0) && bit AA_USER_EXEC_TYPE b) || ((l =? 14) && bit AA_OTHER_EXEC_TYPE b))))%nat = true).
    { apply (bits_spec (fun l b => negb (lead fd b =? l) || (b =? l) ||
        (fd && (((l =? 0) && bit AA_USER_EXEC_TYPE b) || ((l =? 14) && bit AA_OTHER_EXEC_TYPE b))))%nat);
        [by destruct fd; vm_compute|done..]. }
    rewrite Hlead, Nat.eqb_refl in G. destruct (Nat.eqb_spec b l); [done|]. cbn in G.
    apply andb_prop in G as [-> G]; split; [done|]. apply orb_prop in G as [G|G];
      apply andb_prop in G as [G1 G2]; apply Nat.eqb_eq in G1; auto. }
  destruct Hcase as [-> Hcase].
  assert (Hlift : forall mask, Z.land (allow p) mask = Z.land (Z.land (f_perms m) (masks_of true l).1) mask ->
            bit mask b = true -> bit (allow p) b = bit (f_perms m) b).
  { intros mask E Hmb. assert (H : bit (Z.land (allow p) mask) b =
      bit (Z.land (Z.land (f_perms m) (masks_of true l).1) mask) b) by (by rewrite E).
    rewrite !bit_land, Hmb, amask_bit, Hlead, Nat.eqb_refl, !andb_true_r in H; [done..|].
    by destruct Hcase as [[-> _]|[-> _]]. }
  unfold x_conflict in Hc.
  assert (Hh : has (allow p) (masks_of true l).1 = true).
  { apply (has_mono _ _ l Ha). rewrite amask_bit; [by destruct Hcase as [[-> _]|[-> _]]|done..|].
    by destruct Hcase as [[-> _]|[-> _]]. }
  destruct (masks_of true l) as [amask xmask] eqn:Em; cbn [fst snd] in *. rewrite Hh in Hc.
  assert (Hx : (xmask =? 0) = false).
  { destruct Hcase as [[-> _]|[-> _]]; vm_compute in Em; by injection Em as <- <-. }
  rewrite Hx in Hc; cbn [negb andb] in Hc. apply negb_false_iff in Hc.
  assert (Hmm : bit (Z.land (f_perms m) amask) l = true).
  { rewrite bit_land, Hm. pose proof (amask_bit true l l Hl Hl) as G. rewrite Em in G; cbn [fst] in G.
    rewrite G; destruct Hcase as [[-> _]|[-> _]]; done. }
  unfold is_merged_x_consistent in Hc.
  destruct Hcase as [[-> Hbt]|[-> Hbt]].
  - change AA_USER_EXEC with (Z.shiftl 1 (Z.of_nat 0)) in Hc. rewrite !has_shiftl1, Ha, Hmm in Hc.
    cbn [andb] in Hc. destruct (Z.eqb_spec (Z.land (allow p) AA_USER_EXEC_TYPE)
      (Z.land (Z.land (f_perms m) amask) AA_USER_EXEC_TYPE)) as [E|]; [|done]. by apply (Hlift _ E).
  - change AA_OTHER_EXEC with (Z.shiftl 1 (Z.of_nat 14)) in Hc. rewrite !has_shiftl1, Ha, Hmm in Hc.
    destruct (has (allow p) AA_USER_EXEC && _ && _); [done|].
    cbn [andb] in Hc. destruct (Z.eqb_spec (Z.land (allow p) AA_OTHER_EXEC_TYPE)
      (Z.land (Z.land (f_perms m) amask) AA_OTHER_EXEC_TYPE)) as [E|]; [|done]. by apply (Hlift _ E).
Qed.

Lemma raised_prio fd i m s :
  length (prio s) = 32%nat -> (i < 32)%nat -> prio s !!! i <= scaled m i ->
  prio (raised fd i m s) !!! i = scaled m i.
Proof.
  intros Hlen Hi Hle. unfold raised. destruct (Z.ltb_spec (prio s !!! i) (scaled m i)); cbn; [|lia].
  by apply list_lookup_total_insert_eq; rewrite Hlen.
Qed.
Lemma raised_prio_ne fd i j m s : i <> j -> prio (raised fd i m s) !!! j = prio s !!! j.
Proof. intros Hne. unfold raised. destruct (_ <? _); [|done]. by apply list_lookup_total_insert_ne. Qed.
Lemma raised_prio_length fd i m s : length (prio (raised fd i m s)) = length (prio s).
Proof. unfold raised. destruct (_ <? _); [|done]. by apply length_insert. Qed.

(** A step of an equal place: the bits of the group, by the sort of the flag. *)
Lemma bit_step_same fd l m ms s b :
  (l < 32)%nat -> lead fd l = l -> (b < 32)%nat -> lead fd b = l ->
  flag_ok m -> Forall flag_ok ms -> concerns l m = true -> scaled m l = best l ms ->
  group_ok fd l ms s -> (f_type m <> DenyMatchFlag -> x_conflict fd l m (perms s) = false) ->
  let x := bit_step m l b (pb_at (perms s) b) in
  ba x = q_allow b m || decided l (q_allow b) ms /\ bd x = q_deny b m || decided l (q_deny b) ms /\
  bp x = q_prompt b m || decided l (q_prompt b) ms /\ bq x = q_quiet b m || decided l (q_quiet b) ms /\
  (b = l -> bau x = q_audit b m || decided l (q_audit b) ms).
Proof.
  intros Hl Hll Hb Hbl Hm Hms Hc He [_ Hg] Hx.
  destruct (Hg b Hb Hbl) as (Ga & Gd & Gp & Gq & Gau).
  assert (Hsort : forall m', m' ∈ ms -> concerns l m' = true -> scaled m' l = best l ms ->
    is_deny m' = is_deny m /\ is_prompt m' = is_prompt m /\
    (has (Z.shiftl 1 (Z.of_nat l)) AA_EXEC_BITS = true ->
      f_type m' = ExactMatchFlag <-> f_type m = ExactMatchFlag)).
  { intros m' _ _ E'. apply scaled_sort. by rewrite E', He. }
  assert (Hno : forall Q, (forall m', is_deny m' = is_deny m -> is_prompt m' = is_prompt m -> Q m' = false) ->
            decided l Q ms = false).
  { intros Q HQ. apply decided_false; intros m' H1 H2 H3. destruct (Hsort m' H1 H2 H3) as (? & ? & _). auto. }
  assert (Hlm : bit (f_perms m) l = true) by (by rewrite <- concerns_perms).
  pose proof (eq_refl : is_deny m = match f_type m with DenyMatchFlag => true | _ => false end) as Hd.
  pose proof (eq_refl : is_prompt m = match f_type m with PromptMatchFlag => true | _ => false end) as Hp.
  assert (Hal : bit (allow (perms s)) b = ba (pb_at (perms s) b)) by done.
  assert (Hal' : forall Q, decided l Q ms = true -> is_allow m = true -> bit (allow (perms s)) l = true).
  { intros Q (m' & H1 & H2 & H3 & _)%decided_true Ham.
    destruct (Hg l Hl Hll) as (Gl & _). change (bit (allow (perms s)) l) with (ba (pb_at (perms s) l)).
    rewrite Gl. apply decided_true. exists m'; split_and!; try done.
    unfold q_allow. rewrite <- concerns_perms, H2 by (by eapply Forall_forall in Hms).
    destruct (Hsort m' H1 H2 H3) as (E1 & E2 & _). unfold is_allow in *. by rewrite E1, E2, Ham. }
  revert Ga Gd Gp Gq Gau Hal; generalize (pb_at (perms s) b); intros x Ga Gd Gp Gq Gau Hal.
  assert (Hdf : is_deny m = false -> decided l (q_deny b) ms = false /\ decided l (q_quiet b) ms = false).
  { intros Ed; split; apply Hno; intros m' E1 _; unfold q_deny, q_quiet; rewrite E1, Ed; apply andb_false_r. }
  assert (Hpf : is_prompt m = false -> decided l (q_prompt b) ms = false).
  { intros Ed; apply Hno; intros m' _ E1; unfold q_prompt; rewrite E1, Ed; apply andb_false_r. }
  unfold bit_step; destruct (f_type m) eqn:Et; cbn [ba bd bp bau bq]; cbn in Hd, Hp;
    unfold q_allow at 1, q_deny at 1, q_prompt at 1, q_audit at 1, q_quiet at 1, is_allow;
    rewrite ?Hd, ?Hp, ?Ga, ?Gd, ?Gp, ?Gq; cbn; rewrite ?andb_true_r, ?andb_false_r; cbn.
  - destruct (Hdf Hd) as [-> ->]; rewrite (Hpf Hp); split_and!; try done; [apply orb_comm|].
    intros E; rewrite Gau by done. apply orb_comm.
  - destruct (Hdf Hd) as [-> ->]; rewrite (Hpf Hp); split_and!; try done.
    + destruct (Nat.eqb_spec b l) as [->|Hne]; [rewrite andb_true_r; apply orb_comm|].
      rewrite andb_false_r; cbn. destruct (decided l (q_allow b) ms) eqn:Ed; [|by rewrite orb_false_r].
      rewrite <- (no_conflict_type fd l m (perms s) b); try done; [by rewrite Hal, Ga|by apply Hx|].
      apply (Hal' _ Ed). unfold is_allow; by rewrite Hd, Hp.
    + intros E; rewrite Gau, E, Nat.eqb_refl, andb_true_r by done. apply orb_comm.
  - rewrite (Hpf Hp); split_and!; try done; [|apply orb_comm..|].
    + destruct (decided l (q_allow b) ms) eqn:Ed; [|by rewrite orb_false_r].
      apply decided_true in Ed as (m' & H1 & H2 & H3 & H4).
      unfold q_allow in H4. destruct (Hsort m' H1 H2 H3) as (E1 & E2 & _).
      unfold is_allow in H4; rewrite E1, E2, Hd, Hp in H4; cbn in H4.
      apply andb_prop in H4 as [_ H4]; rewrite H4; apply Nat.eqb_eq in H4; subst b.
      assert (l = 28%nat) as -> by (rewrite <- Hbl; by destruct fd). by rewrite Hlm.
    + intros _. symmetry; apply Hno; intros m' E1 _; unfold q_audit; rewrite E1, Hd; apply andb_false_r.
  - destruct (Hdf Hd) as [-> ->]; split_and!; try done; [apply orb_comm|].
    intros E; rewrite Gau by done. apply orb_comm.
Qed.

Lemma group_step fd l m ms s s' :
  (l < 32)%nat -> lead fd l = l -> flag_ok m -> Forall flag_ok ms -> concerns l m = true ->
  length (prio s) = 32%nat -> pri_update_perm fd l m s = Some s' ->
  group_ok fd l ms s -> group_ok fd l (m :: ms) s'.
Proof.
  intros Hl Hll Hm Hms Hc Hlen Hup Hg. pose proof Hg as [Gp Gb].
  apply pri_update_bits in Hup; [|done..]. rewrite Gp in Hup.
  destruct (best l ms >? scaled m l) eqn:Egt.
  - subst s'. split.
    + rewrite best_cons by done. lia.
    + intros b Hb Hbl. rewrite !decided_low by (done || lia). by apply Gb.
  - destruct Hup as (Hpr & Hx & Hbits). split.
    + rewrite Hpr, raised_prio, best_cons by (done || lia). lia.
    + intros b Hb Hbl. rewrite Hbits by done. rewrite Hbl, Nat.eqb_refl.
      unfold raised in *. rewrite Gp in *. destruct (Z.ltb_spec (best l ms) (scaled m l)) as [Hlt|Hge].
      * rewrite !decided_high by done. cbn [perms]. rewrite pb_clear, Hbl, Nat.eqb_refl by done.
        unfold bit_step, q_allow, q_deny, q_prompt, q_audit, q_quiet, is_allow, is_deny, is_prompt.
        destruct (f_type m); cbn; rewrite ?andb_true_r, ?andb_false_r; done.
      * rewrite !decided_same by (done || lia). apply (bit_step_same fd l m ms s b); try done; lia.
Qed.

Lemma group_other fd l l' m ms s s' :
  (l < 32)%nat -> lead fd l = l -> l <> l' -> pri_update_perm fd l m s = Some s' ->
  group_ok fd l' ms s -> group_ok fd l' ms s'.
Proof.
  intros Hl Hll Hne Hup [Gp Gb]. apply pri_update_bits in Hup; [|done..].
  destruct (_ >? _); [by subst; split|]. destruct Hup as (Hpr & _ & Hbits). split.
  - by rewrite Hpr, raised_prio_ne.
  - intros b Hb Hbl. rewrite Hbits by done. rewrite Hbl.
    destruct (Nat.eqb_spec l' l); [congruence|]. by apply Gb.
Qed.

Lemma pri_update_length fd l m s s' :
  (l < 32)%nat -> lead fd l = l -> pri_update_perm fd l m s = Some s' ->
  length (prio s') = length (prio s).
Proof.
  intros Hl Hll Hup. apply pri_update_bits in Hup; [|done..]. destruct (_ >? _); [by subst|].
  destruct Hup as (-> & _). apply raised_prio_length.
Qed.

(** All groups at once; [seen l] are the flags that were applied to [l]. *)
Definition all_ok (fd : bool) (seen : nat -> list flag) (s : acc) : Prop :=
  length (prio s) = 32%nat /\
  forall l, (l < 32)%nat -> lead fd l = l -> group_ok fd l (seen l) s.

Lemma flag_check_bit fd m b : (b < 32)%nat -> flag_ok m ->
  bit (flag_check fd m) b = (lead fd b =? b)%nat && concerns b m.
Proof.
  intros Hb _. unfold flag_check, concerns. destruct fd; cbn [lead]; [|by rewrite Nat.eqb_refl].
  rewrite bit_land, bit_not32, andb_comm by done. f_equal.
  apply eqb_prop. apply (bits_spec (fun _ b => Bool.eqb (negb (bit ALL_AA_EXEC_TYPE b)) (lead true b =? b)%nat))
    with (i := 0%nat); [by vm_compute|lia|done].
Qed.

Lemma bits_loop_ok fd m seen n i check s s' :
  flag_ok m -> (forall l, Forall flag_ok (seen l)) -> (i + n = 32)%nat ->
  (forall b, (b < 32)%nat -> bit check b = (i <=? b)%nat && bit (flag_check fd m) b) ->
  all_ok fd seen s -> bits_loop fd m n i check s = Some s' ->
  all_ok fd (fun l => if (i <=? l)%nat && concerns l m then m :: seen l else seen l) s'.
Proof.
  intros Hm; revert seen i check s; induction n as [|n IH]; intros seen i check s Hs Hi Hbit [Hlen Hok] Hrun.
  - injection Hrun as <-. split; [done|]. intros l Hl Hll.
    destruct (Nat.leb_spec i l); [lia|]. by apply Hok.
  - cbn in Hrun. destruct (Z.eqb_spec check 0) as [->|Hne].
    + injection Hrun as <-. split; [done|]. intros l Hl Hll. specialize (Hbit l Hl).
      rewrite bit_zero, flag_check_bit, Hll, Nat.eqb_refl in Hbit by done. cbn in Hbit.
      rewrite <- Hbit. by apply Hok.
    + rewrite has_shiftl1 in Hrun. rewrite Hbit in Hrun by lia. rewrite Nat.leb_refl in Hrun.
      cbn [andb] in Hrun. rewrite flag_check_bit in Hrun by (done || lia).
      set (seen1 := fun l => if (l =? i)%nat && concerns l m then m :: seen l else seen l).
      assert (Hs1 : exists s1, all_ok fd seen1 s1 /\
        bits_loop fd m n (S i) (Z.land check (not32 (Z.shiftl 1 (Z.of_nat i)))) s1 = Some s').
      { destruct (Nat.eqb_spec (lead fd i) i) as [Hli|Hli]; cbn [andb] in Hrun.
        - destruct (concerns i m) eqn:Ec.
          + destruct (pri_update_perm fd i m s) as [s1|] eqn:Eu; [|done]. exists s1; split; [|done].
            split; [by rewrite (pri_update_length fd i m s s1) by (done || lia)|]. intros l Hl Hll.
            unfold seen1. destruct (Nat.eqb_spec l i) as [->|Hne']; cbn.
            * rewrite Ec. apply (group_step fd i m (seen i) s s1); auto.
            * apply (group_other fd i l m (seen l) s s1); auto; lia.
          + exists s; split; [|done]. split; [done|]. intros l Hl Hll. unfold seen1.
            destruct (Nat.eqb_spec l i) as [->|]; cbn; [rewrite Ec|]; by apply Hok.
        - exists s; split; [|done]. split; [done|]. intros l Hl Hll. unfold seen1.
          destruct (Nat.eqb_spec l i) as [->|]; cbn; [done|]. by apply Hok. }
      destruct Hs1 as (s1 & Hok1 & Hrun1). apply (IH seen1) in Hrun1; try done; try lia.
      * destruct Hrun1 as [Hl1 Ho1]. split; [done|]. intros l Hl Hll. specialize (Ho1 l Hl Hll).
        unfold seen1 in Ho1. destruct (Nat.leb_spec i l), (Nat.leb_spec (S i) l), (Nat.eqb_spec l i);
          cbn in *; try lia; try done.
      * intros l; unfold seen1. destruct ((l =? i)%nat && concerns l m); [by constructor|done].
      * intros b Hb. rewrite bit_land, Hbit, bit_not32, bit_shiftl1 by done.
        destruct (Nat.leb_spec i b), (Nat.leb_spec (S i) b), (Nat.eqb_spec b i); cbn;
          rewrite ?andb_true_r, ?andb_false_r; try done; lia.
Qed.

Lemma group_skip fd l m ms s : concerns l m = false -> group_ok fd l ms s -> group_ok fd l (m :: ms) s.
Proof.
  intros Hc [Gp Gb]. split; [cbn; by rewrite Hc|]. intros b Hb Hbl. rewrite !decided_skip by done. by apply Gb.
Qed.

Lemma flags_loop_ok fd ms seen s s' :
  Forall flag_ok ms -> Forall flag_ok seen -> all_ok fd (fun _ => seen) s ->
  flags_loop fd ms s = Some s' -> all_ok fd (fun _ => rev ms ++ seen) s'.
Proof.
  intros Hms; revert seen s; induction Hms as [|m ms Hm _ IH]; intros seen s Hs Hok Hrun; cbn [flags_loop] in Hrun.
  - injection Hrun as <-. done.
  - destruct (bits_loop fd m 32 0 (flag_check fd m) s) as [s1|] eqn:Eb; [|done].
    apply (bits_loop_ok fd m (fun _ => seen)) in Eb; try done.
    cbn [rev]. rewrite <- app_assoc. apply (IH (m :: seen) s1); auto.
    destruct Eb as [Hlen Hg]; split; [done|]. intros l Hl Hll. specialize (Hg l Hl Hll). cbn in Hg.
    destruct (concerns l m) eqn:Ec; [done|]. by apply group_skip.
Qed.

(** The order of the flags does not matter. *)
Lemma best_perm l ms ms' : ms ≡ₚ ms' -> best l ms = best l ms'.
Proof.
  induction 1 as [|m ms ms' _ IH|m m' ms|? ? ? _ IH1 _ IH2]; cbn; [done| | |by rewrite IH1];
    unfold best in *; [by rewrite IH|]. destruct (concerns l m), (concerns l m'); lia.
Qed.
Lemma decided_perm l Q ms ms' : ms ≡ₚ ms' -> decided l Q ms = decided l Q ms'.
Proof.
  intros Hp. apply eq_true_iff_eq. rewrite !decided_true.
  split; intros (m & Hm & H); exists m; rewrite Hp in * || rewrite <- Hp in *;
    [rewrite <- (best_perm l ms ms') by done|rewrite (best_perm l ms ms') by done]; by rewrite ?Hp in *.
Qed.

(** *** The result *)

Definition granted (fd : bool) (ms : list flag) (b : nat) : bool := decided (lead fd b) (q_allow b) ms.

(** The exec mapping that an inherited exec permission of at least its place
    implies. *)
Definition implied (fd : bool) (ms : list flag) (b : nat) : bool :=
  fd && (((b =? 6) && granted fd ms 0 && granted fd ms 9 && (best 6 ms <=? best 0 ms)%Z) ||
         ((b =? 20) && granted fd ms 14 && granted fd ms 23 && (best 20 ms <=? best 14 ms)%Z))%nat.

Lemma acc_init_ok fd : all_ok fd (fun _ => []) acc_init.
Proof.
  split; [done|]. intros l Hl Hll. split.
  - cbn -[replicate]. by rewrite lookup_total_replicate_2.
  - intros b Hb Hbl. unfold pb_at; cbn. by rewrite !bit_zero.
Qed.

Lemma flags_loop_final fd ms s' :
  Forall flag_ok ms -> flags_loop fd ms acc_init = Some s' -> all_ok fd (fun _ => ms) s'.
Proof.
  intros Hms Hrun. apply (flags_loop_ok fd ms []) in Hrun; auto using acc_init_ok.
  destruct Hrun as [Hlen Hg]; split; [done|]. intros l Hl Hll. destruct (Hg l Hl Hll) as [Gp Gb].
  assert (Hperm : ms ≡ₚ rev ms ++ []) by (rewrite app_nil_r; apply Permutation_rev).
  split; [by rewrite (best_perm l _ _ Hperm)|]. intros b Hb Hbl.
  rewrite !(decided_perm l _ _ _ Hperm). by apply Gb.
Qed.

Lemma implied_mask fd ms s mask b :
  all_ok fd (fun _ => ms) s -> fd = true -> (b < 32)%nat ->
  (forall b, (b < 32)%nat -> bit mask b = granted fd ms b) ->
  bit (add_implied_ix_mmap (prio s) mask) b = granted fd ms b || implied fd ms b.
Proof.
  intros [_ Hok] -> Hb Hmask. unfold add_implied_ix_mmap, implied. cbn [andb].
  assert (Hp : forall l, (l < 32)%nat -> lead true l = l -> prio s !!! l = best l ms).
  { intros l Hl Hll. apply (Hok l Hl Hll). }
  unfold EXEC_MMAP_SHIFT, MAY_EXEC_SHIFT, EXEC_OTHER_MMAP_SHIFT, MAY_OTHER_EXEC_SHIFT.
  change AA_MAY_EXEC with (Z.shiftl 1 (Z.of_nat 0)).
  change AA_EXEC_INHERIT with (Z.shiftl 1 (Z.of_nat 9)).
  change AA_OTHER_EXEC with (Z.shiftl 1 (Z.of_nat 14)).
  change AA_OTHER_EXEC_INHERIT with (Z.shiftl 1 (Z.of_nat 23)).
  change AA_USER_EXEC_MMAP with (Z.shiftl 1 (Z.of_nat 6)).
  change AA_OTHER_EXEC_MMAP with (Z.shiftl 1 (Z.of_nat 20)).
  rewrite !has_shiftl1, !(Hmask 0%nat), !(Hmask 9%nat), !Hp by (done || lia).
  set (c1 := granted true ms 0 && _ && _).
  assert (Hsplit : exists mask1 prio1, (if c1 then (Z.lor mask (Z.shiftl 1 (Z.of_nat 6)),
      <[6%nat := best 0 ms]> (prio s)) else (mask, prio s)) = (mask1, prio1) /\
    (forall b, (b < 32)%nat -> bit mask1 b = granted true ms b || ((b =? 6)%nat && c1)) /\
    prio1 !!! 20%nat = best 20 ms /\ prio1 !!! 14%nat = best 14 ms).
  { destruct c1; eexists _, _; (split; [done|]); split_and!; try (by rewrite Hp by (done || lia));
      try (rewrite list_lookup_total_insert_ne by lia; by rewrite Hp by (done || lia)).
    - intros k Hk. by rewrite bit_lor, bit_shiftl1, Hmask, andb_true_r.
    - intros k Hk. by rewrite Hmask, andb_false_r, orb_false_r. }
  destruct Hsplit as (mask1 & prio1 & -> & Hm1 & -> & ->).
  rewrite !has_shiftl1, !Hm1 by lia. cbn [Nat.eqb andb]. rewrite !orb_false_r.
  set (c2 := granted true ms 14 && _ && _).
  transitivity (granted true ms b || ((b =? 6)%nat && c1) || ((b =? 20)%nat && c2)).
  - destruct c2; [rewrite bit_lor, bit_shiftl1, Hm1, andb_true_r by done; done|].
    by rewrite Hm1, andb_false_r, orb_false_r by done.
  - unfold c1, c2. rewrite <- !andb_assoc, orb_assoc. done.
Qed.

Lemma flags_perms_bits fd ms p b :
  Forall flag_ok ms -> flags_perms fd ms = Some p -> (b < 32)%nat ->
  let l := lead fd b in
  bit (allow p) b = granted fd ms b || implied fd ms b /\
  bit (deny p) b = decided l (q_deny b) ms /\ bit (prompt p) b = decided l (q_prompt b) ms /\
  bit (quiet p) b = decided l (q_quiet b) ms /\ (b = l -> bit (audit p) b = decided l (q_audit b) ms).
Proof.
  intros Hms Hf Hb. cbv zeta. unfold flags_perms in Hf.
  destruct (flags_loop fd ms acc_init) as [s|] eqn:El; [|done].
  apply flags_loop_final in El; [|done]. destruct s as [pr q].
  assert (Hl : forall b, (b < 32)%nat -> (lead fd b < 32)%nat /\ lead fd (lead fd b) = lead fd b).
  { intros k Hk. assert (G : ((lead fd k <? 32) && (lead fd (lead fd k) =? lead fd k))%nat = true).
    { apply (bits_spec (fun _ k => (lead fd k <? 32) && (lead fd (lead fd k) =? lead fd k))%nat)
        with (i := 0%nat); [by destruct fd; vm_compute|lia|done]. }
    apply andb_prop in G as [G1 G2]. apply Nat.ltb_lt in G1; apply Nat.eqb_eq in G2; done. }
  assert (Hg : forall b, (b < 32)%nat -> bit (allow q) b = granted fd ms b).
  { intros k Hk. destruct (Hl k Hk) as [H1 H2]. destruct El as [_ Hok]. destruct (Hok _ H1 H2) as [_ G].
    destruct (G k Hk eq_refl) as (Ga & _). done. }
  destruct (Hl b Hb) as [H1 H2]. pose proof El as [_ Hok]. destruct (Hok _ H1 H2) as [_ G].
  destruct (G b Hb eq_refl) as (Ga & Gd & Gp & Gq & Gau). cbn in Ga, Gd, Gp, Gq, Gau.
  assert (Himp : has (allow q) AA_EXEC_BITS = false -> implied fd ms b = false).
  { intros Hh. assert (Hz : forall l, (l = 0 \/ l = 14)%nat -> granted fd ms l = false).
    { intros l Hl'. apply not_true_is_false; intros Hgr. rewrite <- Hg in Hgr by lia.
      rewrite (has_mono (allow q) AA_EXEC_BITS l) in Hh; [done|done|].
      by destruct Hl' as [-> | ->]; vm_compute. }
    unfold implied. rewrite (Hz 0%nat), (Hz 14%nat) by lia. by rewrite !andb_false_r; cbn; rewrite ?andb_false_r. }
  destruct fd; cbn [andb] in Hf; [destruct (has (allow q) AA_EXEC_BITS) eqn:Eh|];
    injection Hf as <-; cbn [allow deny prompt audit quiet]; split_and!; try done.
  - apply (implied_mask true ms (Acc_ pr q)); done.
  - by rewrite Himp, orb_false_r, Hg.
  - unfold implied; cbn [andb]. by rewrite orb_false_r, Hg.
Qed.

(** *** Conflicting exec modifiers *)

(** Two rules of the same place that allow the same exec permission agree on its
    type. *)
Definition same_type (fd : bool) (l : nat) (m m' : flag) : Prop :=
  forall b, (b < 32)%nat -> lead fd b = l -> bit (f_perms m) b = bit (f_perms m') b.
Definition x_agree (fd : bool) (ms : list flag) : Prop :=
  forall l m m', (l < 32)%nat -> m ∈ ms -> m' ∈ ms -> is_allow m = true -> is_allow m' = true ->
  concerns l m = true -> concerns l m' = true -> scaled m l = scaled m' l -> same_type fd l m m'.

Lemma land_type_eq x y mask :
  (forall b, (b < 32)%nat -> bit mask b = true -> bit x b = bit y b) -> 0 <= mask < 2 ^ 32 ->
  Z.land x mask = Z.land y mask.
Proof.
  intros H Hm. apply Z.bits_inj'; intros n Hn. rewrite !Z.land_spec.
  destruct (Z.testbit mask n) eqn:Em; [|by rewrite !andb_false_r].
  pose proof (mask_bit_low mask n Hm Em). specialize (H (Z.to_nat n)); unfold bit in H.
  rewrite Z2Nat.id in H by lia. rewrite H; [done|lia|done].
Qed.

Lemma x_conflict_false fd l m p :
  (l < 32)%nat -> lead fd l = l ->
  (bit (allow p) l = true ->
   forall b, (b < 32)%nat -> lead fd b = l -> bit (allow p) b = bit (f_perms m) b) ->
  x_conflict fd l m p = false.
Proof.
  intros Hl Hll H. unfold x_conflict.
  pose proof (fun b Hb => amask_bit fd l b Hl Hb Hll) as Ham.
  pose proof (fun b Hb => xmask_bit fd l b Hl Hb Hll) as Hxm.
  destruct (masks_of fd l) as [amask xmask] eqn:Em; cbn [fst snd] in *.
  destruct fd; [|done]. cbn [andb]. destruct (xmask =? 0) eqn:Ex; [done|].
  assert (Hcase : l = 0%nat \/ l = 14%nat).
  { assert (G : ((l =? 0) || (l =? 14))%nat = true).
    { pose proof (bits_spec (fun _ l => ((masks_of true l).2 =? 0)%Z || ((l =? 0) || (l =? 14)))%nat) as G.
      specialize (G ltac:(by vm_compute) 0%nat l ltac:(lia) Hl). cbv beta in G. rewrite Em in G; cbn [snd] in G.
      by rewrite Ex in G. }
    apply orb_prop in G as [G|G]; apply Nat.eqb_eq in G; auto. }
  rewrite (andb_comm (negb false)), andb_true_r, andb_false_iff, negb_false_iff. right.
  unfold is_merged_x_consistent.
  change AA_USER_EXEC with (Z.shiftl 1 (Z.of_nat 0)). change AA_OTHER_EXEC with (Z.shiftl 1 (Z.of_nat 14)).
  rewrite !has_shiftl1, !bit_land, !Ham by lia.
  destruct Hcase as [-> | ->]; cbn [lead Nat.leb andb MAY_EXEC_SHIFT MAY_OTHER_EXEC_SHIFT Nat.eqb];
    rewrite ?andb_false_r, ?andb_true_r; cbn [andb].
  - destruct (bit (allow p) 0) eqn:Ea; [|done]. cbn [andb]. destruct (bit (f_perms m) 0); [|done].
    cbn [andb]. rewrite (land_type_eq (allow p) (Z.land (f_perms m) amask)), Z.eqb_refl; [done| |done].
    intros b Hb Ht. rewrite bit_land, Ham by done.
    assert (lead true b = 0%nat) as Hlb.
    { pose proof (bits_spec (fun _ b => negb (bit AA_USER_EXEC_TYPE b) || (lead true b =? 0))%nat
        ltac:(by vm_compute) 0%nat b ltac:(lia) Hb) as G. cbv beta in G. rewrite Ht in G. by apply Nat.eqb_eq. }
    rewrite Hlb, andb_true_r. by apply H.
  - destruct (bit (allow p) 14) eqn:Ea; [|done]. cbn [andb]. destruct (bit (f_perms m) 14); [|done].
    cbn [andb]. rewrite (land_type_eq (allow p) (Z.land (f_perms m) amask)), Z.eqb_refl; [done| |done].
    intros b Hb Ht. rewrite bit_land, Ham by done.
    assert (lead true b = 14%nat) as Hlb.
    { pose proof (bits_spec (fun _ b => negb (bit AA_OTHER_EXEC_TYPE b) || (lead true b =? 14))%nat
        ltac:(by vm_compute) 0%nat b ltac:(lia) Hb) as G. cbv beta in G. rewrite Ht in G. by apply Nat.eqb_eq. }
    rewrite Hlb, andb_true_r. by apply H.
Qed.

(** No conflict where the rules seen so far agree with this one. *)
Lemma agree_no_conflict fd l m ms s :
  (l < 32)%nat -> lead fd l = l -> flag_ok m -> Forall flag_ok ms -> concerns l m = true ->
  group_ok fd l ms s -> prio s !!! l <= scaled m l -> f_type m <> DenyMatchFlag ->
  (forall m', m' ∈ ms -> is_allow m = true -> is_allow m' = true -> concerns l m' = true ->
    scaled m l = scaled m' l -> same_type fd l m m') ->
  x_conflict fd l m (perms (raised fd l m s)) = false.
Proof.
  intros Hl Hll Hm Hms Hc [Gp Gb] Hle Hnd Hag. apply x_conflict_false; [done..|].
  unfold raised. destruct (Z.ltb_spec (prio s !!! l) (scaled m l)) as [Hlt|Hge]; cbn [perms].
  - intros Ha. exfalso. change (ba (pb_at (clear_bits (masks_of fd l).1 (perms s)) l) = true) in Ha.
    by rewrite pb_clear, Hll, Nat.eqb_refl in Ha.
  - intros Ha. destruct (Gb l Hl Hll) as (Gl & _). change (ba (pb_at (perms s) l) = true) in Ha.
    rewrite Gl in Ha. apply decided_true in Ha as (m0 & H1 & H2 & H3 & H4).
    assert (Hsame : forall m', m' ∈ ms -> concerns l m' = true -> scaled m' l = best l ms ->
              is_deny m' = is_deny m /\ is_prompt m' = is_prompt m).
    { intros m' _ _ E'. destruct (scaled_sort m' m l) as (? & ? & _); [lia|done]. }
    assert (Ham : is_allow m = true).
    { destruct (Hsame m0 H1 H2 H3) as [E1 E2]. unfold q_allow, is_allow in H4. rewrite E1, E2 in H4.
      assert (Hd : is_deny m = false) by (unfold is_deny; by destruct (f_type m)). rewrite Hd in H4; cbn in H4.
      unfold is_allow. rewrite Hd; cbn. by apply andb_prop in H4 as [_ H4]; rewrite orb_false_r in H4. }
    assert (Hall : forall m', m' ∈ ms -> concerns l m' = true -> scaled m' l = best l ms ->
              is_allow m' = true /\ same_type fd l m m').
    { intros m' I1 I2 I3. destruct (Hsame m' I1 I2 I3) as [E1 E2].
      assert (is_allow m' = true) by (unfold is_allow in *; by rewrite E1, E2).
      split; [done|]. apply Hag; try done; lia. }
    intros b Hb Hbl. destruct (Gb b Hb Hbl) as (Gba & _). change (bit (allow (perms s)) b) with (ba (pb_at (perms s) b)).
    rewrite Gba. apply eq_true_iff_eq. rewrite decided_true. split.
    + intros (m' & I1 & I2 & I3 & I4). destruct (Hall m' I1 I2 I3) as [_ Hst].
      unfold q_allow in I4. apply andb_prop in I4 as [I4 _]. by rewrite (Hst b Hb Hbl).
    + intros Hbm. exists m0; split_and!; try done. destruct (Hall m0 H1 H2 H3) as [Ha0 Hst].
      unfold q_allow. rewrite <- (Hst b Hb Hbl), Hbm, Ha0. done.
Qed.

Lemma pri_update_defined fd i m s :
  (f_type m = DenyMatchFlag \/ prio s !!! i > scaled m i \/
   x_conflict fd i m (perms (raised fd i m s)) = false) ->
  is_Some (pri_update_perm fd i m s).
Proof.
  intros H. unfold pri_update_perm. destruct (_ >? _) eqn:Eg; [by eexists|].
  unfold x_conflict, raised in H. destruct (masks_of fd i) as [amask xmask]. cbn [fst] in *.
  destruct (f_type m); try by eexists.
  all: destruct H as [H|[H|H]]; [done|lia|]; destruct (_ <? _); cbn [perms prio] in *;
    rewrite H; by eexists.
Qed.

(** What a defined step leaves: the loop over the bits of one flag goes on. *)
Lemma bits_loop_defined fd m ms n i check s :
  flag_ok m -> Forall flag_ok ms -> (i + n = 32)%nat ->
  (forall b, (b < 32)%nat -> bit check b = (i <=? b)%nat && bit (flag_check fd m) b) ->
  all_ok fd (fun l => if (i <=? l)%nat then ms else if concerns l m then m :: ms else ms) s ->
  (forall l m', m' ∈ ms -> (l < 32)%nat -> is_allow m = true -> is_allow m' = true -> concerns l m = true ->
    concerns l m' = true -> scaled m l = scaled m' l -> same_type fd l m m') ->
  is_Some (bits_loop fd m n i check s).
Proof.
  intros Hm Hms; revert i check s; induction n as [|n IH]; intros i check s Hi Hbit [Hlen Hok] Hag; [by eexists|].
  cbn. destruct (Z.eqb_spec check 0); [by eexists|].
  rewrite has_shiftl1, Hbit by lia. rewrite Nat.leb_refl; cbn [andb]. rewrite flag_check_bit by (done || lia).
  assert (Hnext : forall b, (b < 32)%nat ->
    bit (Z.land check (not32 (Z.shiftl 1 (Z.of_nat i)))) b = (S i <=? b)%nat && bit (flag_check fd m) b).
  { intros b Hb. rewrite bit_land, Hbit, bit_not32, bit_shiftl1 by done.
    destruct (Nat.leb_spec i b), (Nat.leb_spec (S i) b), (Nat.eqb_spec b i); cbn;
      rewrite ?andb_true_r, ?andb_false_r; try done; lia. }
  destruct (Nat.eqb_spec (lead fd i) i) as [Hli|Hli]; cbn [andb]; [destruct (concerns i m) eqn:Ec|].
  - assert (Hgi : group_ok fd i ms s).
    { specialize (Hok i ltac:(lia) Hli). by rewrite Nat.leb_refl in Hok. }
    destruct (pri_update_perm fd i m s) as [s1|] eqn:Eu.
    + apply IH; [lia|done| |done].
      split; [by rewrite (pri_update_length fd i m s s1) by (done || lia)|]. intros l Hl Hll.
      destruct (decide (l = i)) as [->|Hne].
      * destruct (Nat.leb_spec (S i) i); [lia|]. rewrite Ec. apply (group_step fd i m ms s s1); auto.
      * specialize (Hok l Hl Hll). apply (group_other fd i l m _ s s1) in Hok; [|lia|done..].
        destruct (Nat.leb_spec i l), (Nat.leb_spec (S i) l); try done; lia.
    + exfalso. destruct (pri_update_defined fd i m s) as [s1 E]; [|congruence].
      destruct (decide (f_type m = DenyMatchFlag)); [by left|right].
      destruct (decide (prio s !!! i > scaled m i)); [by left|right].
      apply (agree_no_conflict fd i m ms s); try done; try lia. intros; apply Hag; try done; lia.
  - apply IH; [lia|done| |done]. split; [done|]. intros l Hl Hll. specialize (Hok l Hl Hll).
    destruct (Nat.leb_spec i l), (Nat.leb_spec (S i) l); try done; try lia.
    assert (l = i) as -> by lia. by rewrite Ec.
  - apply IH; [lia|done| |done]. split; [done|]. intros l Hl Hll. specialize (Hok l Hl Hll).
    destruct (Nat.leb_spec i l), (Nat.leb_spec (S i) l); try done; try lia.
    assert (l = i) as -> by lia. done.
Qed.

Lemma flags_loop_defined fd ms seen s :
  Forall flag_ok ms -> Forall flag_ok seen -> all_ok fd (fun _ => seen) s -> x_agree fd (ms ++ seen) ->
  is_Some (flags_loop fd ms s).
Proof.
  intros Hms; revert seen s; induction Hms as [|m ms Hm Hms IH]; intros seen s Hs Hok Hag; [by eexists|].
  cbn [flags_loop].
  destruct (bits_loop_defined fd m seen 32 0 (flag_check fd m) s) as [s1 E1]; try done.
  { intros l m' Hin Hl Ha Ha' Hc Hc' He. apply (Hag l m m'); try done; apply elem_of_app; [left; by constructor|by right]. }
  rewrite E1. apply (IH (m :: seen)); auto.
  - apply (bits_loop_ok fd m (fun _ => seen)) in E1; try done.
    destruct E1 as [Hlen Hg]; split; [done|]. intros l Hl Hll. specialize (Hg l Hl Hll). cbn in Hg.
    destruct (concerns l m) eqn:Ec; [done|]. by apply group_skip.
  - intros l m1 m2 Hl. rewrite <- !Permutation_middle. by apply Hag.
Qed.

Lemma flags_perms_defined fd ms : Forall flag_ok ms -> x_agree fd ms -> is_Some (flags_perms fd ms).
Proof.
  intros Hms Hag. destruct (flags_loop_defined fd ms [] acc_init) as [s E]; auto using acc_init_ok.
  - by rewrite app_nil_r.
  - unfold flags_perms. rewrite E. destruct s; by eexists.
Qed.

(** Outside of the file automaton nothing conflicts. *)
Lemma x_agree_policydb ms : Forall flag_ok ms -> x_agree false ms.
Proof.
  intros Hms l m m' Hl Hm Hm' _ _ Hc Hc' _ b Hb Hbl. cbn in Hbl; subst b.
  rewrite Forall_forall in Hms.
  rewrite <- (concerns_perms l m), <- (concerns_perms l m') by auto. congruence.
Qed.

Lemma x_agree_perm fd ms ms' : ms ≡ₚ ms' -> x_agree fd ms -> x_agree fd ms'.
Proof. intros Hp Hag l m m' Hl. rewrite <- Hp. by apply Hag. Qed.




(** Prompt rules that disagree on the type of an exec permission are never
    refused, their types are merged: the test looks at what is allowed, which
    has no bit of a permission that prompt rules decide. *)
Theorem prompt_x_never_conflicts ms :
  Forall flag_ok ms -> Forall (fun m => f_type m = PromptMatchFlag) ms ->
  exists p, flags_perms true ms = Some p /\
  forall b, (b < 32)%nat -> bit (prompt p) b = decided (lead true b) (q_prompt b) ms /\ bit (allow p) b = false.
Proof.
  intros Hms Hpr.
  assert (Hna : forall m, m ∈ ms -> is_allow m = false /\ is_deny m = false).
  { intros m Hm. rewrite Forall_forall in Hpr. specialize (Hpr m Hm).
    unfold is_allow, is_deny, is_prompt. by rewrite Hpr. }
  destruct (flags_perms_defined true ms) as [p E]; [done| |].
  { intros l m m' _ Hm _ Ha. destruct (Hna m Hm); congruence. }
  exists p; split; [done|]. intros b Hb.
  destruct (flags_perms_bits true ms p b Hms E Hb) as (-> & _ & -> & _); split; [done|].
  assert (Hg : forall k, granted true ms k = false).
  { intros k. apply decided_false; intros m Hm _ _. destruct (Hna m Hm) as [H1 H2].
    unfold q_allow. by rewrite H1, H2, andb_false_r. }
  unfold implied. rewrite !Hg. by rewrite !andb_false_r.
Qed.

Lemma prompt_x_never_conflicts_witness :
  exists p, flags_perms true [Flag PromptMatchFlag 0 513 0; Flag PromptMatchFlag 0 2049 0] = Some p /\
  forall b, (b < 32)%nat -> bit (prompt p) b =
    decided (lead true b) (q_prompt b) [Flag PromptMatchFlag 0 513 0; Flag PromptMatchFlag 0 2049 0] /\
    bit (allow p) b = false.
Proof.
  apply prompt_x_never_conflicts.
  - apply Forall_cons_2; [|apply Forall_cons_2; [|apply Forall_nil_2]]; vm_compute; intuition discriminate.
  - apply Forall_cons_2; [|apply Forall_cons_2; [|apply Forall_nil_2]]; reflexivity.
Defined.

(** C35: applying and clearing the denied permissions of a state takes away only
    an implied exec mapping that a rule of lower priority denies; whatever the
    rules grant stays granted. *)
Theorem clear_deny_keeps_granted fd ms p b :
  Forall flag_ok ms -> flags_perms fd ms = Some p -> (b < 32)%nat ->
  deny (apply_and_clear_deny p).1 = 0 /\
  bit (allow (apply_and_clear_deny p).1) b =
    granted fd ms b || (implied fd ms b && negb (bit (deny p) b)).
Proof.
  intros Hms E Hb. pose proof (flags_perms_bits fd ms p b Hms E Hb) as (Ha & Hd & _).
  assert (Hex : bit (deny p) b = true -> granted fd ms b = (b =? 28)%nat).
  { rewrite Hd, decided_true. intros (m & H1 & H2 & H3 & H4). unfold q_deny in H4.
    apply andb_prop in H4 as [H4 H5]. unfold granted. apply eq_true_iff_eq.
    rewrite decided_true, Nat.eqb_eq. split.
    - intros (m' & I1 & I2 & I3 & I4). unfold q_allow in I4. apply andb_prop in I4 as [_ I4].
      destruct (scaled_sort m' m (lead fd b)) as (Es & _); [lia|].
      unfold is_allow in I4. rewrite Es, H5 in I4; cbn in I4. by apply Nat.eqb_eq.
    - intros ->. exists m; split_and!; try done. unfold q_allow. by rewrite H4, H5, orb_true_r. }
  unfold apply_and_clear_deny. destruct (Z.eqb_spec (deny p) 0) as [E0|E0]; cbn [negb fst allow deny].
  - split; [done|]. by rewrite Ha, E0, bit_zero, andb_true_r.
  - split; [done|]. rewrite bit_lor, !bit_land, bit_not32, cont_bit, Ha by done.
    destruct (bit (deny p) b) eqn:Eb; cbn.
    + rewrite Hex by done. rewrite !andb_false_r, orb_false_r. done.
    + by rewrite !andb_true_r, orb_false_r.
Qed.

Lemma clear_deny_keeps_granted_witness :
  let ms := [Flag DenyMatchFlag 0 64 0; Flag MatchFlag 10 513 0] in
  flags_perms true ms = Some (Perms 577 64 0 0 0) /\
  bit (allow (apply_and_clear_deny (Perms 577 64 0 0 0)).1) 6 =
    granted true ms 6 || (implied true ms 6 && negb (bit 64 6)).
Proof.
  split; [by vm_compute|]. apply clear_deny_keeps_granted.
  - apply Forall_cons_2; [|apply Forall_cons_2; [|apply Forall_nil_2]]; vm_compute; intuition discriminate.
  - by vm_compute.
  - lia.
Defined.

(** ** The order of permissions *)

Lemma perms_eqb_spec p q : perms_eqb p q = true <-> p = q.
Proof.
  unfold perms_eqb. destruct p as [a d r u t], q as [a' d' r' u' t']; cbn.
  destruct (Z.eqb_spec a a'), (Z.eqb_spec d d'), (Z.eqb_spec r r'), (Z.eqb_spec u u'),
    (Z.eqb_spec t t'); cbn; split; congruence.
Qed.
Lemma perms_lt_spec p q : perms_lt p q = true <->
  allow p < allow q \/ (allow p = allow q /\
  (deny p < deny q \/ (deny p = deny q /\
  (prompt p < prompt q \/ (prompt p = prompt q /\
  (audit p < audit q \/ (audit p = audit q /\ quiet p < quiet q))))))).
Proof.
  unfold perms_lt.
  destruct (Z.eqb_spec (allow p) (allow q)), (Z.eqb_spec (deny p) (deny q)),
    (Z.eqb_spec (prompt p) (prompt q)), (Z.eqb_spec (audit p) (audit q)); cbn; lia.
Qed.

(** Permissions that are not ordered either way are equal, so the cache keeps one
    of each. *)
Lemma perms_lt_total p q : perms_lt p q = false -> perms_lt q p = false -> p = q.
Proof.
  intros H1 H2. apply not_true_iff_false in H1, H2. rewrite perms_lt_spec in H1, H2.
  destruct p, q; cbn in *; f_equal; lia.
Qed.
Lemma perms_lt_trans p q r : perms_lt p q = true -> perms_lt q r = true -> perms_lt p r = true.
Proof. rewrite !perms_lt_spec; lia. Qed.
Lemma perms_lt_irrefl p : perms_lt p p = false.
Proof. apply not_true_iff_false; rewrite perms_lt_spec; lia. Qed.

(** ** The permission table *)

Definition AA_MAY_CREATE : Z := 0x0010.
Definition AA_MAY_DELETE : Z := 0x0020.
Definition AA_MAY_OPEN : Z := 0x0040.
Definition AA_MAY_SETATTR : Z := 0x0100.
Definition AA_MAY_GETATTR : Z := 0x0200.
Definition AA_MAY_CHMOD : Z := 0x1000.
Definition AA_MAY_CHOWN : Z := 0x2000.
Definition AA_MAY_LOCK : Z := 0x8000.
Definition AA_LINK_SUBSET : Z := AA_MAY_LOCK.
Definition AA_EXEC_MMAP : Z := 0x00010000.
Definition AA_MAY_LINK : Z := 0x00040000.
Definition AA_MAY_ONEXEC : Z := 0x20000000.
Definition AA_MAY_CHANGE_PROFILE : Z := 0x40000000.
Definition AA_X_NAME : Z := 0x04000000.
Definition AA_X_TABLE : Z := 0x08000000.
Definition AA_X_UNSAFE : Z := 0x10000000.
Definition AA_X_CHILD : Z := 0x20000000.
Definition AA_X_INHERIT : Z := 0x40000000.
Definition AA_X_UNCONFINED : Z := 0x80000000.

Definition dfa_map_xindex (mask : Z) : Z :=
  let old_index := Z.land (Z.shiftr mask 10) 0xf in
  let index := 0 in
  let index := if has mask 0x100 then Z.lor index AA_X_UNSAFE else index in
  let index := if has mask 0x200 then Z.lor index AA_X_INHERIT else index in
  let index := if has mask 0x80 then Z.lor index AA_X_UNCONFINED else index in
  if old_index =? 1 then Z.lor index AA_X_UNCONFINED
  else if old_index =? 2 then Z.lor index AA_X_NAME
  else if old_index =? 3 then Z.lor index (Z.lor AA_X_NAME AA_X_CHILD)
  else if negb (old_index =? 0) then Z.lor (Z.lor index AA_X_TABLE) (old_index - 4)
  else index.

Definition dfa_user_allow (accept1 : Z) : Z :=
  Z.lor (Z.land accept1 0x7f) (Z.land accept1 0x80000000).
Definition dfa_user_audit (accept2 : Z) : Z := Z.land accept2 0x7f.
Definition dfa_user_quiet (accept2 : Z) : Z := Z.land (Z.shiftr accept2 7) 0x7f.
Definition dfa_user_xindex (accept1 : Z) : Z := dfa_map_xindex (Z.land accept1 0x3fff).
Definition dfa_other_allow (accept1 : Z) : Z :=
  Z.lor (Z.land (Z.shiftr accept1 14) 0x7f) (Z.land accept1 0x80000000).
Definition dfa_other_audit (accept2 : Z) : Z := Z.land (Z.shiftr accept2 14) 0x7f.
Definition dfa_other_quiet (accept2 : Z) : Z := Z.land (Z.shiftr (Z.shiftr accept2 7) 14) 0x7f.
Definition dfa_other_xindex (accept1 : Z) : Z :=
  dfa_map_xindex (Z.land (Z.shiftr accept1 14) 0x3fff).

Definition map_old_perms (old : Z) : Z :=
  let perm := Z.land old 0xf in
  let perm := if has old AA_MAY_READ then ors [perm; AA_MAY_GETATTR; AA_MAY_OPEN] else perm in
  let perm := if has old AA_MAY_WRITE then
                ors [perm; AA_MAY_SETATTR; AA_MAY_CREATE; AA_MAY_DELETE; AA_MAY_CHMOD; AA_MAY_CHOWN;
                     AA_MAY_OPEN] else perm in
  let perm := if has old 0x10 then Z.lor perm AA_MAY_LINK else perm in
  let perm := if has old 0x20 then ors [perm; AA_MAY_LOCK; AA_LINK_SUBSET] else perm in
  if has old 0x40 then Z.lor perm AA_EXEC_MMAP else perm.

(** The fields of [aa_perms] that are set; the others are zero. *)
Record aa_perms := AaPerms { p_allow : Z; p_prompt : Z; p_audit : Z; p_quiet : Z; p_xindex : Z }.
Definition aa_perms_zero : aa_perms := AaPerms 0 0 0 0 0.

Definition compute_fperms_allow (allow accept1 : Z) : Z :=
  let allow := Z.lor allow AA_MAY_GETATTR in
  let allow := if has accept1 0x80000000 then Z.lor allow AA_MAY_CHANGE_PROFILE else allow in
  if has accept1 0x40000000 then Z.lor allow AA_MAY_ONEXEC else allow.

Definition compute_fperms_user (accept1 accept2 accept3 : Z) : aa_perms :=
  let allow := compute_fperms_allow (map_old_perms (dfa_user_allow accept1)) accept1 in
  AaPerms allow (Z.land (map_old_perms (dfa_user_allow accept3)) (not32 (Z.lor allow 0)))
    (map_old_perms (dfa_user_audit accept2)) (map_old_perms (dfa_user_quiet accept2))
    (dfa_user_xindex accept1).
Definition compute_fperms_other (accept1 accept2 accept3 : Z) : aa_perms :=
  let allow := compute_fperms_allow (map_old_perms (dfa_other_allow accept1)) accept1 in
  AaPerms allow (Z.land (map_old_perms (dfa_other_allow accept3)) (not32 (Z.lor allow 0)))
    (map_old_perms (dfa_other_audit accept2)) (map_old_perms (dfa_other_quiet accept2))
    (dfa_other_xindex accept1).

Definition map_other (x : Z) : Z :=
  ors [Z.shiftl (Z.land x 0x3) 8; Z.shiftl (Z.land x 0x1c) 18; Z.shiftl (Z.land x 0x60) 19].

Definition compute_perms_entry (accept1 accept2 accept3 : Z) : aa_perms :=
  let allow := dfa_user_allow accept1 in
  let allow := if has accept1 AA_COMPAT_CONT_MATCH then Z.lor allow AA_CONT_MATCH else allow in
  AaPerms (ors [allow; map_other (dfa_other_allow accept1); AA_MAY_LOCK])
    (Z.lor (dfa_user_allow accept3) (map_other (dfa_other_allow accept3)))
    (Z.lor (dfa_user_audit accept2) (map_other (dfa_other_audit accept2)))
    (Z.lor (dfa_user_quiet accept2) (map_other (dfa_other_quiet accept2))) 0.

(** *** The two halves of a file permission *)

Lemma land_pow2_zero x k : 0 <= k -> 0 <= x < 2 ^ k -> Z.land x (2 ^ k) = 0.
Proof.
  intros Hk Hx. apply Z.bits_inj_0; intros n. rewrite Z.land_spec.
  destruct (decide (0 <= n)) as [Hn|Hn]; [|by rewrite Z.testbit_neg_r by lia].
  rewrite Z.pow2_bits_eqb by lia. destruct (Z.eqb_spec k n) as [<-|]; [|apply andb_false_r].
  rewrite andb_true_r. destruct (decide (x = 0)) as [->|]; [by rewrite Z.bits_0|].
  apply Z.bits_above_log2; [lia|]. apply Z.log2_lt_pow2; lia.
Qed.

(** The entry for other users is the entry for the owner of the same bits of
    the other half: the two rows of a file state are the same function of the
    two halves of its permissions. *)
Theorem fperms_halves a1 a2 a3 :
  0 <= a1 < 2 ^ 14 -> 0 <= a2 < 2 ^ 14 -> 0 <= a3 < 2 ^ 14 ->
  compute_fperms_other (Z.shiftl a1 14) (Z.shiftl a2 14) (Z.shiftl a3 14) = compute_fperms_user a1 a2 a3.
Proof.
  intros H1 H2 H3.
  assert (Hhi : forall a k, 0 <= a < 2 ^ 14 -> 30 <= k ->
            Z.land a (2 ^ k) = 0 /\ Z.land (Z.shiftl a 14) (2 ^ k) = 0).
  { intros a k Ha Hk. assert (2 ^ 30 <= 2 ^ k) by (by apply Z.pow_le_mono_r; lia).
    split; apply land_pow2_zero; try lia. rewrite Z.shiftl_mul_pow2 by lia. lia. }
  unfold compute_fperms_other, compute_fperms_user, dfa_other_allow, dfa_user_allow, dfa_other_audit,
    dfa_user_audit, dfa_other_quiet, dfa_user_quiet, dfa_other_xindex, dfa_user_xindex,
    compute_fperms_allow, has.
  change 0x80000000 with (2 ^ 31). change 0x40000000 with (2 ^ 30).
  destruct (Hhi a1 31 H1) as [-> ->]; [lia|]. destruct (Hhi a1 30 H1) as [-> ->]; [lia|].
  destruct (Hhi a3 31 H3) as [-> ->]; [lia|].
  rewrite !(Z.shiftr_shiftr _ 7 14), (Z.add_comm 7 14), <- (Z.shiftr_shiftr _ 14 7) by lia.
  by rewrite !Z.shiftr_shiftl_l, !Z.sub_diag, !Z.shiftl_0_r by lia.
Qed.

Lemma fperms_halves_witness :
  compute_fperms_other (Z.shiftl 0x3a7f 14) (Z.shiftl 0x85 14) (Z.shiftl 0x40 14) =
  compute_fperms_user 0x3a7f 0x85 0x40.
Proof. apply fperms_halves; lia. Defined.

(** The kernel never sees a permission both granted and prompted. *)
Lemma fperms_prompt_disjoint a1 a2 a3 b :
  (b < 32)%nat ->
  bit (p_prompt (compute_fperms_user a1 a2 a3)) b && bit (p_allow (compute_fperms_user a1 a2 a3)) b = false /\
  bit (p_prompt (compute_fperms_other a1 a2 a3)) b && bit (p_allow (compute_fperms_other a1 a2 a3)) b = false.
Proof.
  intros Hb. unfold compute_fperms_user, compute_fperms_other; cbn [p_prompt p_allow].
  rewrite !bit_land, !bit_not32, !Z.lor_0_r by done.
  split; rewrite <- andb_assoc, andb_negb_l; apply andb_false_r.
Qed.
