(* ===== verification/Dfa.v ===== *)
(** The construction of an automaton from an expression tree
    ([parser/libapparmor_re/hfa.cc] and [hfa.h]): states as sets of nodes, the
    work queue, the transitions, matching.  A pointer to a state is its label,
    which is unique. *)

From stdpp Require Import gmap sorting.
From S2P Require Import Prelude Perms Expr Accept.

(** ** States *)

(** [ProtoState]: the nodes of a state without the accept nodes, and the accept
    nodes if there are any. *)
Definition ProtoState : Type := NodeSet * option NodeSet.

Record State := MkState {
  flags : Z; idx : Z; s_perms : perms_t; trans : gmap Z nat; otherwise : nat; proto : ProtoState
}.
Definition DiffEncodeFlag : Z := 1.

Record DFA := MkDFA {
  heap : gmap nat State; states : list nat; nonmatching : nat; start : nat;
  node_map : gmap ProtoState nat; work_queue : list nat; uniq_perms : list perms_t;
  oob_range : Z; max_range : Z; ord_range : Z; filedfa : bool
}.

Definition set_heap (h : gmap nat State) (d : DFA) : DFA :=
  MkDFA h (states d) (nonmatching d) (start d) (node_map d) (work_queue d) (uniq_perms d)
        (oob_range d) (max_range d) (ord_range d) (filedfa d).
Definition set_queue (q : list nat) (d : DFA) : DFA :=
  MkDFA (heap d) (states d) (nonmatching d) (start d) (node_map d) q (uniq_perms d)
        (oob_range d) (max_range d) (ord_range d) (filedfa d).
Definition set_ends (n s : nat) (d : DFA) : DFA :=
  MkDFA (heap d) (states d) n s (node_map d) (work_queue d) (uniq_perms d)
        (oob_range d) (max_range d) (ord_range d) (filedfa d).
Definition set_oob (o : Z) (d : DFA) : DFA :=
  MkDFA (heap d) (states d) (nonmatching d) (start d) (node_map d) (work_queue d) (uniq_perms d)
        o (max_range d) (ord_range d) (filedfa d).
(** A state that is new: it is inserted, listed and queued. *)
Definition push_state (p : ProtoState) (l : nat) (s : State) (d : DFA) : DFA :=
  MkDFA (<[l := s]> (heap d)) (states d ++ [l]) (nonmatching d) (start d) (<[p := l]> (node_map d))
        (work_queue d ++ [l]) (uniq_perms d) (oob_range d) (max_range d) (ord_range d) (filedfa d).

(** [perms_t_Cache::insert]: permissions in ascending order, each once. *)
Fixpoint perms_insert (p : perms_t) (cache : list perms_t) : list perms_t :=
  match cache with
  | [] => [p]
  | q :: cache' =>
      if perms_lt p q then p :: cache
      else if perms_lt q p then q :: perms_insert p cache' else cache
  end.
Definition cache_perms (p : perms_t) (d : DFA) : DFA :=
  MkDFA (heap d) (states d) (nonmatching d) (start d) (node_map d) (work_queue d)
        (perms_insert p (uniq_perms d)) (oob_range d) (max_range d) (ord_range d) (filedfa d).

Definition nodes_of (p : ProtoState) : NodeSet := p.1 ∪ default ∅ p.2.

(** The entries of a map in ascending order, as the containers of the program
    are walked. *)
Definition key_le {A} (x y : Z * A) : Prop := x.1 <= y.1.
#[export] Instance key_le_dec {A} : RelDecision (@key_le A).
Proof. intros x y; apply Z.le_dec. Defined.
Definition sorted_items {A} (m : gmap Z A) : list (Z * A) := merge_sort key_le (map_to_list m).

Section construction.
(** The order of nodes in a set, which is the one of their addresses. *)
Context (order : NodeSet -> list ImportantNode).

Definition split_node_types (nodes : NodeSet) : option NodeSet * NodeSet :=
  let a := base.filter (fun n => is_accept n = true) nodes in
  (if decide (a = ∅) then None else Some a, base.filter (fun n => is_accept n = false) nodes).

(** [None] as the result is the exception for conflicting exec modifiers. *)
Definition add_new_state (nodes : NodeSet) (other : option nat) (d : DFA) : option (nat * DFA) :=
  let '(anodes, nnodes) := split_node_types nodes in
  let p : ProtoState := (nnodes, anodes) in
  let l := size (node_map d) in
  match perms_of (filedfa d) (from_option order [] anodes) with
  | None => None
  | Some perms =>
      let d := cache_perms perms d in
      let s := MkState 0 0 perms ∅ (default l other) p in
      match node_map d !! p with
      | Some l' => Some (l', d)
      | None => Some (l, push_state p l s d)
      end
  end.

Definition update_state (l : nat) (f : State -> State) (d : DFA) : DFA := set_heap (alter f l (heap d)) d.
Definition set_otherwise (o : nat) (s : State) : State :=
  MkState (flags s) (idx s) (s_perms s) (trans s) o (proto s).
Definition add_trans (c : Z) (t : nat) (s : State) : State :=
  MkState (flags s) (idx s) (s_perms s) (<[c := t]> (trans s)) (otherwise s) (proto s).

(** The loop of [update_state_transitions] over the explicit cases; [o] is the
    default target of the state. *)
Fixpoint cases_loop (l o : nat) (cs : list (Z * NodeSet)) (d : DFA) : option DFA :=
  match cs with
  | [] => Some d
  | (c, nodes) :: cs' =>
      match add_new_state nodes (Some (nonmatching d)) d with
      | None => None
      | Some (target, d) =>
          let d := if decide (target = o) then d
                   else
                     let d := update_state l (add_trans c target) d in
                     if (c <? 0) && (- c >? oob_range d) then set_oob (- c) d else d in
          cases_loop l o cs' d
      end
  end.

Definition update_state_transitions (fp : gmap ImportantNode NodeSet) (l : nat) (d : DFA) : option DFA :=
  match heap d !! l with
  | None => Some d
  | Some s =>
      let cs := fold_left (fun cs n => follow fp n cs) (order (proto s).1) no_cases in
      match (match Expr.otherwise cs with
             | Some nodes => add_new_state nodes (Some (nonmatching d)) d
             | None => Some (nonmatching d, d)
             end) with
      | None => None
      | Some (o, d) => cases_loop l o (sorted_items (cases cs)) (update_state l (set_otherwise o) d)
      end
  end.

(** One round of [process_work_queue]. *)
Definition queue_step (fp : gmap ImportantNode NodeSet) (d : DFA) : DFA + option DFA :=
  match work_queue d with
  | [] => inr (Some d)
  | from :: q =>
      match update_state_transitions fp from (set_queue q d) with
      | None => inr None
      | Some d => inl d
      end
  end.
Definition process_work_queue (fp : gmap ImportantNode NodeSet) (bound : positive) (d : DFA) : option DFA :=
  match ploop (queue_step fp) bound d with inr r => r | inl _ => None end.

(** There are no more states than sets of nodes. *)
Definition state_bound (n : nat) : positive := Pos.shiftl_nat 1 n + 2.

Definition empty_dfa (fdfa : bool) : DFA := MkDFA ∅ [] 0 0 ∅ [] [] 0 256 8 fdfa.

(** The constructor, up to clearing the nodes and the caches at the end. *)
Definition create_dfa (root : Node) (fdfa : bool) : option DFA :=
  let '(_, firstpos, _, st) := compute_pos root ∅ ∅ clear_pos in
  match add_new_state ∅ None (empty_dfa fdfa) with
  | None => None
  | Some (n, d) =>
      match add_new_state firstpos (Some n) d with
      | None => None
      | Some (s, d) =>
          let d := set_queue (work_queue d ++ [s]) (set_ends n s d) in
          match process_work_queue (followpos st) (state_bound (size (al (info root)))) d with
          | None => None
          | Some d =>
              Some (MkDFA (heap d) (states d) (nonmatching d) (start d) ∅ [] (uniq_perms d)
                (oob_range d) (max_range d + oob_range d)
                (if oob_range d =? 0 then ord_range d else 9) (filedfa d))
          end
      end
  end.
End construction.

(** ** Matching *)

(** [State::next]; the walk over relative states takes at most as many steps as
    there are states. *)
Fixpoint next_ (fuel : nat) (h : gmap nat State) (l : nat) (c : Z) : option nat :=
  match fuel with
  | O => None
  | S fuel =>
      match h !! l with
      | None => None
      | Some s =>
          match trans s !! c with
          | Some t => Some t
          | None => if Z.land (flags s) DiffEncodeFlag =? 0 then Some (otherwise s)
                    else next_ fuel h (otherwise s) c
          end
      end
  end.
Definition next (d : DFA) (l : nat) (c : Z) : option nat := next_ (S (size (heap d))) (heap d) l c.

Arguments next : simpl never.

(** Bytes are read as unsigned characters. *)
Fixpoint match_len (d : DFA) (state : nat) (str : list Z) : option nat :=
  match str with
  | [] => Some state
  | c :: str => match next d state c with Some s => match_len d s str | None => None end
  end.
Fixpoint match_until (d : DFA) (state : nat) (str : list Z) (term : Z) : option nat :=
  match str with
  | [] => Some state
  | c :: str =>
      if c =? term then Some state
      else match next d state c with Some s => match_until d s str term | None => None end
  end.
(** [str] is the string up to its terminator. *)
Definition dfa_match (d : DFA) (str : list Z) : option nat := match_until d (start d) str 0.

(** ** Sets of nodes as states *)

Lemma nodes_of_split nodes :
  let '(a, n) := split_node_types nodes in nodes_of (n, a) = nodes.
Proof.
  unfold split_node_types, nodes_of; cbn.
  apply set_eq; intros x. destruct (decide _) as [E|E]; cbn; rewrite elem_of_union, ?elem_of_filter.
  - destruct (is_accept x) eqn:Ea; [|set_solver]. split; [set_solver|]. intros Hx.
    assert (x ∈ base.filter (fun n => is_accept n = true) nodes) by (by apply elem_of_filter). set_solver.
  - destruct (is_accept x) eqn:Ea; set_solver.
Qed.
Definition proto_of (nodes : NodeSet) : ProtoState :=
  let '(a, n) := split_node_types nodes in (n, a).
#[local] Arguments proto_of : simpl never.
#[local] Arguments nodes_of : simpl never.
Lemma nodes_of_proto nodes : nodes_of (proto_of nodes) = nodes.
Proof. unfold proto_of. pose proof (nodes_of_split nodes) as H. by destruct (split_node_types nodes). Qed.

Lemma proto_of_nnodes nodes n : n ∈ (proto_of nodes).1 <-> is_accept n = false /\ n ∈ nodes.
Proof. unfold proto_of, split_node_types; cbn. by rewrite elem_of_filter. Qed.
Lemma split_anodes nodes n :
  n ∈ default ∅ (split_node_types nodes).1 <-> is_accept n = true /\ n ∈ nodes.
Proof.
  unfold split_node_types; cbn.
  rewrite <- (elem_of_filter (fun n => is_accept n = true) nodes n).
  by destruct (decide _) as [->|].
Qed.

Fixpoint subsets (xs : list ImportantNode) : list NodeSet :=
  match xs with
  | [] => [∅]
  | x :: xs => subsets xs ++ map (fun S => {[x]} ∪ S) (subsets xs)
  end.
Lemma length_subsets xs : length (subsets xs) = (2 ^ length xs)%nat.
Proof. induction xs as [|x xs IH]; cbn; [done|]. rewrite length_app, length_map, IH. lia. Qed.
Lemma elem_of_subsets xs (S : NodeSet) : S ⊆ list_to_set xs -> S ∈ subsets xs.
Proof.
  revert S; induction xs as [|x xs IH]; intros S HS; cbn in *.
  - assert (S = ∅) as -> by set_solver. by constructor.
  - rewrite elem_of_app, list_elem_of_fmap. destruct (decide (x ∈ S)) as [Hx|Hx].
    + right. exists (S ∖ {[x]}); split; [|apply IH; set_solver].
      apply set_eq; intros y. destruct (decide (y = x)); set_solver.
    + left. apply IH. set_solver.
Qed.
Lemma subsets_bound (A : NodeSet) (l : list NodeSet) :
  NoDup l -> Forall (.⊆ A) l -> (length l <= 2 ^ size A)%nat.
Proof.
  intros Hnd Hsub. change (size A) with (length (elements A)).
  rewrite <- length_subsets. apply submseteq_length, NoDup_submseteq; [done|].
  intros S HS. rewrite Forall_forall in Hsub. apply elem_of_subsets.
  rewrite list_to_set_elements_L. by apply Hsub.
Qed.

Lemma sorted_items_elem {A} (m : gmap Z A) c x : (c, x) ∈ sorted_items m <-> m !! c = Some x.
Proof.
  unfold sorted_items. rewrite merge_sort_Permutation. apply elem_of_map_to_list.
Qed.

(** ** The invariant of the construction *)

Section construction_proofs.
Context (order : NodeSet -> list ImportantNode) (order_perm : forall s, order s ≡ₚ elements s).
Context (fp : gmap ImportantNode NodeSet) (A : NodeSet) (fd : bool).
Context (fp_sub : forall p, fpos fp p ⊆ A).

(** The permissions of a set of nodes, and that some set has none. *)
Definition set_perms (nodes : NodeSet) : option perms_t :=
  perms_of fd (from_option order [] (split_node_types nodes).1).
Definition some_conflict : Prop := exists nodes, nodes ⊆ A /\ set_perms nodes = None.

Definition cases_of (p : ProtoState) : Cases :=
  fold_left (fun cs n => follow fp n cs) (order p.1) no_cases.

(** The state [t] is the one for [nodes]. *)
Definition tnode (d : DFA) (t : nat) (nodes : NodeSet) : Prop :=
  exists s, heap d !! t = Some s /\ nodes_of (proto s) = nodes.

(** The transitions of a state are those of its cases. *)
Definition trans_ok (d : DFA) (s : State) : Prop :=
  forall c t, trans s !! c = Some t -> exists nodes, cases (cases_of (proto s)) !! c = Some nodes /\ tnode d t nodes.
Definition complete (d : DFA) (s : State) : Prop :=
  tnode d (otherwise s) (default ∅ (Expr.otherwise (cases_of (proto s)))) /\
  forall c nodes, cases (cases_of (proto s)) !! c = Some nodes -> trans s !! c = None ->
    tnode d (otherwise s) nodes.

Record Inv (busy : nat -> Prop) (d : DFA) : Prop := {
  i_map : forall p l, node_map d !! p = Some l <-> exists s, heap d !! l = Some s /\ proto s = p;
  i_dom : forall l, is_Some (heap d !! l) <-> (l < size (node_map d))%nat;
  i_states : states d = seq 0 (size (node_map d));
  i_proto : forall l s, heap d !! l = Some s -> proto s = proto_of (nodes_of (proto s)) /\ nodes_of (proto s) ⊆ A;
  i_state : forall l s, heap d !! l = Some s -> flags s = 0 /\ set_perms (nodes_of (proto s)) = Some (s_perms s);
  i_queue : Forall (fun l => l < size (node_map d))%nat (work_queue d);
  i_trans : forall l s, heap d !! l = Some s -> trans_ok d s;
  i_done : forall l s, heap d !! l = Some s -> ~ busy l -> l ∉ work_queue d -> complete d s;
  i_filedfa : filedfa d = fd
}.

(** States are only added; the queue grows with them. *)
Record ext (d d' : DFA) : Prop := {
  e_heap : forall l s, heap d !! l = Some s -> exists s', heap d' !! l = Some s' /\ proto s' = proto s;
  e_count : (size (node_map d') + length (work_queue d) = size (node_map d) + length (work_queue d'))%nat;
  e_ends : nonmatching d' = nonmatching d /\ start d' = start d;
  e_queue : forall l, l ∈ work_queue d -> l ∈ work_queue d'
}.

Lemma ext_refl d : ext d d.
Proof. split; eauto. Qed.
Lemma ext_trans d d' d'' : ext d d' -> ext d' d'' -> ext d d''.
Proof.
  intros [H1 H2 [H3 H3'] H4] [G1 G2 [G3 G3'] G4]; split; [|lia|split; congruence|eauto].
  intros l s Hl. destruct (H1 l s Hl) as (s' & Hs' & E). destruct (G1 l s' Hs') as (s'' & Hs'' & E').
  exists s''; split; congruence.
Qed.
Lemma tnode_ext d d' t nodes : ext d d' -> tnode d t nodes -> tnode d' t nodes.
Proof.
  intros [H _ _ _] (s & Hs & E). destruct (H t s Hs) as (s' & Hs' & E'). exists s'; split; [done|]. by rewrite E'.
Qed.
Lemma trans_ok_ext d d' s : ext d d' -> trans_ok d s -> trans_ok d' s.
Proof. intros He H c t Hc. destruct (H c t Hc) as (n & Hn & Ht). eauto using tnode_ext. Qed.
Lemma complete_ext d d' s : ext d d' -> complete d s -> complete d' s.
Proof. intros He [H1 H2]; split; eauto using tnode_ext. Qed.

(** A set of nodes has one state. *)
Lemma proto_inj busy d l l' s s' :
  Inv busy d -> heap d !! l = Some s -> heap d !! l' = Some s' ->
  nodes_of (proto s) = nodes_of (proto s') -> l = l'.
Proof.
  intros HI Hl Hl' E. destruct (i_proto _ _ HI l s Hl) as [P1 _], (i_proto _ _ HI l' s' Hl') as [P2 _].
  assert (Ep : proto s = proto s') by (by rewrite P1, P2, E).
  assert (H1 : node_map d !! proto s = Some l) by (apply (i_map _ _ HI); eauto).
  assert (H2 : node_map d !! proto s = Some l') by (apply (i_map _ _ HI); eauto). congruence.
Qed.

Lemma node_map_bound busy d : Inv busy d -> (size (node_map d) <= 2 ^ size A)%nat.
Proof.
  intros HI. rewrite <- (length_map_to_list (node_map d)), <- (length_map (fun x => nodes_of x.1)).
  apply subsets_bound.
  - apply NoDup_fmap_2_strong; [|apply NoDup_map_to_list].
    intros [p l] [p' l'] H H' E. apply elem_of_map_to_list in H, H'. cbn in E.
    apply (i_map _ _ HI) in H as (s & Hs & Es), H' as (s' & Hs' & Es').
    assert (l = l') as -> by (eapply proto_inj; [done..|]; congruence). congruence.
  - apply Forall_map, Forall_forall. intros [p l] H. apply elem_of_map_to_list in H. cbn.
    apply (i_map _ _ HI) in H as (s & Hs & <-). apply (i_proto _ _ HI l s Hs).
Qed.

(** What the permissions in the cache have no part in. *)
Lemma Inv_cache busy d p : Inv busy d -> Inv busy (cache_perms p d).
Proof. intros []; by split. Qed.
Lemma ext_cache d p : ext d (cache_perms p d).
Proof. split; cbn; eauto. Qed.

Lemma push_state_inv busy d nodes perms other :
  Inv busy d -> nodes ⊆ A -> node_map d !! proto_of nodes = None -> set_perms nodes = Some perms ->
  let l := size (node_map d) in
  let s := MkState 0 0 perms ∅ (default l other) (proto_of nodes) in
  let d' := push_state (proto_of nodes) l s d in
  Inv busy d' /\ ext d d' /\ heap d ⊆ heap d' /\ tnode d' l nodes.
Proof.
  intros HI Hsub Hnew Hperms l s d'.
  assert (Hfresh : heap d !! l = None).
  { apply eq_None_not_Some. rewrite (i_dom _ _ HI). unfold l; lia. }
  assert (Hold : forall k t, heap d !! k = Some t -> k <> l) by (intros k t Hk ->; congruence).
  assert (Hsize : size (node_map d') = S (size (node_map d))) by (by apply map_size_insert_None).
  assert (He : ext d d').
  { split; [|cbn; rewrite length_app; cbn in *; lia|done|intros; cbn; apply elem_of_app; by left].
    intros k t Hk. exists t; split; [|done]. cbn. rewrite lookup_insert_ne by (intros <-; congruence). done. }
  assert (Hlook : forall k t, heap d' !! k = Some t -> (k = l /\ t = s) \/ heap d !! k = Some t).
  { intros k t Hk. cbn in Hk. apply lookup_insert_Some in Hk as [[<- <-]|[_ Hk]]; auto. }
  split_and!; [split|done|by apply insert_subseteq|].
  - intros p k. cbn. rewrite lookup_insert_Some, (i_map _ _ HI). split.
    + intros [[<- <-]|[Hp (t & Ht & E)]].
      * exists s; split; [by rewrite lookup_insert_eq|done].
      * exists t; split; [|done]. rewrite lookup_insert_ne; [done|]. intros <-; congruence.
    + intros (t & Ht & E). apply lookup_insert_Some in Ht as [[<- <-]|[Hne Ht]]; [by left|].
      right; split; [|eauto]. intros <-. assert (node_map d !! proto t = Some k) by (apply (i_map _ _ HI); eauto).
      congruence.
  - intros k. rewrite Hsize. cbn. destruct (decide (k = l)) as [->|Hne].
    + rewrite lookup_insert_eq. split; [unfold l; lia|by eexists].
    + rewrite lookup_insert_ne by done. rewrite (i_dom _ _ HI). unfold l in Hne; lia.
  - cbn [states d' push_state]. rewrite Hsize, seq_S, (i_states _ _ HI). done.
  - intros k t [[-> ->]|Hk]%Hlook; [|by apply (i_proto _ _ HI k)]. cbn. by rewrite nodes_of_proto.
  - intros k t [[-> ->]|Hk]%Hlook; [|by apply (i_state _ _ HI k)]. cbn. by rewrite nodes_of_proto.
  - cbn [work_queue d' push_state]. rewrite Hsize. apply Forall_app; split; [|by repeat constructor; unfold l; lia].
    eapply Forall_impl; [apply (i_queue _ _ HI)|]. cbn; lia.
  - intros k t [[-> ->]|Hk]%Hlook; [by intros c u; cbn; rewrite lookup_empty|].
    eapply trans_ok_ext; [done|by apply (i_trans _ _ HI k)].
  - intros k t [[-> ->]|Hk]%Hlook Hb Hq.
    + exfalso; apply Hq. cbn. apply elem_of_app; right; by constructor.
    + eapply complete_ext; [done|]. apply (i_done _ _ HI k); [done..|].
      intros Hin; apply Hq. cbn. apply elem_of_app; by left.
  - apply (i_filedfa _ _ HI).
  - exists s; split; [cbn; by rewrite lookup_insert_eq|]. cbn. apply nodes_of_proto.
Qed.

Lemma add_new_state_spec busy d nodes other :
  Inv busy d -> nodes ⊆ A ->
  match add_new_state order nodes other d with
  | None => set_perms nodes = None
  | Some (t, d') => Inv busy d' /\ ext d d' /\ heap d ⊆ heap d' /\ tnode d' t nodes
  end.
Proof.
  intros HI Hsub. unfold add_new_state.
  assert (Hp : proto_of nodes = let '(a, n) := split_node_types nodes in (n, a)) by done.
  assert (Hs : set_perms nodes = perms_of fd (from_option order [] (split_node_types nodes).1)) by done.
  destruct (split_node_types nodes) as [a n]. cbn [fst] in Hs. rewrite (i_filedfa _ _ HI), <- Hs.
  destruct (set_perms nodes) as [perms|] eqn:Ep; [|done]. rewrite <- Hp.
  apply (Inv_cache _ _ perms) in HI as HI'. change (node_map (cache_perms perms d)) with (node_map d).
  destruct (node_map d !! proto_of nodes) as [t|] eqn:El.
  - split_and!; [done|apply ext_cache|done|]. apply (i_map _ _ HI) in El as (s & Hs' & E).
    exists s; split; [done|]. by rewrite E, nodes_of_proto.
  - destruct (push_state_inv busy (cache_perms perms d) nodes perms other) as (H1 & H2 & H3 & H4); try done.
    split_and!; [done| |done..]. by apply (ext_trans _ (cache_perms perms d)); [apply ext_cache|].
Qed.

(** Changing the transitions of a busy state. *)
Lemma update_state_inv busy d l f s :
  Inv busy d -> heap d !! l = Some s -> busy l ->
  flags (f s) = flags s -> s_perms (f s) = s_perms s -> proto (f s) = proto s -> trans_ok d (f s) ->
  let d' := update_state l f d in
  Inv busy d' /\ ext d d' /\ heap d' !! l = Some (f s).
Proof.
  intros HI Hl Hb Hf Hp Hpr Ht d'.
  assert (Hlook : forall k t, heap d' !! k = Some t -> (k = l /\ t = f s) \/ heap d !! k = Some t).
  { intros k t Hk. cbn in Hk. destruct (decide (k = l)) as [->|Hne].
    - rewrite lookup_alter_eq, Hl in Hk. injection Hk as <-. by left.
    - rewrite lookup_alter_ne in Hk by done. by right. }
  assert (Hfwd : forall k t, heap d !! k = Some t -> exists t', heap d' !! k = Some t' /\ proto t' = proto t).
  { intros k t Hk. cbn. destruct (decide (k = l)) as [->|Hne].
    - rewrite lookup_alter_eq, Hk. exists (f t); split; [done|]. congruence.
    - rewrite lookup_alter_ne by done. eauto. }
  assert (He : ext d d') by (split; cbn; eauto).
  split_and!; [split|done|].
  - intros p k. change (node_map d') with (node_map d). rewrite (i_map _ _ HI). split.
    + intros (t & Hk & <-). by apply Hfwd.
    + intros (t & [[-> ->]|Hk]%Hlook & <-); [exists s; by rewrite Hpr|eauto].
  - intros k. change (node_map d') with (node_map d). rewrite <- (i_dom _ _ HI). cbn.
    destruct (decide (k = l)) as [->|Hne]; [by rewrite lookup_alter_eq, fmap_is_Some|by rewrite lookup_alter_ne].
  - apply (i_states _ _ HI).
  - intros k t [[-> ->]|Hk]%Hlook; [rewrite Hpr|]; by eapply (i_proto _ _ HI).
  - intros k t [[-> ->]|Hk]%Hlook; [rewrite Hf, Hp, Hpr|]; by eapply (i_state _ _ HI).
  - apply (i_queue _ _ HI).
  - intros k t [[-> ->]|Hk]%Hlook; (eapply trans_ok_ext; [done|]); [done|by apply (i_trans _ _ HI k)].
  - intros k t [[-> ->]|Hk]%Hlook Hnb Hq; [done|].
    eapply complete_ext; [done|by apply (i_done _ _ HI k)].
  - apply (i_filedfa _ _ HI).
  - cbn. by rewrite lookup_alter_eq, Hl.
Qed.

Lemma Inv_oob busy d o : Inv busy d -> Inv busy (set_oob o d).
Proof. intros []; by split. Qed.
Lemma ext_oob d o : ext d (set_oob o d).
Proof. split; cbn; eauto. Qed.

(** The loop over the explicit cases leaves every case covered. *)
Lemma cases_loop_spec busy l o p cs d s :
  Inv busy d -> heap d !! l = Some s -> busy l -> proto s = p -> otherwise s = o ->
  (forall c nodes, (c, nodes) ∈ cs -> cases (cases_of p) !! c = Some nodes /\ nodes ⊆ A) ->
  match cases_loop order l o cs d with
  | None => some_conflict
  | Some d' => Inv busy d' /\ ext d d' /\ exists s', heap d' !! l = Some s' /\ proto s' = p /\ otherwise s' = o /\
      (forall c, trans s' !! c = None -> trans s !! c = None) /\
      (forall c nodes, (c, nodes) ∈ cs -> trans s' !! c = None -> tnode d' o nodes)
  end.
Proof.
  revert d s; induction cs as [|[c nodes] cs IH]; intros d s HI Hl Hb Hp Ho Hcs; cbn [cases_loop].
  { split_and!; [done|apply ext_refl|]. exists s; split_and!; try done. intros c nodes Hin; inversion Hin. }
  destruct (Hcs c nodes ltac:(by constructor)) as [Hc Hsub].
  pose proof (add_new_state_spec busy d nodes (Some (nonmatching d)) HI Hsub) as Hadd.
  destruct (add_new_state order nodes (Some (nonmatching d)) d) as [[t d1]|]; [|by exists nodes].
  destruct Hadd as (HI1 & He1 & Hh1 & Ht).
  assert (Hl1 : heap d1 !! l = Some s) by (by eapply lookup_weaken).
  set (d2 := if decide (t = o) then d1 else _).
  assert (Hd2 : Inv busy d2 /\ ext d1 d2 /\ exists s2, heap d2 !! l = Some s2 /\ proto s2 = p /\ otherwise s2 = o /\
    (forall c, trans s2 !! c = None -> trans s !! c = None) /\
    (trans s2 !! c = None -> tnode d2 o nodes)).
  { unfold d2. destruct (decide (t = o)) as [->|Hne].
    - split_and!; [done|apply ext_refl|]. exists s; by split_and!.
    - destruct (update_state_inv busy d1 l (add_trans c t) s) as (HI2 & He2 & Hl2); try done.
      { intros c' t' Hc'. cbn in Hc'. apply lookup_insert_Some in Hc' as [[<- <-]|[_ Hc']].
        - exists nodes; split; [|done]. cbn. by rewrite Hp.
        - by apply (i_trans _ _ HI1 l s Hl1). }
      set (d3 := update_state l (add_trans c t) d1) in *.
      assert (Hres : exists s2, heap d3 !! l = Some s2 /\ proto s2 = p /\ otherwise s2 = o /\
        (forall c, trans s2 !! c = None -> trans s !! c = None) /\ (trans s2 !! c = None -> tnode d3 o nodes)).
      { exists (add_trans c t s); split_and!; try done; cbn.
        - intros c'. rewrite lookup_insert_None. by intros [? _].
        - by rewrite lookup_insert_eq. }
      destruct (_ && _); [|by split_and!].
      split_and!; [by apply Inv_oob|by apply (ext_trans _ d3); [|apply ext_oob]|done]. }
  clearbody d2. destruct Hd2 as (HI2 & He2 & s2 & Hl2 & Hp2 & Ho2 & Htr2 & Hcov2).
  specialize (IH d2 s2 HI2 Hl2 Hb Hp2 Ho2 ltac:(intros; apply Hcs; by constructor)).
  destruct (cases_loop order l o cs d2) as [d'|]; [|done].
  destruct IH as (HI' & He' & s' & Hl' & Hp' & Ho' & Htr' & Hcov').
  split_and!; [done|by eauto using ext_trans|]. exists s'; split_and!; try done; [by eauto|].
  intros c' nodes' [[= -> ->]|Hin]%elem_of_cons Hn; [|by eauto].
  eapply tnode_ext; [done|]. by eauto.
Qed.

Lemma cases_of_in p : cases_in A (cases_of p).
Proof. apply follow_all_in; [done|]. split; cbn; [intros c x; by rewrite lookup_empty|done]. Qed.

(** The state that is taken from the queue gets its transitions. *)
Lemma update_state_transitions_spec d l :
  Inv (fun k => k = l) d -> (l < size (node_map d))%nat -> tnode d (nonmatching d) ∅ ->
  match update_state_transitions order fp l d with
  | None => some_conflict
  | Some d' => Inv (fun _ => False) d' /\ ext d d'
  end.
Proof.
  intros HI Hl Hnon. unfold update_state_transitions.
  destruct (proj2 (i_dom _ _ HI l) Hl) as [s Hs]. rewrite Hs. fold (cases_of (proto s)).
  set (o := Expr.otherwise (cases_of (proto s))).
  assert (Hpre : match (match o with
     | Some nodes => add_new_state order nodes (Some (nonmatching d)) d
     | None => Some (nonmatching d, d) end) with
    | None => some_conflict
    | Some (t, d') => Inv (fun k => k = l) d' /\ ext d d' /\ heap d ⊆ heap d' /\ tnode d' t (default ∅ o)
    end).
  { destruct o as [nodes|] eqn:Eo; [|by split_and!; [|apply ext_refl| |]].
    assert (Hsub : nodes ⊆ A) by (by eapply in_otherwise, Eo; apply cases_of_in).
    pose proof (add_new_state_spec _ d nodes (Some (nonmatching d)) HI Hsub) as H.
    destruct (add_new_state order nodes (Some (nonmatching d)) d) as [[t d']|]; [done|by exists nodes]. }
  destruct (match o with Some nodes => _ | None => _ end) as [[t d1]|]; [|done].
  destruct Hpre as (HI1 & He1 & Hh1 & Ht).
  assert (Hs1 : heap d1 !! l = Some s) by (by eapply lookup_weaken).
  destruct (update_state_inv _ d1 l (set_otherwise t) s HI1 Hs1 eq_refl eq_refl eq_refl eq_refl)
    as (HI2 & He2 & Hs2); [by apply (i_trans _ _ HI1 l s)|].
  pose proof (cases_loop_spec _ l t (proto s) (sorted_items (cases (cases_of (proto s)))) _ _ HI2 Hs2 eq_refl
    eq_refl eq_refl) as Hloop.
  specialize (Hloop ltac:(intros c nodes Hin; apply sorted_items_elem in Hin; split; [done|];
    by eapply in_cases, Hin; apply cases_of_in)).
  destruct (cases_loop _ _ _ _ _) as [d'|]; [|done].
  destruct Hloop as (HI' & He' & s' & Hs' & Hp' & Ho' & _ & Hcov).
  assert (He : ext d d') by (by eapply ext_trans; [done|]; eapply ext_trans).
  split; [|done]. destruct HI'; split; try done.
  intros k sk Hk _ Hq. destruct (decide (k = l)) as [->|Hne]; [|by eapply i_done0].
  assert (sk = s') as -> by congruence. split; rewrite Hp', Ho'.
  - eapply tnode_ext; [|exact Ht]. by eapply ext_trans.
  - intros c nodes Hc. apply Hcov. by apply sorted_items_elem.
Qed.

Lemma Inv_set_queue d l q :
  Inv (fun _ => False) d -> work_queue d = l :: q -> Inv (fun k => k = l) (set_queue q d).
Proof.
  intros HI Hq. pose proof (i_queue _ _ HI) as Hqq. rewrite Hq in Hqq. apply Forall_cons in Hqq as [_ Hqq].
  destruct HI; split; try done. intros k s Hk Hnb Hnq. apply (i_done0 k s Hk); [tauto|].
  rewrite Hq. by intros [?|?]%elem_of_cons.
Qed.

(** The queue is processed to the end, or some set of nodes has conflicting
    permissions. *)
Lemma process_work_queue_spec bound d :
  Inv (fun _ => False) d -> tnode d (nonmatching d) ∅ ->
  (2 ^ size A - size (node_map d) + length (work_queue d) < Pos.to_nat bound)%nat ->
  match process_work_queue order fp bound d with
  | None => some_conflict
  | Some d' => Inv (fun _ => False) d' /\ work_queue d' = [] /\
      (forall t nodes, tnode d t nodes -> tnode d' t nodes) /\
      nonmatching d' = nonmatching d /\ start d' = start d
  end.
Proof.
  intros HI Hnon Hm. unfold process_work_queue.
  destruct (ploop_spec (queue_step order fp)
    (fun x => Inv (fun _ => False) x /\ (forall t nodes, tnode d t nodes -> tnode x t nodes) /\
              nonmatching x = nonmatching d /\ start x = start d)
    (fun r => match r with
      | None => some_conflict
      | Some x => Inv (fun _ => False) x /\ work_queue x = [] /\
          (forall t nodes, tnode d t nodes -> tnode x t nodes) /\
          nonmatching x = nonmatching d /\ start x = start d end)
    (fun x => 2 ^ size A - size (node_map x) + length (work_queue x))%nat bound d) as (r & -> & Hr);
    [|done..|done].
  clear HI Hm. intros x (HI & Ht & Hn & Hs). unfold queue_step. destruct (work_queue x) as [|l q] eqn:Eq; [done|].
  pose proof (update_state_transitions_spec (set_queue q x) l (Inv_set_queue x l q HI Eq)) as Hup.
  pose proof (i_queue _ _ HI) as Hqq. rewrite Eq in Hqq. apply Forall_cons in Hqq as [Hlq _].
  specialize (Hup Hlq). change (nonmatching (set_queue q x)) with (nonmatching x) in Hup. rewrite Hn in Hup.
  specialize (Hup (Ht _ _ Hnon)).
  destruct (update_state_transitions order fp l (set_queue q x)) as [x'|]; [|done].
  destruct Hup as [HI' He]. destruct (e_ends _ _ He) as [E1 E2]. split_and!; try done.
  - intros t nodes H. eapply tnode_ext; [done|]. by apply Ht.
  - by rewrite E1.
  - by rewrite E2.
  - pose proof (e_count _ _ He) as Hc. cbn in Hc. pose proof (node_map_bound _ _ HI').
    pose proof (node_map_bound _ _ HI). cbn. lia.
Qed.
End construction_proofs.

(** ** Correctness *)

(** What is needed of a tree: distinct positions, counted references to shared
    trees, inverted sets of input characters, accept nodes at the end. *)
Record root_ok (E : shared_heap) (root : Node) : Prop := {
  r_wf : wf root = true;
  r_shared : shared_wf E root;
  r_counted : counted E root;
  r_chars : forall p, p ∈ al (info root) -> chars_ok p = true;
  r_last : forall p, p ∈ al (info root) -> is_accept p = true -> p ∈ la (info root)
}.

Section correctness.
Context (order : NodeSet -> list ImportantNode) (order_perm : forall s, order s ≡ₚ elements s).
Context (E : shared_heap) (root : Node) (fd : bool) (Hroot : root_ok E root).
Abbreviation A := (al (info root)).

(** The automaton at the end of the construction. *)
Record built (fp : gmap ImportantNode NodeSet) (d : DFA) : Prop := {
  b_fp : forall p, fpos fp p = fo (info root) p;
  b_states : forall l, is_Some (heap d !! l) <-> l ∈ states d;
  b_nodup : NoDup (states d);
  b_nodes : forall l s, heap d !! l = Some s -> proto s = proto_of (nodes_of (proto s)) /\ nodes_of (proto s) ⊆ A;
  b_inj : forall l l' s s', heap d !! l = Some s -> heap d !! l' = Some s' -> proto s = proto s' -> l = l';
  b_state : forall l s, heap d !! l = Some s ->
    flags s = 0 /\ set_perms order fd (nodes_of (proto s)) = Some (s_perms s);
  b_trans : forall l s, heap d !! l = Some s -> trans_ok order fp d s /\ complete order fp d s;
  b_start : tnode d (start d) (fi (info root));
  b_nonmatching : tnode d (nonmatching d) ∅;
  b_filedfa : filedfa d = fd
}.

Lemma create_dfa_built :
  match create_dfa order root fd with
  | None => some_conflict order A fd
  | Some d => exists fp, built fp d
  end.
Proof.
  unfold create_dfa.
  destruct (compute_pos_ok E root ∅ ∅ clear_pos) as (st & -> & [Hfp _ _]).
  { apply Hroot. } { intros id rc u HE; by cbn. }
  { intros id rc u HE; cbn. apply (r_counted _ _ Hroot id (rc, u) HE). }
  rewrite union_empty_l_L. set (fp := followpos st).
  assert (Hfo : forall p, fpos fp p = fo (info root) p).
  { intros p. unfold fp. rewrite Hfp.
    assert (fpos (followpos clear_pos) p = ∅) as -> by (unfold fpos; cbn; by rewrite lookup_empty).
    by rewrite union_empty_l_L. }
  assert (Hsub : forall p, fpos fp p ⊆ A) by (intros p; rewrite Hfo; apply ok_fo, info_ok_all).
  assert (HI0 : Inv order fp A fd (fun _ => False) (empty_dfa fd)).
  { split; cbn; try done; intros *; rewrite ?lookup_empty; try done.
    - split; [done|]. by intros (s & Hs & _).
    - rewrite map_size_empty. split; [by intros []|lia]. }
  pose proof (add_new_state_spec order fp A fd _ (empty_dfa fd) ∅ None HI0 ltac:(set_solver)) as H0.
  destruct (add_new_state order ∅ None (empty_dfa fd)) as [[n d0]|];
    [|exists ∅; split; [set_solver|done]].
  destruct H0 as (HI1 & He1 & _ & Hn).
  assert (Hfi : fi (info root) ⊆ A) by (apply ok_fi, info_ok_all).
  pose proof (add_new_state_spec order fp A fd _ d0 (fi (info root)) (Some n) HI1 Hfi) as H1.
  destruct (add_new_state order (fi (info root)) (Some n) d0) as [[s d1]|]; [|by eexists].
  destruct H1 as (HI2 & He2 & _ & Hs).
  set (d2 := set_queue _ _).
  assert (HI3 : Inv order fp A fd (fun _ => False) d2).
  { destruct HI2; split; try done.
    - cbn. apply Forall_app; split; [done|]. apply Forall_cons_2; [|done].
      apply i_dom0. destruct Hs as (x & Hx & _); by eexists.
    - intros l x Hl Hb Hq. apply (i_done0 l x Hl Hb). intros Hin; apply Hq; cbn. apply elem_of_app; by left. }
  pose proof (process_work_queue_spec order fp A fd Hsub (state_bound (size A)) d2 HI3) as Hp.
  change (tnode d2 (nonmatching d2) ∅) with (tnode d1 n ∅) in Hp.
  specialize (Hp ltac:(by eapply tnode_ext)).
  assert (Hb : (2 ^ size A - size (node_map d2) + length (work_queue d2) < Pos.to_nat (state_bound (size A)))%nat).
  { unfold state_bound. rewrite Pos2Nat.inj_add.
    assert (Hpow : Pos.to_nat (Pos.shiftl_nat 1 (size A)) = (2 ^ size A)%nat).
    { generalize (size A); intros k. induction k as [|k IH]; [done|].
      change (Pos.shiftl_nat 1 (S k)) with (Pos.shiftl_nat 1 k)~0%positive.
      rewrite Pos2Nat.inj_xO, IH. cbn; lia. }
    rewrite Hpow. change (Pos.to_nat 2) with 2%nat.
    pose proof (e_count _ _ He1) as C1. pose proof (e_count _ _ He2) as C2. cbn in C1.
    change (node_map d2) with (node_map d1).
    replace (length (work_queue d2)) with (S (length (work_queue d1))) by (cbn; rewrite length_app; cbn; lia).
    pose proof (node_map_bound order fp A fd _ _ HI2).
    replace (size (node_map (empty_dfa fd))) with 0%nat in C1 by done. lia. }
  specialize (Hp Hb). destruct (process_work_queue order fp (state_bound (size A)) d2) as [d'|]; [|done].
  destruct Hp as (HI' & Hq & Ht & Hnm & Hst). exists fp. split; cbn.
  - done.
  - intros l. rewrite (i_states _ _ _ _ _ _ HI'), (i_dom _ _ _ _ _ _ HI' l). rewrite elem_of_seq. lia.
  - rewrite (i_states _ _ _ _ _ _ HI'). apply NoDup_seq.
  - apply (i_proto _ _ _ _ _ _ HI').
  - intros l l' x x' Hl Hl' Ep. eapply (proto_inj order fp A fd _ d'); [done..|]. by rewrite Ep.
  - apply (i_state _ _ _ _ _ _ HI').
  - intros l x Hl. split; [by apply (i_trans _ _ _ _ _ _ HI' l)|].
    apply (i_done _ _ _ _ _ _ HI' l x Hl); [tauto|]. rewrite Hq. by inversion 1.
  - rewrite Hst. apply Ht. done.
  - rewrite Hnm. apply Ht. change (tnode d1 n ∅). by eapply tnode_ext.
  - apply (i_filedfa _ _ _ _ _ _ HI').
Qed.

(** *** Runs *)

Lemma targets_elem fp ns c x :
  x ∈ targets fp ns c <-> exists n, n ∈ ns /\ char_match (node_type n) c = true /\ x ∈ fpos fp n.
Proof.
  unfold targets. rewrite elem_of_union_list. split.
  - intros (X & HX & Hx). apply list_elem_of_fmap in HX as (n & -> & Hn).
    apply list_elem_of_filter in Hn as [Hm Hn]. eauto.
  - intros (n & Hn & Hm & Hx). exists (fpos fp n); split; [|done].
    apply list_elem_of_fmap. exists n; split; [done|]. by apply list_elem_of_filter.
Qed.

(** The nodes after a character, and after a string. *)
Definition delta (S : NodeSet) (c : Z) : NodeSet :=
  ⋃ (map (fo (info root)) (base.filter (fun n => char_match (node_type n) c = true) (elements S))).
Definition deltas (S : NodeSet) (w : list Z) : NodeSet := fold_left delta w S.

Lemma delta_elem S c x :
  x ∈ delta S c <-> exists n, n ∈ S /\ char_match (node_type n) c = true /\ x ∈ fo (info root) n.
Proof.
  unfold delta. rewrite elem_of_union_list. split.
  - intros (X & HX & Hx). apply list_elem_of_fmap in HX as (n & -> & Hn).
    apply list_elem_of_filter in Hn as [Hm Hn]. apply elem_of_elements in Hn. eauto.
  - intros (n & Hn & Hm & Hx). exists (fo (info root) n); split; [|done].
    apply list_elem_of_fmap. exists n; split; [done|]. apply list_elem_of_filter. by rewrite elem_of_elements.
Qed.

(** Where the cases of a state send a character. *)
Lemma case_target_delta fp d l s c :
  built fp d -> heap d !! l = Some s ->
  case_target (cases_of order fp (proto s)) c = delta (nodes_of (proto s)) c.
Proof.
  intros HB Hl. destruct (b_nodes _ _ HB l s Hl) as [Hp Hsub].
  assert (Hnn : forall n, n ∈ (proto s).1 <-> is_accept n = false /\ n ∈ nodes_of (proto s)).
  { intros n. rewrite <- proto_of_nnodes. by rewrite <- Hp. }
  unfold cases_of. rewrite follow_targets.
  - apply set_eq; intros x. rewrite targets_elem, delta_elem.
    setoid_rewrite order_perm. setoid_rewrite elem_of_elements. setoid_rewrite (b_fp _ _ HB).
    setoid_rewrite Hnn.
    split; intros (n & Hn & Hm & Hx); exists n; split_and!; try done; [by apply Hn|].
    unfold is_accept. by destruct (node_type n).
  - apply forallb_forall. intros n Hn. apply list_elem_of_In in Hn.
    rewrite order_perm, elem_of_elements, Hnn in Hn.
    apply (r_chars _ _ Hroot), Hsub, Hn.
Qed.

Lemma next_eq fp d l s c :
  built fp d -> heap d !! l = Some s -> next d l c = Some (default (otherwise s) (trans s !! c)).
Proof.
  intros HB Hl. unfold next; cbn. rewrite Hl. destruct (b_state _ _ HB l s Hl) as [-> _].
  by destruct (trans s !! c).
Qed.

(** The next state is the one for the nodes that follow. *)
Lemma next_delta fp d l nodes c :
  built fp d -> 0 <= c -> tnode d l nodes ->
  exists t, next d l c = Some t /\ tnode d t (delta nodes c).
Proof.
  intros HB Hc (s & Hl & <-). rewrite (next_eq fp d l s c HB Hl). eexists; split; [done|].
  rewrite <- (case_target_delta fp d l s c HB Hl). destruct (b_trans _ _ HB l s Hl) as [Htr [Ho Hcov]].
  unfold case_target. destruct (trans s !! c) as [t|] eqn:Et; cbn.
  - destruct (Htr c t Et) as (nodes & -> & Ht). done.
  - destruct (cases (cases_of order fp (proto s)) !! c) as [nodes|] eqn:Ec; [by eapply Hcov|].
    replace (0 <=? c) with true by lia. done.
Qed.

Lemma match_len_deltas fp d l nodes w :
  built fp d -> Forall is_byte w -> tnode d l nodes ->
  exists t, match_len d l w = Some t /\ tnode d t (deltas nodes w).
Proof.
  intros HB Hw; revert l nodes; induction Hw as [|c w Hc _ IH]; intros l nodes Hl; cbn; [eauto|].
  destruct (next_delta fp d l nodes c HB ltac:(unfold is_byte in Hc; lia) Hl) as (t & -> & Ht). by apply IH.
Qed.

(** Paths through the positions. *)
Fixpoint path (S : NodeSet) (ps : list ImportantNode) (x : ImportantNode) : Prop :=
  match ps with
  | [] => x ∈ S
  | p :: ps => p ∈ S /\ path (fo (info root) p) ps x
  end.

Lemma path_al S ps x : S ⊆ A -> path S ps x -> x ∈ A.
Proof.
  revert S; induction ps as [|p ps IH]; intros S HS; cbn; [by apply HS|].
  intros [_ H]. eapply IH, H. apply ok_fo, info_ok_all.
Qed.

Lemma deltas_path S w x :
  x ∈ deltas S w <->
  exists ps, path S ps x /\ Forall2 (fun p c => char_match (node_type p) c = true) ps w.
Proof.
  revert S; induction w as [|c w IH]; intros S; cbn.
  - split; [intros; by exists []|]. intros (ps & Hp & HF). inversion HF; by subst.
  - unfold deltas in IH; rewrite IH. split.
    + intros (ps & Hp & HF).
      assert (Hfst : exists p, p ∈ S /\ char_match (node_type p) c = true /\ path (fo (info root) p) ps x).
      { destruct ps as [|q ps]; [|destruct Hp as [Hq Hp]];
          [apply delta_elem in Hp|apply delta_elem in Hq as Hq'; destruct Hq' as (p & ? & ? & ?)].
        - destruct Hp as (p & ? & ? & ?). by exists p.
        - by exists p. }
      destruct Hfst as (p & H1 & H2 & H3). exists (p :: ps); split; [done|by constructor].
    + intros (ps & Hp & HF). inversion HF as [|p ? ps' ? Hm HF']; subst. destruct Hp as [Hin Hp].
      exists ps'; split; [|done]. destruct ps' as [|q ps']; cbn in *.
      * apply delta_elem. eauto.
      * destruct Hp as [Hq Hp]. split; [|done]. apply delta_elem. eauto.
Qed.

Lemma path_loc ps x : loc (info root) (ps ++ [x]) <-> path (fi (info root)) ps x /\ x ∈ la (info root).
Proof.
  assert (Hc : forall p ps, chain (info root) p (ps ++ [x]) <-> path (fo (info root) p) ps x /\ x ∈ la (info root)).
  { intros p qs; revert p; induction qs as [|q qs IH]; intros p; cbn; [done|]. rewrite IH. tauto. }
  destruct ps as [|p ps]; cbn; [done|]. rewrite Hc. tauto.
Qed.

(** An accept node is reached exactly by the strings of its rules. *)
Lemma deltas_lang w a :
  is_accept a = true ->
  a ∈ deltas (fi (info root)) w <-> lang root (map Ch w ++ [Acc a]).
Proof.
  intros Ha. rewrite glushkov by apply Hroot. rewrite deltas_path. split.
  - intros (ps & Hp & HF). exists (ps ++ [a]). split.
    + apply path_loc. split; [done|]. apply (r_last _ _ Hroot); [|done].
      eapply path_al; [apply ok_fi, info_ok_all|done].
    + apply Forall2_app; [|by repeat constructor]. by apply Forall2_fmap_r.
  - intros (ps' & Hl & HF). apply Forall2_app_inv_r in HF as (ps & qs & HF & HF' & ->).
    inversion HF' as [|q ? ? ? Hq Hn]; inversion Hn; subst. destruct Hq as [_ ->].
    apply path_loc in Hl as [Hp _]. exists ps; split; [done|]. apply (proj1 (Forall2_fmap_r Ch matches ps w)) in HF. eapply Forall2_impl; [exact HF|done].
Qed.
End correctness.

(** *** Out-of-band characters *)

(** An out-of-band character has no default: it is read through the explicit
    transitions only. *)
Definition next_oob (d : DFA) (l : nat) (c : Z) : nat :=
  match heap d !! l with
  | Some s => default (nonmatching d) (trans s !! c)
  | None => nonmatching d
  end.
Fixpoint run (d : DFA) (l : nat) (w : list Z) : option nat :=
  match w with
  | [] => Some l
  | c :: w => if c <? 0 then run d (next_oob d l c) w
              else match next d l c with Some t => run d t w | None => None end
  end.

(** What follows an out-of-band character is not all reached by default. *)
Definition oob_sep (root : Node) : Prop := forall p c,
  p ∈ al (info root) -> c < 0 -> char_match (node_type p) c = true ->
  exists x, x ∈ fo (info root) p /\
  forall q, q ∈ al (info root) -> is_default q = true -> x ∉ fo (info root) q.

Lemma next_oob_delta order E root fd fp d l nodes c :
  (forall s, order s ≡ₚ elements s) -> root_ok E root -> built order root fd fp d -> oob_sep root ->
  c < 0 -> tnode d l nodes -> tnode d (next_oob d l c) (delta root nodes c).
Proof.
  intros Hord Hroot HB Hsep Hc (s & Hl & <-). unfold next_oob. rewrite Hl.
  destruct (b_trans _ _ _ _ _ HB l s Hl) as [Htr [Ho Hcov]].
  destruct (b_nodes _ _ _ _ _ HB l s Hl) as [Hp Hsub].
  pose proof (case_target_delta order Hord E root fd Hroot fp d l s c HB Hl) as Hct. unfold case_target in Hct.
  destruct (trans s !! c) as [t|] eqn:Et; cbn.
  { destruct (Htr c t Et) as (nodes & En & Ht). rewrite En in Hct. by rewrite <- Hct. }
  destruct (cases (cases_of order fp (proto s)) !! c) as [nodes|] eqn:Ec.
  - rewrite <- Hct. destruct (decide (nodes = ∅)) as [->|Hne]; [apply HB|]. exfalso.
    destruct (Hcov c nodes Ec Et) as (s1 & Hs1 & E1). destruct Ho as (s2 & Hs2 & E2).
    apply set_choose_L in Hne as [x Hx]. rewrite Hct in Hx. apply delta_elem in Hx as (p & Hpn & Hpm & _).
    destruct (Hsep p c (Hsub p Hpn) Hc Hpm) as (y & Hy & Hny).
    assert (Hyn : y ∈ default ∅ (Expr.otherwise (cases_of order fp (proto s)))).
    { rewrite <- E2. assert (s2 = s1) as -> by congruence. rewrite E1, Hct. apply delta_elem. eauto. }
    unfold cases_of in Hyn. apply follow_default in Hyn as [Hyn|(q & Hq & Hqd & Hyq)]; [cbn in Hyn; set_solver|].
    rewrite Hord, elem_of_elements, Hp, proto_of_nnodes in Hq. rewrite (b_fp _ _ _ _ _ HB) in Hyq.
    by apply (Hny q (Hsub q (proj2 Hq)) Hqd).
  - replace (0 <=? c) with false in Hct by lia. rewrite <- Hct. apply HB.
Qed.

Lemma run_deltas order E root fd fp d l nodes w :
  (forall s, order s ≡ₚ elements s) -> root_ok E root -> built order root fd fp d ->
  (Exists (fun c => c < 0) w -> oob_sep root) -> tnode d l nodes ->
  exists t, run d l w = Some t /\ tnode d t (deltas root nodes w).
Proof.
  intros Hord Hroot HB. revert l nodes. induction w as [|c w IH]; intros l nodes Hsep Hl; cbn; [eauto|].
  destruct (Z.ltb_spec c 0) as [Hc|Hc].
  - apply IH; [by intros; apply Hsep; right|]. eapply next_oob_delta; [done..|apply Hsep; by left|done|done].
  - destruct (next_delta order Hord E root fd Hroot fp d l nodes c HB Hc Hl) as (t & -> & Ht).
    apply IH; [by intros; apply Hsep; right|done].
Qed.

Lemma match_len_run d l w : Forall is_byte w -> match_len d l w = run d l w.
Proof.
  intros Hw; revert l; induction Hw as [|c w Hc _ IH]; intros l; cbn; [done|].
  unfold is_byte in Hc. destruct (Z.ltb_spec c 0); [lia|]. destruct (next d l c); [apply IH|done].
Qed.

Lemma run_accepts order E root fd d w :
  (forall s, order s ≡ₚ elements s) -> root_ok E root -> create_dfa order root fd = Some d ->
  (Exists (fun c => c < 0) w -> oob_sep root) ->
  exists l s accepts, run d (start d) w = Some l /\ heap d !! l = Some s /\
  perms_of fd accepts = Some (s_perms s) /\ NoDup accepts /\
  forall a, a ∈ accepts <-> is_accept a = true /\ lang root (map Ch w ++ [Acc a]).
Proof.
  intros Hord Hroot Hd Hsep. pose proof (create_dfa_built order Hord E root fd Hroot) as HB. rewrite Hd in HB.
  destruct HB as [fp HB].
  destruct (run_deltas order E root fd fp d (start d) (fi (info root)) w Hord Hroot HB Hsep)
    as (t & Ht & s & Hs & Hn); [apply HB|].
  exists t, s, (from_option order [] (split_node_types (nodes_of (proto s))).1).
  destruct (b_state _ _ _ _ _ HB t s Hs) as [_ Hp]. split_and!; [done..| |].
  - destruct (split_node_types _).1 as [a|]; cbn; [|constructor]. rewrite Hord. apply NoDup_elements.
  - intros a. rewrite Hn.
    assert (Hsp : a ∈ from_option order [] (split_node_types (deltas root (fi (info root)) w)).1 <->
                  a ∈ default ∅ (split_node_types (deltas root (fi (info root)) w)).1).
    { destruct (split_node_types _).1; cbn; [by rewrite Hord, elem_of_elements|]. split; [by inversion 1|set_solver]. }
    rewrite Hsp, split_anodes. split; intros [Ha H]; (split; [done|]);
      by apply (deltas_lang E root Hroot w a Ha).
Qed.

(** C3: the automaton built from a tree does what the tree says: every string of
    bytes leads to a state, and the permissions of that state are those computed
    from exactly the accept nodes of the rules the string matches. *)
Theorem dfa_correct order E root fd d w :
  (forall s, order s ≡ₚ elements s) -> root_ok E root -> create_dfa order root fd = Some d ->
  Forall is_byte w ->
  exists l s accepts, match_len d (start d) w = Some l /\ heap d !! l = Some s /\
  perms_of fd accepts = Some (s_perms s) /\ NoDup accepts /\
  forall a, a ∈ accepts <-> is_accept a = true /\ lang root (map Ch w ++ [Acc a]).
Proof.
  intros Hord Hroot Hd Hw. rewrite match_len_run by done. apply (run_accepts order E); try done.
  intros Hex. apply Exists_exists in Hex as (c & Hc & Hlt). rewrite Forall_forall in Hw.
  specialize (Hw c Hc). unfold is_byte in Hw; lia.
Qed.

(** C10: the construction ends; it fails only in the file automaton, and only when
    the accept nodes of some set of positions have conflicting exec modifiers. *)
Theorem create_dfa_total order E root fd :
  (forall s, order s ≡ₚ elements s) -> root_ok E root ->
  (forall p, p ∈ al (info root) -> from_option flag_ok True (flag_of p)) ->
  create_dfa order root fd = None ->
  fd = true /\ exists accepts, list_to_set accepts ⊆ al (info root) /\ perms_of fd accepts = None.
Proof.
  intros Hord Hroot Hflags Hd. pose proof (create_dfa_built order Hord E root fd Hroot) as HB. rewrite Hd in HB.
  destruct HB as (nodes & Hsub & Hp). unfold set_perms in Hp.
  set (acc := from_option order [] (split_node_types nodes).1) in *.
  assert (Hacc : forall a, a ∈ acc -> a ∈ nodes).
  { intros a Ha. apply (split_anodes nodes a). unfold acc in Ha.
    destruct (split_node_types nodes).1; cbn in *; [by rewrite Hord, elem_of_elements in Ha|by inversion Ha]. }
  destruct fd.
  - split; [done|]. exists acc; split; [|done]. intros a Ha. apply Hsub, Hacc. by apply elem_of_list_to_set in Ha.
  - exfalso. unfold perms_of in Hp.
    assert (Hok : Forall flag_ok (omap flag_of acc)).
    { apply Forall_forall. intros m Hm. apply list_elem_of_omap in Hm as (a & Ha & Hf).
      specialize (Hflags a (Hsub _ (Hacc a Ha))). by rewrite Hf in Hflags. }
    destruct (flags_perms_defined false _ Hok (x_agree_policydb _ Hok)) as [p E']. congruence.
Qed.

(** *** Concrete trees *)

(** A test for trees without shared parts. *)
Definition root_okb (root : Node) : bool :=
  wf root && no_shared root &&
  forallb (fun p => chars_ok p && (negb (is_accept p) || bool_decide (p ∈ la (info root))))
    (elements (al (info root))).
Lemma root_okb_ok root : root_okb root = true -> root_ok ∅ root.
Proof.
  unfold root_okb. intros H. apply andb_prop in H as [H H3]. apply andb_prop in H as [H1 H2].
  rewrite forallb_forall in H3. split; [done|by apply no_shared_wf|by apply map_Forall_empty| |].
  - intros p Hp. rewrite <- elem_of_elements, list_elem_of_In in Hp. specialize (H3 p Hp).
    by apply andb_prop in H3 as [? _].
  - intros p Hp Ha. rewrite <- elem_of_elements, list_elem_of_In in Hp. specialize (H3 p Hp).
    apply andb_prop in H3 as [_ H3]. rewrite Ha in H3. by apply bool_decide_eq_true in H3.
Qed.

(** /a[^/]*, allowed to read, and /ab, denied to write. *)
Definition sample_tree : Node :=
  let ch i c := Leaf (Imp i (CharNode c)) in
  AltNode
    [CatNode [ch 1%positive 47; ch 2%positive 97; StarNode (Leaf (Imp 3 (NotCharSetNode [0; 47])));
              Leaf (Imp 10 (AcceptNode MatchFlag 0 4 0))];
     CatNode [ch 4%positive 47; ch 5%positive 97; ch 6%positive 98;
              Leaf (Imp 11 (AcceptNode DenyMatchFlag 0 2 0))]].

Lemma dfa_correct_witness :
  exists d, create_dfa elements sample_tree false = Some d /\
  exists l s accepts, match_len d (start d) [47; 97; 98] = Some l /\ heap d !! l = Some s /\
  perms_of false accepts = Some (s_perms s) /\ NoDup accepts /\
  forall a, a ∈ accepts <-> is_accept a = true /\ lang sample_tree (map Ch [47; 97; 98] ++ [Acc a]).
Proof.
  assert (Hd : (if create_dfa elements sample_tree false then true else false) = true) by (vm_compute; reflexivity).
  destruct (create_dfa elements sample_tree false) as [d|] eqn:Ed; [|discriminate Hd].
  exists d. split; [reflexivity|]. apply (dfa_correct elements ∅ sample_tree false d).
  - reflexivity.
  - apply root_okb_ok. vm_compute; reflexivity.
  - exact Ed.
  - apply Forall_cons_2; [|apply Forall_cons_2; [|apply Forall_cons_2; [|apply Forall_nil_2]]]; unfold is_byte; lia.
Defined.

(** (.|oob), where both characters lead to the same nodes. *)
Definition oob_tree : Node :=
  CatNode [AltNode [Leaf (Imp 1 AnyCharNode); Leaf (Imp 2 (CharNode OOB))];
           Leaf (Imp 10 (AcceptNode MatchFlag 0 4 0))].


Lemma create_dfa_total_witness :
  let conflict := CatNode [Leaf (Imp 1 (CharNode 97));
    AltNode [Leaf (Imp 10 (AcceptNode MatchFlag 0 513 0)); Leaf (Imp 11 (AcceptNode MatchFlag 0 2049 0))]] in
  create_dfa elements conflict true = None /\
  (true = true /\ exists accepts, list_to_set accepts ⊆ al (info conflict) /\ perms_of true accepts = None).
Proof.
  intros conflict. assert (Hn : create_dfa elements conflict true = None) by (vm_compute; reflexivity).
  split; [exact Hn|]. apply (create_dfa_total elements ∅ conflict true).
  - reflexivity.
  - apply root_okb_ok. vm_compute; reflexivity.
  - assert (Hall : forallb (fun p => match flag_of p with
      | Some m => (0 <=? f_perms m) && (f_perms m <? 2 ^ 32) && (0 <=? f_audit m) && (f_audit m <? 2 ^ 32) &&
                  (Z.land (f_audit m) (f_perms m) =? f_audit m)
      | None => true end) (elements (al (info conflict))) = true) by (vm_compute; reflexivity).
    intros p Hp. rewrite <- elem_of_elements, list_elem_of_In in Hp. rewrite forallb_forall in Hall.
    specialize (Hall p Hp). destruct (flag_of p) as [m|]; cbn; [|exact I]. unfold flag_ok. lia.
  - exact Hn.
Defined.
