(* ===== verification/Minimize.v ===== *)
(** Reducing an automaton ([parser/libapparmor_re/hfa.cc]): clearing denied
    permissions, minimisation by partition refinement, removal of unreachable
    states. *)

From stdpp Require Import gmap sorting.
From S2P Require Import Prelude Perms Expr Accept Dfa.

(** ** Well-formed automata *)

(** Where a state that is not relative goes. *)
Definition target (s : State) (c : Z) : nat := default (otherwise s) (trans s !! c).

Record dfa_wf (d : DFA) : Prop := {
  w_dom : forall l, is_Some (heap d !! l) <-> l ∈ states d;
  w_nodup : NoDup (states d);
  w_flags : forall l s, heap d !! l = Some s -> flags s = 0;
  w_target : forall l s c, heap d !! l = Some s -> target s c ∈ states d;
  w_start : start d ∈ states d;
  w_nonmatching : nonmatching d ∈ states d;
  w_trap : forall s c, heap d !! nonmatching d = Some s -> target s c = nonmatching d
}.

(** The permissions of a string. *)
Definition perms_at (d : DFA) (l : nat) : option perms_t := s_perms <$> heap d !! l.
Definition dfa_perms (d : DFA) (w : list Z) : option perms_t :=
  match match_len d (start d) w with Some l => perms_at d l | None => None end.

(** Two automata that give every string the same permissions. *)
Definition dfa_equiv (d d' : DFA) : Prop := forall w, dfa_perms d w = dfa_perms d' w.
#[export] Instance dfa_equiv_equivalence : Equivalence dfa_equiv.
Proof. split; [by intros d w|by intros d d' H w|intros a b c H1 H2 w; by rewrite H1]. Qed.

(** ** Clearing denied permissions *)

Definition set_perms_of (p : perms_t) (s : State) : State :=
  MkState (flags s) (idx s) p (trans s) (otherwise s) (proto s).
(** [State::apply_and_clear_deny]: the permissions are replaced, through the
    cache of the automaton. *)
Definition state_clear_deny (l : nat) (d : DFA) : DFA * Z :=
  match heap d !! l with
  | None => (d, 0)
  | Some s =>
      let '(p, res) := Accept.apply_and_clear_deny (s_perms s) in
      (cache_perms p (update_state l (set_perms_of p) d), if res : bool then 1 else 0)
  end.
Definition dfa_apply_and_clear_deny (d : DFA) : DFA * Z :=
  fold_left (fun '(d, c) l => let '(d, r) := state_clear_deny l d in (d, c + r)) (states d) (d, 0).

(** ** Unreachable states *)

(** [reachable] and the work queue change together. *)
Definition push_reachable (l : nat) (x : list nat * gset nat) : list nat * gset nat :=
  (x.1 ++ [l], x.2 ∪ {[l]}).
Definition reach_step (d : DFA) (x : list nat * gset nat) : (list nat * gset nat) + gset nat :=
  match x.1 with
  | [] => inr x.2
  | from :: q =>
      let x := (q, x.2) in
      match heap d !! from with
      | None => inl x
      | Some s =>
          let x := if decide (otherwise s <> nonmatching d /\ otherwise s ∉ x.2)
                   then push_reachable (otherwise s) x else x in
          inl (fold_left (fun x '(_, t) => if decide (t ∈ x.2) then x else push_reachable t x)
                 (sorted_items (trans s)) x)
      end
  end.
Definition reachable_states (d : DFA) : gset nat :=
  match ploop (reach_step d) (Pos.of_succ_nat (S (length (states d))))
          (push_reachable (start d) ([], {[nonmatching d]})) with
  | inr r => r
  | inl _ => ∅
  end.
Definition set_states (h : gmap nat State) (ls : list nat) (d : DFA) : DFA :=
  MkDFA h ls (nonmatching d) (start d) (node_map d) (work_queue d) (uniq_perms d)
        (oob_range d) (max_range d) (ord_range d) (filedfa d).
Definition remove_unreachable (d : DFA) : DFA :=
  let r := reachable_states d in
  if (size r <? length (states d))%nat
  then set_states (base.filter (fun x => x.1 ∈ r) (heap d)) (base.filter (fun l => l ∈ r) (states d)) d
  else d.

(** ** Minimisation *)

(** A partition is known by its first state, which stays the first as long as the
    partition exists: [part] gives the partition of each state. *)
Abbreviation parts := (gmap nat nat) (only parsing).
Definition part_of (m : parts) (l : nat) : nat := default l (m !! l).

(** [same_mappings], the walk over the two ordered sets of transitions. *)
Section same_mappings.
Context (m : parts) (o1 o2 : nat).

Definition same_part (x y : nat) : bool := Nat.eqb (part_of m x) (part_of m y).
Definition all_go_to (o : nat) (j : list (Z * nat)) : bool := forallb (fun x => same_part x.2 o) j.

Fixpoint same_walk (fuel : nat) (j1 j2 : list (Z * nat)) : bool :=
  match fuel with
  | O => true
  | S fuel =>
      match j1, j2 with
      | [], _ => all_go_to o1 j2
      | _, [] => all_go_to o2 j1
      | (c1, t1) :: j1', (c2, t2) :: j2' =>
          if c1 <? c2 then same_part t1 o2 && same_walk fuel j1' j2
          else if c1 =? c2 then same_part t1 t2 && same_walk fuel j1' j2'
          else same_part o1 t2 && same_walk fuel j1 j2'
      end
  end.
End same_mappings.

Definition same_mappings (m : parts) (s1 s2 : State) : bool :=
  let j1 := sorted_items (trans s1) in
  let j2 := sorted_items (trans s2) in
  same_part m (otherwise s1) (otherwise s2) &&
  same_walk m (otherwise s1) (otherwise s2) (S (length j1 + length j2)) j1 j2.

Definition state_at (d : DFA) (l : nat) : State :=
  default (MkState 0 0 perms_clear ∅ l (∅, None)) (heap d !! l).

(** The initial partitions: the start state alone, the others by permissions, in
    the order they are found. *)
Fixpoint add_to_perms (d : DFA) (p : perms_t) (l : nat) (ps : list (list nat)) : option (list (list nat)) :=
  match ps with
  | [] => None
  | part :: ps' =>
      match part with
      | r :: _ => if decide (r <> start d /\ s_perms (state_at d r) = p) then Some ((part ++ [l]) :: ps')
                  else option_map (cons part) (add_to_perms d p l ps')
      | [] => option_map (cons part) (add_to_perms d p l ps')
      end
  end.
Definition initial_partitions (d : DFA) : list (list nat) :=
  fold_left (fun ps l =>
    if decide (l = start d) then ps ++ [[l]]
    else match add_to_perms d (s_perms (state_at d l)) l ps with
         | Some ps => ps
         | None => ps ++ [[l]]
         end) (states d) [].

Definition assign (part : list nat) (m : parts) : parts :=
  match part with
  | [] => m
  | r :: _ => fold_left (fun m l => <[l := r]> m) part m
  end.

(** One pass over the partitions; those that are split off are looked at next. *)
Fixpoint split_pass (d : DFA) (fuel : nat) (todo done : list (list nat)) (m : parts) (count : nat)
    : list (list nat) * parts * nat :=
  match fuel with
  | O => (done ++ todo, m, count)
  | S fuel =>
      match todo with
      | [] => (done, m, count)
      | [] :: todo' => split_pass d fuel todo' (done ++ [[]]) m count
      | (rep :: ls) :: todo' =>
          let same l := same_mappings m (state_at d rep) (state_at d l) in
          let stay := base.filter (fun l => same l = true) ls in
          let new_part := base.filter (fun l => same l = false) ls in
          match new_part with
          | [] => split_pass d fuel todo' (done ++ [rep :: stay]) m count
          | _ => split_pass d fuel (new_part :: todo') (done ++ [rep :: stay]) (assign new_part m) (S count)
          end
      end
  end.

Fixpoint refine_loop (d : DFA) (fuel : nat) (ps : list (list nat)) (m : parts) : list (list nat) * parts :=
  match fuel with
  | O => (ps, m)
  | S fuel =>
      let '(ps, m, count) := split_pass d (S (length (states d))) ps [] m 0 in
      match count with
      | O => (ps, m)
      | _ => refine_loop d fuel ps m
      end
  end.

(** The representative takes over the transitions to representatives; those that
    the default covers are dropped. *)
Definition remap_state (m : parts) (s : State) : State :=
  let o := part_of m (otherwise s) in
  MkState (flags s) (idx s) (s_perms s)
    (base.filter (fun x => x.2 <> o) (part_of m <$> trans s)) o (proto s).

(** [None] is the exception for a partition with different permissions. *)
Definition minimize (d : DFA) : option DFA :=
  let ps0 := initial_partitions d in
  let m0 := fold_left (fun m p => assign p m) ps0 ∅ in
  let '(ps, m) := refine_loop d (S (length (states d))) ps0 m0 in
  if decide (length ps = length (states d)) then Some d
  else if forallb (fun part => match part with
                               | [] => true
                               | r :: ls => forallb (fun l => perms_eqb (s_perms (state_at d r)) (s_perms (state_at d l))) ls
                               end) ps
  then
    let reps := omap head ps in
    let h := base.filter (fun x => x.1 ∈ reps) (remap_state m <$> heap d) in
    Some (MkDFA h (base.filter (fun l => l ∈ reps) (states d)) (part_of m (nonmatching d)) (part_of m (start d))
            (node_map d) (work_queue d) (uniq_perms d) (oob_range d) (max_range d) (ord_range d) (filedfa d))
  else None.

(** ** Runs of well-formed automata *)

Section runs.
Context (d : DFA) (Hwf : dfa_wf d).

Definition steps (l : nat) (w : list Z) : nat := fold_left (fun l c => target (state_at d l) c) w l.

Lemma state_at_heap l : l ∈ states d -> heap d !! l = Some (state_at d l).
Proof. intros Hl. apply (w_dom d Hwf) in Hl as [s Hs]. unfold state_at. by rewrite Hs. Qed.
Lemma target_in l c : l ∈ states d -> target (state_at d l) c ∈ states d.
Proof. intros Hl. by apply (w_target d Hwf l), state_at_heap. Qed.
Lemma steps_in l w : l ∈ states d -> steps l w ∈ states d.
Proof.
  unfold steps. revert l; induction w as [|c w IH]; intros l Hl; cbn; [done|]. by apply IH, target_in.
Qed.
Lemma next_target l c : l ∈ states d -> next d l c = Some (target (state_at d l) c).
Proof.
  intros Hl. unfold next; cbn. rewrite (state_at_heap l Hl), (w_flags d Hwf l _ (state_at_heap l Hl)).
  unfold target. by destruct (trans (state_at d l) !! c).
Qed.
Lemma match_len_steps l w : l ∈ states d -> match_len d l w = Some (steps l w).
Proof.
  revert l; induction w as [|c w IH]; intros l Hl; cbn; [done|].
  rewrite next_target by done. by apply IH, target_in.
Qed.
Lemma dfa_perms_steps w : dfa_perms d w = Some (s_perms (state_at d (steps (start d) w))).
Proof.
  unfold dfa_perms, perms_at. rewrite match_len_steps by apply (w_start d Hwf).
  by rewrite (state_at_heap _ (steps_in _ w (w_start d Hwf))).
Qed.
End runs.

(** What the construction gives is well formed. *)
Lemma built_wf order root fd fp d :
  (forall s, order s ≡ₚ elements s) -> built order root fd fp d -> dfa_wf d.
Proof.
  intros Hord HB.
  assert (Hin : forall t nodes, tnode d t nodes -> t ∈ states d).
  { intros t nodes (s & Hs & _). apply (b_states _ _ _ _ _ HB). by eexists. }
  split.
  - apply (b_states _ _ _ _ _ HB).
  - apply (b_nodup _ _ _ _ _ HB).
  - intros l s Hl. by apply (b_state _ _ _ _ _ HB l s Hl).
  - intros l s c Hl. destruct (b_trans _ _ _ _ _ HB l s Hl) as [Ht [Ho _]]. unfold target.
    destruct (trans s !! c) as [t|] eqn:Et; cbn; [|by eapply Hin].
    destruct (Ht c t Et) as (nodes & _ & Hn). by eapply Hin.
  - eapply Hin, (b_start _ _ _ _ _ HB).
  - eapply Hin, (b_nonmatching _ _ _ _ _ HB).
  - intros s c Hs. destruct (b_nonmatching _ _ _ _ _ HB) as (s' & Hs' & Hn).
    assert (s = s') as -> by congruence.
    destruct (b_nodes _ _ _ _ _ HB _ _ Hs) as [Hp _]. rewrite Hn in Hp.
    assert (Hc : cases_of order fp (proto s') = no_cases).
    { unfold cases_of. replace (order (proto s').1) with (@nil ImportantNode); [done|].
      symmetry; apply Permutation_nil_r. rewrite Hord.
      assert ((proto s').1 = ∅) as -> by (apply set_eq; intros n; rewrite Hp, proto_of_nnodes; set_solver).
      by rewrite elements_empty. }
    destruct (b_trans _ _ _ _ _ HB _ _ Hs) as [Ht [Ho _]]. rewrite Hc in Ho. unfold target.
    destruct (trans s' !! c) as [t|] eqn:Et; cbn.
    { destruct (Ht c t Et) as (nodes & Hcn & _). rewrite Hc in Hcn. cbn in Hcn; by rewrite lookup_empty in Hcn. }
    destruct Ho as (s2 & Hs2 & Hn2). apply (b_inj _ _ _ _ _ HB _ _ _ _ Hs2 Hs).
    destruct (b_nodes _ _ _ _ _ HB _ _ Hs2) as [Hp2 _]. rewrite Hp2, Hp, Hn2. done.
Qed.

Lemma create_dfa_wf order E root fd d :
  (forall s, order s ≡ₚ elements s) -> root_ok E root -> create_dfa order root fd = Some d -> dfa_wf d.
Proof.
  intros Hord Hroot Hd. pose proof (create_dfa_built order Hord E root fd Hroot) as HB. rewrite Hd in HB.
  destruct HB as [fp HB]. by apply (built_wf order root fd fp).
Qed.

(** A relation between the states of two automata that is kept by all
    characters and by the permissions. *)
Lemma simulation_equiv d d' (R : nat -> nat -> Prop) :
  dfa_wf d -> dfa_wf d' -> R (start d) (start d') ->
  (forall l l', l ∈ states d -> l' ∈ states d' -> R l l' ->
     s_perms (state_at d l) = s_perms (state_at d' l') /\
     forall c, R (target (state_at d l) c) (target (state_at d' l') c)) ->
  dfa_equiv d d'.
Proof.
  intros Hd Hd' Hs Hsim w. rewrite !dfa_perms_steps by done. f_equal.
  assert (G : forall w l l', l ∈ states d -> l' ∈ states d' -> R l l' ->
            s_perms (state_at d (steps d l w)) = s_perms (state_at d' (steps d' l' w))).
  { clear w; induction w as [|c w IH]; intros l l' Hl Hl' HR; [by apply Hsim|].
    cbn. apply IH; [by apply target_in..|]. by apply Hsim. }
  apply G; [apply (w_start d Hd)|apply (w_start d' Hd')|done].
Qed.

(** ** Clearing denied permissions *)

Lemma state_clear_deny_heap l d :
  heap (state_clear_deny l d).1 = alter (fun s => set_perms_of (Accept.apply_and_clear_deny (s_perms s)).1 s) l (heap d).
Proof.
  unfold state_clear_deny. destruct (heap d !! l) as [s|] eqn:El.
  - destruct (Accept.apply_and_clear_deny (s_perms s)) as [p r] eqn:Ep. cbn.
    apply map_eq; intros k. destruct (decide (k = l)) as [->|Hne].
    + rewrite !lookup_alter_eq, El; cbn. by rewrite Ep.
    + by rewrite !lookup_alter_ne.
  - cbn. apply map_eq; intros k. destruct (decide (k = l)) as [->|Hne]; [by rewrite lookup_alter_eq, El|].
    by rewrite lookup_alter_ne.
Qed.

(** The pass changes the permissions of every state and nothing else. *)
Lemma clear_deny_spec ls d c :
  NoDup ls ->
  let d' := (fold_left (fun '(d, c) l => let '(d, r) := state_clear_deny l d in (d, c + r)) ls (d, c)).1 in
  (forall l, heap d' !! l =
     if decide (l ∈ ls) then (fun s => set_perms_of (Accept.apply_and_clear_deny (s_perms s)).1 s) <$> heap d !! l
     else heap d !! l) /\
  states d' = states d /\ start d' = start d /\ nonmatching d' = nonmatching d.
Proof.
  revert d c; induction ls as [|k ls IH]; intros d c Hnd; cbn [fold_left].
  { split; [|done]. intros l. rewrite decide_False; [done|]. by inversion 1. }
  apply NoDup_cons in Hnd as [Hk Hnd].
  pose proof (state_clear_deny_heap k d) as Hh.
  assert (Hst : states (state_clear_deny k d).1 = states d /\ start (state_clear_deny k d).1 = start d /\
                nonmatching (state_clear_deny k d).1 = nonmatching d).
  { unfold state_clear_deny. destruct (heap d !! k); [|done]. by destruct (Accept.apply_and_clear_deny _). }
  destruct (state_clear_deny k d) as [d1 r]. cbn [fst] in *.
  destruct (IH d1 (c + r) Hnd) as (H1 & H2 & H3 & H4). destruct Hst as (S1 & S2 & S3).
  split_and!; [|congruence..]. intros l. rewrite H1, Hh.
  destruct (decide (l = k)) as [->|Hne].
  - rewrite decide_False by done. rewrite decide_True by constructor. by rewrite lookup_alter_eq.
  - rewrite lookup_alter_ne by done. destruct (decide (l ∈ ls)).
    + by rewrite decide_True by (by constructor).
    + rewrite decide_False; [done|]. by intros [?|?]%elem_of_cons.
Qed.

Lemma clear_deny_state d l :
  dfa_wf d -> l ∈ states d ->
  state_at (dfa_apply_and_clear_deny d).1 l =
  set_perms_of (Accept.apply_and_clear_deny (s_perms (state_at d l))).1 (state_at d l).
Proof.
  intros Hwf Hl. destruct (clear_deny_spec (states d) d 0 (w_nodup d Hwf)) as [H _].
  unfold state_at at 1. unfold dfa_apply_and_clear_deny. rewrite H, decide_True by done.
  by rewrite (state_at_heap d Hwf l Hl).
Qed.
Lemma clear_deny_wf d : dfa_wf d -> dfa_wf (dfa_apply_and_clear_deny d).1.
Proof.
  intros Hwf. destruct (clear_deny_spec (states d) d 0 (w_nodup d Hwf)) as (H & Hst & Hs & Hn).
  fold (dfa_apply_and_clear_deny d) in *. set (d' := (dfa_apply_and_clear_deny d).1) in *.
  assert (Hlook : forall l s, heap d' !! l = Some s -> exists s0, heap d !! l = Some s0 /\
            flags s = flags s0 /\ trans s = trans s0 /\ otherwise s = otherwise s0).
  { intros l s. rewrite H. destruct (decide _); [|eauto]. destruct (heap d !! l); cbn; [|done].
    intros [= <-]. eexists; by split_and!. }
  split; rewrite ?Hst, ?Hs, ?Hn;
    [|apply (w_nodup d Hwf)| | |apply (w_start d Hwf)|apply (w_nonmatching d Hwf)|].
  - intros l. rewrite <- (w_dom d Hwf), H. destruct (decide _); [apply fmap_is_Some|done].
  - intros l s Hl. destruct (Hlook l s Hl) as (s0 & H0 & -> & _). by apply (w_flags d Hwf l).
  - intros l s c Hl. destruct (Hlook l s Hl) as (s0 & H0 & _ & E1 & E2). unfold target. rewrite E1, E2.
    by apply (w_target d Hwf l s0 c).
  - intros s c Hl. destruct (Hlook _ s Hl) as (s0 & H0 & _ & E1 & E2). unfold target. rewrite E1, E2.
    by apply (w_trap d Hwf s0 c).
Qed.

(** Clearing the denied permissions gives every string the permissions it had
    with the denied ones applied; the states and transitions are untouched. *)
Lemma dfa_clear_deny_perms d w :
  dfa_wf d ->
  dfa_perms (dfa_apply_and_clear_deny d).1 w = (fun p => (Accept.apply_and_clear_deny p).1) <$> dfa_perms d w.
Proof.
  intros Hwf. pose proof (clear_deny_wf d Hwf) as Hwf'. rewrite !dfa_perms_steps by done.
  destruct (clear_deny_spec (states d) d 0 (w_nodup d Hwf)) as (_ & Hst & Hs & _).
  fold (dfa_apply_and_clear_deny d) in Hst, Hs. cbn. f_equal.
  assert (G : forall w l, l ∈ states d -> steps (dfa_apply_and_clear_deny d).1 l w = steps d l w).
  { clear w; induction w as [|c w IH]; intros l Hl; [done|]. cbn. rewrite clear_deny_state by done.
    apply IH. by apply (target_in d Hwf). }
  rewrite Hs, G by apply (w_start d Hwf). rewrite clear_deny_state; [done|done|].
  apply (steps_in d Hwf), (w_start d Hwf).
Qed.

(** ** Unreachable states *)

(** A state that some string of characters leads to. *)
Definition reached (d : DFA) (l : nat) : Prop := exists w, steps d (start d) w = l.

(** Invariant of the search: what is in [reachable] is reached or is the
    nonmatching state; the successors of all but the queued are in it. *)
Record reach_inv (d : DFA) (x : list nat * gset nat) : Prop := {
  ri_queue : forall l, l ∈ x.1 -> l ∈ x.2;
  ri_nodup : NoDup x.1;
  ri_start : start d ∈ x.2;
  ri_non : nonmatching d ∈ x.2;
  ri_states : forall l, l ∈ x.2 -> l ∈ states d;
  ri_reached : forall l, l ∈ x.2 -> l = nonmatching d \/ reached d l;
  ri_queued : forall l, l ∈ x.1 -> reached d l;
  ri_closed : forall l c, l ∈ x.2 -> reached d l -> l ∉ x.1 -> target (state_at d l) c ∈ x.2
}.

Section unreachable.
Context (d : DFA) (Hwf : dfa_wf d).

Lemma reached_target l c : reached d l -> reached d (target (state_at d l) c).
Proof. intros [w <-]. exists (w ++ [c]). unfold steps. by rewrite fold_left_app. Qed.

(** Elements that are new to the set are queued; the number of states that were
    not seen and the queue shrink together. *)
Definition unseen (x : list nat * gset nat) : nat := (length (states d) - size x.2 + length x.1)%nat.

Lemma size_reach (x : list nat * gset nat) : (forall l, l ∈ x.2 -> l ∈ states d) -> (size (x.2 : gset nat) <= length (states d))%nat.
Proof.
  intros H. change (size x.2) with (length (elements x.2)).
  apply submseteq_length, NoDup_submseteq; [apply NoDup_elements|]. intros l Hl. by apply H, elem_of_elements.
Qed.

(** What pushing reached states preserves. *)
Record pushes (from : nat) (x y : list nat * gset nat) : Prop := {
  p_set : forall l, l ∈ y.2 -> l ∈ x.2 \/ (l ∈ y.1 /\ l ∉ x.2);
  p_sub : forall l, l ∈ x.2 -> l ∈ y.2;
  p_queue : exists new, y.1 = x.1 ++ new /\ NoDup new /\ (forall l, l ∈ new -> l ∉ x.2 /\ l ∈ y.2) /\
    (forall l, l ∈ new -> exists c, target (state_at d from) c = l);
  p_size : (size (y.2 : gset nat) + length x.1 = size (x.2 : gset nat) + length y.1)%nat
}.
Lemma pushes_refl from x : pushes from x x.
Proof.
  split; auto. exists []; rewrite app_nil_r; split_and!; [done|constructor|by inversion 1..].
Qed.
Lemma pushes_push from x t c :
  target (state_at d from) c = t -> t ∉ x.2 -> pushes from x (push_reachable t x).
Proof.
  intros Hc Ht. destruct x as [q r]; cbn in *. split; cbn.
  - intros l [Hl|Hl]%elem_of_union; [by left|]. apply elem_of_singleton in Hl as ->. right; split; [|done].
    apply elem_of_app; right; by constructor.
  - intros l Hl. apply elem_of_union; by left.
  - exists [t]; split_and!; [done|apply NoDup_singleton| |].
    + intros l Hl. apply list_elem_of_singleton in Hl as ->. split; [done|].
      apply elem_of_union; right. by apply elem_of_singleton.
    + intros l Hl. apply list_elem_of_singleton in Hl as ->. by exists c.
  - rewrite size_union, size_singleton, length_app; cbn; [lia|]. intros y H1 H2.
    apply elem_of_singleton in H2 as ->. done.
Qed.
Lemma pushes_trans from x y z : pushes from x y -> pushes from y z -> pushes from x z.
Proof.
  intros [A1 A2 (n1 & A3 & A4 & A5 & A6) A7] [B1 B2 (n2 & B3 & B4 & B5 & B6) B7]. split.
  - intros l Hl. destruct (B1 l Hl) as [Hy|[Hz Hny]].
    + destruct (A1 l Hy) as [Hx|[Hyq Hnx]]; [by left|right; split; [|done]].
      rewrite B3. apply elem_of_app; by left.
    + right; split; [done|]. intros Hx; by apply Hny, A2.
  - auto.
  - exists (n1 ++ n2). rewrite B3, A3, app_assoc; split_and!; [done| | |].
    + apply NoDup_app; split_and!; [done| |done]. intros l H1 H2. apply (B5 l H2), (A5 l H1).
    + intros l [H|H]%elem_of_app.
      * destruct (A5 l H); auto.
      * destruct (B5 l H) as [Hn Hz]. split; [|done]. intros Hx; by apply Hn, A2.
    + intros l [H|H]%elem_of_app; auto.
  - lia.
Qed.

Lemma reach_step_inv x :
  reach_inv d x ->
  match reach_step d x with
  | inl y => reach_inv d y /\ (unseen y < unseen x)%nat
  | inr r => reach_inv d ([], r)
  end.
Proof.
  intros HI. unfold reach_step. destruct x as [[|from q] r]; cbn [fst snd] in *; [done|].
  pose proof (ri_queue _ _ HI) as RQ. pose proof (ri_states _ _ HI) as RS. cbn [fst snd] in RQ, RS.
  pose proof (ri_reached _ _ HI) as RR. pose proof (ri_queued _ _ HI) as RQ'. cbn [fst snd] in RR, RQ'.
  pose proof (ri_non _ _ HI) as RN. pose proof (ri_start _ _ HI) as RT. cbn [fst snd] in RN, RT.
  assert (Hfs : from ∈ states d) by (apply RS, RQ; by constructor).
  assert (Hfr : reached d from) by (apply RQ'; by constructor).
  rewrite (state_at_heap d Hwf from Hfs). set (s := state_at d from).
  set (x1 := if decide _ then _ else _).
  assert (Hfresh : exists c, trans s !! c = None).
  { exists (fresh (dom (trans s))). apply not_elem_of_dom, is_fresh. }
  assert (Ho : exists c, target (state_at d from) c = otherwise s).
  { destruct Hfresh as [c Hc]. exists c. unfold target. fold s. by rewrite Hc. }
  assert (H1 : pushes from (q, r) x1 /\ otherwise s ∈ x1.2).
  { unfold x1. cbn [snd]. destruct (decide _) as [[Hne Hn]|Hn].
    - destruct Ho as [c Hc]. split; [by eapply pushes_push|]. cbn. apply elem_of_union; right.
      by apply elem_of_singleton.
    - split; [apply pushes_refl|]. cbn. destruct (decide (otherwise s = nonmatching d)) as [->|Hne]; [done|].
      destruct (decide (otherwise s ∈ r)); tauto. }
  clearbody x1. destruct H1 as [H1 Hox1].
  set (y := fold_left _ _ x1).
  assert (H2 : pushes from (q, r) y /\ otherwise s ∈ y.2 /\
               forall c t, trans s !! c = Some t -> t ∈ y.2).
  { assert (G : forall js x, (forall c t, (c, t) ∈ js -> trans s !! c = Some t) -> pushes from (q, r) x ->
      let y := fold_left (fun x '(_, t) => if decide (t ∈ x.2) then x else push_reachable t x) js x in
      pushes from (q, r) y /\ (forall l, l ∈ x.2 -> l ∈ y.2) /\ (forall c t, (c, t) ∈ js -> t ∈ y.2)).
    { clear y. induction js as [|[c t] js IH]; intros x Hjs Hx; cbn.
      - split_and!; [done..|]. by inversion 1.
      - assert (Hct : target (state_at d from) c = t).
        { unfold target. fold s. by rewrite (Hjs c t) by constructor. }
        assert (Hx' : pushes from (q, r) (if decide (t ∈ x.2) then x else push_reachable t x) /\
          t ∈ (if decide (t ∈ x.2) then x else push_reachable t x).2 /\
          forall l, l ∈ x.2 -> l ∈ (if decide (t ∈ x.2) then x else push_reachable t x).2).
        { destruct (decide (t ∈ x.2)); [by split_and!|]. split_and!.
          - eapply pushes_trans; [done|by eapply pushes_push].
          - cbn. apply elem_of_union; right; by apply elem_of_singleton.
          - intros l Hl; cbn. apply elem_of_union; by left. }
        destruct Hx' as (P1 & P2 & P3).
        destruct (IH _ ltac:(intros; apply Hjs; by constructor) P1) as (Q1 & Q2 & Q3).
        split_and!; [done|by auto|]. intros c' t' [[= -> ->]|Hin]%elem_of_cons; [by auto|by eapply Q3]. }
    destruct (G (sorted_items (trans s)) x1) as (G1 & G2 & G3); [intros c t; by apply sorted_items_elem|done|].
    split_and!; [done|by apply G2|]. intros c t Hc. eapply G3. by apply sorted_items_elem. }
  clearbody y. destruct H2 as ([P1 P2 (new & P3 & P4 & P5 & P6) P7] & Hoy & Hty). cbn [fst snd] in *.
  assert (Hnewreach : forall l, l ∈ new -> reached d l).
  { intros l Hl. destruct (P6 l Hl) as [c <-]. by apply reached_target. }
  assert (HqNd : NoDup (from :: q)) by apply (ri_nodup _ _ HI). apply NoDup_cons in HqNd as [Hfq HqNd].
  assert (Hstates : forall l, l ∈ y.2 -> l ∈ states d).
  { intros l Hl. destruct (P1 l Hl) as [Hr|[Hy Hn]]; [by apply RS|]. rewrite P3 in Hy.
    apply elem_of_app in Hy as [Hy|Hy]; [apply RS, RQ; by constructor|].
    destruct (P6 l Hy) as [c <-]. by apply target_in. }
  split; [split|].
  - intros l. rewrite P3. intros [Hl|Hl]%elem_of_app; [apply P2, RQ; by constructor|by apply P5].
  - rewrite P3. apply NoDup_app; split_and!; [done| |done]. intros l Hl Hn. apply (P5 l Hn), RQ; by constructor.
  - by apply P2.
  - by apply P2.
  - done.
  - intros l Hl. destruct (P1 l Hl) as [Hr|[Hy Hn]]; [by apply RR|]. right. rewrite P3 in Hy.
    apply elem_of_app in Hy as [Hy|Hy]; [apply RQ'; by constructor|by apply Hnewreach].
  - intros l. rewrite P3. intros [Hl|Hl]%elem_of_app; [apply RQ'; by constructor|by apply Hnewreach].
  - intros l c Hl Hr Hnq. destruct (decide (l = from)) as [->|Hne].
    + unfold target. fold s. destruct (trans s !! c) as [t|] eqn:Et; cbn; [by eapply Hty|done].
    + destruct (P1 l Hl) as [Hlr|[Hy _]]; [|done]. apply P2. apply (ri_closed _ _ HI l c Hlr Hr).
      cbn. intros [?|Hin]%elem_of_cons; [done|]. apply Hnq. rewrite P3. apply elem_of_app; by left.
  - unfold unseen; cbn [fst snd]. pose proof (size_reach y Hstates).
    pose proof (size_reach (from :: q, r) (ri_states _ _ HI)). cbn in *. lia.
Qed.

Lemma reachable_states_spec : reach_inv d ([], reachable_states d).
Proof.
  unfold reachable_states.
  destruct (ploop_spec (reach_step d) (reach_inv d) (fun r => reach_inv d ([], r)) unseen
    (Pos.of_succ_nat (S (length (states d)))) (push_reachable (start d) ([], {[nonmatching d]})))
    as (r & -> & Hr); [by apply reach_step_inv| | |done].
  - split; cbn.
    + intros l Hl. apply list_elem_of_singleton in Hl as ->. set_solver.
    + apply NoDup_singleton.
    + set_solver.
    + set_solver.
    + intros l. rewrite elem_of_union, !elem_of_singleton. intros [-> | ->]; [apply (w_nonmatching d Hwf)|apply (w_start d Hwf)].
    + intros l. rewrite elem_of_union, !elem_of_singleton. intros [-> | ->]; [by left|right; by exists []].
    + intros l Hl. apply list_elem_of_singleton in Hl as ->. by exists [].
    + intros l c. rewrite elem_of_union, !elem_of_singleton, list_elem_of_singleton. intros [-> | ->]; [|done].
      intros _ _. rewrite (w_trap d Hwf); [set_solver|]. apply (state_at_heap d Hwf), (w_nonmatching d Hwf).
  - unfold unseen; cbn [push_reachable fst snd app length]. rewrite SuccNat2Pos.id_succ. lia.
Qed.

Lemma remove_unreachable_states l :
  l ∈ states (remove_unreachable d) <-> l ∈ states d /\ l ∈ reachable_states d.
Proof.
  unfold remove_unreachable. destruct (Nat.ltb_spec (size (reachable_states d)) (length (states d))) as [Hlt|Hge].
  - cbn. rewrite list_elem_of_filter. tauto.
  - split; [|tauto]. intros Hl. split; [done|].
    (* all states were found *)
    assert (Hperm : elements (reachable_states d) ≡ₚ states d).
    { apply submseteq_length_Permutation; [|done].
      apply NoDup_submseteq; [apply NoDup_elements|]. intros k Hk.
      apply (ri_states _ _ reachable_states_spec). by apply elem_of_elements. }
    apply elem_of_elements. by rewrite Hperm.
Qed.
Lemma remove_unreachable_heap l :
  heap (remove_unreachable d) !! l = if decide (l ∈ reachable_states d) then heap d !! l else None.
Proof.
  pose proof (remove_unreachable_states l) as Hst. revert Hst. unfold remove_unreachable.
  destruct (size (reachable_states d) <? length (states d))%nat; cbn; intros Hst.
  - apply option_eq; intros s. rewrite map_lookup_filter_Some; cbn. destruct (decide _); [tauto|].
    split; [tauto|done].
  - destruct (decide _) as [|Hn]; [done|]. apply eq_None_not_Some. rewrite (w_dom d Hwf). tauto.
Qed.

Lemma remove_unreachable_fields :
  start (remove_unreachable d) = start d /\ nonmatching (remove_unreachable d) = nonmatching d /\
  NoDup (states (remove_unreachable d)).
Proof.
  unfold remove_unreachable. destruct (_ <? _)%nat; cbn; split_and!; try done; [|apply (w_nodup d Hwf)].
  apply NoDup_filter, (w_nodup d Hwf).
Qed.

Lemma remove_unreachable_wf : dfa_wf (remove_unreachable d).
Proof.
  destruct remove_unreachable_fields as (Hs & Hn & Hnd). pose proof reachable_states_spec as HR.
  assert (Hlook : forall l s, heap (remove_unreachable d) !! l = Some s ->
            heap d !! l = Some s /\ l ∈ reachable_states d).
  { intros l s. rewrite remove_unreachable_heap. by destruct (decide _). }
  split; rewrite ?Hs, ?Hn.
  - intros l. rewrite remove_unreachable_states, <- (w_dom d Hwf), remove_unreachable_heap.
    destruct (decide _); [tauto|]. split; [by intros []|tauto].
  - done.
  - intros l s Hl. by eapply (w_flags d Hwf), Hlook.
  - intros l s c Hl. destruct (Hlook l s Hl) as [Hd Hr]. apply remove_unreachable_states.
    assert (Es : s = state_at d l) by (unfold state_at; by rewrite Hd).
    split; [by apply (w_target d Hwf l)|].
    destruct (ri_reached _ _ HR l Hr) as [->|Hre].
    + rewrite (w_trap d Hwf s c Hd). apply (ri_non _ _ HR).
    + rewrite Es. apply (ri_closed _ _ HR l c Hr Hre). by inversion 1.
  - apply remove_unreachable_states. split; [apply (w_start d Hwf)|apply (ri_start _ _ HR)].
  - apply remove_unreachable_states. split; [apply (w_nonmatching d Hwf)|apply (ri_non _ _ HR)].
  - intros s c Hl. by apply (w_trap d Hwf), Hlook.
Qed.

Lemma state_at_remove l : l ∈ states (remove_unreachable d) -> state_at (remove_unreachable d) l = state_at d l.
Proof.
  intros Hl. apply remove_unreachable_states in Hl as [_ Hr]. unfold state_at.
  by rewrite remove_unreachable_heap, decide_True.
Qed.
End unreachable.

Lemma remove_unreachable_equiv d : dfa_wf d -> dfa_equiv (remove_unreachable d) d.
Proof.
  intros Hwf. pose proof (remove_unreachable_wf d Hwf) as Hwf'.
  destruct (remove_unreachable_fields d Hwf) as (Hs & Hn & _).
  apply (simulation_equiv _ _ eq); [done..|].
  intros l l' Hl _ <-. rewrite state_at_remove by done. done.
Qed.



(** ** Minimisation *)

(** *** Comparing the transitions of two states *)

Fixpoint alookup (c : Z) (js : list (Z * nat)) : option nat :=
  match js with
  | [] => None
  | (c', t) :: js => if c =? c' then Some t else alookup c js
  end.
(** The keys ascend strictly. *)
Fixpoint ascending (js : list (Z * nat)) : Prop :=
  match js with
  | [] => True
  | (c, _) :: js => Forall (fun x => c < x.1) js /\ ascending js
  end.

Lemma alookup_above c js : Forall (fun x : Z * nat => c < x.1) js -> alookup c js = None.
Proof.
  induction 1 as [|[c' t] js Hc _ IH]; cbn in *; [done|]. destruct (Z.eqb_spec c c'); [lia|done].
Qed.
Lemma ascending_above c js c' t :
  c < c' -> ascending ((c', t) :: js) -> Forall (fun x : Z * nat => c < x.1) ((c', t) :: js).
Proof.
  intros Hc [Hj _]. constructor; [done|]. eapply Forall_impl; [done|]. cbn. lia.
Qed.

Lemma same_walk_spec m o1 o2 fuel j1 j2 :
  (length j1 + length j2 < fuel)%nat -> ascending j1 -> ascending j2 ->
  part_of m o1 = part_of m o2 ->
  same_walk m o1 o2 fuel j1 j2 = true <->
  forall c, part_of m (default o1 (alookup c j1)) = part_of m (default o2 (alookup c j2)).
Proof.
  assert (Hall : forall o js, ascending js ->
    all_go_to m o js = true <-> forall c, part_of m (default o (alookup c js)) = part_of m o).
  { clear. intros o js. induction js as [|[c t] js IH]; cbn [ascending all_go_to forallb alookup snd]; [done|].
    intros [Hc Hj]. rewrite andb_true_iff. unfold all_go_to in IH. rewrite (IH Hj).
    unfold same_part at 1. rewrite Nat.eqb_eq. split.
    - intros [H1 H2] c'. destruct (Z.eqb_spec c' c); [done|apply H2].
    - intros H. split; [specialize (H c); by rewrite Z.eqb_refl in H|].
      intros c'. destruct (decide (c' = c)) as [->|Hne]; [by rewrite alookup_above|].
      specialize (H c'). by rewrite (proj2 (Z.eqb_neq c' c) Hne) in H. }
  revert j1 j2; induction fuel as [|fuel IH]; intros j1 j2 Hf H1 H2 Ho; [lia|].
  destruct j1 as [|[c1 t1] j1]; cbn [same_walk].
  { rewrite Hall by done. cbn [alookup default].
    split; intros H c; specialize (H c); destruct (alookup c j2); cbn in *; congruence. }
  destruct j2 as [|[c2 t2] j2].
  { rewrite Hall by done.
    split; intros H c; specialize (H c); destruct (alookup c ((c1, t1) :: j1)); cbn in *; congruence. }
  destruct (Z.ltb_spec c1 c2) as [Hlt|Hge]; [|destruct (Z.eqb_spec c1 c2) as [->|Hne]].
  - rewrite andb_true_iff, IH; [|cbn in *; lia|apply H1|done|done]. unfold same_part; rewrite Nat.eqb_eq.
    pose proof (alookup_above c1 ((c2, t2) :: j2) (ascending_above _ _ _ _ Hlt H2)) as Hn2.
    pose proof (alookup_above c1 j1 (proj1 H1)) as Hn1. split.
    + intros [Ht H] c. cbn [alookup]. destruct (Z.eqb_spec c c1) as [->|]; [|apply H].
      change (alookup c1 ((c2, t2) :: j2)) with (if c1 =? c2 then Some t2 else alookup c1 j2) in Hn2.
      by rewrite Hn2.
    + intros H. split.
      * specialize (H c1). cbn [alookup] in H, Hn2. rewrite Z.eqb_refl, Hn2 in H. done.
      * intros c. destruct (decide (c = c1)) as [->|Hne]; [by rewrite Hn1, Hn2|].
        specialize (H c). cbn [alookup] in H |- *. by rewrite (proj2 (Z.eqb_neq c c1) Hne) in H.
  - rewrite andb_true_iff, IH; [|cbn in *; lia|apply H1|apply H2|done]. unfold same_part; rewrite Nat.eqb_eq.
    pose proof (alookup_above c2 j1 (proj1 H1)) as Hn1. pose proof (alookup_above c2 j2 (proj1 H2)) as Hn2. split.
    + intros [Ht H] c. cbn [alookup]. destruct (Z.eqb_spec c c2); [done|apply H].
    + intros H. split; [specialize (H c2); cbn [alookup] in H; by rewrite Z.eqb_refl in H|].
      intros c. destruct (decide (c = c2)) as [->|Hne]; [by rewrite Hn1, Hn2|].
      specialize (H c). cbn [alookup] in H. by rewrite (proj2 (Z.eqb_neq c c2) Hne) in H.
  - assert (Hlt : c2 < c1) by lia.
    rewrite andb_true_iff, IH; [|cbn in *; lia|done|apply H2|done]. unfold same_part; rewrite Nat.eqb_eq.
    pose proof (alookup_above c2 ((c1, t1) :: j1) (ascending_above _ _ _ _ Hlt H1)) as Hn1.
    pose proof (alookup_above c2 j2 (proj1 H2)) as Hn2. cbn [alookup] in Hn1. split.
    + intros [Ht H] c. cbn [alookup]. destruct (Z.eqb_spec c c2) as [->|]; [|apply H]. by rewrite Hn1.
    + intros H. split.
      * specialize (H c2). cbn [alookup] in H. rewrite Z.eqb_refl, Hn1 in H. done.
      * intros c. destruct (decide (c = c2)) as [->|Hne']; [cbn [alookup]; by rewrite Hn1, Hn2|].
        specialize (H c). cbn [alookup] in H |- *. by rewrite (proj2 (Z.eqb_neq c c2) Hne') in H.
Qed.

Lemma sorted_items_ascending (mm : gmap Z nat) : ascending (sorted_items mm).
Proof.
  assert (Hs : StronglySorted key_le (sorted_items mm)).
  { apply StronglySorted_merge_sort; [intros x y z; unfold key_le; lia|].
    intros x y; unfold key_le. destruct (Z.le_gt_cases x.1 y.1); [by left|right; lia]. }
  assert (Hnd : NoDup (sorted_items mm).*1).
  { unfold sorted_items. rewrite merge_sort_Permutation. apply NoDup_fst_map_to_list. }
  induction Hs as [|[c t] js _ IH Hc]; cbn in *; [done|]. apply NoDup_cons in Hnd as [Hn Hnd].
  split; [|by apply IH]. rewrite Forall_forall in Hc |- *. intros [c' t'] Hin. specialize (Hc _ Hin).
  unfold key_le in Hc; cbn in *. assert (c <> c'); [|lia]. intros ->. apply Hn.
  apply list_elem_of_fmap. by exists (c', t').
Qed.
Lemma alookup_sorted (mm : gmap Z nat) c : alookup c (sorted_items mm) = mm !! c.
Proof.
  assert (G : forall js t, ascending js -> alookup c js = Some t <-> (c, t) ∈ js).
  { induction js as [|[c' t'] js IH]; intros t Ha; cbn; [split; [done|by inversion 1]|].
    rewrite elem_of_cons. destruct Ha as [H1 H2]. destruct (Z.eqb_spec c c') as [->|Hne].
    - split; [intros [= ->]; by left|]. intros [[= ->]|Hin]; [done|].
      rewrite Forall_forall in H1. specialize (H1 _ Hin). cbn in H1; lia.
    - rewrite (IH t H2). split; [by right|]. intros [[= -> ->]|]; done. }
  apply option_eq; intros t. rewrite G by apply sorted_items_ascending. apply sorted_items_elem.
Qed.

(** [same_mappings] is the comparison of the targets of all characters. *)
Lemma same_mappings_spec m s1 s2 :
  same_mappings m s1 s2 = true <-> forall c, part_of m (target s1 c) = part_of m (target s2 c).
Proof.
  unfold same_mappings. rewrite andb_true_iff. unfold same_part at 1. rewrite Nat.eqb_eq.
  assert (G : part_of m (otherwise s1) = part_of m (otherwise s2) ->
    same_walk m (otherwise s1) (otherwise s2) (S (length (sorted_items (trans s1)) + length (sorted_items (trans s2))))
      (sorted_items (trans s1)) (sorted_items (trans s2)) = true <->
    forall c, part_of m (target s1 c) = part_of m (target s2 c)).
  { intros Ho. rewrite same_walk_spec; [|lia|apply sorted_items_ascending..|done].
    unfold target. by setoid_rewrite alookup_sorted. }
  split; [intros [Ho H]; by apply G|]. intros H.
  assert (Ho : part_of m (otherwise s1) = part_of m (otherwise s2)).
  { specialize (H (fresh (dom (trans s1) ∪ dom (trans s2)))). unfold target in H.
    pose proof (is_fresh (dom (trans s1) ∪ dom (trans s2))) as Hf. apply not_elem_of_union in Hf as [F1 F2].
    apply not_elem_of_dom in F1, F2. by rewrite F1, F2 in H. }
  split; [done|]. by apply G.
Qed.

Lemma same_mappings_false m s1 s2 :
  same_mappings m s1 s2 = false -> exists c, part_of m (target s1 c) <> part_of m (target s2 c).
Proof.
  intros Hf. set (F := dom (trans s1) ∪ dom (trans s2)). set (f := fresh F).
  destruct (decide (set_Forall (fun c => part_of m (target s1 c) = part_of m (target s2 c)) (F ∪ {[f]}))) as [Hall|Hn].
  - exfalso. apply not_true_iff_false in Hf. apply Hf, same_mappings_spec. intros c.
    destruct (decide (c ∈ F)) as [Hc|Hc]; [by apply Hall, elem_of_union; left|].
    assert (Hff : f ∉ F) by apply is_fresh.
    assert (Ho : forall x, x ∉ F -> target s1 x = otherwise s1 /\ target s2 x = otherwise s2).
    { intros x [X1 X2]%not_elem_of_union. apply not_elem_of_dom in X1, X2. unfold target. by rewrite X1, X2. }
    destruct (Ho c Hc) as [-> ->]. destruct (Ho f Hff) as [<- <-]. apply Hall, elem_of_union; right.
    by apply elem_of_singleton.
  - apply not_set_Forall_Exists in Hn as (c & _ & Hc); [|apply _]. by exists c.
Qed.

(** *** Partitions *)

Lemma elem_of_concat {A} (x : A) ps : x ∈ concat ps <-> exists p, x ∈ p /\ p ∈ ps.
Proof.
  rewrite list_elem_of_In, in_concat. split; intros (p & H1 & H2); exists p; by rewrite !list_elem_of_In in *.
Qed.

Lemma filter_all {A} (P : A -> Prop) `{!forall x, Decision (P x)} (l : list A) :
  Forall P l -> base.filter P l = l.
Proof. induction 1 as [|x l Hx _ IH]; [done|]. rewrite filter_cons, decide_True by done. by rewrite IH. Qed.

Lemma assign_lookup r ls m l :
  assign (r :: ls) m !! l = if decide (l ∈ r :: ls) then Some r else m !! l.
Proof.
  unfold assign. assert (G : forall ks (m : parts), fold_left (fun m l => <[l := r]> m) ks m !! l =
                                          if decide (l ∈ ks) then Some r else m !! l); [|apply G].
  clear. induction ks as [|k ks IH]; intros m; cbn; [by rewrite decide_False by (by inversion 1)|].
  rewrite IH. destruct (decide (l ∈ ks)), (decide (l ∈ k :: ks)) as [Hin|Hin]; try done.
  - exfalso; apply Hin; by constructor.
  - apply elem_of_cons in Hin as [->|]; [by rewrite lookup_insert_eq|done].
  - rewrite lookup_insert_ne; [done|]. intros ->; apply Hin; constructor.
Qed.

Section refinement.
Context (d : DFA) (Hwf : dfa_wf d).

(** What tells states apart at once: the permissions, and being the start. *)
Definition obs (l : nat) : perms_t * bool := (s_perms (state_at d l), bool_decide (l = start d)).
Definition told_apart (l l' : nat) : Prop := exists w, obs (steps d l w) <> obs (steps d l' w).

Record part_inv (ps : list (list nat)) (m : parts) : Prop := {
  pi_perm : concat ps ≡ₚ states d;
  pi_ne : Forall (fun p => p <> []) ps;
  pi_map : forall r ls l, (r :: ls) ∈ ps -> l ∈ r :: ls -> m !! l = Some r;
  pi_obs : forall r ls l, (r :: ls) ∈ ps -> l ∈ r :: ls -> obs l = obs r;
  pi_dist : forall l l', l ∈ states d -> l' ∈ states d -> part_of m l <> part_of m l' -> told_apart l l'
}.

Lemma pi_part ps m r ls l : part_inv ps m -> (r :: ls) ∈ ps -> l ∈ r :: ls -> part_of m l = r.
Proof. intros HI Hp Hl. unfold part_of. by rewrite (pi_map _ _ HI r ls l Hp Hl). Qed.
Lemma pi_states ps m r ls l : part_inv ps m -> (r :: ls) ∈ ps -> l ∈ r :: ls -> l ∈ states d.
Proof. intros HI Hp Hl. rewrite <- (pi_perm _ _ HI). apply elem_of_concat. eauto. Qed.
Lemma pi_find ps m l : part_inv ps m -> l ∈ states d -> exists r ls, (r :: ls) ∈ ps /\ l ∈ r :: ls.
Proof.
  intros HI Hl. rewrite <- (pi_perm _ _ HI) in Hl. apply elem_of_concat in Hl as (p & Hlp & Hp).
  destruct p as [|r ls]; [by inversion Hlp|]. eauto.
Qed.
Lemma pi_nodup ps m : part_inv ps m -> NoDup (concat ps).
Proof. intros HI. rewrite (pi_perm _ _ HI). apply (w_nodup d Hwf). Qed.

Lemma length_parts ps m : part_inv ps m -> (length ps <= length (states d))%nat.
Proof.
  intros HI. rewrite <- (pi_perm _ _ HI). pose proof (pi_ne _ _ HI) as Hne. clear HI.
  induction Hne as [|p ps Hp _ IH]; cbn; [lia|]. rewrite length_app. destruct p; [done|]. cbn; lia.
Qed.

(** A partition has all the states it is the partition of. *)
Lemma pi_class ps m r ls l :
  part_inv ps m -> (r :: ls) ∈ ps -> l ∈ states d -> part_of m l = r -> l ∈ r :: ls.
Proof.
  intros HI Hin Hl E. destruct (pi_find ps m l HI Hl) as (r' & k & Hp & Hlk).
  rewrite (pi_part _ _ r' k l HI Hp Hlk) in E. subst r'.
  pose proof (pi_nodup _ _ HI) as Hnd. apply list_elem_of_split in Hin as (u & v & Euv).
  rewrite Euv in Hp, Hnd. rewrite concat_app, NoDup_app in Hnd. destruct Hnd as (_ & D1 & Hnd).
  change (concat ((r :: ls) :: v)) with ((r :: ls) ++ concat v) in *. rewrite NoDup_app in Hnd.
  destruct Hnd as (_ & D2 & _).
  assert (Hr : forall q, (r :: k) ∈ q -> r ∈ concat q).
  { intros q Hq. apply elem_of_concat. exists (r :: k); split; [constructor|done]. }
  apply elem_of_app in Hp as [Hp|Hp]; [exfalso; apply (D1 r (Hr u Hp)); constructor|].
  apply elem_of_cons in Hp as [Hp|Hp]; [by injection Hp as ->|].
  exfalso; apply (D2 r); [constructor|by apply Hr].
Qed.

(** Telling apart goes back along a character. *)
Lemma told_apart_step l l' c :
  told_apart (target (state_at d l) c) (target (state_at d l') c) -> told_apart l l'.
Proof. intros [w Hw]. by exists (c :: w). Qed.

(** Splitting one partition. *)
Lemma split_inv pre rep ls post m :
  let same l := same_mappings m (state_at d rep) (state_at d l) in
  let stay := base.filter (fun l => same l = true) ls in
  let new := base.filter (fun l => same l = false) ls in
  part_inv (pre ++ (rep :: ls) :: post) m -> new <> [] ->
  part_inv (pre ++ [rep :: stay] ++ new :: post) (assign new m).
Proof.
  intros same stay new HI Hnew.
  assert (Hsplit : ls ≡ₚ stay ++ new).
  { unfold stay, new. clear. induction ls as [|l ls IH]; [done|]. rewrite !filter_cons.
    destruct (same l); [rewrite decide_True, decide_False by done|rewrite decide_False, decide_True by done].
    - cbn. by constructor.
    - rewrite <- Permutation_middle. by constructor. }
  assert (Hin : (rep :: ls) ∈ pre ++ (rep :: ls) :: post) by (apply elem_of_app; right; constructor).
  pose proof (pi_nodup _ _ HI) as Hnd.
  assert (Hnd2 : NoDup (concat pre ++ (rep :: stay) ++ new ++ concat post)).
  { rewrite concat_app in Hnd. cbn in Hnd. rewrite Hsplit in Hnd. by rewrite <- app_assoc in Hnd. }
  assert (Hdisj : forall p l, p ∈ pre ++ [rep :: stay] ++ post -> l ∈ p -> l ∉ new).
  { intros p l Hp Hl Hn. rewrite !NoDup_app in Hnd2.
    destruct Hnd2 as (_ & D1 & _ & D2 & _ & D3 & _).
    apply elem_of_app in Hp as [Hp|Hp].
    - apply (D1 l); [apply elem_of_concat; eauto|]. rewrite !elem_of_app. auto.
    - apply elem_of_app in Hp as [Hp|Hp].
      + apply list_elem_of_singleton in Hp as ->. apply (D2 l Hl). rewrite elem_of_app. auto.
      + apply (D3 l Hn). apply elem_of_concat; eauto. }
  assert (Hm' : forall l, l ∉ new -> assign new m !! l = m !! l).
  { intros l Hl. destruct new as [|n ns]; [done|]. rewrite assign_lookup. by rewrite decide_False. }
  assert (Hnls : forall l, l ∈ new -> l ∈ rep :: ls).
  { intros l Hl. constructor. rewrite Hsplit. apply elem_of_app; by right. }
  assert (Hstay : forall l, l ∈ stay -> l ∈ rep :: ls).
  { intros l Hl. constructor. rewrite Hsplit. apply elem_of_app; by left. }
  assert (Hcases : forall r k, (r :: k) ∈ pre ++ [rep :: stay] ++ new :: post ->
    new = r :: k \/ ((r :: k) ∈ pre ++ [rep :: stay] ++ post)).
  { intros r k Hp. apply elem_of_app in Hp as [Hp|Hp]; [right; apply elem_of_app; by left|].
    apply elem_of_app in Hp as [Hp|Hp]; [right; rewrite !elem_of_app; auto|].
    apply elem_of_cons in Hp as [Hp|Hp]; [by left|right; rewrite !elem_of_app; auto]. }
  assert (Hold : forall r k l, (r :: k) ∈ pre ++ [rep :: stay] ++ post -> l ∈ r :: k ->
    exists k', (r :: k') ∈ pre ++ (rep :: ls) :: post /\ l ∈ r :: k').
  { intros r k l Hp Hl. rewrite !elem_of_app in Hp. destruct Hp as [Hp|[Hp|Hp]].
    - exists k; split; [apply elem_of_app; by left|done].
    - apply list_elem_of_singleton in Hp. injection Hp as -> ->. exists ls; split; [done|].
      apply elem_of_cons in Hl as [->|Hl]; [constructor|by apply Hstay].
    - exists k; split; [apply elem_of_app; right; by constructor|done]. }
  split.
  - rewrite <- (pi_perm _ _ HI), !concat_app. cbn [concat app]. rewrite app_nil_r.
    apply Permutation_app_head, Permutation_skip. rewrite (app_assoc stay). by rewrite <- Hsplit.
  - pose proof (pi_ne _ _ HI) as Hne. rewrite Forall_app, Forall_cons in Hne.
    destruct Hne as (N1 & _ & N2). rewrite !Forall_app, !Forall_cons. by split_and!.
  - intros r k l Hp Hl. destruct (Hcases r k Hp) as [E|Hp'].
    + rewrite E, assign_lookup. by rewrite decide_True.
    + rewrite Hm' by (by eapply Hdisj). destruct (Hold r k l Hp' Hl) as (k' & Hp2 & Hl2).
      by apply (pi_map _ _ HI r k' l).
  - intros r k l Hp Hl. destruct (Hcases r k Hp) as [E|Hp'].
    + rewrite (pi_obs _ _ HI rep ls l Hin), (pi_obs _ _ HI rep ls r Hin); [done| |]; apply Hnls; rewrite E;
        [constructor|done].
    + destruct (Hold r k l Hp' Hl) as (k' & Hp2 & Hl2). by apply (pi_obs _ _ HI r k' l).
  - intros l l' Hl Hl' Hne.
    destruct (decide (part_of m l = part_of m l')) as [Esame|Hdiff]; [|by apply (pi_dist _ _ HI)].
    assert (Hsym : forall a b, a ∉ new -> b ∈ new -> part_of m a = part_of m b -> a ∈ states d -> b ∈ states d ->
              told_apart a b).
    { intros a b Ha Hb E Has Hbs.
      assert (Hra : a ∈ rep :: stay).
      { assert (Hk : a ∈ rep :: ls).
        { apply (pi_class (pre ++ (rep :: ls) :: post) m); [done..|]. by rewrite E, (pi_part _ _ rep ls b HI Hin (Hnls b Hb)). }
        apply elem_of_cons in Hk as [->|Hk]; [constructor|]. constructor. rewrite Hsplit in Hk.
        apply elem_of_app in Hk as [?|?]; done. }
      assert (Hsa : forall c, part_of m (target (state_at d a) c) = part_of m (target (state_at d rep) c)).
      { apply elem_of_cons in Hra as [->|Hra]; [done|]. unfold stay in Hra.
        apply list_elem_of_filter in Hra as [Hra _]. intros c. symmetry. by apply same_mappings_spec. }
      unfold new in Hb. apply list_elem_of_filter in Hb as [Hb _].
      destruct (same_mappings_false _ _ _ Hb) as [c Hc].
      apply (told_apart_step a b c), (pi_dist _ _ HI); [by apply target_in..|]. by rewrite Hsa. }
    destruct (decide (l ∈ new)) as [Hln|Hln], (decide (l' ∈ new)) as [Hln'|Hln'].
    + exfalso; apply Hne. destruct new as [|n ns]; [done|]. unfold part_of.
      by rewrite !assign_lookup, !decide_True.
    + assert (Ht : told_apart l' l) by (by apply Hsym). destruct Ht as [w Hw]. exists w. congruence.
    + by apply Hsym.
    + exfalso; apply Hne. unfold part_of. by rewrite !Hm'.
Qed.

(** One pass: the invariant is kept, and a pass that splits nothing has checked
    every partition. *)
Definition stable (m : parts) (r l : nat) : Prop :=
  forall c, part_of m (target (state_at d r) c) = part_of m (target (state_at d l) c).

Lemma split_pass_spec fuel todo don m count ps' m' count' :
  (length (concat todo) < fuel)%nat -> part_inv (don ++ todo) m ->
  split_pass d fuel todo don m count = (ps', m', count') ->
  part_inv ps' m' /\ (length ps' + count = length don + length todo + count')%nat /\ (count <= count')%nat /\
  (count' = count -> m' = m /\ ps' = don ++ todo /\ forall r ls l, (r :: ls) ∈ todo -> l ∈ ls -> stable m r l).
Proof.
  revert todo don m count; induction fuel as [|fuel IH]; intros todo don m count Hf HI Hrun; [lia|].
  destruct todo as [|[|rep ls] todo]; cbn [split_pass] in Hrun.
  - injection Hrun as <- <- <-. rewrite app_nil_r in HI |- *. split_and!; try done; cbn; [lia|].
    intros _; split_and!; [done..|]. intros r k l Hin; inversion Hin.
  - exfalso. pose proof (pi_ne _ _ HI) as Hne. rewrite Forall_app, Forall_cons in Hne. naive_solver.
  - set (same := fun l => same_mappings m (state_at d rep) (state_at d l)).
    set (stay := base.filter (fun l => same l = true) ls).
    change (match base.filter (fun l => same l = false) ls with
            | [] => split_pass d fuel todo (don ++ [rep :: stay]) m count
            | _ :: _ => split_pass d fuel (base.filter (fun l => same l = false) ls :: todo) (don ++ [rep :: stay])
                          (assign (base.filter (fun l => same l = false) ls) m) (S count)
            end = (ps', m', count')) in Hrun.
    destruct (base.filter (fun l => same l = false) ls) as [|n ns] eqn:En.
    + assert (Hall : forall l, l ∈ ls -> same l = true).
      { intros l Hl. destruct (same l) eqn:Es; [done|].
        assert (Hin : l ∈ base.filter (fun l => same l = false) ls) by (by apply list_elem_of_filter).
        rewrite En in Hin; inversion Hin. }
      assert (Hstay : stay = ls) by (by apply filter_all, Forall_forall). rewrite Hstay in Hrun.
      apply IH in Hrun; [|cbn in Hf; rewrite length_app in Hf; lia|by rewrite <- app_assoc].
      destruct Hrun as (H1 & H2 & H3 & H4). rewrite length_app in H2. cbn in H2 |- *.
      split_and!; [done|lia|done|]. intros E. destruct (H4 E) as (E1 & E2 & E3).
      rewrite <- app_assoc in E2. split_and!; [done..|]. intros r k l [Ek|Hin]%elem_of_cons Hl; [|by eapply E3].
      injection Ek as -> ->. unfold stable. apply same_mappings_spec. by apply Hall.
    + assert (HI' : part_inv (don ++ [rep :: stay] ++ (n :: ns) :: todo) (assign (n :: ns) m)).
      { rewrite <- En. apply (split_inv don rep ls todo m HI).
        change (base.filter (fun l => same l = false) ls <> []). by rewrite En. }
      assert (Hlen : (length (n :: ns) <= length ls)%nat) by (rewrite <- En; apply length_filter).
      apply IH in Hrun.
      * destruct Hrun as (H1 & H2 & H3 & H4). rewrite length_app in H2. cbn in H2 |- *.
        split_and!; [done|lia|lia|]. intros ->; lia.
      * cbn in Hf, Hlen |- *. rewrite length_app in *. cbn. lia.
      * by rewrite <- app_assoc.
Qed.

Lemma refine_loop_spec fuel ps m ps' m' :
  (length (states d) < fuel + length ps)%nat -> part_inv ps m -> refine_loop d fuel ps m = (ps', m') ->
  part_inv ps' m' /\ forall r ls l, (r :: ls) ∈ ps' -> l ∈ ls -> stable m' r l.
Proof.
  revert ps m; induction fuel as [|fuel IH]; intros ps m Hf HI Hrun.
  { pose proof (length_parts ps m HI). lia. }
  cbn [refine_loop] in Hrun. destruct (split_pass d (S (length (states d))) ps [] m 0) as [[ps1 m1] count] eqn:Es.
  apply split_pass_spec in Es; [|rewrite (pi_perm _ _ HI); lia|done].
  destruct Es as (HI1 & Hlen & _ & Hst). cbn in Hlen. destruct count as [|count].
  - injection Hrun as <- <-. destruct (Hst eq_refl) as (-> & -> & H). done.
  - apply IH in Hrun; [done|lia|done].
Qed.

(** *** The initial partitions *)

Lemma add_to_perms_spec p l ps :
  match add_to_perms d p l ps with
  | Some ps' => exists pre r ls post, ps = pre ++ (r :: ls) :: post /\ ps' = pre ++ ((r :: ls) ++ [l]) :: post /\
      r <> start d /\ s_perms (state_at d r) = p
  | None => forall r ls, (r :: ls) ∈ ps -> ~ (r <> start d /\ s_perms (state_at d r) = p)
  end.
Proof.
  induction ps as [|part ps IH]; cbn; [intros r ls Hin; inversion Hin|].
  assert (Hrec : (forall r ls, part = r :: ls -> ~ (r <> start d /\ s_perms (state_at d r) = p)) ->
    match option_map (cons part) (add_to_perms d p l ps) with
    | Some ps' => exists pre r ls post, part :: ps = pre ++ (r :: ls) :: post /\
        ps' = pre ++ ((r :: ls) ++ [l]) :: post /\ r <> start d /\ s_perms (state_at d r) = p
    | None => forall r ls, (r :: ls) ∈ part :: ps -> ~ (r <> start d /\ s_perms (state_at d r) = p)
    end).
  { intros Hpart. destruct (add_to_perms d p l ps) as [ps'|]; cbn.
    - destruct IH as (pre & r & ls & post & -> & -> & H1 & H2). exists (part :: pre), r, ls, post. done.
    - intros r ls [E|Hin]%elem_of_cons; [by eapply Hpart|by eapply IH]. }
  destruct part as [|r ls]; [by apply Hrec|]. destruct (decide _) as [[H1 H2]|Hn].
  - exists [], r, ls, ps. done.
  - apply Hrec. intros r' ls' [= <- <-]. done.
Qed.

(** Partitions whose first states have different observations. *)
Record init_inv (seen : list nat) (ps : list (list nat)) : Prop := {
  ii_perm : concat ps ≡ₚ seen;
  ii_ne : Forall (fun p => p <> []) ps;
  ii_obs : forall r ls l, (r :: ls) ∈ ps -> l ∈ r :: ls -> obs l = obs r;
  ii_diff : forall r ls r' ls', (r :: ls) ∈ ps -> (r' :: ls') ∈ ps -> obs r = obs r' -> r = r'
}.

Lemma init_new seen ps l :
  init_inv seen ps -> (forall r ls, (r :: ls) ∈ ps -> obs r <> obs l) -> init_inv (seen ++ [l]) (ps ++ [[l]]).
Proof.
  intros [H1 H2 H3 H4] Hl.
  assert (Hc : forall r ls, (r :: ls) ∈ ps ++ [[l]] -> (r :: ls) ∈ ps \/ (r = l /\ ls = [])).
  { intros r ls [Hin|Hin]%elem_of_app; [by left|]. apply list_elem_of_singleton in Hin. injection Hin as -> ->. auto. }
  split.
  - rewrite concat_app; cbn. by rewrite H1.
  - apply Forall_app; split; [done|]. by repeat constructor.
  - intros r ls k Hin Hk. destruct (Hc r ls Hin) as [Hin'|[-> ->]]; [by eapply H3|].
    by apply list_elem_of_singleton in Hk as ->.
  - intros r ls r' ls' Hin Hin' E. destruct (Hc _ _ Hin) as [A|[-> ->]], (Hc _ _ Hin') as [B|[-> ->]].
    + by eapply H4.
    + by destruct (Hl r ls A).
    + by destruct (Hl r' ls' B).
    + done.
Qed.

Lemma initial_partitions_inv : init_inv (states d) (initial_partitions d).
Proof.
  unfold initial_partitions. set (step := fun ps l => _).
  assert (G : forall ls seen ps, init_inv seen ps -> NoDup (seen ++ ls) -> init_inv (seen ++ ls) (fold_left step ls ps)).
  { induction ls as [|l ls IH]; intros seen ps HI Hnd; cbn [fold_left]; [by rewrite app_nil_r|].
    replace (seen ++ l :: ls) with ((seen ++ [l]) ++ ls) in * by (by rewrite <- app_assoc).
    apply IH; [|done]. clear IH.
    assert (Hl : l ∉ seen).
    { rewrite <- app_assoc, NoDup_app in Hnd. destruct Hnd as (_ & D & _). intros Hin. apply (D l Hin); constructor. }
    assert (Hrs : forall r k, (r :: k) ∈ ps -> r ∈ seen).
    { intros r k Hr. rewrite <- (ii_perm _ _ HI). apply elem_of_concat. exists (r :: k); split; [constructor|done]. }
    unfold step. destruct (decide (l = start d)) as [->|Hne].
    - apply init_new; [done|]. intros r k Hr E. unfold obs in E. injection E as _ E.
      rewrite (bool_decide_true (start d = start d)) in E by done. apply bool_decide_eq_true in E as ->.
      by apply Hl, (Hrs _ k).
    - pose proof (add_to_perms_spec (s_perms (state_at d l)) l ps) as Hadd.
      destruct (add_to_perms d (s_perms (state_at d l)) l ps) as [ps'|].
      + destruct Hadd as (pre & r & k & post & -> & -> & Hrn & Hrp).
        assert (Ho : obs l = obs r) by (unfold obs; by rewrite Hrp, !bool_decide_false).
        assert (Hin : (r :: k) ∈ pre ++ (r :: k) :: post) by (apply elem_of_app; right; constructor).
        assert (Hc : forall q j, (q :: j) ∈ pre ++ ((r :: k) ++ [l]) :: post ->
          (q :: j) ∈ pre ++ (r :: k) :: post \/ (q = r /\ j = k ++ [l])).
        { intros q j. rewrite !elem_of_app, !elem_of_cons. intros [?|[E|?]]; auto. injection E as -> ->. auto. }
        destruct HI as [H1 H2 H3 H4]. split.
        * rewrite <- H1, !concat_app. cbn. rewrite <- !app_assoc. cbn. apply Permutation_app_head.
          constructor. rewrite <- app_assoc. apply Permutation_app_head, Permutation_cons_append.
        * rewrite Forall_app, Forall_cons in H2 |- *. naive_solver.
        * intros q j x Hq Hx. destruct (Hc q j Hq) as [Hq'|[-> ->]]; [by eapply H3|].
          change (r :: k ++ [l]) with ((r :: k) ++ [l]) in Hx. apply elem_of_app in Hx as [Hx|Hx]; [by eapply H3|].
          by apply list_elem_of_singleton in Hx as ->.
        * intros q j q' j' Hq Hq' E. destruct (Hc q j Hq) as [A|[-> ->]], (Hc q' j' Hq') as [B|[-> ->]]; try done;
            eapply H4; eauto.
      + apply init_new; [done|]. intros r k Hr E. unfold obs in E. injection E as E1 E2.
        apply (Hadd r k Hr). split; [|done]. intros ->.
        rewrite bool_decide_true, bool_decide_false in E2 by done. done. }
  specialize (G (states d) [] []). cbn in G. apply G; [|apply (w_nodup d Hwf)].
  split; [done|constructor| |]; intros r ls; intros; inversion H.
Qed.

Lemma initial_parts_inv :
  part_inv (initial_partitions d) (fold_left (fun m p => assign p m) (initial_partitions d) ∅).
Proof.
  pose proof initial_partitions_inv as [H1 H2 H3 H4]. set (ps := initial_partitions d) in *.
  assert (Hnd : NoDup (concat ps)) by (rewrite H1; apply (w_nodup d Hwf)).
  assert (G : forall qs (m : parts), NoDup (concat qs) -> forall r ls l, (r :: ls) ∈ qs -> l ∈ r :: ls ->
            fold_left (fun m p => assign p m) qs m !! l = Some r).
  { assert (Hkeep : forall qs (m : parts) l, l ∉ concat qs -> fold_left (fun m p => assign p m) qs m !! l = m !! l).
    { induction qs as [|q qs IH]; intros m l Hl; cbn in *; [done|]. rewrite elem_of_app in Hl.
      rewrite IH by tauto. destruct q as [|r ls]; [done|]. rewrite assign_lookup, decide_False; tauto. }
    induction qs as [|q qs IH]; intros m Hn r ls l Hin Hl; [inversion Hin|]. cbn in Hn |- *.
    rewrite NoDup_app in Hn. destruct Hn as (_ & D & Hn).
    apply elem_of_cons in Hin as [<-|Hin]; [|by apply (IH _ Hn r ls)].
    rewrite Hkeep by (by apply D). by rewrite assign_lookup, decide_True. }
  split; try done.
  - intros r ls l Hin Hl. by apply (G ps ∅ Hnd r ls).
  - intros l l' Hl Hl' Hne. rewrite <- H1 in Hl, Hl'.
    apply elem_of_concat in Hl as ([|r ls] & A & B); [inversion A|].
    apply elem_of_concat in Hl' as ([|r' ls'] & A' & B'); [inversion A'|].
    unfold part_of in Hne. rewrite (G ps ∅ Hnd r ls l B A), (G ps ∅ Hnd r' ls' l' B' A') in Hne. cbn in Hne.
    exists []. cbn. intros E. apply Hne. apply (H4 r ls r' ls'); [done..|].
    by rewrite <- (H3 r ls l), <- (H3 r' ls' l').
Qed.

(** *** The remapped automaton *)

Lemma target_remap m s c : target (remap_state m s) c = part_of m (target s c).
Proof.
  unfold target, remap_state; cbn. set (o := part_of m (otherwise s)).
  destruct (base.filter (fun x : Z * nat => x.2 <> o) (part_of m <$> trans s) !! c) as [t|] eqn:Ef; cbn.
  - apply map_lookup_filter_Some in Ef as [Ef _]. rewrite lookup_fmap in Ef.
    destruct (trans s !! c); [by injection Ef as <-|done].
  - destruct (trans s !! c) as [t|] eqn:Et; cbn; [|done].
    destruct (decide (part_of m t = o)) as [E|Hne]; [done|]. exfalso.
    assert (Hs : base.filter (fun x : Z * nat => x.2 <> o) (part_of m <$> trans s) !! c = Some (part_of m t)).
    { apply map_lookup_filter_Some. by rewrite lookup_fmap, Et. }
    congruence.
Qed.

Section remapped.
Context (ps : list (list nat)) (m : parts) (HI : part_inv ps m).
Context (Hst : forall r ls l, (r :: ls) ∈ ps -> l ∈ ls -> stable m r l).

Lemma part_state l : l ∈ states d ->
  part_of m l ∈ omap head ps /\ part_of m l ∈ states d /\ part_of m (part_of m l) = part_of m l /\
  obs (part_of m l) = obs l /\ stable m (part_of m l) l.
Proof.
  intros Hl. destruct (pi_find ps m l HI Hl) as (r & ls & Hp & Hlr).
  rewrite (pi_part ps m r ls l HI Hp Hlr). assert (Hr : r ∈ r :: ls) by constructor. split_and!.
  - apply list_elem_of_omap. by exists (r :: ls).
  - by apply (pi_states ps m r ls r HI Hp).
  - by apply (pi_part ps m r ls r HI Hp).
  - symmetry. by apply (pi_obs ps m HI r ls l).
  - apply elem_of_cons in Hlr as [->|Hlr]; [by intros c|]. by apply (Hst r ls l).
Qed.
Lemma rep_part r : r ∈ omap head ps -> r ∈ states d /\ part_of m r = r.
Proof.
  intros Hr. apply list_elem_of_omap in Hr as ([|r' ls] & Hp & E); [done|]. cbn in E; injection E as ->.
  assert (r ∈ r :: ls) by constructor.
  split; [by apply (pi_states ps m r ls r HI Hp)|by apply (pi_part ps m r ls r HI Hp)].
Qed.

Definition remapped : DFA :=
  MkDFA (base.filter (fun x => x.1 ∈ omap head ps) (remap_state m <$> heap d))
    (base.filter (fun l => l ∈ omap head ps) (states d)) (part_of m (nonmatching d)) (part_of m (start d))
    (node_map d) (work_queue d) (uniq_perms d) (oob_range d) (max_range d) (ord_range d) (filedfa d).

Lemma remapped_states l : l ∈ states remapped <-> l ∈ omap head ps.
Proof.
  cbn. rewrite list_elem_of_filter. split; [tauto|]. intros Hr. split; [done|]. by apply rep_part.
Qed.
Lemma remapped_heap l s :
  heap remapped !! l = Some s <-> l ∈ omap head ps /\ s = remap_state m (state_at d l).
Proof.
  cbn. rewrite map_lookup_filter_Some, lookup_fmap; cbn. split.
  - intros [E Hl]. split; [done|]. destruct (heap d !! l) as [s0|] eqn:E0; [|done].
    injection E as <-. unfold state_at. by rewrite E0.
  - intros [Hl ->]. split; [|done]. by rewrite (state_at_heap d Hwf l (proj1 (rep_part l Hl))).
Qed.
Lemma remapped_state_at l : l ∈ states remapped -> state_at remapped l = remap_state m (state_at d l).
Proof.
  intros Hl. apply remapped_states in Hl. unfold state_at at 1.
  by rewrite (proj2 (remapped_heap l _) (conj Hl eq_refl)).
Qed.

Lemma remapped_wf : dfa_wf remapped.
Proof.
  split.
  - intros l. rewrite remapped_states. split.
    + intros [s Hs]. by apply remapped_heap in Hs as [? _].
    + intros Hl. eexists. by apply remapped_heap.
  - apply NoDup_filter, (w_nodup d Hwf).
  - intros l s Hs. apply remapped_heap in Hs as [Hl ->]. cbn.
    apply (w_flags d Hwf l), state_at_heap, rep_part; done.
  - intros l s c Hs. apply remapped_heap in Hs as [Hl ->]. rewrite target_remap. apply remapped_states.
    apply part_state, target_in; [done|]. by apply rep_part.
  - apply remapped_states, part_state, (w_start d Hwf).
  - apply remapped_states, part_state, (w_nonmatching d Hwf).
  - intros s c Hs. cbn in Hs |- *. apply remapped_heap in Hs as [Hl ->]. rewrite target_remap.
    destruct (part_state (nonmatching d) (w_nonmatching d Hwf)) as (_ & _ & _ & _ & Hstab).
    rewrite Hstab. rewrite (w_trap d Hwf); [done|]. apply state_at_heap, (w_nonmatching d Hwf). done.
Qed.

Lemma remapped_steps l w : l ∈ states d -> steps remapped (part_of m l) w = part_of m (steps d l w).
Proof.
  revert l; induction w as [|c w IH]; intros l Hl; [done|].
  change (steps remapped (target (state_at remapped (part_of m l)) c) w =
          part_of m (steps d (target (state_at d l) c) w)).
  destruct (part_state l Hl) as (Hr & _ & _ & _ & Hs).
  rewrite remapped_state_at by (by apply remapped_states). rewrite target_remap, (Hs c). by apply IH, target_in.
Qed.

Lemma remapped_equiv : dfa_equiv remapped d.
Proof.
  intros w. rewrite (dfa_perms_steps remapped remapped_wf), (dfa_perms_steps d Hwf). cbn [start remapped].
  rewrite remapped_steps by apply (w_start d Hwf). f_equal.
  destruct (part_state (steps d (start d) w)) as (Hr & _ & _ & Ho & _); [apply steps_in, (w_start d Hwf); done|].
  rewrite remapped_state_at by (by apply remapped_states). unfold obs in Ho. injection Ho as Ho _. done.
Qed.

Lemma remapped_apart l l' :
  l ∈ states remapped -> l' ∈ states remapped -> l <> l' -> exists w,
  s_perms (state_at remapped (steps remapped l w)) <> s_perms (state_at remapped (steps remapped l' w)) \/
  bool_decide (steps remapped l w = start remapped) <> bool_decide (steps remapped l' w = start remapped).
Proof.
  intros Hl Hl' Hne. apply remapped_states in Hl, Hl'.
  destruct (rep_part l Hl) as [Hd E], (rep_part l' Hl') as [Hd' E'].
  destruct (pi_dist ps m HI l l' Hd Hd') as [w Hw]; [congruence|]. exists w.
  rewrite <- E, <- E', !remapped_steps by done.
  assert (Hobs : forall x, x ∈ states d ->
    obs x = (s_perms (state_at remapped (part_of m x)), bool_decide (part_of m x = start remapped))).
  { intros x Hx. destruct (part_state x Hx) as (Hr & _ & _ & Ho & _).
    rewrite <- Ho. unfold obs. rewrite remapped_state_at by (by apply remapped_states). f_equal.
    apply bool_decide_ext. destruct (part_state _ (w_start d Hwf)) as (_ & _ & _ & Hos & _). cbn [start remapped].
    unfold obs in Hos. injection Hos as _ Hos.
    rewrite (bool_decide_true (start d = start d)) in Hos by done. apply bool_decide_eq_true in Hos. by rewrite Hos. }
  rewrite (Hobs (steps d l w)), (Hobs (steps d l' w)) in Hw by (by apply steps_in).
  destruct (decide (s_perms (state_at remapped (part_of m (steps d l w))) =
                    s_perms (state_at remapped (part_of m (steps d l' w))))) as [Ep|Hn]; [right|by left].
  intros Eb. apply Hw. by rewrite Ep, Eb.
Qed.
End remapped.
End refinement.

(** What tells two states of an automaton apart. *)
Definition distinguished (d : DFA) (l l' : nat) : Prop := exists w,
  s_perms (state_at d (steps d l w)) <> s_perms (state_at d (steps d l' w)) \/
  bool_decide (steps d l w = start d) <> bool_decide (steps d l' w = start d).

Lemma minimize_spec d :
  dfa_wf d -> exists d', minimize d = Some d' /\ dfa_wf d' /\ dfa_equiv d' d /\
  (length (states d') <= length (states d))%nat /\
  forall l l', l ∈ states d' -> l' ∈ states d' -> l <> l' -> distinguished d' l l'.
Proof.
  intros Hwf. unfold minimize.
  pose proof (initial_parts_inv d Hwf) as H0.
  set (ps0 := initial_partitions d) in *. set (m0 := fold_left _ ps0 ∅) in *.
  destruct (refine_loop d (S (length (states d))) ps0 m0) as [ps m] eqn:Er.
  apply (refine_loop_spec d Hwf) in Er as [HI Hst]; [|lia|done].
  destruct (decide (length ps = length (states d))) as [El|El].
  - exists d; split_and!; [done..|].
    (* every partition has one state *)
    assert (Hone : forall p, p ∈ ps -> length p = 1%nat).
    { rewrite <- (pi_perm d ps m HI) in El. pose proof (pi_ne d ps m HI) as Hne. clear -El Hne.
      revert El; assert (G : (length ps <= length (concat ps))%nat /\
        (length ps = length (concat ps) -> forall p, p ∈ ps -> length p = 1%nat)); [|by apply G].
      induction Hne as [|p ps Hp _ IH]; cbn; [split; [lia|]; intros _ p Hin; inversion Hin|].
      destruct IH as [I1 I2]. rewrite length_app. destruct p as [|x p]; [done|]. cbn.
      split; [lia|]. intros E q [->|Hq]%elem_of_cons; [cbn; lia|]. apply I2; [lia|done]. }
    assert (Hpart : forall l, l ∈ states d -> part_of m l = l).
    { intros l Hl. destruct (pi_find d ps m l HI Hl) as (r & ls & Hp & Hlr).
      rewrite (pi_part d ps m r ls l HI Hp Hlr). specialize (Hone _ Hp). destruct ls; [|done].
      by apply list_elem_of_singleton in Hlr. }
    intros l l' Hl Hl' Hne. destruct (pi_dist d ps m HI l l' Hl Hl') as [w Hw]; [by rewrite !Hpart|].
    exists w. unfold obs in Hw.
    destruct (decide (s_perms (state_at d (steps d l w)) = s_perms (state_at d (steps d l' w)))) as [E|]; [right|by left].
    intros Eb. apply Hw. by rewrite E, Eb.
  - match goal with |- context [forallb ?f ps] => assert (Hck : forallb f ps = true) end.
    { apply forallb_forall. intros [|r ls] Hp; [done|]. apply list_elem_of_In in Hp.
      apply forallb_forall. intros l Hl. apply list_elem_of_In in Hl. apply perms_eqb_spec.
      pose proof (pi_obs d ps m HI r ls l Hp ltac:(by constructor)) as Ho. unfold obs in Ho. by injection Ho. }
    rewrite Hck. exists (remapped d ps m). split_and!; [done| | | |].
    + by apply remapped_wf.
    + by apply remapped_equiv.
    + cbn. apply length_filter.
    + intros l l' Hl Hl' Hne. by apply remapped_apart.
Qed.

(** C4: minimisation always succeeds, the check for different permissions in one
    partition never fails, and the result gives every string the permissions it
    had, with no more states. *)
Theorem minimize_correct d :
  dfa_wf d -> exists d', minimize d = Some d' /\ dfa_wf d' /\ dfa_equiv d' d /\
  (length (states d') <= length (states d))%nat.
Proof. intros Hwf. destruct (minimize_spec d Hwf) as (d' & H1 & H2 & H3 & H4 & _). eauto. Qed.


(** The automaton of the sample tree. *)
Lemma sample_dfa : exists d, create_dfa elements sample_tree false = Some d /\ dfa_wf d.
Proof.
  assert (Hd : (if create_dfa elements sample_tree false then true else false) = true) by (vm_compute; reflexivity).
  destruct (create_dfa elements sample_tree false) as [d|] eqn:Ed; [|discriminate Hd].
  exists d. split; [reflexivity|]. apply (create_dfa_wf elements ∅ sample_tree false d); [reflexivity| |exact Ed].
  apply root_okb_ok. vm_compute; reflexivity.
Qed.

Lemma minimize_correct_witness :
  exists d, create_dfa elements sample_tree false = Some d /\
  exists d', minimize d = Some d' /\ dfa_wf d' /\ dfa_equiv d' d /\ (length (states d') <= length (states d))%nat.
Proof.
  destruct sample_dfa as (d & Ed & Hwf). exists d. split; [exact Ed|]. exact (minimize_correct d Hwf).
Defined.


(** (..|oob .) where the nodes after the two characters differ but are
    equivalent. *)
Definition oob_tree2 : Node :=
  AltNode
    [CatNode [Leaf (Imp 1 AnyCharNode); Leaf (Imp 2 AnyCharNode); Leaf (Imp 10 (AcceptNode MatchFlag 0 4 0))];
     CatNode [Leaf (Imp 3 (CharNode OOB)); Leaf (Imp 4 AnyCharNode); Leaf (Imp 11 (AcceptNode ExactMatchFlag 0 4 0))]].

(** Minimisation treats the default transition as if it covered out-of-band
    characters: it drops the out-of-band transition of an automaton when its
    target is merged with the default target, so that a string with an
    out-of-band character loses its permissions. *)
Theorem minimize_drops_oob :
  exists d d' l s, create_dfa elements oob_tree2 false = Some d /\ minimize d = Some d' /\
  run d (start d) [OOB; 97] = Some l /\ heap d !! l = Some s /\ s_perms s = Perms 4 0 0 0 0 /\
  run d' (start d') [OOB; 97] = Some (nonmatching d').
Proof.
  assert (Hm : (match create_dfa elements oob_tree2 false with
    | Some d => match minimize d with
      | Some d' => match run d (start d) [OOB; 97] with
        | Some l => match heap d !! l with
          | Some s => bool_decide (s_perms s = Perms 4 0 0 0 0 /\ run d' (start d') [OOB; 97] = Some (nonmatching d'))
          | None => false end
        | None => false end
      | None => false end
    | None => false end) = true) by (by vm_compute).
  destruct (create_dfa elements oob_tree2 false) as [d|]; [|done].
  destruct (minimize d) as [d'|] eqn:Em; [|done]. destruct (run d (start d) [OOB; 97]) as [l|] eqn:El; [|done].
  destruct (heap d !! l) as [s|] eqn:Es; [|done]. apply bool_decide_eq_true in Hm as [H1 H2].
  by exists d, d', l, s.
Qed.
