(* ===== verification/RegexParse.v ===== *)
(** The grammar of the regular expressions of the automaton library
    ([parser/libapparmor_re/parse.y]) with its actions, a parser that is proved
    to accept and build exactly what the grammar derives, and the trees it
    builds for the patterns of the front end. *)

From stdpp Require Import gmap sorting.
From S2P Require Import Prelude Lib Regex Expr.

(** ** Characters of sets *)

Definition insert_char (cset : Chars) (a : Z) : Chars := Chars_insert a cset.
Fixpoint range_loop (n : nat) (i : Z) (cset : Chars) : Chars :=
  match n with O => cset | S n => range_loop n (i + 1) (Chars_insert i cset) end.
Definition insert_char_range (cset : Chars) (a b : Z) : Chars :=
  let '(a, b) := if b <? a then (b, a) else (a, b) in range_loop (Z.to_nat (b - a + 1)) a cset.

(** The nonterminals that are one token: the character the token stands for. *)
Definition sym_in (s : cstr) (t : token) : option Z :=
  match t with
  | TSym c => if existsb (Ascii.eqb c) s then Some (code c) else None
  | TChar c => Some (code c)
  | TEnd => None
  end.
Definition regex_char : token -> option Z := sym_in $"^-]".
Definition cset_char : token -> option Z := sym_in $"[*+.|()".
Definition cset_char1 : token -> option Z := sym_in $"[*+.|()]-".
Definition cset_charN : token -> option Z := sym_in $"[*+.|()^".

Abbreviation sym c := (TSym c%char) (only parsing).

(** ** The grammar *)

Inductive cset_chars : list token -> Chars -> Prop :=
| cset_nothing : cset_chars [] []
| cset_one ts cs t c :
    cset_chars ts cs -> cset_charN t = Some c -> cset_chars (ts ++ [t]) (insert_char cs c)
| cset_range ts cs t c u d :
    cset_chars ts cs -> cset_charN t = Some c -> cset_charN u = Some d ->
    cset_chars (ts ++ [t; sym "-"; u]) (insert_char_range cs c d).

Inductive charset : list token -> Chars -> Prop :=
| charset_char t c ts cs :
    cset_char1 t = Some c -> cset_chars ts cs -> charset (t :: ts) (insert_char cs c)
| charset_range t c u d ts cs :
    cset_char1 t = Some c -> cset_charN u = Some d -> cset_chars ts cs ->
    charset (t :: sym "-" :: u :: ts) (insert_char_range cs c d).

(** [[a]] is [a] so that it can be factored with it. *)
Definition set_node (cs : Chars) : leaf_type :=
  match cs with [c] => CharNode c | _ => CharSetNode cs end.

(** A derivation from the tokens [ts] of the tree [t]: nodes are numbered in the
    order in which they are made, from [n] on, and [n'] is the next number. *)
Inductive regex : positive -> list token -> Node -> positive -> Prop :=
| regex_empty n : regex n [] EpsNode n
| regex_expr n ts t n' : expr n ts t n' -> regex n ts t n'
with expr : positive -> list token -> Node -> positive -> Prop :=
| expr_terms n ts t n' : terms n ts t n' -> expr n ts t n'
| expr_alt n ts t n' us u n'' :
    expr n ts t n' -> terms0 n' us u n'' -> expr n (ts ++ sym "|" :: us) (AltNode [t; u]) n''
| expr_eps n us u n' : terms0 n us u n' -> expr n (sym "|" :: us) (AltNode [EpsNode; u]) n'
with terms0 : positive -> list token -> Node -> positive -> Prop :=
| terms0_empty n : terms0 n [] EpsNode n
| terms0_terms n ts t n' : terms n ts t n' -> terms0 n ts t n'
with terms : positive -> list token -> Node -> positive -> Prop :=
| terms_qterm n ts t n' : qterm n ts t n' -> terms n ts t n'
| terms_cat n ts t n' us u n'' :
    terms n ts t n' -> qterm n' us u n'' -> terms n (ts ++ us) (CatNode [t; u]) n''
with qterm : positive -> list token -> Node -> positive -> Prop :=
| qterm_term n ts t n' : term n ts t n' -> qterm n ts t n'
| qterm_star n ts t n' : term n ts t n' -> qterm n (ts ++ [sym "*"]) (StarNode t) n'
| qterm_plus n ts t n' : term n ts t n' -> qterm n (ts ++ [sym "+"]) (PlusNode t) n'
with term : positive -> list token -> Node -> positive -> Prop :=
| term_any n : term n [sym "."] (Leaf (Imp n AnyCharNode)) (Pos.succ n)
| term_char n t c : regex_char t = Some c -> term n [t] (Leaf (Imp n (CharNode c))) (Pos.succ n)
| term_set n ts cs :
    charset ts cs -> term n (sym "[" :: ts ++ [sym "]"]) (Leaf (Imp n (set_node cs))) (Pos.succ n)
| term_notset n ts cs :
    charset ts cs ->
    term n (sym "[" :: sym "^" :: ts ++ [sym "]"]) (Leaf (Imp n (NotCharSetNode cs))) (Pos.succ n)
| term_notset_caret n ts cs :
    cset_chars ts cs ->
    term n (sym "[" :: sym "^" :: sym "^" :: ts ++ [sym "]"])
      (Leaf (Imp n (NotCharSetNode (insert_char cs (code "^"%char))))) (Pos.succ n)
| term_group n ts t n' : regex n ts t n' -> term n (sym "(" :: ts ++ [sym ")"]) t n'.

Scheme regex_mut := Induction for regex Sort Prop
  with expr_mut := Induction for expr Sort Prop
  with terms0_mut := Induction for terms0 Sort Prop
  with terms_mut := Induction for terms Sort Prop
  with qterm_mut := Induction for qterm Sort Prop
  with term_mut := Induction for term Sort Prop.
Combined Scheme grammar_mut from regex_mut, expr_mut, terms0_mut, terms_mut, qterm_mut, term_mut.

(** ** The parser *)

(** What is read of the innermost open group: the alternatives before the last
    bar, the terms after it and a term that may still be repeated. *)
Record frame := Frame { f_alt : option Node; f_terms : option Node; f_term : option Node }.
Definition new_frame : frame := Frame None None None.

Definition add_qterm (f : option Node) (q : Node) : Node :=
  match f with Some t => CatNode [t; q] | None => q end.
Definition terms_of (f : frame) : option Node :=
  match f_term f with Some q => Some (add_qterm (f_terms f) q) | None => f_terms f end.
Definition close (f : frame) : Node :=
  match f_alt f, terms_of f with
  | None, None => EpsNode
  | None, Some t => t
  | Some a, t => AltNode [a; default EpsNode t]
  end.
Definition push_term (t : Node) (f : frame) : frame := Frame (f_alt f) (terms_of f) (Some t).
Definition repeat_term (op : Node -> Node) (f : frame) : option frame :=
  match f_term f with
  | Some t => Some (Frame (f_alt f) (Some (add_qterm (f_terms f) (op t))) None)
  | None => None
  end.

(** The action kept for the first character or range of a set. *)
Inductive first := FChar (c : Z) | FRange (c d : Z).
Definition insert_first (f : first) (cs : Chars) : Chars :=
  match f with FChar c => insert_char cs c | FRange c d => insert_char_range cs c d end.
Definition insert_last (cs : Chars) (pend : option Z) : Chars :=
  match pend with Some c => insert_char cs c | None => cs end.

Inductive mode :=
| Top
| Open
| OpenNot
| First (neg : bool) (c : Z)
| FirstDash (neg : bool) (c : Z)
| Items (neg : bool) (f : first) (cs : Chars) (pend : option Z)
| ItemsDash (neg : bool) (f : first) (cs : Chars) (c : Z).

Record pstate := PState { p_mode : mode; p_frame : frame; p_stack : list frame; p_next : positive }.

Definition set_mode (m : mode) (s : pstate) : pstate := PState m (p_frame s) (p_stack s) (p_next s).
Definition set_frame (f : frame) (s : pstate) : pstate := PState Top f (p_stack s) (p_next s).
Definition push_leaf (k : leaf_type) (s : pstate) : pstate :=
  PState Top (push_term (Leaf (Imp (p_next s) k)) (p_frame s)) (p_stack s) (Pos.succ (p_next s)).
Definition close_set (neg : bool) (cs : Chars) (s : pstate) : pstate :=
  push_leaf (if neg then NotCharSetNode cs else set_node cs) s.

Definition is_sym (c : ascii) (t : token) : bool :=
  match t with TSym d => Ascii.eqb d c | _ => false end.

Definition top_step (s : pstate) (t : token) : option pstate :=
  match regex_char t with
  | Some c => Some (push_leaf (CharNode c) s)
  | None =>
      if is_sym "." t then Some (push_leaf AnyCharNode s)
      else if is_sym "*" t then option_map (fun f => set_frame f s) (repeat_term StarNode (p_frame s))
      else if is_sym "+" t then option_map (fun f => set_frame f s) (repeat_term PlusNode (p_frame s))
      else if is_sym "|" t then Some (set_frame (Frame (Some (close (p_frame s))) None None) s)
      else if is_sym "(" t then Some (PState Top new_frame (p_frame s :: p_stack s) (p_next s))
      else if is_sym ")" t then
        match p_stack s with
        | f :: stk => Some (PState Top (push_term (close (p_frame s)) f) stk (p_next s))
        | [] => None
        end
      else if is_sym "[" t then Some (set_mode Open s)
      else None
  end.

Definition parse_step (s : pstate) (t : token) : option pstate :=
  match p_mode s with
  | Top => top_step s t
  | Open =>
      if is_sym "^" t then Some (set_mode OpenNot s)
      else option_map (fun c => set_mode (First false c) s) (cset_char1 t)
  | OpenNot =>
      if is_sym "^" t then Some (set_mode (Items true (FChar (code "^"%char)) [] None) s)
      else option_map (fun c => set_mode (First true c) s) (cset_char1 t)
  | First neg c =>
      if is_sym "-" t then Some (set_mode (FirstDash neg c) s)
      else if is_sym "]" t then Some (close_set neg (insert_first (FChar c) []) s)
      else option_map (fun d => set_mode (Items neg (FChar c) [] (Some d)) s) (cset_charN t)
  | FirstDash neg c => option_map (fun d => set_mode (Items neg (FRange c d) [] None) s) (cset_charN t)
  | Items neg f cs pend =>
      if is_sym "-" t then option_map (fun c => set_mode (ItemsDash neg f cs c) s) pend
      else if is_sym "]" t then Some (close_set neg (insert_first f (insert_last cs pend)) s)
      else option_map (fun d => set_mode (Items neg f (insert_last cs pend) (Some d)) s) (cset_charN t)
  | ItemsDash neg f cs c =>
      option_map (fun d => set_mode (Items neg f (insert_char_range cs c d) None) s) (cset_charN t)
  end.

Fixpoint parse_run (ts : list token) (s : pstate) : option pstate :=
  match ts with
  | [] => Some s
  | t :: ts => match parse_step s t with Some s => parse_run ts s | None => None end
  end.

(** The tree and the next node number, [None] for a syntax error. *)
Definition parse_tokens (n : positive) (ts : list token) : option (Node * positive) :=
  match parse_run ts (PState Top new_frame [] n) with
  | Some (PState Top f [] n') => Some (close f, n')
  | _ => None
  end.

(** *** Whatever the grammar derives is parsed *)

Lemma parse_run_app ts us s :
  parse_run (ts ++ us) s = match parse_run ts s with Some s => parse_run us s | None => None end.
Proof. revert s; induction ts as [|t ts IH]; intros s; cbn; [done|]. by destruct (parse_step s t). Qed.

(** Tokens that are characters of a class are none of the symbols outside it. *)
Lemma sym_in_not x t c s : sym_in s t = Some x -> existsb (Ascii.eqb c) s = false -> is_sym c t = false.
Proof.
  destruct t as [|d|d]; cbn; try done. destruct (existsb (Ascii.eqb d) s) eqn:E; [|done].
  intros _ H. destruct (Ascii.eqb_spec d c) as [->|]; congruence.
Qed.
Ltac not_sym H := repeat match goal with
  |- context [is_sym ?c ?t] => rewrite (sym_in_not _ t c _ H) by reflexivity end.

(** The modes at the end of the characters of a set. *)
Definition ends (neg : bool) (f : first) (cs : Chars) (m : mode) : Prop :=
  (exists c, m = First neg c /\ f = FChar c /\ cs = []) \/
  exists cs' pend, m = Items neg f cs' pend /\ insert_last cs' pend = cs.

Lemma ends_char neg f cs m t c s :
  ends neg f cs m -> cset_charN t = Some c ->
  parse_step (set_mode m s) t = Some (set_mode (Items neg f cs (Some c)) s).
Proof.
  intros [(a & -> & -> & ->)|(cs' & pend & -> & <-)] Ht; cbn; not_sym Ht; rewrite Ht; by destruct s.
Qed.

Lemma parse_cset ts cs :
  cset_chars ts cs -> forall neg f m s, ends neg f [] m ->
  exists m', parse_run ts (set_mode m s) = Some (set_mode m' s) /\ ends neg f cs m'.
Proof.
  intros H neg f m s Hm; induction H as [|ts cs t c _ (m' & Hr & He) Ht|ts cs t c u d _ (m' & Hr & He) Ht Hu].
  - by exists m.
  - exists (Items neg f cs (Some c)); split; [|by right; eexists _, _].
    rewrite parse_run_app, Hr. cbn [parse_run]. by rewrite (ends_char neg f cs m' t c).
  - exists (Items neg f (insert_char_range cs c d) None); split; [|by right; eexists _, _].
    rewrite parse_run_app, Hr. cbn [parse_run]. rewrite (ends_char neg f cs m' t c) by done.
    cbn. rewrite Hu. by destruct s.
Qed.

Lemma parse_close neg f cs m s :
  ends neg f cs m -> parse_step (set_mode m s) (sym "]") = Some (close_set neg (insert_first f cs) s).
Proof. intros [(a & -> & -> & ->)|(cs' & pend & -> & <-)]; by destruct s. Qed.

Lemma parse_charset ts cs (neg : bool) s m :
  charset ts cs -> (if neg then m = OpenNot else m = Open) ->
  parse_run (ts ++ [sym "]"]) (set_mode m s) = Some (close_set neg cs s).
Proof.
  intros H Hm. assert (Hc : forall t c, cset_char1 t = Some c ->
    parse_step (set_mode m s) t = Some (set_mode (First neg c) s)).
  { intros t c Ht. destruct neg; subst m; cbn; not_sym Ht; rewrite Ht; by destruct s. }
  destruct H as [t c ts cs Ht H|t c u d ts cs Ht Hu H]; cbn [app parse_run]; rewrite (Hc t c Ht).
  - destruct (parse_cset ts cs H neg (FChar c) (First neg c) s) as (m' & Hr & He); [by left; eexists|].
    rewrite parse_run_app, Hr. cbn [parse_run]. by rewrite (parse_close neg (FChar c) cs m').
  - cbn [parse_step p_mode set_mode is_sym option_map]. cbn. rewrite Hu. cbn [option_map].
    destruct (parse_cset ts cs H neg (FRange c d) (Items neg (FRange c d) [] None) s)
      as (m' & Hr & He); [by right; eexists _, _|].
    unfold set_mode in Hr |- *; cbn [p_frame p_stack p_next] in *.
    rewrite parse_run_app, Hr. cbn [parse_run].
    apply (parse_close _ _ _ _ s) in He. unfold set_mode in He. by rewrite He.
Qed.

Definition top (f : frame) (stk : list frame) (n : positive) : pstate := PState Top f stk n.

Definition reads_term (n : positive) ts t n' : Prop := forall f stk,
  parse_run ts (top f stk n) = Some (top (push_term t f) stk n').
Definition reads_qterm (n : positive) ts t n' : Prop := forall f stk,
  exists f', parse_run ts (top f stk n) = Some (top f' stk n') /\
  f_alt f' = f_alt f /\ terms_of f' = Some (add_qterm (terms_of f) t).
Definition reads_terms n ts t n' : Prop := forall f stk, terms_of f = None ->
  exists f', parse_run ts (top f stk n) = Some (top f' stk n') /\
  f_alt f' = f_alt f /\ terms_of f' = Some t.
Definition reads_terms0 n ts t n' : Prop := forall f stk, terms_of f = None ->
  exists f', parse_run ts (top f stk n) = Some (top f' stk n') /\
  f_alt f' = f_alt f /\ default EpsNode (terms_of f') = t.
Definition reads_expr n ts t n' : Prop := forall stk,
  exists f', parse_run ts (top new_frame stk n) = Some (top f' stk n') /\ close f' = t.

Lemma parse_complete :
  (forall n ts t n', regex n ts t n' -> reads_expr n ts t n') /\
  (forall n ts t n', expr n ts t n' -> reads_expr n ts t n') /\
  (forall n ts t n', terms0 n ts t n' -> reads_terms0 n ts t n') /\
  (forall n ts t n', terms n ts t n' -> reads_terms n ts t n') /\
  (forall n ts t n', qterm n ts t n' -> reads_qterm n ts t n') /\
  (forall n ts t n', term n ts t n' -> reads_term n ts t n').
Proof.
  apply grammar_mut; try done.
  - intros n stk. by exists new_frame.
  - intros n ts t n' _ IH stk. destruct (IH new_frame stk eq_refl) as (f' & Hr & Ha & Ht).
    exists f'; split; [done|]. unfold close. by rewrite Ha, Ht.
  - intros n ts t n' us u n'' _ IH _ IHu stk. destruct (IH stk) as (f & Hr & Hc).
    destruct (IHu (Frame (Some (close f)) None None) stk eq_refl) as (f' & Hr' & Ha & Ht).
    exists f'; split; [|unfold close; by rewrite Ha, Ht, Hc].
    rewrite parse_run_app, Hr. exact Hr'.
  - intros n us u n' _ IHu stk.
    destruct (IHu (Frame (Some EpsNode) None None) stk eq_refl) as (f' & Hr' & Ha & Ht).
    exists f'; split; [exact Hr'|]. unfold close. by rewrite Ha, Ht.
  - intros n f stk Hf. exists f; split_and!; [done..|]. by rewrite Hf.
  - intros n ts t n' _ IH f stk Hf. destruct (IH f stk Hf) as (f' & Hr & Ha & Ht).
    exists f'; split_and!; [done..|]. by rewrite Ht.
  - intros n ts t n' _ IH f stk Hf. destruct (IH f stk) as (f' & Hr & Ha & Ht).
    exists f'; split_and!; [done..|]. by rewrite Ht, Hf.
  - intros n ts t n' us u n'' _ IH _ IHu f stk Hf. destruct (IH f stk Hf) as (f1 & Hr & Ha & Ht).
    destruct (IHu f1 stk) as (f2 & Hr2 & Ha2 & Ht2).
    exists f2; split_and!; [by rewrite parse_run_app, Hr|congruence|by rewrite Ht2, Ht].
  - intros n ts t n' _ IH f stk. by exists (push_term t f).
  - intros n ts t n' _ IH f stk.
    exists (Frame (f_alt f) (Some (add_qterm (terms_of f) (StarNode t))) None); split_and!; [|done..].
    by rewrite parse_run_app, IH.
  - intros n ts t n' _ IH f stk.
    exists (Frame (f_alt f) (Some (add_qterm (terms_of f) (PlusNode t))) None); split_and!; [|done..].
    by rewrite parse_run_app, IH.
  - intros n t c Ht f stk. cbn. unfold top_step. by rewrite Ht.
  - intros n ts cs H f stk. apply (parse_charset ts cs false (top f stk n) Open H eq_refl).
  - intros n ts cs H f stk. apply (parse_charset ts cs true (top f stk n) OpenNot H eq_refl).
  - intros n ts cs H f stk. cbn [app parse_run].
    destruct (parse_cset ts cs H true (FChar (code "^"%char)) (Items true (FChar (code "^"%char)) [] None)
      (top f stk n)) as (m' & Hr & He); [by right; eexists _, _|].
    change (parse_run (ts ++ [sym "]"])
      (set_mode (Items true (FChar (code "^"%char)) [] None) (top f stk n)) = Some (top (push_term
      (Leaf (Imp n (NotCharSetNode (insert_char cs (code "^"%char))))) f) stk (Pos.succ n))).
    rewrite parse_run_app, Hr. cbn [parse_run].
    by rewrite (parse_close _ _ _ _ _ He).
  - intros n ts t n' _ IH f stk. destruct (IH (f :: stk)) as (f' & Hr & Hc).
    change (parse_run (ts ++ [sym ")"]) (top new_frame (f :: stk) n) = Some (top (push_term t f) stk n')).
    rewrite parse_run_app, Hr. by rewrite <- Hc.
Qed.

(** *** Whatever is parsed the grammar derives *)

Definition frame_rep (n : positive) (f : frame) (ts : list token) (n' : positive) : Prop :=
  exists ta n1 tt n2 tm, ts = ta ++ tt ++ tm /\
  match f_alt f with Some a => exists ta', ta = ta' ++ [sym "|"] /\ regex n ta' a n1 | None => ta = [] /\ n1 = n end /\
  match f_terms f with Some t => terms n1 tt t n2 | None => tt = [] /\ n2 = n1 end /\
  match f_term f with Some t => term n2 tm t n' | None => tm = [] /\ n' = n2 end.

Fixpoint stack_rep (n : positive) (stk : list frame) (ts : list token) (n' : positive) : Prop :=
  match stk with
  | [] => ts = [] /\ n' = n
  | f :: stk => exists ts1 n1 ts2, ts = ts1 ++ ts2 ++ [sym "("] /\
                stack_rep n stk ts1 n1 /\ frame_rep n1 f ts2 n'
  end.

Definition open_tokens (neg : bool) : list token := if neg then [sym "["; sym "^"] else [sym "["].

(** The tokens of a set up to its first character or range. *)
Inductive set_head : bool -> first -> list token -> Prop :=
| head_char neg t c : cset_char1 t = Some c -> set_head neg (FChar c) (open_tokens neg ++ [t])
| head_range neg t c u d : cset_char1 t = Some c -> cset_charN u = Some d ->
    set_head neg (FRange c d) (open_tokens neg ++ [t; sym "-"; u])
| head_caret : set_head true (FChar (code "^"%char)) [sym "["; sym "^"; sym "^"].

Definition mode_rep (m : mode) (ts : list token) : Prop :=
  match m with
  | Top => ts = []
  | Open => ts = open_tokens false
  | OpenNot => ts = open_tokens true
  | First neg c => exists t, ts = open_tokens neg ++ [t] /\ cset_char1 t = Some c
  | FirstDash neg c => exists t, ts = open_tokens neg ++ [t; sym "-"] /\ cset_char1 t = Some c
  | Items neg f cs pend => exists hd us, ts = hd ++ us /\ set_head neg f hd /\
      match pend with
      | None => cset_chars us cs
      | Some c => exists us' t, us = us' ++ [t] /\ cset_chars us' cs /\ cset_charN t = Some c
      end
  | ItemsDash neg f cs c => exists hd us t, ts = hd ++ us ++ [t; sym "-"] /\
      set_head neg f hd /\ cset_chars us cs /\ cset_charN t = Some c
  end.

Definition parsed (n : positive) (s : pstate) (ts : list token) : Prop :=
  exists ts1 n1 ts2 ts3, ts = ts1 ++ ts2 ++ ts3 /\
  stack_rep n (p_stack s) ts1 n1 /\ frame_rep n1 (p_frame s) ts2 (p_next s) /\ mode_rep (p_mode s) ts3.

Lemma set_head_term neg f hd us cs n :
  set_head neg f hd -> cset_chars us cs ->
  term n (hd ++ us ++ [sym "]"])
    (Leaf (Imp n (if neg then NotCharSetNode (insert_first f cs) else set_node (insert_first f cs))))
    (Pos.succ n).
Proof.
  intros Hh Hc. destruct Hh as [neg t c Ht|neg t c u d Ht Hu|]; [..|by constructor].
  - destruct neg; [apply (term_notset n (t :: us))|apply (term_set n (t :: us))]; by constructor.
  - destruct neg; [apply (term_notset n (t :: sym "-" :: u :: us))|apply (term_set n (t :: sym "-" :: u :: us))];
      by constructor.
Qed.

Lemma frame_terms n f ts n' :
  frame_rep n f ts n' -> exists ta n1 tt, ts = ta ++ tt /\
  match f_alt f with Some a => exists ta', ta = ta' ++ [sym "|"] /\ regex n ta' a n1 | None => ta = [] /\ n1 = n end /\
  match terms_of f with Some t => terms n1 tt t n' | None => tt = [] /\ n' = n1 end.
Proof.
  destruct f as [fa ft fm]; unfold frame_rep, terms_of; cbn.
  intros (ta & n1 & tt & n2 & tm & -> & Ha & Ht & Hm). exists ta, n1, (tt ++ tm); split_and!; [done..|].
  destruct fm as [q|].
  - apply qterm_term in Hm. destruct ft as [t|]; cbn.
    + by apply terms_cat with n2.
    + destruct Ht as [-> ->]. by constructor.
  - destruct Hm as [-> ->]. by rewrite app_nil_r.
Qed.

Lemma frame_close n f ts n' : frame_rep n f ts n' -> regex n ts (close f) n'.
Proof.
  intros (ta & n1 & tt & -> & Ha & Ht)%frame_terms. unfold close.
  destruct (f_alt f) as [a|], (terms_of f) as [t|]; cbn [default].
  - destruct Ha as (ta' & -> & Hr). rewrite <- app_assoc. apply regex_expr. apply terms0_terms in Ht.
    inversion Hr; subst; [by apply expr_eps|by apply expr_alt with n1].
  - destruct Ha as (ta' & -> & Hr), Ht as [-> ->]. rewrite app_nil_r. apply regex_expr.
    inversion Hr; subst; [apply expr_eps|apply expr_alt with n1; [done|]]; constructor.
  - destruct Ha as [-> ->]. by apply regex_expr, expr_terms.
  - destruct Ha as [-> ->], Ht as [-> ->]. constructor.
Qed.

Lemma frame_push n f ts n' us t n'' :
  frame_rep n f ts n' -> term n' us t n'' -> frame_rep n (push_term t f) (ts ++ us) n''.
Proof.
  intros (ta & n1 & tt & -> & Ha & Ht)%frame_terms Hu.
  exists ta, n1, tt, n', us; cbn. by rewrite app_assoc.
Qed.

Lemma frame_repeat (op : Node -> Node) c n f f' ts n' :
  (forall n ts t n', term n ts t n' -> qterm n (ts ++ [TSym c]) (op t) n') ->
  repeat_term op f = Some f' -> frame_rep n f ts n' -> frame_rep n f' (ts ++ [TSym c]) n'.
Proof.
  intros Hop. unfold repeat_term. destruct f as [fa ft [m|]]; cbn; [|done]. intros [= <-].
  intros (ta & n1 & tt & n2 & tm & -> & Ha & Ht & Hm). cbn in *.
  exists ta, n1, (tt ++ tm ++ [TSym c]), n', []; cbn. split; [|split; [done|split; [|done]]].
  - by rewrite app_nil_r, <- !app_assoc.
  - apply Hop in Hm. destruct ft as [t|]; cbn; [by apply terms_cat with n2|].
    destruct Ht as [-> ->]. by constructor.
Qed.

Lemma is_sym_true c t : is_sym c t = true -> t = TSym c.
Proof. destruct t as [|d|d]; cbn; try done. by intros ->%Ascii.eqb_eq. Qed.

Lemma frame_empty n : frame_rep n new_frame [] n.
Proof. by exists [], n, [], n, []. Qed.

Lemma parsed_leaf n s ts us k :
  parsed n (set_mode Top s) ts -> term (p_next s) us (Leaf (Imp (p_next s) k)) (Pos.succ (p_next s)) ->
  parsed n (push_leaf k s) (ts ++ us).
Proof.
  intros (ts1 & n1 & ts2 & ts3 & -> & Hs & Hf & Hm) Ht; cbn in *. subst ts3.
  exists ts1, n1, (ts2 ++ us), []; cbn; split_and!; [|done| |done].
  - by rewrite !app_nil_r, <- !app_assoc.
  - by apply (frame_push n1 _ ts2 (p_next s)).
Qed.

Lemma top_step_parsed n s t s' ts :
  p_mode s = Top -> parsed n s ts -> top_step s t = Some s' -> parsed n s' (ts ++ [t]).
Proof.
  intros Hm Hp. unfold top_step. destruct (regex_char t) as [c|] eqn:Hc.
  { intros [= <-]. apply parsed_leaf; [|by constructor]. destruct s; cbn in Hm; by subst. }
  destruct (is_sym "." t) eqn:E1.
  { intros [= <-]. apply is_sym_true in E1 as ->. apply parsed_leaf; [|by constructor].
    destruct s; cbn in Hm; by subst. }
  destruct Hp as (ts1 & n1 & ts2 & ts3 & -> & Hs & Hf & Hmr). rewrite Hm in Hmr; cbn in Hmr; subst ts3.
  rewrite app_nil_r.
  destruct (is_sym "*" t) eqn:E2; [|destruct (is_sym "+" t) eqn:E3].
  - apply is_sym_true in E2 as ->. destruct (repeat_term StarNode _) as [f'|] eqn:Er; [|done]. intros [= <-].
    exists ts1, n1, (ts2 ++ [sym "*"]), []; cbn; rewrite app_nil_r, <- app_assoc; split_and!; [done..| |done].
    eapply frame_repeat; [|done..]. intros; by constructor.
  - apply is_sym_true in E3 as ->. destruct (repeat_term PlusNode _) as [f'|] eqn:Er; [|done]. intros [= <-].
    exists ts1, n1, (ts2 ++ [sym "+"]), []; cbn; rewrite app_nil_r, <- app_assoc; split_and!; [done..| |done].
    eapply frame_repeat; [|done..]. intros; by constructor.
  - destruct (is_sym "|" t) eqn:E4; [|destruct (is_sym "(" t) eqn:E5;
      [|destruct (is_sym ")" t) eqn:E6; [|destruct (is_sym "[" t) eqn:E7; [|done]]]].
    + apply is_sym_true in E4 as ->. intros [= <-].
      exists ts1, n1, (ts2 ++ [sym "|"]), []; cbn; rewrite app_nil_r, <- app_assoc; split_and!; [done..| |done].
      exists (ts2 ++ [sym "|"]), (p_next s), [], (p_next s), []; cbn; rewrite !app_nil_r; split_and!; try done.
      exists ts2; split; [done|]. by apply frame_close.
    + apply is_sym_true in E5 as ->. intros [= <-].
      exists (ts1 ++ ts2 ++ [sym "("]), (p_next s), [], []; cbn; rewrite !app_nil_r, <- !app_assoc.
      split_and!; [done| |apply frame_empty|done]. by exists ts1, n1, ts2.
    + apply is_sym_true in E6 as ->. destruct (p_stack s) as [|f stk]; [done|]. intros [= <-].
      cbn in Hs. destruct Hs as (us1 & n2 & us2 & -> & Hs & Hf2).
      exists us1, n2, (us2 ++ (sym "(" :: ts2 ++ [sym ")"])), []; cbn.
      split_and!; [|done| |done].
      * rewrite app_nil_r, <- !app_assoc. cbn. done.
      * apply (frame_push n2 f us2 n1); [done|]. apply term_group. by apply frame_close.
    + apply is_sym_true in E7 as ->. intros [= <-].
      exists ts1, n1, ts2, [sym "["]; cbn. by rewrite <- app_assoc.
Qed.

Lemma parsed_mode n s ts1 n1 ts2 m ts3 ts :
  stack_rep n (p_stack s) ts1 n1 -> frame_rep n1 (p_frame s) ts2 (p_next s) -> mode_rep m ts3 ->
  ts = ts1 ++ ts2 ++ ts3 -> parsed n (set_mode m s) ts.
Proof. intros Hs Hf Hm ->. by exists ts1, n1, ts2, ts3. Qed.

Lemma parsed_close n s ts1 n1 ts2 neg f hd us cs ts :
  stack_rep n (p_stack s) ts1 n1 -> frame_rep n1 (p_frame s) ts2 (p_next s) ->
  set_head neg f hd -> cset_chars us cs -> ts = ts1 ++ ts2 ++ hd ++ us ++ [sym "]"] ->
  parsed n (close_set neg (insert_first f cs) s) ts.
Proof.
  intros Hs Hf Hh Hc ->. rewrite app_assoc. apply parsed_leaf; [|by apply set_head_term].
  exists ts1, n1, ts2, []; cbn. by rewrite app_nil_r.
Qed.

Lemma insert_last_chars us cs pend :
  match pend with
  | None => cset_chars us cs
  | Some c => exists us' t, us = us' ++ [t] /\ cset_chars us' cs /\ cset_charN t = Some c
  end -> cset_chars us (insert_last cs pend).
Proof. destruct pend as [c|]; [|done]. intros (us' & t & -> & H & Ht). by constructor. Qed.

Lemma parse_step_parsed n s t s' ts :
  parsed n s ts -> parse_step s t = Some s' -> parsed n s' (ts ++ [t]).
Proof.
  intros Hp Hst. unfold parse_step in Hst. destruct (p_mode s) as [| | |neg c|neg c|neg f cs pend|neg f cs c] eqn:Em.
  { by eapply top_step_parsed. }
  all: destruct Hp as (ts1 & n1 & ts2 & ts3 & -> & Hs & Hf & Hm); rewrite Em in Hm; cbn in Hm.
  - subst ts3. destruct (is_sym "^" t) eqn:E; [apply is_sym_true in E as ->; injection Hst as <-|].
    + eapply parsed_mode; [done..|by cbn|by rewrite <- !app_assoc].
    + destruct (cset_char1 t) as [c|] eqn:Ec; [|done]. injection Hst as <-.
      eapply parsed_mode; [done..|by exists t|by rewrite <- !app_assoc].
  - subst ts3. destruct (is_sym "^" t) eqn:E; [apply is_sym_true in E as ->; injection Hst as <-|].
    + eapply (parsed_mode _ _ _ _ _ _ ([sym "["; sym "^"; sym "^"] ++ [])); [done..| |by rewrite <- !app_assoc].
      eexists _, []; split_and!; [done|constructor..].
    + destruct (cset_char1 t) as [c|] eqn:Ec; [|done]. injection Hst as <-.
      eapply parsed_mode; [done..|by exists t|by rewrite <- !app_assoc].
  - destruct Hm as (u & -> & Hu). destruct (is_sym "-" t) eqn:E; [|destruct (is_sym "]" t) eqn:E2].
    + apply is_sym_true in E as ->; injection Hst as <-.
      eapply parsed_mode; [done..|by exists u|by rewrite <- !app_assoc].
    + apply is_sym_true in E2 as ->; injection Hst as <-.
      eapply (parsed_close _ _ _ _ _ neg (FChar c) _ [] []); [done..|by constructor|by constructor|].
      by rewrite <- !app_assoc.
    + destruct (cset_charN t) as [d|] eqn:Ec; [|done]. injection Hst as <-.
      eapply (parsed_mode _ _ _ _ _ _ ((open_tokens neg ++ [u]) ++ [t])); [done..| |by rewrite <- !app_assoc].
      eexists _, _; split_and!; [done|by constructor|]. exists [], t. split_and!; [done|constructor|done].
  - destruct Hm as (u & -> & Hu). destruct (cset_charN t) as [d|] eqn:Ec; [|done]. injection Hst as <-.
    eapply (parsed_mode _ _ _ _ _ _ ((open_tokens neg ++ [u; sym "-"; t]) ++ [])); [done..| |].
    + eexists _, []; split_and!; [done|by constructor|constructor].
    + by rewrite app_nil_r, <- !app_assoc.
  - destruct Hm as (hd & us & -> & Hh & Hus). destruct (is_sym "-" t) eqn:E; [|destruct (is_sym "]" t) eqn:E2].
    + apply is_sym_true in E as ->. destruct pend as [c|]; [|done]; injection Hst as <-.
      destruct Hus as (us' & u & -> & Hus & Hu).
      eapply (parsed_mode _ _ _ _ _ _ (hd ++ us' ++ [u; sym "-"])); [done..| |by rewrite <- !app_assoc].
      by exists hd, us', u.
    + apply is_sym_true in E2 as ->; injection Hst as <-.
      eapply parsed_close; [done..|by apply insert_last_chars|by rewrite <- !app_assoc].
    + destruct (cset_charN t) as [d|] eqn:Ec; [|done]. injection Hst as <-.
      eapply (parsed_mode _ _ _ _ _ _ (hd ++ us ++ [t])); [done..| |by rewrite <- !app_assoc].
      eexists hd, _; split_and!; [done..|]. exists us, t; split_and!; [done|by apply insert_last_chars|done].
  - destruct Hm as (hd & us & u & -> & Hh & Hus & Hu). destruct (cset_charN t) as [d|] eqn:Ec; [|done].
    injection Hst as <-.
    eapply (parsed_mode _ _ _ _ _ _ (hd ++ us ++ [u; sym "-"; t])); [done..| |by rewrite <- !app_assoc].
    eexists hd, _; split_and!; [done..|]. by constructor.
Qed.

Lemma parse_run_parsed n ts s s' us :
  parsed n s us -> parse_run ts s = Some s' -> parsed n s' (us ++ ts).
Proof.
  revert s us; induction ts as [|t ts IH]; intros s us Hp; cbn.
  - intros [= <-]. by rewrite app_nil_r.
  - destruct (parse_step s t) as [s1|] eqn:E; [|done]. intros H.
    apply (IH s1 (us ++ [t])) in H; [|by apply parse_step_parsed with s]. by rewrite <- app_assoc in H.
Qed.

Lemma parse_tokens_iff n ts t n' : parse_tokens n ts = Some (t, n') <-> regex n ts t n'.
Proof.
  unfold parse_tokens. split.
  - destruct (parse_run ts _) as [[m f stk n1]|] eqn:E; [|done]. destruct m; try done.
    destruct stk; [|done]. intros [= <- <-].
    apply (parse_run_parsed n _ _ _ []) in E.
    + cbn [app] in E. destruct E as (ts1 & n2 & ts2 & ts3 & -> & [-> ->] & Hf & ->). cbn in *. rewrite app_nil_r.
      by apply frame_close.
    + exists [], n, [], []; split_and!; [done..|apply frame_empty|done].
  - intros H. destruct (proj1 parse_complete _ _ _ _ H []) as (f & Hr & <-). unfold top in Hr. by rewrite Hr.
Qed.

(** C7: the parser of regular expressions and the grammar agree: it accepts
    exactly the token strings the grammar derives and builds the tree of their
    derivation; the grammar is unambiguous. *)
Theorem parse_tokens_grammar n ts :
  (forall t n', parse_tokens n ts = Some (t, n') <-> regex n ts t n') /\
  (forall t n' u m, regex n ts t n' -> regex n ts u m -> t = u /\ n' = m).
Proof.
  split; [intros; apply parse_tokens_iff|]. intros t n' u m H1 H2.
  apply parse_tokens_iff in H1, H2. by simplify_eq.
Qed.

(** ** The trees that are built *)

Lemma range_loop_elem n i cs c : c ∈ range_loop n i cs <-> c ∈ cs \/ i <= c < i + Z.of_nat n.
Proof.
  revert i cs; induction n as [|n IH]; intros i cs; cbn [range_loop]; [intuition lia|].
  rewrite IH, Chars_insert_elem. assert (c = i \/ c <> i) by lia. intuition lia.
Qed.
Lemma insert_char_range_elem cs a b c :
  c ∈ insert_char_range cs a b <-> c ∈ cs \/ Z.min a b <= c <= Z.max a b.
Proof. unfold insert_char_range. destruct (Z.ltb_spec b a); rewrite range_loop_elem; intuition lia. Qed.

Definition byte_leaf (p : ImportantNode) : Prop :=
  match node_type p with
  | CharNode c => is_byte c
  | CharSetNode cs | NotCharSetNode cs => Forall is_byte cs
  | AnyCharNode => True
  | AcceptNode _ _ _ _ => False
  end.
(** What a pattern's tree is made of: new nodes that match bytes. *)
Record fresh (n : positive) (t : Node) (n' : positive) : Prop := {
  fr_le : (n <= n')%positive;
  fr_nodup : NoDup (leaves t);
  fr_inhabited : inhabited_nodes t = true;
  fr_private : no_shared t = true;
  fr_ids : Forall (fun p => n <= node_id p < n')%positive (leaves t);
  fr_bytes : Forall byte_leaf (leaves t)
}.

Lemma code_byte c : is_byte (code c).
Proof. exact (code_range c). Qed.
Lemma sym_in_byte s t c : sym_in s t = Some c -> is_byte c.
Proof. destruct t as [|a|a]; cbn; [done|destruct (existsb _ _); [|done]|]; intros [= <-]; apply code_byte. Qed.
#[local] Hint Resolve sym_in_byte code_byte : aa.

Lemma bytes_insert cs c : Forall is_byte cs -> is_byte c -> Forall is_byte (insert_char cs c).
Proof.
  intros Hcs Hc. apply Forall_forall. intros d [->|Hd]%Chars_insert_elem; [done|].
  rewrite Forall_forall in Hcs. by apply Hcs.
Qed.
Lemma bytes_range cs c d :
  Forall is_byte cs -> is_byte c -> is_byte d -> Forall is_byte (insert_char_range cs c d).
Proof.
  intros Hcs Hc Hd. apply Forall_forall. intros e [He|He]%insert_char_range_elem.
  - rewrite Forall_forall in Hcs. by apply Hcs.
  - unfold is_byte in *; lia.
Qed.
#[local] Hint Resolve bytes_insert bytes_range Forall_nil_2 : aa.
Lemma cset_bytes ts cs : cset_chars ts cs -> Forall is_byte cs.
Proof. induction 1; eauto with aa. Qed.
#[local] Hint Resolve cset_bytes : aa.
Lemma charset_bytes ts cs : charset ts cs -> Forall is_byte cs.
Proof. destruct 1; eauto with aa. Qed.
#[local] Hint Resolve charset_bytes : aa.

Lemma fresh_leaf n k : byte_leaf (Imp n k) -> fresh n (Leaf (Imp n k)) (Pos.succ n).
Proof.
  intros Hk. split; cbn; try done; [lia|apply NoDup_singleton|apply Forall_singleton; cbn; lia|].
  by apply Forall_singleton.
Qed.
Lemma fresh_eps n : fresh n EpsNode n.
Proof. split; cbn; try done; try lia; constructor. Qed.
Lemma fresh_pair n t n' u n'' :
  fresh n t n' -> fresh n' u n'' -> fresh n (CatNode [t; u]) n'' /\ fresh n (AltNode [t; u]) n''.
Proof.
  intros [L1 D1 I1 P1 F1 B1] [L2 D2 I2 P2 F2 B2].
  assert (Hle : (n <= n'')%positive) by lia.
  assert (Hnd : NoDup (leaves t ++ leaves u)).
  { apply NoDup_app; split_and!; [done| |done]. intros p Hp Hq. rewrite Forall_forall in F1, F2.
    specialize (F1 p Hp). specialize (F2 p Hq). cbn in *. lia. }
  assert (Hids : Forall (fun p => n <= node_id p < n'')%positive (leaves t ++ leaves u)).
  { apply Forall_app; split; eapply Forall_impl; [exact F1| |exact F2|]; cbn; lia. }
  assert (Hb : Forall byte_leaf (leaves t ++ leaves u)) by (by apply Forall_app).
  split; split; cbn; rewrite ?app_nil_r; try done; by rewrite ?I1, ?I2, ?P1, ?P2.
Qed.
Lemma byte_set n cs : Forall is_byte cs -> byte_leaf (Imp n (set_node cs)).
Proof. unfold byte_leaf. destruct cs as [|c [|d cs]]; cbn; [done| |done]. apply Forall_singleton. Qed.

(** A pattern's tree is made of new nodes that match bytes. *)
Lemma grammar_fresh :
  (forall n ts t n', regex n ts t n' -> fresh n t n') /\
  (forall n ts t n', expr n ts t n' -> fresh n t n') /\
  (forall n ts t n', terms0 n ts t n' -> fresh n t n') /\
  (forall n ts t n', terms n ts t n' -> fresh n t n') /\
  (forall n ts t n', qterm n ts t n' -> fresh n t n') /\
  (forall n ts t n', term n ts t n' -> fresh n t n').
Proof.
  apply grammar_mut; try done; try (intros; apply fresh_eps).
  - intros n ts t n' us u n'' _ H1 _ H2. by apply (fresh_pair n t n').
  - intros n us u n' _ H2. apply (fresh_pair n EpsNode n); [apply fresh_eps|done].
  - intros n ts t n' us u n'' _ H1 _ H2. by apply (fresh_pair n t n').
  - intros n ts t n' _ []. by split.
  - intros n ts t n' _ []. by split.
  - intros n. by apply fresh_leaf.
  - intros n t c Hc. apply fresh_leaf. unfold byte_leaf; cbn. by eapply sym_in_byte.
  - intros n ts cs H. apply fresh_leaf, byte_set. eauto with aa.
  - intros n ts cs H. apply fresh_leaf. unfold byte_leaf; cbn. eauto with aa.
  - intros n ts cs H. apply fresh_leaf. unfold byte_leaf; cbn. eauto with aa.
Qed.

(** ** Texts *)

(** All tokens of a text, [None] if they do not end or the lexer leaves the
    text: every token that does not keep the lexer in place takes a character. *)
Fixpoint lex_all (fuel : nat) (text : cstr) : option (list token) :=
  match fuel with
  | O => None
  | S fuel =>
      match regex_lex text with
      | (TEnd, _) => Some []
      | (t, Some p) => option_map (cons t) (lex_all fuel p)
      | (_, None) => None
      end
  end.

Inductive parse_result := Parsed (t : Node) (next : positive) | SyntaxError | NoEnd.
Definition regex_parse (n : positive) (text : cstr) : parse_result :=
  match lex_all (S (length text)) text with
  | Some ts => match parse_tokens n ts with Some (t, n') => Parsed t n' | None => SyntaxError end
  | None => NoEnd
  end.

(** The lexer never moves back, so where it does not move on it stays for ever,
    and one step for each character is enough. *)
Lemma regex_lex_forward text t p : cstr_ok text -> regex_lex text = (t, Some p) -> exists k, p = drop k text.
Proof.
  destruct text as [|c s]; [intros _ [= _ <-]; by exists 0%nat|]. intros Hok. unfold regex_lex.
  destruct (existsb _ _); [intros [= _ <-]; by exists 1%nat|].
  destruct (Ascii.eqb c "\"%char); [|intros [= _ <-]; by exists 1%nat].
  destruct (str_escseq s regex_escapes) as [v [q|]] eqn:E; [|done].
  destruct (v =? -1); intros [= _ <-]; [by eexists|].
  destruct s as [|d s]; [vm_compute in E; done|]. inversion_clear Hok as [|? ? _ Hok'].
  destruct (strn_escseq_shape (d :: s) regex_escapes SIZE_MAX v q) as [(pre & Hp & _) _]; try done;
    [by repeat constructor|].
  exists (S (length pre)). cbn [drop]. by rewrite Hp, drop_app_length.
Qed.
Lemma lex_all_stuck text t fuel : t <> TEnd -> regex_lex text = (t, Some text) -> lex_all fuel text = None.
Proof. intros Ht H. induction fuel as [|fuel IH]; cbn; [done|]. rewrite H, IH. by destruct t. Qed.

Lemma lex_all_enough fuel text ts :
  cstr_ok text -> lex_all fuel text = Some ts ->
  forall m, (length text < m)%nat -> lex_all m text = Some ts.
Proof.
  revert text ts; induction fuel as [|fuel IH]; intros text ts Hok; cbn [lex_all]; [done|].
  destruct (regex_lex text) as [t [p|]] eqn:E; [|destruct t; try done; intros [= <-] [|m] Hm; [lia|]; cbn; by rewrite E].
  destruct (decide (t = TEnd)) as [->|Ht]; [intros [= <-] [|m] Hm; [lia|]; cbn; by rewrite E|].
  assert (Hcase : lex_all (S fuel) text = option_map (cons t) (lex_all fuel p)) by (cbn; rewrite E; by destruct t).
  cbn [lex_all] in Hcase. rewrite E in Hcase. intros H [|m] Hm; [lia|]. cbn. rewrite E.
  rewrite Hcase in H. destruct (lex_all fuel p) as [us|] eqn:El; [|done]. injection H as <-.
  destruct (regex_lex_forward text t p Hok E) as [k ->].
  destruct k as [|k]; [exfalso; rewrite drop_0 in E, El; by rewrite (lex_all_stuck text t) in El|].
  destruct text as [|c s]; [cbn in E; injection E as <-; done|].
  assert (Hd : (length (drop (S k) (c :: s)) < m)%nat) by (rewrite length_drop; cbn in *; lia).
  rewrite (IH _ us) with (m := m); [by destruct t| |done|done].
  by apply Forall_drop.
Qed.

Lemma regex_parse_fresh n text t n' : regex_parse n text = Parsed t n' -> fresh n t n'.
Proof.
  unfold regex_parse. destruct (lex_all _ _) as [ts|]; [|done].
  destruct (parse_tokens n ts) as [[t1 n1]|] eqn:E; [|done]. intros [= <- <-].
  apply parse_tokens_iff in E. by apply grammar_fresh in E.
Qed.
