(* ===== verification/Glob.v ===== *)
(** What globs mean: the strings a glob matches, and the proof that the
    conversion of the front end ([parser/parser_regex.c]), the lexer and the
    grammar of the automaton library ([parser/libapparmor_re/parse.y]) turn the
    text of a glob into a tree that matches exactly these strings. *)

From stdpp Require Import gmap.
From S2P Require Import Prelude Lib Regex Expr RegexParse.

(** ** Globs *)

Inductive glob_item :=
| GLit (c : ascii)
| GAny
| GStar
| GStarStar
| GClass (neg : bool) (cs : list ascii)
| GAlt (g : glob) (a : alts)
with glob := GNil | GCons (i : glob_item) (g : glob)
with alts := AOne (g : glob) | AMore (g : glob) (a : alts).

Scheme item_mut := Induction for glob_item Sort Prop
  with glob_mut := Induction for glob Sort Prop
  with alts_mut := Induction for alts Sort Prop.
Combined Scheme globs_mut from item_mut, glob_mut, alts_mut.

(** The text of a glob, characters that are special quoted. *)
Fixpoint print_item (i : glob_item) : cstr :=
  match i with
  | GLit c => quote_char c
  | GAny => $"?"
  | GStar => $"*"
  | GStarStar => $"**"
  | GClass neg cs => "["%char :: (if neg then $"^" else []) ++ cs ++ $"]"
  | GAlt g a => "{"%char :: print g ++ ","%char :: print_alts a ++ $"}"
  end
with print (g : glob) : cstr :=
  match g with GNil => [] | GCons i g => print_item i ++ print g end
with print_alts (a : alts) : cstr :=
  match a with AOne g => print g | AMore g a => print g ++ ","%char :: print_alts a end.

Definition is_star (i : glob_item) : bool := match i with GStar | GStarStar => true | _ => false end.
Definition starts_star (g : glob) : bool := match g with GCons i _ => is_star i | GNil => false end.
(** Characters that need no quotes in a class. *)
Definition class_char (c : ascii) : bool := other c && negb (Ascii.eqb c "-"%char) && negb (Ascii.eqb c NUL).

(** Texts that are read back as the glob, with groups less than [MAX_ALT_DEPTH]
    deep: a single star is not followed by another star. *)
Fixpoint item_wf (d : Z) (i : glob_item) : bool :=
  match i with
  | GLit c => negb (Ascii.eqb c NUL)
  | GAny | GStar | GStarStar => true
  | GClass _ cs => negb (length cs =? 0)%nat && forallb class_char cs
  | GAlt g a => (d + 1 <? MAX_ALT_DEPTH) && glob_wf (d + 1) g && alts_wf (d + 1) a
  end
with glob_wf (d : Z) (g : glob) : bool :=
  match g with
  | GNil => true
  | GCons i g => item_wf d i && glob_wf d g &&
                 match i with GStar => negb (starts_star g) | _ => true end
  end
with alts_wf (d : Z) (a : alts) : bool :=
  match a with AOne g => glob_wf d g | AMore g a => glob_wf d g && alts_wf d a end.

(** ** The strings of a glob *)

Definition one (P : Z -> bool) (w : list Z) : Prop := exists c, w = [c] /\ P c = true.

(** Characters inside of a path component and in paths, which hold no NUL unless
    the glob may match one. *)
Definition path_char (gt : Z) (c : Z) : bool := (0 <=? c) && (negb (gt =? glob_default) || negb (c =? 0)).
Definition component_char (gt : Z) (c : Z) : bool := path_char gt c && negb (c =? code SLASH).

Fixpoint skip_star_items (g : glob) : glob :=
  match g with GCons i g' => if is_star i then skip_star_items g' else g | GNil => g end.
(** The end of a path component: what follows the stars is a slash or the end of
    the pattern, which inside of a group it is not. *)
Definition component_end (inner : bool) (g : glob) : bool :=
  match skip_star_items g with
  | GNil => negb inner
  | GCons (GLit c) _ => Ascii.eqb c SLASH
  | _ => false
  end.
Definition is_slash (i : glob_item) : bool := match i with GLit c => Ascii.eqb c SLASH | _ => false end.

(** [ne]: stars that are a whole component match at least one character. *)
Fixpoint item_lang (gt : Z) (ne : bool) (i : glob_item) : list Z -> Prop :=
  let start := if ne then one (component_char gt) else fun w => w = [] in
  match i with
  | GLit c => fun w => w = [code c]
  | GAny => one (component_char gt)
  | GStar => cat start (star (one (component_char gt)))
  | GStarStar => cat start (star (one (path_char gt)))
  | GClass neg cs => one (fun c => (0 <=? c) && xorb neg (existsb (fun d => code d =? c) cs))
  | GAlt g a => fun w => glob_lang gt true false g w \/ alts_lang gt a w
  end
with glob_lang (gt : Z) (inner prev : bool) (g : glob) : list Z -> Prop :=
  match g with
  | GNil => fun w => w = []
  | GCons i g => cat (item_lang gt (prev && component_end inner g) i) (glob_lang gt inner (is_slash i) g)
  end
with alts_lang (gt : Z) (a : alts) : list Z -> Prop :=
  match a with
  | AOne g => glob_lang gt true false g
  | AMore g a => fun w => glob_lang gt true false g w \/ alts_lang gt a w
  end.

(** ** What the conversion emits *)

Definition any_text (gt : Z) : cstr := if gt =? glob_default then $"[^\x00]*" else $".*".
Definition comp_text (gt : Z) : cstr := if gt =? glob_default then $"[^/\x00]" else $"[^/]".

Fixpoint emit_item (gt : Z) (ne : bool) (i : glob_item) : cstr :=
  let start := if ne then comp_text gt else [] in
  match i with
  | GLit c => emit_char c
  | GAny => comp_text gt
  | GStar => start ++ comp_text gt ++ $"*"
  | GStarStar => start ++ any_text gt
  | GClass neg cs => "["%char :: (if neg then $"^" else []) ++ cs ++ $"]"
  | GAlt g a => "("%char :: emit gt true false g ++ "|"%char :: emit_alts gt a ++ $")"
  end
with emit (gt : Z) (inner prev : bool) (g : glob) : cstr :=
  match g with
  | GNil => []
  | GCons i g => emit_item gt (prev && component_end inner g) i ++ emit gt inner (is_slash i) g
  end
with emit_alts (gt : Z) (a : alts) : cstr :=
  match a with
  | AOne g => emit gt true false g
  | AMore g a => emit gt true false g ++ "|"%char :: emit_alts gt a
  end.

(** *** The conversion *)

(** Reading [s] from states with the groups [stack] open appends [e]. *)
Definition converts (gt : Z) (stack stack' : list Z) (prev : bool) (s rest e : cstr) : Prop :=
  forall st, stands_for st false false stack -> last_is_slash (pcre st) = prev ->
  exists st' k, (k <= length s)%nat /\ stands_for st' false false stack' /\ pcre st' = pcre st ++ e /\
  forall fuel, conv_loop (k + fuel) gt (s ++ rest) st = conv_loop fuel gt rest st'.

Lemma conv_loop_step gt c s st esc cls stack fuel :
  c <> NUL -> stands_for st esc cls stack ->
  conv_loop (S fuel) gt (c :: s) st = let '(st, s) := conv_step gt (c :: s) st in conv_loop fuel gt s st.
Proof. intros Hc (He & _). cbn. rewrite He. by rewrite (proj2 (Ascii.eqb_neq c NUL) Hc). Qed.

Lemma last_is_slash_app s e : e <> [] -> last_is_slash (s ++ e) = last_is_slash e.
Proof.
  intros He. unfold last_is_slash. destruct (exists_last He) as (e' & x & ->).
  by rewrite app_assoc, !last_snoc.
Qed.

Lemma converts_app_if gt stack1 stack2 stack3 prev s1 s2 rest e1 e2 :
  converts gt stack1 stack2 prev s1 (s2 ++ rest) e1 ->
  (forall s, last_is_slash s = prev -> converts gt stack2 stack3 (last_is_slash (s ++ e1)) s2 rest e2) ->
  converts gt stack1 stack3 prev (s1 ++ s2) rest (e1 ++ e2).
Proof.
  intros H1 H2 st Hst Hl. destruct (H1 st Hst Hl) as (st1 & k1 & Hk1 & Hs1 & Hp1 & Hf1).
  destruct (H2 _ Hl st1 Hs1) as (st2 & k2 & Hk2 & Hs2 & Hp2 & Hf2); [by rewrite Hp1|].
  exists st2, (k1 + k2)%nat; split_and!; [rewrite length_app; lia|done|by rewrite Hp2, Hp1, app_assoc|].
  intros fuel. by rewrite <- !app_assoc, <- Nat.add_assoc, Hf1, Hf2.
Qed.
Lemma converts_app gt stack1 stack2 stack3 prev prev2 s1 s2 rest e1 e2 :
  converts gt stack1 stack2 prev s1 (s2 ++ rest) e1 ->
  (forall s, last_is_slash s = prev -> last_is_slash (s ++ e1) = prev2) ->
  converts gt stack2 stack3 prev2 s2 rest e2 ->
  converts gt stack1 stack3 prev (s1 ++ s2) rest (e1 ++ e2).
Proof.
  intros H1 Hp H2. apply (converts_app_if gt stack1 stack2 stack3 prev s1 s2 rest e1 e2 H1).
  intros s Hs. by rewrite (Hp s Hs).
Qed.
(** One character that is not part of an escape. *)
Lemma converts_step gt stack stack' prev c rest e cls cls' :
  glob_ok gt -> cstr_ok (c :: rest) -> aare_next c false cls stack = Some (false, cls', stack') ->
  (forall st, stands_for st false cls stack -> last_is_slash (pcre st) = prev ->
    (conv_step gt (c :: rest) st).2 = rest /\ pcre (conv_step gt (c :: rest) st).1 = pcre st ++ e) ->
  forall st, stands_for st false cls stack -> last_is_slash (pcre st) = prev ->
  exists st', stands_for st' false cls' stack' /\ pcre st' = pcre st ++ e /\
  forall fuel, conv_loop (S fuel) gt (c :: rest) st = conv_loop fuel gt rest st'.
Proof.
  intros Hg Hok Hn Hstep st Hst Hl. destruct (Hstep st Hst Hl) as [H1 H2].
  pose proof (conv_step_simulates gt c rest st false cls stack Hg Hok Hst) as Hsim. rewrite Hn in Hsim.
  destruct Hsim as [Hst' _]. exists (conv_step gt (c :: rest) st).1; split_and!; [done..|].
  intros fuel. erewrite conv_loop_step; [|by inversion Hok|done].
  destruct (conv_step gt (c :: rest) st); cbn in *. by subst.
Qed.

Lemma converts_char gt stack stack' prev c rest e :
  glob_ok gt -> cstr_ok (c :: rest) -> aare_next c false false stack = Some (false, false, stack') ->
  (forall st, stands_for st false false stack -> last_is_slash (pcre st) = prev ->
    (conv_step gt (c :: rest) st).2 = rest /\ pcre (conv_step gt (c :: rest) st).1 = pcre st ++ e) ->
  converts gt stack stack' prev [c] rest e.
Proof.
  intros Hg Hok Hn Hstep st Hst Hl.
  destruct (converts_step gt stack stack' prev c rest e false false Hg Hok Hn Hstep st Hst Hl)
    as (st' & H1 & H2 & H3). by exists st', 1%nat.
Qed.

Lemma converts_lit gt stack prev c rest :
  glob_ok gt -> c <> NUL -> cstr_ok rest -> converts gt stack stack prev (quote_char c) rest (emit_char c).
Proof.
  intros Hg Hc Hok. unfold quote_char. destruct (other c) eqn:Eo.
  - apply converts_char; [done|by constructor| |].
    + unfold other in Eo. unfold aare_next. by destruct (aare_class c).
    + intros st (He & Hb & _) _. rewrite conv_step_plain by done. split; [done|].
      unfold emit_char. unfold other in Eo. by destruct (aare_class c).
  - intros st Hst _. pose proof Hst as (He & Hb & Hcl & _).
    exists (advance 1 (set_escape false (append (emit_char c) (advance 1 (set_escape true st))))), 2%nat.
    split_and!; [done| |done|].
    + by apply (stands_for_core st _ _ false).
    + intros fuel. cbn [Nat.add app]. rewrite (conv_loop_step _ _ _ _ false false stack) by done.
      rewrite conv_step_escape by done.
      erewrite (conv_loop_step _ _ _ _ true false stack); [|done|].
      * by rewrite conv_step_quoted.
      * destruct Hst as (? & _ & ? & ? & Hn). split_and!; try done.
Qed.

Lemma converts_any gt stack prev rest :
  glob_ok gt -> cstr_ok rest -> converts gt stack stack prev $"?" rest (comp_text gt).
Proof.
  intros Hg Hok. apply converts_char; [done|by constructor|done|].
  intros st (He & Hb & _) _. unfold conv_step, conv_case; cbn. rewrite Hb. by destruct Hg as [->| ->].
Qed.

(** The characters of a class, with its end. *)
Lemma class_chars_loop gt stack cs rest :
  glob_ok gt -> cstr_ok rest -> forallb class_char cs = true ->
  forall st, stands_for st false true stack ->
  exists st', stands_for st' false false stack /\ pcre st' = pcre st ++ cs ++ $"]" /\
  forall fuel, conv_loop (length cs + S fuel) gt (cs ++ $"]" ++ rest) st = conv_loop fuel gt rest st'.
Proof.
  intros Hg Hok. induction cs as [|c cs IH]; cbn [forallb length app Nat.add]; intros Hcs st Hst.
  - destruct (converts_step gt stack stack (last_is_slash (pcre st)) "]"%char rest $"]" true false)
      with (st := st) as (st' & H1 & H2 & H3); try done.
    + by constructor.
    + intros s (He & Hb & Hc & _) _. unfold conv_step, conv_case; cbn. by rewrite Hb, Hc.
    + by exists st'.
  - apply andb_prop in Hcs as [Hc Hcs]. unfold class_char in Hc.
    apply andb_prop in Hc as [Hc Hnn]. apply andb_prop in Hc as [Ho Hd].
    assert (c <> NUL) by (intros ->; done). pose proof Hst as (He & Hb & _).
    destruct (IH Hcs (advance 1 (set_escape false (append [c] st)))) as (st' & H1 & H2 & H3).
    { by apply (stands_for_core st _ _ false). }
    exists st'; split_and!; [done|rewrite H2; cbn; by rewrite <- app_assoc|].
    intros fuel. erewrite conv_loop_step by done. rewrite conv_step_plain by done. apply H3.
Qed.

Lemma converts_class gt stack prev (neg : bool) cs rest :
  glob_ok gt -> cstr_ok rest -> forallb class_char cs = true ->
  converts gt stack stack prev (print_item (GClass neg cs)) rest (print_item (GClass neg cs)).
Proof.
  intros Hg Hok Hcs st Hst Hl.
  assert (Hcok : cstr_ok cs).
  { apply Forall_forall. intros c Hc ->. rewrite forallb_forall in Hcs.
    apply list_elem_of_In in Hc. by specialize (Hcs _ Hc). }
  set (s := (if neg then $"^" else []) ++ cs ++ $"]" ++ rest).
  assert (Hs : cstr_ok s).
  { apply cstr_ok_app; split; [by destruct neg; repeat constructor|].
    apply cstr_ok_app; split; [done|]. by constructor. }
  destruct (converts_step gt stack stack prev "["%char s $"[" false true) with (st := st)
    as (st1 & H1 & H2 & H3); try done.
  { by constructor. }
  { intros s' (He & Hb & Hc & _) _. unfold conv_step, conv_case; cbn. by rewrite Hb. }
  assert (Hneg : exists st2, stands_for st2 false true stack /\
    pcre st2 = pcre st1 ++ (if neg then $"^" else []) /\
    forall fuel, conv_loop ((if neg then 1 else 0) + fuel) gt s st1 = conv_loop fuel gt (cs ++ $"]" ++ rest) st2).
  { destruct neg; [|exists st1; cbn; by rewrite app_nil_r].
    destruct (converts_step gt stack stack (last_is_slash (pcre st1)) "^"%char (cs ++ $"]" ++ rest) $"^" true true)
      with (st := st1) as (st2 & K1 & K2 & K3); try done; [|by exists st2].
    intros s' (He & Hb & Hc & _) _. unfold conv_step, conv_case; cbn. by rewrite Hc. }
  destruct Hneg as (st2 & K1 & K2 & K3).
  destruct (class_chars_loop gt stack cs rest Hg Hok Hcs st2 K1) as (st3 & L1 & L2 & L3).
  exists st3, (S ((if neg then 1 else 0) + (length cs + 1)))%nat; split_and!; [|done| |].
  - cbn. rewrite !length_app. destruct neg; cbn; lia.
  - rewrite L2, K2, H2, <- !app_assoc. done.
  - intros fuel. cbn [Nat.add print_item app]. rewrite <- !app_assoc. rewrite <- !Nat.add_assoc. fold s.
    rewrite H3, K3. apply L3.
Qed.

Definition stars_end (rest : cstr) : bool :=
  let s := skip_stars rest in Ascii.eqb (deref s) SLASH || Ascii.eqb (deref s) NUL.

Lemma conv_star_pcre gt sptr st :
  glob_ok gt -> pcre (conv_star gt sptr st).1 = pcre st ++
    (if last_is_slash (pcre st) && stars_end sptr then comp_text gt else []) ++
    (if Ascii.eqb (at_ sptr 1) "*"%char then any_text gt else comp_text gt ++ $"*").
Proof.
  intros Hg. unfold conv_star, stars_end. destruct (last_is_slash (pcre st)); cbn [andb];
    [destruct (_ || _)|]; destruct (Ascii.eqb (at_ sptr 1) _); destruct Hg as [->| ->]; cbn;
    by rewrite <- ?app_assoc.
Qed.

Lemma conv_star_extra gt sptr st :
  (conv_star gt sptr st).2 = if Ascii.eqb (at_ sptr 1) "*"%char then 1%nat else 0%nat.
Proof. unfold conv_star. by destruct (Ascii.eqb (at_ sptr 1) _). Qed.

Lemma converts_star gt stack prev s rest e :
  glob_ok gt -> cstr_ok rest ->
  s = $"*" /\ deref rest <> "*"%char /\ e = comp_text gt ++ $"*" \/ s = $"**" /\ e = any_text gt ->
  converts gt stack stack prev s rest ((if prev && stars_end rest then comp_text gt else []) ++ e).
Proof.
  intros Hg Hok Hs st Hst Hl. pose proof Hst as (He & Hb & _).
  assert (Hshape : exists s', s ++ rest = "*"%char :: s' /\ cstr_ok s' /\
    stars_end ("*"%char :: s') = stars_end rest /\ exists k, s = replicate (S k) "*"%char /\ (k < 2)%nat /\
    (if Ascii.eqb (at_ ("*"%char :: s') 1) "*"%char then 1%nat else 0%nat) = k /\
    drop (S k) ("*"%char :: s') = rest /\
    (if Ascii.eqb (at_ ("*"%char :: s') 1) "*"%char then any_text gt else comp_text gt ++ $"*") = e).
  { destruct Hs as [(-> & Hd & ->)|[-> ->]].
    - exists rest; split_and!; [done..|]. exists 0%nat. unfold at_; cbn [nth].
      assert (nth 0 rest NUL = deref rest) as -> by (by destruct rest).
      apply Ascii.eqb_neq in Hd. rewrite Hd. split_and!; try done. lia.
    - exists ("*"%char :: rest); split_and!; [done|by constructor|done|]. exists 1%nat. split_and!; try done. lia. }
  destruct Hshape as (s' & Es & Hs' & Hend & k & -> & Hk & Hx & Hdrop & Htext).
  pose proof (conv_step_simulates gt "*"%char s' st false false stack Hg ltac:(by constructor) Hst) as Hsim.
  cbn in Hsim. destruct Hsim as [Hst' _].
  assert (Hstep : (conv_step gt ("*"%char :: s') st).2 = rest /\
                  pcre (conv_step gt ("*"%char :: s') st).1 = pcre st ++
                    (if prev && stars_end rest then comp_text gt else []) ++ e).
  { unfold conv_step, conv_case. cbn [deref hd]. rewrite Hb. cbn -[conv_star stars_end skip_stars].
    pose proof (conv_star_pcre gt ("*"%char :: s') st Hg) as Hp.
    pose proof (conv_star_extra gt ("*"%char :: s') st) as Hn.
    destruct (conv_star gt ("*"%char :: s') st) as [st1 n]. cbn [fst snd] in Hp, Hn. rewrite Hx in Hn. subst n.
    split; [exact Hdrop|]. cbn [fst]. etransitivity; [exact Hp|]. by rewrite Hl, Hend, Htext. }
  exists (conv_step gt ("*"%char :: s') st).1, 1%nat. destruct Hstep as [H1 H2].
  split_and!; [cbn; lia|done|done|].
  intros fuel. rewrite Es. cbn [Nat.add]. erewrite conv_loop_step; [|done|done].
  destruct (conv_step gt ("*"%char :: s') st); cbn in *. by subst.
Qed.

(** What may follow the text of a glob. *)
Definition tail_ok (inner : bool) (tl : cstr) : Prop :=
  if inner then exists c s, tl = c :: s /\ (c = ","%char \/ c = "}"%char) else tl = [].

Lemma quote_char_first c : exists x s, quote_char c = x :: s /\ x <> "*"%char /\
  (c <> NUL -> x <> NUL) /\ (x = SLASH <-> c = SLASH).
Proof.
  unfold quote_char. destruct (other c) eqn:E.
  - exists c, []; split_and!; try done. by intros ->.
  - exists "\"%char, [c]; split_and!; try done. split; [done|]. by intros ->.
Qed.


Lemma glob_items_ind (P : glob -> Prop) :
  P GNil -> (forall i g, P g -> P (GCons i g)) -> forall g, P g.
Proof. intros H1 H2. by apply (glob_mut (fun _ => True) P (fun _ => True)); auto. Qed.

Lemma print_tail d g inner tl :
  glob_wf d g = true -> tail_ok inner tl ->
  (starts_star g = false -> deref (print g ++ tl) <> "*"%char) /\
  stars_end (print g ++ tl) = component_end inner g.
Proof.
  intros Hwf Ht. unfold component_end, stars_end.
  assert (Htl : deref tl <> "*"%char /\ skip_stars tl = tl /\
    (Ascii.eqb (deref tl) SLASH || Ascii.eqb (deref tl) NUL) = negb inner).
  { destruct inner; cbn in Ht; [|by subst tl]. by destruct Ht as (c & s & -> & [->| ->]). }
  destruct Htl as (Ht1 & Ht2 & Ht3). clear Ht.
  induction g as [|i g IH] using glob_items_ind; cbn [print skip_star_items starts_star].
  { split; [done|]. cbn [app]. by rewrite Ht2. }
  cbn in Hwf. apply andb_prop in Hwf as [Hwf _]. apply andb_prop in Hwf as [Hi Hg].
  destruct (IH Hg) as [_ IH2]. rewrite <- app_assoc.
  destruct i as [c| | | |neg cs|g1 a]; cbn [is_star print_item]; try (by split).
  destruct (quote_char_first c) as (x & s & -> & Hx & Hn & Hsl). split; [done|].
  cbn [app skip_stars]. rewrite (proj2 (Ascii.eqb_neq x "*"%char) Hx). cbn [deref hd].
  cbn in Hi. destruct (Ascii.eqb_spec c NUL) as [|Hc]; [done|].
  rewrite (proj2 (Ascii.eqb_neq x NUL) (Hn Hc)), orb_false_r.
  destruct (Ascii.eqb_spec c SLASH) as [->|Hc2]; destruct (Ascii.eqb_spec x SLASH) as [Hx2|Hx2]; tauto.
Qed.

Lemma emit_item_slash gt ne d i s :
  item_wf d i = true -> last_is_slash (s ++ emit_item gt ne i) = is_slash i.
Proof.
  intros Hi. assert (Hne : emit_item gt ne i <> []).
  { destruct i as [c| | | |neg cs|g a]; cbn; try done; unfold emit_char, comp_text, any_text.
    - by destruct (aare_class c).
    - by destruct (gt =? glob_default).
    - by destruct ne, (gt =? glob_default).
    - by destruct ne, (gt =? glob_default). }
  rewrite last_is_slash_app by done.
  destruct i as [c| | | |neg cs|g a]; cbn [emit_item is_slash].
  - unfold emit_char, last_is_slash. by destruct (aare_class c).
  - unfold comp_text. by destruct (gt =? glob_default).
  - unfold comp_text. by destruct ne, (gt =? glob_default).
  - unfold comp_text, any_text. by destruct ne, (gt =? glob_default).
  - rewrite app_comm_cons, !app_assoc. by rewrite last_is_slash_app.
  - rewrite app_comm_cons, (app_comm_cons (emit_alts gt a)), !app_assoc. by rewrite last_is_slash_app.
Qed.

Abbreviation depth stack := (Z.of_nat (length (stack : list Z))) (only parsing).

Lemma converts_open gt stack prev rest :
  glob_ok gt -> cstr_ok rest -> depth stack + 1 < MAX_ALT_DEPTH ->
  converts gt stack (0 :: stack) prev $"{" rest $"(".
Proof.
  intros Hg Hok Hd. apply converts_char; [done|by constructor| |].
  - unfold aare_next. cbn -[Z.add Z.of_nat]. destruct (Z.ltb_spec (depth stack + 1) MAX_ALT_DEPTH); [done|lia].
  - intros st (He & Hb & Hc & _ & Hn & _) _. unfold conv_step, conv_case; cbn -[Z.add]. rewrite Hb, Hc.
    cbn -[Z.add]. rewrite Hn. destruct (_ >=? MAX_ALT_DEPTH) eqn:E; [breflect; lia|]. done.
Qed.
Lemma converts_comma gt stack n prev rest :
  glob_ok gt -> cstr_ok rest -> converts gt (n :: stack) (n + 1 :: stack) prev $"," rest $"|".
Proof.
  intros Hg Hok. apply converts_char; [done|by constructor|done|].
  intros st (He & Hb & Hc & _ & Hn & _) _. unfold conv_step, conv_case; cbn -[Z.of_nat].
  rewrite Hb, Hc, Hn. cbn -[Z.of_nat]. destruct (Z.eqb_spec (Z.of_nat (S (length stack))) 0); [lia|]. done.
Qed.
Lemma converts_shut gt stack n prev rest :
  glob_ok gt -> cstr_ok rest -> n <> 0 -> converts gt (n :: stack) stack prev $"}" rest $")".
Proof.
  intros Hg Hok Hn0. apply converts_char; [done|by constructor| |].
  - unfold aare_next. cbn. destruct (Z.eqb_spec n 0); [lia|done].
  - intros st Hst _. destruct Hst as (He & Hb & Hc & Ho & Hcnt).
    destruct (counts_top st stack n Hcnt) as [Hin Hget]. pose proof Hcnt as (Hgr & _).
    unfold conv_step, conv_case; cbn. rewrite Hb, Hc. unfold get_count in *; cbn. rewrite Hget.
    destruct (Z.eqb_spec n 0); [lia|]. cbn. by destruct (ingrouping st - 1 <? 0).
Qed.

Lemma print_ok :
  (forall i d, item_wf d i = true -> cstr_ok (print_item i)) /\
  (forall g d, glob_wf d g = true -> cstr_ok (print g)) /\
  (forall a d, alts_wf d a = true -> cstr_ok (print_alts a)).
Proof.
  apply globs_mut; cbn [print_item print print_alts item_wf glob_wf alts_wf]; try (by repeat constructor).
  - intros c _ H. unfold quote_char. destruct (Ascii.eqb_spec c NUL); [done|].
    by destruct (other c); repeat constructor.
  - intros neg cs _ H. apply andb_prop in H as [_ H]. constructor; [done|].
    apply cstr_ok_app; split; [by destruct neg; repeat constructor|].
    apply cstr_ok_app; split; [|by repeat constructor].
    apply Forall_forall. intros c Hc ->. rewrite forallb_forall in H. apply list_elem_of_In in Hc.
    by specialize (H _ Hc).
  - intros g IHg a IHa d H. apply andb_prop in H as [H Ha]. apply andb_prop in H as [_ Hg].
    constructor; [done|]. apply cstr_ok_app; split; [by eapply IHg|]. constructor; [done|].
    apply cstr_ok_app; split; [by eapply IHa|by repeat constructor].
  - intros i IHi g IHg d H. apply andb_prop in H as [H _]. apply andb_prop in H as [Hi Hg].
    apply cstr_ok_app; split; [by eapply IHi|by eapply IHg].
  - intros g IHg a IHa d H. apply andb_prop in H as [Hg Ha]. apply cstr_ok_app; split; [by eapply IHg|].
    constructor; [done|by eapply IHa].
Qed.

Definition conv_item_ok (gt : Z) (i : glob_item) : Prop := forall stack prev rest,
  item_wf (depth stack) i = true -> cstr_ok rest -> (i = GStar -> deref rest <> "*"%char) ->
  converts gt stack stack prev (print_item i) rest (emit_item gt (prev && stars_end rest) i).
Definition conv_glob_ok (gt : Z) (g : glob) : Prop := forall stack inner prev tl,
  glob_wf (depth stack) g = true -> tail_ok inner tl -> cstr_ok tl ->
  converts gt stack stack prev (print g) tl (emit gt inner prev g).
Definition conv_alts_ok (gt : Z) (a : alts) : Prop := forall n stack tl,
  alts_wf (depth (n :: stack)) a = true -> tail_ok true tl -> cstr_ok tl ->
  exists m, n <= m /\ converts gt (n :: stack) (m :: stack) false (print_alts a) tl (emit_alts gt a).

Lemma not_slash_end s c : Ascii.eqb c SLASH = false -> last_is_slash (s ++ [c]) = false.
Proof. intros H. unfold last_is_slash. by rewrite last_snoc. Qed.

Lemma converts_nil gt stack prev tl : converts gt stack stack prev [] tl [].
Proof. intros st Hst Hl. exists st, 0%nat. rewrite app_nil_r. by split_and!. Qed.


(** A comma and the alternatives after it, after a text that is read in any
    state. *)
Lemma converts_more gt n m stack prev s e a tl :
  glob_ok gt -> cstr_ok (print_alts a ++ tl) ->
  converts gt (n :: stack) (n :: stack) prev s ("," :: print_alts a ++ tl)%char e ->
  converts gt (n + 1 :: stack) (m :: stack) false (print_alts a) tl (emit_alts gt a) ->
  converts gt (n :: stack) (m :: stack) prev (s ++ ","%char :: print_alts a) tl
    (e ++ "|"%char :: emit_alts gt a).
Proof.
  intros Hg Hok Hs Ha. eapply converts_app_if; [exact Hs|]. intros s' _.
  apply (converts_app _ _ (n + 1 :: stack) _ _ false $"," (print_alts a) _ $"|"); [by apply converts_comma| |done].
  intros; by apply not_slash_end.
Qed.

Lemma converts_all gt :
  glob_ok gt ->
  (forall i, conv_item_ok gt i) /\ (forall g, conv_glob_ok gt g) /\ (forall a, conv_alts_ok gt a).
Proof.
  intros Hg. apply globs_mut.
  - intros c stack prev rest Hwf Hok _. apply converts_lit; [done| |done]. cbn in Hwf.
    by destruct (Ascii.eqb_spec c NUL).
  - intros stack prev rest _ Hok _. by apply converts_any.
  - intros stack prev rest _ Hok Hd. apply converts_star; [done..|]. left. auto.
  - intros stack prev rest _ Hok _. apply converts_star; [done..|]. by right.
  - intros neg cs stack prev rest Hwf Hok _. cbn in Hwf. apply andb_prop in Hwf as [_ Hwf].
    by apply converts_class.
  - intros g IHg a IHa stack prev rest Hwf Hok _. cbn [item_wf] in Hwf.
    apply andb_prop in Hwf as [Hwf Ha]. apply andb_prop in Hwf as [Hd Hgw]. apply Z.ltb_lt in Hd.
    assert (Htl : tail_ok true ("}"%char :: rest)) by (eexists _, _; auto).
    assert (Hcl : cstr_ok ("}"%char :: rest)) by (by constructor).
    replace (depth stack + 1) with (depth (0 :: stack)) in Hgw, Ha by (cbn; lia).
    destruct (IHa (0 + 1) stack _ Ha Htl Hcl) as (m & Hm & Hca).
    assert (Hpa : cstr_ok (print_alts a ++ "}"%char :: rest)).
    { apply cstr_ok_app; split; [by eapply (proj2 (proj2 print_ok))|done]. }
    cbn [print_item emit_item].
    apply (converts_app _ _ (0 :: stack) _ _ false $"{" _ _ $"("); [apply converts_open| |]; try done.
    + apply cstr_ok_app; split; [|done]. apply cstr_ok_app; split; [by eapply (proj1 (proj2 print_ok))|].
      constructor; [done|]. apply cstr_ok_app; split; [by eapply (proj2 (proj2 print_ok))|by repeat constructor].
    + intros; by apply not_slash_end.
    + rewrite 2!app_comm_cons, !app_assoc. eapply converts_app_if.
      * apply (converts_more gt 0 m stack false (print g) (emit gt true false g)); try done.
        apply IHg; [done|eexists _, _; auto|by constructor].
      * intros s _. apply converts_shut; [done..|lia].
  - intros stack inner prev tl _ _ _. apply converts_nil.
  - intros i IHi g IHg stack inner prev tl Hwf Htl Hok. cbn in Hwf.
    apply andb_prop in Hwf as [Hwf Hst]. apply andb_prop in Hwf as [Hi Hgw].
    destruct (print_tail _ g inner tl Hgw Htl) as [Hp1 Hp2]. cbn [print emit]. rewrite <- Hp2.
    apply (converts_app _ _ stack _ _ (is_slash i)).
    + apply IHi; [done| |].
      * apply cstr_ok_app; split; [by eapply (proj1 (proj2 print_ok))|done].
      * intros ->. apply Hp1. by destruct (starts_star g).
    + intros s _. by eapply emit_item_slash.
    + by apply IHg.
  - intros g IHg n stack tl Hwf Htl Hok. exists n; split; [lia|]. by apply IHg.
  - intros g IHg a IHa n stack tl Hwf Htl Hok. cbn [alts_wf] in Hwf. apply andb_prop in Hwf as [Hwg Hwa].
    destruct (IHa (n + 1) stack tl) as (m & Hm & Hc); [done..|]. exists m; split; [lia|].
    assert (Hpa : cstr_ok (print_alts a ++ tl)).
    { apply cstr_ok_app; split; [by eapply (proj2 (proj2 print_ok))|done]. }
    apply converts_more; try done. apply IHg; [done|eexists _, _; auto|by constructor].
Qed.

Lemma convert_print gt g :
  glob_ok gt -> glob_wf 0 g = true ->
  exists ty pos, convert_aaregex_to_pcre (print g) false gt [] = (ty, emit gt false false g, pos) /\ ty <> Invalid.
Proof.
  intros Hg Hwf. pose proof (proj1 (proj2 print_ok) g 0 Hwf) as Hok.
  destruct (proj1 (proj2 (converts_all gt Hg)) g [] false false [] Hwf eq_refl (Forall_nil_2 _)
    (conv_init false []) (conv_init_stands false []) eq_refl) as (st' & k & Hk & Hst & Hp & Hf).
  rewrite app_nil_r in Hf.
  assert (Hloop : conv_loop (length (print g)) gt (print g) (conv_init false []) = st').
  { replace (length (print g)) with (k + (length (print g) - k))%nat by lia. rewrite Hf.
    destruct (length (print g) - k)%nat; cbn; [done|]. by rewrite orb_true_r. }
  destruct (conv_loop_ptype (length (print g)) gt (print g) (conv_init false []) Hok (le_n _))
    as [Hinv _]; try done.
  unfold convert_aaregex_to_pcre, convert_final. rewrite Hloop in Hinv |- *.
  destruct (conv_finish_spec false st') as [_ Ht].
  destruct Hst as (He & Hb & Hc & _ & Hgr & _). rewrite He, Hb, Hc, Hgr in Ht. cbn in Ht.
  exists (ptype st'), (first_re_pos (conv_finish false st')). cbv zeta. rewrite Ht. split; [|done].
  replace (pcre (conv_finish false st')) with (pcre st'); [by rewrite Hp|].
  destruct st'; cbn in *; by subst.
Qed.

(** *** The tokens *)

Definition lexes (s : cstr) (ts : list token) : Prop := forall rest n,
  lex_all (length ts + n) (s ++ rest) = option_map (app ts) (lex_all n rest).

Lemma lexes_nil : lexes [] [].
Proof. intros rest n. cbn. by destruct (lex_all n rest). Qed.
Lemma lexes_app s1 ts1 s2 ts2 : lexes s1 ts1 -> lexes s2 ts2 -> lexes (s1 ++ s2) (ts1 ++ ts2).
Proof.
  intros H1 H2 rest n. rewrite <- app_assoc, length_app, <- Nat.add_assoc, H1, H2.
  destruct (lex_all n rest); cbn; by rewrite <- ?app_assoc.
Qed.
Lemma lexes_one s t :
  t <> TEnd -> (forall rest, regex_lex (s ++ rest) = (t, Some rest)) -> lexes s [t].
Proof. intros Ht H rest n. cbn. rewrite H. by destruct t. Qed.
Lemma lexes_lit c : c <> NUL -> lexes (emit_char c) [literal_token c].
Proof.
  intros Hc. apply lexes_one; [unfold literal_token; by destruct (Ascii.eqb c _)|].
  intros rest. by apply regex_lex_emit.
Qed.
Lemma lexes_sym c : existsb (Ascii.eqb c) regex_symbols = true -> lexes [c] [TSym c].
Proof. intros H. apply lexes_one; [done|]. intros rest. cbn [app regex_lex]. by rewrite H. Qed.
Lemma lexes_class_chars cs : forallb class_char cs = true -> lexes cs (map TChar cs).
Proof.
  induction cs as [|c cs IH]; cbn [forallb map]; intros H; [apply lexes_nil|].
  apply andb_prop in H as [Hc Hcs]. apply (lexes_app [c] [TChar c]); [|by apply IH].
  unfold class_char in Hc. apply andb_prop in Hc as [Hc Hn]. apply andb_prop in Hc as [Ho Hd].
  replace [c] with (emit_char c); [replace (TChar c) with (literal_token c); [apply lexes_lit|]|].
  - by destruct (Ascii.eqb_spec c NUL).
  - unfold literal_token. by destruct (Ascii.eqb_spec c "-"%char).
  - unfold emit_char. unfold other in Ho. by destruct (aare_class c).
Qed.
Lemma lexes_nul : lexes $"\x00" [TChar NUL].
Proof.
  apply lexes_one; [done|]. intros rest. change $"\x00" with ["\"%char; "x"%char; "0"%char; "0"%char].
  assert (He : str_escseq ("x" :: "0" :: "0" :: rest)%char regex_escapes = (0, Some rest)).
  { unfold str_escseq, strn_escseq. cbn -[Z.sub]. change (escseq_number ("0" :: "0" :: rest)%char 16 2 ("0" :: "0" :: rest)%char = (0, Some rest)).
    unfold escseq_number. change (strntol _ 16 255 2) with (strntol_loop rest 16 255 0 0).
    replace (strntol_loop rest 16 255 0 0) with (0, rest) by (by destruct rest).
    cbn [length]. by destruct (Nat.eqb_spec (length rest) (S (S (length rest)))); [lia|]. }
  cbn [app regex_lex]. rewrite He. done.
Qed.

(** *** The trees *)

Definition zbase (n : ImportantNode) (c : Z) : Prop := char_match (node_type n) c = true.
Definition zlang (t : Node) : list Z -> Prop := lang_of zbase t.

Lemma lang_zlang t w : lang t (map Ch w) <-> zlang t w.
Proof.
  unfold lang, zlang. rewrite (lang_image matches t (map Ch w)), (lang_image zbase t w). unfold image.
  by setoid_rewrite Forall2_fmap_r.
Qed.

(** Tokens that continue a sequence of terms by words of [L]. *)
Definition derives (ts : list token) (L : list Z -> Prop) : Prop := forall n pre t n1,
  terms0 n pre t n1 -> exists u n2, terms0 n (pre ++ ts) u n2 /\ leq (zlang u) (cat (zlang t) L).

#[local] Instance derives_proper ts : Proper (leq ==> iff) (derives ts).
Proof.
  intros L L' HL. split; intros H n pre t n1 Ht; destruct (H n pre t n1 Ht) as (u & n2 & Hu & Hl);
    exists u, n2; (split; [done|]); rewrite Hl; [by rewrite HL|by rewrite <- HL].
Qed.
Lemma derives_nil : derives [] (fun w => w = []).
Proof. intros n pre t n1 Ht. exists t, n1. rewrite app_nil_r. split; [done|]. by rewrite cat_nil_r. Qed.
Lemma derives_app ts1 L1 ts2 L2 : derives ts1 L1 -> derives ts2 L2 -> derives (ts1 ++ ts2) (cat L1 L2).
Proof.
  intros H1 H2 n pre t n1 Ht. destruct (H1 n pre t n1 Ht) as (u & n2 & Hu & Hl).
  destruct (H2 n (pre ++ ts1) u n2 Hu) as (v & n3 & Hv & Hl2). exists v, n3. rewrite app_assoc. split; [done|].
  by rewrite Hl2, Hl, cat_assoc.
Qed.
Lemma derives_qterm ts L :
  (forall n, exists q n2, qterm n ts q n2 /\ leq (zlang q) L) -> derives ts L.
Proof.
  intros H n pre t n1 Ht. destruct (H n1) as (q & n2 & Hq & Hl).
  inversion Ht as [|? ? ? ? Hts]; subst.
  - exists q, n2; split; [by constructor; constructor|]. rewrite Hl. symmetry. apply cat_nil_l.
  - exists (CatNode [t; q]), n2; split; [constructor; by apply terms_cat with n1|].
    cbn. by rewrite cat_nil_r, Hl.
Qed.

(** A text that is one leaf, alone and repeated. *)
Definition leaf_text (s : cstr) (P : Z -> bool) : Prop := exists ts k, lexes s ts /\
  (forall n, term n ts (Leaf (Imp n k)) (Pos.succ n)) /\ forall c, char_match k c = P c.

Lemma leaf_lang n k P : (forall c, char_match k c = P c) -> leq (zlang (Leaf (Imp n k))) (one P).
Proof. intros H w. cbn. unfold one, zbase. cbn. by setoid_rewrite H. Qed.

Lemma leaf_once s P : leaf_text s P -> exists ts, lexes s ts /\ derives ts (one P).
Proof.
  intros (ts & k & Hl & Ht & Hk). exists ts; split; [done|]. apply derives_qterm. intros n.
  eexists _, _; split; [by constructor|]. by apply leaf_lang.
Qed.
Lemma leaf_star s P : leaf_text s P -> exists ts, lexes (s ++ $"*") ts /\ derives ts (star (one P)).
Proof.
  intros (ts & k & Hl & Ht & Hk). exists (ts ++ [sym "*"]); split; [by apply lexes_app; [|apply lexes_sym]|].
  apply derives_qterm. intros n. eexists _, _; split; [by constructor|]. cbn [zlang lang_of].
  apply star_proper. by apply (leaf_lang n).
Qed.

Lemma not_set_text s ts cs :
  lexes s ts -> charset ts cs ->
  leaf_text ($"[^" ++ s ++ $"]") (fun c => (0 <=? c) && negb (Chars_find c cs)).
Proof.
  intros Hl Hc. exists (sym "[" :: sym "^" :: ts ++ [sym "]"]), (NotCharSetNode cs); split_and!; [|by constructor|done].
  apply (lexes_app $"[^" [sym "["; sym "^"]).
  - by apply (lexes_app $"[" [sym "["]); apply lexes_sym.
  - by apply lexes_app; [|apply lexes_sym].
Qed.

Lemma leaf_text_ext s P Q : (forall c, P c = Q c) -> leaf_text s P -> leaf_text s Q.
Proof. intros H (ts & k & Hl & Ht & Hk). exists ts, k; split_and!; [done..|]. intros c. by rewrite Hk. Qed.

Lemma comp_leaf gt : glob_ok gt -> leaf_text (comp_text gt) (component_char gt).
Proof.
  intros Hg. unfold comp_text, component_char, path_char.
  destruct Hg as [->| ->]; cbn [Z.eqb glob_default glob_null negb orb].
  - eapply leaf_text_ext; [|apply (not_set_text $"/\x00" [TChar "/"%char; TChar NUL] [0; 47])].
    + intros c. change (code SLASH) with 47. cbn. destruct (Z.eqb_spec c 47), (Z.eqb_spec c 0), (0 <=? c); done.
    + apply (lexes_app $"/" [TChar "/"%char]); [by apply (lexes_lit "/"%char)|apply lexes_nul].
    + apply (charset_char (TChar "/"%char) 47 [TChar NUL] [0]); [done|].
      by apply (cset_one [] [] (TChar NUL) 0); [constructor|].
  - eapply leaf_text_ext; [|apply (not_set_text $"/" [TChar "/"%char] [47])].
    + intros c. change (code SLASH) with 47. cbn. destruct (Z.eqb_spec c 47), (Z.eqb_spec c 0), (0 <=? c); done.
    + by apply (lexes_lit "/"%char).
    + apply (charset_char (TChar "/"%char) 47 [] []); [done|constructor].
Qed.

Lemma any_star gt : glob_ok gt -> exists ts, lexes (any_text gt) ts /\ derives ts (star (one (path_char gt))).
Proof.
  intros Hg. unfold any_text, path_char. destruct Hg as [->| ->]; cbn [Z.eqb glob_default glob_null negb orb].
  - apply (leaf_star $"[^\x00]"). eapply leaf_text_ext; [|apply (not_set_text $"\x00" [TChar NUL] [0])].
    + intros c. cbn. destruct (Z.eqb_spec c 0), (0 <=? c); done.
    + apply lexes_nul.
    + apply (charset_char (TChar NUL) 0 [] []); [done|constructor].
  - apply (leaf_star $"."). exists [sym "."], AnyCharNode; split_and!; [by apply lexes_sym|constructor|].
    intros c. cbn. by rewrite andb_true_r.
Qed.

Lemma lit_derives c : c <> NUL -> exists ts, lexes (emit_char c) ts /\ derives ts (fun w => w = [code c]).
Proof.
  intros Hc. assert (Hl : leaf_text (emit_char c) (fun d => d =? code c)).
  { exists [literal_token c], (CharNode (code c)); split_and!; [by apply lexes_lit| |done].
    intros n. apply term_char. unfold literal_token. by destruct (Ascii.eqb_spec c "-"%char) as [->|]. }
  destruct (leaf_once _ _ Hl) as (ts & H1 & H2). exists ts; split; [done|].
  eapply derives_proper; [|exact H2]. intros w. unfold one. split.
  - intros ->. exists (code c). by rewrite Z.eqb_refl.
  - by intros (d & -> & ->%Z.eqb_eq).
Qed.

Lemma class_cset cs :
  exists chars, cset_chars (map TChar cs) chars /\ forall d, d ∈ chars <-> exists c, c ∈ cs /\ code c = d.
Proof.
  induction cs as [|c cs (chars & H1 & H2)] using rev_ind; [exists []; split; [constructor|set_solver]|].
  exists (insert_char chars (code c)); split.
  - rewrite map_app. by apply cset_one.
  - intros d. unfold insert_char. rewrite Chars_insert_elem, H2. setoid_rewrite elem_of_app.
    setoid_rewrite list_elem_of_singleton. naive_solver.
Qed.
Lemma set_node_match cs c : char_match (set_node cs) c = Chars_find c cs.
Proof. destruct cs as [|d [|e cs]]; cbn; try done. by rewrite orb_false_r. Qed.

Lemma class_leaf (neg : bool) cs :
  cs <> [] -> forallb class_char cs = true ->
  leaf_text (print_item (GClass neg cs))
    (fun c => (0 <=? c) && xorb neg (existsb (fun d => code d =? c) cs)).
Proof.
  intros Hne Hcs. destruct cs as [|c cs]; [done|]. destruct (class_cset cs) as (chars & H1 & H2).
  pose proof (lexes_class_chars (c :: cs) Hcs) as Hl. cbn [map] in Hl.
  assert (Hset : charset (TChar c :: map TChar cs) (insert_char chars (code c))) by (by constructor).
  assert (Hfind : forall x, Chars_find x (insert_char chars (code c)) = existsb (fun d => code d =? x) (c :: cs)).
  { intros x. apply eq_true_iff_eq. rewrite Chars_find_spec, existsb_exists. unfold insert_char.
    rewrite Chars_insert_elem, H2. cbn. setoid_rewrite Z.eqb_eq. setoid_rewrite list_elem_of_In. naive_solver. }
  destruct neg; cbn [print_item app].
  - eapply leaf_text_ext; [|by apply (not_set_text (c :: cs) _ _ Hl Hset)]. intros x. cbn beta. by rewrite Hfind.
  - exists (sym "[" :: (TChar c :: map TChar cs) ++ [sym "]"]), (set_node (insert_char chars (code c))).
    split_and!; [|by intros; constructor|].
    + apply (lexes_app $"[" [sym "["]); [by apply lexes_sym|].
      apply (lexes_app (c :: cs)); [done|by apply lexes_sym].
    + intros x. rewrite set_node_match, Hfind. rewrite xorb_false_l. destruct (Z.leb_spec 0 x); [done|].
      apply not_true_is_false. rewrite existsb_exists. intros (d & _ & Hd%Z.eqb_eq). pose proof (code_range d). lia.
Qed.

(** Tokens that add alternatives. *)
Definition alt_derives (ts : list token) (L : list Z -> Prop) : Prop := forall n pre t n1,
  regex n pre t n1 -> exists u n2, regex n (pre ++ sym "|" :: ts) u n2 /\
  forall w, zlang u w <-> zlang t w \/ L w.

Lemma derives_terms0 ts L n : derives ts L -> exists u n2, terms0 n ts u n2 /\ leq (zlang u) L.
Proof.
  intros H. destruct (H n [] EpsNode n (terms0_empty n)) as (u & n2 & Hu & Hl). exists u, n2; split; [done|].
  rewrite Hl. apply cat_nil_l.
Qed.
Lemma derives_regex ts L n : derives ts L -> exists u n2, regex n ts u n2 /\ leq (zlang u) L.
Proof.
  intros H. destruct (derives_terms0 ts L n H) as (u & n2 & Hu & Hl). exists u, n2; split; [|done].
  inversion Hu; subst; [constructor|by apply regex_expr, expr_terms].
Qed.
Lemma derives_alt ts L : derives ts L -> alt_derives ts L.
Proof.
  intros H n pre t n1 Ht. destruct (derives_terms0 ts L n1 H) as (u & n2 & Hu & Hl).
  exists (AltNode [t; u]), n2; split.
  - apply regex_expr. inversion Ht; subst; [by apply expr_eps|by apply expr_alt with n1].
  - intros w. cbn. rewrite (Hl w). unfold zlang. tauto.
Qed.
Lemma alt_derives_more ts1 L1 ts2 L2 :
  alt_derives ts1 L1 -> alt_derives ts2 L2 -> alt_derives (ts1 ++ sym "|" :: ts2) (fun w => L1 w \/ L2 w).
Proof.
  intros H1 H2 n pre t n1 Ht. destruct (H1 n pre t n1 Ht) as (u & n2 & Hu & Hl1).
  destruct (H2 n _ u n2 Hu) as (v & n3 & Hv & Hl2). exists v, n3.
  rewrite <- app_assoc in Hv. split; [done|]. intros w. rewrite Hl2, Hl1. tauto.
Qed.

Lemma emit_derives gt :
  glob_ok gt ->
  (forall i d ne, item_wf d i = true -> exists ts, lexes (emit_item gt ne i) ts /\ derives ts (item_lang gt ne i)) /\
  (forall g d inner prev, glob_wf d g = true ->
    exists ts, lexes (emit gt inner prev g) ts /\ derives ts (glob_lang gt inner prev g)) /\
  (forall a d, alts_wf d a = true -> exists ts, lexes (emit_alts gt a) ts /\ alt_derives ts (alts_lang gt a)).
Proof.
  intros Hg. pose proof (comp_leaf gt Hg) as Hcomp.
  assert (Hstart : forall ne : bool, exists ts, lexes (if ne then comp_text gt else []) ts /\
    derives ts (if ne then one (component_char gt) else fun w => w = [])).
  { intros []; [by apply leaf_once|]. exists []; split; [apply lexes_nil|apply derives_nil]. }
  apply globs_mut.
  - intros c d ne Hwf. cbn in Hwf. apply lit_derives. by destruct (Ascii.eqb_spec c NUL).
  - intros d ne _. by apply leaf_once.
  - intros d ne _. destruct (Hstart ne) as (ts & H1 & H2), (leaf_star _ _ Hcomp) as (ts' & H3 & H4).
    exists (ts ++ ts'); split; [by apply lexes_app|by apply derives_app].
  - intros d ne _. destruct (Hstart ne) as (ts & H1 & H2), (any_star gt Hg) as (ts' & H3 & H4).
    exists (ts ++ ts'); split; [by apply lexes_app|by apply derives_app].
  - intros neg cs d ne Hwf. cbn in Hwf. apply andb_prop in Hwf as [Hne Hcs]. apply leaf_once.
    apply class_leaf; [by destruct cs|done].
  - intros g IHg a IHa d ne Hwf. cbn in Hwf. apply andb_prop in Hwf as [Hwf Ha]. apply andb_prop in Hwf as [_ Hgw].
    destruct (IHg (d + 1) true false Hgw) as (ts & H1 & H2), (IHa (d + 1) Ha) as (ts' & H3 & H4).
    exists (sym "(" :: ts ++ sym "|" :: ts' ++ [sym ")"]); split.
    + apply (lexes_app $"(" [sym "("]); [by apply lexes_sym|]. apply lexes_app; [done|].
      apply (lexes_app $"|" [sym "|"]); [by apply lexes_sym|]. by apply lexes_app; [|apply lexes_sym].
    + apply derives_qterm. intros n. destruct (derives_regex ts _ n H2) as (u & n2 & Hu & Hl).
      destruct (H4 n ts u n2 Hu) as (v & n3 & Hv & Hl2). exists v, n3; split.
      * apply qterm_term. replace (ts ++ sym "|" :: ts' ++ [sym ")"]) with ((ts ++ sym "|" :: ts') ++ [sym ")"])
          by (by rewrite <- app_assoc). by apply term_group.
      * intros w. rewrite Hl2. cbn [item_lang]. by rewrite (Hl w).
  - intros d inner prev _. exists []; split; [apply lexes_nil|apply derives_nil].
  - intros i IHi g IHg d inner prev Hwf. cbn in Hwf. apply andb_prop in Hwf as [Hwf _].
    apply andb_prop in Hwf as [Hi Hgw].
    destruct (IHi d (prev && component_end inner g) Hi) as (ts & H1 & H2), (IHg d inner (is_slash i) Hgw) as (ts' & H3 & H4).
    exists (ts ++ ts'); split; [by apply lexes_app|by apply derives_app].
  - intros g IHg d Hwf. destruct (IHg d true false Hwf) as (ts & H1 & H2). exists ts; split; [done|].
    by apply derives_alt.
  - intros g IHg a IHa d Hwf. cbn in Hwf. apply andb_prop in Hwf as [Hgw Ha].
    destruct (IHg d true false Hgw) as (ts & H1 & H2), (IHa d Ha) as (ts' & H3 & H4).
    exists (ts ++ sym "|" :: ts'); split.
    + apply lexes_app; [done|]. by apply (lexes_app $"|" [sym "|"]); [apply lexes_sym|].
    + apply alt_derives_more; [by apply derives_alt|done].
Qed.

Lemma emit_ok :
  (forall i d gt ne, item_wf d i = true -> cstr_ok (emit_item gt ne i)) /\
  (forall g d gt inner prev, glob_wf d g = true -> cstr_ok (emit gt inner prev g)) /\
  (forall a d gt, alts_wf d a = true -> cstr_ok (emit_alts gt a)).
Proof.
  assert (Hcomp : forall gt, cstr_ok (comp_text gt)).
  { intros gt. unfold comp_text. by destruct (gt =? glob_default); repeat constructor. }
  assert (Hstart : forall gt (ne : bool), cstr_ok (if ne then comp_text gt else [])).
  { intros gt []; [done|constructor]. }
  apply globs_mut; cbn [emit_item emit emit_alts item_wf glob_wf alts_wf].
  - intros c _ gt ne H. destruct (Ascii.eqb_spec c NUL); [done|]. unfold emit_char.
    by destruct (aare_class c); repeat constructor.
  - done.
  - intros _ gt ne _. apply cstr_ok_app; split; [done|]. apply cstr_ok_app; split; [done|by repeat constructor].
  - intros _ gt ne _. apply cstr_ok_app; split; [done|]. unfold any_text.
    by destruct (gt =? glob_default); repeat constructor.
  - intros neg cs d gt ne H. by apply (proj1 print_ok (GClass neg cs) d).
  - intros g IHg a IHa d gt ne H. apply andb_prop in H as [H Ha]. apply andb_prop in H as [_ Hg].
    constructor; [done|]. apply cstr_ok_app; split; [by eapply IHg|]. constructor; [done|].
    apply cstr_ok_app; split; [by eapply IHa|by repeat constructor].
  - intros; constructor.
  - intros i IHi g IHg d gt inner prev H. apply andb_prop in H as [H _]. apply andb_prop in H as [Hi Hg].
    apply cstr_ok_app; split; [by eapply IHi|by eapply IHg].
  - intros g IHg d gt H. by eapply IHg.
  - intros g IHg a IHa d gt H. apply andb_prop in H as [Hg Ha]. apply cstr_ok_app; split; [by eapply IHg|].
    constructor; [done|by eapply IHa].
Qed.

Lemma glob_parse gt g n :
  glob_ok gt -> glob_wf 0 g = true ->
  exists t n', regex_parse n (emit gt false false g) = Parsed t n' /\
  forall w, lang t (map Ch w) <-> glob_lang gt false false g w.
Proof.
  intros Hg Hwf. destruct (proj1 (proj2 (emit_derives gt Hg)) g 0 false false Hwf) as (ts & Hl & Hd).
  destruct (derives_regex ts _ n Hd) as (t & n' & Ht & Hlang). exists t, n'; split.
  - unfold regex_parse. apply parse_tokens_iff in Ht.
    pose proof (Hl [] 1%nat) as Hlex. rewrite app_nil_r in Hlex. cbn in Hlex. rewrite app_nil_r in Hlex.
    rewrite (lex_all_enough _ _ _ (proj1 (proj2 emit_ok) g 0 gt false false Hwf) Hlex) by lia.
    by rewrite Ht.
  - intros w. rewrite lang_zlang. apply Hlang.
Qed.


(** /{a,b\,}*/**[^x] *)
Definition sample_glob : glob :=
  let lit c g := GCons (GLit c) g in
  lit "/"%char (GCons (GAlt (lit "a"%char GNil) (AOne (lit "b"%char (lit ","%char GNil))))
    (GCons GStar (lit "/"%char (GCons GStarStar (GCons (GClass true ["x"%char]) GNil))))).

