(* ===== verification/Simplify.v ===== *)
(** Simplification of expression trees ([parser/libapparmor_re/expr-tree.cc]):
    the order of nodes, the vector based algorithm that flattens, merges, sorts
    and factors alternatives, the reversal of trees.  Simplification keeps the
    language and the nodes of a tree. *)

From stdpp Require Import gmap sorting.
From S2P Require Import Prelude Expr.

(** ** The order of nodes *)

(** [node_type_t] *)
Definition type_flags (t : Node) : Z :=
  match t with
  | EpsNode => Z.lor (Z.shiftl 1 3) (Z.shiftl 1 4)
  | Leaf n =>
      let important := Z.lor (Z.shiftl 1 3) (Z.shiftl 1 5) in
      let c := Z.lor important (Z.shiftl 1 6) in
      let matchflag := Z.lor important (Z.lor (Z.shiftl 1 15) (Z.lor (Z.shiftl 1 16) (Z.shiftl 1 17))) in
      match node_type n with
      | CharNode _ => Z.lor c (Z.shiftl 1 7)
      | CharSetNode _ => Z.lor c (Z.shiftl 1 8)
      | NotCharSetNode _ => Z.lor c (Z.shiftl 1 9)
      | AnyCharNode => Z.lor c (Z.shiftl 1 10)
      | AcceptNode MatchFlag _ _ _ => matchflag
      | AcceptNode ExactMatchFlag _ _ _ => Z.lor matchflag (Z.shiftl 1 18)
      | AcceptNode DenyMatchFlag _ _ _ => Z.lor matchflag (Z.shiftl 1 19)
      | AcceptNode PromptMatchFlag _ _ _ => Z.lor matchflag (Z.shiftl 1 20)
      end
  | StarNode _ => Z.lor 3 (Z.shiftl 1 11)
  | OptionalNode _ => Z.lor 3 (Z.shiftl 1 12)
  | PlusNode _ => Z.lor 3 (Z.shiftl 1 13)
  | AltNode _ => Z.lor 5 (Z.shiftl 1 14)
  | SharedTreeNode _ _ _ => Z.lor 3 (Z.shiftl 1 21)
  | CatNode _ => Z.lor 5 (Z.shiftl 1 22)
  end.

(** [-1], [0] or [1]; the address of a node that is only equal to itself is its
    number. *)
Definition sign_cmp (a b : Z) : Z := if a <? b then -1 else if b <? a then 1 else 0.

Fixpoint chars_cmp (cs ds : Chars) : Z :=
  match cs, ds with
  | c :: cs, d :: ds => if c - d =? 0 then chars_cmp cs ds else c - d
  | _, _ => 0
  end.
Definition charset_cmp (cs ds : Chars) : Z :=
  let s := sign_cmp (Z.of_nat (length cs)) (Z.of_nat (length ds)) in
  if s =? 0 then chars_cmp cs ds else s.

Definition leaf_cmp (m n : ImportantNode) : Z :=
  match node_type m, node_type n with
  | CharNode c, CharNode d => c - d
  | CharSetNode cs, CharSetNode ds | NotCharSetNode cs, NotCharSetNode ds => charset_cmp cs ds
  | AcceptNode _ p a q, AcceptNode _ p' a' q' =>
      if negb (p =? p') then sign_cmp p p'
      else if negb (a =? a') then sign_cmp a a'
      else if negb (q =? q') then sign_cmp q q'
      else sign_cmp (Zpos (node_id m)) (Zpos (node_id n))
  | _, _ => 0
  end.

Fixpoint node_cmp (a b : Node) : Z :=
  let loop := fix loop (xs ys : list Node) : Z :=
    match xs, ys with
    | x :: xs, y :: ys => let tmp := node_cmp x y in if tmp =? 0 then loop xs ys else tmp
    | _, _ => 0
    end in
  let children xs ys :=
    let s := sign_cmp (Z.of_nat (length xs)) (Z.of_nat (length ys)) in
    if s =? 0 then loop xs ys else s in
  let tmp := sign_cmp (type_flags a) (type_flags b) in
  if negb (tmp =? 0) then tmp
  else match a, b with
       | Leaf m, Leaf n => leaf_cmp m n
       | StarNode x, StarNode y | OptionalNode x, OptionalNode y | PlusNode x, PlusNode y => node_cmp x y
       | SharedTreeNode i _ _, SharedTreeNode j _ _ => sign_cmp (Zpos i) (Zpos j)
       | CatNode xs, CatNode ys | AltNode xs, AltNode ys => children xs ys
       | _, _ => 0
       end.
Definition node_eq (a b : Node) : bool := node_cmp a b =? 0.

(** ** Lists of children *)

Definition is_cat (t : Node) : bool := match t with CatNode _ => true | _ => false end.
Definition is_alt (t : Node) : bool := match t with AltNode _ => true | _ => false end.
Definition is_eps (t : Node) : bool := match t with EpsNode => true | _ => false end.
(** [child] of a node with many children. *)
Definition children (t : Node) : list Node := match t with CatNode ts | AltNode ts => ts | _ => [] end.

Fixpoint node_size (t : Node) : nat :=
  match t with
  | EpsNode | Leaf _ => 1
  | StarNode t | OptionalNode t | PlusNode t | SharedTreeNode _ _ t => S (node_size t)
  | CatNode ts | AltNode ts => S (list_sum (map node_size ts))
  end.
Definition list_size (ts : list Node) : nat := list_sum (map node_size ts).

(** [flatten_node]: the work stack, last element first. *)
Fixpoint flatten_loop (fuel : nat) (same : Node -> bool) (work out : list Node) : list Node :=
  match fuel, work with
  | S fuel, c :: work =>
      if same c then flatten_loop fuel same (children c ++ work) out
      else flatten_loop fuel same work (out ++ [c])
  | _, _ => out
  end.
Definition flatten_node (same : Node -> bool) (ts : list Node) : list Node :=
  flatten_loop (S (list_size ts)) same ts [].

Definition simplify_vec_cat (ts : list Node) : Node :=
  match base.filter (fun t => is_eps t = false) (flatten_node is_cat ts) with
  | [] => EpsNode
  | [c] => c
  | ts => CatNode ts
  end.

Definition is_char_or_charset (t : Node) : bool :=
  match t with
  | Leaf n => match node_type n with CharNode _ | CharSetNode _ => true | _ => false end
  | _ => false
  end.
Definition insert_chars (to : Chars) (from : Node) : Chars :=
  match from with
  | Leaf n => match node_type n with
              | CharNode c => Chars_insert c to
              | CharSetNode cs => fold_left (fun to c => Chars_insert c to) cs to
              | _ => to
              end
  | _ => to
  end.
Definition char_node (cs : Chars) : leaf_type :=
  match cs with [c] => CharNode c | _ => CharSetNode cs end.

(** New nodes are numbered from [n] on. *)
Definition merge_alt_chars (ts : list Node) (n : positive) : list Node * positive :=
  let cs := base.filter (fun t => is_char_or_charset t = true) ts in
  if (length cs <? 2)%nat then (ts, n)
  else (base.filter (fun t => is_char_or_charset t = false) ts ++
        [Leaf (Imp n (char_node (fold_left insert_chars cs [])))], Pos.succ n).

Definition dir_list {A} (dir : bool) (ts : list A) : list A := if dir then rev ts else ts.
(** Element by element from the factoring end, then by size. *)
Fixpoint elems_cmp (xs ys : list Node) : Z :=
  match xs, ys with
  | x :: xs, y :: ys => let tmp := node_cmp x y in if tmp =? 0 then elems_cmp xs ys else tmp
  | _, _ => 0
  end.
Definition vec_cmp (dir : bool) (a b : Node) : Z :=
  if is_cat a && is_cat b then
    let tmp := elems_cmp (dir_list dir (children a)) (dir_list dir (children b)) in
    if tmp =? 0 then sign_cmp (Z.of_nat (length (children a))) (Z.of_nat (length (children b))) else tmp
  else node_cmp a b.

(** Adjacent alternatives that are equal. *)
Definition remove_dups (ts : list Node) : list Node :=
  fold_left (fun out t => match last out with
                          | Some u => if node_eq u t then out else out ++ [t]
                          | None => [t]
                          end) ts [].

Definition cat_elem (c : Node) (k : nat) (dir : bool) : Node := nth k (dir_list dir (children c)) EpsNode.

(** The loop of [common_len]: lengths from [len] on, [n] of them left. *)
Fixpoint common_loop (dir : bool) (first : Node) (others : list Node) (n len : nat) : nat :=
  match n with
  | O => len
  | S n => if forallb (fun i => node_eq (cat_elem i len dir) (cat_elem first len dir)) others
           then common_loop dir first others n (S len) else len
  end.
Definition common_len (first : Node) (others : list Node) (dir : bool) : nat :=
  let max := foldl (fun m i => Nat.min m (length (children i))) (length (children first)) others in
  common_loop dir first others (max - 1) 1.

(** The removed elements and what remains. *)
Definition cat_split (dir : bool) (len : nat) (ts : list Node) : list Node * list Node :=
  if dir then (drop (length ts - len) ts, take (length ts - len) ts) else (take len ts, drop len ts).
Definition cat_remainder (c : Node) (len : nat) (dir : bool) : Node :=
  match (cat_split dir len (children c)).2 with
  | [] => EpsNode
  | [t] => t
  | ts => CatNode ts
  end.

Fixpoint span {A} (P : A -> bool) (l : list A) : list A * list A :=
  match l with
  | x :: l' => if P x then let '(a, b) := span P l' in (x :: a, b) else ([], l)
  | [] => ([], [])
  end.

(** [std::lower_bound]: the first element that is not less than the key. *)
Definition lower_bound (key : Node) (ts : list Node) : option (nat * Node) :=
  list_find (fun l => ~ node_cmp l key < 0) ts.

Record factored := Factored { fa_used : list nat; fa_out : list Node; fa_any : bool; fa_next : positive }.

Section factoring.
(** [std::sort] with [vec_less], whose order of equal nodes is not specified. *)
Context (sort_alts : bool -> list Node -> list Node).
(** [simplify_vec_alt] on a new node. *)
Context (simplify_alt : list Node -> positive -> Node * positive).
Context (dir : bool).

Definition factor_run (first : Node) (others : list Node) (x : option Node) (n : positive) : Node * positive :=
  let len := match x with Some _ => 1%nat | None => common_len first others dir end in
  let common := (cat_split dir len (children first)).1 in
  let rest := map (fun c => cat_remainder c len dir) (first :: others) ++
              match x with Some _ => [EpsNode] | None => [] end in
  let '(alt, n) := simplify_alt rest n in
  (simplify_vec_cat (if dir then alt :: common else common ++ [alt]), n).

Definition find_leaf (key : Node) (ts : list Node) : option (nat * Node) :=
  match lower_bound key ts with
  | Some (k, l) => if node_eq l key then Some (k, l) else None
  | None => None
  end.

Fixpoint factor_loop (fuel : nat) (ts cats : list Node) (r : factored) : factored :=
  match fuel, cats with
  | S fuel, i :: cats =>
      let key := cat_elem i 0 dir in
      let '(others, cats) := span (fun j => node_eq (cat_elem j 0 dir) key) cats in
      let x := find_leaf key ts in
      let used := match x with Some (k, _) => k :: fa_used r | None => fa_used r end in
      match others, x with
      | [], None => factor_loop fuel ts cats (Factored used (fa_out r ++ [i]) (fa_any r) (fa_next r))
      | _, _ =>
          let '(t, n) := factor_run i others (option_map snd x) (fa_next r) in
          factor_loop fuel ts cats (Factored used (fa_out r ++ [t]) true n)
      end
  | _, _ => r
  end.

(** Alternatives that no run has taken. *)
Definition unused (used : list nat) (ts : list Node) : list Node :=
  omap (fun '(k, t) => if decide (k ∈ used) then None else Some t) (zip (seq 0 (length ts)) ts).

Definition factor_alt (ts : list Node) (n : positive) : list Node * positive :=
  let '(ls, cats) := span (fun t => negb (is_cat t)) ts in
  match cats with
  | [] => (ts, n)
  | _ =>
      let r := factor_loop (length cats) ls cats (Factored [] [] false n) in
      if fa_any r then (sort_alts dir (fa_out r ++ unused (fa_used r) ls), fa_next r) else (ts, fa_next r)
  end.
End factoring.

Section simplify.
Context (sort_alts : bool -> list Node -> list Node).

Fixpoint simplify_vec_alt (fuel : nat) (dir : bool) (ts : list Node) (n : positive) : Node * positive :=
  match fuel with
  | O => (AltNode ts, n)
  | S fuel =>
      let '(ts, n) := merge_alt_chars (flatten_node is_alt ts) n in
      let ts := remove_dups (sort_alts dir ts) in
      let '(ts, n) := factor_alt sort_alts (simplify_vec_alt fuel dir) dir ts n in
      (match ts with [c] => c | _ => AltNode ts end, n)
  end.
Definition simplify_alt (dir : bool) (ts : list Node) (n : positive) : Node * positive :=
  simplify_vec_alt (S (list_size ts)) dir ts n.

(** Children from left to right. *)
Definition map_next {A} (f : A -> positive -> Node * positive) : list A -> positive -> list Node * positive :=
  fix go ts n :=
    match ts with
    | [] => ([], n)
    | t :: ts => let '(t, n) := f t n in let '(ts, n) := go ts n in (t :: ts, n)
    end.

Fixpoint simplify_vec (fuel : nat) (dir : bool) (t : Node) (n : positive) : Node * positive :=
  match fuel with
  | O => (t, n)
  | S fuel =>
      match t with
      | EpsNode | Leaf _ | SharedTreeNode _ _ _ => (t, n)
      | StarNode t => let '(t, n) := simplify_vec fuel dir t n in (StarNode t, n)
      | OptionalNode t => let '(t, n) := simplify_vec fuel dir t n in (OptionalNode t, n)
      | PlusNode t => let '(t, n) := simplify_vec fuel dir t n in (PlusNode t, n)
      | CatNode ts =>
          let '(ts, n) := map_next (simplify_vec fuel dir) (flatten_node is_cat ts) n in
          (simplify_vec_cat ts, n)
      | AltNode ts =>
          let '(ts, n) := map_next (simplify_vec fuel dir) (flatten_node is_alt ts) n in
          simplify_alt dir ts n
      end
  end.

(** One pass from each side; [left]: [CONTROL_DFA_TREE_LEFT]. *)
Definition simplify_tree_vec (left : bool) (t : Node) (n : positive) : Node * positive :=
  let '(t, n) := simplify_vec (node_size t) (negb left) t n in
  simplify_vec (node_size t) left t n.
End simplify.

(** [flip_tree] reverses the children of every concatenation. *)
Fixpoint flip_tree (t : Node) : Node :=
  match t with
  | EpsNode | Leaf _ => t
  | StarNode t => StarNode (flip_tree t)
  | OptionalNode t => OptionalNode (flip_tree t)
  | PlusNode t => PlusNode (flip_tree t)
  | SharedTreeNode id rc t => SharedTreeNode id rc (flip_tree t)
  | CatNode ts => CatNode (rev (map flip_tree ts))
  | AltNode ts => AltNode (map flip_tree ts)
  end.

(** ** Equal nodes match the same words *)

Lemma sign_cmp_0 a b : sign_cmp a b = 0 -> a = b.
Proof. unfold sign_cmp. destruct (Z.ltb_spec a b); [lia|]. destruct (Z.ltb_spec b a); lia. Qed.
Lemma charset_cmp_0 cs ds : charset_cmp cs ds = 0 -> cs = ds.
Proof.
  unfold charset_cmp. destruct (Z.eqb_spec (sign_cmp (Z.of_nat (length cs)) (Z.of_nat (length ds))) 0) as [E|E]; [|lia].
  apply sign_cmp_0 in E. assert (El : length cs = length ds) by lia. clear E. revert ds El.
  induction cs as [|c cs IH]; intros [|d ds]; cbn; try done. intros [= El].
  destruct (Z.eqb_spec (c - d) 0); [|lia]. intros H. f_equal; [lia|by apply IH].
Qed.

Lemma leaf_cmp_0 m n :
  type_flags (Leaf m) = type_flags (Leaf n) -> leaf_cmp m n = 0 -> leq (lang (Leaf m)) (lang (Leaf n)).
Proof.
  destruct m as [i k], n as [j l]. unfold leaf_cmp; cbn [node_type node_id].
  assert (Hsame : k = l -> is_accept (Imp i k) = false -> leq (lang (Leaf (Imp i k))) (lang (Leaf (Imp j l)))).
  { intros <- Hk w. unfold is_accept in Hk; cbn in *. unfold lang; cbn. unfold matches.
    apply exist_proper; intros x. destruct x as [c|a]; cbn; [done|]. unfold is_accept; cbn. rewrite Hk. intuition discriminate. }
  destruct k as [c|cs|cs| |f p a q], l as [d|ds|ds| |f' p' a' q']; cbn [type_flags node_type];
    try (intros H; vm_compute in H; discriminate H);
    try (destruct f; intros H; vm_compute in H; discriminate H);
    try (destruct f'; intros H; vm_compute in H; discriminate H).
  - intros _ H. apply Hsame; [f_equal; lia|done].
  - intros _ H%charset_cmp_0. apply Hsame; [by f_equal|done].
  - intros _ H%charset_cmp_0. apply Hsame; [by f_equal|done].
  - intros _ _. by apply Hsame.
  - intros Hf. assert (f = f') as <- by (destruct f, f'; vm_compute in Hf; done). clear Hf Hsame.
    destruct (Z.eqb_spec p p') as [<-|]; [|by intros H%sign_cmp_0].
    destruct (Z.eqb_spec a a') as [<-|]; [|by intros H%sign_cmp_0].
    destruct (Z.eqb_spec q q') as [<-|]; [|by intros H%sign_cmp_0].
    intros H%sign_cmp_0. by injection H as ->.
Qed.

Lemma node_cmp_lang a b :
  no_shared a = true -> node_cmp a b = 0 -> leq (lang a) (lang b).
Proof.
  assert (Hk : forall x y : Node, sign_cmp (type_flags x) (type_flags y) <> 0 -> node_cmp x y <> 0).
  { intros x y H. apply Z.eqb_neq in H. destruct x; cbn [node_cmp]; rewrite H; cbn [negb]; by apply Z.eqb_neq. }
  assert (Hlist : forall xs, Forall (fun a => forall b, no_shared a = true -> node_cmp a b = 0 -> leq (lang a) (lang b)) xs ->
    forall ys, length xs = length ys -> forallb no_shared xs = true ->
    (fix loop (xs ys : list Node) : Z := match xs, ys with
      | x :: xs, y :: ys => let tmp := node_cmp x y in if tmp =? 0 then loop xs ys else tmp | _, _ => 0 end) xs ys = 0 ->
    leq (cat_list (map lang xs)) (cat_list (map lang ys)) /\ leq (alt_list (map lang xs)) (alt_list (map lang ys))).
  { induction 1 as [|x xs Hx _ IH]; intros [|y ys]; try done. cbn [length forallb]. intros [= El] Hs.
    apply andb_prop in Hs as [Hs1 Hs2]. destruct (Z.eqb_spec (node_cmp x y) 0) as [E|E]; [|done]. intros H.
    destruct (IH ys El Hs2 H) as [IH1 IH2]. specialize (Hx y Hs1 E). cbn. split; [by apply cat_proper|].
    intros w. cbn. by rewrite (Hx w), (IH2 w). }
  revert b; node_ind a; intros b Hs H; cbn [no_shared] in Hs;
    (match goal with |- leq (lang ?a) _ => destruct (decide (sign_cmp (type_flags a) (type_flags b) = 0)) as [Et|Et] end;
      [|exfalso; by apply (Hk _ _ Et)]); pose proof Et as Ef; apply sign_cmp_0 in Ef;
    cbn [node_cmp] in H; rewrite Et in H; cbn [Z.eqb negb] in H;
    (destruct b as [|m|b|b|b|j rc' b|ys|ys];
     try (vm_compute in Ef; discriminate Ef);
     try (destruct n as [i [| | | |[]]]; vm_compute in Ef; discriminate Ef);
     try (destruct m as [i [| | | |[]]]; vm_compute in Ef; discriminate Ef)).
  - done.
  - by apply leaf_cmp_0.
  - unfold lang; cbn. apply star_proper. by apply IH.
  - intros w; unfold lang; cbn. by rewrite (IH b Hs H w).
  - unfold lang; cbn. apply plus_proper. by apply IH.
  - done.
  - destruct (Z.eqb_spec (sign_cmp (Z.of_nat (length ts)) (Z.of_nat (length ys))) 0) as [E%sign_cmp_0|]; [|done].
    apply (Hlist ts IH ys); [lia|done|done].
  - destruct (Z.eqb_spec (sign_cmp (Z.of_nat (length ts)) (Z.of_nat (length ys))) 0) as [E%sign_cmp_0|]; [|done].
    apply (Hlist ts IH ys); [lia|done|done].
Qed.
Lemma node_eq_lang a b : no_shared a = true -> node_eq a b = true -> leq (lang a) (lang b).
Proof. intros Hs H%Z.eqb_eq. by apply node_cmp_lang. Qed.

(** ** Lists of alternatives *)

Definition L (ts : list Node) (w : list letter) : Prop := exists t, t ∈ ts /\ lang t w.
Definition node_ok (t : Node) : Prop := inhabited_nodes t = true /\ no_shared t = true.
Abbreviation lleaves ts := (concat (map leaves ts)) (only parsing).

Lemma lang_alt ts : leq (lang (AltNode ts)) (L ts).
Proof.
  intros w. unfold L, lang; cbn. induction ts as [|t ts IH]; cbn; [set_solver|].
  rewrite IH. setoid_rewrite elem_of_cons. naive_solver.
Qed.
Lemma L_nil w : L [] w <-> False.
Proof. unfold L. set_solver. Qed.
Lemma L_cons t ts w : L (t :: ts) w <-> lang t w \/ L ts w.
Proof. unfold L. setoid_rewrite elem_of_cons. naive_solver. Qed.
Lemma L_app ts us w : L (ts ++ us) w <-> L ts w \/ L us w.
Proof. unfold L. setoid_rewrite elem_of_app. naive_solver. Qed.
Lemma L_perm ts us w : ts ≡ₚ us -> L ts w <-> L us w.
Proof. intros H. unfold L. by setoid_rewrite H. Qed.
Lemma lleaves_app ts us : lleaves (ts ++ us) = lleaves ts ++ lleaves us.
Proof. by rewrite map_app, concat_app. Qed.
Lemma lleaves_perm ts us : ts ≡ₚ us -> lleaves ts ≡ₚ lleaves us.
Proof.
  induction 1; cbn; [done|by f_equiv| |by etrans].
  rewrite !app_assoc. f_equiv. apply Permutation_app_comm.
Qed.
Lemma list_size_cons t ts : list_size (t :: ts) = (node_size t + list_size ts)%nat.
Proof. done. Qed.
Lemma list_size_perm ts us : ts ≡ₚ us -> list_size ts = list_size us.
Proof. induction 1; rewrite ?list_size_cons; lia. Qed.
Lemma list_size_app ts us : list_size (ts ++ us) = (list_size ts + list_size us)%nat.
Proof. unfold list_size. rewrite map_app. apply list_sum_app. Qed.
Lemma node_size_pos t : (0 < node_size t)%nat.
Proof. destruct t; cbn; lia. Qed.

Lemma node_ok_alt ts : node_ok (AltNode ts) <-> ts <> [] /\ Forall node_ok ts.
Proof.
  unfold node_ok; cbn. destruct ts as [|t ts]; [naive_solver|].
  rewrite Forall_and, !Forall_forall. setoid_rewrite list_elem_of_In.
  rewrite !forallb_forall. naive_solver.
Qed.
Lemma node_ok_cat ts : node_ok (CatNode ts) <-> ts <> [] /\ Forall node_ok ts.
Proof. apply (node_ok_alt ts). Qed.

Lemma Forall_filter_sub (P : Node -> Prop) (Q : Node -> Prop) `{!forall t, Decision (Q t)} ts :
  Forall P ts -> Forall P (base.filter Q ts).
Proof. rewrite !Forall_forall. intros HP t Ht. apply list_elem_of_filter in Ht as [_ Ht]. by apply HP. Qed.

(** *** Flattening *)

(** What the work stack does, without it. *)
Inductive flat (same : Node -> bool) : list Node -> list Node -> Prop :=
| flat_nil : flat same [] []
| flat_keep c ts us : same c = false -> flat same ts us -> flat same (c :: ts) (c :: us)
| flat_splice c ts us : same c = true -> flat same (children c ++ ts) us -> flat same (c :: ts) us.

Lemma children_size c : (list_size (children c) < node_size c)%nat.
Proof. destruct c; cbn [children node_size]; unfold list_size; try (cbn [map list_sum fold_right]; lia); apply Nat.lt_succ_diag_r. Qed.

Lemma flatten_loop_flat same fuel work out :
  (list_size work < fuel)%nat -> exists us, flatten_loop fuel same work out = out ++ us /\ flat same work us.
Proof.
  revert work out; induction fuel as [|fuel IH]; intros [|c work] out Hf; cbn [flatten_loop]; [lia|lia| |].
  { exists []; split; [by rewrite app_nil_r|constructor]. }
  pose proof (node_size_pos c). pose proof (children_size c).
  change (list_size (c :: work)) with (node_size c + list_size work)%nat in Hf.
  destruct (same c) eqn:E.
  - destruct (IH (children c ++ work) out) as (us & -> & Hus); [rewrite list_size_app; lia|].
    exists us; split; [done|by constructor].
  - destruct (IH work (out ++ [c])) as (us & -> & Hus); [lia|]. exists (c :: us); split; [by rewrite <- app_assoc|].
    by constructor.
Qed.
Lemma flatten_node_flat same ts : flat same ts (flatten_node same ts).
Proof. destruct (flatten_loop_flat same (S (list_size ts)) ts []) as (us & E & H); [lia|]. unfold flatten_node. by rewrite E. Qed.

Lemma flat_leaves same ts us :
  (forall c, same c = true -> is_cat c = true \/ is_alt c = true) -> flat same ts us -> lleaves us = lleaves ts.
Proof.
  intros Hs. induction 1 as [|c ts us Hc _ IH|c ts us Hc _ IH]; cbn; [done|by rewrite IH|].
  rewrite IH, lleaves_app. f_equal. destruct (Hs c Hc); by destruct c.
Qed.
Lemma flat_size same ts us : flat same ts us -> (list_size us <= list_size ts)%nat.
Proof.
  induction 1 as [|c ts us Hc _ IH|c ts us Hc _ IH]; rewrite ?list_size_cons; [lia|lia|].
  pose proof (children_size c). rewrite list_size_app in IH. lia.
Qed.
Lemma flat_ok same ts us :
  (forall c, same c = true -> is_cat c = true \/ is_alt c = true) -> flat same ts us -> Forall node_ok ts ->
  Forall node_ok us /\ (ts <> [] -> us <> []).
Proof.
  intros Hs. induction 1 as [|c ts us Hc _ IH|c ts us Hc _ IH]; intros Hok; [done| |].
  - inversion_clear Hok. destruct IH as [IH1 IH2]; [done|]. by split; [constructor|].
  - inversion_clear Hok as [|? ? Hok1 Hok2]. assert (Hch : children c <> [] /\ Forall node_ok (children c)).
    { destruct (Hs c Hc); destruct c; try done; [by apply node_ok_cat|by apply node_ok_alt]. }
    destruct IH as [IH1 IH2]; [apply Forall_app; tauto|]. split; [done|]. intros _. apply IH2.
    destruct Hch as [Hch _]. by destruct (children c).
Qed.
Lemma flat_cat_lang ts us : flat is_cat ts us -> leq (cat_list (map lang us)) (cat_list (map lang ts)).
Proof.
  induction 1 as [|c ts us Hc _ IH|c ts us Hc _ IH]; cbn; [done|by apply cat_proper|].
  rewrite IH, map_app, cat_list_app. apply cat_proper; [|done]. by destruct c.
Qed.
Lemma flat_alt_lang ts us w : flat is_alt ts us -> L us w <-> L ts w.
Proof.
  induction 1 as [|c ts us Hc _ IH|c ts us Hc _ IH]; [done|by rewrite !L_cons, IH|].
  rewrite IH, L_app, L_cons. destruct c; try done. by rewrite (lang_alt _ w).
Qed.
Lemma flat_none same ts us c : flat same ts us -> c ∈ us -> same c = false.
Proof. induction 1; intros Hc; [by inversion Hc| |auto]. apply elem_of_cons in Hc as [->|]; auto. Qed.

(** *** Concatenations *)

Lemma simplify_vec_cat_spec ts :
  ts <> [] -> Forall node_ok ts ->
  leq (lang (simplify_vec_cat ts)) (cat_list (map lang ts)) /\
  leaves (simplify_vec_cat ts) = lleaves ts /\ node_ok (simplify_vec_cat ts).
Proof.
  intros Hne Hok. unfold simplify_vec_cat. pose proof (flatten_node_flat is_cat ts) as Hf.
  set (us := flatten_node is_cat ts) in *.
  destruct (flat_ok _ _ _ (fun c H => or_introl H) Hf Hok) as [Huok _].
  rewrite <- (flat_leaves _ _ _ (fun c H => or_introl H) Hf).
  rewrite <- (flat_cat_lang ts us Hf).
  assert (Hfil : leq (cat_list (map lang (base.filter (fun t => is_eps t = false) us))) (cat_list (map lang us)) /\
    lleaves (base.filter (fun t => is_eps t = false) us) = lleaves us).
  { clear. induction us as [|u us [IH1 IH2]]; [done|]. rewrite filter_cons.
    destruct (decide (is_eps u = false)) as [E|E]; cbn.
    - split; [by apply cat_proper|by rewrite IH2].
    - destruct u; try done. split; [|done]. rewrite IH1. symmetry. apply cat_nil_l. }
  destruct Hfil as [H1 H2]. rewrite <- H1, <- H2.
  assert (Hvok : Forall node_ok (base.filter (fun t => is_eps t = false) us)) by (by apply Forall_filter_sub).
  destruct (base.filter _ us) as [|a [|b vs]]; cbn [map concat cat_list foldr].
  - by split_and!.
  - inversion_clear Hvok. split_and!; [by rewrite cat_nil_r|by rewrite app_nil_r|done].
  - split_and!; [done|done|]. by apply node_ok_cat.
Qed.

(** *** Characters *)

Lemma fold_insert_elem cs to c : c ∈ fold_left (fun to c => Chars_insert c to) cs to <-> c ∈ cs \/ c ∈ to.
Proof.
  revert to; induction cs as [|d cs IH]; intros to; cbn; [set_solver|].
  rewrite IH, Chars_insert_elem, elem_of_cons. tauto.
Qed.

Lemma char_node_match cs c : char_match (char_node cs) c = Chars_find c cs.
Proof. destruct cs as [|d [|e cs]]; cbn; try done. by rewrite orb_false_r. Qed.
Lemma insert_chars_elem to t c :
  is_char_or_charset t = true -> c ∈ insert_chars to t <-> lang t [Ch c] \/ c ∈ to.
Proof.
  destruct t as [|[i k]| | | | | |]; try done. unfold lang; cbn. intros Hk.
  assert (Hl : (exists x, [Ch c] = [x] /\ matches (Imp i k) x) <-> char_match k c = true).
  { split; [by intros (x & [= <-] & H)|]. intros H. by exists (Ch c). }
  rewrite Hl. destruct k as [d|cs| | |]; try done; cbn.
  - rewrite Chars_insert_elem, Z.eqb_eq. done.
  - by rewrite fold_insert_elem, Chars_find_spec.
Qed.
Lemma char_leaf_words t w :
  is_char_or_charset t = true -> lang t w <-> exists c, w = [Ch c] /\ lang t [Ch c].
Proof.
  destruct t as [|[i k]| | | | | |]; try done. intros Hk. unfold lang; cbn. split.
  - intros (x & -> & Hx). destruct x as [c|a]; [by exists c; split; [|exists (Ch c)]|].
    destruct Hx as [Ha _]. unfold is_accept in Ha; cbn in Ha. by destruct k.
  - by intros (c & -> & H).
Qed.
Lemma merged_lang n ts w :
  Forall (fun t => is_char_or_charset t = true) ts ->
  lang (Leaf (Imp n (char_node (fold_left insert_chars ts [])))) w <-> L ts w.
Proof.
  intros Hts. assert (Hc : forall to c, c ∈ fold_left insert_chars ts to <-> L ts [Ch c] \/ c ∈ to).
  { induction Hts as [|t ts Ht _ IH]; intros to c; cbn; [rewrite L_nil; tauto|].
    rewrite IH, insert_chars_elem, L_cons by done. tauto. }
  assert (Hn : is_char_or_charset (Leaf (Imp n (char_node (fold_left insert_chars ts [])))) = true).
  { cbn. by destruct (fold_left insert_chars ts []) as [|a [|b cs]]. }
  rewrite char_leaf_words by done.
  assert (Hw : L ts w <-> exists c, w = [Ch c] /\ L ts [Ch c]).
  { unfold L. rewrite Forall_forall in Hts. split.
    - intros (t & Ht & H). apply char_leaf_words in H as (c & -> & H); [|by apply Hts]. eauto.
    - by intros (c & -> & H). }
  rewrite Hw. apply exist_proper; intros c.
  assert (Hl : lang (Leaf (Imp n (char_node (fold_left insert_chars ts [])))) [Ch c] <-> L ts [Ch c]); [|tauto].
  unfold lang; cbn. transitivity (char_match (char_node (fold_left insert_chars ts [])) c = true).
  - split; [by intros (x & [= <-] & H)|]. intros H. by exists (Ch c).
  - rewrite char_node_match, Chars_find_spec, Hc. set_solver.
Qed.

(** ** Steps on alternatives *)

Definition char_leaf (p : ImportantNode) : Prop :=
  match node_type p with CharNode _ | CharSetNode _ => True | _ => False end.
(** Nodes made with the numbers from [n] to [n']. *)
Definition news (n n' : positive) (fs : list ImportantNode) : Prop :=
  NoDup fs /\ Forall (fun p => (n <= node_id p < n')%positive /\ char_leaf p) fs.

Lemma news_nil n n' : news n n' [].
Proof. split; constructor. Qed.
Lemma news_app n n1 n2 fs gs :
  (n <= n1 <= n2)%positive -> news n n1 fs -> news n1 n2 gs -> news n n2 (fs ++ gs).
Proof.
  intros Hle [D1 F1] [D2 F2]. split.
  - apply NoDup_app; split_and!; [done| |done]. intros p Hp Hq. rewrite Forall_forall in F1, F2.
    destruct (F1 p Hp), (F2 p Hq). lia.
  - apply Forall_app; split; (eapply Forall_impl; [eassumption|]); cbn; intros p [? ?]; (split; [lia|done]).
Qed.
#[local] Hint Resolve news_nil : core.

(** The leaves [ms] come from [ls] and new nodes. *)
Definition leaves_from (n : positive) (ls ms : list ImportantNode) (n' : positive) : Prop :=
  exists fs, news n n' fs /\ ms ⊆+ ls ++ fs.
Lemma leaves_from_sub n ls ms n' : ms ⊆+ ls -> leaves_from n ls ms n'.
Proof. intros H. exists []; split; [done|by rewrite app_nil_r]. Qed.
Lemma leaves_from_trans n ls ms n1 ks n2 :
  (n <= n1 <= n2)%positive -> leaves_from n ls ms n1 -> leaves_from n1 ms ks n2 -> leaves_from n ls ks n2.
Proof.
  intros Hle (fs & Hf & H1) (gs & Hg & H2). exists (fs ++ gs); split; [by apply news_app with n1|].
  transitivity (ms ++ gs); [done|]. rewrite app_assoc. by apply submseteq_app.
Qed.
Lemma leaves_from_app n ls ms n1 ls' ms' n2 :
  (n <= n1 <= n2)%positive -> leaves_from n ls ms n1 -> leaves_from n1 ls' ms' n2 ->
  leaves_from n (ls ++ ls') (ms ++ ms') n2.
Proof.
  intros Hle (fs & Hf & H1) (gs & Hg & H2). exists (fs ++ gs); split; [by apply news_app with n1|].
  transitivity ((ls ++ fs) ++ (ls' ++ gs)); [by apply submseteq_app|]. apply Permutation_submseteq.
  rewrite <- !app_assoc. f_equiv. rewrite !app_assoc. f_equiv. apply Permutation_app_comm.
Qed.

Record refines (n : positive) (ts us : list Node) (n' : positive) : Prop := {
  rf_lang : forall w, L us w <-> L ts w;
  rf_le : (n <= n')%positive;
  rf_leaves : leaves_from n (lleaves ts) (lleaves us) n';
  rf_ok : Forall node_ok us;
  rf_ne : us <> []
}.
Lemma refines_trans n ts us n1 vs n2 : refines n ts us n1 -> refines n1 us vs n2 -> refines n ts vs n2.
Proof.
  intros [] []. split; try done; [|lia|].
  - intros w. by rewrite rf_lang1.
  - eapply leaves_from_trans; [|done..]. lia.
Qed.
Lemma refines_sub n ts us :
  (forall w, L us w <-> L ts w) -> lleaves us ⊆+ lleaves ts -> Forall node_ok us -> us <> [] -> refines n ts us n.
Proof. intros ? ? ? ?. split; try done. by apply leaves_from_sub. Qed.

Lemma flatten_refines n ts : ts <> [] -> Forall node_ok ts -> refines n ts (flatten_node is_alt ts) n.
Proof.
  intros Hne Hok. pose proof (flatten_node_flat is_alt ts) as Hf.
  destruct (flat_ok _ _ _ (fun c H => or_intror H) Hf Hok) as [H1 H2]. apply refines_sub; [| |done|by apply H2].
  - intros w. by apply flat_alt_lang.
  - by rewrite (flat_leaves _ _ _ (fun c H => or_intror H) Hf).
Qed.

Lemma filter_split (P : Node -> bool) ts :
  ts ≡ₚ base.filter (fun t => P t = false) ts ++ base.filter (fun t => P t = true) ts.
Proof.
  induction ts as [|t ts IH]; [done|]. rewrite !filter_cons.
  destruct (decide (P t = false)), (decide (P t = true)); try congruence.
  - cbn [app]. by f_equiv.
  - rewrite <- Permutation_middle. by f_equiv.
  - by destruct (P t).
Qed.

Lemma merge_refines n ts us n' :
  ts <> [] -> Forall node_ok ts -> merge_alt_chars ts n = (us, n') ->
  refines n ts us n' /\ (list_size us <= list_size ts)%nat.
Proof.
  intros Hne Hok. unfold merge_alt_chars. set (cs := base.filter (fun t => is_char_or_charset t = true) ts).
  destruct (Nat.ltb_spec (length cs) 2) as [Hc|Hc]; intros [= <- <-]; [by split; [apply refines_sub|]|].
  pose proof (filter_split is_char_or_charset ts) as Hp. fold cs in Hp.
  set (os := base.filter (fun t => is_char_or_charset t = false) ts) in *.
  assert (Hcs : Forall (fun t => is_char_or_charset t = true) cs).
  { apply Forall_forall. intros t Ht. by apply list_elem_of_filter in Ht as [? _]. }
  split; [split|].
  - intros w. rewrite (L_perm ts _ w Hp), !L_app, L_cons, L_nil, merged_lang by done. tauto.
  - lia.
  - exists [Imp n (char_node (fold_left insert_chars cs []))]; split.
    + split; [apply NoDup_singleton|apply Forall_singleton; cbn; split; [lia|]].
      unfold char_leaf; cbn. by destruct (fold_left insert_chars cs []) as [|a [|b l]].
    + rewrite lleaves_app. cbn [map concat leaves app]. apply submseteq_app; [|done].
      rewrite (lleaves_perm _ _ Hp), lleaves_app. apply submseteq_inserts_r. done.
  - apply Forall_app; split; [by apply Forall_filter_sub|]. by apply Forall_singleton.
  - by destruct os.
  - rewrite (list_size_perm _ _ Hp), !list_size_app. destruct cs as [|c [|c' cs']]; cbn in Hc; [lia|lia|].
    rewrite !list_size_cons. pose proof (node_size_pos c). cbn. lia.
Qed.

(** Duplicates are dropped. *)
Lemma dups_loop out ts :
  let r := fold_left (fun out t => match last out with
      | Some u => if node_eq u t then out else out ++ [t] | None => [t] end) ts out in
  sublist r (out ++ ts) /\ (Forall node_ok (out ++ ts) -> forall w, L r w <-> L out w \/ L ts w) /\
  (out ++ ts <> [] -> r <> []).
Proof.
  revert out; induction ts as [|t ts IH]; intros out; cbn.
  { rewrite app_nil_r. split_and!; [done|intros _ w; rewrite L_nil; tauto|done]. }
  set (out' := match last out with Some u => _ | None => _ end). specialize (IH out'). cbv zeta in IH.
  destruct IH as (IH1 & IH2 & IH3).
  assert (Hcase : (out' = out /\ exists u, u ∈ out /\ node_eq u t = true) \/ out' = out ++ [t]).
  { unfold out'. destruct (last out) as [u|] eqn:El.
    - destruct (node_eq u t) eqn:E; [left|by right]. split; [done|]. exists u; split; [|done].
      apply last_Some in El as [l ->]. set_solver.
    - apply last_None in El as ->. by right. }
  destruct Hcase as [[-> (u & Hu & He)]| ->].
  - split_and!.
    + rewrite IH1. apply sublist_app; [done|by constructor].
    + intros Hok w. rewrite Forall_app, Forall_cons in Hok. destruct Hok as (Ho & Ht & Hts).
      rewrite IH2 by (by apply Forall_app). rewrite L_cons. split; [tauto|]. intros [H|[H|H]]; [tauto| |tauto].
      left. exists u; split; [done|]. rewrite Forall_forall in Ho. by apply (node_eq_lang u t (proj2 (Ho u Hu)) He w).
    + intros _. apply IH3. by destruct out; [inversion Hu|].
  - rewrite <- app_assoc in *. cbn in *. split_and!; [done| |].
    + intros Hok w. rewrite IH2, L_app, !L_cons, L_nil by done. tauto.
    + intros _. apply IH3. by destruct out.
Qed.

Lemma sublist_leaves ts us : sublist ts us -> lleaves ts ⊆+ lleaves us /\ (list_size ts <= list_size us)%nat.
Proof.
  induction 1 as [|t ts us _ [IH1 IH2]|t ts us _ [IH1 IH2]]; rewrite ?list_size_cons; cbn; [done| |].
  - split; [by apply submseteq_app|lia].
  - split; [by apply submseteq_inserts_l|lia].
Qed.

Lemma remove_dups_refines n ts :
  ts <> [] -> Forall node_ok ts ->
  refines n ts (remove_dups ts) n /\ sublist (remove_dups ts) ts.
Proof.
  intros Hne Hok. destruct (dups_loop [] ts) as (H1 & H2 & H3). fold (remove_dups ts) in *. cbn [app] in *.
  split; [|done]. apply refines_sub.
  - intros w. rewrite H2 by done. rewrite L_nil. tauto.
  - by apply sublist_leaves.
  - apply Forall_forall. intros t Ht. rewrite Forall_forall in Hok. apply Hok.
    eapply elem_of_submseteq; [done|]. by apply sublist_submseteq.
  - by apply H3.
Qed.

(** ** Factoring *)

Lemma Forall2_rev {A B} (R : A -> B -> Prop) l k : Forall2 R l k -> Forall2 R (rev l) (rev k).
Proof. induction 1; cbn; [constructor|]. apply Forall2_app; [done|]. by constructor. Qed.

(** The common part and the rest of a concatenation. *)
Definition join (dir : bool) (P Q : list letter -> Prop) : list letter -> Prop :=
  if dir then cat Q P else cat P Q.
#[local] Instance join_proper dir : Proper (leq ==> leq ==> leq) (join dir).
Proof. intros P P' HP Q Q' HQ. destruct dir; cbn; by apply cat_proper. Qed.
Abbreviation clang ts := (cat_list (map lang ts)) (only parsing).

Lemma cat_split_lang dir len ts :
  leq (clang ts) (join dir (clang (cat_split dir len ts).1) (clang (cat_split dir len ts).2)).
Proof.
  unfold cat_split, join. destruct dir; cbn [fst snd]; rewrite <- cat_list_app, <- map_app, take_drop; done.
Qed.
Lemma cat_split_leaves dir len ts :
  lleaves ts ≡ₚ lleaves (cat_split dir len ts).1 ++ lleaves (cat_split dir len ts).2.
Proof.
  unfold cat_split. destruct dir; cbn [fst snd]; rewrite <- lleaves_app.
  - apply lleaves_perm. rewrite (Permutation_app_comm (drop _ _)). by rewrite take_drop.
  - by rewrite take_drop.
Qed.
Lemma cat_split_dir dir len ts :
  (cat_split dir len ts).1 = dir_list dir (take len (dir_list dir ts)).
Proof. unfold cat_split, dir_list. destruct dir; cbn [fst]; [|done]. by rewrite firstn_rev, rev_involutive. Qed.
Lemma cat_split_length dir len ts :
  (len <= length ts)%nat -> length (cat_split dir len ts).1 = len.
Proof. intros H. unfold cat_split. destruct dir; cbn [fst]; rewrite ?length_drop, ?length_take; lia. Qed.
Lemma cat_split_ok dir len ts :
  Forall node_ok ts -> Forall node_ok (cat_split dir len ts).1 /\ Forall node_ok (cat_split dir len ts).2.
Proof. intros H. unfold cat_split. destruct dir; cbn; split; by apply Forall_take || apply Forall_drop. Qed.

Lemma clang_Forall2 xs ys : Forall2 (fun a b => leq (lang a) (lang b)) xs ys -> leq (clang xs) (clang ys).
Proof. induction 1; cbn; [done|by apply cat_proper]. Qed.
Lemma dir_list_length {A} dir (ts : list A) : length (dir_list dir ts) = length ts.
Proof. destruct dir; cbn; [apply length_rev|done]. Qed.
Lemma dir_list_ok dir ts : Forall node_ok ts -> Forall node_ok (dir_list dir ts).
Proof. destruct dir; cbn; [|done]. rewrite !Forall_forall. intros H t. rewrite list_elem_of_In, <- in_rev, <- list_elem_of_In. apply H. Qed.

(** Elements that are equal one by one. *)
Lemma common_lang dir len xs ys :
  (len <= length xs)%nat -> (len <= length ys)%nat -> Forall node_ok xs ->
  (forall k, (k < len)%nat -> node_eq (nth k (dir_list dir xs) EpsNode) (nth k (dir_list dir ys) EpsNode) = true) ->
  leq (clang (cat_split dir len xs).1) (clang (cat_split dir len ys).1).
Proof.
  intros Hx Hy Hok Heq. rewrite !cat_split_dir. apply clang_Forall2.
  assert (H : Forall2 (fun a b => leq (lang a) (lang b)) (take len (dir_list dir xs)) (take len (dir_list dir ys))).
  { apply Forall2_same_length_lookup_2.
    { rewrite !length_take, !dir_list_length. lia. }
    intros k a b Ha Hb. apply lookup_take_Some in Ha as [Ha Hk], Hb as [Hb _].
    specialize (Heq k Hk). rewrite (nth_lookup_Some _ _ _ _ Ha), (nth_lookup_Some _ _ _ _ Hb) in Heq.
    apply node_eq_lang; [|done]. pose proof (dir_list_ok dir xs Hok) as Hd.
    rewrite Forall_lookup in Hd. by apply (Hd k a). }
  destruct dir; cbn [dir_list] in *; [by apply Forall2_rev|done].
Qed.

Lemma cat_remainder_spec c len dir :
  Forall node_ok (children c) ->
  leq (lang (cat_remainder c len dir)) (clang (cat_split dir len (children c)).2) /\
  leaves (cat_remainder c len dir) = lleaves (cat_split dir len (children c)).2 /\
  node_ok (cat_remainder c len dir).
Proof.
  intros Hok. apply (cat_split_ok dir len) in Hok as [_ Hok]. unfold cat_remainder.
  destruct (cat_split dir len (children c)).2 as [|a [|b ts]]; cbn [map concat cat_list foldr].
  - by split_and!.
  - inversion_clear Hok. split_and!; [by rewrite cat_nil_r|by rewrite app_nil_r|done].
  - split_and!; [done|done|by apply node_ok_cat].
Qed.
Lemma cat_remainder_size c len dir :
  is_cat c = true -> (1 <= len <= length (children c))%nat -> (node_size (cat_remainder c len dir) < node_size c)%nat.
Proof.
  destruct c as [| | | | | |ts|]; try done. intros _ Hl. cbn [children] in *. unfold cat_remainder; cbn [children].
  assert (Hs : (list_size (cat_split dir len ts).1 + list_size (cat_split dir len ts).2 = list_size ts)%nat).
  { unfold cat_split. destruct dir; cbn [fst snd]; rewrite <- list_size_app.
    - apply list_size_perm. rewrite (Permutation_app_comm (drop _ _)). by rewrite take_drop.
    - by rewrite take_drop. }
  assert (Hc : (0 < list_size (cat_split dir len ts).1)%nat).
  { pose proof (cat_split_length dir len ts ltac:(lia)) as Hcl.
    destruct (cat_split dir len ts).1 as [|a l]; cbn in Hcl; [lia|]. rewrite list_size_cons. pose proof (node_size_pos a). lia. }
  change (node_size (CatNode ts)) with (S (list_size ts)).
  destruct (cat_split dir len ts).2 as [|a [|b us]]; rewrite ?list_size_cons in Hs; cbn [node_size].
  - lia.
  - lia.
  - change (list_sum (map node_size (a :: b :: us))) with (list_size (a :: b :: us)).
    rewrite !list_size_cons in *. lia.
Qed.

Lemma common_loop_spec dir first others n len :
  let r := common_loop dir first others n len in
  (len <= r <= len + n)%nat /\ forall k i, (len <= k < r)%nat -> i ∈ others ->
  node_eq (cat_elem i k dir) (cat_elem first k dir) = true.
Proof.
  revert len; induction n as [|n IH]; intros len; cbn; [split; [lia|]; intros; lia|].
  destruct (forallb _ others) eqn:E; [|split; [lia|]; intros; lia].
  destruct (IH (S len)) as [H1 H2]. split; [lia|]. intros k i Hk Hi.
  destruct (decide (k = len)) as [->|]; [|apply H2; [lia|done]].
  rewrite forallb_forall in E. apply E. by apply list_elem_of_In.
Qed.
Lemma common_len_spec first others dir :
  let len := common_len first others dir in
  Forall (fun i => 1 <= length (children i))%nat (first :: others) ->
  (1 <= len)%nat /\ Forall (fun i => len <= length (children i))%nat (first :: others) /\
  forall k i, (1 <= k < len)%nat -> i ∈ others -> node_eq (cat_elem i k dir) (cat_elem first k dir) = true.
Proof.
  cbv zeta. unfold common_len. set (max := foldl _ _ _). intros Hall.
  assert (Hm : (1 <= max)%nat /\ Forall (fun i => max <= length (children i))%nat (first :: others)).
  { inversion_clear Hall as [|? ? Hf Ho].
    assert (G : forall m, (1 <= m)%nat -> let r := foldl (fun m i => Nat.min m (length (children i))) m others in
      (1 <= r <= m)%nat /\ Forall (fun i => r <= length (children i))%nat others).
    { clear -Ho. induction Ho as [|i others Hi _ IH]; intros m Hm; cbn; [split; [lia|constructor]|].
      destruct (IH (Nat.min m (length (children i))) ltac:(lia)) as [H1 H2]. split; [lia|]. constructor; [lia|done]. }
    destruct (G _ Hf) as [H1 H2]. fold max in H1, H2. split; [lia|]. constructor; [lia|done]. }
  destruct (common_loop_spec dir first others (max - 1) 1) as [H1 H2]. split; [lia|]. split; [|done].
  eapply Forall_impl; [apply Hm|]. cbn. lia.
Qed.

(** The alternative [x] that is the common element, if there is one. *)
Definition with_leaf (x : option Node) (ts : list Node) : list Node :=
  match x with Some x => ts ++ [x] | None => ts end.

(** The alternatives of a run are their common part followed by the rests. *)
Lemma run_lang dir len first others w :
  Forall node_ok (first :: others) -> Forall (fun c => is_cat c = true) (first :: others) ->
  Forall (fun i => len <= length (children i))%nat (first :: others) ->
  (forall k i, (k < len)%nat -> i ∈ others -> node_eq (cat_elem i k dir) (cat_elem first k dir) = true) ->
  L (first :: others) w <->
  join dir (clang (cat_split dir len (children first)).1)
    (L (map (fun c => cat_remainder c len dir) (first :: others))) w.
Proof.
  intros Hok Hcat Hlen Heq. set (C := clang (cat_split dir len (children first)).1).
  assert (Hone : forall c, c ∈ first :: others ->
    leq (lang c) (join dir C (lang (cat_remainder c len dir)))).
  { intros c Hc. rewrite Forall_forall in Hok, Hcat, Hlen. specialize (Hok c Hc). specialize (Hcat c Hc).
    pose proof (Hlen c Hc) as Hlc. pose proof (Hlen first ltac:(set_solver)) as Hlf.
    destruct c as [| | | | | |ts|]; try done. apply node_ok_cat in Hok as [_ Hok].
    destruct (cat_remainder_spec (CatNode ts) len dir Hok) as (Hr & _ & _). rewrite Hr.
    change (lang (CatNode ts)) with (clang ts). rewrite (cat_split_lang dir len ts). apply join_proper; [|done].
    apply elem_of_cons in Hc as [<-|Hc]; [done|]. apply common_lang; [done|done|done|].
    intros k Hk. by apply (Heq k (CatNode ts)). }
  unfold L. split.
  - intros (c & Hc & Hw). apply (Hone c Hc w) in Hw. revert Hw. unfold join. destruct dir; intros (u & v & -> & H1 & H2);
      exists u, v; split_and!; try done; (eexists; split; [by apply (list_elem_of_fmap_2 _ _ c)|done]).
  - intros Hw. assert (Hex : exists c, c ∈ first :: others /\ join dir C (lang (cat_remainder c len dir)) w).
    { revert Hw. unfold join. destruct dir.
      - intros (u & v & -> & (t & Ht & H1) & H2). apply list_elem_of_fmap in Ht as (c & -> & Hc). exists c; split; [done|].
        by exists u, v.
      - intros (u & v & -> & H1 & (t & Ht & H2)). apply list_elem_of_fmap in Ht as (c & -> & Hc). exists c; split; [done|].
        by exists u, v. }
    destruct Hex as (c & Hc & H). exists c; split; [done|]. by apply (Hone c Hc w).
Qed.

Definition alt_spec (rec : list Node -> positive -> Node * positive) : Prop := forall rest n,
  rest <> [] -> Forall node_ok rest -> refines n rest [(rec rest n).1] (rec rest n).2.

Lemma join_or dir C P Q w : join dir C (fun w => P w \/ Q w) w <-> join dir C P w \/ join dir C Q w.
Proof. unfold join, cat. destruct dir; naive_solver. Qed.
Lemma join_eps dir C : leq (join dir C (fun w => w = [])) C.
Proof. unfold join. destruct dir; [apply cat_nil_l|apply cat_nil_r]. Qed.

Lemma first_elem dir c :
  (1 <= length (children c))%nat -> (cat_split dir 1 (children c)).1 = [cat_elem c 0 dir].
Proof.
  intros H. rewrite cat_split_dir. unfold cat_elem. pose proof (dir_list_length dir (children c)) as Hl.
  destruct (dir_list dir (children c)) as [|a l]; [cbn in Hl; lia|]. destruct dir; cbn; by rewrite take_0.
Qed.

Lemma rests_leaves dir len cs :
  Forall (fun c => is_cat c = true) cs -> Forall node_ok cs ->
  lleaves (map (fun c => cat_remainder c len dir) cs) ⊆+ lleaves cs.
Proof.
  induction 1 as [|c cs Hc _ IH]; intros Hok; cbn; [done|]. inversion_clear Hok as [|? ? Hok1 Hok2].
  apply submseteq_app; [|by apply IH]. destruct c as [| | | | | |ts|]; try done. apply node_ok_cat in Hok1 as [_ Hok1].
  destruct (cat_remainder_spec (CatNode ts) len dir Hok1) as (_ & -> & _). cbn [children leaves].
  rewrite (cat_split_leaves dir len ts). by apply submseteq_inserts_l.
Qed.
Lemma rests_ok dir len cs : Forall (fun c => is_cat c = true) cs -> Forall node_ok cs ->
  Forall node_ok (map (fun c => cat_remainder c len dir) cs).
Proof.
  induction 1 as [|c cs Hc _ IH]; intros Hok; cbn; constructor; inversion_clear Hok as [|? ? Hok1 Hok2].
  - destruct c as [| | | | | |ts|]; try done. apply node_ok_cat in Hok1 as [_ Hok1].
    by apply (cat_remainder_spec (CatNode ts) len dir).
  - by apply IH.
Qed.
Lemma cats_nonempty cs : Forall (fun c => is_cat c = true) cs -> Forall node_ok cs ->
  Forall (fun i => 1 <= length (children i))%nat cs.
Proof.
  rewrite !Forall_forall. intros Hc Hok c Hin. specialize (Hc c Hin). specialize (Hok c Hin).
  destruct c as [| | | | | |ts|]; try done. apply node_ok_cat in Hok as [Hne _]. cbn. destruct ts; cbn; [done|lia].
Qed.

Section run.
Context (rec : list Node -> positive -> Node * positive) (Hrec : alt_spec rec).
Context (dir : bool) (first : Node) (others : list Node) (x : option Node).
Context (Hok : Forall node_ok (first :: others)) (Hcat : Forall (fun c => is_cat c = true) (first :: others)).
Context (Hkey : forall i, i ∈ others -> node_eq (cat_elem i 0 dir) (cat_elem first 0 dir) = true).
Context (Hx : forall y, x = Some y -> node_ok y /\ node_eq y (cat_elem first 0 dir) = true).

Definition run_len : nat := match x with Some _ => 1%nat | None => common_len first others dir end.
Definition run_rest : list Node :=
  map (fun c => cat_remainder c run_len dir) (first :: others) ++ match x with Some _ => [EpsNode] | None => [] end.

Lemma run_len_ok :
  (1 <= run_len)%nat /\ Forall (fun i => run_len <= length (children i))%nat (first :: others) /\
  forall k i, (k < run_len)%nat -> i ∈ others -> node_eq (cat_elem i k dir) (cat_elem first k dir) = true.
Proof.
  pose proof (cats_nonempty _ Hcat Hok) as Hne. unfold run_len. destruct x as [y|].
  - split; [lia|]. split; [done|]. intros k i Hk. assert (k = 0%nat) as -> by lia. apply Hkey.
  - destruct (common_len_spec first others dir Hne) as (H1 & H2 & H3). split_and!; [done..|].
    intros k i Hk Hi. destruct k as [|k]; [by apply Hkey|]. apply H3; [lia|done].
Qed.

Lemma run_rest_lang w :
  L (with_leaf x (first :: others)) w <->
  join dir (clang (cat_split dir run_len (children first)).1) (L run_rest) w.
Proof.
  destruct run_len_ok as (_ & Hl & He). unfold run_rest, with_leaf.
  pose proof (run_lang dir run_len first others w Hok Hcat Hl He) as Hr. destruct x as [y|] eqn:Ex.
  - rewrite L_app, Hr, L_cons, L_nil.
    assert (Hj : leq (L (map (fun c => cat_remainder c run_len dir) (first :: others) ++ [EpsNode]))
      (fun w => L (map (fun c => cat_remainder c run_len dir) (first :: others)) w \/ w = [])).
    { intros v. rewrite L_app, L_cons, L_nil. cbn. unfold lang; cbn. tauto. }
    etransitivity; [|symmetry; apply (join_proper dir _ _ (reflexivity _) _ _ Hj w)].
    rewrite join_or. etransitivity; [|symmetry; apply or_iff_compat_l, join_eps].
    apply or_iff_compat_l. destruct (Hx y eq_refl) as [[_ Hy1] Hy2].
    unfold run_len. rewrite Ex, first_elem.
    + cbn [map cat_list foldr]. rewrite (node_eq_lang y _ Hy1 Hy2 w). etransitivity; [|symmetry; apply cat_nil_r]. tauto.
    + pose proof (cats_nonempty _ Hcat Hok) as Hne. by inversion Hne.
  - rewrite app_nil_r. exact Hr.
Qed.

Lemma run_rest_ok : run_rest <> [] /\ Forall node_ok run_rest.
Proof.
  unfold run_rest. split; [by destruct x|]. apply Forall_app; split; [by apply rests_ok|].
  destruct x; [by apply Forall_singleton|constructor].
Qed.

Lemma run_rest_size : (list_size run_rest < list_size (with_leaf x (first :: others)))%nat.
Proof.
  destruct run_len_ok as (H1 & Hl & _). unfold run_rest, with_leaf.
  assert (G : forall cs, Forall (fun c => is_cat c = true) cs ->
    Forall (fun i => run_len <= length (children i))%nat cs ->
    (list_size (map (fun c => cat_remainder c run_len dir) cs) + length cs <= list_size cs)%nat).
  { induction 1 as [|c cs Hc _ IH]; intros Hls; cbn [map length]; [cbn; lia|]. inversion_clear Hls.
    rewrite !list_size_cons. pose proof (cat_remainder_size c run_len dir Hc ltac:(lia)). specialize (IH ltac:(done)). lia. }
  specialize (G _ Hcat Hl). destruct x as [y|]; rewrite ?app_nil_r, ?list_size_app; cbn [length] in *; [|lia].
  pose proof (node_size_pos y). rewrite (list_size_cons y []).
  change (list_size [EpsNode]) with 1%nat. change (list_size []) with 0%nat. lia.
Qed.

Lemma factor_run_spec n :
  let '(t, n') := factor_run rec dir first others x n in
  (forall w, lang t w <-> L (with_leaf x (first :: others)) w) /\ (n <= n')%positive /\
  leaves_from n (lleaves (first :: others)) (leaves t) n' /\ node_ok t.
Proof.
  destruct run_rest_ok as [Hne Hrok]. pose proof (Hrec run_rest n Hne Hrok) as [RL Rle Rlv Rok _].
  unfold factor_run. fold run_len. fold run_rest. destruct (rec run_rest n) as [alt n']. cbn [fst snd] in *.
  inversion_clear Rok as [|? ? Haok _].
  set (common := (cat_split dir run_len (children first)).1) in *.
  set (all := if dir then alt :: common else common ++ [alt]).
  assert (Hcok : Forall node_ok common).
  { inversion Hok as [|? ? Hf _]; subst. inversion Hcat as [|? ? Hfc _]; subst.
    destruct first as [| | | | | |ts|]; try done. apply node_ok_cat in Hf as [_ Hf].
    by apply (cat_split_ok dir run_len ts). }
  assert (Hall : all <> [] /\ Forall node_ok all).
  { unfold all. destruct dir; [split; [done|by constructor]|].
    split; [by destruct common|]. apply Forall_app; split; [done|by apply Forall_singleton]. }
  destruct (simplify_vec_cat_spec all (proj1 Hall) (proj2 Hall)) as (S1 & S2 & S3).
  split; [|split; [done|split; [|done]]].
  - intros w. rewrite (S1 w), run_rest_lang. unfold all.
    assert (Ha : leq (lang alt) (L run_rest)) by (intros v; rewrite <- RL, L_cons, L_nil; tauto).
    etransitivity; [|apply (join_proper dir (clang common) _ (reflexivity _) _ _ Ha w)].
    unfold join. destruct dir; cbn [map cat_list foldr].
    + done.
    + rewrite map_app. transitivity (cat (clang common) (clang [alt]) w); [pose proof (cat_list_app (map lang common) (map lang [alt]) w); tauto|].
      cbn. pose proof (cat_proper (clang common) _ (reflexivity _) _ _ (cat_nil_r (lang alt)) w). tauto.
  - rewrite S2. destruct Rlv as (fs & Hfs & Hsub). exists fs; split; [done|].
    cbn [map concat] in Hsub. rewrite app_nil_r in Hsub.
    transitivity (lleaves common ++ (lleaves run_rest ++ fs)).
    { transitivity (lleaves common ++ leaves alt); [|by apply submseteq_app].
      apply Permutation_submseteq. unfold all. destruct dir; cbn; [apply Permutation_app_comm|].
      by rewrite lleaves_app; cbn; rewrite app_nil_r. }
    rewrite app_assoc. apply submseteq_app; [|done].
    assert (Hrl : lleaves run_rest = lleaves (map (fun c => cat_remainder c run_len dir) (first :: others))).
    { unfold run_rest. rewrite lleaves_app. destruct x; cbn; by rewrite app_nil_r. }
    rewrite Hrl. cbn [map concat]. inversion Hok as [|? ? Hf Ho]; subst. inversion Hcat as [|? ? Hfc Hoc]; subst.
    rewrite app_assoc. apply submseteq_app; [|by apply rests_leaves].
    unfold common. clear -Hf Hfc. destruct first as [| | | | | |ts|]; try done. apply node_ok_cat in Hf as [_ Hf].
    destruct (cat_remainder_spec (CatNode ts) run_len dir Hf) as (_ & -> & _). cbn [children leaves].
    apply Permutation_submseteq. symmetry. apply cat_split_leaves.
Qed.
End run.

Lemma span_spec {A} (P : A -> bool) l a b :
  span P l = (a, b) -> l = a ++ b /\ Forall (fun x => P x = true) a /\
  match b with x :: _ => P x = false | [] => True end.
Proof.
  revert a b; induction l as [|x l IH]; intros a b; cbn; [by intros [= <- <-]|].
  destruct (P x) eqn:E; [|by intros [= <- <-]].
  destruct (span P l) as [a' b']. intros [= <- <-]. destruct (IH a' b' eq_refl) as (-> & H1 & H2).
  split_and!; [done|by constructor|done].
Qed.
Lemma find_leaf_spec key ts k l : find_leaf key ts = Some (k, l) -> ts !! k = Some l /\ node_eq l key = true.
Proof.
  unfold find_leaf, lower_bound. destruct (list_find _ ts) as [[k' l']|] eqn:E; [|done].
  destruct (node_eq l' key) eqn:En; [|done]. intros [= <- <-]. by apply list_find_Some in E as (E & _ & _).
Qed.
Lemma unused_spec used ts :
  sublist (unused used ts) ts /\ forall k t, ts !! k = Some t -> k ∈ used \/ t ∈ unused used ts.
Proof.
  unfold unused. assert (G : forall i, sublist (omap (fun '(k, t) => if decide (k ∈ used) then None else Some t)
      (zip (seq i (length ts)) ts)) ts /\ forall k t, ts !! k = Some t -> (i + k)%nat ∈ used \/
      t ∈ omap (fun '(k, t) => if decide (k ∈ used) then None else Some t) (zip (seq i (length ts)) ts)); [|apply (G 0%nat)].
  induction ts as [|t ts IH]; intros i; [by split|]. destruct (IH (S i)) as [IH1 IH2].
  cbn [length seq zip zip_with omap list_omap]. destruct (decide (i ∈ used)) as [Hi|Hi]; split.
  - by apply sublist_cons.
  - intros [|k] u; cbn; [intros _; left; by rewrite Nat.add_0_r|]. intros Hu. rewrite Nat.add_succ_r. by apply IH2.
  - by apply sublist_skip.
  - intros [|k] u; cbn; [intros [= ->]; right; by left|]. intros Hu. rewrite Nat.add_succ_r.
    destruct (IH2 k u Hu); [by left|right; by right].
Qed.

Section factor.
Context (rec : list Node -> positive -> Node * positive) (Hrec : alt_spec rec) (dir : bool) (ls : list Node).
Context (Hls : Forall node_ok ls).

(** What a number of runs has made of the alternatives [cats]. *)
Record runs (r : factored) (cats : list Node) (r' : factored) : Prop := {
  ru_from : forall w, L (fa_out r') w -> L (fa_out r) w \/ L cats w \/ L ls w;
  ru_to : forall w, L (fa_out r) w \/ L cats w -> L (fa_out r') w;
  ru_used : forall k t w, k ∈ fa_used r' -> ls !! k = Some t -> lang t w ->
    k ∈ fa_used r \/ L (fa_out r') w;
  ru_le : (fa_next r <= fa_next r')%positive;
  ru_leaves : leaves_from (fa_next r) (lleaves (fa_out r) ++ lleaves cats) (lleaves (fa_out r')) (fa_next r');
  ru_ok : Forall node_ok (fa_out r) -> Forall node_ok (fa_out r');
  ru_ne : fa_out r <> [] \/ cats <> [] -> fa_out r' <> []
}.

Lemma runs_nil r : runs r [] r.
Proof.
  split; try done; [tauto|intros w; rewrite L_nil; tauto|auto| |by intros [?|?]].
  apply leaves_from_sub. cbn. by rewrite app_nil_r.
Qed.
Lemma runs_step r run cats t used any n r' :
  (forall w, lang t w -> L run w \/ L ls w) -> (forall w, L run w -> lang t w) ->
  (forall k u w, k ∈ used -> ls !! k = Some u -> lang u w -> k ∈ fa_used r \/ lang t w) ->
  (fa_next r <= n)%positive -> leaves_from (fa_next r) (lleaves run) (leaves t) n -> node_ok t ->
  runs (Factored used (fa_out r ++ [t]) any n) cats r' -> runs r (run ++ cats) r'.
Proof.
  intros H1 H2 H3 Hle Hlv Hok [R1 R2 R3 R4 R5 R6 R7]. cbn [fa_out fa_used fa_next] in *.
  assert (Hout : forall w, L (fa_out r ++ [t]) w <-> L (fa_out r) w \/ lang t w).
  { intros w. rewrite L_app, L_cons, L_nil. tauto. }
  split.
  - intros w Hw. rewrite L_app. apply R1 in Hw. rewrite Hout in Hw. specialize (H1 w). tauto.
  - intros w Hw. rewrite L_app in Hw. apply R2. rewrite Hout. specialize (H2 w). tauto.
  - intros k u w Hk Hu Hw. destruct (R3 k u w Hk Hu Hw) as [Hk'|?]; [|by right].
    destruct (H3 k u w Hk' Hu Hw); [by left|]. right. apply R2. left. apply Hout. by right.
  - lia.
  - eapply leaves_from_trans; [|  |exact R5]; [lia|].
    rewrite !lleaves_app. cbn [map concat]. rewrite app_nil_r.
    rewrite app_assoc. apply leaves_from_app with n; [lia| |by apply leaves_from_sub].
    destruct Hlv as (fs & Hf & Hsub). exists fs; split; [done|].
    rewrite <- app_assoc. by apply submseteq_app.
  - intros Ho. apply R6. apply Forall_app; split; [done|by apply Forall_singleton].
  - intros _. apply R7. left. by destruct (fa_out r).
Qed.

Lemma factor_loop_runs fuel cats r :
  (length cats <= fuel)%nat -> Forall (fun c => is_cat c = true) cats -> Forall node_ok cats ->
  runs r cats (factor_loop rec dir fuel ls cats r).
Proof.
  revert cats r; induction fuel as [|fuel IH]; intros [|i cats] r Hf Hc Hok; cbn [factor_loop length] in *;
    try lia; try apply runs_nil.
  destruct (span (fun j => node_eq (cat_elem j 0 dir) (cat_elem i 0 dir)) cats) as [others cats'] eqn:Es.
  destruct (span_spec _ _ _ _ Es) as (-> & Hkey & _).
  rewrite length_app in Hf. inversion_clear Hc as [|? ? Hci Hcr]. inversion_clear Hok as [|? ? Hoki Hokr].
  apply Forall_app in Hcr as [Hco Hcr], Hokr as [Hoko Hokr].
  assert (Hleaf : forall k y, find_leaf (cat_elem i 0 dir) ls = Some (k, y) ->
    ls !! k = Some y /\ node_ok y /\ node_eq y (cat_elem i 0 dir) = true).
  { intros k y (H1 & H2)%find_leaf_spec. split_and!; [done| |done]. rewrite Forall_lookup in Hls. by apply (Hls k). }
  set (x := find_leaf (cat_elem i 0 dir) ls) in *.
  destruct (factor_run rec dir i others (option_map snd x) (fa_next r)) as [t n'] eqn:Er.
  assert (Hrun : (forall w, lang t w <-> L (with_leaf (option_map snd x) (i :: others)) w) /\
    (fa_next r <= n')%positive /\ leaves_from (fa_next r) (lleaves (i :: others)) (leaves t) n' /\ node_ok t).
  { pose proof (factor_run_spec rec Hrec dir i others (option_map snd x)) as Hspec.
    specialize (Hspec ltac:(by constructor) ltac:(by constructor)).
    specialize (fun H1 H2 => Hspec H1 H2 (fa_next r)). rewrite Er in Hspec. apply Hspec.
    - intros j Hj. rewrite Forall_forall in Hkey. by apply Hkey.
    - intros y Hy. destruct x as [[k y']|] eqn:Ex; [|done]. injection Hy as ->. by destruct (Hleaf k y eq_refl). }
  destruct Hrun as (Hl & Hle & Hlv & Hokt).
  assert (Hstep : forall any, runs r ((i :: others) ++ cats')
    (factor_loop rec dir fuel ls cats' (Factored (match x with Some (k, _) => k :: fa_used r | None => fa_used r end)
      (fa_out r ++ [t]) any n'))).
  { intros any. eapply runs_step; [..|exact Hle|exact Hlv|exact Hokt|apply IH; [lia|done..]].
    - intros w. rewrite Hl. destruct x as [[k y]|]; cbn; [|tauto]. destruct (Hleaf k y eq_refl) as (Hk & _).
      rewrite (L_app (i :: others) [y]), (L_cons y []), L_nil. intros [?|[?|[]]]; [by left|]. right.
      exists y; split; [by apply list_elem_of_lookup_2 in Hk|done].
    - intros w Hw. apply Hl. destruct x as [[k y]|]; cbn; [|done]. apply (L_app (i :: others) [y]). by left.
    - intros k u w. destruct x as [[k' y]|]; [|by left]. intros [->|Hk]%elem_of_cons Hu Hw; [|by left].
      destruct (Hleaf k' y eq_refl) as (Hk & _). right. apply Hl. cbn. apply (L_app (i :: others) [y]). right.
      exists y; split; [set_solver|]. congruence. }
  destruct others as [|j others]; [|apply (Hstep true)]. destruct x as [[k y]|] eqn:Ex; [apply (Hstep true)|].
  clear Hstep. eapply (runs_step r [i] cats' i); [..|apply IH; [lia|done..]]; try done.
  - intros w Hw. left. rewrite L_cons. by left.
  - intros w. rewrite L_cons, L_nil. tauto.
  - by left.
  - apply leaves_from_sub. cbn. by rewrite app_nil_r.
Qed.
End factor.

(** ** The alternatives of a node *)

Definition cats_last (ts : list Node) : Prop := exists us cs, ts = us ++ cs /\
  Forall (fun t => is_cat t = false) us /\ Forall (fun t => is_cat t = true) cs.

Lemma cats_last_span ts us cs :
  cats_last ts -> span (fun t => negb (is_cat t)) ts = (us, cs) -> ts = us ++ cs /\ Forall (fun t => is_cat t = true) cs.
Proof.
  intros (us' & cs' & -> & Hu & Hc). assert (E : span (fun t => negb (is_cat t)) (us' ++ cs') = (us', cs')).
  { induction Hu as [|u us' Hu _ IH]; cbn.
    - destruct Hc as [|c cs' Hc _]; cbn; [done|]. by rewrite Hc.
    - by rewrite Hu, IH. }
  rewrite E. by intros [= <- <-].
Qed.
Lemma cats_last_sublist ts us : sublist us ts -> cats_last ts -> cats_last us.
Proof.
  intros Hs (vs & cs & -> & Hv & Hc). apply sublist_app_r in Hs as (us1 & us2 & -> & H1 & H2).
  assert (Hsub : forall (P : Node -> Prop) l k, sublist l k -> Forall P k -> Forall P l).
  { intros P l k Hlk Hk. apply Forall_forall. intros t Ht. rewrite Forall_forall in Hk. apply Hk.
    eapply elem_of_submseteq; [done|]. by apply sublist_submseteq. }
  exists us1, us2; split_and!; [done|by eapply Hsub|by eapply Hsub].
Qed.

(** What sorting promises: the same alternatives, concatenations last. *)
Class AltSort := {
  sort_alts : bool -> list Node -> list Node;
  sort_alts_perm dir ts : sort_alts dir ts ≡ₚ ts;
  sort_alts_cats dir ts : cats_last (sort_alts dir ts)
}.

Section alternatives.
Context {sorter : AltSort}.

Lemma factor_alt_refines rec dir ts n :
  alt_spec rec -> ts <> [] -> Forall node_ok ts -> cats_last ts ->
  refines n ts (factor_alt sort_alts rec dir ts n).1 (factor_alt sort_alts rec dir ts n).2.
Proof.
  intros Hrec Hne Hok Hcl. unfold factor_alt.
  destruct (span (fun t => negb (is_cat t)) ts) as [ls cats] eqn:Es.
  destruct (cats_last_span _ _ _ Hcl Es) as [-> Hc]. apply Forall_app in Hok as [Hl Ho].
  assert (Hid : forall m, (n <= m)%positive -> refines n (ls ++ cats) (ls ++ cats) m).
  { intros m Hm. split; try done; [by apply leaves_from_sub|by apply Forall_app]. }
  destruct cats as [|c cats]; [by apply Hid|].
  pose proof (factor_loop_runs rec Hrec dir ls Hl (length (c :: cats)) (c :: cats) (Factored [] [] false n)
    (le_n _) Hc Ho) as [R1 R2 R3 R4 R5 R6 R7].
  set (r := factor_loop _ _ _ _ _ _) in *. cbn [fa_out fa_used fa_next] in *.
  destruct (fa_any r); cbn [fst snd]; [|by apply Hid].
  destruct (unused_spec (fa_used r) ls) as [U1 U2].
  set (out := fa_out r ++ unused (fa_used r) ls).
  pose proof (sort_alts_perm dir out) as Hp.
  assert (Hu : forall t, t ∈ unused (fa_used r) ls -> t ∈ ls).
  { intros t Ht. eapply elem_of_submseteq; [done|]. by apply sublist_submseteq. }
  split; [|done| | |].
  - intros w. rewrite (L_perm _ _ w Hp). unfold out. rewrite !L_app. split.
    + intros [H|(t & Ht & H)]; [apply R1 in H; rewrite L_nil in H; tauto|]. left. exists t; auto.
    + intros [(t & Ht & H)|H]; [|left; apply R2; by right].
      apply list_elem_of_lookup in Ht as [k Hk]. destruct (U2 k t Hk) as [Hku|Hku]; [|right; by exists t].
      destruct (R3 k t w Hku Hk H) as [Hbad|]; [by inversion Hbad|by left].
  - destruct R5 as (fs & Hf & Hsub). exists fs; split; [done|].
    rewrite (lleaves_perm _ _ Hp). unfold out. rewrite !lleaves_app.
    transitivity ((lleaves (c :: cats) ++ fs) ++ lleaves ls).
    + apply submseteq_app; [done|]. by apply sublist_leaves.
    + apply Permutation_submseteq. rewrite <- (app_assoc _ _ fs), (Permutation_app_comm (lleaves ls)). by rewrite <- app_assoc.
  - apply Forall_forall. intros t. rewrite Hp. unfold out. rewrite elem_of_app. intros [Ht|Ht].
    + specialize (R6 (Forall_nil_2 _)). rewrite Forall_forall in R6. by apply R6.
    + rewrite Forall_forall in Hl. apply Hl. by apply Hu.
  - intros E. rewrite E in Hp. apply Permutation_nil_l in Hp. unfold out in Hp.
    symmetry in Hp. apply app_eq_nil in Hp as [Hp _]. apply R7; [by right|done].
Qed.

Lemma simplify_vec_alt_spec fuel dir : alt_spec (simplify_vec_alt sort_alts fuel dir).
Proof.
  induction fuel as [|fuel IH]; intros ts n Hne Hok; cbn [simplify_vec_alt].
  { apply refines_sub; [intros w; cbn; rewrite L_cons, L_nil, (lang_alt ts w); tauto|by cbn; rewrite app_nil_r| |done].
    apply Forall_singleton, node_ok_alt. done. }
  pose proof (flatten_refines n ts Hne Hok) as R1.
  destruct (merge_alt_chars (flatten_node is_alt ts) n) as [us n1] eqn:Em.
  destruct (merge_refines n (flatten_node is_alt ts) us n1 (rf_ne _ _ _ _ R1) (rf_ok _ _ _ _ R1) Em) as [R2 _].
  pose proof (sort_alts_perm dir us) as Hp.
  assert (R3 : refines n1 us (sort_alts dir us) n1).
  { apply refines_sub; [intros w; by apply L_perm| | |].
    - by rewrite (lleaves_perm _ _ Hp).
    - apply Forall_forall. intros t. rewrite Hp. pose proof (rf_ok _ _ _ _ R2) as Hf. rewrite Forall_forall in Hf. apply Hf.
    - intros E. rewrite E in Hp. apply Permutation_nil_l in Hp. by apply (rf_ne _ _ _ _ R2). }
  destruct (remove_dups_refines n1 (sort_alts dir us) (rf_ne _ _ _ _ R3) (rf_ok _ _ _ _ R3)) as [R4 Hsub].
  pose proof (factor_alt_refines (simplify_vec_alt sort_alts fuel dir) dir (remove_dups (sort_alts dir us)) n1 IH
    (rf_ne _ _ _ _ R4) (rf_ok _ _ _ _ R4) (cats_last_sublist _ _ Hsub (sort_alts_cats dir us))) as R5.
  destruct (factor_alt _ _ _ _ _) as [vs n2]. cbn [fst snd] in *.
  assert (R6 : refines n2 vs [match vs with [c] => c | _ => AltNode vs end] n2).
  { pose proof (rf_ok _ _ _ _ R5) as Hvok. pose proof (rf_ne _ _ _ _ R5) as Hvne.
    destruct vs as [|a [|b vs]]; [done|by apply refines_sub|].
    apply refines_sub; [intros w; rewrite L_cons, L_nil, (lang_alt _ w); tauto|by cbn; rewrite app_nil_r| |done].
    by apply Forall_singleton, node_ok_alt. }
  do 5 (eapply refines_trans; [eassumption|]). exact R6.
Qed.

(** *** The fuel is enough *)

Lemma list_size_elem t ts : t ∈ ts -> (node_size t <= list_size ts)%nat.
Proof. induction 1; rewrite list_size_cons; lia. Qed.

Lemma factor_run_rest rec dir first others x n :
  factor_run rec dir first others x n =
  let '(alt, n) := rec (run_rest dir first others x) n in
  let common := (cat_split dir (run_len dir first others x) (children first)).1 in
  (simplify_vec_cat (if dir then alt :: common else common ++ [alt]), n).
Proof. done. Qed.
Lemma factor_loop_ext rec1 rec2 dir ls bound fuel cats r :
  (forall rest n, (list_size rest < bound)%nat -> rest <> [] -> Forall node_ok rest -> rec1 rest n = rec2 rest n) ->
  (list_size ls + list_size cats <= bound)%nat -> Forall node_ok ls ->
  Forall (fun c => is_cat c = true) cats -> Forall node_ok cats ->
  factor_loop rec1 dir fuel ls cats r = factor_loop rec2 dir fuel ls cats r.
Proof.
  intros Hrec Hb Hls. revert cats Hb r; induction fuel as [|fuel IH]; intros [|i cats] Hb r Hc Hok;
    cbn [factor_loop]; try done.
  destruct (span (fun j => node_eq (cat_elem j 0 dir) (cat_elem i 0 dir)) cats) as [others cats'] eqn:Es.
  destruct (span_spec _ _ _ _ Es) as (-> & Hkey & _).
  inversion_clear Hc as [|? ? Hci Hcr]. inversion_clear Hok as [|? ? Hoki Hokr].
  apply Forall_app in Hcr as [Hco Hcr], Hokr as [Hoko Hokr].
  rewrite list_size_cons, list_size_app in Hb.
  assert (Hx : forall k y, find_leaf (cat_elem i 0 dir) ls = Some (k, y) ->
    (node_size y <= list_size ls)%nat /\ node_ok y /\ node_eq y (cat_elem i 0 dir) = true).
  { intros k y (H1 & H2)%find_leaf_spec. split_and!; [|by rewrite Forall_lookup in Hls; apply (Hls k)|done].
    apply list_size_elem. by apply list_elem_of_lookup_2 in H1. }
  set (x := find_leaf (cat_elem i 0 dir) ls) in *.
  assert (Hrun : factor_run rec1 dir i others (option_map snd x) (fa_next r) =
                 factor_run rec2 dir i others (option_map snd x) (fa_next r)).
  { rewrite !factor_run_rest.
    assert (Hxs : forall y, option_map snd x = Some y -> node_ok y /\ node_eq y (cat_elem i 0 dir) = true).
    { intros y Hy. destruct x as [[k y']|]; [|done]. injection Hy as ->. by destruct (Hx k y eq_refl). }
    pose proof (run_rest_size dir i others (option_map snd x) ltac:(by constructor) ltac:(by constructor)) as Hsz.
    pose proof (run_rest_ok dir i others (option_map snd x) ltac:(by constructor) ltac:(by constructor) Hxs) as [Hn Ho].
    specialize (Hsz ltac:(intros j Hj; rewrite Forall_forall in Hkey; by apply Hkey) Hxs).
    rewrite Hrec; [done| |done|done]. eapply Nat.lt_le_trans; [exact Hsz|].
    destruct x as [[k y]|]; cbn [option_map snd with_leaf]; rewrite ?list_size_app, ?list_size_cons; [|lia].
    destruct (Hx k y eq_refl) as [Hy _]. rewrite ?list_size_cons. change (list_size []) with 0%nat. lia. }
  rewrite Hrun. destruct (factor_run rec2 dir i others (option_map snd x) (fa_next r)) as [t n'].
  destruct others as [|j others]; [destruct x as [[k y]|]|]; apply IH; try done; lia.
Qed.

Lemma simplify_vec_alt_fuel f g dir ts n :
  (list_size ts < f)%nat -> (list_size ts < g)%nat -> ts <> [] -> Forall node_ok ts ->
  simplify_vec_alt sort_alts f dir ts n = simplify_vec_alt sort_alts g dir ts n.
Proof.
  revert g ts n; induction f as [|f IH]; intros [|g] ts n Hf Hg Hne Hok; try lia. cbn [simplify_vec_alt].
  pose proof (flatten_refines n ts Hne Hok) as R1.
  pose proof (flat_size _ _ _ (flatten_node_flat is_alt ts)) as S1.
  destruct (merge_alt_chars (flatten_node is_alt ts) n) as [us n1] eqn:Em.
  destruct (merge_refines n (flatten_node is_alt ts) us n1 (rf_ne _ _ _ _ R1) (rf_ok _ _ _ _ R1) Em) as [R2 S2].
  pose proof (sort_alts_perm dir us) as Hp. pose proof (list_size_perm _ _ Hp) as S3.
  assert (Hne2 : sort_alts dir us <> []).
  { intros E. rewrite E in Hp. apply Permutation_nil_l in Hp. by apply (rf_ne _ _ _ _ R2). }
  assert (Hok2 : Forall node_ok (sort_alts dir us)).
  { apply Forall_forall. intros t. rewrite Hp. pose proof (rf_ok _ _ _ _ R2) as Hf'. rewrite Forall_forall in Hf'. apply Hf'. }
  destruct (remove_dups_refines n1 (sort_alts dir us) Hne2 Hok2) as [R4 Hsub].
  destruct (sublist_leaves _ _ Hsub) as [_ S4].
  pose proof (cats_last_sublist _ _ Hsub (sort_alts_cats dir us)) as Hcl.
  set (vs := remove_dups (sort_alts dir us)) in *.
  assert (Hfa : factor_alt sort_alts (simplify_vec_alt sort_alts f dir) dir vs n1 =
                factor_alt sort_alts (simplify_vec_alt sort_alts g dir) dir vs n1); [|by rewrite Hfa].
  unfold factor_alt. destruct (span (fun t => negb (is_cat t)) vs) as [ls cats] eqn:Es.
  destruct (cats_last_span _ _ _ Hcl Es) as [Ev Hc]. destruct cats as [|c cats]; [done|].
  pose proof (rf_ok _ _ _ _ R4) as Hvok. rewrite Ev in Hvok. apply Forall_app in Hvok as [Hl Ho].
  erewrite (factor_loop_ext _ (simplify_vec_alt sort_alts g dir) dir ls (list_size vs)); try done.
  - intros rest m Hr Hn Hro. apply IH; [lia|lia|done|done].
  - rewrite Ev, list_size_app. lia.
Qed.

(** *** Whole trees *)

Record simplifies (n : positive) (t t' : Node) (n' : positive) : Prop := {
  si_lang : leq (lang t') (lang t);
  si_le : (n <= n')%positive;
  si_leaves : leaves_from n (leaves t) (leaves t') n';
  si_ok : node_ok t'
}.
Lemma simplifies_refl n t : node_ok t -> simplifies n t t n.
Proof. intros H. split; try done. by apply leaves_from_sub. Qed.
Lemma simplifies_trans n t t1 n1 t2 n2 : simplifies n t t1 n1 -> simplifies n1 t1 t2 n2 -> simplifies n t t2 n2.
Proof.
  intros [] []. split; [by etrans|lia| |done]. eapply leaves_from_trans; [|done..]. lia.
Qed.

Lemma map_next_spec f ts n :
  Forall (fun t => forall n, simplifies n t (f t n).1 (f t n).2) ts ->
  let '(us, n') := map_next f ts n in
  Forall2 (fun u t => leq (lang u) (lang t)) us ts /\ (n <= n')%positive /\
  leaves_from n (lleaves ts) (lleaves us) n' /\ Forall node_ok us.
Proof.
  intros H. revert n; induction H as [|t ts Ht _ IH]; intros n; cbn.
  { split_and!; [constructor|lia|by apply leaves_from_sub|constructor]. }
  destruct (Ht n) as [H1 H2 H3 H4]. destruct (f t n) as [u n1]. cbn [fst snd] in *.
  specialize (IH n1). destruct (map_next f ts n1) as [us n2]. destruct IH as (I1 & I2 & I3 & I4).
  split_and!; [by constructor|lia| |by constructor]. eapply leaves_from_app; [|done..]. lia.
Qed.

Lemma simplify_vec_spec fuel dir t n :
  node_ok t -> simplifies n t (simplify_vec sort_alts fuel dir t n).1 (simplify_vec sort_alts fuel dir t n).2.
Proof.
  revert t n; induction fuel as [|fuel IH]; intros t n Hok; [by apply simplifies_refl|].
  assert (Hone : forall (op : Node -> Node) u, (forall v, leaves (op v) = leaves v) ->
    (forall v, node_ok (op v) <-> node_ok v) -> (forall v v', leq (lang v) (lang v') -> leq (lang (op v)) (lang (op v'))) ->
    node_ok (op u) -> forall n, simplifies n (op u) (op (simplify_vec sort_alts fuel dir u n).1)
      (simplify_vec sort_alts fuel dir u n).2).
  { intros op u Hlv Ho Hl Hu m. apply (Ho u) in Hu. destruct (IH u m Hu) as [H1 H2 H3 H4].
    split; [by apply Hl|done|by rewrite !Hlv|by apply Ho]. }
  assert (Hlist : forall ts n, ts <> [] -> Forall node_ok ts ->
    let '(us, n') := map_next (simplify_vec sort_alts fuel dir) ts n in us <> [] /\
    Forall2 (fun u t => leq (lang u) (lang t)) us ts /\ (n <= n')%positive /\
    leaves_from n (lleaves ts) (lleaves us) n' /\ Forall node_ok us).
  { intros ts m Hne Hts. pose proof (map_next_spec (simplify_vec sort_alts fuel dir) ts m) as Hm.
    destruct (map_next _ ts m) as [us n']. destruct Hm as (H1 & H2); [by eapply Forall_impl; [exact Hts|]; auto|].
    split; [|done]. intros ->. by inversion H1. }
  destruct t as [|p|u|u|u|i rc u|ts|ts]; cbn [simplify_vec]; try by apply simplifies_refl.
  - specialize (Hone StarNode u ltac:(done) ltac:(done) ltac:(intros v v' Hv; by apply star_proper) Hok n).
    by destruct (simplify_vec sort_alts fuel dir u n).
  - specialize (Hone OptionalNode u ltac:(done) ltac:(done)
      ltac:(intros v v' Hv w; cbn; unfold lang in *; cbn; by rewrite (Hv w)) Hok n).
    by destruct (simplify_vec sort_alts fuel dir u n).
  - specialize (Hone PlusNode u ltac:(done) ltac:(done) ltac:(intros v v' Hv; by apply plus_proper) Hok n).
    by destruct (simplify_vec sort_alts fuel dir u n).
  - apply node_ok_cat in Hok as [Hne Hok]. pose proof (flatten_node_flat is_cat ts) as Hf.
    destruct (flat_ok _ _ _ (fun c H => or_introl H) Hf Hok) as [Hfok Hfne].
    specialize (Hlist (flatten_node is_cat ts) n (Hfne Hne) Hfok).
    destruct (map_next _ _ n) as [us n']. destruct Hlist as (Hu & H1 & H2 & H3 & H4). cbn [fst snd].
    destruct (simplify_vec_cat_spec us Hu H4) as (S1 & S2 & S3). split; [|done| |done].
    + rewrite S1. change (lang (CatNode ts)) with (clang ts). rewrite <- (flat_cat_lang _ _ Hf). by apply clang_Forall2.
    + rewrite S2. cbn [leaves]. by rewrite <- (flat_leaves _ _ _ (fun c H => or_introl H) Hf).
  - apply node_ok_alt in Hok as [Hne Hok]. pose proof (flatten_node_flat is_alt ts) as Hf.
    destruct (flat_ok _ _ _ (fun c H => or_intror H) Hf Hok) as [Hfok Hfne].
    specialize (Hlist (flatten_node is_alt ts) n (Hfne Hne) Hfok).
    destruct (map_next _ _ n) as [us n']. destruct Hlist as (Hu & H1 & H2 & H3 & H4).
    destruct (simplify_vec_alt_spec (S (list_size us)) dir us n' Hu H4) as [RL Rle Rlv Rok _].
    fold (simplify_alt sort_alts dir us n') in *. destruct (simplify_alt sort_alts dir us n') as [v n2]. cbn [fst snd] in *.
    split; [|lia| |by inversion Rok].
    + intros w. transitivity (L us w); [rewrite <- RL, L_cons, L_nil; tauto|]. rewrite (lang_alt ts w).
      rewrite <- (flat_alt_lang _ _ w Hf). clear -H1.
      induction H1 as [|u t us' ts' Hut _ IH]; [done|].
      rewrite !L_cons, (Hut w). tauto.
    + cbn [leaves]. rewrite <- (flat_leaves _ _ _ (fun c H => or_intror H) Hf).
      cbn [map concat] in Rlv. rewrite app_nil_r in Rlv. eapply leaves_from_trans; [|done..]. lia.
Qed.

Lemma simplify_tree_vec_spec left t n :
  node_ok t -> simplifies n t (simplify_tree_vec sort_alts left t n).1 (simplify_tree_vec sort_alts left t n).2.
Proof.
  intros Hok. unfold simplify_tree_vec. pose proof (simplify_vec_spec (node_size t) (negb left) t n Hok) as H1.
  destruct (simplify_vec sort_alts (node_size t) (negb left) t n) as [t1 n1]. cbn [fst snd] in H1.
  eapply simplifies_trans; [exact H1|]. apply simplify_vec_spec. apply H1.
Qed.

Lemma simplify_vec_fuel f g dir t n :
  (node_size t <= f)%nat -> (node_size t <= g)%nat -> node_ok t ->
  simplify_vec sort_alts f dir t n = simplify_vec sort_alts g dir t n.
Proof.
  revert g t n; induction f as [|f IH]; intros [|g] t n Hf Hg Hok; try done;
    try (pose proof (node_size_pos t); lia).
  assert (Hlist : forall ts n, (list_size ts <= f)%nat -> (list_size ts <= g)%nat -> Forall node_ok ts ->
    map_next (simplify_vec sort_alts f dir) ts n = map_next (simplify_vec sort_alts g dir) ts n).
  { induction ts as [|u ts IHts]; intros m H1 H2 Hts; [done|]. rewrite list_size_cons in H1, H2.
    inversion_clear Hts. cbn. rewrite (IH g u m) by (done || lia).
    destruct (simplify_vec sort_alts g dir u m) as [v m']. by rewrite IHts by (done || lia). }
  assert (Hflat : forall same ts, (forall c, same c = true -> is_cat c = true \/ is_alt c = true) ->
    (S (list_size ts) <= S f)%nat -> (S (list_size ts) <= S g)%nat -> Forall node_ok ts ->
    map_next (simplify_vec sort_alts f dir) (flatten_node same ts) n =
    map_next (simplify_vec sort_alts g dir) (flatten_node same ts) n).
  { intros same ts Hs H1 H2 Hts. pose proof (flatten_node_flat same ts) as Hfl.
    pose proof (flat_size _ _ _ Hfl). apply Hlist; [lia|lia|]. by eapply flat_ok. }
  destruct t as [|p|u|u|u|i rc u|ts|ts]; cbn [simplify_vec node_size] in *; try done.
  - rewrite (IH g u n) by (done || lia). done.
  - rewrite (IH g u n) by (done || lia). done.
  - rewrite (IH g u n) by (done || lia). done.
  - apply node_ok_cat in Hok as [_ Hok]. rewrite Hflat; [done|auto|done|done|done].
  - apply node_ok_alt in Hok as [_ Hok]. rewrite Hflat; [done|auto|done|done|done].
Qed.
End alternatives.

(** ** An order for sorting *)

Fixpoint insert_alt (dir : bool) (t : Node) (ts : list Node) : list Node :=
  match ts with
  | [] => [t]
  | u :: ts' => if vec_cmp dir t u <? 0 then t :: ts else u :: insert_alt dir t ts'
  end.

Lemma type_flags_cat t u : is_cat t = false -> is_cat u = true -> node_cmp t u = -1 /\ node_cmp u t = 1.
Proof.
  intros Ht Hu. destruct u as [| | | | | |us|]; try done.
  assert (Hlt : type_flags t < type_flags (CatNode us)).
  { destruct t as [|[i [| | | |[]]]| | | | | |]; try done; vm_compute; reflexivity. }
  assert (E1 : sign_cmp (type_flags t) (type_flags (CatNode us)) = -1).
  { unfold sign_cmp. destruct (Z.ltb_spec (type_flags t) (type_flags (CatNode us))); [done|lia]. }
  assert (E2 : sign_cmp (type_flags (CatNode us)) (type_flags t) = 1).
  { unfold sign_cmp. destruct (Z.ltb_spec (type_flags (CatNode us)) (type_flags t)); [lia|].
    destruct (Z.ltb_spec (type_flags t) (type_flags (CatNode us))); [done|lia]. }
  split; [destruct t; cbn [node_cmp]; rewrite E1; done|]. cbn [node_cmp]. by rewrite E2.
Qed.

Lemma insert_alt_cats dir t ts : cats_last ts -> cats_last (insert_alt dir t ts).
Proof.
  intros (us & cs & -> & Hu & Hc). destruct (is_cat t) eqn:Et.
  - exists us, (insert_alt dir t cs); split_and!; [|done|].
    + induction Hu as [|u us Hu _ IH]; cbn; [done|]. unfold vec_cmp. rewrite Et, Hu. cbn [andb].
      rewrite (proj2 (type_flags_cat u t Hu Et)). cbn. by rewrite IH.
    + clear Hu. induction Hc as [|c cs Hc Hcs IH]; cbn; [by apply Forall_singleton|].
      destruct (_ <? 0); constructor; try done. by constructor.
  - exists (insert_alt dir t us), cs; split_and!; [| |done].
    + induction Hu as [|u us Hu _ IH]; cbn.
      * destruct Hc as [|c cs Hc _]; cbn; [done|]. unfold vec_cmp. rewrite Et. cbn [andb].
        by rewrite (proj1 (type_flags_cat t c Et Hc)).
      * destruct (_ <? 0); [done|]. cbn. by rewrite IH.
    + clear Hc. induction Hu as [|u us Hu Hus IH]; cbn; [by apply Forall_singleton|].
      destruct (_ <? 0); constructor; try done. by constructor.
Qed.

#[export] Instance insertion_sort : AltSort.
Proof.
  refine {| sort_alts := fun dir => foldr (insert_alt dir) [] |}.
  - intros dir ts. induction ts as [|t ts IH]; cbn; [done|]. rewrite <- IH at 2. clear IH.
    induction (foldr _ [] ts) as [|u us IH]; cbn; [done|]. destruct (_ <? 0); [done|].
    rewrite IH. constructor.
  - intros dir ts. induction ts as [|t ts IH]; cbn; [by exists [], []|]. by apply insert_alt_cats.
Defined.

(** ** Simplification *)

Lemma sub_NoDup {A} (l k : list A) : l ⊆+ k -> NoDup k -> NoDup l.
Proof. intros [k' ->]%submseteq_Permutation Hk. by apply NoDup_app in Hk as (? & _ & _). Qed.

(** C6: simplifying the tree of a rule keeps the strings it matches; its leaves
    are leaves of the tree or new nodes for merged characters, none of them
    twice, whatever order sorting gives equal alternatives. *)
Theorem simplify_tree_vec_correct (sorter : AltSort) left t n :
  inhabited_nodes t = true -> no_shared t = true -> NoDup (leaves t) ->
  Forall (fun p => node_id p < n)%positive (leaves t) ->
  let '(t', n') := simplify_tree_vec sort_alts left t n in
  leq (lang t') (lang t) /\ inhabited_nodes t' = true /\ no_shared t' = true /\ NoDup (leaves t') /\
  forall p, p ∈ leaves t' -> p ∈ leaves t \/ (n <= node_id p < n')%positive /\ char_leaf p.
Proof.
  intros Hi Hs Hnd Hids. pose proof (simplify_tree_vec_spec left t n (conj Hi Hs)) as [H1 H2 (fs & [F1 F2] & H3) [H4 H5]].
  destruct (simplify_tree_vec sort_alts left t n) as [t' n']. cbn [fst snd] in *. split_and!; try done.
  - eapply sub_NoDup; [exact H3|]. apply NoDup_app; split_and!; [done| |done].
    intros p Hp Hf. rewrite Forall_forall in Hids, F2. specialize (Hids p Hp). destruct (F2 p Hf). cbn in *. lia.
  - intros p Hp. apply (elem_of_submseteq _ _ p Hp) in H3. apply elem_of_app in H3 as [|Hf]; [by left|right].
    rewrite Forall_forall in F2. by apply F2.
Qed.

(** (a|ab|ac) for the paths /a, /ab and /ac: the prefix is factored out. *)
Definition factor_tree : Node :=
  let ch i c := Leaf (Imp i (CharNode c)) in
  AltNode [AltNode [CatNode [ch 1%positive 47; ch 2%positive 97];
                    CatNode [CatNode [ch 3%positive 47; ch 4%positive 97]; ch 5%positive 98]];
           CatNode [CatNode [ch 6%positive 47; ch 7%positive 97]; ch 8%positive 99]].

Lemma simplify_tree_vec_correct_witness :
  let '(t', n') := simplify_tree_vec sort_alts false factor_tree 9 in
  (length (leaves t') < length (leaves factor_tree))%nat /\
  leq (lang t') (lang factor_tree) /\ inhabited_nodes t' = true /\ no_shared t' = true /\ NoDup (leaves t') /\
  forall p, p ∈ leaves t' -> p ∈ leaves factor_tree \/ (9 <= node_id p < n')%positive /\ char_leaf p.
Proof.
  pose proof (simplify_tree_vec_correct insertion_sort false factor_tree 9) as H.
  assert (Hl : (length (leaves (simplify_tree_vec sort_alts false factor_tree 9).1) <? length (leaves factor_tree))%nat = true)
    by (vm_compute; reflexivity).
  destruct (simplify_tree_vec sort_alts false factor_tree 9) as [t' n']. split; [apply Nat.ltb_lt; exact Hl|].
  apply H; [reflexivity|reflexivity| |].
  - apply (bool_decide_unpack _). vm_compute. exact I.
  - apply (bool_decide_unpack _). vm_compute. exact I.
Defined.



(** ** Flipping *)

Lemma star_rev {A} (P : list A -> Prop) w : star P w -> star (fun v => P (rev v)) (rev w).
Proof.
  induction 1 as [|u v Hu _ IH]; cbn; [constructor|]. rewrite rev_app_distr.
  apply star_cat; [done|]. rewrite <- (app_nil_r (rev u)). constructor; [by rewrite rev_involutive|constructor].
Qed.
Lemma star_rev_iff {A} (P Q : list A -> Prop) w :
  (forall v, Q v <-> P (rev v)) -> star Q w <-> star P (rev w).
Proof.
  intros H. split; intros Hw%star_rev.
  - eapply star_mono; [|exact Hw]. intros v Hv. apply H in Hv. by rewrite rev_involutive in Hv.
  - rewrite rev_involutive in Hw. eapply star_mono; [|exact Hw]. intros v Hv. by apply H.
Qed.
Lemma cat_rev {A} (P Q P' Q' : list A -> Prop) w :
  (forall v, P' v <-> P (rev v)) -> (forall v, Q' v <-> Q (rev v)) -> cat Q' P' w <-> cat P Q (rev w).
Proof.
  intros HP HQ. split; intros (u & v & E & Hu & Hv).
  - exists (rev v), (rev u). subst w. rewrite rev_app_distr. split_and!; [done|by apply HP|by apply HQ].
  - exists (rev v), (rev u). rewrite <- rev_app_distr, <- E, rev_involutive.
    split_and!; [done|apply HQ|apply HP]; by rewrite rev_involutive.
Qed.
Lemma star_snoc {A} (P : list A -> Prop) : leq (cat (star P) P) (cat P (star P)).
Proof.
  assert (H1 : forall w, star P w -> forall v, P v -> cat P (star P) (w ++ v)).
  { induction 1 as [|u w Hu _ IH]; intros v Hv.
    - exists v, []. rewrite app_nil_r. by split_and!; [|done|constructor].
    - destruct (IH v Hv) as (a & b & E & Ha & Hb). exists u, (w ++ v). rewrite <- app_assoc. split_and!; [done..|].
      rewrite E. by constructor. }
  assert (H2 : forall w, star P w -> forall u, P u -> cat (star P) P (u ++ w)).
  { induction 1 as [|v w Hv _ IH]; intros u Hu.
    - exists [], u. rewrite app_nil_r. by split_and!; [|constructor|].
    - destruct (IH v Hv) as (a & b & E & Ha & Hb). exists (u ++ a), b. rewrite E, app_assoc. split_and!; [done| |done].
      by constructor. }
  intros w; split; intros (u & v & -> & Hu & Hv); auto.
Qed.

Lemma flip_lang t w : lang (flip_tree t) w <-> lang t (rev w).
Proof.
  unfold lang. revert w; node_ind t; intros w; cbn [flip_tree lang_of].
  - split; [by intros ->|]. intros H. by rewrite <- (rev_involutive w), H.
  - split; [by intros (x & -> & Hx); exists x|]. intros (x & E & Hx). exists x; split; [|done].
    by rewrite <- (rev_involutive w), E.
  - by apply star_rev_iff.
  - rewrite IH. split; (intros [H|H]; [left|by right]); [by subst|]. by rewrite <- (rev_involutive w), H.
  - unfold plus. etransitivity; [symmetry; apply (star_snoc (lang_of matches (flip_tree t)) w)|].
    apply cat_rev; [done|]. intros v. by apply star_rev_iff.
  - apply IH.
  - assert (G : forall v, cat_list (map (lang_of matches) (rev (map flip_tree ts))) v <->
      cat_list (map (lang_of matches) ts) (rev v)); [|apply G].
    induction IH as [|t ts Ht _ IHts]; intros v; cbn [map rev].
    + cbn. split; [by intros ->|]. intros H. by rewrite <- (rev_involutive v), H.
    + rewrite map_app. etransitivity; [apply (cat_list_app _ _ v)|]. cbn [map cat_list foldr].
      apply cat_rev; [|done]. intros u. etransitivity; [apply (cat_nil_r _ u)|]. apply Ht.
  - induction IH as [|t ts Ht _ IHts]; cbn; [done|]. by rewrite Ht, IHts.
Qed.
Lemma flip_involutive t : flip_tree (flip_tree t) = t.
Proof.
  node_ind t; cbn; try congruence.
  - f_equal. rewrite map_rev, rev_involutive, map_map. induction IH; cbn; congruence.
  - f_equal. rewrite map_map. induction IH; cbn; congruence.
Qed.
