(* ===== verification/AareRules.v ===== *)
(** Rule sets of the automaton library
    ([parser/libapparmor_re/aare_rules.cc], [aare_rules.h]): the accept nodes
    that rules with the same permissions share, the tree of all rules, with the
    optional rules that may follow any of them, and the passes over the
    automaton that is built from it. *)

From stdpp Require Import gmap.
From S2P Require Import Prelude Lib Regex Perms DfaRules Expr Accept Dfa Minimize RegexParse Glob Simplify.

(** ** Accept nodes *)

Record UniquePerm := MkUniquePerm {
  up_priority : Z; up_mode : rule_mode_t; up_exact_match : bool; up_perms : Z; up_audit : Z
}.
#[export] Instance UniquePerm_eq_dec : EqDecision UniquePerm.
Proof. solve_decision. Defined.

(** The numbers that new nodes get, and the accept nodes made so far. *)
Record UniquePermsCache := MkCache { c_next : positive; c_nodes : list (UniquePerm * ImportantNode) }.

Definition perm_flag (u : UniquePerm) : flag_type :=
  match up_mode u with
  | ModeDeny => DenyMatchFlag
  | ModePrompt => PromptMatchFlag
  | _ => if up_exact_match u then ExactMatchFlag else MatchFlag
  end.
Definition cache_find (u : UniquePerm) (nodes : list (UniquePerm * ImportantNode)) : option ImportantNode :=
  option_map (fun x => (snd x).2) (list_find (fun x => x.1 = u) nodes).

(** [UniquePermsCache::insert] *)
Definition cache_insert (u : UniquePerm) (c : UniquePermsCache) : ImportantNode * UniquePermsCache :=
  match cache_find u (c_nodes c) with
  | Some a => (a, c)
  | None =>
      let a := Imp (c_next c) (AcceptNode (perm_flag u) (up_priority u) (up_perms u) (up_audit u)) in
      (a, MkCache (Pos.succ (c_next c)) ((u, a) :: c_nodes c))
  end.

(** ** Rules *)

Record aare_rules := MkRules { expr_map : gmap ImportantNode Node; reverse : bool; rule_count : Z }.
Definition new_rules (reverse : bool) : aare_rules := MkRules ∅ reverse 0.

Definition add_to_rules (tree : Node) (perms : ImportantNode) (rules : aare_rules) : aare_rules :=
  let tree := if reverse rules then flip_tree tree else tree in
  let tree := match expr_map rules !! perms with Some base => AltNode [base; tree] | None => tree end in
  MkRules (<[perms := tree]> (expr_map rules)) (reverse rules) (rule_count rules).

(** [cat_with_null_separator], [cat_with_oob_separator] *)
Definition cat_with_separator (oob : bool) (l r : Node) (n : positive) : Node * positive :=
  (CatNode [CatNode [l; Leaf (Imp n (CharNode (if oob then OOB else 0)))]; r], Pos.succ n).

(** The other regular expressions of a rule. *)
Fixpoint parse_vec (oob : bool) (tree : Node) (rulev : list cstr) (n : positive) : parse_result :=
  match rulev with
  | [] => Parsed tree n
  | r :: rulev =>
      match regex_parse n r with
      | Parsed subtree n =>
          let '(tree, n) := cat_with_separator oob tree subtree n in parse_vec oob tree rulev n
      | e => e
      end
  end.
Definition rule_tree (r : rule) (n : positive) : parse_result :=
  match r_vec r with
  | r0 :: rulev => match regex_parse n r0 with Parsed tree n => parse_vec (r_oob r) tree rulev n | e => e end
  | [] => SyntaxError
  end.

(** No wildcards; sets of characters are no wildcards. *)
Fixpoint exact_match (t : Node) : bool :=
  match t with
  | EpsNode => true
  | Leaf n => match node_type n with AnyCharNode | NotCharSetNode _ => false | _ => true end
  | StarNode _ | PlusNode _ => false
  | OptionalNode t | SharedTreeNode _ _ t => exact_match t
  | CatNode ts | AltNode ts => forallb exact_match ts
  end.

Inductive add_result := Added (rules : aare_rules) (c : UniquePermsCache) | NotAdded | Endless.

Definition add_rule_vec (r : rule) (rules : aare_rules) (c : UniquePermsCache) : add_result :=
  match rule_tree r (c_next c) with
  | Parsed tree n =>
      let exact := exact_match tree in
      let tree := if reverse rules then flip_tree tree else tree in
      let '(accept, c) := cache_insert (MkUniquePerm (r_priority r) (r_mode r) exact (r_perms r) (r_audit r))
                            (MkCache n (c_nodes c)) in
      let rules := add_to_rules tree accept rules in
      Added (MkRules (expr_map rules) (reverse rules) (rule_count rules + 1)) c
  | SyntaxError => NotAdded
  | NoEnd => Endless
  end.

Fixpoint add_rules (rs : list rule) (rules : aare_rules) (c : UniquePermsCache) : add_result :=
  match rs with
  | [] => Added rules c
  | r :: rs => match add_rule_vec r rules c with Added rules c => add_rules rs rules c | e => e end
  end.

(** ** The tree of a rule set *)

(** What simplification of a rule's tree promises. *)
Class TreeSimplifier := {
  simplify_tree : Node -> positive -> Node * positive;
  simplify_tree_ok t n : node_ok t -> simplifies n t (simplify_tree t n).1 (simplify_tree t n).2
}.
(** Without [CONTROL_DFA_TREE_SIMPLE]. *)
Definition no_simplification : TreeSimplifier.
Proof.
  refine {| simplify_tree := fun t n => (t, n) |}. intros t n Hok. by apply simplifies_refl.
Defined.
Definition vector_simplification (sorter : AltSort) (left : bool) : TreeSimplifier :=
  {| simplify_tree := simplify_tree_vec sort_alts left;
     simplify_tree_ok := simplify_tree_vec_spec left |}.

Section build.
Context {simplifier : TreeSimplifier}.
(** The order of the accept nodes, that of their addresses. *)
Context (entries : gmap ImportantNode Node -> list (ImportantNode * Node)).

(** The loop of [build_tree] over the entries left; the references to the tail
    are counted in it. *)
Fixpoint build_loop (es : list (ImportantNode * Node)) (tail : option Node) (tree : option Node)
    (min_len : Z) (n : positive) : option Node * Z * positive :=
  match es with
  | [] => (tree, min_len, n)
  | (accept, tmp) :: es =>
      let '(tmp, n) := simplify_tree tmp n in
      let len := min_match_len tmp in
      let min_len := match tree with None => len | Some _ => if len <? min_len then len else min_len end in
      let end_ := match tail with Some tail => AltNode [Leaf accept; tail] | None => Leaf accept end in
      let node := CatNode [tmp; end_] in
      build_loop es tail (Some (match tree with Some tree => AltNode [tree; node] | None => node end)) min_len n
  end.
Definition build_tree (rules : aare_rules) (tail : option Node) (n : positive) : option Node * Z * positive :=
  build_loop (entries (expr_map rules)) tail None 0 n.

(** The tail as a shared tree, with one reference for each rule tree. *)
Definition tail_tree (tail : aare_rules) (tail_oob : bool) (refs : nat) (n : positive) : option Node * positive :=
  let '(t, _, n) := build_tree tail None n in
  match t with
  | Some t => (Some (SharedTreeNode (Pos.succ n) refs
                 (CatNode [Leaf (Imp n (CharNode (if tail_oob then OOB else 0))); t])), Pos.succ (Pos.succ n))
  | None => (None, n)
  end.

(** The root of [create_chfa]; [None] when there are no rules. *)
Definition create_root (rules : aare_rules) (tail : option aare_rules) (tail_oob : bool) (n : positive)
  : option Node * Z :=
  match tail with
  | Some t =>
      if reverse rules || reverse t then (None, 0)
      else
        let '(shared, n) := tail_tree t tail_oob (length (entries (expr_map rules))) n in
        let '(root, len, _) := build_tree rules shared n in (root, len)
  | None => let '(root, len, _) := build_tree rules None n in (root, len)
  end.
End build.

(** ** The passes over the automaton *)

Record optflags := MkOpts {
  dfa_minimize : bool; dfa_filter_deny : bool; dfa_remove_unreachable : bool
}.

(** [create_chfa] up to the equivalence classes; the exception of the
    construction ends it. *)
Definition build_automaton (order : NodeSet -> list ImportantNode) (opts : optflags) (filedfa extended_perms : bool)
    (root : Node) : option DFA :=
  match create_dfa order root filedfa with
  | None => None
  | Some d =>
      let d := if negb extended_perms || dfa_filter_deny opts then (dfa_apply_and_clear_deny d).1 else d in
      match (if dfa_minimize opts then minimize d else Some d) with
      | None => None
      | Some d => Some (if dfa_remove_unreachable opts then remove_unreachable d else d)
      end
  end.

(** ** Numbers of nodes do not matter *)

Fixpoint erase (t : Node) : Node :=
  match t with
  | EpsNode => EpsNode
  | Leaf p => Leaf (Imp 1 (node_type p))
  | StarNode t => StarNode (erase t)
  | OptionalNode t => OptionalNode (erase t)
  | PlusNode t => PlusNode (erase t)
  | SharedTreeNode i rc t => SharedTreeNode i rc (erase t)
  | CatNode ts => CatNode (map erase ts)
  | AltNode ts => AltNode (map erase ts)
  end.
Lemma erase_zlang t : zlang (erase t) = zlang t.
Proof.
  unfold zlang. node_ind t; cbn [erase lang_of]; rewrite ?IH; try done.
  - f_equal. induction IH; cbn; congruence.
  - f_equal. induction IH; cbn; congruence.
Qed.
Lemma erase_exact t : exact_match (erase t) = exact_match t.
Proof.
  node_ind t; cbn [erase exact_match]; try done; induction IH; cbn; congruence.
Qed.
(** Trees that differ in the numbers of their nodes. *)
Definition same_shape (t u : Node) : Prop := erase t = erase u.
Lemma same_shape_zlang t u : same_shape t u -> zlang t = zlang u.
Proof. unfold same_shape. intros H. by rewrite <- (erase_zlang t), H, erase_zlang. Qed.
Lemma same_shape_exact t u : same_shape t u -> exact_match t = exact_match u.
Proof. unfold same_shape. intros H. by rewrite <- (erase_exact t), H, erase_exact. Qed.

Lemma grammar_renumber :
  (forall n ts t n', regex n ts t n' -> forall m, exists u m', regex m ts u m' /\ same_shape u t) /\
  (forall n ts t n', expr n ts t n' -> forall m, exists u m', expr m ts u m' /\ same_shape u t) /\
  (forall n ts t n', terms0 n ts t n' -> forall m, exists u m', terms0 m ts u m' /\ same_shape u t) /\
  (forall n ts t n', terms n ts t n' -> forall m, exists u m', terms m ts u m' /\ same_shape u t) /\
  (forall n ts t n', qterm n ts t n' -> forall m, exists u m', qterm m ts u m' /\ same_shape u t) /\
  (forall n ts t n', term n ts t n' -> forall m, exists u m', term m ts u m' /\ same_shape u t).
Proof.
  unfold same_shape.
  apply grammar_mut;
    try (intros n ts t n' us u n'' _ IH1 _ IH2 m;
         destruct (IH1 m) as (t1 & m1 & H1 & E1), (IH2 m1) as (t2 & m2 & H2 & E2);
         do 2 eexists; split; [by econstructor|cbn; congruence]);
    try (intros n ts t n' _ IH m; destruct (IH m) as (t1 & m1 & H1 & E1);
         do 2 eexists; split; [by econstructor|cbn; congruence]);
    intros; do 2 eexists; (split; [by econstructor|done]).
Qed.

Lemma regex_parse_renumber n m text :
  match regex_parse n text with
  | Parsed t _ => exists u m', regex_parse m text = Parsed u m' /\ same_shape u t
  | e => regex_parse m text = e
  end.
Proof.
  unfold regex_parse. destruct (lex_all _ _) as [ts|]; [|done].
  destruct (parse_tokens n ts) as [[t n']|] eqn:E.
  - apply parse_tokens_iff in E. destruct (proj1 grammar_renumber _ _ _ _ E m) as (u & m' & H & Hs).
    exists u, m'; split; [|done]. apply parse_tokens_iff in H. by rewrite H.
  - destruct (parse_tokens m ts) as [[u m']|] eqn:E'; [|done].
    apply parse_tokens_iff in E'. destruct (proj1 grammar_renumber _ _ _ _ E' n) as (v & n' & H & _).
    apply parse_tokens_iff in H. congruence.
Qed.

(** ** What a rule matches *)

Definition separator (oob : bool) : Z := if oob then OOB else 0.
(** The strings of a regular expression, and whether it has no wildcards. *)
Definition pattern_lang (text : cstr) (w : list Z) : Prop :=
  match regex_parse 1 text with Parsed t _ => zlang t w | _ => False end.
Definition pattern_exact (text : cstr) : bool :=
  match regex_parse 1 text with Parsed t _ => exact_match t | _ => false end.
Fixpoint joined (sep : Z) (p : list Z) (ps : list (list Z)) : list Z :=
  match ps with [] => p | q :: ps => p ++ sep :: joined sep q ps end.
(** The strings of a rule: those of its expressions, with separators between. *)
Definition rule_lang (r : rule) (w : list Z) : Prop :=
  exists p ps, Forall2 pattern_lang (r_vec r) (p :: ps) /\ w = joined (separator (r_oob r)) p ps.
Definition rule_perm (r : rule) : UniquePerm :=
  MkUniquePerm (r_priority r) (r_mode r) (forallb pattern_exact (r_vec r)) (r_perms r) (r_audit r).

(** ** The trees of rules *)

Definition plain (p : ImportantNode) : Prop := chars_ok p = true /\ is_accept p = false.
(** Trees that own their nodes, whose numbers are from [n] to [n']. *)
Record private_tree (n : positive) (t : Node) (n' : positive) : Prop := {
  pr_le : (n <= n')%positive;
  pr_ok : node_ok t;
  pr_nodup : NoDup (leaves t);
  pr_ids : Forall (fun p => n <= node_id p < n')%positive (leaves t);
  pr_plain : Forall plain (leaves t)
}.

Lemma byte_leaf_plain p : byte_leaf p -> plain p.
Proof.
  unfold byte_leaf, plain, chars_ok, is_accept. destruct (node_type p) as [c|cs|cs| |]; try done.
  intros H. split; [|done]. apply forallb_forall. intros c Hc%list_elem_of_In. rewrite Forall_forall in H.
  specialize (H c Hc). unfold is_byte in H. lia.
Qed.
Lemma fresh_private n t n' : fresh n t n' -> private_tree n t n'.
Proof.
  intros [H1 H2 H3 H4 H5 H6]. split; try done. eapply Forall_impl; [exact H6|]. apply byte_leaf_plain.
Qed.
Lemma private_leaf n c : private_tree n (Leaf (Imp n (CharNode c))) (Pos.succ n).
Proof. split; cbn; [lia|done|apply NoDup_singleton|apply Forall_singleton; cbn; lia|by apply Forall_singleton]. Qed.
Lemma private_pair n t n' u n'' :
  private_tree n t n' -> private_tree n' u n'' ->
  private_tree n (CatNode [t; u]) n'' /\ private_tree n (AltNode [t; u]) n''.
Proof.
  intros [L1 [O1 S1] D1 F1 B1] [L2 [O2 S2] D2 F2 B2].
  assert (Hle : (n <= n'')%positive) by lia.
  assert (Hnd : NoDup (leaves t ++ leaves u)).
  { apply NoDup_app; split_and!; [done| |done]. intros p Hp Hq. rewrite Forall_forall in F1, F2.
    specialize (F1 p Hp). specialize (F2 p Hq). cbn in *. lia. }
  assert (Hids : Forall (fun p => n <= node_id p < n'')%positive (leaves t ++ leaves u)).
  { apply Forall_app; split; eapply Forall_impl; [exact F1| |exact F2|]; cbn; lia. }
  assert (Hb : Forall plain (leaves t ++ leaves u)) by (by apply Forall_app).
  split; split; cbn; rewrite ?app_nil_r; try done; unfold node_ok; cbn; by rewrite ?O1, ?O2, ?S1, ?S2.
Qed.

Lemma private_perm n t n' u :
  private_tree n t n' -> node_ok u -> leaves u ≡ₚ leaves t -> private_tree n u n'.
Proof. intros [] Hok Hp. by split; rewrite ?Hp. Qed.

Lemma zlang_cat2 t u : leq (zlang (CatNode [t; u])) (cat (zlang t) (zlang u)).
Proof. unfold zlang; cbn. by rewrite cat_nil_r. Qed.
Lemma joined_app sep u v ps : joined sep (u ++ v) ps = u ++ joined sep v ps.
Proof. destruct ps; cbn; [done|]. by rewrite <- app_assoc. Qed.

Lemma pattern_parsed n text t n' :
  regex_parse n text = Parsed t n' ->
  private_tree n t n' /\ pattern_lang text = zlang t /\ pattern_exact text = exact_match t.
Proof.
  intros H. split; [by apply fresh_private, (regex_parse_fresh n text)|].
  pose proof (regex_parse_renumber n 1 text) as Hr. rewrite H in Hr. destruct Hr as (u & m & Hu & Hs).
  unfold pattern_lang, pattern_exact. rewrite Hu.
  split; [apply (same_shape_zlang u t Hs)|apply (same_shape_exact u t Hs)].
Qed.

Lemma parse_vec_spec n oob rv tree n1 t n2 :
  private_tree n tree n1 -> parse_vec oob tree rv n1 = Parsed t n2 ->
  private_tree n t n2 /\
  (forall w, zlang t w <-> exists p ps, zlang tree p /\ Forall2 pattern_lang rv ps /\ w = joined (separator oob) p ps) /\
  exact_match t = exact_match tree && forallb pattern_exact rv.
Proof.
  revert tree n1; induction rv as [|r rv IH]; intros tree n1 Hpr; cbn [parse_vec].
  { intros [= -> ->]. split_and!; [done| |cbn; by rewrite andb_true_r]. intros w. split.
    - intros Hw. by exists w, [].
    - intros (p & ps & Hp & HF & ->). by inversion HF. }
  destruct (regex_parse n1 r) as [sub n3| |] eqn:Er; [|done..]. destruct (pattern_parsed _ _ _ _ Er) as (Hs & Hl & He).
  cbn [cat_with_separator]. set (tree' := CatNode [CatNode [tree; _]; sub]). intros Hp.
  assert (Hsub : private_tree n tree' (Pos.succ n3) /\ leq (zlang tree') (cat (cat (zlang tree) (eq [separator oob])) (zlang sub))).
  { split.
    - destruct (private_pair _ _ _ _ _ Hpr (proj1 (private_pair _ _ _ _ _ Hs (private_leaf n3 (separator oob))))) as [Hc _].
      apply (private_perm _ _ _ tree' Hc).
      + pose proof (pr_ok _ _ _ Hpr) as [O1 S1]. pose proof (pr_ok _ _ _ Hs) as [O2 S2].
        split; cbn; by rewrite ?O1, ?O2, ?S1, ?S2.
      + cbn. rewrite ?app_nil_r, <- app_assoc. f_equiv. apply Permutation_app_comm.
    - unfold tree'. rewrite zlang_cat2, zlang_cat2. f_equiv. f_equiv. intros w. unfold zlang; cbn. split.
      + intros (x & -> & Hx). unfold zbase in Hx; cbn in Hx. apply Z.eqb_eq in Hx. by subst.
      + intros <-. eexists; split; [done|]. unfold zbase; cbn. apply Z.eqb_refl. }
  destruct Hsub as [Hpr' Hlt]. destruct (IH tree' (Pos.succ n3) Hpr' Hp) as (I1 & I2 & I3). split_and!; [done| |].
  - intros w. rewrite I2. split.
    + intros (p & ps & Hin & HF & ->). apply Hlt in Hin as (u & v & -> & (u1 & ? & -> & Hu & <-) & Hv).
      exists u1, (v :: ps). split_and!; [done|constructor; [by rewrite Hl|done]|].
      by rewrite <- app_assoc, !joined_app.
    + intros (p & ps & Hin & HF & ->). inversion HF as [|? q ? ps' Hq HF']; subst. rewrite Hl in Hq.
      exists ((p ++ [separator oob]) ++ q), ps'. split_and!; [|done|].
      * apply Hlt. exists (p ++ [separator oob]), q. split_and!; try done. by exists p, [separator oob].
      * by rewrite <- app_assoc, !joined_app.
  - rewrite I3. cbn. rewrite He. by destruct (exact_match tree), (exact_match sub).
Qed.

Lemma rule_tree_spec r n t n' :
  rule_tree r n = Parsed t n' ->
  private_tree n t n' /\ (forall w, zlang t w <-> rule_lang r w) /\ exact_match t = forallb pattern_exact (r_vec r).
Proof.
  unfold rule_tree, rule_lang. destruct (r_vec r) as [|r0 rv]; [done|].
  destruct (regex_parse n r0) as [t0 n0| |] eqn:E0; [|done..]. intros H.
  destruct (pattern_parsed _ _ _ _ E0) as (Hs & Hl & He).
  destruct (parse_vec_spec _ _ _ _ _ _ _ Hs H) as (H1 & H2 & H3). split_and!; [done| |cbn; by rewrite H3, He].
  intros w. rewrite H2. split.
  - intros (p & ps & Hp & HF & ->). exists p, ps. split; [|done]. constructor; [by rewrite Hl|done].
  - intros (p & ps & HF & ->). inversion HF; subst. exists p, ps. rewrite Hl in *. done.
Qed.

(** ** Rule sets *)

Definition perm_node (u : UniquePerm) : leaf_type := AcceptNode (perm_flag u) (up_priority u) (up_perms u) (up_audit u).
(** One accept node for each set of permissions. *)
Record cache_ok (c : UniquePermsCache) : Prop := {
  cc_shape : forall u a, (u, a) ∈ c_nodes c -> a = Imp (node_id a) (perm_node u) /\ (node_id a < c_next c)%positive;
  cc_inj : forall u u' a, (u, a) ∈ c_nodes c -> (u', a) ∈ c_nodes c -> u = u';
  cc_fun : forall u a a', (u, a) ∈ c_nodes c -> (u, a') ∈ c_nodes c -> a = a'
}.
Record cache_le (c c' : UniquePermsCache) : Prop := {
  cl_next : (c_next c <= c_next c')%positive;
  cl_nodes : c_nodes c ⊆ c_nodes c'
}.
#[export] Instance cache_le_preorder : PreOrder cache_le.
Proof. split; [by split; [lia|]|]. intros c c1 c2 [H1 H2] [H3 H4]. split; [lia|by etrans]. Qed.
Definition new_cache : UniquePermsCache := MkCache 1 [].
Lemma new_cache_ok : cache_ok new_cache.
Proof. split; intros *; by inversion 1. Qed.

Lemma cache_find_spec u nodes :
  match cache_find u nodes with Some a => (u, a) ∈ nodes | None => forall a, (u, a) ∉ nodes end.
Proof.
  unfold cache_find. destruct (list_find _ nodes) as [[i [u' a]]|] eqn:E; cbn.
  - apply list_find_Some in E as (Hl & Hu & _). cbn in Hu; subst. by eapply list_elem_of_lookup_2.
  - intros a Ha. apply list_find_None in E. rewrite Forall_forall in E. by apply (E (u, a) Ha).
Qed.
Lemma cache_insert_spec u c :
  cache_ok c -> cache_ok (cache_insert u c).2 /\ cache_le c (cache_insert u c).2 /\
  (u, (cache_insert u c).1) ∈ c_nodes (cache_insert u c).2.
Proof.
  intros Hc. unfold cache_insert. pose proof (cache_find_spec u (c_nodes c)) as Hf.
  destruct (cache_find u (c_nodes c)) as [a|]; cbn; [by split_and!|].
  assert (Hnew : forall u' a, (u', a) ∈ c_nodes c -> node_id a <> c_next c).
  { intros u' a Ha. apply (cc_shape c Hc) in Ha as [_ H]. lia. }
  destruct Hc as [H1 H2 H3]. split_and!; [split; cbn| |by left].
  - intros u' a [[= -> ->]|Ha]%elem_of_cons; [split; [done|cbn; lia]|]. destruct (H1 u' a Ha). split; [done|lia].
  - intros u1 u2 a [Ea|Ha]%elem_of_cons [Eb|Hb]%elem_of_cons; simplify_eq; try done; [| |by eapply H2];
      by edestruct Hnew.
  - intros u1 a b [Ea|Ha]%elem_of_cons [Eb|Hb]%elem_of_cons; simplify_eq; try done; [| |by eapply H3];
      by edestruct Hf.
  - split; cbn; [lia|]. intros x Hx. by right.
Qed.

(** The trees of a rule set are those of the rules, by permissions. *)
Record rules_ok (lo : positive) (rs : list rule) (m : gmap ImportantNode Node) (c : UniquePermsCache) : Prop := {
  rk_dom : forall a, is_Some (m !! a) <-> exists r, r ∈ rs /\ (rule_perm r, a) ∈ c_nodes c;
  rk_perm : forall r, r ∈ rs -> exists a, (rule_perm r, a) ∈ c_nodes c;
  rk_tree : forall a t, m !! a = Some t -> private_tree lo t (c_next c);
  rk_disjoint : forall a a' t t' p, m !! a = Some t -> m !! a' = Some t' -> p ∈ leaves t -> p ∈ leaves t' -> a = a';
  rk_lang : forall a t w, m !! a = Some t ->
    zlang t w <-> exists r, r ∈ rs /\ (rule_perm r, a) ∈ c_nodes c /\ rule_lang r w
}.

Lemma private_weaken n t n' n'' : (n' <= n'')%positive -> private_tree n t n' -> private_tree n t n''.
Proof. intros Hle [H1 ? ? H2 ?]. split; try done; [lia|]. eapply Forall_impl; [exact H2|]. cbn. lia. Qed.
Lemma private_from lo n t n' : (lo <= n)%positive -> private_tree n t n' -> private_tree lo t n'.
Proof. intros Hle [H1 ? ? H2 ?]. split; try done; [lia|]. eapply Forall_impl; [exact H2|]. cbn. lia. Qed.
Lemma rules_ok_nil lo c : rules_ok lo [] ∅ c.
Proof.
  split; intros *; rewrite ?lookup_empty; try done.
  - split; [by intros []|]. by intros (? & ?%elem_of_nil & _).
  - by intros ?%elem_of_nil.
Qed.
Lemma rules_ok_mono lo rs m c c' : cache_ok c' -> cache_le c c' -> rules_ok lo rs m c -> rules_ok lo rs m c'.
Proof.
  intros Hc [Hn Hs] [R1 R2 R3 R4 R5].
  assert (Hiff : forall a r, r ∈ rs -> (rule_perm r, a) ∈ c_nodes c' <-> (rule_perm r, a) ∈ c_nodes c).
  { intros a r Hr. split; [|by apply Hs]. intros Ha. destruct (R2 r Hr) as [b Hb].
    by rewrite (cc_fun c' Hc _ _ _ Ha (Hs _ Hb)). }
  split.
  - intros a. rewrite R1. split; intros (r & Hr & H); exists r; (split; [done|]); by apply (Hiff a r Hr).
  - intros r Hr. destruct (R2 r Hr) as [a Ha]. exists a. by apply Hs.
  - intros a t Ha. eapply private_weaken; [done|]. by eapply R3.
  - done.
  - intros a t w Ha. rewrite (R5 a t w Ha). split; intros (r & Hr & H & Hl); exists r; (split_and!; try done);
      by apply (Hiff a r Hr).
Qed.
Lemma zlang_alt2 t u w : zlang (AltNode [t; u]) w <-> zlang t w \/ zlang u w.
Proof. unfold zlang; cbn. tauto. Qed.

Lemma add_rule_vec_spec lo rs r rules c rules' c' :
  cache_ok c -> (lo <= c_next c)%positive -> rules_ok lo rs (expr_map rules) c ->
  add_rule_vec r rules c = Added rules' c' ->
  cache_ok c' /\ cache_le c c' /\ rules_ok lo (rs ++ [r]) (expr_map rules') c' /\
  reverse rules' = reverse rules /\ rule_count rules' = rule_count rules + 1.
Proof.
  intros Hc Hlo HR. unfold add_rule_vec. destruct (rule_tree r (c_next c)) as [t n| |] eqn:Et; [|done..].
  destruct (rule_tree_spec _ _ _ _ Et) as (Hpr & Hl & He). rewrite He. fold (rule_perm r).
  set (c1 := MkCache n (c_nodes c)).
  assert (Hle1 : cache_le c c1) by (split; [apply Hpr|done]).
  assert (Hc1 : cache_ok c1).
  { destruct Hc as [H1 H2 H3]. split; cbn; try done. intros u a Ha. destruct (H1 u a Ha).
    pose proof (pr_le _ _ _ Hpr). split; [done|lia]. }
  destruct (cache_insert_spec (rule_perm r) c1 Hc1) as (Hc2 & Hle2 & Hin).
  destruct (cache_insert (rule_perm r) c1) as [a c2]. cbn [fst snd] in *. intros [= <- <-].
  split_and!; [done|by etrans| |done|done]. cbn [expr_map add_to_rules].
  replace (if reverse rules then flip_tree (if reverse rules then flip_tree t else t) else
           (if reverse rules then flip_tree t else t)) with t by (destruct (reverse rules); by rewrite ?flip_involutive).
  assert (HR2 : rules_ok lo rs (expr_map rules) c2) by (apply (rules_ok_mono _ _ _ c); [done|by etrans|done]).
  destruct HR2 as [R1 R2 R3 R4 R5].
  assert (Hpr2 : private_tree (c_next c) t (c_next c2)) by (eapply private_weaken; [apply Hle2|done]).
  set (t' := match expr_map rules !! a with Some base => AltNode [base; t] | None => t end).
  assert (Ht' : private_tree lo t' (c_next c2) /\
    (forall p, p ∈ leaves t' -> p ∈ leaves t \/ exists base, expr_map rules !! a = Some base /\ p ∈ leaves base) /\
    forall w, zlang t' w <-> zlang t w \/ exists base, expr_map rules !! a = Some base /\ zlang base w).
  { unfold t'. destruct (expr_map rules !! a) as [base|] eqn:Eb.
    - pose proof (rk_tree _ _ _ _ HR _ _ Eb) as Hb. destruct (private_pair _ _ _ _ _ Hb Hpr2) as [_ H]. split_and!; [done| |].
      + intros p. cbn. rewrite app_nil_r, elem_of_app. naive_solver.
      + intros w. rewrite zlang_alt2. naive_solver.
    - split_and!; [by eapply private_from|by left|]. intros w. naive_solver. }
  destruct Ht' as (T1 & T2 & T3). clearbody t'.
  assert (Hold : forall b u p, expr_map rules !! b = Some u -> p ∈ leaves u -> p ∉ leaves t).
  { intros b u p Hb Hp Ht. pose proof (pr_ids _ _ _ (rk_tree _ _ _ _ HR _ _ Hb)) as F1.
    pose proof (pr_ids _ _ _ Hpr) as F2. rewrite Forall_forall in F1, F2. specialize (F1 p Hp). specialize (F2 p Ht).
    cbn in *. lia. }
  split.
  - intros b. rewrite lookup_insert_is_Some. setoid_rewrite elem_of_app. setoid_rewrite list_elem_of_singleton.
    rewrite R1. split; [intros [ ->|[_ H]]; naive_solver|]. intros (r' & [Hr| ->] & Hb).
    + destruct (decide (a = b)); [by left|right; naive_solver].
    + left. by eapply (cc_fun c2).
  - intros r' [Hr|Hr%list_elem_of_singleton]%elem_of_app; subst; eauto.
  - intros b u [[<- <-]|[_ Hb]]%lookup_insert_Some; [done|by eapply R3].
  - intros b b' u u' p [[<- <-]|[Hn Hb]]%lookup_insert_Some [[<- <-]|[Hn' Hb']]%lookup_insert_Some Hp Hp'; try done.
    + apply T2 in Hp as [Hp|(base & Hba & Hp)]; [by destruct (Hold b' u' p)|by eapply R4].
    + apply T2 in Hp' as [Hp'|(base & Hba & Hp')]; [by destruct (Hold b u p)|by eapply R4].
    + by eapply (R4 b b').
  - intros b u w. setoid_rewrite elem_of_app. setoid_rewrite list_elem_of_singleton.
    intros [[<- <-]|[Hn Hb]]%lookup_insert_Some.
    + rewrite T3, Hl. split.
      * intros [Hw|(base & Hba & Hw)]; [by exists r; auto|]. apply (R5 _ _ _ Hba) in Hw as (r' & Hr & Ha & Hw).
        exists r'; auto.
      * intros (r' & [Hr| ->] & Ha & Hw); [right|by left].
        destruct (proj2 (R1 a)) as [base Hba]; [by eauto|]. exists base; split; [done|]. apply (R5 _ _ _ Hba). eauto.
    + rewrite (R5 _ _ _ Hb). split; intros (r' & Hr & Hb' & Hw); [by exists r'; auto|].
      destruct Hr as [Hr| ->]; [by eauto|]. destruct Hn. by eapply (cc_fun c2).
Qed.

Lemma add_rules_spec lo rs new rules c rules' c' :
  cache_ok c -> (lo <= c_next c)%positive -> rules_ok lo rs (expr_map rules) c ->
  add_rules new rules c = Added rules' c' ->
  cache_ok c' /\ cache_le c c' /\ rules_ok lo (rs ++ new) (expr_map rules') c' /\ reverse rules' = reverse rules.
Proof.
  revert rs rules c; induction new as [|r new IH]; intros rs rules c Hc Hlo HR; cbn [add_rules].
  { intros [= <- <-]. rewrite app_nil_r. by split_and!. }
  destruct (add_rule_vec r rules c) as [rules1 c1| |] eqn:E; [|done..].
  destruct (add_rule_vec_spec _ _ _ _ _ _ _ Hc Hlo HR E) as (H1 & H2 & H3 & H4 & _). intros Ha.
  pose proof (cl_next _ _ H2). destruct (IH _ _ _ H1 ltac:(lia) H3 Ha) as (I1 & I2 & I3 & I4).
  rewrite <- app_assoc in I3. split_and!; [done|by etrans|done|congruence].
Qed.

(** ** The root *)

(** Accept nodes are last and not followed; the nodes of the tail [T] are
    followed as in the tail. *)
Record ends_like (T i : pos_info) : Prop := {
  el_accept : forall p, p ∈ al i -> is_accept p = true -> fo i p = ∅ /\ p ∈ la i;
  el_tail : forall p, p ∈ al i -> p ∈ al T -> fo i p = fo T p /\ (p ∈ la i <-> p ∈ la T)
}.
Record tail_ok (tail : option Node) : Prop := {
  tk_ends : ends_like pi_none (from_option info pi_none tail);
  tk_nul : from_option (fun t => nul (info t)) false tail = false;
  tk_wf : from_option wf true tail = true
}.
Definition tail_info (tail : option Node) : pos_info := from_option info pi_none tail.

Lemma tail_info_ok tail : info_ok (tail_info tail).
Proof. destruct tail; cbn; [apply info_ok_all|apply pi_none_ok]. Qed.

Lemma ends_absent i p : info_ok i -> p ∉ al i -> fo i p = ∅ /\ p ∉ la i.
Proof. intros Hi Hp. split; [by apply (ok_dom i Hi)|]. intros H. by apply Hp, (ok_la i Hi). Qed.

Lemma ends_agree T i j :
  info_ok i -> info_ok j -> ends_like T i -> ends_like T j ->
  (forall p, p ∈ al i -> p ∈ al j -> is_accept p = true \/ p ∈ al T) ->
  agree_pos i j = true /\ ends_like T (pi_alt i j).
Proof.
  intros Hi Hj [A1 T1] [A2 T2] Hc. split.
  - apply bool_decide_eq_true. intros p [H1 H2]%elem_of_intersection. destruct (Hc p H1 H2) as [Ha|Ht].
    + destruct (A1 p H1 Ha) as [E1 ?], (A2 p H2 Ha) as [E2 ?]. rewrite E1, E2. tauto.
    + destruct (T1 p H1 Ht) as [E1 L1], (T2 p H2 Ht) as [E2 L2]. rewrite E1, E2. tauto.
  - split; intros p Hp H; cbn in Hp |- *; rewrite elem_of_union in *;
      destruct (decide (p ∈ al i)) as [H1|H1], (decide (p ∈ al j)) as [H2|H2]; try tauto.
    + destruct (A1 p H1 H) as [-> ?], (A2 p H2 H) as [-> ?]. split; [set_solver|tauto].
    + destruct (A1 p H1 H) as [-> ?], (ends_absent j p Hj H2) as [-> ?]. split; [set_solver|tauto].
    + destruct (A2 p H2 H) as [-> ?], (ends_absent i p Hi H1) as [-> ?]. split; [set_solver|tauto].
    + destruct (T1 p H1 H) as [-> ?], (T2 p H2 H) as [-> ?]. split; [set_solver|tauto].
    + destruct (T1 p H1 H) as [-> ?], (ends_absent j p Hj H2) as [-> ?]. split; [set_solver|tauto].
    + destruct (T2 p H2 H) as [-> ?], (ends_absent i p Hi H1) as [-> ?]. split; [set_solver|tauto].
Qed.

(** What follows the tree of a rule: its accept node, and the tail. *)
Definition rule_end (tail : option Node) (a : ImportantNode) : Node :=
  match tail with Some tail => AltNode [Leaf a; tail] | None => Leaf a end.

Lemma rule_end_info tail a p :
  (p ∈ al (info (rule_end tail a)) <-> p = a \/ p ∈ al (tail_info tail)) /\
  (p ∈ la (info (rule_end tail a)) <-> p = a \/ p ∈ la (tail_info tail)) /\
  fo (info (rule_end tail a)) p = fo (tail_info tail) p.
Proof. destruct tail as [t|]; cbn; split_and!; set_solver. Qed.

Lemma rule_end_ok tail a :
  is_accept a = true -> tail_ok tail ->
  wf (rule_end tail a) = true /\ nul (info (rule_end tail a)) = false /\
  ends_like (tail_info tail) (info (rule_end tail a)).
Proof.
  intros Ha [[Hacc _] Hnul Hwf]. fold (tail_info tail) in Hacc. split_and!.
  - destruct tail as [t|]; [|done]. cbn in *. rewrite Hwf. cbn. rewrite !andb_true_r.
    apply andb_true_intro; split; apply bool_decide_eq_true; intros p; rewrite elem_of_intersection; cbn; [set_solver|].
    intros [Hp Ht]. assert (p = a) as -> by set_solver. destruct (Hacc a Ht Ha) as [-> Hl]. split; set_solver.
  - destruct tail as [t|]; [|done]. cbn in *. done.
  - split; intros p Hp H; destruct (rule_end_info tail a p) as (H1 & H2 & ->).
    + rewrite H2. apply H1 in Hp as [->|Hp]; [|by destruct (Hacc p Hp H); auto]. split; [|by left].
      destruct (decide (a ∈ al (tail_info tail))) as [Hin|Hin]; [by apply Hacc|].
      by apply (ends_absent (tail_info tail) a (tail_info_ok tail)).
    + split; [done|]. rewrite H2. split; [intros [->|?]; [by apply (Hacc a)|done]|by right].
Qed.

Lemma rule_node_ok tail a t :
  is_accept a = true -> tail_ok tail -> node_ok t -> NoDup (leaves t) -> Forall plain (leaves t) ->
  (forall p, p ∈ leaves t -> p ∉ al (tail_info tail)) ->
  wf (CatNode [t; rule_end tail a]) = true /\
  ends_like (tail_info tail) (info (CatNode [t; rule_end tail a])) /\
  (forall p, p ∈ al (info (CatNode [t; rule_end tail a])) <-> p ∈ leaves t \/ p = a \/ p ∈ al (tail_info tail)).
Proof.
  intros Ha Htl [Hi _] Hnd Hpl Hsep. destruct (rule_end_ok tail a Ha Htl) as (Hwf & Hnul & [Hacc Hlike]).
  assert (Hin : forall p, p ∈ al (info (CatNode [t; rule_end tail a])) <->
    p ∈ leaves t \/ p = a \/ p ∈ al (tail_info tail)).
  { intros p. cbn. rewrite elem_of_union, al_leaves. by rewrite (proj1 (rule_end_info tail a p)). }
  assert (Hd : forall p, p ∈ al (info (rule_end tail a)) -> p ∉ al (info t)).
  { intros p Hp Ht. rewrite al_leaves in Ht. apply (proj1 (rule_end_info tail a p)) in Hp as [->|Hp].
    - rewrite Forall_forall in Hpl. destruct (Hpl a Ht). congruence.
    - by apply (Hsep p). }
  split_and!; [| |done].
  - cbn [wf]. rewrite (leaves_wf t Hi Hnd). cbn. rewrite Hwf. cbn. rewrite andb_true_r.
    apply bool_decide_eq_true. intros p Hp Hq. by apply (Hd p).
  - assert (Hsame : forall p, p ∈ al (info (rule_end tail a)) ->
      fo (info (CatNode [t; rule_end tail a])) p = fo (info (rule_end tail a)) p /\
      (p ∈ la (info (CatNode [t; rule_end tail a])) <-> p ∈ la (info (rule_end tail a)))).
    { intros p Hp. destruct (ends_absent (info t) p (info_ok_all t) (Hd p Hp)) as [E1 E2]. cbn.
      rewrite Hnul, E1, decide_False by done. split; [set_solver|done]. }
    split; intros p Hp H.
    + assert (Hp' : p ∈ al (info (rule_end tail a))).
      { apply rule_end_info. apply Hin in Hp as [Hp|Hp]; [|done]. rewrite Forall_forall in Hpl.
        destruct (Hpl p Hp). congruence. }
      destruct (Hsame p Hp') as [-> ->]. by apply Hacc.
    + assert (Hp' : p ∈ al (info (rule_end tail a))) by (apply rule_end_info; by right).
      destruct (Hsame p Hp') as [-> ->]. by apply Hlike.
Qed.

Lemma rule_end_lang tail a : is_accept a = true ->
  leq (lang (rule_end tail a)) (fun w => w = [Acc a] \/ from_option lang (fun _ => False) tail w).
Proof.
  intros Ha. assert (Hl : leq (lang (Leaf a)) (fun w => w = [Acc a])).
  { intros w. unfold lang; cbn. split.
    - intros ([c|b] & -> & Hx); cbn in Hx; [unfold is_accept in Ha; by destruct (node_type a)|].
      destruct Hx as [_ ->]. done.
    - intros ->. exists (Acc a). done. }
  intros w. specialize (Hl w). destruct tail as [t|]; cbn; [|tauto]. unfold lang in *. cbn in *. tauto.
Qed.

Section build_proofs.
Context {simplifier : TreeSimplifier} (tail : option Node) (E : shared_heap) (lo : positive).
Context (Htail : tail_ok tail) (Hshared : from_option (shared_wf E) True tail).
Abbreviation T := (tail_info tail).

(** Part of the root, for [k] entries; [others] are the nodes of those to come. *)
Record part_ok (n : positive) (others : list ImportantNode) (k : nat) (tree : Node) : Prop := {
  po_wf : wf tree = true;
  po_ends : ends_like T (info tree);
  po_nodes : forall p, p ∈ al (info tree) ->
    is_accept p = true \/ p ∈ al T \/ (plain p /\ (lo <= node_id p < n)%positive /\ p ∉ others);
  po_shared : shared_wf E tree;
  po_refs : forall id, (refcnt id tree <= k * from_option (refcnt id) 0 tail)%nat
}.
(** The trees of the entries own their nodes. *)
Record entries_ok (n : positive) (es : list (ImportantNode * Node)) : Prop := {
  eo_accept : Forall (fun e => is_accept e.1 = true) es;
  eo_tree : Forall (fun e => node_ok e.2) es;
  eo_nodup : NoDup (concat (map (fun e => leaves e.2) es));
  eo_plain : Forall plain (concat (map (fun e => leaves e.2) es));
  eo_ids : Forall (fun p => lo <= node_id p < n)%positive (concat (map (fun e => leaves e.2) es));
  eo_tail : forall p, p ∈ concat (map (fun e => leaves e.2) es) -> p ∉ al T
}.

Lemma simplified_leaves n t :
  node_ok t -> NoDup (leaves t) -> Forall plain (leaves t) -> Forall (fun p => node_id p < n)%positive (leaves t) ->
  let t' := (simplify_tree t n).1 in let n' := (simplify_tree t n).2 in
  node_ok t' /\ NoDup (leaves t') /\ Forall plain (leaves t') /\ (n <= n')%positive /\ leq (lang t') (lang t) /\
  forall p, p ∈ leaves t' -> p ∈ leaves t \/ (n <= node_id p < n')%positive.
Proof.
  intros Hok Hnd Hpl Hids t' n'. destruct (simplify_tree_ok t n Hok) as [H1 H2 (fs & [F1 F2] & H3) H4].
  fold t' n' in H1, H2, F2, H3, H4. rewrite Forall_forall in Hids, F2, Hpl.
  assert (Hin : forall p, p ∈ leaves t' -> p ∈ leaves t \/ (n <= node_id p < n')%positive /\ char_leaf p).
  { intros p Hp. apply (elem_of_submseteq _ _ p Hp) in H3. apply elem_of_app in H3 as [|Hf]; [by left|right].
    by apply F2. }
  split_and!; try done.
  - eapply sub_NoDup; [exact H3|]. apply NoDup_app; split_and!; [done| |done].
    intros p Hp Hf. specialize (Hids p Hp). destruct (F2 p Hf). cbn in *. lia.
  - apply Forall_forall. intros p Hp. destruct (Hin p Hp) as [|[_ Hc]]; [by apply Hpl|].
    unfold char_leaf in Hc. unfold plain, chars_ok, is_accept. by destruct (node_type p).
  - intros p Hp. destruct (Hin p Hp) as [|[]]; auto.
Qed.

Definition entry_lang (e : ImportantNode * Node) : list letter -> Prop :=
  cat (lang e.2) (lang (rule_end tail e.1)).

Lemma refcnt_node id t a : no_shared t = true ->
  refcnt id (CatNode [t; rule_end tail a]) = from_option (refcnt id) 0%nat tail.
Proof. intros Ht. cbn. rewrite (no_shared_refcnt id t Ht). destruct tail; cbn; lia. Qed.
Lemma shared_node t a : no_shared t = true -> shared_wf E (CatNode [t; rule_end tail a]).
Proof. intros Ht. cbn. split_and!; [by apply no_shared_wf| |done]. by destruct tail. Qed.

Lemma part_step n others k n' tree a t :
  (n <= n')%positive -> is_accept a = true -> node_ok t -> NoDup (leaves t) -> Forall plain (leaves t) ->
  (forall p, p ∈ leaves t -> p ∉ al T /\ (lo <= node_id p < n')%positive /\ p ∉ others) ->
  match tree with
  | None => k = 0%nat
  | Some u => part_ok n others k u /\ (forall p, p ∈ leaves t -> p ∉ al (info u))
  end ->
  let node := CatNode [t; rule_end tail a] in
  part_ok n' others (S k) (match tree with Some u => AltNode [u; node] | None => node end).
Proof.
  intros Hn Ha Hok Hnd Hpl Hsep Htree node.
  destruct (rule_node_ok tail a t Ha Htail Hok Hnd Hpl (fun p Hp => proj1 (Hsep p Hp))) as (W & L & N).
  fold node in W, L, N.
  assert (Hnodes : forall p, p ∈ al (info node) ->
    is_accept p = true \/ p ∈ al T \/ (plain p /\ (lo <= node_id p < n')%positive /\ p ∉ others)).
  { intros p [Hp|[->|Hp]]%N; auto. right; right. rewrite Forall_forall in Hpl.
    destruct (Hsep p Hp) as (_ & ? & ?). auto. }
  destruct tree as [u|].
  - destruct Htree as [[U1 U2 U3 U4 U5] Hdis].
    assert (Hnone : ends_like T pi_none) by (split; intros p Hp; cbn in Hp; set_solver).
    destruct (ends_agree T pi_none (info u) pi_none_ok (info_ok_all u) Hnone U2) as [G1 G2];
      [intros p Hp; cbn in Hp; set_solver|].
    destruct (ends_agree T (pi_alt pi_none (info u)) (info node)) as [G3 G4]; try done.
    { apply pi_alt_ok; [apply pi_none_ok|apply info_ok_all]. } { apply info_ok_all. }
    { intros p Hu [Hp|[->|Hp]]%N; auto. destruct (Hdis p Hp). cbn in Hu. set_solver. }
    split; [|done| | |].
    + cbn [wf forallb map wf_alt]. by rewrite U1, W, G1, G3.
    + intros p Hp. change (p ∈ ∅ ∪ al (info u) ∪ al (info node)) in Hp. rewrite !elem_of_union in Hp.
      destruct Hp as [[Hp|Hp]|Hp]; [set_solver| |by apply Hnodes].
      destruct (U3 p Hp) as [?|[?|(? & ? & ?)]]; auto. right; right. split_and!; try done; lia.
    + cbn [shared_wf foldr]. split_and!; [done|by apply shared_node, Hok|done].
    + intros id. change (refcnt id (AltNode [u; node])) with (refcnt id u + (refcnt id node + 0))%nat.
      unfold node. rewrite (refcnt_node id t a (proj2 Hok)). specialize (U5 id). lia.
  - split; try done.
    + by apply shared_node, Hok.
    + intros id. unfold node. rewrite (refcnt_node id t a (proj2 Hok)). lia.
Qed.

Lemma build_loop_spec es : forall n k tree len,
  (lo <= n)%positive -> entries_ok n es -> (forall p, p ∈ al T -> is_accept p = false -> node_id p < n)%positive ->
  match tree with None => k = 0%nat | Some u => part_ok n (concat (map (fun e => leaves e.2) es)) k u end ->
  let '(root, _, n') := build_loop es tail tree len n in
  (n <= n')%positive /\
  match root with
  | None => tree = None /\ es = []
  | Some r => part_ok n' [] (k + length es) r /\
      forall w, lang r w <-> from_option lang (fun _ => False) tree w \/ exists e, e ∈ es /\ entry_lang e w
  end.
Proof.
  induction es as [|[a t] es IH]; intros n k tree len Hlo Hes HT Htree; cbn [build_loop].
  { split; [lia|]. destruct tree as [u|]; [|done]. rewrite Nat.add_0_r. split; [done|]. intros w. cbn. split; [auto|].
    intros [?|(e & He & _)]; [done|by inversion He]. }
  destruct Hes as [E1 E2 E3 E4 E5 E6]. cbn [map concat] in *.
  apply Forall_cons in E1 as [Ha E1], E2 as [Hok E2]. apply Forall_app in E4 as [Hpl E4], E5 as [Hid E5].
  apply NoDup_app in E3 as (Hnd & Hdis & E3). cbn [fst snd] in *.
  destruct (simplified_leaves n t Hok Hnd Hpl (Forall_impl _ _ _ Hid (fun p H => proj2 H))) as (S1 & S2 & S3 & S4 & S5 & S6).
  destruct (simplify_tree t n) as [t' n1]. cbn [fst snd] in *.
  fold (rule_end tail a). set (node := CatNode [t'; rule_end tail a]).
  assert (Hstep : part_ok n1 (concat (map (fun e => leaves e.2) es)) (S k)
    (match tree with Some u => AltNode [u; node] | None => node end)).
  { rewrite Forall_forall in E5, Hid, Hpl. apply (part_step n); try done.
    - intros p Hp. destruct (S6 p Hp) as [Hp'|Hp'].
      + specialize (Hid p Hp'); cbn in Hid. split_and!; [apply E6, elem_of_app; by left|lia|lia|by apply Hdis].
      + rewrite Forall_forall in S3. destruct (S3 p Hp) as [_ Hacc].
        split_and!; [intros Hq; specialize (HT p Hq Hacc); lia|lia|lia|intros Hq%E5; cbn in Hq; lia].
    - destruct tree as [u|]; [|done]. destruct Htree as [U1 U2 U3 U4 U5]. split.
      + split; try done. intros p Hp. destruct (U3 p Hp) as [?|[?|(? & ? & Hn)]]; auto.
        right; right. split_and!; try done; try lia. intros Hq; apply Hn, elem_of_app; by right.
      + intros p Hp Hu. rewrite Forall_forall in S3. destruct (S3 p Hp) as [_ Hacc].
        destruct (U3 p Hu) as [?|[Ht|(_ & Hlt & Hn)]]; [congruence| |].
        * destruct (S6 p Hp) as [Hp'|Hp']; [by apply (E6 p); [apply elem_of_app; by left|]|].
          specialize (HT p Ht Hacc). lia.
        * destruct (S6 p Hp) as [Hp'|Hp']; [by apply Hn, elem_of_app; left|]. lia. }
  match goal with |- context [build_loop es tail _ ?l n1] => set (len' := l) end.
  specialize (IH n1 (S k) (Some (match tree with Some u => AltNode [u; node] | None => node end)) len').
  destruct (build_loop es tail _ len' n1) as [[root len''] n2].
  destruct IH as [I1 I2]; [lia| | | |].
  { split; try done; [eapply Forall_impl; [exact E5|]; cbn; lia|].
    intros p Hp. apply E6, elem_of_app. by right. }
  { intros p Hp Hacc. specialize (HT p Hp Hacc). lia. }
  { done. }
  split; [lia|]. destruct root as [r|]; [|by destruct I2]. destruct I2 as [I2 I3]. split.
  { cbn [length]. by replace (k + S (length es))%nat with (S k + length es)%nat by lia. }
  intros w. rewrite I3. cbn [from_option].
  assert (Hnode : lang node w <-> entry_lang (a, t) w).
  { unfold node, entry_lang; cbn [fst snd]. transitivity (cat (lang t') (lang (rule_end tail a)) w).
    - unfold lang; cbn. apply (cat_proper _ _ (reflexivity _)). apply cat_nil_r.
    - by apply (cat_proper _ _ S5). }
  setoid_rewrite elem_of_cons.
  assert (Hcur : lang (match tree with Some u => AltNode [u; node] | None => node end) w <->
    from_option lang (fun _ => False) tree w \/ lang node w).
  { destruct tree as [u|]; cbn; [unfold lang; cbn; tauto|tauto]. }
  rewrite Hcur, Hnode. split.
  - intros [[?|?]|(e & ? & ?)]; eauto.
  - intros [?|(e & [->|?] & ?)]; eauto.
Qed.
End build_proofs.

(** The words of a rule's tree have no accept nodes. *)
Lemma plain_word n t n' v : private_tree n t n' -> lang t v -> exists u, v = map Ch u.
Proof.
  intros [_ [Hi _] Hnd _ Hpl] Hv. apply (glushkov t v (leaves_wf t Hi Hnd)) in Hv as (ps & Hl & HF).
  apply loc_al in Hl; [|apply info_ok_all]. clear Hi Hnd.
  induction HF as [|p x ps w Hm HF IH]; [by exists []|]. apply Forall_cons in Hl as [Hp Hl].
  destruct (IH Hl) as [u ->]. apply al_leaves in Hp. rewrite Forall_forall in Hpl. destruct (Hpl p Hp) as [_ Ha].
  destruct x as [c|a]; [by exists (c :: u)|]. destruct Hm as [Hm _]. congruence.
Qed.
Lemma map_Ch_inj u v : map Ch u = map Ch v -> u = v.
Proof. revert v; induction u as [|c u IH]; intros [|d v] [=]; f_equal; auto. Qed.
Lemma word_split u w v a : map Ch u ++ v = map Ch w ++ [Acc a] -> exists w', w = u ++ w' /\ v = map Ch w' ++ [Acc a].
Proof.
  revert w; induction u as [|c u IH]; intros w; cbn; [by exists w|].
  destruct w as [|d w]; cbn; [done|]. intros [= <- H]. destruct (IH w H) as (w' & -> & ->). by exists w'.
Qed.

Section roots.
Context {simplifier : TreeSimplifier} (entries : gmap ImportantNode Node -> list (ImportantNode * Node)).
Context (entries_perm : forall m, entries m ≡ₚ map_to_list m).

Lemma entries_elem m a t : (a, t) ∈ entries m <-> m !! a = Some t.
Proof. rewrite entries_perm. apply elem_of_map_to_list. Qed.
Lemma elem_of_concat_leaves (es : list (ImportantNode * Node)) p :
  p ∈ concat (map (fun e => leaves e.2) es) <-> exists a t, (a, t) ∈ es /\ p ∈ leaves t.
Proof.
  induction es as [|[a t] es IH]; cbn; [split; [set_solver|by intros (? & ? & ?%elem_of_nil & _)]|].
  rewrite elem_of_app, IH. setoid_rewrite elem_of_cons. split.
  - intros [?|(b & u & ? & ?)]; eauto 6.
  - intros (b & u & [[= -> ->]|?] & ?); eauto.
Qed.

Lemma rules_entries tail lo rs m c n :
  cache_ok c -> rules_ok lo rs m c -> (c_next c <= n)%positive ->
  (forall a t p, m !! a = Some t -> p ∈ leaves t -> p ∉ al (tail_info tail)) ->
  entries_ok tail lo n (entries m).
Proof.
  intros Hc HR Hn Ht.
  assert (Hnd : NoDup (entries m).*1) by (rewrite entries_perm; apply NoDup_fst_map_to_list).
  assert (Hin : forall e, e ∈ entries m -> m !! e.1 = Some e.2) by (intros [a t]; apply entries_elem).
  split.
  - apply Forall_forall. intros [a t] He. apply Hin in He. cbn in *.
    destruct (proj1 (rk_dom _ _ _ _ HR a)) as (r & _ & Hr); [by eexists|].
    apply (cc_shape c Hc) in Hr as [-> _]. done.
  - apply Forall_forall. intros [a t] He. apply Hin in He. apply (rk_tree _ _ _ _ HR _ _ He).
  - revert Hnd Hin. generalize (entries m). intros es. induction es as [|[a t] es IH]; cbn; [constructor|].
    intros Hnd Hin. apply NoDup_cons in Hnd as [Ha Hnd]. apply NoDup_app. split_and!.
    + apply (rk_tree _ _ _ _ HR a). apply (Hin (a, t)). by left.
    + intros p Hp (b & u & Hb & Hq)%elem_of_concat_leaves. apply Ha. apply list_elem_of_fmap. exists (b, u). split; [|done].
      cbn. eapply (rk_disjoint _ _ _ _ HR a b t u p); [apply (Hin (a, t)); by left|apply (Hin (b, u)); by right|done|done].
    + apply IH; [done|]. intros e He. apply Hin. by right.
  - apply Forall_forall. intros p (a & t & He & Hp)%elem_of_concat_leaves. apply entries_elem in He.
    pose proof (pr_plain _ _ _ (rk_tree _ _ _ _ HR _ _ He)) as H. rewrite Forall_forall in H. by apply H.
  - apply Forall_forall. intros p (a & t & He & Hp)%elem_of_concat_leaves. apply entries_elem in He.
    pose proof (pr_ids _ _ _ (rk_tree _ _ _ _ HR _ _ He)) as H. rewrite Forall_forall in H. specialize (H p Hp).
    cbn in H. lia.
  - intros p (a & t & He & Hp)%elem_of_concat_leaves. apply entries_elem in He. by eapply Ht.
Qed.

Lemma shared_wf_empty t : shared_wf ∅ t -> no_shared t = true.
Proof.
  node_ind t; cbn; auto.
  - intros [H _]. by destruct (lookup_empty_Some (M := gmap positive) _ _ H).
  - induction IH as [|t ts Ht _ IHts]; cbn; [done|]. intros [? ?]. by rewrite Ht, IHts.
  - induction IH as [|t ts Ht _ IHts]; cbn; [done|]. intros [? ?]. by rewrite Ht, IHts.
Qed.

Lemma part_root_ok tail E lo n k root :
  tail_ok tail -> (forall p, p ∈ al (tail_info tail) -> chars_ok p = true) ->
  part_ok tail E lo n [] k root -> counted E root -> root_ok E root.
Proof.
  intros Htl Hch [P1 P2 P3 P4 P5] Hcnt. split; try done.
  - intros p Hp. destruct (P3 p Hp) as [Ha|[Ht|([? _] & _)]]; [|by apply Hch|done].
    unfold is_accept in Ha. unfold chars_ok. by destruct (node_type p).
  - intros p Hp Ha. by apply (el_accept _ _ P2 p).
Qed.

Lemma build_tree_spec tail E lo rs rules c n :
  tail_ok tail -> from_option (shared_wf E) True tail -> cache_ok c -> rules_ok lo rs (expr_map rules) c ->
  (lo <= c_next c <= n)%positive ->
  (forall p, p ∈ al (tail_info tail) -> is_accept p = false -> node_id p < n)%positive ->
  (forall a t p, expr_map rules !! a = Some t -> p ∈ leaves t -> p ∉ al (tail_info tail)) ->
  let '(root, _, n') := build_tree entries rules tail n in
  (n <= n')%positive /\
  match root with
  | None => expr_map rules = ∅
  | Some r => part_ok tail E lo n' [] (length (entries (expr_map rules))) r /\
      forall w, lang r w <-> exists a t, expr_map rules !! a = Some t /\ entry_lang tail (a, t) w
  end.
Proof.
  intros Htl Hsh Hc HR Hn Hids Hdis. unfold build_tree.
  pose proof (rules_entries tail lo rs _ c n Hc HR ltac:(lia) Hdis) as Hes.
  pose proof (build_loop_spec tail E lo Htl Hsh (entries (expr_map rules)) n 0 None 0 ltac:(lia) Hes Hids eq_refl) as H.
  destruct (build_loop _ _ _ _ _) as [[root len] n']. destruct H as [H1 H2]. split; [done|].
  destruct root as [r|].
  - destruct H2 as [H2 H3]. split; [done|]. intros w. rewrite H3. cbn. split.
    + intros [[]|([a t] & He & Hw)]. apply entries_elem in He. eauto.
    + intros (a & t & He & Hw). right. exists (a, t). by rewrite entries_elem.
  - destruct H2 as [_ H2]. pose proof (entries_perm (expr_map rules)) as Hp. rewrite H2 in Hp.
    apply Permutation_nil_l in Hp. by apply map_to_list_empty_iff.
Qed.

Lemma rules_accept lo rs m c a t : cache_ok c -> rules_ok lo rs m c -> m !! a = Some t -> is_accept a = true.
Proof.
  intros Hc HR Ha. destruct (proj1 (rk_dom _ _ _ _ HR a)) as (r & _ & Hr); [by eexists|].
  by apply (cc_shape c Hc) in Hr as [-> _].
Qed.
Lemma entry_lang_end tail a t : is_accept a = true ->
  leq (entry_lang tail (a, t)) (cat (lang t) (fun w => w = [Acc a] \/ from_option lang (fun _ => False) tail w)).
Proof. intros Ha. unfold entry_lang; cbn [fst snd]. by rewrite (rule_end_lang tail a Ha). Qed.

Lemma no_tail_ok : tail_ok None.
Proof. by split. Qed.

Definition tail_heap (tail : option Node) : shared_heap :=
  match tail with Some (SharedTreeNode id rc u) => {[id := (rc, u)]} | _ => ∅ end.

Lemma tail_tree_spec lo rs tail oob refs c n :
  cache_ok c -> rules_ok lo rs (expr_map tail) c -> (lo <= c_next c <= n)%positive ->
  let '(shared, n') := tail_tree entries tail oob refs n in
  (n <= n')%positive /\ tail_ok shared /\ from_option (shared_wf (tail_heap shared)) True shared /\
  (forall p, p ∈ al (tail_info shared) -> chars_ok p = true /\
    (is_accept p = false -> lo <= node_id p < n'))%positive /\
  match shared with
  | None => expr_map tail = ∅
  | Some t => (exists id u, t = SharedTreeNode id refs u) /\
      forall w, lang t w <-> exists v a u, w = Ch (separator oob) :: v /\
        expr_map tail !! a = Some u /\ cat (lang u) (fun w => w = [Acc a]) v
  end.
Proof.
  intros Hc HR Hn. unfold tail_tree.
  pose proof (build_tree_spec None ∅ lo rs tail c n no_tail_ok I Hc HR Hn) as H.
  destruct (build_tree entries tail None n) as [[t len] n1].
  destruct H as [H1 H2]; [intros p Hp; cbn in Hp; set_solver|intros a t' p _ _ Hp; cbn in Hp; set_solver|].
  destruct t as [t|].
  2: { split_and!; try done; apply no_tail_ok. }
  destruct H2 as [[P1 [P2 _] P3 P4 P5] H2]. set (s := Imp n1 (CharNode (separator oob))).
  fold (separator oob). fold s.
  assert (Hs : s ∉ al (info t)).
  { intros Hs. destruct (P3 s Hs) as [?|[Hx|(_ & ? & _)]]; [done|cbn in Hx; set_solver|]. cbn in *; lia. }
  assert (Hns : no_shared t = true) by (by apply shared_wf_empty).
  assert (Hal : forall p, p ∈ al (info (CatNode [Leaf s; t])) <-> p = s \/ p ∈ al (info t)) by (intros p; cbn; set_solver).
  refine (conj _ (conj _ (conj _ (conj _ _)))); [lia| | | |].
  - split; cbn [from_option info]; [|done|].
    + split; [|intros p _ Hp; cbn in Hp; set_solver]. intros p [->|Hp]%Hal Ha; [done|].
      destruct (P2 p Hp Ha) as [E1 E2]. cbn. rewrite E1, decide_False by set_solver. split; [set_solver|].
      destruct (nul (info t)); set_solver.
    + cbn. rewrite P1. cbn. rewrite andb_true_r. apply bool_decide_eq_true. set_solver.
  - split; [apply (lookup_singleton_eq (M := gmap positive))|]. cbn. by rewrite Hns.
  - intros p [->|Hp]%Hal; [split; [done|cbn; lia]|].
    destruct (P3 p Hp) as [Ha|[Hx|([? ?] & ? & _)]]; [|cbn in Hx; set_solver|split; [done|lia]].
    split; [|congruence]. unfold is_accept in Ha; unfold chars_ok. by destruct (node_type p).
  - split; [by do 2 eexists|]. intros w.
    assert (Hl : leq (lang (CatNode [Leaf s; t])) (cat (fun w => w = [Ch (separator oob)]) (lang t))).
    { transitivity (cat (lang (Leaf s)) (lang t)); [unfold lang; cbn; by rewrite cat_nil_r|]. f_equiv. intros v.
      unfold lang; cbn. split.
      - intros ([x|x] & -> & Hx); cbn in Hx; [apply Z.eqb_eq in Hx; by subst|by destruct Hx].
      - intros ->. eexists; split; [done|]. cbn. apply Z.eqb_refl. }
    rewrite (Hl w). split.
    + intros (? & v & -> & -> & Hv). apply H2 in Hv as (a & u & Ha & Hv). exists v, a, u. split_and!; try done.
      apply (entry_lang_end None a u (rules_accept _ _ _ _ _ _ Hc HR Ha)) in Hv as (x & y & -> & Hx & [->|[]]).
      by exists x, [Acc a].
    + intros (v & a & u & -> & Ha & x & y & -> & Hx & ->). exists [Ch (separator oob)], (x ++ [Acc a]).
      split_and!; try done. apply H2. exists a, u. split; [done|].
      apply (entry_lang_end None a u (rules_accept _ _ _ _ _ _ Hc HR Ha)). exists x, [Acc a]. auto.
Qed.

(** The accept nodes a string leads to: those of the rules it matches, and those
    of the tail's rules that match what follows a rule and a separator. *)
Definition reaches (m : gmap ImportantNode Node) (w : list Z) (a : ImportantNode) : Prop :=
  exists t, m !! a = Some t /\ zlang t w.
Definition reaches_tail (m : gmap ImportantNode Node) (tail : option aare_rules) (oob : bool)
    (w : list Z) (a : ImportantNode) : Prop :=
  reaches m w a \/
  exists tl u v b, tail = Some tl /\ w = u ++ separator oob :: v /\ reaches m u b /\ reaches (expr_map tl) v a.

Lemma accept_word n t n' w a b : private_tree n t n' ->
  cat (lang t) (fun w => w = [Acc b]) (map Ch w ++ [Acc a]) <-> a = b /\ zlang t w.
Proof.
  intros Hpr. rewrite <- lang_zlang. split.
  - intros (x & y & E & Hx & ->). apply app_inj_2 in E as [E [= ->]]; [|done]. by rewrite E.
  - intros [-> Hw]. by exists (map Ch w), [Acc b].
Qed.
Lemma entry_word tail n t n' w a b : private_tree n t n' -> is_accept b = true ->
  entry_lang tail (b, t) (map Ch w ++ [Acc a]) <->
  (a = b /\ zlang t w) \/
  exists u v, w = u ++ v /\ zlang t u /\ from_option lang (fun _ => False) tail (map Ch v ++ [Acc a]).
Proof.
  intros Hpr Hb. rewrite (entry_lang_end tail b t Hb _), <- (accept_word n t n' w a b Hpr). split.
  - intros (x & y & E & Hx & [->|Hy]); [left; by exists x, [Acc b]|right].
    destruct (plain_word _ _ _ _ Hpr Hx) as [u ->]. symmetry in E. apply word_split in E as (v & -> & ->).
    exists u, v. split_and!; [done|by apply lang_zlang|done].
  - intros [(x & y & E & Hx & ->)|(u & v & -> & Hu & Hv)]; [exists x, [Acc b]; auto|].
    exists (map Ch u), (map Ch v ++ [Acc a]). rewrite map_app, app_assoc. split_and!; [done|by apply lang_zlang|by right].
Qed.
Lemma tail_word lo rs m c oob v a :
  rules_ok lo rs m c ->
  (exists v0 b u, map Ch v ++ [Acc a] = Ch (separator oob) :: v0 /\ m !! b = Some u /\
     cat (lang u) (fun w => w = [Acc b]) v0) <->
  exists v', v = separator oob :: v' /\ reaches m v' a.
Proof.
  intros HR. split.
  - intros (v0 & b & u & E & Hb & Hv). destruct v as [|x v]; [done|]. injection E as -> <-.
    apply (accept_word _ u _ v a b (rk_tree _ _ _ _ HR _ _ Hb)) in Hv as [-> Hv].
    exists v; split; [done|]. by exists u.
  - intros (v' & -> & u & Ha & Hu). exists (map Ch v' ++ [Acc a]), a, u. split_and!; try done.
    by apply (accept_word _ u _ v' a a (rk_tree _ _ _ _ HR _ _ Ha)).
Qed.

Lemma create_root_spec lo rs rules tail trs oob c1 c root len :
  cache_ok c1 -> rules_ok lo rs (expr_map rules) c1 -> (lo <= c_next c1)%positive ->
  cache_ok c -> cache_le c1 c ->
  match tail with Some t => rules_ok (c_next c1) trs (expr_map t) c | None => True end ->
  create_root entries rules tail oob (c_next c) = (Some root, len) ->
  exists E, root_ok E root /\
  forall w a, lang root (map Ch w ++ [Acc a]) <-> reaches_tail (expr_map rules) tail oob w a.
Proof.
  intros Hc1 HR1 Hlo Hc Hle HT. pose proof (rules_ok_mono _ _ _ _ _ Hc Hle HR1) as HR.
  pose proof (cl_next _ _ Hle) as Hnext. unfold create_root.
  assert (Hword : forall shared root,
    (forall w, lang root w <-> exists a t, expr_map rules !! a = Some t /\ entry_lang shared (a, t) w) ->
    forall w a, lang root (map Ch w ++ [Acc a]) <-> reaches (expr_map rules) w a \/
      exists u v b, w = u ++ v /\ reaches (expr_map rules) u b /\
        from_option lang (fun _ => False) shared (map Ch v ++ [Acc a])).
  { clear root. intros shared root Hl w a. rewrite Hl. split.
    - intros (b & t & Hb & Hw).
      apply (entry_word _ _ _ _ _ _ _ (rk_tree _ _ _ _ HR _ _ Hb) (rules_accept _ _ _ _ _ _ Hc HR Hb)) in Hw
        as [[-> Hw]|(u & v & -> & Hu & Hv)]; [left; by exists t|right]. exists u, v, b. split_and!; try done. by exists t.
    - intros [(t & Hb & Hw)|(u & v & b & -> & (t & Hb & Hw) & Hv)];
        [exists a, t|exists b, t]; (split; [done|]);
        apply (entry_word _ _ _ _ _ _ _ (rk_tree _ _ _ _ HR _ _ Hb) (rules_accept _ _ _ _ _ _ Hc HR Hb)); eauto 6. }
  destruct tail as [tl|].
  - destruct (reverse rules || reverse tl); [done|].
    pose proof (tail_tree_spec (c_next c1) trs tl oob (length (entries (expr_map rules))) c (c_next c) Hc HT) as H.
    destruct (tail_tree entries tl oob (length (entries (expr_map rules))) (c_next c)) as [shared n].
    destruct H as (H1 & H2 & H3 & H4 & H5); [lia|].
    pose proof (build_tree_spec shared (tail_heap shared) lo rs rules c n H2 H3 Hc HR) as H.
    destruct (build_tree entries rules shared n) as [[r len'] n']. intros [= -> ->].
    destruct H as [_ [H6 H7]]; [lia|by intros p Hp Ha; apply H4| |].
    { intros b t p Hb Hp Hx. pose proof (rk_tree _ _ _ _ HR1 _ _ Hb) as [_ _ _ Hids Hpl].
      rewrite Forall_forall in Hids, Hpl. specialize (Hids p Hp). destruct (Hpl p Hp) as [_ Ha].
      apply H4 in Hx as [_ Hx]. specialize (Hx Ha). cbn in Hids. lia. }
    exists (tail_heap shared). split.
    + eapply part_root_ok; [done|by intros p Hp; apply H4|done|]. destruct H6 as [_ _ _ _ Hrefs].
      intros id [rc u] Hid. destruct shared as [ts|]; [|by destruct (lookup_empty_Some (M := gmap positive) _ _ Hid)].
      destruct H5 as [(sid & su & ->) _]. 
      destruct (proj1 (lookup_singleton_Some (M := gmap positive) _ _ _ _) Hid) as [<- [= <- <-]].
      specialize (Hrefs sid). cbn in Hrefs. rewrite decide_True in Hrefs by done. lia.
    + intros w a. rewrite (Hword shared root H7). unfold reaches_tail. f_equiv. split.
      * intros (u & v & b & -> & Hb & Hv). destruct shared as [ts|]; [|done]. cbn in Hv.
        apply H5, (tail_word _ _ _ _ _ _ _ HT) in Hv as (v' & -> & Hv). by exists tl, u, v', b.
      * intros (tl' & u & v & b & [= <-] & -> & Hb & Hv). exists u, (separator oob :: v), b. split_and!; try done.
        destruct shared as [ts|]; [|destruct Hv as (t & Ht & _); by rewrite H5 in Ht].
        apply (proj2 H5), (proj2 (tail_word _ _ _ _ oob (separator oob :: v) a HT)). by exists v.
  - pose proof (build_tree_spec None ∅ lo rs rules c (c_next c) no_tail_ok I Hc HR) as H.
    destruct (build_tree entries rules None (c_next c)) as [[r len'] n']. intros [= -> ->].
    destruct H as [_ [H6 H7]]; [lia|intros p Hp; cbn in Hp; set_solver|intros b t p _ _ Hp; cbn in Hp; set_solver|].
    exists ∅. split.
    + eapply part_root_ok; [apply no_tail_ok|intros p Hp; cbn in Hp; set_solver|done|apply map_Forall_empty].
    + intros w a. rewrite (Hword None root H7). unfold reaches_tail. f_equiv. cbn. naive_solver.
Qed.
End roots.

(** ** From rules to permissions *)

Definition rule_granted (rs : list rule) (w : list Z) (u : UniquePerm) : Prop :=
  exists r, r ∈ rs /\ rule_perm r = u /\ rule_lang r w.
(** The permissions that the rules [rs], each followed by the optional rules
    [trs], give to a string. *)
Definition granted (rs : list rule) (trs : option (list rule)) (oob : bool) (w : list Z) (u : UniquePerm) : Prop :=
  rule_granted rs w u \/
  exists ts x v u', trs = Some ts /\ w = x ++ separator oob :: v /\ rule_granted rs x u' /\ rule_granted ts v u.
Definition perm_match (u : UniquePerm) : flag := Flag (perm_flag u) (up_priority u) (up_perms u) (up_audit u).

Lemma reaches_granted lo rs m c w u a :
  cache_ok c -> rules_ok lo rs m c -> (u, a) ∈ c_nodes c -> reaches m w a <-> rule_granted rs w u.
Proof.
  intros Hc HR Hu. split.
  - intros (t & Ha & Hw). apply (rk_lang _ _ _ _ HR _ _ _ Ha) in Hw as (r & Hr & Hra & Hw).
    exists r. split_and!; [done|by eapply (cc_inj c)|done].
  - intros (r & Hr & <- & Hw). destruct (proj2 (rk_dom _ _ _ _ HR a)) as [t Ha]; [by eauto|].
    exists t. split; [done|]. apply (rk_lang _ _ _ _ HR _ _ _ Ha). eauto.
Qed.
Lemma reaches_perm lo rs m c w a :
  rules_ok lo rs m c -> reaches m w a -> exists u, (u, a) ∈ c_nodes c.
Proof.
  intros HR (t & Ha & _). destruct (proj1 (rk_dom _ _ _ _ HR a)) as (r & _ & Hr); eauto.
Qed.
Lemma granted_perm lo rs m c w u :
  rules_ok lo rs m c -> rule_granted rs w u -> exists a, (u, a) ∈ c_nodes c.
Proof. intros HR (r & Hr & <- & _). by apply (rk_perm _ _ _ _ HR). Qed.

(** The permissions of a list of accept nodes of the cache. *)
Lemma cache_perms c accepts :
  cache_ok c -> NoDup accepts -> (forall a, a ∈ accepts -> exists u, (u, a) ∈ c_nodes c) ->
  exists us, NoDup us /\ omap flag_of accepts = map perm_match us /\
  (forall u, u ∈ us -> exists a, (u, a) ∈ c_nodes c) /\
  forall u a, (u, a) ∈ c_nodes c -> u ∈ us <-> a ∈ accepts.
Proof.
  intros Hc Hnd Hin. induction Hnd as [|a accepts Ha Hnd IH].
  { exists []. split_and!; [constructor|done|by intros u ?%elem_of_nil|]. intros u a _. by rewrite !elem_of_nil. }
  destruct IH as (us & Hus & Hm & Hca & Hiff); [by intros b Hb; apply Hin; right|].
  destruct (Hin a) as [u Hu]; [by left|]. exists (u :: us). split_and!.
  - constructor; [|done]. by rewrite (Hiff u a Hu).
  - destruct (cc_shape c Hc u a Hu) as [Ea _]. cbn. rewrite Ea. cbn. by f_equal.
  - intros v [->|Hv]%elem_of_cons; eauto.
  - intros v b Hv. rewrite !elem_of_cons, (Hiff v b Hv). split; (intros [->|?]; [left|by right]).
    + by eapply (cc_fun c).
    + by eapply (cc_inj c).
Qed.

Lemma build_automaton_perms order opts fd ext E root d w :
  (forall s, order s ≡ₚ elements s) -> root_ok E root -> build_automaton order opts fd ext root = Some d ->
  Forall is_byte w ->
  exists accepts p, NoDup accepts /\
  (forall a, a ∈ accepts <-> is_accept a = true /\ lang root (map Ch w ++ [Acc a])) /\
  perms_of fd accepts = Some p /\
  dfa_perms d w = Some (if negb ext || dfa_filter_deny opts then (Accept.apply_and_clear_deny p).1 else p).
Proof.
  intros Hord Hroot. unfold build_automaton. destruct (create_dfa order root fd) as [d0|] eqn:E0; [|done].
  intros Hd Hw. destruct (run_accepts order E root fd d0 w Hord Hroot E0) as (l & s & accepts & Hr & Hs & Hp & Hnd & Ha).
  { intros Hex. apply Exists_exists in Hex as (c & Hc & Hlt). rewrite Forall_forall in Hw.
    specialize (Hw c Hc). unfold is_byte in Hw; lia. }
  pose proof (create_dfa_wf order E root fd d0 Hord Hroot E0) as W0.
  assert (P0 : dfa_perms d0 w = Some (s_perms s)).
  { unfold dfa_perms, perms_at. rewrite match_len_run, Hr, Hs by done. done. }
  exists accepts, (s_perms s). split_and!; try done.
  set (d1 := if negb ext || dfa_filter_deny opts then _ else d0) in Hd.
  assert (H1 : dfa_wf d1 /\ dfa_perms d1 w = Some (if negb ext || dfa_filter_deny opts
    then (Accept.apply_and_clear_deny (s_perms s)).1 else s_perms s)).
  { unfold d1. destruct (negb ext || dfa_filter_deny opts); [|done]. split; [by apply clear_deny_wf|].
    rewrite dfa_clear_deny_perms by done. by rewrite P0. }
  destruct H1 as [W1 P1]. rewrite <- P1. clear P1 P0 W0. clearbody d1.
  assert (H2 : exists d2, (if dfa_minimize opts then minimize d1 else Some d1) = Some d2 /\ dfa_wf d2 /\ dfa_equiv d2 d1).
  { destruct (dfa_minimize opts); [|by exists d1]. destruct (minimize_spec d1 W1) as (d2 & ? & ? & ? & _). by exists d2. }
  destruct H2 as (d2 & E2 & W2 & P2). rewrite E2 in Hd. injection Hd as <-.
  destruct (dfa_remove_unreachable opts); [|apply P2]. rewrite (remove_unreachable_equiv d2 W2 w). apply P2.
Qed.

(** The two rule sets of a profile, which share their accept nodes: the rules,
    and the optional rules that may follow. *)
Inductive added (rev : bool) (rs : list rule) : option (list rule) ->
    aare_rules -> option aare_rules -> UniquePermsCache -> Prop :=
| added_rules rules c :
    add_rules rs (new_rules rev) new_cache = Added rules c -> added rev rs None rules None c
| added_tail rules c1 trs tail c :
    add_rules rs (new_rules rev) new_cache = Added rules c1 -> add_rules trs (new_rules false) c1 = Added tail c ->
    added rev rs (Some trs) rules (Some tail) c.

(** What is known of the two sets. *)
Lemma added_spec rev rs trs rules tail c :
  added rev rs trs rules tail c ->
  exists c1, cache_ok c1 /\ rules_ok 1 rs (expr_map rules) c1 /\ cache_ok c /\ cache_le c1 c /\
  match trs, tail with
  | Some ts, Some tl => rules_ok (c_next c1) ts (expr_map tl) c
  | None, None => True
  | _, _ => False
  end.
Proof.
  assert (H0 : forall rules c1, add_rules rs (new_rules rev) new_cache = Added rules c1 ->
    cache_ok c1 /\ rules_ok 1 rs (expr_map rules) c1).
  { intros rules1 c1 H. destruct (add_rules_spec 1 [] rs (new_rules rev) _ _ _ new_cache_ok ltac:(cbn; lia) (rules_ok_nil _ _) H)
      as (H1 & _ & H2 & _). done. }
  destruct 1 as [rules c H|rules c1 ts tail c H Ht].
  - destruct (H0 _ _ H) as [H1 H2]. exists c. by split_and!.
  - destruct (H0 _ _ H) as [H1 H2]. exists c1.
    destruct (add_rules_spec (c_next c1) [] ts (new_rules false) _ _ _ H1 ltac:(lia) (rules_ok_nil _ _) Ht) as (H3 & H4 & H5 & _).
    by split_and!.
Qed.

(** C40: adding rules keeps the rule sets well formed: there is one accept node
    for each set of permissions, which makes exactly the tests of those
    permissions; each tree of a set owns its nodes, belongs to the permissions of
    some rule of the set and matches what the rules with these permissions match;
    and the optional rules use the same accept nodes without changing the trees
    that were there. *)
Theorem rule_sets_wf rev rs trs rules tail c :
  added rev rs trs rules tail c ->
  cache_ok c /\ rules_ok 1 rs (expr_map rules) c /\
  from_option (fun t => rules_ok 1 (default [] trs) (expr_map t) c) True tail.
Proof.
  intros H. destruct (added_spec _ _ _ _ _ _ H) as (c1 & H1 & H2 & H3 & H4 & H5).
  split_and!; [done|by eapply rules_ok_mono|]. destruct tail as [t|]; [|done]. destruct trs as [ts|]; [|done].
  destruct H5 as [R1 R2 R3 R4 R5]. split; try done. intros a u Ha. eapply private_from, R3, Ha. apply Pos.le_1_l.
Qed.

Lemma added_granted rev rs trs rules tail c oob w u a :
  added rev rs trs rules tail c -> (u, a) ∈ c_nodes c ->
  reaches_tail (expr_map rules) tail oob w a <-> granted rs trs oob w u.
Proof.
  intros Hadd Hu. destruct (added_spec _ _ _ _ _ _ Hadd) as (c1 & Hc1 & HR1 & Hc & Hle & HT).
  pose proof (rules_ok_mono _ _ _ _ _ Hc Hle HR1) as HR. unfold reaches_tail, granted.
  rewrite (reaches_granted _ _ _ _ _ _ _ Hc HR Hu). f_equiv. destruct trs as [ts|], tail as [tl|]; try done; [|naive_solver].
  split.
  - intros (tl' & x & v & b & [= <-] & -> & Hb & Hv). destruct (reaches_perm _ _ _ _ _ _ HR Hb) as [u' Hu'].
    exists ts, x, v, u'. split_and!; try done; [by apply (reaches_granted _ _ _ _ _ _ _ Hc HR Hu')|].
    by apply (reaches_granted _ _ _ _ _ _ _ Hc HT Hu).
  - intros (ts' & x & v & u' & [= <-] & -> & Hb & Hv). destruct (granted_perm _ _ _ _ _ _ HR Hb) as [b Hb'].
    exists tl, x, v, b. split_and!; try done; [by apply (reaches_granted _ _ _ _ _ _ _ Hc HR Hb')|].
    by apply (reaches_granted _ _ _ _ _ _ _ Hc HT Hu).
Qed.

Lemma added_perm rev rs trs rules tail c oob w a :
  added rev rs trs rules tail c -> reaches_tail (expr_map rules) tail oob w a -> exists u, (u, a) ∈ c_nodes c.
Proof.
  intros Hadd. destruct (added_spec _ _ _ _ _ _ Hadd) as (c1 & Hc1 & HR1 & Hc & Hle & HT).
  pose proof (rules_ok_mono _ _ _ _ _ Hc Hle HR1) as HR.
  intros [Ha|(tl & x & v & b & -> & -> & _ & Ha)]; [by apply (reaches_perm _ _ _ _ _ _ HR Ha)|].
  destruct trs as [ts|]; [|done]. by apply (reaches_perm _ _ _ _ _ _ HT Ha).
Qed.
Lemma granted_cached rev rs trs rules tail c oob w u :
  added rev rs trs rules tail c -> granted rs trs oob w u -> exists a, (u, a) ∈ c_nodes c.
Proof.
  intros Hadd. destruct (added_spec _ _ _ _ _ _ Hadd) as (c1 & Hc1 & HR1 & Hc & Hle & HT).
  pose proof (rules_ok_mono _ _ _ _ _ Hc Hle HR1) as HR.
  intros [Ha|(ts & x & v & b & -> & -> & _ & Ha)]; [by apply (granted_perm _ _ _ _ _ _ HR Ha)|].
  destruct tail as [tl|]; [|done]. by apply (granted_perm _ _ _ _ _ _ HT Ha).
Qed.

Lemma created_root (simplifier : TreeSimplifier) entries rev rs trs rules tail c oob root len :
  (forall m, entries m ≡ₚ map_to_list m) -> added rev rs trs rules tail c ->
  create_root entries rules tail oob (c_next c) = (Some root, len) ->
  exists E, root_ok E root /\
  forall w a, lang root (map Ch w ++ [Acc a]) <-> reaches_tail (expr_map rules) tail oob w a.
Proof.
  intros Hent Hadd Hroot. destruct (added_spec _ _ _ _ _ _ Hadd) as (c1 & Hc1 & HR1 & Hc & Hle & HT).
  apply (create_root_spec entries Hent 1 rs rules tail (default [] trs) oob c1 c root len); try done;
    [apply Pos.le_1_l|by destruct trs, tail].
Qed.

(** C1: the automaton of a set of rules does what the rules say: whatever
    simplification, minimisation and removal of states are chosen, and in
    whatever order nodes are kept, the permissions of a string are computed from
    exactly the accept nodes of the rules whose regular expressions, joined by
    separators, match it, and of the optional rules that match what follows such
    a rule and a separator; denied permissions are taken off when asked for. *)
Theorem rules_automaton_correct (simplifier : TreeSimplifier) entries order opts fd ext
    rev rs trs rules tail c oob root len d w :
  (forall m, entries m ≡ₚ map_to_list m) -> (forall s, order s ≡ₚ elements s) ->
  added rev rs trs rules tail c ->
  create_root entries rules tail oob (c_next c) = (Some root, len) ->
  build_automaton order opts fd ext root = Some d -> Forall is_byte w ->
  exists us p, NoDup us /\ (forall u, u ∈ us <-> granted rs trs oob w u) /\
  flags_perms fd (map perm_match us) = Some p /\
  dfa_perms d w = Some (if negb ext || dfa_filter_deny opts then (Accept.apply_and_clear_deny p).1 else p).
Proof.
  intros Hent Hord Hadd Hcr Hd Hw. destruct (created_root _ _ _ _ _ _ _ _ _ _ _ Hent Hadd Hcr) as (E & Hroot & Hlang).
  destruct (build_automaton_perms order opts fd ext E root d w Hord Hroot Hd Hw) as (accepts & p & Hnd & Ha & Hp & Hdp).
  destruct (added_spec _ _ _ _ _ _ Hadd) as (c1 & _ & _ & Hc & _).
  assert (Hin : forall a, a ∈ accepts -> exists u, (u, a) ∈ c_nodes c).
  { intros a Hacc. apply Ha in Hacc as [_ Hl]. apply Hlang in Hl. by eapply added_perm. }
  destruct (cache_perms c accepts Hc Hnd Hin) as (us & Hus & Hm & Hca & Hiff).
  exists us, p. split_and!; try done; [|unfold perms_of in Hp; by rewrite Hm in Hp].
  assert (Hcase : forall u a, (u, a) ∈ c_nodes c -> u ∈ us <-> granted rs trs oob w u).
  { intros u a Hu. rewrite (Hiff u a Hu), Ha, Hlang, (added_granted _ _ _ _ _ _ _ _ _ _ Hadd Hu).
    destruct (cc_shape c Hc u a Hu) as [-> _]. split; [by intros []|done]. }
  intros u. split; intros Hu.
  - destruct (Hca u Hu) as [a Hua]. by apply (Hcase u a).
  - destruct (granted_cached _ _ _ _ _ _ _ _ _ Hadd Hu) as [a Hua]. by apply (Hcase u a).
Qed.

(** ** Errors *)

Definition pattern_parses (text : cstr) : Prop := exists t n, regex_parse 1 text = Parsed t n.
Definition rule_parses (r : rule) : Prop := r_vec r <> [] /\ Forall pattern_parses (r_vec r).

Lemma pattern_parses_iff n text : pattern_parses text <-> exists t n', regex_parse n text = Parsed t n'.
Proof.
  pose proof (regex_parse_renumber n 1 text) as H1. pose proof (regex_parse_renumber 1 n text) as H2.
  unfold pattern_parses. split; intros (t & m & E); rewrite E in *; naive_solver.
Qed.
Lemma parse_vec_total oob rv tree n :
  (exists t n', parse_vec oob tree rv n = Parsed t n') <-> Forall pattern_parses rv.
Proof.
  revert tree n; induction rv as [|r rv IH]; intros tree n; cbn [parse_vec]; [split; [by constructor|by eauto]|].
  rewrite Forall_cons, (pattern_parses_iff n r). destruct (regex_parse n r) as [t n1| |]; cbn [cat_with_separator].
  - rewrite IH. naive_solver.
  - naive_solver.
  - naive_solver.
Qed.
Lemma rule_tree_total r n : (exists t n', rule_tree r n = Parsed t n') <-> rule_parses r.
Proof.
  unfold rule_tree, rule_parses. destruct (r_vec r) as [|r0 rv]; [naive_solver|].
  rewrite Forall_cons, (pattern_parses_iff n r0). destruct (regex_parse n r0) as [t n1| |]; [|naive_solver..].
  rewrite parse_vec_total. naive_solver.
Qed.

(** C39: a set of rules is accepted exactly when the regular expressions of every
    rule are accepted by the parser; the first rule with one that is not ends the
    addition with an error. *)
Theorem rules_added_iff rs rules c :
  (exists rules' c', add_rules rs rules c = Added rules' c') <-> Forall rule_parses rs.
Proof.
  revert rules c; induction rs as [|r rs IH]; intros rules c; cbn [add_rules]; [split; [by constructor|by eauto]|].
  rewrite Forall_cons, <- (rule_tree_total r (c_next c)). unfold add_rule_vec.
  destruct (rule_tree r (c_next c)) as [t n| |]; [|naive_solver..].
  destruct (cache_insert _ _) as [a c']. rewrite IH. naive_solver.
Qed.

(** Trees of a reversed rule set are turned over twice, by [add_rule_vec] and by
    [add_to_rules], so that they are as they were. *)
Lemma reverse_twice r m k c :
  match add_rule_vec r (MkRules m true k) c, add_rule_vec r (MkRules m false k) c with
  | Added rules c1, Added rules' c1' => expr_map rules = expr_map rules' /\ c1 = c1'
  | NotAdded, NotAdded | Endless, Endless => True
  | _, _ => False
  end.
Proof.
  unfold add_rule_vec. destruct (rule_tree r (c_next c)) as [t n| |]; [|done..].
  destruct (cache_insert _ _) as [a c']. cbn. by rewrite flip_involutive.
Qed.

(** ** An example *)

(** /a[^/]* and /ab, the second denied, and what may follow after a zero byte. *)
Definition sample_rules : list rule :=
  [Rule 0 ModeAllow 4 0 [$"/a[^/]*"] false; Rule 0 ModeDeny 2 0 [$"/ab"] false; Rule 0 ModeAllow 8 0 [$"/a"; $"b|c"] false].
Definition sample_tail : list rule := [Rule 0 ModeAllow 4 4 [$"x+"] false].

Definition sample_opts : optflags := MkOpts true false true.

Lemma rules_automaton_correct_witness :
  exists rules tail c root len d,
  added false sample_rules (Some sample_tail) rules (Some tail) c /\
  create_root (simplifier := vector_simplification insertion_sort true) map_to_list rules (Some tail) false (c_next c)
    = (Some root, len) /\
  build_automaton elements sample_opts false true root = Some d /\
  dfa_perms d [47; 97; 0; 120; 120] = Some (Perms 4 0 0 4 0) /\
  exists us p, NoDup us /\ (forall u, u ∈ us <-> granted sample_rules (Some sample_tail) false [47; 97; 0; 120; 120] u) /\
  flags_perms false (map perm_match us) = Some p /\
  dfa_perms d [47; 97; 0; 120; 120] =
    Some (if negb true || dfa_filter_deny sample_opts then (Accept.apply_and_clear_deny p).1 else p).
Proof.
  assert (H : (match add_rules sample_rules (new_rules false) new_cache with
    | Added rules c1 => match add_rules sample_tail (new_rules false) c1 with
      | Added tail c => match create_root (simplifier := vector_simplification insertion_sort true)
            map_to_list rules (Some tail) false (c_next c) with
        | (Some root, _) => match build_automaton elements sample_opts false true root with
          | Some d => bool_decide (dfa_perms d [47; 97; 0; 120; 120] = Some (Perms 4 0 0 4 0))
          | None => false end
        | _ => false end
      | _ => false end
    | _ => false end) = true) by (vm_compute; reflexivity).
  destruct (add_rules sample_rules (new_rules false) new_cache) as [rules c1| |] eqn:E1; [|discriminate H..].
  destruct (add_rules sample_tail (new_rules false) c1) as [tail c| |] eqn:E2; [|discriminate H..].
  destruct (create_root map_to_list rules (Some tail) false (c_next c)) as [[root|] len] eqn:E3; [|discriminate H].
  destruct (build_automaton elements sample_opts false true root) as [d|] eqn:E4; [|discriminate H].
  apply bool_decide_eq_true in H.
  assert (Hadd : added false sample_rules (Some sample_tail) rules (Some tail) c) by (apply added_tail with c1; assumption).
  exists rules, tail, c, root, len, d. split; [exact Hadd|]. split; [exact E3|]. split; [exact E4|]. split; [exact H|].
  apply (rules_automaton_correct (vector_simplification insertion_sort true) map_to_list elements sample_opts false true
    false sample_rules (Some sample_tail) rules (Some tail) c false root len d).
  - reflexivity.
  - reflexivity.
  - exact Hadd.
  - exact E3.
  - exact E4.
  - apply (bool_decide_unpack _). vm_compute. exact I.
Defined.

Lemma rule_sets_wf_witness :
  exists rules tail c, added false sample_rules (Some sample_tail) rules (Some tail) c /\
  cache_ok c /\ rules_ok 1 sample_rules (expr_map rules) c /\ rules_ok 1 sample_tail (expr_map tail) c.
Proof.
  assert (H : (match add_rules sample_rules (new_rules false) new_cache with
    | Added rules c1 => match add_rules sample_tail (new_rules false) c1 with Added _ _ => true | _ => false end
    | _ => false end) = true) by (vm_compute; reflexivity).
  destruct (add_rules sample_rules (new_rules false) new_cache) as [rules c1| |] eqn:E1; [|discriminate H..].
  destruct (add_rules sample_tail (new_rules false) c1) as [tail c| |] eqn:E2; [|discriminate H..].
  assert (Hadd : added false sample_rules (Some sample_tail) rules (Some tail) c) by (apply added_tail with c1; assumption).
  exists rules, tail, c. split; [exact Hadd|].
  exact (rule_sets_wf false sample_rules (Some sample_tail) rules (Some tail) c Hadd).
Defined.
